(* ===== verification/_CoqProject ===== *)
-Q . S2P
Prelude.v
Json.v
JsonText.v
JsonIndent.v
Isa.v
Transducer.v
TransducerBase.v
TransducerCompressed.v
TransducerSpec.v
Genome.v
GenomeCodec.v
Rv32iSources.v
Rv32iSpec.v
Memory.v
MemorySpec.v
Ledger.v
MemoryService.v
MemoryServiceSpec.v
StateDependency.v
StateDependencySpec.v
Ownership.v
Scheduler.v
SchedulerSpec.v
Router.v
RouterSpec.v
Irq.v
IrqGroup.v
Feedback.v
Spi.v
Dependency.v
DependencySpec.v
EdgePaths.v
EdgePathsSpec.v
Mutation.v
Uart.v
I2c.v
Goal.v
GoalSpec.v
Policy.v
PolicySpec.v
PolicyChoice.v
Corpus.v
CorpusSpec.v
RvProgram.v
RvFlowSpec.v
RvProgramSpec.v
RvForward.v
RvAccepted.v
