(* ===== verification/Prelude.v ===== *)
(** * The deterministic core of the myfuzz scenario fuzzer

    ** The program

    myfuzz drives small systems of processors and peripherals (each simulated
    by a harness of its own) with testcases, called genomes, and checks the
    traffic between them.  Its Python package is [src/src/myfuzz].  A run goes
    through the parts modelled here as follows.

    - A genome arrives in chunks and its records are checked by their
      constructors ([scenario/genome.py]).  Its bits come from declared sources;
      every input bit of every component has one owner ([scenario/ownership.py]),
      and AND/OR rules say which sources drive which target
      ([scenario/dependency.py]).
    - A feedback step selects a path and flips one bit of its source
      ([scenario/mutation.py]); instruction bits are decoded or repaired to legal
      instructions ([isa/constraints.py], [isa/transducer.py],
      [scenario/rv32i_sources.py]).
    - The scheduler releases the genome's actions while the runner steps the
      components ([scenario/scheduler.py], [step_batch] of [scenario/runner.py]).
    - Processor requests go to memory ([scenario/memory.py]), through the memory
      service ([scenario/memory_service.py]), or, through the router
      ([scenario/router.py]), to register targets; transaction ledgers
      ([scenario/ledger.py]) make every target operation happen at most once.
      A tracker ([scenario/state_dependency.py]) turns the events of the memory
      service into dependencies between transactions.
    - Lines that leave the system end in peers: interrupt delivery
      ([scenario/irq.py]), several sources on one CPU input
      ([scenario/irq_delivery_group.py]), UART, SPI and I2C ([scenario/uart_peer.py],
      [scenario/spi_peer.py], [scenario/pulp_spi_peer.py],
      [scenario/i2c_peer.py]).
    - A search works towards a goal, a graph of conditions some of which are
      observed ([search/model.py]); the open conditions that can be acted on now
      are its frontier ([search/frontier.py]).  A policy tries the catalog's
      actions and shares what a trial finds among those that took part
      ([search/actions.py], [search/policy.py]).  The in-process fuzzer keeps the
      records it has run in a bounded corpus ([fuzz/corpus.py]).  Short RV32
      programs for a trampoline are admitted by a static gate and compared with a
      reference interpreter ([fuzz/rv32_program.py]).

    ** The files

    A definition keeps the name of the function it translates; where a class is
    a record its methods are functions on the record; [X_post_init] is
    [X.__post_init__] and [new_x] the constructor of class [X].

    - [Prelude]: results and exceptions, the state-and-exception monad, Python's
      lists and ordered dictionaries, and the development's tactics.
      [Json]: the canonical JSON text and the interface of SHA-256.  [JsonText]:
      [json.loads], with the round trip.  [JsonIndent]: indented text in ASCII, and
      that it reads back.
    - [Isa], [Transducer] with [TransducerBase], [TransducerCompressed] and
      [TransducerSpec]: [IsaContract], [RiscvInstructionProvider] and
      [RiscvInstructionTransducer], [select_balanced].
    - [Genome]: the records of a testcase and [ChunkAssembler].  [GenomeCodec]:
      [encode] and [decode] between a genome and its text.
    - [Rv32iSources], [Rv32iSpec]: RV32I instructions, MMIO fragments, mutation,
      decoding and admission of bytes.
    - [Memory], [MemorySpec]: [PersistentMemory].
    - [MemoryService], [MemoryServiceSpec]: [MemoryService], which calls the
      memory and the ledger's [execute_once]; the text of a key is the class
      [KeyText].  [StateDependency], [StateDependencySpec]:
      [StateDependencyTracker], and how the runner's step and [reset_all] drive
      service, memory and tracker together ([System]).
    - [Ledger]: [TransactionLedger].  [Router], [RouterSpec]: [DataflowRouter],
      which calls the ledger's [accept], [complete_accepted], [cancel_accepted]
      and [execute_once]; the register targets are the class [Targets].
    - [Ownership]: [compile_ownership] and the queries of [OwnershipMap].
    - [Scheduler], [SchedulerSpec]: [DependencyScheduler.run] and
      [ScenarioRunner.step_batch]; the rest of the runner is the class [Runner].
    - [Dependency], [DependencySpec]: [DependencyGraph] and [SourceBindings].
      [EdgePaths], [EdgePathsSpec]: [DependencyGraph.edge_paths_to], nested
      generators as continuations.
    - [Mutation]: [choose_mutation] and [mutate_genome], which call
      [mutation_source] and [field_width] of [Ownership] and [paths_to] and
      [path_identity] of [Dependency].
    - [Irq], [Spi], [Uart], [I2c]: [IrqPulseDelivery] and the serial peers.
      [IrqGroup]: [IrqDeliveryGroupState] and the runner's step over it and the
      pulse deliveries ([Delivery]).
    - [Feedback]: [CoverageTarget] and [observed_targets].
    - [Goal], [GoalSpec]: [Snapshot], [Goal], [status] and [frontier].  [Policy],
      [PolicySpec], [PolicyChoice]: [Catalog], [context_key], [Decision] and
      [Policy], which calls [frontier].  [Corpus], [CorpusSpec]: [Corpus].
    - [RvProgram]: [validate_program_words], [control_flow_analysis],
      [address_provenance] and [run_program].  [RvFlowSpec]: the provenance
      fixpoint.  [RvForward]: the forward pass.  [RvProgramSpec], [RvAccepted]:
      the runs of accepted programs.

    ** State, errors and integers

    Python integers are [Z], with masks and shifts as in the source; byte strings
    are lists of [Z] with [is_byte]; dictionaries are [gmap] where their order
    is not observed and association lists ([od_get], [od_set]) where it is.  A
    function that may raise returns a [result]; the exceptions keep their
    messages.  A method that changes an object is a computation of [M], which
    keeps the assignments made before a raise.  The [isinstance] tests of the
    source hold by typing.  Code outside the repository (SHA-256, harnesses,
    real register targets, callbacks) is a class or an argument: [Hashlib],
    [Runner], [Targets].  Example modules instantiate them.

    ** What the theorems show

    - Ledger: a target runs at most once and in order; completed keys replay;
      an uncertain effect is final.
    - Memory: an invariant of all reachable memories, failure atomicity, exact
      pre-checks, read-after-write, and that admission only adds bytes.
    - Memory service: a fresh write that passes its checks commits, so the
      callback's consistency errors are never raised; a transaction takes effect
      and is logged once; the stream of commits keeps its capacity and answers for
      every commit in it; an acknowledged commit never comes back.
    - Tracker: through steps and resets it agrees with the memory on the writer and
      version of every byte it holds, and never meets a conflicting read.
    - Instructions: every repair is legal and keeps the free bits; decoded
      fragments are admitted; an MMIO store, executed, writes the requested
      word at the requested address; mutation keeps the operation, except for
      AND and OR, where it does not (a finding).
    - Genome: chunked transfer refines appending to one string; [decode] inverts
      [encode], returns only records that passed their constructors, from
      documents that have exactly their fields, and raises only [ValueError]; a
      genome encoded, cut into chunks and transferred
      arrives as itself.
    - Ownership: the compiler accepts exactly the partitions of the bits; a
      mutation stays inside one fuzzable source.
    - Dependency: the walk of [path_identity] ends and accepts exactly the
      acyclic proofs; [paths_to] returns sufficient source sets, and none only
      if the target is out of reach; [edge_paths_to] enumerates exactly the
      proofs within the depth that [path_identity] authenticates.  Mutation: one
      bit changes, of the planned source and in the requested action, and the
      mutation is its own inverse.
    - Scheduler, for every runner: an action is injected at most once and never
      early, results account for every action, batching is invisible.
    - Router: the queue is the set of pending requests, a drain serves the
      oldest, a router whose targets answer and have room for confirmations makes
      progress; a drain of an ordinary target is refused, with the request kept
      in the queue, once all its confirmations are held; lanes carry words.
    - Peers: whole UART, SPI and I2C transfers are received as sent; the
      interrupt level is exactly the announced pulses.  A group gives the CPU
      the OR of its members, confirmed by the CPU's own sample, names exactly the
      active ones, and cites the last rising edge of each.
    - Goals: the constructor accepts exactly the acyclic graphs with a known root;
      [status] says that a condition holds, or fails, exactly when it does so
      under every outcome the observations allow; [frontier] lists exactly the
      effects that block the root and whose prerequisites all hold, and is
      empty only when the root holds.
    - Policy: its tables stay within their bounds; a refused settlement changes
      nothing, a repeated one gets the same answers; the participants of a group
      share its reward exactly, over features nobody had reported before, and the
      gains of all sources add up to those features, late credit included; a
      choice is answered in every mode, and in the default mode it explores exactly
      when its draw is below epsilon and is greedy otherwise: an untried action
      that aims at the frontier comes first, then one of the best rate.
    - Corpus: adding evicts at most one entry, the most worn and never the new
      one; the draw is over exactly the less picked quartile; what was saved is
      loaded back, and what is loaded satisfies the corpus's rules.
    - Short programs: an accepted program ends within its static step bound, or at
      a misaligned load or store; with address forms or loops, but not both, it
      changes memory only inside the declared window and keeps the reserved
      registers.  [RvExample] has the accepted programs outside these limits
      (findings).

    ** Fuel

    [run_batches] has [max_steps] turns, enough as each batch advances by at
    least one step (part of the proof that batching is invisible).
    [path_identity] walks with [dfs_fuel], one turn for each rule and each
    prerequisite and one more; that this is enough is a theorem.  [expand] and
    [edge_walk] recurse on [max_depth], as the source does; [reach_loop] has a
    unit of fuel for every unit of work, and theorems say it is enough.
    The walks over a goal have one unit for each condition and one more; the
    theorems of [GoalSpec] show they end with an answer.
    The JSON scanner has two turns for each character of its text and two more;
    [scan_fuel] says that more changes nothing.  The bisections and the sampling loop of
    the UART are bounded by the length of the list and by the ten bits of a
    frame.  [flow_loop] recurses on the code's own budget, which can run out (a
    finding), [grow_edges] on its number of rounds, which is enough
    ([grow_edges_closed]), and [run_loop] on the step bound of the run.

    ** What is not modelled

    - What [decode] does after it met a leaf of another JSON type than its
      annotation, the [RecursionError] of the JSON reader on very deeply nested
      text ([GenomeCodec]), the identity documents and
      summaries that only render state, the registries that authenticate issued
      receipts or arm one read by object identity ([Memory], [MemoryService]), the field-by-field validation of an
      ordinary-APB receipt ([Router]), and
      [from_edge_document] ([Dependency]), whose rows may hold any values.
    - The generators and mutators of short RV32 programs, which draw from a random
      generator, and the report [analyze_program] ([RvProgram]).
    - The rest of [scenario/]: sessions with simulated RTL, the runner apart
      from its step loop, certificates and acceptance reports over recorded
      evidence; and [composition/], [local_harness/], [integration/],
      [harness/], [runtime/], the scripts and the rest of [search/] and [fuzz/]:
      generators of RTL and of harness code, subprocess control, report
      generators and experiments.  Their behaviour depends on simulators and files. *)

From stdpp Require Export prelude fin_maps gmap strings list numbers pretty sorting.
From Stdlib Require Export ZArith Lia.

Declare Scope myfuzz_scope.
Delimit Scope myfuzz_scope with mf.
#[export] Set Default Goal Selector "!".

(** ** Exceptions and results

    A Python operation either returns or raises; the message of the exception
    is kept because tests and callers of the program match on it. *)

Inductive exn : Type :=
  | ValueError (msg : string)
  | RuntimeError (msg : string)
  | InstructionNotReady (msg : string)
  | IndexError (msg : string)
  | KeyError (msg : string)
  | AssertionError (msg : string)
  | RejectionError (code : string) (msg : string) (pointer : string)
  | OtherError (msg : string).

#[export] Instance exn_eq_dec : EqDecision exn.
Proof. solve_decision. Defined.

Inductive result (A : Type) : Type :=
  | Ok (a : A)
  | Err (e : exn).
Arguments Ok {A} a.
Arguments Err {A} e.

#[export] Instance result_eq_dec `{EqDecision A} : EqDecision (result A).
Proof. solve_decision. Defined.

#[export] Instance result_ret : MRet result := λ A a, Ok a.
#[export] Instance result_bind : MBind result := λ A B f m,
  match m with Ok a => f a | Err e => Err e end.
#[export] Instance result_fmap : FMap result := λ A B f m,
  match m with Ok a => Ok (f a) | Err e => Err e end.

Definition is_Ok {A} (r : result A) : bool :=
  match r with Ok _ => true | Err _ => false end.

(** [raise_if c e] is the statement [if c: raise e]. *)
Definition raise_if (c : bool) (e : exn) : result () :=
  if c then Err e else Ok ().

(** A loop over a list that may raise, left to right. *)
Fixpoint for_each {A} (f : A → result ()) (l : list A) : result () :=
  match l with
  | [] => Ok ()
  | x :: l => f x ;; for_each f l
  end.

(** A fold over a list whose step may raise, left to right. *)
Fixpoint fold_result {A B} (f : B → A → result B) (b : B) (l : list A) : result B :=
  match l with
  | [] => Ok b
  | x :: l => b' ← f b x; fold_result f b' l
  end.

(** A comprehension over a list whose element may raise, left to right. *)
Fixpoint map_result {A B} (f : A → result B) (l : list A) : result (list B) :=
  match l with
  | [] => mret []
  | x :: l => y ← f x; ys ← map_result f l; mret (y :: ys)
  end.

Section result_lemmas.
Context {A B : Type}.
Implicit Types (m : result A) (f : A → result B).

Lemma bind_Ok m f b : m ≫= f = Ok b ↔ ∃ a, m = Ok a ∧ f a = Ok b.
Proof. destruct m as [a|e]; cbn; naive_solver. Qed.

Lemma bind_Err m f e :
  m ≫= f = Err e ↔ m = Err e ∨ ∃ a, m = Ok a ∧ f a = Err e.
Proof. destruct m as [a|e']; cbn; naive_solver. Qed.

Lemma is_Ok_spec m : is_Ok m = true ↔ ∃ a, m = Ok a.
Proof. destruct m; cbn; naive_solver. Qed.

Lemma for_each_Ok (g : A → result ()) l :
  for_each g l = Ok () ↔ Forall (λ x, g x = Ok ()) l.
Proof.
  induction l as [|x l IH]; cbn; [by split|].
  rewrite Forall_cons. destruct (g x) as [[]|]; cbn; naive_solver.
Qed.

End result_lemmas.

Section fold_lemmas.
Context {A B : Type}.

Lemma fold_result_app (g : B → A → result B) b l1 l2 :
  fold_result g b (l1 ++ l2) = (b' ← fold_result g b l1; fold_result g b' l2).
Proof.
  revert b. induction l1 as [|x l1 IH]; intros b; cbn; [done|].
  destruct (g b x) as [b'|e]; cbn; [apply IH|done].
Qed.

Lemma fold_result_inv (P : B → Prop) (g : B → A → result B) b l b' :
  (∀ c x c', x ∈ l → P c → g c x = Ok c' → P c') →
  P b → fold_result g b l = Ok b' → P b'.
Proof.
  intros Hstep. revert b. induction l as [|x l IH]; cbn; intros b Hb Hf.
  { by simplify_eq. }
  apply bind_Ok in Hf as (c & Hc & Hf).
  apply (IH ltac:(intros; eapply Hstep; [right|..]; done) c); [|done].
  eapply Hstep; [left|..]; done.
Qed.
End fold_lemmas.

(** A comprehension whose element may raise. *)
Lemma fold_result_collect {A B} (step : list B → A → result (list B)) (g : A → B) l acc :
  (∀ acc x, x ∈ l → step acc x = Ok (acc ++ [g x])) →
  fold_result step acc l = Ok (acc ++ (g <$> l)).
Proof.
  revert acc. induction l as [|x l IH]; intros acc Hf; cbn; [by rewrite app_nil_r|].
  rewrite (Hf acc x ltac:(left)). cbn. rewrite IH by (intros acc' y Hy; apply Hf; by right).
  by rewrite <- app_assoc.
Qed.

Lemma raise_if_Ok c e u : raise_if c e = Ok u ↔ c = false.
Proof. destruct c, u; cbn; naive_solver. Qed.

Lemma raise_if_Err c e e' : raise_if c e = Err e' ↔ c = true ∧ e' = e.
Proof. destruct c; cbn; naive_solver. Qed.

Lemma bool_decide_false_1 P `{Decision P} : bool_decide P = false → ¬ P.
Proof. by intros ?%bool_decide_eq_false. Qed.

(** Inverts every hypothesis that says a computation returned a value. *)
Ltac inv_Ok :=
  repeat match goal with
  | H : Ok _ = Ok _ |- _ => injection H as H; subst
  | H : Err _ = Ok _ |- _ => discriminate H
  | H : Ok _ = Err _ |- _ => discriminate H
  | H : Err _ = Err _ |- _ => injection H as H; subst
  | H : mret _ = Ok _ |- _ => injection H as H; subst
  | H : raise_if _ _ = Ok _ |- _ => apply raise_if_Ok in H
  | H : raise_if _ _ = Err _ |- _ => apply raise_if_Err in H as [? ?]
  | H : mbind _ ?m = Ok _ |- _ => apply bind_Ok in H as (? & ? & H)
  | H : (_ || _) = false |- _ => apply orb_false_iff in H as [? ?]
  | H : (_ && _) = true |- _ => apply andb_true_iff in H as [? ?]
  | H : negb _ = true |- _ => apply negb_true_iff in H
  | H : negb _ = false |- _ => apply negb_false_iff in H
  | H : bool_decide _ = false |- _ => apply bool_decide_false_1 in H
  | H : bool_decide _ = true |- _ => apply bool_decide_eq_true_1 in H
  | u : () |- _ => destruct u
  end.

Lemma map_result_Ok {A B} (f : A → result B) l ys :
  map_result f l = Ok ys → Forall2 (λ x y, f x = Ok y) l ys.
Proof.
  revert ys. induction l as [|x l IH]; cbn; intros ys Hm; inv_Ok; [constructor|].
  constructor; [done|by apply IH].
Qed.

(** ** Exceptions a caller can expect *)

(** A computation that raises nothing but [ValueError]. *)
Definition only_value_error {A} (r : result A) : Prop :=
  ∀ e, r = Err e → ∃ msg, e = ValueError msg.

Lemma only_ok {A} (a : A) : only_value_error (mret a).
Proof. done. Qed.

Lemma only_raise_if c msg : only_value_error (raise_if c (ValueError msg)).
Proof. destruct c; intros e He; naive_solver. Qed.

Lemma only_bind {A B} (m : result A) (f : A → result B) :
  only_value_error m → (∀ a, only_value_error (f a)) → only_value_error (m ≫= f).
Proof. intros Hm Hf. destruct m as [a|e]; [apply Hf|]. intros e' [= <-]. by apply Hm. Qed.

Lemma only_for_each {A} (f : A → result ()) l :
  (∀ a, only_value_error (f a)) → only_value_error (for_each f l).
Proof. intros Hf. induction l as [|a l IH]; [apply only_ok|]. by apply only_bind. Qed.

Lemma only_err {A} msg : only_value_error (@Err A (ValueError msg)).
Proof. intros e [= <-]. by eexists. Qed.
Lemma only_map_result {A B} (f : A → result B) l :
  (∀ a, only_value_error (f a)) → only_value_error (map_result f l).
Proof.
  intros Hf. induction l as [|a l IH]; [apply only_ok|]. apply only_bind; [done|]. intros b.
  apply only_bind; [done|]. intros. apply only_ok.
Qed.
Lemma only_fold {A B} (f : B → A → result B) b l :
  (∀ b a, only_value_error (f b a)) → only_value_error (fold_result f b l).
Proof.
  intros Hf. revert b. induction l as [|a l IH]; intros b; [apply only_ok|]. by apply only_bind.
Qed.

(** Decides it along the combinators; [side] closes what is not one. *)
Ltac solve_only_with side :=
  repeat first [ progress intros | side | apply only_bind | apply only_for_each | apply only_map_result
               | apply only_fold | apply only_raise_if | apply only_err | apply only_ok
               | progress case_match ].

(** ** Text *)

Lemma append_cons c s t : String c s +:+ t = String c (s +:+ t).
Proof. done. Qed.

Lemma append_empty_r s : s +:+ EmptyString = s.
Proof.
  induction s as [|c s IH]; [done|]. change (String c (s +:+ EmptyString) = String c s).
  by rewrite IH.
Qed.

Lemma append_assoc a b d : a +:+ (b +:+ d) = (a +:+ b) +:+ d.
Proof.
  induction a as [|c a IH]; [done|].
  change (String c (a +:+ (b +:+ d)) = String c ((a +:+ b) +:+ d)). by rewrite IH.
Qed.

Lemma append_length s t :
  String.length (s +:+ t) = (String.length s + String.length t)%nat.
Proof.
  induction s as [|c s IH]; [done|]. rewrite append_cons. cbn [String.length]. by rewrite IH.
Qed.

(** ** Bit operations, as Python writes them *)

Notation "a &&& b" := (Z.land a b) (at level 40, left associativity) : Z_scope.
Notation "a ||| b" := (Z.lor a b) (at level 50, left associativity) : Z_scope.

(** [int.from_bytes(data, little)] *)
Fixpoint from_le (l : list Z) : Z :=
  match l with [] => 0 | b :: l => b + 256 * from_le l end%Z.

(** [value.to_bytes(n, little)] of a value that fits. *)
Fixpoint to_le (n : nat) (z : Z) : list Z :=
  match n with O => [] | S n => (z `mod` 256 :: to_le n (z `div` 256))%Z end.

Definition is_byte (b : Z) : Prop := (0 ≤ b < 256)%Z.

Lemma length_to_le n z : length (to_le n z) = n.
Proof. revert z. induction n as [|n IH]; intros z; cbn; [done|]. by rewrite IH. Qed.

Lemma to_le_bytes n z : Forall is_byte (to_le n z).
Proof.
  revert z. induction n as [|n IH]; intros z; cbn; constructor; [|apply IH].
  apply Z.mod_pos_bound. lia.
Qed.

Lemma from_le_to_le n z : (0 ≤ z < 256 ^ Z.of_nat n → from_le (to_le n z) = z)%Z.
Proof.
  revert z. induction n as [|n IH]; intros z Hz; cbn [to_le from_le]; [cbn in Hz; lia|].
  rewrite IH; [pose proof (Z.div_mod z 256); lia|].
  rewrite Nat2Z.inj_succ, Z.pow_succ_r in Hz by lia. split; [apply Z.div_pos; lia|].
  apply Z.div_lt_upper_bound; lia.
Qed.

Lemma from_le_range l : Forall is_byte l → (0 ≤ from_le l < 256 ^ Z.of_nat (length l))%Z.
Proof.
  induction 1 as [|b l Hb Hl IH]; [by cbn|]. cbn [from_le length].
  rewrite Nat2Z.inj_succ, Z.pow_succ_r by lia. unfold is_byte in Hb. lia.
Qed.

Lemma to_le_from_le l : Forall is_byte l → to_le (length l) (from_le l) = l.
Proof.
  induction 1 as [|b l Hb Hl IH]; [done|]. cbn [from_le length to_le]. unfold is_byte in Hb.
  rewrite Z.mul_comm, Z.mod_add, Z.mod_small, Z.div_add, Z.div_small by lia.
  by rewrite Z.add_0_l, IH.
Qed.

(** [x in (a, b, c)] *)
Definition in_list (x : Z) (l : list Z) : bool := bool_decide (x ∈ l).

Lemma in_list_pair x a b : in_list x [a; b] = true → x = a ∨ x = b.
Proof. unfold in_list. rewrite bool_decide_eq_true. set_solver. Qed.

(** ** Lists *)

Lemma filter_none {A} (P : A → Prop) `{∀ x, Decision (P x)} l :
  (∀ x, x ∈ l → ¬ P x) → filter P l = [].
Proof.
  intros Hl. destruct (filter P l) as [|x l'] eqn:Hf; [done|].
  assert (x ∈ filter P l) as [Hx Hin]%list_elem_of_filter by (rewrite Hf; left).
  by destruct (Hl x Hin).
Qed.

Lemma filter_all {A} (P : A → Prop) `{∀ x, Decision (P x)} (l : list A) :
  (∀ x, x ∈ l → P x) → filter P l = l.
Proof.
  induction l as [|x l IH]; intros Hl; [done|].
  rewrite filter_cons_True by (apply Hl; left). f_equal. apply IH. intros y Hy. apply Hl. by right.
Qed.

Lemma NoDup_fmap_elem {A B} (f : A → B) (l : list A) x y :
  NoDup (f <$> l) → x ∈ l → y ∈ l → f x = f y → x = y.
Proof.
  intros Hnd [i Hi]%list_elem_of_lookup [j Hj]%list_elem_of_lookup Hf.
  assert (i = j) as ->; [|congruence].
  apply (NoDup_lookup _ i j (f x) Hnd); rewrite list_lookup_fmap; [by rewrite Hi|by rewrite Hj, Hf].
Qed.

(** Sorting commutes with a map that keeps the order. *)
Lemma merge_sort_fmap {A B} (f : A → B) (R : relation A) (R' : relation B)
    `{!RelDecision R, !RelDecision R'} (l : list A) :
  (∀ a b, R' (f a) (f b) ↔ R a b) → merge_sort R' (f <$> l) = f <$> merge_sort R l.
Proof.
  intros Hf.
  assert (Hmerge : ∀ l1 l2, list_merge R' (f <$> l1) (f <$> l2) = f <$> list_merge R l1 l2).
  { induction l1 as [|x l1 IH1]; [by intros []|]. induction l2 as [|y l2 IH2]; [done|].
    cbn [fmap list_fmap]. rewrite !list_merge_cons.
    pose proof (Hf x y). do 2 case_decide; [|tauto..|].
    - cbn. f_equal. apply (IH1 (y :: l2)).
    - cbn. f_equal. apply IH2. }
  set (F := λ st : list (option (list A)), map (option_map (map f)) st).
  assert (Hpush : ∀ st l1, merge_list_to_stack R' (F st) (f <$> l1) =
                           F (merge_list_to_stack R st l1)).
  { induction st as [|[l0|] st IH]; intros l1; [done| |done].
    cbn. f_equal. rewrite <- IH. f_equal. apply Hmerge. }
  assert (Hstack : ∀ st, merge_stack R' (F st) = f <$> merge_stack R st).
  { induction st as [|[l0|] st IH]; [done| |done]. cbn. rewrite <- Hmerge. by rewrite <- IH. }
  unfold merge_sort. change (@nil (option (list B))) with (F []). generalize (@nil (option (list A))).
  induction l as [|x l IH]; intros st; [apply Hstack|].
  cbn. rewrite <- IH. f_equal. apply (Hpush st [x]).
Qed.

Lemma filter_iff {A} (P Q : A → Prop) `{∀ x, Decision (P x)} `{∀ x, Decision (Q x)} (l : list A) :
  (∀ x, x ∈ l → P x ↔ Q x) → filter P l = filter Q l.
Proof.
  induction l as [|x l IH]; intros HPQ; [done|]. destruct (HPQ x ltac:(left)) as [H1 H2].
  destruct (decide (P x)).
  - rewrite !filter_cons_True by auto. f_equal. apply IH. intros y Hy. apply HPQ. by right.
  - rewrite !filter_cons_False by auto. apply IH. intros y Hy. apply HPQ. by right.
Qed.

Lemma filter_partition {A} (P : A → Prop) `{∀ x, Decision (P x)} (l : list A) :
  filter P l ++ filter (λ x, ¬ P x) l ≡ₚ l.
Proof.
  induction l as [|x l IH]; [done|]. destruct (decide (P x)) as [Hp|Hp].
  - rewrite filter_cons_True, filter_cons_False by auto. cbn. by rewrite IH.
  - rewrite filter_cons_False, filter_cons_True by auto.
    rewrite <- Permutation_middle. by rewrite IH.
Qed.

(** In a sorted list the position decides. *)
Lemma sorted_lookup {A} (R : relation A) l i j x y :
  StronglySorted R l → l !! i = Some x → l !! j = Some y → (i < j)%nat → R x y.
Proof.
  intros Hl. revert i j. induction Hl as [|z l Hl IH Hz]; intros i j Hi Hj Hij; [done|].
  destruct i as [|i], j as [|j]; cbn in *; simplify_eq; [lia| |lia|].
  - rewrite Forall_forall in Hz. apply Hz. by eapply list_elem_of_lookup_2.
  - eapply IH; [done..|lia].
Qed.

(** ** Operations on an object: state, exceptions, and what survives a raise

    A Python method that raises keeps the assignments it made before the
    raise, so the state is returned in both cases. *)

Definition M (S A : Type) : Type := S → result A * S.

#[export] Instance M_ret {S} : MRet (M S) := λ A a s, (Ok a, s).
#[export] Instance M_bind {S} : MBind (M S) := λ A B f m s,
  match m s with
  | (Ok a, s') => f a s'
  | (Err e, s') => (Err e, s')
  end.

(** Evaluate an expression of the state that may raise; no assignment. *)
Definition reads {S A} (f : S → result A) : M S A := λ s, (f s, s).
(** Read the state. *)
Definition gets {S A} (f : S → A) : M S A := λ s, (Ok (f s), s).
(** Assign. *)
Definition modify {S} (f : S → S) : M S () := λ s, (Ok (), f s).
Definition raise {S A} (e : exn) : M S A := λ s, (Err e, s).
Definition check {S} (c : bool) (e : exn) : M S () := reads (λ _, raise_if c e).

(** [m] leaves the state as it was when it raises. *)
Definition failure_atomic {S A} (m : M S A) : Prop :=
  ∀ s e s', m s = (Err e, s') → s' = s.
(** [m] assigns nothing. *)
Definition readonly {S A} (m : M S A) : Prop := ∀ s, (m s).2 = s.

Create HintDb atomic discriminated.

Section M_lemmas.
Context {S : Type}.

Lemma M_bind_Ok {A B} (m : M S A) (f : A → M S B) s b s' :
  (m ≫= f) s = (Ok b, s') ↔ ∃ a s1, m s = (Ok a, s1) ∧ f a s1 = (Ok b, s').
Proof.
  unfold mbind, M_bind. destruct (m s) as [[a|e] s1]; naive_solver.
Qed.

Lemma readonly_reads {A} (f : S → result A) : readonly (reads f).
Proof. done. Qed.
Lemma readonly_gets {A} (f : S → A) : readonly (gets f).
Proof. done. Qed.
Lemma readonly_check c e : readonly (S := S) (check c e).
Proof. done. Qed.
Lemma readonly_raise {A} e : readonly (S := S) (A := A) (raise e).
Proof. done. Qed.
Lemma readonly_ret {A} (a : A) : readonly (S := S) (mret a).
Proof. done. Qed.

Lemma readonly_bind {A B} (m : M S A) (f : A → M S B) :
  readonly m → (∀ a, readonly (f a)) → readonly (m ≫= f).
Proof.
  intros Hm Hf s. specialize (Hm s). unfold mbind, M_bind.
  destruct (m s) as [[a|e] s1]; cbn in *; subst; [apply Hf|done].
Qed.

Lemma readonly_atomic {A} (m : M S A) : readonly m → failure_atomic m.
Proof. intros Hm s e s' He. by rewrite <- (Hm s), He. Qed.

Lemma atomic_modify (f : S → S) : failure_atomic (modify f).
Proof. intros s e s' He. discriminate He. Qed.

(** After a read-only prefix the rest decides. *)
Lemma atomic_bind {A B} (m : M S A) (f : A → M S B) :
  readonly m → (∀ a, failure_atomic (f a)) → failure_atomic (m ≫= f).
Proof.
  intros Hm Hf s e s' He. specialize (Hm s). revert He. unfold mbind, M_bind.
  destruct (m s) as [[a|e1] s1]; cbn in *; subst; [apply Hf|congruence].
Qed.

(** Before a tail that cannot raise, the assignments do no harm. *)
Definition total {A} (m : M S A) : Prop := ∀ s, is_Ok (m s).1 = true.

Lemma total_atomic {A} (m : M S A) : total m → failure_atomic m.
Proof. intros Hm s e s' He. specialize (Hm s). by rewrite He in Hm. Qed.

Lemma total_modify (f : S → S) : total (modify f).
Proof. done. Qed.
Lemma total_gets {A} (f : S → A) : total (gets f).
Proof. done. Qed.
Lemma total_ret {A} (a : A) : total (mret a : M S A).
Proof. done. Qed.
Lemma total_bind {A B} (m : M S A) (f : A → M S B) :
  total m → (∀ a, total (f a)) → total (m ≫= f).
Proof.
  intros Hm Hf s. specialize (Hm s). unfold mbind, M_bind.
  destruct (m s) as [[a|e] s1]; cbn in *; [apply Hf|done].
Qed.
End M_lemmas.

#[export] Hint Resolve readonly_reads readonly_gets readonly_check readonly_raise
  readonly_ret readonly_bind atomic_modify atomic_bind total_modify total_gets
  total_ret total_bind : atomic.
#[export] Hint Extern 5 (failure_atomic _) =>
  first [ apply readonly_atomic; solve [eauto 20 with atomic nocore]
        | apply total_atomic; solve [eauto 20 with atomic nocore] ] : atomic.

(** Decides [failure_atomic] of an operation written with the combinators. *)
Ltac solve_atomic :=
  repeat first
    [ progress intros
    | apply atomic_modify
    | apply total_atomic; solve [repeat first [progress intros | apply total_modify
        | apply total_gets | apply total_ret | apply total_bind]]
    | apply readonly_atomic; solve [repeat first [progress intros | apply readonly_reads
        | apply readonly_gets | apply readonly_check | apply readonly_raise
        | apply readonly_ret | apply readonly_bind]]
    | apply atomic_bind
    | progress case_match ].

(** Runs an operation of the monad in a hypothesis or the goal. *)
Ltac unfold_M :=
  unfold check, mbind, M_bind, mret, M_ret, reads, gets, modify, raise in *; cbn beta iota in *.

(** Decides the guard at the head of the goal's left-hand side. *)
Ltac case_raise H :=
  match goal with
  | |- match raise_if ?c ?e with _ => _ end = _ → _ => destruct (raise_if c e) as [[]|] eqn:H
  end.

(** Inverts a run that returned a value into the runs of its parts. *)
Ltac inv_M :=
  repeat match goal with
  | H : mbind _ ?m ?s = (Ok _, _) |- _ =>
      apply M_bind_Ok in H as (? & ? & ? & H)
  | H : reads _ _ = (Ok _, _) |- _ => injection H as ? ?; subst
  | H : check _ _ _ = (Ok _, _) |- _ => injection H as ? ?; subst
  | H : gets _ _ = (Ok _, _) |- _ => injection H as ? ?; subst
  | H : modify _ _ = (Ok _, _) |- _ => injection H as ? ?; subst
  | H : mret _ _ = (Ok _, _) |- _ => injection H as ? ?; subst
  | H : raise _ _ = (Ok _, _) |- _ => discriminate H
  | H : (Ok _, _) = (Ok _, _) |- _ => injection H as ? ?; subst
  | H : (Err _, _) = (Ok _, _) |- _ => discriminate H
  | _ => progress inv_Ok
  end.

(** A loop over a list whose body is an operation. *)
Fixpoint for_eachM {S A} (f : A → M S ()) (l : list A) : M S () :=
  match l with
  | [] => mret ()
  | x :: l => f x ;; for_eachM f l
  end.

(** A comprehension over a list whose element is an operation. *)
Fixpoint map_M {S A B} (f : A → M S B) (l : list A) : M S (list B) :=
  match l with
  | [] => mret []
  | x :: l => y ← f x; ys ← map_M f l; mret (y :: ys)
  end.

Lemma for_eachM_modify {S A} (f : A → S → S) l s :
  for_eachM (λ x, modify (f x)) l s = (Ok (), foldl (λ s x, f x s) s l).
Proof. revert s. induction l as [|x l IH]; intros s; [done|]. cbn. apply IH. Qed.

(** ** Triples

    [triple P m Q E]: from a state in [P], [m] returns in [Q] or raises in [E]. *)

Definition triple {S A} (P : S → Prop) (m : M S A) (Q : A → S → Prop) (E : S → Prop) : Prop :=
  ∀ s, P s → match m s with (Ok a, s') => Q a s' | (Err _, s') => E s' end.

Section triples.
Context {S : Type}.
Implicit Types (P : S → Prop) (E : S → Prop).

Lemma triple_bind {A B} P (m : M S A) (f : A → M S B) Q Q' E :
  triple P m Q E → (∀ a, triple (Q a) (f a) Q' E) → triple P (m ≫= f) Q' E.
Proof.
  intros Hm Hf s Hs. specialize (Hm s Hs). unfold mbind, M_bind.
  destruct (m s) as [[a|e] s1]; [by apply Hf|done].
Qed.

Lemma triple_ret {A} P (a : A) E : triple P (mret a) (λ x s, x = a ∧ P s) E.
Proof. by intros s Hs. Qed.

Lemma triple_reads {A} P (f : S → result A) E :
  (∀ s, P s → E s) → triple P (reads f) (λ a s, f s = Ok a ∧ P s) E.
Proof. intros HE s Hs. unfold reads. destruct (f s); [done|by apply HE]. Qed.

Lemma triple_gets {A} P (f : S → A) E : triple P (gets f) (λ a s, a = f s ∧ P s) E.
Proof. by intros s Hs. Qed.

Lemma triple_modify P (f : S → S) Q E : (∀ s, P s → Q s) → triple (λ s, Q (f s)) (modify f) (λ _, Q) E.
Proof. by intros _ s Hs. Qed.

Lemma triple_raise {A} P (e : exn) (Q : A → S → Prop) E :
  (∀ s, P s → E s) → triple P (raise e) Q E.
Proof. intros HE s Hs. by apply HE. Qed.

Lemma triple_conseq {A} P P' (m : M S A) Q Q' E E' :
  triple P' m Q' E' → (∀ s, P s → P' s) → (∀ a s, Q' a s → Q a s) → (∀ s, E' s → E s) →
  triple P m Q E.
Proof.
  intros Hm HP HQ HE s Hs. specialize (Hm s (HP s Hs)).
  destruct (m s) as [[a|e] s1]; [by apply HQ|by apply HE].
Qed.

(** A loop keeps an invariant its body keeps. *)
Lemma triple_for_each {A} P (f : A → M S ()) l E :
  (∀ x, x ∈ l → triple P (f x) (λ _, P) E) → triple P (for_eachM f l) (λ _, P) E.
Proof.
  induction l as [|x l IH]; intros Hf; [by intros s Hs|]. cbn.
  apply triple_bind with (Q := λ _, P); [apply Hf; left|].
  intros _. apply IH. intros y Hy. apply Hf. by right.
Qed.

Lemma for_eachM_app {A} (f : A → M S ()) l1 l2 s :
  for_eachM f (l1 ++ l2) s = (for_eachM f l1 ;; for_eachM f l2) s.
Proof.
  revert s. induction l1 as [|x l1 IH]; intros s; [done|].
  cbn. unfold mbind, M_bind in *. destruct (f x s) as [[a|e] s1]; [apply IH|done].
Qed.
End triples.

(** ** Operations that keep a part of the state, whether they return or raise *)

Definition preserves {S X A} (part : S → X) (m : M S A) : Prop := ∀ s, part (m s).2 = part s.

Section preserves.
Context {S X : Type} (part : S → X).

Lemma preserves_readonly {A} (m : M S A) : readonly m → preserves part m.
Proof. intros Hm s. by rewrite Hm. Qed.
Lemma preserves_bind {A B} (m : M S A) (f : A → M S B) :
  preserves part m → (∀ a, preserves part (f a)) → preserves part (m ≫= f).
Proof.
  intros Hm Hf s. specialize (Hm s). unfold mbind, M_bind.
  destruct (m s) as [[a|e] s1]; cbn in *; [by rewrite Hf|done].
Qed.
Lemma preserves_modify (f : S → S) : (∀ s, part (f s) = part s) → preserves part (modify f).
Proof. intros Hf s. apply Hf. Qed.
Lemma preserves_for_each {A} (f : A → M S ()) l :
  (∀ x, preserves part (f x)) → preserves part (for_eachM f l).
Proof.
  intros Hf. induction l as [|x l IH]; [done|]. cbn. by apply preserves_bind.
Qed.
End preserves.

(** Decides [preserves] along the combinators; [side] closes the operations
    that are not combinators. *)
Ltac solve_preserves side :=
  repeat first
    [ progress intros
    | side
    | apply preserves_bind
    | apply preserves_for_each
    | apply preserves_modify; intros; reflexivity
    | apply preserves_readonly; first [apply readonly_reads | apply readonly_gets
        | apply readonly_check | apply readonly_raise | apply readonly_ret]
    | progress case_match ].

(** ** Python dictionaries whose order is visible

    A [dict] iterates in insertion order, an assignment to a present key keeps
    its place, [del] removes it.  Where no iteration order is observed the
    components use [gmap] instead. *)

Section odict.
Context {K V : Type} `{EqDecision K}.
Implicit Types (d : list (K * V)) (k : K) (v : V).

Fixpoint od_get d k : option V :=
  match d with
  | [] => None
  | (k', v) :: d => if decide (k' = k) then Some v else od_get d k
  end.

Fixpoint od_set d k v : list (K * V) :=
  match d with
  | [] => [(k, v)]
  | (k', v') :: d => if decide (k' = k) then (k', v) :: d else (k', v') :: od_set d k v
  end.

Fixpoint od_del d k : list (K * V) :=
  match d with
  | [] => []
  | (k', v') :: d => if decide (k' = k) then d else (k', v') :: od_del d k
  end.

Definition od_keys d : list K := d.*1.

Lemma od_get_set_eq d k v : od_get (od_set d k v) k = Some v.
Proof. induction d as [|[k' v'] d IH]; cbn; repeat (case_decide; cbn); congruence. Qed.

Lemma od_get_set_ne d k k' v : k ≠ k' → od_get (od_set d k v) k' = od_get d k'.
Proof.
  intros Hne. induction d as [|[k1 v1] d IH]; cbn; repeat (case_decide; cbn); congruence.
Qed.

Lemma od_get_set d k k' v :
  od_get (od_set d k v) k' = if decide (k = k') then Some v else od_get d k'.
Proof. case_decide; subst; [apply od_get_set_eq|by apply od_get_set_ne]. Qed.

Lemma od_get_None d k : od_get d k = None ↔ k ∉ od_keys d.
Proof.
  induction d as [|[k' v'] d IH]; cbn; [set_solver|].
  case_decide; subst; [set_solver|]. rewrite IH. set_solver.
Qed.

Lemma od_get_Some_key d k v : od_get d k = Some v → k ∈ od_keys d.
Proof.
  intros Hg. destruct (decide (k ∈ od_keys d)) as [|Hn]; [done|].
  apply od_get_None in Hn. congruence.
Qed.

Lemma od_get_elem d k v : od_get d k = Some v → (k, v) ∈ d.
Proof.
  induction d as [|[k' v'] d IH]; cbn; [done|].
  case_decide; intros ?; simplify_eq; [left|right; by apply IH].
Qed.

Lemma od_elem_get d k v : NoDup (od_keys d) → (k, v) ∈ d → od_get d k = Some v.
Proof.
  induction d as [|[k' v'] d IH]; cbn; [by intros _ ?%not_elem_of_nil|].
  intros [Hk Hd]%NoDup_cons [Heq|Hin]%elem_of_cons; simplify_eq.
  - by rewrite decide_True.
  - rewrite decide_False; [by apply IH|]. intros ->. apply Hk.
    by apply (list_elem_of_fmap_2 fst) in Hin.
Qed.

Lemma od_keys_set_present d k v : k ∈ od_keys d → od_keys (od_set d k v) = od_keys d.
Proof.
  induction d as [|[k' v'] d IH]; cbn; [by intros ?%not_elem_of_nil|].
  case_decide; cbn; [done|]. intros [->|]%elem_of_cons; [done|]. f_equal. by apply IH.
Qed.

Lemma od_set_absent d k v : k ∉ od_keys d → od_set d k v = d ++ [(k, v)].
Proof.
  induction d as [|[k' v'] d IH]; cbn; [done|]. intros Hn.
  rewrite decide_False by set_solver. cbn. f_equal. apply IH. set_solver.
Qed.

Lemma od_keys_set d k v :
  od_keys (od_set d k v) = if decide (k ∈ od_keys d) then od_keys d else od_keys d ++ [k].
Proof.
  case_decide; [by apply od_keys_set_present|].
  rewrite od_set_absent by done. unfold od_keys. by rewrite fmap_app.
Qed.

Lemma od_set_set d k v v' : od_set (od_set d k v) k v' = od_set d k v'.
Proof. induction d as [|[k1 v1] d IH]; cbn; repeat (case_decide; cbn); congruence. Qed.

Lemma od_set_NoDup d k v : NoDup (od_keys d) → NoDup (od_keys (od_set d k v)).
Proof.
  intros Hd. rewrite od_keys_set. case_decide; [done|].
  apply NoDup_app. split_and!; [done|set_solver|apply NoDup_singleton].
Qed.
Lemma od_set_length d k v :
  (length (od_set d k v) ≤ length d + 1)%nat.
Proof. induction d as [|[k' v'] d IH]; cbn; [lia|]. case_decide; cbn; lia. Qed.

Lemma od_keys_del d k k' :
  NoDup (od_keys d) → k' ∈ od_keys (od_del d k) ↔ k' ∈ od_keys d ∧ k' ≠ k.
Proof.
  induction d as [|[k1 v1] d IH]; cbn; [set_solver|]. intros [Hk Hd]%NoDup_cons.
  case_decide; cbn; rewrite ?elem_of_cons.
  - subst. split; [|naive_solver]. intros Hin. split; [by right|]. by intros ->.
  - rewrite IH by done. naive_solver.
Qed.

Lemma od_del_NoDup d k :
  NoDup (od_keys d) → NoDup (od_keys (od_del d k)).
Proof.
  induction d as [|[k1 v1] d IH]; cbn; [done|]. intros [Hk Hd]%NoDup_cons.
  case_decide; cbn; [done|]. apply NoDup_cons. split; [|by apply IH].
  intros [? _]%(od_keys_del d k k1 Hd). done.
Qed.

Lemma od_get_del d k k' :
  NoDup (od_keys d) → od_get (od_del d k) k' = if decide (k = k') then None else od_get d k'.
Proof.
  induction d as [|[k1 v1] d IH]; cbn; intros Hd; [by case_decide|]. apply NoDup_cons in Hd as [Hk Hd].
  destruct (decide (k1 = k)) as [->|Hne]; cbn.
  - destruct (decide (k = k')) as [->|]; [by apply od_get_None|done].
  - destruct (decide (k1 = k')) as [->|]; [by rewrite decide_False by congruence|by apply IH].
Qed.

Lemma od_del_length d k : (length (od_del d k) ≤ length d)%nat.
Proof. induction d as [|[k' v'] d IH]; cbn; [lia|]. case_decide; cbn; lia. Qed.
End odict.

Create Rewrite HintDb odict.
#[export] Hint Rewrite @od_get_set_eq : odict.
#[export] Hint Rewrite @od_get_set_ne using done : odict.
#[export] Hint Rewrite @od_set_set : odict.
