(* ===== verification/Json.v ===== *)
(** * Canonical JSON and digests

    The program identifies payloads by the SHA-256 of a canonical JSON text:
    [json.dumps(value, sort_keys=True, separators=(comma, colon),
    ensure_ascii=False, allow_nan=False).encode(utf-8)] is [dumps], and the same
    with [ensure_ascii=True], the default, is [dumps_ascii].  This file holds the
    JSON values the program builds (no floats occur in the modelled payloads),
    those encoders, and the interface of [hashlib.sha256]. *)

From S2P Require Import Prelude.
From Stdlib Require Import Ascii String.

Local Open Scope string_scope.

(** Text is a [string] of UTF-8 bytes. *)
Inductive json : Type :=
  | JNull
  | JBool (b : bool)
  | JInt (z : Z)
  | JStr (s : string)
  | JArr (l : list json)
  | JObj (l : list (string * json)).

Definition dquote : ascii := Ascii.ascii_of_nat 34.
Definition hex_digit (n : Z) : string :=
  match String.get (Z.to_nat n) "0123456789abcdef" with
  | Some c => String c EmptyString
  | None => EmptyString
  end.

(** Two lowercase hexadecimal digits. *)
Definition hex_byte (b : Z) : string := hex_digit (b `div` 16) +:+ hex_digit (b `mod` 16).

(** [bytes.hex()] *)
Fixpoint hex_bytes (l : list Z) : string :=
  match l with [] => EmptyString | b :: l => hex_byte b +:+ hex_bytes l end.

(** Escapes of the standard encoder with [ensure_ascii=False]. *)
Definition escape_char (c : ascii) : string :=
  let n := Ascii.nat_of_ascii c in
  if (n =? 34)%nat then String "\" (String dquote EmptyString)
  else if (n =? 92)%nat then "\\"
  else if (n =? 10)%nat then "\n"
  else if (n =? 13)%nat then "\r"
  else if (n =? 9)%nat then "\t"
  else if (n =? 12)%nat then "\f"
  else if (n =? 8)%nat then "\b"
  else if (n <? 32)%nat then "\u00" +:+ hex_byte (Z.of_nat n)
  else String c EmptyString.

Fixpoint escape (s : string) : string :=
  match s with
  | EmptyString => EmptyString
  | String c s => escape_char c +:+ escape s
  end.

Definition quote (s : string) : string :=
  String dquote (escape s +:+ String dquote EmptyString).

(** Escapes of the standard encoder with [ensure_ascii=True]: everything but
    printable ASCII, in UTF-16 code units. *)
Definition escape_unit (n : Z) : string := "\u" +:+ hex_byte (n `div` 256) +:+ hex_byte (n `mod` 256).
Definition escape_point (n : Z) : string :=
  (if n <? 0x10000 then escape_unit n
   else escape_unit (0xd800 + ((n - 0x10000) `div` 1024) `mod` 1024)
        +:+ escape_unit (0xdc00 + (n - 0x10000) `mod` 1024))%Z.

Fixpoint escape_ascii (s : string) : string :=
  match s with
  | EmptyString => EmptyString
  | String a s1 =>
      let x := Z.of_nat (Ascii.nat_of_ascii a) in
      let tail c := (Z.of_nat (Ascii.nat_of_ascii c) - 128)%Z in
      if (x <? 127)%Z then escape_char a +:+ escape_ascii s1
      else if (x =? 127)%Z then escape_unit 127 +:+ escape_ascii s1
      else match s1 with
      | EmptyString => EmptyString
      | String b s2 =>
          if (x <? 224)%Z then escape_point (64 * (x - 192) + tail b) +:+ escape_ascii s2
          else match s2 with
          | EmptyString => EmptyString
          | String c s3 =>
              if (x <? 240)%Z
              then escape_point (4096 * (x - 224) + 64 * tail b + tail c) +:+ escape_ascii s3
              else match s3 with
              | EmptyString => EmptyString
              | String d s4 =>
                  escape_point (262144 * (x - 240) + 4096 * tail b + 64 * tail c + tail d)
                  +:+ escape_ascii s4
              end
          end
      end
  end.

Definition quote_ascii (s : string) : string :=
  String dquote (escape_ascii s +:+ String dquote EmptyString).

Definition str_le (a b : string) : Prop := String.leb a b = true.
#[export] Instance str_le_dec : RelDecision str_le.
Proof. intros a b. unfold str_le. solve_decision. Defined.
Lemma str_le_iff a b : str_le a b ↔ stdpp.strings.String.le a b.
Proof. unfold str_le, stdpp.strings.String.le. by rewrite Is_true_true. Qed.
#[export] Instance str_le_total : Total str_le.
Proof. intros a b. rewrite !str_le_iff. apply (stdpp.base.total stdpp.strings.String.le). Qed.
#[export] Instance str_le_trans : Transitive str_le.
Proof. intros a b c. rewrite !str_le_iff. apply transitivity. Qed.
#[export] Instance str_le_antisymm : AntiSymm eq str_le.
Proof. intros a b. rewrite !str_le_iff. apply (anti_symm stdpp.strings.String.le). Qed.

Definition key_le {A} (a b : string * A) : Prop := str_le a.1 b.1.
#[export] Instance key_le_dec {A} : RelDecision (@key_le A).
Proof. intros a b. unfold key_le. apply _. Defined.

Fixpoint join (sep : string) (l : list string) : string :=
  match l with
  | [] => EmptyString
  | [x] => x
  | x :: l => x +:+ sep +:+ join sep l
  end.

(** [json.dumps] with [sort_keys=True] and the compact separators.  The keys
    of a Python [dict] are distinct, so sorting by key alone is sorting. *)
Fixpoint dumps_with (quote : string → string) (v : json) : string :=
  match v with
  | JNull => "null"
  | JBool true => "true"
  | JBool false => "false"
  | JInt z => pretty z
  | JStr s => quote s
  | JArr l => "[" +:+ join "," (map (dumps_with quote) l) +:+ "]"
  | JObj l =>
      let rows := map (λ kv, (kv.1, quote kv.1 +:+ ":" +:+ dumps_with quote kv.2)) l in
      "{" +:+ join "," (merge_sort key_le rows).*2 +:+ "}"
  end.

Definition dumps : json → string := dumps_with quote.
Definition dumps_ascii : json → string := dumps_with quote_ascii.

(** [hashlib.sha256(data).digest()]: thirty-two bytes, a function of the data.
    Nothing else of the hash is relied on. *)
Class Hashlib : Type := {
  sha256 : string → list Z;
  sha256_length s : List.length (sha256 s) = 32%nat;
  sha256_bytes s : Forall (λ b, 0 ≤ b < 256)%Z (sha256 s) }.

Definition hexdigest `{Hashlib} (s : string) : string := hex_bytes (sha256 s).

(** A concrete (weak) digest, for evaluating the definitions. *)
Fixpoint byte_sum (s : string) : Z :=
  match s with
  | EmptyString => 7
  | String c s => (Z.of_nat (Ascii.nat_of_ascii c) + 31 * byte_sum s) `mod` 1048573
  end.

Definition checksum (s : string) : list Z :=
  let z := byte_sum s in
  [z `mod` 256; (z `div` 256) `mod` 256; (z `div` 65536) `mod` 256]%Z ++ replicate 29 0%Z.

Program Definition checksum_hashlib : Hashlib := {| sha256 := checksum |}.
Next Obligation. done. Qed.
Next Obligation.
  intros s. unfold checksum. apply Forall_app; split.
  - repeat apply Forall_cons_2; try apply Forall_nil_2; apply Z.mod_pos_bound; done.
  - by apply Forall_replicate.
Qed.

Example dumps_example :
  dumps (JObj [("b", JInt (-3)); ("a", JArr [JBool true; JStr "x"; JNull])])
  = "{" +:+ quote "a" +:+ ":[true," +:+ quote "x" +:+ ",null]," +:+ quote "b" +:+ ":-3}".
Proof. vm_compute. reflexivity. Qed.

(** U+00E9 and U+1F600 in UTF-8. *)
Definition utf8 (l : list nat) : string := foldr (λ n s, String (Ascii.ascii_of_nat n) s) EmptyString l.
Example escape_ascii_example :
  escape_ascii (utf8 [97; 195; 169; 240; 159; 152; 128]%nat) = "a\u00e9\ud83d\ude00".
Proof. vm_compute. reflexivity. Qed.

(** ** Text as Python sees it *)

(** The white space of [str.strip], as UTF-8. *)
Definition SPACES : list string :=
  utf8 <$> ([[9]; [10]; [11]; [12]; [13]; [28]; [29]; [30]; [31]; [32]; [194; 133]; [194; 160];
    [225; 154; 128]; [226; 128; 168]; [226; 128; 169]; [226; 128; 175]; [226; 129; 159];
    [227; 128; 128]] ++ ((λ n, [226; 128; n]) <$> seq 128 11))%list.

(** [v.strip() == v] *)
Definition is_stripped (v : string) : bool :=
  forallb (λ w, negb (String.prefix w v) && negb (String.prefix (String.rev w) (String.rev v))) SPACES.

(** [len(v)]: the characters are the bytes that do not continue one. *)
Fixpoint chars (v : string) : Z :=
  match v with
  | EmptyString => 0
  | String c v =>
      let n := Ascii.nat_of_ascii c in
      (if (128 <=? n)%nat && (n <? 192)%nat then 0 else 1) + chars v
  end%Z.
