(* ===== verification/JsonText.v ===== *)
(** * Reading JSON text

    [json.loads] of the standard library on the text the program hands it: the
    scanner of strings (strict control characters, escapes, surrogate pairs),
    of numbers, of literals and of nested arrays and objects, and the strict
    UTF-8 decoder in front of it.  A repeated key keeps its first position and
    its last value, as in the [dict] the scanner builds.  The recursion is on
    fuel; [loads] starts with enough for every text, and [scan_fuel] proves it.
    [loads_dumps] is the round trip with the writer of Json.v.  The limits an
    interpreter sets on recursion depth and on the digits of one integer are
    taken as not reached. *)

From S2P Require Import Prelude Json.
From Stdlib Require Import Ascii String.

Local Open Scope Z_scope.

(** What [json.loads] returns.  A float is kept as its literal. *)
Inductive value : Type :=
  | VNull
  | VBool (b : bool)
  | VInt (z : Z)
  | VFloat (literal : string)
  | VStr (s : string)
  | VArr (l : list value)
  | VObj (d : list (string * value)).

Definition code (c : ascii) : Z := Z.of_nat (Ascii.nat_of_ascii c).
Definition byte_char (z : Z) : ascii := Ascii.ascii_of_nat (Z.to_nat z).
Definition within (lo hi : Z) (c : ascii) : bool := (lo <=? code c) && (code c <=? hi).

(** ** UTF-8 *)

(** [raw.decode("utf-8")] succeeds: shortest forms only, no surrogates,
    nothing above U+10FFFF. *)
Fixpoint utf8_valid (s : string) : bool :=
  let tail := within 0x80 0xbf in
  match s with
  | EmptyString => true
  | String a s1 =>
      if code a <? 0x80 then utf8_valid s1 else
      match s1 with
      | EmptyString => false
      | String b s2 =>
          if within 0xc2 0xdf a then tail b && utf8_valid s2 else
          match s2 with
          | EmptyString => false
          | String c s3 =>
              if within 0xe0 0xef a then
                (if code a =? 0xe0 then within 0xa0 0xbf b
                 else if code a =? 0xed then within 0x80 0x9f b else tail b)
                && tail c && utf8_valid s3
              else match s3 with
              | EmptyString => false
              | String d s4 =>
                  within 0xf0 0xf4 a &&
                  (if code a =? 0xf0 then within 0x90 0xbf b
                   else if code a =? 0xf4 then within 0x80 0x8f b else tail b)
                  && tail c && tail d && utf8_valid s4
              end
          end
      end
  end.

(** One code point as UTF-8 bytes; a lone surrogate keeps the three bytes of
    the general scheme, which [utf8_valid] refuses. *)
Definition utf8_char (n : Z) : string :=
  let tail z := byte_char (0x80 + z `mod` 64) in
  if n <? 0x80 then String (byte_char n) EmptyString
  else if n <? 0x800 then String (byte_char (0xc0 + n `div` 64)) (String (tail n) EmptyString)
  else if n <? 0x10000 then
    String (byte_char (0xe0 + n `div` 4096))
      (String (tail (n `div` 64)) (String (tail n) EmptyString))
  else
    String (byte_char (0xf0 + n `div` 262144))
      (String (tail (n `div` 4096)) (String (tail (n `div` 64)) (String (tail n) EmptyString))).

(** ** Strings *)

Definition hex_char (c : ascii) : option Z :=
  if within 48 57 c then Some (code c - 48)
  else if within 97 102 c then Some (code c - 87)
  else if within 65 70 c then Some (code c - 55)
  else None.

(** [_decode_uXXXX] *)
Definition hex4 (a b c d : ascii) : option Z :=
  x ← hex_char a; y ← hex_char b; z ← hex_char c; w ← hex_char d;
  Some (4096 * x + 256 * y + 16 * z + w).

(** The single-character escapes. *)
Definition BACKSLASH (c : ascii) : option Z :=
  let n := code c in
  if n =? 34 then Some 34 else if n =? 92 then Some 92 else if n =? 47 then Some 47
  else if n =? 98 then Some 8 else if n =? 102 then Some 12 else if n =? 110 then Some 10
  else if n =? 114 then Some 13 else if n =? 116 then Some 9 else None.

Definition emit (u : string) (rest : option (string * string)) : option (string * string) :=
  (λ p, (u +:+ p.1, p.2)) <$> rest.

Definition high_surrogate (u : Z) : bool := (0xd800 <=? u) && (u <=? 0xdbff).
Definition low_surrogate (u : Z) : bool := (0xdc00 <=? u) && (u <=? 0xdfff).
Definition join_surrogates (u u2 : Z) : Z := 0x10000 + (u - 0xd800) * 1024 + (u2 - 0xdc00).

(** [scanstring(s, end, strict=True)], from behind the opening quote: the
    string and the text behind the closing quote. *)
Fixpoint scan_string (s : string) : option (string * string) :=
  match s with
  | EmptyString => None
  | String c s1 =>
      if Ascii.eqb c dquote then Some (EmptyString, s1)
      else if code c <? 32 then None
      else if negb (Ascii.eqb c "\") then emit (String c EmptyString) (scan_string s1)
      else match s1 with
      | EmptyString => None
      | String e s2 =>
          if negb (Ascii.eqb e "u") then
            n ← BACKSLASH e; emit (String (byte_char n) EmptyString) (scan_string s2)
          else match s2 with
          | String h1 (String h2 (String h3 (String h4 s3))) =>
              u ← hex4 h1 h2 h3 h4;
              match s3 with
              | String b (String v t) =>
                  if high_surrogate u && Ascii.eqb b "\" && Ascii.eqb v "u" then
                    match t with
                    | String k1 (String k2 (String k3 (String k4 s4))) =>
                        u2 ← hex4 k1 k2 k3 k4;
                        if low_surrogate u2
                        then emit (utf8_char (join_surrogates u u2)) (scan_string s4)
                        else emit (utf8_char u) (scan_string s3)
                    | _ => None
                    end
                  else emit (utf8_char u) (scan_string s3)
              | _ => emit (utf8_char u) (scan_string s3)
              end
          | _ => None
          end
      end
  end.

(** ** Numbers and literals *)

Definition is_digit (c : ascii) : bool := within 48 57 c.

Fixpoint take_digits (s : string) : string * string :=
  match s with
  | String c s1 =>
      if is_digit c then let '(d, r) := take_digits s1 in (String c d, r) else (EmptyString, s)
  | EmptyString => (EmptyString, EmptyString)
  end.

Fixpoint of_digits (acc : Z) (s : string) : Z :=
  match s with
  | String c s => of_digits (10 * acc + (code c - 48)) s
  | EmptyString => acc
  end.

Definition no_text (s : string) : bool := match s with EmptyString => true | _ => false end.

(** The optional fraction: a point and at least one digit. *)
Definition take_fraction (s : string) : string * string :=
  match s with
  | String c s1 =>
      let '(d, r) := take_digits s1 in
      if Ascii.eqb c "." && negb (no_text d) then (String c d, r) else (EmptyString, s)
  | EmptyString => (EmptyString, s)
  end.

(** The optional exponent: e or E, an optional sign, at least one digit. *)
Definition take_exponent (s : string) : string * string :=
  match s with
  | String c s1 =>
      let '(sign, s2) := match s1 with
                         | String g t =>
                             if Ascii.eqb g "-" || Ascii.eqb g "+" then (String g EmptyString, t)
                             else (EmptyString, s1)
                         | EmptyString => (EmptyString, s1)
                         end in
      let '(d, r) := take_digits s2 in
      if (Ascii.eqb c "e" || Ascii.eqb c "E") && negb (no_text d)
      then (String c (sign +:+ d), r) else (EmptyString, s)
  | EmptyString => (EmptyString, s)
  end.

Definition number_tail (sign digits r : string) : value * string :=
  let '(frac, r1) := take_fraction r in
  let '(ex, r2) := take_exponent r1 in
  if no_text frac && no_text ex
  then (VInt (if no_text sign then of_digits 0 digits else - of_digits 0 digits), r)
  else (VFloat (sign +:+ digits +:+ frac +:+ ex), r2).

(** [NUMBER_RE]: an optional minus sign, zero or digits that do not start with
    zero, then the optional fraction and exponent. *)
Definition scan_number (s : string) : option (value * string) :=
  let '(sign, s1) := match s with
                     | String c t => if Ascii.eqb c "-" then ("-", t) else (EmptyString, s)
                     | EmptyString => (EmptyString, s)
                     end in
  match s1 with
  | String c t =>
      if Ascii.eqb c "0" then Some (number_tail sign "0" t)
      else if is_digit c then let '(d, r) := take_digits s1 in Some (number_tail sign d r)
      else None
  | EmptyString => None
  end.

Fixpoint strip (p s : string) : option string :=
  match p, s with
  | EmptyString, _ => Some s
  | String c p, String d s => if Ascii.eqb c d then strip p s else None
  | String _ _, EmptyString => None
  end.

Fixpoint first_literal (l : list (string * value)) (s : string) : option (value * string) :=
  match l with
  | [] => None
  | (p, v) :: l => match strip p s with Some r => Some (v, r) | None => first_literal l s end
  end.

Definition scan_leaf (s : string) : option (value * string) :=
  match first_literal [("null", VNull); ("true", VBool true); ("false", VBool false)] s with
  | Some x => Some x
  | None =>
      match scan_number s with
      | Some x => Some x
      | None => first_literal [("NaN", VFloat "NaN"); ("Infinity", VFloat "Infinity");
                               ("-Infinity", VFloat "-Infinity")] s
      end
  end.

(** ** Values *)

Definition is_ws (c : ascii) : bool :=
  let n := code c in (n =? 32) || (n =? 9) || (n =? 10) || (n =? 13).

Fixpoint skip_ws (s : string) : string :=
  match s with
  | String c s1 => if is_ws c then skip_ws s1 else s
  | EmptyString => EmptyString
  end.

Definition head_is (c : ascii) (s : string) : option string :=
  match s with
  | String d s => if Ascii.eqb d c then Some s else None
  | EmptyString => None
  end.

(** The scanner behind [json.loads]: a value and the text behind it.
    [scan_elements] is the loop of [JSONArray], [scan_pairs] the loop of
    [JSONObject] with the [dict] built so far. *)
Fixpoint scan_once (fuel : nat) (s : string) {struct fuel} : option (value * string) :=
  match fuel with
  | O => None
  | S fuel =>
      match s with
      | EmptyString => None
      | String c s1 =>
          if Ascii.eqb c dquote then '(x, r) ← scan_string s1; Some (VStr x, r)
          else if Ascii.eqb c "{" then
            match head_is "}" (skip_ws s1) with
            | Some r => Some (VObj [], r)
            | None => scan_pairs fuel [] (skip_ws s1)
            end
          else if Ascii.eqb c "[" then
            match head_is "]" (skip_ws s1) with
            | Some r => Some (VArr [], r)
            | None => scan_elements fuel [] (skip_ws s1)
            end
          else scan_leaf s
      end
  end
with scan_elements (fuel : nat) (l : list value) (s : string) {struct fuel}
    : option (value * string) :=
  match fuel with
  | O => None
  | S fuel =>
      '(v, r) ← scan_once fuel s;
      match head_is "]" (skip_ws r) with
      | Some r => Some (VArr (l ++ [v]), r)
      | None => r ← head_is "," (skip_ws r); scan_elements fuel (l ++ [v]) (skip_ws r)
      end
  end
with scan_pairs (fuel : nat) (d : list (string * value)) (s : string) {struct fuel}
    : option (value * string) :=
  match fuel with
  | O => None
  | S fuel =>
      s1 ← head_is dquote s;
      '(k, r) ← scan_string s1;
      r ← head_is ":" (skip_ws r);
      '(v, r) ← scan_once fuel (skip_ws r);
      match head_is "}" (skip_ws r) with
      | Some r => Some (VObj (od_set d k v), r)
      | None => r ← head_is "," (skip_ws r); scan_pairs fuel (od_set d k v) (skip_ws r)
      end
  end.

Definition text_fuel (s : string) : nat := (2 * String.length s + 2)%nat.

(** [json.loads(s)]; [None] is [JSONDecodeError]. *)
Definition loads (s : string) : option value :=
  '(v, r) ← scan_once (text_fuel s) (skip_ws s);
  if no_text (skip_ws r) then Some v else None.

Example loads_example :
  loads " [1 , -20,{},{ }, 0.5e+3, [ ], true,null] " =
  Some (VArr [VInt 1; VInt (-20); VObj []; VObj []; VFloat "0.5e+3"; VArr []; VBool true; VNull]).
Proof. vm_compute. reflexivity. Qed.
Example loads_dict :
  loads ("{" +:+ quote "a" +:+ ":1," +:+ quote "b" +:+ " : 2 , " +:+ quote "a" +:+ ":3}") =
  Some (VObj [("a", VInt 3); ("b", VInt 2)]).
Proof. vm_compute. reflexivity. Qed.
Example loads_refuses : map loads ["01"; "[1,]"; "-"; "1."; "{,}"; ""] = replicate 6 None.
Proof. vm_compute. reflexivity. Qed.
Example loads_surrogates :
  loads (String dquote ("\ud83d\ude00\u00e9\n" +:+ String dquote EmptyString)) =
  Some (VStr (utf8 [240; 159; 152; 128; 195; 169; 10]%nat)).
Proof. vm_compute. reflexivity. Qed.

(** ** The fuel is enough *)

Lemma skip_ws_length s : (String.length (skip_ws s) ≤ String.length s)%nat.
Proof. induction s as [|c s IH]; cbn; [done|]. destruct (is_ws c); cbn; lia. Qed.

Lemma head_is_length c s r : head_is c s = Some r → String.length s = S (String.length r).
Proof. destruct s as [|d s]; cbn; [done|]. destruct (Ascii.eqb d c); naive_solver. Qed.

Lemma emit_Some u o x r : emit u o = Some (x, r) → ∃ y, o = Some (y, r).
Proof. destruct o as [[y t]|]; cbn; naive_solver. Qed.

Lemma scan_string_length s x r :
  scan_string s = Some (x, r) → (String.length r < String.length s)%nat.
Proof.
  remember (String.length s) as n eqn:Hn. revert s x r Hn.
  induction (lt_wf n) as [n _ IH]. intros s x r -> Hs.
  assert (Hemit : ∀ u t, (String.length t < String.length s)%nat →
    emit u (scan_string t) = Some (x, r) → (String.length r < String.length s)%nat).
  { intros u t Ht (y & Hy)%emit_Some. pose proof (IH _ Ht t y r eq_refl Hy). lia. }
  destruct s as [|c s1]; [done|]. cbn [scan_string] in Hs.
  destruct (Ascii.eqb c dquote); [simplify_eq; cbn; lia|].
  destruct (code c <? 32); [done|].
  destruct (negb (Ascii.eqb c "\")); [eapply Hemit, Hs; cbn; lia|].
  destruct s1 as [|e s2]; [done|].
  destruct (negb (Ascii.eqb e "u")).
  { apply bind_Some in Hs as (n & _ & Hs). eapply Hemit, Hs. cbn. lia. }
  do 4 (destruct s2 as [|? s2]; [done|]). apply bind_Some in Hs as (u & _ & Hs).
  destruct s2 as [|b [|v t]]; [eapply Hemit, Hs; cbn; lia..|].
  destruct (high_surrogate u && _ && _); [|eapply Hemit, Hs; cbn; lia].
  do 4 (destruct t as [|? t]; [done|]). apply bind_Some in Hs as (u2 & _ & Hs).
  destruct (low_surrogate u2); (eapply Hemit, Hs; cbn; lia).
Qed.

Lemma take_digits_length s d r :
  take_digits s = (d, r) → String.length s = (String.length d + String.length r)%nat.
Proof.
  revert d r. induction s as [|c s IH]; cbn; intros d r; [by intros; simplify_eq|].
  destruct (is_digit c); [|by intros; simplify_eq].
  destruct (take_digits s) as [d' r'] eqn:Hd. intros. simplify_eq. cbn. by rewrite (IH d' r).
Qed.

Lemma take_fraction_length s d r :
  take_fraction s = (d, r) → (String.length r ≤ String.length s)%nat.
Proof.
  destruct s as [|c s]; cbn; [by intros; simplify_eq|].
  destruct (take_digits s) as [x y] eqn:Hd. apply take_digits_length in Hd.
  case_match; intros; simplify_eq; cbn; lia.
Qed.

Lemma take_exponent_length s d r :
  take_exponent s = (d, r) → (String.length r ≤ String.length s)%nat.
Proof.
  destruct s as [|c s]; cbn; [by intros; simplify_eq|].
  destruct s as [|g t]; cbn.
  { rewrite andb_false_r. intros; simplify_eq; done. }
  destruct (Ascii.eqb g "-" || Ascii.eqb g "+").
  - destruct (take_digits t) as [x y] eqn:Hd. apply take_digits_length in Hd.
    case_match; intros; simplify_eq; cbn; lia.
  - destruct (take_digits (String g t)) as [x y] eqn:Hd. apply take_digits_length in Hd.
    cbn [String.length] in Hd. case_match; intros; simplify_eq; cbn; lia.
Qed.

Lemma number_tail_length sg d s v r :
  number_tail sg d s = (v, r) → (String.length r ≤ String.length s)%nat.
Proof.
  unfold number_tail. destruct (take_fraction s) as [fr r1] eqn:Hf. apply take_fraction_length in Hf.
  destruct (take_exponent r1) as [ex r2] eqn:He. apply take_exponent_length in He.
  case_match; intros; simplify_eq; lia.
Qed.

Lemma scan_number_length s v r :
  scan_number s = Some (v, r) → (String.length r < String.length s)%nat.
Proof.
  unfold scan_number.
  assert (Hbody : ∀ sg s1, (String.length s1 ≤ String.length s)%nat →
    match s1 with
    | String c t =>
        if Ascii.eqb c "0" then Some (number_tail sg "0" t)
        else if is_digit c then let '(d, r) := take_digits s1 in Some (number_tail sg d r)
        else None
    | EmptyString => None
    end = Some (v, r) → (String.length r < String.length s)%nat).
  { intros sg [|c t] Hl; [done|]. cbn [String.length] in Hl. destruct (Ascii.eqb c "0").
    - intros [= Hn]. apply number_tail_length in Hn. lia.
    - cbn [take_digits]. destruct (is_digit c); [|done].
      destruct (take_digits t) as [d r'] eqn:Hd. apply take_digits_length in Hd.
      intros [= Hn]. apply number_tail_length in Hn. lia. }
  destruct s as [|c t]; [done|]. destruct (Ascii.eqb c "-").
  - apply (Hbody "-" t). cbn. lia.
  - by apply (Hbody EmptyString (String c t)).
Qed.

Lemma strip_length p s r :
  strip p s = Some r → String.length s = (String.length p + String.length r)%nat.
Proof.
  revert s. induction p as [|c p IH]; intros [|d s]; cbn; [naive_solver..|].
  destruct (Ascii.eqb c d); [|done]. intros ->%IH. done.
Qed.

Lemma first_literal_length l s v r :
  Forall (λ p, p.1 ≠ EmptyString) l → first_literal l s = Some (v, r) →
  (String.length r < String.length s)%nat.
Proof.
  induction 1 as [|[p w] l Hp Hl IH]; cbn; [done|].
  destruct (strip p s) as [t|] eqn:Hs; [|done]. intros [= -> ->].
  apply strip_length in Hs. destruct p; [done|]. cbn in Hs. lia.
Qed.

Lemma scan_leaf_length s v r :
  scan_leaf s = Some (v, r) → (String.length r < String.length s)%nat.
Proof.
  unfold scan_leaf.
  destruct (first_literal _ s) as [[w t]|] eqn:H1.
  { apply first_literal_length in H1; [|by repeat constructor]. naive_solver. }
  destruct (scan_number s) as [[w t]|] eqn:H2.
  { apply scan_number_length in H2. naive_solver. }
  apply first_literal_length. by repeat constructor.
Qed.

Definition scans_shorter (scan : string → option (value * string)) : Prop :=
  ∀ s v r, scan s = Some (v, r) → (String.length r < String.length s)%nat.

Lemma scan_lengths fuel :
  scans_shorter (scan_once fuel) ∧ (∀ l, scans_shorter (scan_elements fuel l)) ∧
  ∀ d, scans_shorter (scan_pairs fuel d).
Proof.
  induction fuel as [|fuel (IHo & IHe & IHp)]; [done|]. unfold scans_shorter in *.
  split_and!.
  - intros [|c s] v r; [done|]. cbn [scan_once]. pose proof (skip_ws_length s) as Hw.
    destruct (Ascii.eqb c dquote).
    { intros ([x t] & Hx%scan_string_length & [= _ ->])%bind_Some. cbn. lia. }
    destruct (Ascii.eqb c "{").
    { destruct (head_is "}" _) as [t|] eqn:Ht; [apply head_is_length in Ht|].
      - intros [= _ ->]. cbn. lia.
      - intros Hv%IHp. cbn. lia. }
    destruct (Ascii.eqb c "["); [|by intros ?%scan_leaf_length].
    destruct (head_is "]" _) as [t|] eqn:Ht; [apply head_is_length in Ht|].
    + intros [= _ ->]. cbn. lia.
    + intros Hv%IHe. cbn. lia.
  - intros l s v r. cbn [scan_elements]. intros ([w t] & Hw%IHo & H)%bind_Some.
    pose proof (skip_ws_length t).
    destruct (head_is "]" _) as [u|] eqn:Hu; [apply head_is_length in Hu; naive_solver lia|].
    apply bind_Some in H as (u & Hh%head_is_length & H%IHe). pose proof (skip_ws_length u). lia.
  - intros d s v r. cbn [scan_pairs].
    intros (s1 & Hs%head_is_length & ([k t] & Hk%scan_string_length & H)%bind_Some)%bind_Some.
    apply bind_Some in H as (u & Hu%head_is_length & H).
    apply bind_Some in H as ([w u2] & Hw%IHo & H).
    pose proof (skip_ws_length t). pose proof (skip_ws_length u). pose proof (skip_ws_length u2).
    destruct (head_is "}" _) as [u3|] eqn:Hu3; [apply head_is_length in Hu3; naive_solver lia|].
    apply bind_Some in H as (u3 & Hh%head_is_length & H%IHp). pose proof (skip_ws_length u3). lia.
Qed.

(** More fuel than twice the length changes nothing. *)
Lemma scan_fuel f f' :
  (f ≤ f')%nat →
  (∀ s, (2 * String.length s + 1 ≤ f)%nat → scan_once f' s = scan_once f s) ∧
  (∀ l s, (2 * String.length s + 2 ≤ f)%nat → scan_elements f' l s = scan_elements f l s) ∧
  ∀ d s, (2 * String.length s + 2 ≤ f)%nat → scan_pairs f' d s = scan_pairs f d s.
Proof.
  revert f'. induction f as [|f IH]; [intros f' _; split_and!; intros; lia|]. intros [|f'] Hf; [lia|].
  destruct (IH f' ltac:(lia)) as (IHo & IHe & IHp).
  destruct (scan_lengths f) as (Lo & _ & _).
  split_and!.
  - intros [|c s] Hs; [done|]. cbn [scan_once]. cbn [String.length] in Hs.
    pose proof (skip_ws_length s). by rewrite IHp, IHe by lia.
  - intros l s Hs. cbn [scan_elements]. rewrite IHo by lia.
    destruct (scan_once f s) as [[v r]|] eqn:Hv; cbn; [|done]. apply Lo in Hv.
    pose proof (skip_ws_length r).
    destruct (head_is "]" _); [done|].
    destruct (head_is "," _) as [u|] eqn:Hu; cbn; [|done]. apply head_is_length in Hu.
    pose proof (skip_ws_length u). apply IHe. lia.
  - intros d s Hs. cbn [scan_pairs].
    destruct (head_is dquote s) as [s1|] eqn:Hq; cbn; [|done]. apply head_is_length in Hq.
    destruct (scan_string s1) as [[k t]|] eqn:Hk; cbn; [|done]. apply scan_string_length in Hk.
    destruct (head_is ":" _) as [u|] eqn:Hu; cbn; [|done]. apply head_is_length in Hu.
    pose proof (skip_ws_length t). pose proof (skip_ws_length u). rewrite IHo by lia.
    destruct (scan_once f _) as [[w u2]|] eqn:Hw; cbn; [|done]. apply Lo in Hw.
    pose proof (skip_ws_length u2).
    destruct (head_is "}" _); [done|].
    destruct (head_is "," _) as [u3|] eqn:Hu3; cbn; [|done]. apply head_is_length in Hu3.
    pose proof (skip_ws_length u3). apply IHp. lia.
Qed.

(** ** The round trip: strings *)

Lemma scan_escape_char c t :
  scan_string (escape_char c +:+ t) = emit (String c EmptyString) (scan_string t).
Proof.
  destruct c as [[] [] [] [] [] [] [] []];
    first [reflexivity | destruct t as [|b [|v t]]; reflexivity].
Qed.

Lemma scan_escape s r : scan_string (escape s +:+ String dquote r) = Some (s, r).
Proof.
  induction s as [|c s IH]; [done|]. cbn [escape].
  rewrite <- append_assoc, scan_escape_char, IH. done.
Qed.

(** ** The round trip: integers *)

(** What may stand behind a number without becoming part of it. *)
Definition stops (r : string) : bool :=
  match r with
  | EmptyString => true
  | String c _ => negb (is_digit c || Ascii.eqb c "." || Ascii.eqb c "e" || Ascii.eqb c "E")
  end.

Lemma digits_stop r : stops r = true → take_digits r = (EmptyString, r).
Proof. destruct r as [|c r]; cbn; [done|]. by destruct (is_digit c). Qed.

Lemma number_stops sg d r :
  stops r = true →
  number_tail sg d r = (VInt (if no_text sg then of_digits 0 d else - of_digits 0 d), r).
Proof.
  intros Hr. unfold number_tail.
  destruct r as [|c r]; [done|]. apply negb_true_iff in Hr. inv_Ok.
  assert (take_fraction (String c r) = (EmptyString, String c r)) as ->.
  { cbn. destruct (take_digits r). by destruct (Ascii.eqb c "."). }
  assert (take_exponent (String c r) = (EmptyString, String c r)) as ->; [|done].
  cbn. destruct (Ascii.eqb c "e"), (Ascii.eqb c "E"); try done.
  destruct r as [|g t]; [done|]. destruct (Ascii.eqb g "-" || Ascii.eqb g "+").
  - by destruct (take_digits t).
  - by destruct (take_digits (String g t)).
Qed.

(** Digits read after the accumulated [acc]: the value and the rest. *)
Definition read_digits (acc : Z) (s : string) : Z * string :=
  (of_digits acc (take_digits s).1, (take_digits s).2).

Lemma read_digits_cons acc c s :
  is_digit c = true → read_digits acc (String c s) = read_digits (10 * acc + (code c - 48)) s.
Proof. intros Hc. unfold read_digits. cbn. rewrite Hc. by destruct (take_digits s). Qed.

Lemma pretty_char_digit n :
  (n < 10)%N → is_digit (pretty_N_char n) = true ∧ code (pretty_N_char n) = 48 + Z.of_N n.
Proof.
  intros Hn.
  assert (n = 0 ∨ n = 1 ∨ n = 2 ∨ n = 3 ∨ n = 4 ∨ n = 5 ∨ n = 6 ∨ n = 7 ∨ n = 8 ∨ n = 9)%N
    as Hc by lia.
  naive_solver.
Qed.

Lemma read_pretty_go n s : read_digits 0 (pretty_N_go n s) = read_digits (Z.of_N n) s.
Proof.
  revert s. induction (N.lt_wf_0 n) as [n _ IH]. intros s.
  destruct (decide (n = 0)%N) as [->|Hn]; [done|].
  rewrite pretty_N_go_step by lia. rewrite IH by (by apply N.div_lt; lia).
  destruct (pretty_char_digit (n `mod` 10)%N) as [Hd Hc]; [apply N.mod_lt; lia|].
  rewrite read_digits_cons by done. f_equal. rewrite Hc.
  rewrite N2Z.inj_div, N2Z.inj_mod. pose proof (Z.div_mod (Z.of_N n) 10). lia.
Qed.

Lemma pretty_go_app n s r : pretty_N_go n s +:+ r = pretty_N_go n (s +:+ r).
Proof.
  revert s. induction (N.lt_wf_0 n) as [n _ IH]. intros s.
  destruct (decide (n = 0)%N) as [->|Hn]; [done|].
  rewrite !(pretty_N_go_step n) by lia. apply IH. apply N.div_lt; lia.
Qed.

(** A positive number starts with a digit other than zero. *)
Lemma pretty_go_head n s :
  (0 < n)%N → ∃ c t, pretty_N_go n s = String c t ∧ is_digit c = true ∧ Ascii.eqb c "0" = false.
Proof.
  revert s. induction (N.lt_wf_0 n) as [n _ IH]. intros s Hn. rewrite pretty_N_go_step by lia.
  destruct (decide (n < 10)%N) as [Hl|Hl].
  - rewrite N.div_small, N.mod_small, pretty_N_go_0 by lia.
    eexists _, s. split; [done|].
    assert (n = 1 ∨ n = 2 ∨ n = 3 ∨ n = 4 ∨ n = 5 ∨ n = 6 ∨ n = 7 ∨ n = 8 ∨ n = 9)%N by lia.
    naive_solver.
  - apply IH; [apply N.div_lt; lia|]. apply N.div_str_pos. lia.
Qed.

Lemma take_pretty p r :
  stops r = true →
  ∃ c t d, pretty (N.pos p) +:+ r = String c t ∧ is_digit c = true ∧ Ascii.eqb c "0" = false ∧
  take_digits (String c t) = (d, r) ∧ of_digits 0 d = Z.pos p.
Proof.
  intros Hr. unfold pretty, pretty_N. rewrite decide_False by lia.
  rewrite pretty_go_app. destruct (pretty_go_head (N.pos p) (EmptyString +:+ r)) as (c & t & He & Hc & H0);
    [lia|].
  exists c, t. pose proof (read_pretty_go (N.pos p) (EmptyString +:+ r)) as Hread.
  rewrite He in *. change (EmptyString +:+ r) with r in *. unfold read_digits in Hread.
  rewrite (digits_stop r Hr) in Hread. destruct (take_digits (String c t)) as [d r'].
  exists d. cbn in Hread. injection Hread as Hv ->. done.
Qed.

(** The first character of a number decides which scanner runs. *)
Lemma leaf_of_number c t :
  is_digit c || Ascii.eqb c "-" = true →
  first_literal [("null", VNull); ("true", VBool true); ("false", VBool false)] (String c t) = None.
Proof. destruct c as [[] [] [] [] [] [] [] []]; done. Qed.

Lemma number_head c :
  is_digit c || Ascii.eqb c "-" = true →
  Ascii.eqb c dquote = false ∧ Ascii.eqb c "{" = false ∧ Ascii.eqb c "[" = false ∧
  is_ws c = false ∧ Ascii.eqb c "]" = false.
Proof. destruct c as [[] [] [] [] [] [] [] []]; done. Qed.

(** How the text of an integer starts, and what the number scanner makes of it. *)
Lemma scan_pretty z r :
  stops r = true →
  ∃ c t, pretty z +:+ r = String c t ∧ is_digit c || Ascii.eqb c "-" = true ∧
         scan_number (String c t) = Some (VInt z, r).
Proof.
  intros Hr. destruct z as [|p|p].
  - exists "0"%char, r. split_and!; [done..|].
    change (Some (number_tail EmptyString "0" r) = Some (VInt 0, r)). by rewrite number_stops.
  - destruct (take_pretty p r Hr) as (c & t & d & He & Hc & H0 & Ht & Hd).
    exists c, t. rewrite Hc. split_and!; [done..|]. unfold scan_number.
    destruct (Ascii.eqb c "-") eqn:Hm; [apply Ascii.eqb_eq in Hm as ->; done|].
    rewrite H0, Hc, Ht, number_stops by done. cbn. by rewrite Hd.
  - destruct (take_pretty p r Hr) as (c & t & d & He & Hc & H0 & Ht & Hd).
    exists "-"%char, (String c t). split_and!; [|done|].
    + change (("-" +:+ pretty (N.pos p)) +:+ r = "-" +:+ String c t).
      by rewrite <- append_assoc, He.
    + unfold scan_number. change (Ascii.eqb "-" "-") with true. cbn [negb].
      rewrite H0, Hc, Ht, number_stops by done. cbn. by rewrite Hd.
Qed.

Lemma scan_once_leaf f c t :
  Ascii.eqb c dquote = false → Ascii.eqb c "{" = false → Ascii.eqb c "[" = false →
  scan_once (S f) (String c t) = scan_leaf (String c t).
Proof. cbn [scan_once]. by intros -> -> ->. Qed.

Lemma scan_int f z r :
  stops r = true → scan_once (S f) (pretty z +:+ r) = Some (VInt z, r).
Proof.
  intros Hr. destruct (scan_pretty z r Hr) as (c & t & -> & Hc & Hs).
  destruct (number_head c Hc) as (Hq & Ho & Ha & _).
  rewrite scan_once_leaf by done. unfold scan_leaf. by rewrite leaf_of_number, Hs.
Qed.

(** ** The round trip: values *)

(** Induction that reaches the members of arrays and objects. *)
Section json_induction.
Context (P : json → Prop) (P_null : P JNull) (P_bool : ∀ b, P (JBool b)) (P_int : ∀ z, P (JInt z))
  (P_str : ∀ s, P (JStr s)) (P_arr : ∀ l, Forall P l → P (JArr l))
  (P_obj : ∀ l, Forall (λ kv, P kv.2) l → P (JObj l)).

Fixpoint json_nested_ind (v : json) : P v :=
  match v with
  | JNull => P_null
  | JBool b => P_bool b
  | JInt z => P_int z
  | JStr s => P_str s
  | JArr l =>
      P_arr l ((fix go l : Forall P l :=
        match l with
        | [] => Forall_nil_2 _
        | v :: l => Forall_cons_2 _ _ _ (json_nested_ind v) (go l)
        end) l)
  | JObj l =>
      P_obj l ((fix go l : Forall (λ kv, P kv.2) l :=
        match l with
        | [] => Forall_nil_2 _
        | kv :: l => Forall_cons_2 _ _ _ (json_nested_ind kv.2) (go l)
        end) l)
  end.
End json_induction.

(** A Python [dict] has distinct keys, at every level. *)
Fixpoint distinct_keys (v : json) : bool :=
  match v with
  | JArr l => forallb distinct_keys l
  | JObj l => bool_decide (NoDup l.*1) && forallb (λ kv, distinct_keys kv.2) l
  | _ => true
  end.

(** The value a text written with sorted keys stands for. *)
Fixpoint value_of (v : json) : value :=
  match v with
  | JNull => VNull
  | JBool b => VBool b
  | JInt z => VInt z
  | JStr s => VStr s
  | JArr l => VArr (map value_of l)
  | JObj l => VObj (merge_sort key_le (map (λ kv, (kv.1, value_of kv.2)) l))
  end.

Definition row (kv : string * json) : string := quote kv.1 +:+ ":" +:+ dumps kv.2.

Lemma sorted_rows {A} (f : string * json → A) (l : list (string * json)) :
  merge_sort key_le (map (λ kv, (kv.1, f kv)) l) =
  map (λ kv, (kv.1, f kv)) (merge_sort key_le l).
Proof. by apply (merge_sort_fmap (λ kv, (kv.1, f kv))). Qed.

Lemma dumps_obj l :
  dumps (JObj l) = "{" +:+ join "," (map row (merge_sort key_le l)) +:+ "}".
Proof.
  unfold dumps. cbn [dumps_with]. rewrite (sorted_rows row). do 3 f_equal.
  induction (merge_sort key_le l) as [|kv k IH]; [done|]. cbn. by f_equal.
Qed.

Lemma value_of_obj l :
  value_of (JObj l) = VObj (map (λ kv, (kv.1, value_of kv.2)) (merge_sort key_le l)).
Proof. cbn [value_of]. f_equal. apply (sorted_rows (λ kv, value_of kv.2)). Qed.

(** No value starts with white space or closes an array. *)
Lemma dumps_head v r :
  stops r = true →
  ∃ c t, dumps v +:+ r = String c t ∧ is_ws c = false ∧ Ascii.eqb c "]" = false.
Proof.
  intros Hr. destruct v as [|[]|z|s|l|l]; try (eexists _, _; split; [reflexivity|done]).
  destruct (scan_pretty z r Hr) as (c & t & Ht & Hc & _).
  exists c, t. destruct (number_head c Hc) as (_ & _ & _ & ? & ?). done.
Qed.

Lemma skip_ws_dumps v r : stops r = true → skip_ws (dumps v +:+ r) = dumps v +:+ r.
Proof. intros Hr. destruct (dumps_head v r Hr) as (c & t & -> & Hc & _). cbn. by rewrite Hc. Qed.

Lemma head_dumps v r : stops r = true → head_is "]" (dumps v +:+ r) = None.
Proof. intros Hr. destruct (dumps_head v r Hr) as (c & t & -> & _ & Hc). cbn. by rewrite Hc. Qed.

Definition scans_back (v : json) : Prop :=
  ∀ f r, stops r = true → (2 * String.length (dumps v +:+ r) + 1 ≤ f)%nat →
  scan_once f (dumps v +:+ r) = Some (value_of v, r).

(** Arithmetic on the lengths of joined texts. *)
Ltac text_lia :=
  repeat (progress (rewrite ?append_length in *; cbn [String.length] in *)); lia.

(** One turn of each loop. *)
Lemma elements_close f acc s v r :
  scan_once f s = Some (v, String "]" r) → scan_elements (S f) acc s = Some (VArr (acc ++ [v]), r).
Proof. cbn [scan_elements]. by intros ->. Qed.

Lemma elements_comma f acc s v r :
  scan_once f s = Some (v, String "," r) →
  scan_elements (S f) acc s = scan_elements f (acc ++ [v]) (skip_ws r).
Proof. cbn [scan_elements]. by intros ->. Qed.

Lemma pairs_step f d k s :
  skip_ws s = s →
  scan_pairs (S f) d (quote k +:+ String ":" s) =
  '(v, r) ← scan_once f s;
  match head_is "}" (skip_ws r) with
  | Some r => Some (VObj (od_set d k v), r)
  | None => r ← head_is "," (skip_ws r); scan_pairs f (od_set d k v) (skip_ws r)
  end.
Proof.
  intros Hw. unfold quote. rewrite append_cons, <- append_assoc, append_cons.
  cbn [scan_pairs head_is]. change (Ascii.eqb dquote dquote) with true. cbn [mbind option_bind].
  rewrite scan_escape. cbn [mbind option_bind].
  change (head_is ":" (skip_ws (EmptyString +:+ String ":" s))) with (Some s).
  cbn [mbind option_bind]. by rewrite Hw.
Qed.

Lemma pairs_close f d k s v r :
  skip_ws s = s → scan_once f s = Some (v, String "}" r) →
  scan_pairs (S f) d (quote k +:+ String ":" s) = Some (VObj (od_set d k v), r).
Proof. intros Hw Hs. rewrite pairs_step by done. by rewrite Hs. Qed.

Lemma pairs_comma f d k s v r :
  skip_ws s = s → scan_once f s = Some (v, String "," r) →
  scan_pairs (S f) d (quote k +:+ String ":" s) = scan_pairs f (od_set d k v) (skip_ws r).
Proof. intros Hw Hs. rewrite pairs_step by done. by rewrite Hs. Qed.

(** Joined members start as the first one does. *)
Lemma join_first {A} (f : A → string) x l r :
  stops r = true →
  ∃ t, join "," (map f (x :: l)) +:+ r = f x +:+ t ∧ stops t = true.
Proof.
  intros Hr. destruct l as [|y l]; [by exists r|].
  exists (String "," (join "," (map f (y :: l))) +:+ r). by rewrite append_assoc.
Qed.

Lemma skip_ws_members v l r :
  stops r = true →
  skip_ws (join "," (map dumps (v :: l)) +:+ r) = join "," (map dumps (v :: l)) +:+ r.
Proof. intros Hr. destruct (join_first dumps v l r Hr) as (t & -> & Ht). by apply skip_ws_dumps. Qed.

(** The text of the members of an array, from the first to the bracket. *)
Lemma scan_members l v acc f r :
  Forall scans_back (v :: l) →
  (2 * String.length (join "," (map dumps (v :: l)) +:+ String "]" r) + 2 ≤ f)%nat →
  scan_elements f acc (join "," (map dumps (v :: l)) +:+ String "]" r) =
  Some (VArr (acc ++ map value_of (v :: l)), r).
Proof.
  revert v acc f. induction l as [|w l IH]; intros v acc [|f] Hl Hf; [lia| |lia|].
  - apply Forall_cons in Hl as [Hv _]. apply elements_close. apply Hv; [done|].
    cbn [map join] in Hf. lia.
  - apply Forall_cons in Hl as [Hv Hl].
    change (join "," (map dumps (v :: w :: l)))
      with (dumps v +:+ String "," (join "," (map dumps (w :: l)))) in *.
    rewrite <- append_assoc, append_cons in *.
    rewrite (elements_comma _ _ _ (value_of v) (join "," (map dumps (w :: l)) +:+ String "]" r))
      by (apply Hv; [done|text_lia]).
    rewrite skip_ws_members, IH by (done || text_lia). by rewrite <- app_assoc.
Qed.

(** The text of the rows of an object, from the first to the brace. *)
Lemma scan_rows l kv d f r :
  Forall (λ kv, scans_back kv.2) (kv :: l) → NoDup (od_keys d ++ (kv :: l).*1) →
  (2 * String.length (join "," (map row (kv :: l)) +:+ String "}" r) + 2 ≤ f)%nat →
  scan_pairs f d (join "," (map row (kv :: l)) +:+ String "}" r) =
  Some (VObj (d ++ map (λ kv, (kv.1, value_of kv.2)) (kv :: l)), r).
Proof.
  assert (Hset : ∀ (kv : string * json) l d, NoDup (od_keys d ++ (kv :: l).*1) →
    od_set d kv.1 (value_of kv.2) = d ++ [(kv.1, value_of kv.2)]).
  { intros kv' l' d' Hn. apply od_set_absent. intros Hin.
    apply NoDup_app in Hn as (_ & Hn & _). apply (Hn _ Hin). by left. }
  revert kv d f. induction l as [|kv' l IH]; intros kv d [|f] Hl Hn Hf; [lia| |lia|].
  - apply Forall_cons in Hl as [Hv _]. cbn [map join] in *. unfold row in *.
    rewrite <- !append_assoc, (append_cons ":") in *. change (EmptyString +:+ ?s) with s in *.
    rewrite (pairs_close _ _ _ _ (value_of kv.2) r); [by rewrite (Hset kv [] d)|..].
    + by apply skip_ws_dumps.
    + apply Hv; [done|text_lia].
  - apply Forall_cons in Hl as [Hv Hl].
    change (join "," (map row (kv :: kv' :: l)))
      with (row kv +:+ String "," (join "," (map row (kv' :: l)))) in *.
    unfold row at 1 in Hf. unfold row at 1.
    rewrite <- !append_assoc, !append_cons in *. change (EmptyString +:+ ?s) with s in *.
    rewrite (pairs_comma _ _ _ _ (value_of kv.2) (join "," (map row (kv' :: l)) +:+ String "}" r)).
    + assert (skip_ws (join "," (map row (kv' :: l)) +:+ String "}" r) =
              join "," (map row (kv' :: l)) +:+ String "}" r) as -> by (by destruct l).
      rewrite (Hset kv (kv' :: l)) by done. rewrite IH; [by rewrite <- app_assoc|done| |text_lia].
      unfold od_keys. rewrite fmap_app, <- app_assoc. done.
    + by apply skip_ws_dumps.
    + apply Hv; [done|text_lia].
Qed.

Lemma scan_once_arr f s :
  skip_ws s = s → head_is "]" s = None → scan_once (S f) (String "[" s) = scan_elements f [] s.
Proof. intros Hw Hh. cbn -[skip_ws head_is scan_elements]. by rewrite Hw, Hh. Qed.

Lemma scan_once_obj f s :
  skip_ws s = s → head_is "}" s = None → scan_once (S f) (String "{" s) = scan_pairs f [] s.
Proof. intros Hw Hh. cbn -[skip_ws head_is scan_pairs]. by rewrite Hw, Hh. Qed.

Lemma scan_dumps v : distinct_keys v = true → scans_back v.
Proof.
  induction v as [|b|z|s|l IH|l IH] using json_nested_ind; intros Hd f r Hr Hf;
    (destruct f as [|f]; [lia|]).
  - done.
  - by destruct b.
  - by apply scan_int.
  - change (dumps (JStr s) +:+ r) with ((String dquote (escape s +:+ String dquote EmptyString)) +:+ r).
    rewrite append_cons, <- append_assoc. cbn [scan_once].
    change (Ascii.eqb dquote dquote) with true. cbn iota.
    change (String dquote EmptyString +:+ r) with (String dquote r). by rewrite scan_escape.
  - assert (Hl : Forall scans_back l).
    { cbn in Hd. rewrite forallb_forall in Hd. rewrite Forall_forall in *. intros x Hx.
      apply IH; [done|]. by apply Hd, list_elem_of_In. }
    change (dumps (JArr l) +:+ r) with (("[" +:+ join "," (map dumps l) +:+ "]") +:+ r) in *.
    rewrite <- !append_assoc, (append_cons "[") in *. destruct l as [|v l]; [done|].
    change ("]" +:+ r) with (String "]" r) in *. change (EmptyString +:+ ?s) with s in *.
    rewrite scan_once_arr by (by apply skip_ws_members ||
      (destruct (join_first dumps v l (String "]" r) eq_refl) as (t & -> & Ht); by apply head_dumps)).
    by rewrite scan_members by (done || text_lia).
  - cbn [distinct_keys] in Hd. apply andb_true_iff in Hd as [Hn%bool_decide_eq_true_1 Hd].
    rewrite value_of_obj. rewrite dumps_obj in *.
    pose proof (merge_sort_Permutation key_le l) as Hp. revert Hf.
    generalize dependent (merge_sort key_le l). intros k Hp Hf.
    assert (Hl : Forall (λ kv, scans_back kv.2) k).
    { rewrite Hp. rewrite forallb_forall in Hd. rewrite Forall_forall in *. intros x Hx.
      apply IH; [done|]. by apply Hd, list_elem_of_In. }
    assert (Hk : NoDup k.*1) by (by rewrite Hp).
    rewrite <- !append_assoc, (append_cons "{") in *. destruct k as [|kv k]; [done|].
    change ("}" +:+ r) with (String "}" r) in *. change (EmptyString +:+ ?s) with s in *.
    rewrite scan_once_obj by (by destruct k). by rewrite scan_rows by (done || text_lia).
Qed.

(** Every text the encoder writes reads back as the value it was written
    from, the members of a [dict] in the order of their keys. *)
Lemma loads_dumps v : distinct_keys v = true → loads (dumps v) = Some (value_of v).
Proof.
  intros Hd. pose proof (scan_dumps v Hd (text_fuel (dumps v)) EmptyString eq_refl) as Hs.
  rewrite append_empty_r in Hs. unfold loads.
  pose proof (skip_ws_dumps v EmptyString eq_refl) as Hw. rewrite append_empty_r in Hw.
  rewrite Hw, Hs; [done|]. unfold text_fuel. lia.
Qed.
