(* ===== verification/JsonIndent.v ===== *)
(** * Indented JSON text, and that it reads back

    [json.dumps(value, indent=2, sort_keys=True, ensure_ascii=True)] is
    [dumps_indent 0].  [loads_indent]: [json.loads] of such a text, white space
    behind it included, is the value it was written from, whatever characters
    its strings hold, as long as they can be encoded. *)

From S2P Require Import Prelude Json JsonText.
From Stdlib Require Import Ascii String.

Local Open Scope Z_scope.

(** [json.dumps(value, indent=2, sort_keys=True, ensure_ascii=True)] of a value
    that starts at column [col] *)
Definition newline (col : nat) : string :=
  String (Ascii.ascii_of_nat 10) (String.concat "" (replicate col " ")).
Fixpoint dumps_indent (col : nat) (v : json) : string :=
  match v with
  | JArr [] => "[]"
  | JArr l =>
      "[" +:+ join "," (map (λ v, newline (col + 2) +:+ dumps_indent (col + 2) v) l) +:+ newline col +:+ "]"
  | JObj [] => "{}"
  | JObj l =>
      let rows := map (λ kv, (kv.1, newline (col + 2) +:+ quote_ascii kv.1 +:+ ": "
                                     +:+ dumps_indent (col + 2) kv.2)) l in
      "{" +:+ join "," (merge_sort key_le rows).*2 +:+ newline col +:+ "}"
  | _ => dumps_ascii v
  end.


(** ** Escaped strings read back *)

Lemma hex_digit_char k : 0 ≤ k < 16 → ∃ c, hex_digit k = String c EmptyString ∧ hex_char c = Some k.
Proof.
  intros Hk. assert (k = 0 ∨ k = 1 ∨ k = 2 ∨ k = 3 ∨ k = 4 ∨ k = 5 ∨ k = 6 ∨ k = 7 ∨ k = 8 ∨ k = 9 ∨
    k = 10 ∨ k = 11 ∨ k = 12 ∨ k = 13 ∨ k = 14 ∨ k = 15) as Hc by lia.
  repeat (destruct Hc as [->|Hc]; [by eexists|]). subst. by eexists.
Qed.

(** [escape_unit] is six characters that stand for the unit. *)
Lemma escape_unit_chars n :
  0 ≤ n < 65536 →
  ∃ a b c d, escape_unit n = String "\" (String "u" (String a (String b (String c (String d EmptyString))))) ∧
    hex4 a b c d = Some n.
Proof.
  intros Hn. unfold escape_unit, hex_byte.
  destruct (hex_digit_char ((n `div` 256) `div` 16)) as (a & -> & Ha).
  { split; [apply Z.div_pos; [apply Z.div_pos|]; lia|]. apply Z.div_lt_upper_bound; [lia|].
    apply Z.div_lt_upper_bound; lia. }
  destruct (hex_digit_char ((n `div` 256) `mod` 16)) as (b & -> & Hb); [apply Z.mod_pos_bound; lia|].
  destruct (hex_digit_char ((n `mod` 256) `div` 16)) as (c & -> & Hc).
  { pose proof (Z.mod_pos_bound n 256). split; [apply Z.div_pos; lia|apply Z.div_lt_upper_bound; lia]. }
  destruct (hex_digit_char ((n `mod` 256) `mod` 16)) as (d & -> & Hd); [apply Z.mod_pos_bound; lia|].
  exists a, b, c, d. split; [done|]. unfold hex4. rewrite Ha, Hb, Hc, Hd. cbn. f_equal.
  pose proof (Z.div_mod n 256). pose proof (Z.div_mod (n `div` 256) 16). pose proof (Z.div_mod (n `mod` 256) 16). lia.
Qed.

Lemma scan_unit n t :
  0 ≤ n < 65536 → high_surrogate n = false →
  scan_string (escape_unit n +:+ t) = emit (utf8_char n) (scan_string t).
Proof.
  intros Hn Hs. destruct (escape_unit_chars n Hn) as (a & b & c & d & -> & Hx).
  rewrite !append_cons. change (EmptyString +:+ t) with t. cbn [scan_string].
  change (Ascii.eqb "\" dquote) with false. change (code "\" <? 32) with false.
  change (negb (Ascii.eqb "\" "\")) with false. change (negb (Ascii.eqb "u" "u")) with false. cbn iota.
  rewrite Hx. cbn [mbind option_bind]. rewrite Hs. cbn [andb]. by destruct t as [|x [|y t]].
Qed.

Lemma scan_pair hi lo t :
  0 ≤ hi < 65536 → 0 ≤ lo < 65536 → high_surrogate hi = true → low_surrogate lo = true →
  scan_string (escape_unit hi +:+ (escape_unit lo +:+ t)) = emit (utf8_char (join_surrogates hi lo)) (scan_string t).
Proof.
  intros Hh Hl Hsh Hsl. destruct (escape_unit_chars hi Hh) as (a & b & c & d & -> & Hx).
  destruct (escape_unit_chars lo Hl) as (a' & b' & c' & d' & -> & Hx').
  rewrite !append_cons. change (EmptyString +:+ ?s) with s. cbn [scan_string].
  change (Ascii.eqb "\" dquote) with false. change (code "\" <? 32) with false.
  change (negb (Ascii.eqb "\" "\")) with false. change (negb (Ascii.eqb "u" "u")) with false.
  change (Ascii.eqb "\" "\") with true. change (Ascii.eqb "u" "u") with true. cbn iota.
  rewrite Hx. cbn [mbind option_bind]. rewrite Hsh. cbn [andb]. rewrite Hx'. cbn [mbind option_bind]. by rewrite Hsl.
Qed.

Lemma code_range c : 0 ≤ code c < 256.
Proof. unfold code. pose proof (Ascii.nat_ascii_bounded c). lia. Qed.
Lemma byte_char_code c z : z = code c → byte_char z = c.
Proof. intros ->. unfold byte_char, code. by rewrite Nat2Z.id, Ascii.ascii_nat_embedding. Qed.
Lemma within_spec lo hi c : within lo hi c = true ↔ lo ≤ code c ≤ hi.
Proof. unfold within. rewrite andb_true_iff, !Z.leb_le. done. Qed.

(** A character the encoder escapes by its code point *)
Lemma scan_escape_point n t :
  0 ≤ n < 0x110000 → high_surrogate n = false →
  scan_string (escape_point n +:+ t) = emit (utf8_char n) (scan_string t).
Proof.
  intros Hn Hs. unfold escape_point. destruct (n <? 0x10000) eqn:Hb.
  - apply Z.ltb_lt in Hb. apply scan_unit; [lia|done].
  - apply Z.ltb_ge in Hb. rewrite <- append_assoc.
    pose proof (Z.mod_pos_bound ((n - 0x10000) `div` 1024) 1024 eq_refl).
    pose proof (Z.mod_pos_bound (n - 0x10000) 1024 eq_refl).
    assert (0 ≤ (n - 0x10000) `div` 1024 < 1024).
    { split; [apply Z.div_pos; lia|apply Z.div_lt_upper_bound; lia]. }
    rewrite scan_pair; [|lia..|apply andb_true_intro; split; apply Z.leb_le; lia
                        |apply andb_true_intro; split; apply Z.leb_le; lia].
    do 2 f_equal. unfold join_surrogates. rewrite (Z.mod_small ((n - 0x10000) `div` 1024)) by lia.
    pose proof (Z.div_mod (n - 0x10000) 1024). lia.
Qed.

(** The bytes of a code point give the code point, and back. *)
Lemma utf8_char_2 a b :
  0xc2 ≤ code a ≤ 0xdf → 0x80 ≤ code b ≤ 0xbf →
  utf8_char (64 * (code a - 192) + (code b - 128)) = String a (String b EmptyString).
Proof.
  intros Ha Hb. unfold utf8_char. cbv zeta.
  set (n := 64 * (code a - 192) + (code b - 128)).
  assert (n `div` 64 = code a - 192 ∧ n `mod` 64 = code b - 128) as [Hd Hm].
  { subst n. split; [symmetry; apply (Z.div_unique _ _ _ (code b - 128)); lia
                    |symmetry; apply (Z.mod_unique _ _ (code a - 192)); lia]. }
  rewrite (proj2 (Z.ltb_ge n 0x80)), (proj2 (Z.ltb_lt n 0x800)) by lia.
  f_equal; [apply byte_char_code; lia|]. f_equal. apply byte_char_code. lia.
Qed.

Lemma utf8_char_3 a b c :
  0xe0 ≤ code a ≤ 0xef → 0x80 ≤ code b ≤ 0xbf → 0x80 ≤ code c ≤ 0xbf → (code a = 0xe0 → 0xa0 ≤ code b) →
  utf8_char (4096 * (code a - 224) + 64 * (code b - 128) + (code c - 128)) =
  String a (String b (String c EmptyString)).
Proof.
  intros Ha Hb Hc H0. unfold utf8_char. cbv zeta.
  set (n := 4096 * (code a - 224) + 64 * (code b - 128) + (code c - 128)).
  assert (n `div` 4096 = code a - 224) as Hd.
  { subst n. symmetry. apply (Z.div_unique _ _ _ (64 * (code b - 128) + (code c - 128))); lia. }
  assert (n `div` 64 = 64 * (code a - 224) + (code b - 128) ∧ n `mod` 64 = code c - 128) as [Hd2 Hm].
  { subst n. split; [symmetry; apply (Z.div_unique _ _ _ (code c - 128)); lia
                    |symmetry; apply (Z.mod_unique _ _ (64 * (code a - 224) + (code b - 128))); lia]. }
  assert ((n `div` 64) `mod` 64 = code b - 128) as Hm2.
  { rewrite Hd2. symmetry. apply (Z.mod_unique _ _ (code a - 224)); lia. }
  rewrite (proj2 (Z.ltb_ge n 0x80)), (proj2 (Z.ltb_ge n 0x800)), (proj2 (Z.ltb_lt n 0x10000)) by lia.
  f_equal; [apply byte_char_code; lia|]. f_equal; [apply byte_char_code; lia|]. f_equal. apply byte_char_code. lia.
Qed.

Lemma utf8_char_4 a b c d :
  0xf0 ≤ code a ≤ 0xf4 → 0x80 ≤ code b ≤ 0xbf → 0x80 ≤ code c ≤ 0xbf → 0x80 ≤ code d ≤ 0xbf →
  (code a = 0xf0 → 0x90 ≤ code b) →
  utf8_char (262144 * (code a - 240) + 4096 * (code b - 128) + 64 * (code c - 128) + (code d - 128)) =
  String a (String b (String c (String d EmptyString))).
Proof.
  intros Ha Hb Hc Hd H0. unfold utf8_char. cbv zeta.
  set (n := 262144 * (code a - 240) + 4096 * (code b - 128) + 64 * (code c - 128) + (code d - 128)).
  assert (n `div` 262144 = code a - 240) as Hd1.
  { subst n. symmetry.
    apply (Z.div_unique _ _ _ (4096 * (code b - 128) + 64 * (code c - 128) + (code d - 128))); lia. }
  assert (n `div` 4096 = 64 * (code a - 240) + (code b - 128)) as Hd2.
  { subst n. symmetry. apply (Z.div_unique _ _ _ (64 * (code c - 128) + (code d - 128))); lia. }
  assert ((n `div` 4096) `mod` 64 = code b - 128) as Hm2.
  { rewrite Hd2. symmetry. apply (Z.mod_unique _ _ (code a - 240)); lia. }
  assert (n `div` 64 = 4096 * (code a - 240) + 64 * (code b - 128) + (code c - 128) ∧ n `mod` 64 = code d - 128)
    as [Hd3 Hm].
  { subst n. split; [symmetry; apply (Z.div_unique _ _ _ (code d - 128)); lia|].
    symmetry. apply (Z.mod_unique _ _ (4096 * (code a - 240) + 64 * (code b - 128) + (code c - 128))); lia. }
  assert ((n `div` 64) `mod` 64 = code c - 128) as Hm3.
  { rewrite Hd3. symmetry. apply (Z.mod_unique _ _ (64 * (code a - 240) + (code b - 128))); lia. }
  rewrite (proj2 (Z.ltb_ge n 0x80)), (proj2 (Z.ltb_ge n 0x800)), (proj2 (Z.ltb_ge n 0x10000)) by lia.
  f_equal; [apply byte_char_code; lia|]. f_equal; [apply byte_char_code; lia|].
  f_equal; [apply byte_char_code; lia|]. f_equal. apply byte_char_code. lia.
Qed.

Lemma tail_spec c : within 0x80 0xbf c = true → 0x80 ≤ code c ≤ 0xbf.
Proof. apply within_spec. Qed.

(** Not a lone surrogate: the second byte of one that starts with ED is at most 9F. *)
Lemma not_surrogate_3 a b c :
  0xe0 ≤ code a ≤ 0xef → 0x80 ≤ code b ≤ 0xbf → 0x80 ≤ code c ≤ 0xbf → (code a = 0xed → code b ≤ 0x9f) →
  high_surrogate (4096 * (code a - 224) + 64 * (code b - 128) + (code c - 128)) = false.
Proof.
  intros Ha Hb Hc Hs. unfold high_surrogate. apply andb_false_iff. rewrite !Z.leb_gt.
  destruct (Z.le_gt_cases (code a) 0xec); [left; lia|].
  destruct (decide (code a = 0xed)) as [He|]; [left; specialize (Hs He); lia|right; lia].
Qed.

(** One step of [utf8_valid] and of the encoder *)
Lemma utf8_cases s :
  utf8_valid s = true → s ≠ EmptyString →
  ∃ n head rest, s = utf8_char n +:+ rest ∧ utf8_valid rest = true ∧ escape_ascii s = head +:+ escape_ascii rest ∧
    (String.length rest < String.length s)%nat ∧
    ∀ t, scan_string (head +:+ t) = emit (utf8_char n) (scan_string t).
Proof.
  intros Hv Hne. destruct s as [|a s1]; [done|]. cbn [utf8_valid] in Hv. pose proof (code_range a) as Hr.
  cbn [escape_ascii]. fold (code a). cbv zeta.
  destruct (code a <? 0x80) eqn:H80.
  { apply Z.ltb_lt in H80. destruct (code a <? 127) eqn:H127.
    - exists (code a), (escape_char a), s1.
      assert (utf8_char (code a) = String a EmptyString) as ->
        by (unfold utf8_char; rewrite (proj2 (Z.ltb_lt _ _)) by done; by rewrite (byte_char_code a)).
      split_and!; [done..|cbn; lia|]. intros t. apply scan_escape_char.
    - apply Z.ltb_ge in H127. assert (code a = 127) as Hc by lia. rewrite Hc.
      exists 127, (escape_unit 127), s1.
      assert (utf8_char 127 = String a EmptyString) as Hu by (cbn; f_equal; by apply byte_char_code).
      split_and!; [by rewrite Hu|done..|cbn; lia|]. intros t. by apply scan_unit. }
  apply Z.ltb_ge in H80. rewrite (proj2 (Z.ltb_ge (code a) 127)) by lia.
  destruct s1 as [|b s2]; [done|]. fold (code b).
  destruct (within 0xc2 0xdf a) eqn:Ha2.
  { apply within_spec in Ha2. apply andb_true_iff in Hv as [Hb%tail_spec Hv].
    rewrite (proj2 (Z.eqb_neq (code a) 127)), (proj2 (Z.ltb_lt (code a) 224)) by lia.
    eexists _, _, s2. split_and!; [by rewrite utf8_char_2|done|done|cbn; lia|].
    intros t. apply scan_escape_point; [lia|].
    apply andb_false_iff. left. apply Z.leb_gt. lia. }
  destruct s2 as [|c s3]; [done|]. fold (code c).
  destruct (within 0xe0 0xef a) eqn:Ha3.
  { apply within_spec in Ha3. apply andb_true_iff in Hv as [[Hb Hc%tail_spec]%andb_true_iff Hv].
    assert (0x80 ≤ code b ≤ 0xbf ∧ (code a = 0xe0 → 0xa0 ≤ code b) ∧ (code a = 0xed → code b ≤ 0x9f)) as (Hb1 & Hb2 & Hb3).
    { destruct (Z.eqb_spec (code a) 0xe0); [apply within_spec in Hb; split_and!; lia|].
      destruct (Z.eqb_spec (code a) 0xed); apply within_spec in Hb; split_and!; lia. }
    rewrite (proj2 (Z.eqb_neq (code a) 127)), (proj2 (Z.ltb_ge (code a) 224)), (proj2 (Z.ltb_lt (code a) 240)) by lia.
    eexists _, _, s3. split_and!; [by rewrite utf8_char_3|done|done|cbn; lia|].
    intros t. apply scan_escape_point; [lia|]. by apply not_surrogate_3. }
  destruct s3 as [|d s4]; [done|]. fold (code d).
  apply andb_true_iff in Hv as [[[[Ha4%within_spec Hb]%andb_true_iff Hc%tail_spec]%andb_true_iff Hd%tail_spec]%andb_true_iff Hv].
  assert (0x80 ≤ code b ≤ 0xbf ∧ (code a = 0xf0 → 0x90 ≤ code b) ∧ (code a = 0xf4 → code b ≤ 0x8f)) as (Hb1 & Hb2 & Hb3).
  { destruct (Z.eqb_spec (code a) 0xf0); [apply within_spec in Hb; split_and!; lia|].
    destruct (Z.eqb_spec (code a) 0xf4); apply within_spec in Hb; split_and!; lia. }
  rewrite (proj2 (Z.eqb_neq (code a) 127)), (proj2 (Z.ltb_ge (code a) 224)), (proj2 (Z.ltb_ge (code a) 240)) by lia.
  eexists _, _, s4. split_and!; [by rewrite utf8_char_4|done|done|cbn; lia|].
  intros t. apply scan_escape_point; [lia|].
  apply andb_false_iff. right. apply Z.leb_gt. lia.
Qed.

(** Every string Python can encode reads back from its escapes. *)
Lemma scan_escape_ascii s r :
  utf8_valid s = true → scan_string (escape_ascii s +:+ String dquote r) = Some (s, r).
Proof.
  remember (String.length s) as n eqn:Hn. revert s Hn.
  induction (lt_wf n) as [n _ IH]. intros s -> Hv.
  destruct (decide (s = EmptyString)) as [->|Hne]; [done|].
  destruct (utf8_cases s Hv Hne) as (p & head & rest & Hp & Hrest & -> & Hlt & Hscan).
  rewrite <- append_assoc, Hscan. rewrite (IH _ Hlt rest eq_refl Hrest). cbn. by rewrite Hp.
Qed.

(** ** The layout reads back *)

(** Every string of a value, keys included, is a Python string that can be
    encoded. *)
Fixpoint encodable (v : json) : bool :=
  match v with
  | JStr s => utf8_valid s
  | JArr l => forallb encodable l
  | JObj l => forallb (λ kv, utf8_valid kv.1 && encodable kv.2) l
  | _ => true
  end.

Lemma skip_newline col t : skip_ws (newline col +:+ t) = skip_ws t.
Proof.
  unfold newline. rewrite append_cons. cbn [skip_ws]. change (is_ws (Ascii.ascii_of_nat 10)) with true. cbn iota.
  induction col as [|col IH]; [done|]. destruct col as [|col]; [done|].
  change (String.concat "" (replicate (S (S col)) " ")) with (" " +:+ ("" +:+ String.concat "" (replicate (S col) " "))).
  exact IH.
Qed.

Lemma stops_newline col t : stops (newline col +:+ t) = true.
Proof. done. Qed.

Definition member (col : nat) (v : json) : string := newline col +:+ dumps_indent col v.
Definition indented_row (col : nat) (kv : string * json) : string :=
  newline col +:+ quote_ascii kv.1 +:+ ": " +:+ dumps_indent col kv.2.

Lemma dumps_indent_arr col v l :
  dumps_indent col (JArr (v :: l)) = "[" +:+ join "," (map (member (col + 2)) (v :: l)) +:+ newline col +:+ "]".
Proof. done. Qed.
Lemma dumps_indent_obj col kv l :
  dumps_indent col (JObj (kv :: l)) =
  "{" +:+ join "," (map (indented_row (col + 2)) (merge_sort key_le (kv :: l))) +:+ newline col +:+ "}".
Proof.
  change (dumps_indent col (JObj (kv :: l))) with ("{" +:+
    join "," (merge_sort key_le (map (λ kv, (kv.1, indented_row (col + 2) kv)) (kv :: l))).*2 +:+ newline col +:+ "}").
  do 3 f_equal. rewrite (sorted_rows (indented_row (col + 2)) (kv :: l)).
  induction (merge_sort key_le (kv :: l)) as [|x k IH]; [done|]. cbn. by f_equal.
Qed.

(** No value starts with white space or closes an array. *)
Lemma dumps_indent_head col v r :
  stops r = true →
  ∃ c t, dumps_indent col v +:+ r = String c t ∧ is_ws c = false ∧ Ascii.eqb c "]" = false.
Proof.
  intros Hr. destruct v as [|[]|z|s|[|v l]|[|kv l]]; try (eexists _, _; split; [reflexivity|done]).
  destruct (scan_pretty z r Hr) as (c & t & Ht & Hc & _).
  exists c, t. destruct (number_head c Hc) as (_ & _ & _ & ? & ?). done.
Qed.

Lemma skip_ws_indent col v r : stops r = true → skip_ws (dumps_indent col v +:+ r) = dumps_indent col v +:+ r.
Proof. intros Hr. destruct (dumps_indent_head col v r Hr) as (c & t & -> & Hc & _). cbn. by rewrite Hc. Qed.
Lemma head_indent col v r : stops r = true → head_is "]" (dumps_indent col v +:+ r) = None.
Proof. intros Hr. destruct (dumps_indent_head col v r Hr) as (c & t & -> & _ & Hc). cbn. by rewrite Hc. Qed.

Definition indent_back (v : json) : Prop :=
  ∀ col f r, stops r = true → (2 * String.length (dumps_indent col v +:+ r) + 1 ≤ f)%nat →
  scan_once f (dumps_indent col v +:+ r) = Some (value_of v, r).

(** The members of an array behind their bracket, and the rows of an object *)
Definition members_text (col : nat) (l : list json) (r : string) : string :=
  join "," (map (member (col + 2)) l) +:+ newline col +:+ String "]" r.
Definition rows_text (col : nat) (l : list (string * json)) (r : string) : string :=
  join "," (map (indented_row (col + 2)) l) +:+ newline col +:+ String "}" r.

Lemma members_text_one col v r :
  members_text col [v] r = newline (col + 2) +:+ dumps_indent (col + 2) v +:+ newline col +:+ String "]" r.
Proof. unfold members_text. cbn [map join]. unfold member. by rewrite <- !append_assoc. Qed.
Lemma members_text_cons col v w l r :
  members_text col (v :: w :: l) r =
  newline (col + 2) +:+ dumps_indent (col + 2) v +:+ String "," (members_text col (w :: l) r).
Proof.
  unfold members_text. change (join "," (map (member (col + 2)) (v :: w :: l)))
    with (member (col + 2) v +:+ String "," (join "," (map (member (col + 2)) (w :: l)))).
  unfold member at 1. by rewrite <- !append_assoc, append_cons.
Qed.

Lemma scan_members_indent col l v acc f r :
  Forall indent_back (v :: l) → (2 * String.length (members_text col (v :: l) r) + 2 ≤ f)%nat →
  scan_elements f acc (skip_ws (members_text col (v :: l) r)) = Some (VArr (acc ++ map value_of (v :: l)), r).
Proof.
  revert v acc f. induction l as [|w l IH]; intros v acc [|f] Hl Hf; [lia| |lia|].
  - apply Forall_cons in Hl as [Hv _]. rewrite members_text_one in *. rewrite skip_newline, skip_ws_indent by done.
    cbn [scan_elements]. rewrite Hv by (done || text_lia). cbn [mbind option_bind].
    by rewrite skip_newline.
  - apply Forall_cons in Hl as [Hv Hl]. rewrite members_text_cons in *. rewrite skip_newline, skip_ws_indent by done.
    rewrite (elements_comma _ _ _ (value_of v) (members_text col (w :: l) r)) by (apply Hv; [done|text_lia]).
    rewrite IH by (done || text_lia). by rewrite <- app_assoc.
Qed.

Lemma quote_ascii_app k t : quote_ascii k +:+ t = String dquote (escape_ascii k +:+ String dquote t).
Proof. unfold quote_ascii. by rewrite append_cons, <- append_assoc. Qed.

(** One turn of the loop over rows, up to the value *)
Lemma pairs_step_indent f d k s :
  utf8_valid k = true → skip_ws s = s →
  scan_pairs (S f) d (quote_ascii k +:+ String ":" (String " " s)) =
  '(v, r) ← scan_once f s;
  match head_is "}" (skip_ws r) with
  | Some r => Some (VObj (od_set d k v), r)
  | None => r ← head_is "," (skip_ws r); scan_pairs f (od_set d k v) (skip_ws r)
  end.
Proof.
  intros Hk Hw. rewrite quote_ascii_app. cbn [scan_pairs head_is].
  change (Ascii.eqb dquote dquote) with true. cbn [mbind option_bind]. rewrite scan_escape_ascii by done.
  cbn [mbind option_bind].
  change (head_is ":" (skip_ws (String ":" (String " " s)))) with (Some (String " " s)).
  cbn [mbind option_bind]. change (skip_ws (String " " s)) with (skip_ws s). by rewrite Hw.
Qed.

Lemma rows_text_one col kv r :
  rows_text col [kv] r =
  newline (col + 2) +:+ quote_ascii kv.1 +:+ String ":" (String " "
    (dumps_indent (col + 2) kv.2 +:+ newline col +:+ String "}" r)).
Proof.
  unfold rows_text. cbn [map join]. unfold indented_row. rewrite <- !append_assoc, !append_cons.
  by change (EmptyString +:+ ?s) with s.
Qed.
Lemma rows_text_cons col kv kv' l r :
  rows_text col (kv :: kv' :: l) r =
  newline (col + 2) +:+ quote_ascii kv.1 +:+ String ":" (String " "
    (dumps_indent (col + 2) kv.2 +:+ String "," (rows_text col (kv' :: l) r))).
Proof.
  unfold rows_text. change (join "," (map (indented_row (col + 2)) (kv :: kv' :: l)))
    with (indented_row (col + 2) kv +:+ String "," (join "," (map (indented_row (col + 2)) (kv' :: l)))).
  unfold indented_row at 1. rewrite <- !append_assoc, !append_cons. by change (EmptyString +:+ ?s) with s.
Qed.
Lemma skip_quote k t : skip_ws (quote_ascii k +:+ t) = quote_ascii k +:+ t.
Proof. by rewrite quote_ascii_app. Qed.

Lemma scan_rows_indent col l kv d f r :
  Forall (λ kv, indent_back kv.2) (kv :: l) → Forall (λ kv, utf8_valid kv.1 = true) (kv :: l) →
  NoDup (od_keys d ++ (kv :: l).*1) →
  (2 * String.length (rows_text col (kv :: l) r) + 2 ≤ f)%nat →
  scan_pairs f d (skip_ws (rows_text col (kv :: l) r)) =
  Some (VObj (d ++ map (λ kv, (kv.1, value_of kv.2)) (kv :: l)), r).
Proof.
  assert (Hset : ∀ (kv : string * json) l d, NoDup (od_keys d ++ (kv :: l).*1) →
    od_set d kv.1 (value_of kv.2) = d ++ [(kv.1, value_of kv.2)]).
  { intros kv' l' d' Hn. apply od_set_absent. intros Hin.
    apply NoDup_app in Hn as (_ & Hn & _). apply (Hn _ Hin). by left. }
  revert kv d f. induction l as [|kv' l IH]; intros kv d [|f] Hl Hk Hn Hf; [lia| |lia|].
  - apply Forall_cons in Hl as [Hv _]. apply Forall_cons in Hk as [Hkv _]. rewrite rows_text_one in *.
    rewrite skip_newline, skip_quote, pairs_step_indent by (done || by apply skip_ws_indent).
    rewrite Hv by (done || text_lia). cbn [mbind option_bind]. rewrite skip_newline. cbn. by rewrite (Hset kv [] d).
  - apply Forall_cons in Hl as [Hv Hl]. apply Forall_cons in Hk as [Hkv Hk]. rewrite rows_text_cons in *.
    rewrite skip_newline, skip_quote, pairs_step_indent by (done || by apply skip_ws_indent).
    rewrite Hv by (done || text_lia). cbn [mbind option_bind].
    change (skip_ws (String "," ?t)) with (String "," t). change (head_is "}" (String "," ?t)) with (@None string).
    change (head_is "," (String "," ?t)) with (Some t). cbn [mbind option_bind].
    rewrite (Hset kv (kv' :: l)) by done. rewrite IH; [by rewrite <- app_assoc|done|done| |text_lia].
    unfold od_keys. rewrite fmap_app, <- app_assoc. done.
Qed.

(** The brackets around the members, and the braces around the rows *)
Lemma scan_arr_indent col v l f r :
  Forall indent_back (v :: l) →
  (2 * String.length (dumps_indent col (JArr (v :: l)) +:+ r) + 1 ≤ S f)%nat →
  scan_once (S f) (dumps_indent col (JArr (v :: l)) +:+ r) = Some (value_of (JArr (v :: l)), r).
Proof.
  intros Hl Hf. rewrite dumps_indent_arr in *.
  assert (("[" +:+ join "," (map (member (col + 2)) (v :: l)) +:+ newline col +:+ "]") +:+ r =
    String "[" (members_text col (v :: l) r)) as Ht by (unfold members_text; by rewrite <- !append_assoc).
  rewrite Ht in *. cbn [scan_once].
  change (Ascii.eqb "[" dquote) with false. change (Ascii.eqb "[" "{") with false.
  change (Ascii.eqb "[" "[") with true. cbn iota.
  assert (head_is "]" (skip_ws (members_text col (v :: l) r)) = None) as ->.
  { destruct l; rewrite ?members_text_one, ?members_text_cons, skip_newline, skip_ws_indent by done;
      by apply head_indent. }
  by rewrite scan_members_indent by (done || text_lia).
Qed.

Lemma scan_obj_indent col kv k f r :
  Forall (λ kv, indent_back kv.2) (kv :: k) → Forall (λ kv, utf8_valid kv.1 = true) (kv :: k) →
  NoDup (kv :: k).*1 →
  (2 * String.length (String "{" (rows_text col (kv :: k) r)) + 1 ≤ S f)%nat →
  scan_once (S f) (String "{" (rows_text col (kv :: k) r)) =
  Some (VObj (map (λ kv, (kv.1, value_of kv.2)) (kv :: k)), r).
Proof.
  intros Hl Hu Hk Hf. cbn [scan_once].
  change (Ascii.eqb "{" dquote) with false. change (Ascii.eqb "{" "{") with true. cbn iota.
  assert (head_is "}" (skip_ws (rows_text col (kv :: k) r)) = None) as ->.
  { destruct k; by rewrite ?rows_text_one, ?rows_text_cons, skip_newline, skip_quote. }
  by rewrite scan_rows_indent by (done || text_lia).
Qed.

Lemma scan_dumps_indent v : distinct_keys v = true → encodable v = true → indent_back v.
Proof.
  induction v as [|b|z|s|l IH|l IH] using json_nested_ind; intros Hd He col f r Hr Hf;
    (destruct f as [|f]; [lia|]).
  - done.
  - by destruct b.
  - by apply scan_int.
  - change (dumps_indent col (JStr s) +:+ r) with (quote_ascii s +:+ r). rewrite quote_ascii_app.
    cbn [scan_once]. change (Ascii.eqb dquote dquote) with true. cbn iota. by rewrite scan_escape_ascii.
  - destruct l as [|v l]; [done|]. apply scan_arr_indent; [|done].
    cbn [distinct_keys encodable] in Hd, He. rewrite forallb_forall in Hd, He.
    rewrite Forall_forall in *. intros x Hx.
    apply IH; [done|apply Hd|apply He]; by apply list_elem_of_In.
  - destruct l as [|kv0 l0]; [done|]. rewrite value_of_obj, dumps_indent_obj in *.
    cbn [distinct_keys encodable] in Hd, He. apply andb_true_iff in Hd as [Hn%bool_decide_eq_true_1 Hd].
    pose proof (merge_sort_Permutation key_le (kv0 :: l0)) as Hp. revert Hf.
    generalize dependent (merge_sort key_le (kv0 :: l0)). intros k Hp Hf.
    destruct k as [|kv k]; [by apply Permutation_nil_cons in Hp|].
    assert (Hl : Forall (λ kv, indent_back kv.2) (kv :: k) ∧ Forall (λ kv, utf8_valid kv.1 = true) (kv :: k)).
    { rewrite Hp. rewrite forallb_forall in Hd, He. rewrite !Forall_forall in *.
      split; intros x Hx; pose proof (He x (proj1 (list_elem_of_In _ _) Hx)) as [? ?]%andb_true_iff; [|done].
      apply IH; [done| |done]. by apply Hd, list_elem_of_In. }
    assert (("{" +:+ join "," (map (indented_row (col + 2)) (kv :: k)) +:+ newline col +:+ "}") +:+ r =
      String "{" (rows_text col (kv :: k) r)) as Ht by (unfold rows_text; by rewrite <- !append_assoc).
    rewrite Ht in *. apply scan_obj_indent; [apply Hl..|by rewrite Hp|done].
Qed.

(** Every indented text of encodable strings, with the newline a file ends
    with, reads back as the value it was written from. *)
Lemma loads_indent v :
  distinct_keys v = true → encodable v = true →
  loads (dumps_indent 0 v +:+ newline 0) = Some (value_of v).
Proof.
  intros Hd He. pose proof (scan_dumps_indent v Hd He 0%nat (text_fuel (dumps_indent 0 v +:+ newline 0)) (newline 0) eq_refl) as Hs.
  unfold loads. rewrite skip_ws_indent by done. rewrite Hs; [done|]. unfold text_fuel. lia.
Qed.
