(* ===== verification/Isa.v ===== *)
(** * Which instruction words a declared RISC-V contract admits

    Models [src/src/myfuzz/isa/constraints.py]: the ISA contract with its
    constructor checks and the legality provider.  Words are nonnegative
    integers; fields are cut with shifts and masks as in the source. *)

From S2P Require Import Prelude.

Local Open Scope Z_scope.

Record IsaContract := mkIsa {
  xlen : Z;
  extensions : list string;
  privilege_modes : list string;
  instruction_alignment : Z }.

#[export] Instance IsaContract_eq_dec : EqDecision IsaContract.
Proof. solve_decision. Defined.

Definition has (x : string) (l : list string) : bool := bool_decide (x ∈ l).

Lemma has_elem x l : has x l = true ↔ x ∈ l.
Proof. apply bool_decide_eq_true. Qed.

Lemma has_false x l : has x l = false ↔ x ∉ l.
Proof. apply bool_decide_eq_false. Qed.

(** [IsaContract.__post_init__] *)
Definition IsaContract_post_init (c : IsaContract) : result IsaContract :=
  raise_if (negb (in_list (xlen c) [32; 64])) (ValueError "xlen must be 32 or 64") ;;
  raise_if (bool_decide (extensions c = []) || negb (bool_decide (NoDup (extensions c))))
    (ValueError "extensions must be a nonempty unique set") ;;
  raise_if (has EmptyString (extensions c)) (ValueError "extensions must be nonempty strings") ;;
  raise_if (negb (in_list (instruction_alignment c) [2; 4]))
    (ValueError "instruction_alignment must be 2 or 4") ;;
  raise_if (bool_decide (privilege_modes c = []) || has EmptyString (privilege_modes c))
    (ValueError "privilege_modes must be nonempty strings") ;;
  mret c.

(** [_IMPLEMENTED_EXTENSIONS] *)
Definition implemented_extensions : list string := ["I"; "M"; "C"].

Definition supports_legal_instruction_validation (c : IsaContract) : bool :=
  has "I" (extensions c) && forallb (λ e, has e implemented_extensions) (extensions c).

Section provider.
Variable contract : IsaContract.

Definition _compressed_legal (value : Z) : bool :=
  if negb (has "C" (extensions contract)) || negb (instruction_alignment contract =? 2)
     || (0xFFFF <? value) || (value &&& 3 =? 3) then false else
  let quadrant := value &&& 3 in
  let funct3 := (value ≫ 13) &&& 7 in
  let rd := (value ≫ 7) &&& 0x1F in
  let rs2 := (value ≫ 2) &&& 0x1F in
  let shift := ((value ≫ 2) &&& 0x1F) ||| (((value ≫ 12) &&& 1) ≪ 5) in
  if quadrant =? 0 then
    if funct3 =? 0 then
      let nzuimm := (value &&& (0xF ≪ 7)) ||| (value &&& (0x3 ≪ 11))
                    ||| (value &&& (1 ≪ 5)) ||| (value &&& (1 ≪ 6)) in
      negb (nzuimm =? 0)
    else if in_list funct3 [2; 6] then true
    else in_list funct3 [3; 7] && (xlen contract =? 64)
  else if quadrant =? 1 then
    let immediate := ((value ≫ 2) &&& 0x1F) ||| (((value ≫ 12) &&& 1) ≪ 5) in
    if funct3 =? 0 then negb (rd =? 0) || (immediate =? 0)
    else if funct3 =? 1 then (xlen contract =? 32) || negb (rd =? 0)
    else if funct3 =? 2 then negb (rd =? 0)
    else if funct3 =? 3 then
      if rd =? 2 then
        negb (((value &&& (1 ≪ 12)) ||| (value &&& (1 ≪ 6)) ||| (value &&& (1 ≪ 5))
               ||| (value &&& (0x3 ≪ 3)) ||| (value &&& (1 ≪ 2))) =? 0)
      else negb (in_list rd [0; 2]) && negb (immediate =? 0)
    else if in_list funct3 [5; 6; 7] then true
    else if negb (funct3 =? 4) then false
    else
      let operation := (value ≫ 10) &&& 3 in
      if negb (operation =? 3) then
        if in_list operation [0; 1] then
          negb (shift =? 0) && ((xlen contract =? 64) || (shift &&& 0x20 =? 0))
        else true
      else
        let operation := (value ≫ 5) &&& 3 in
        if negb ((value ≫ 12) &&& 1 =? 0) then
          (xlen contract =? 64) && in_list operation [0; 1]
        else in_list operation [0; 1; 2; 3]
  else if quadrant =? 2 then
    if funct3 =? 0 then
      negb (rd =? 0) && negb (shift =? 0) && ((xlen contract =? 64) || (shift &&& 0x20 =? 0))
    else if funct3 =? 2 then negb (rd =? 0)
    else if funct3 =? 3 then (xlen contract =? 64) && negb (rd =? 0)
    else if funct3 =? 4 then
      if (value ≫ 12) &&& 1 =? 0 then negb (rd =? 0)
      else if rd =? 0 then rs2 =? 0
      else true
    else if funct3 =? 6 then true
    else (funct3 =? 7) && (xlen contract =? 64)
  else false.

Definition _base_legal (value : Z) : bool :=
  let opcode := value &&& 0x7F in
  let funct3 := (value ≫ 12) &&& 7 in
  let funct7 := (value ≫ 25) &&& 0x7F in
  let rd := (value ≫ 7) &&& 0x1F in
  let rs1 := (value ≫ 15) &&& 0x1F in
  if opcode =? 0x13 then
    if in_list funct3 [0; 2; 3; 4; 6; 7] then true
    else if funct3 =? 1 then
      if xlen contract =? 64 then value ≫ 26 =? 0 else funct7 =? 0
    else if funct3 =? 5 then
      if xlen contract =? 64 then in_list (value ≫ 26) [0; 0x10] else in_list funct7 [0; 0x20]
    else false
  else if opcode =? 0x1B then
    if negb (xlen contract =? 64) then false
    else if funct3 =? 0 then true
    else if funct3 =? 1 then funct7 =? 0
    else (funct3 =? 5) && in_list funct7 [0; 0x20]
  else if opcode =? 0x3B then
    if negb (xlen contract =? 64) then false
    else if funct7 =? 0 then in_list funct3 [0; 1; 5]
    else if funct7 =? 0x20 then in_list funct3 [0; 5]
    else (funct7 =? 1) && in_list funct3 [0; 4; 5; 6; 7] && has "M" (extensions contract)
  else if opcode =? 0x33 then
    if funct7 =? 1 then has "M" (extensions contract)
    else if funct7 =? 0 then true
    else (funct7 =? 0x20) && in_list funct3 [0; 5]
  else if opcode =? 0x03 then
    in_list funct3 (if xlen contract =? 32 then [0; 1; 2; 4; 5] else [0; 1; 2; 3; 4; 5; 6])
  else if opcode =? 0x23 then
    in_list funct3 (if xlen contract =? 32 then [0; 1; 2] else [0; 1; 2; 3])
  else if opcode =? 0x63 then in_list funct3 [0; 1; 4; 5; 6; 7]
  else if in_list opcode [0x17; 0x37; 0x6F] then true
  else if opcode =? 0x67 then funct3 =? 0
  else if opcode =? 0x0F then
    (funct3 =? 0) && (rd =? 0) && (rs1 =? 0) && ((value ≫ 28) &&& 0xF =? 0)
  else if opcode =? 0x73 then
    if negb (funct3 =? 0) || negb (rd =? 0) || negb (rs1 =? 0) then false
    else
      let immediate := (value ≫ 20) &&& 0xFFF in
      if in_list immediate [0; 1] then true
      else if immediate =? 0x302 then has "M" (privilege_modes contract)
      else if immediate =? 0x102 then has "S" (privilege_modes contract)
      else immediate =? 0x105
  else false.

Definition is_legal_word (value : Z) (compressed : bool) : bool :=
  if value <? 0 then false
  else if negb (supports_legal_instruction_validation contract) then false
  else if compressed then _compressed_legal value
  else if (0xFFFFFFFF <? value) || negb (value &&& 3 =? 3) then false
  else _base_legal value.

Definition constrain_word (value : Z) (compressed : bool) : result Z :=
  raise_if (negb (is_legal_word value compressed)) (ValueError "illegal RISC-V instruction word") ;;
  mret (value &&& (if compressed then 0xFFFF else 0xFFFFFFFF)).
End provider.

(** ** Fields of partly known words

    A word whose bits under a mask are known has known fields inside the mask;
    the legality of a template's words is decided by these lemmas. *)

Lemma field_shift v k m : 0 ≤ k → (v ≫ k) &&& m = (v &&& (m ≪ k)) ≫ k.
Proof.
  intros Hk. apply Z.bits_inj'. intros n Hn.
  rewrite Z.land_spec, !Z.shiftr_spec, Z.land_spec, Z.shiftl_spec by lia.
  by replace (n + k - k) with n by lia.
Qed.

Lemma known_mask w M V m : w &&& M = V → m &&& M = m → w &&& m = V &&& m.
Proof.
  intros <- <-. apply Z.bits_inj'. intros n Hn. rewrite !Z.land_spec.
  destruct (Z.testbit w n), (Z.testbit M n), (Z.testbit m n); done.
Qed.

Lemma known_field w M V k m :
  w &&& M = V → 0 ≤ k → (m ≪ k) &&& M = m ≪ k → (w ≫ k) &&& m = (V ≫ k) &&& m.
Proof. intros Hw Hk Hm. rewrite !field_shift by done. by rewrite (known_mask w M V). Qed.

(** The top field: nothing above it in a 32-bit word. *)
Lemma top_field w k n : 0 ≤ w < 2 ^ (k + n) → 0 ≤ k → 0 ≤ n → w ≫ k = (w ≫ k) &&& Z.ones n.
Proof.
  intros Hw Hk Hn. rewrite Z.land_ones, Z.mod_small; [done| |done].
  rewrite Z.shiftr_div_pow2 by done. assert (0 < 2 ^ k) by lia. split; [apply Z.div_pos; lia|].
  apply Z.div_lt_upper_bound; [lia|]. rewrite <- Z.pow_add_r by done. lia.
Qed.

Lemma field_nonzero w k m : 0 ≤ k → w &&& (m ≪ k) ≠ 0 → (w ≫ k) &&& m ≠ 0.
Proof.
  intros Hk Hw. rewrite field_shift by done. intros Hz. apply Hw.
  apply Z.bits_inj'. intros n Hn. rewrite Z.bits_0.
  destruct (decide (n < k)).
  - rewrite Z.land_spec, Z.shiftl_spec_low by done. apply andb_false_r.
  - rewrite <- (Z.bits_0 (n - k)), <- Hz, Z.shiftr_spec by lia. f_equal. lia.
Qed.

Lemma legal_word_range c v compressed :
  is_legal_word c v compressed = true → 0 ≤ v < (if compressed then 2 ^ 16 else 2 ^ 32).
Proof.
  unfold is_legal_word. destruct (v <? 0) eqn:H0; [done|].
  destruct (negb _); [done|]. destruct compressed.
  - unfold _compressed_legal. destruct (0xFFFF <? v) eqn:H1; [|lia].
    by rewrite orb_true_r.
  - destruct (0xFFFFFFFF <? v) eqn:H1; [done|lia].
Qed.

Lemma constrain_word_Ok c v compressed w :
  constrain_word c v compressed = Ok w ↔ is_legal_word c v compressed = true ∧ w = v.
Proof.
  unfold constrain_word. destruct (is_legal_word c v compressed) eqn:Hl; cbn;
    [|by intuition congruence].
  apply legal_word_range in Hl.
  assert (v &&& (if compressed then 0xFFFF else 0xFFFFFFFF) = v) as ->; [|split; [by intros [= <-]|by intros [_ ->]]].
  destruct compressed; [change 0xFFFF with (Z.ones 16)|change 0xFFFFFFFF with (Z.ones 32)];
    rewrite Z.land_ones, Z.mod_small by lia; done.
Qed.
