(* ===== verification/Transducer.v ===== *)
(** * Capability-derived instruction selection and minimal repair

    Models [src/src/myfuzz/isa/transducer.py] and the selector
    [select_balanced] of [composition/constraint_ir.py].  The transducer picks
    an operation the contract supports and changes only its constrained bits. *)

From S2P Require Import Prelude Isa.

Local Open Scope Z_scope.

Definition _OPCODE_MASK := 0x7F.
Definition _FUNCT3_MASK := 0x7 ≪ 12.
Definition _FUNCT7_MASK := 0x7F ≪ 25.
Definition _RD_MASK := 0x1F ≪ 7.
Definition _RS1_MASK := 0x1F ≪ 15.
Definition _C_FORMAT_MASK := (0x7 ≪ 13) ||| 0x3.
Definition _C_RD_MASK := 0x1F ≪ 7.
Definition _C_RS2_MASK := 0x1F ≪ 2.
Definition _C_IMMEDIATE_MASK := (1 ≪ 12) ||| (0x1F ≪ 2).
Definition _C_ADDI4SPN_IMMEDIATE_MASK := (1 ≪ 12) ||| (0x3 ≪ 11) ||| (0xF ≪ 7) ||| (0x3 ≪ 5).

Record InstructionTemplate := mkTemplate {
  name : string;
  width : Z;
  extension : string;
  fixed_mask : Z;
  fixed_value : Z }.

Definition word_mask_of (width : Z) : Z := (1 ≪ width) - 1.

(** [InstructionTemplate.__post_init__] *)
Definition InstructionTemplate_post_init (t : InstructionTemplate) : result InstructionTemplate :=
  let word_mask := if in_list (width t) [16; 32] then word_mask_of (width t) else 0 in
  raise_if (bool_decide (name t = EmptyString)
            || negb (has (extension t) ["I"; "M"; "C"])
            || (word_mask =? 0)
            || negb (fixed_mask t &&& Z.lnot word_mask =? 0)
            || negb (fixed_value t &&& Z.lnot (fixed_mask t) =? 0))
    (ValueError "invalid instruction template") ;;
  mret t.

(** [InstructionTemplate.repair] *)
Definition template_repair (t : InstructionTemplate) (raw : Z) : result Z :=
  raise_if (raw <? 0) (ValueError "raw instruction payload must be a nonnegative integer") ;;
  mret (((raw &&& Z.lnot (fixed_mask t)) ||| fixed_value t) &&& word_mask_of (width t)).

Record InstructionChoice := mkChoice {
  operation : string;
  choice_width : Z;
  word : Z;
  free_mask : Z;
  legal : bool }.

Definition _base_template (name extension : string) (opcode : Z) (funct3 funct7 : option Z)
    (extra_mask extra_value : Z) : InstructionTemplate :=
  let fixed_mask := _OPCODE_MASK ||| extra_mask in
  let fixed_value := opcode ||| extra_value in
  let '(fixed_mask, fixed_value) :=
    match funct3 with
    | Some f => (fixed_mask ||| _FUNCT3_MASK, fixed_value ||| (f ≪ 12))
    | None => (fixed_mask, fixed_value)
    end in
  let '(fixed_mask, fixed_value) :=
    match funct7 with
    | Some f => (fixed_mask ||| _FUNCT7_MASK, fixed_value ||| (f ≪ 25))
    | None => (fixed_mask, fixed_value)
    end in
  mkTemplate name 32 extension fixed_mask fixed_value.

Definition _compressed_template (name : string) (quadrant funct3 extra_mask extra_value : Z)
    : InstructionTemplate :=
  mkTemplate name 16 "C" (_C_FORMAT_MASK ||| extra_mask) ((funct3 ≪ 13) ||| quadrant ||| extra_value).

Definition form3 (ext : string) (opcode : Z) (row : string * Z) : InstructionTemplate :=
  _base_template row.1 ext opcode (Some row.2) None 0 0.
Definition form37 (ext : string) (opcode : Z) (row : string * Z * Z) : InstructionTemplate :=
  _base_template row.1.1 ext opcode (Some row.1.2) (Some row.2) 0 0.

Definition _i_templates (c : IsaContract) : list InstructionTemplate :=
  let rv64 := xlen c =? 64 in
  let shift_mask := if xlen c =? 32 then _FUNCT7_MASK else 0x3F ≪ 26 in
  map (form3 "I" 0x13)
    [("ADDI", 0); ("SLTI", 2); ("SLTIU", 3); ("XORI", 4); ("ORI", 6); ("ANDI", 7)] ++
  [_base_template "SLLI" "I" 0x13 (Some 1) None shift_mask 0;
   _base_template "SRLI" "I" 0x13 (Some 5) None shift_mask 0;
   _base_template "SRAI" "I" 0x13 (Some 5) None shift_mask (0x20 ≪ 25)] ++
  map (form37 "I" 0x33)
    [("ADD", 0, 0); ("SLL", 1, 0); ("SLT", 2, 0); ("SLTU", 3, 0); ("XOR", 4, 0);
     ("SRL", 5, 0); ("OR", 6, 0); ("AND", 7, 0); ("SUB", 0, 0x20); ("SRA", 5, 0x20)] ++
  map (form3 "I" 0x03)
    ([("LB", 0); ("LH", 1); ("LW", 2); ("LBU", 4); ("LHU", 5)]
     ++ (if rv64 then [("LD", 3); ("LWU", 6)] else [])) ++
  map (form3 "I" 0x23)
    ([("SB", 0); ("SH", 1); ("SW", 2)] ++ (if rv64 then [("SD", 3)] else [])) ++
  map (form3 "I" 0x63)
    [("BEQ", 0); ("BNE", 1); ("BLT", 4); ("BGE", 5); ("BLTU", 6); ("BGEU", 7)] ++
  [_base_template "AUIPC" "I" 0x17 None None 0 0;
   _base_template "LUI" "I" 0x37 None None 0 0;
   _base_template "JAL" "I" 0x6F None None 0 0;
   _base_template "JALR" "I" 0x67 (Some 0) None 0 0;
   _base_template "FENCE" "I" 0x0F (Some 0) None ((0xF ≪ 28) ||| _RS1_MASK ||| _RD_MASK) 0] ++
  map (λ row : string * Z, mkTemplate row.1 32 "I" 0xFFFFFFFF row.2)
    ([("ECALL", 0x00000073); ("EBREAK", 0x00100073); ("WFI", 0x10500073)]
     ++ (if has "M" (privilege_modes c) then [("MRET", 0x30200073)] else [])
     ++ (if has "S" (privilege_modes c) then [("SRET", 0x10200073)] else [])) ++
  (if rv64 then
     [_base_template "ADDIW" "I" 0x1B (Some 0) None 0 0;
      _base_template "SLLIW" "I" 0x1B (Some 1) (Some 0) 0 0;
      _base_template "SRLIW" "I" 0x1B (Some 5) (Some 0) 0 0;
      _base_template "SRAIW" "I" 0x1B (Some 5) (Some 0x20) 0 0] ++
     map (form37 "I" 0x3B)
       [("ADDW", 0, 0); ("SLLW", 1, 0); ("SRLW", 5, 0); ("SUBW", 0, 0x20); ("SRAW", 5, 0x20)]
   else []).

Definition _m_templates (c : IsaContract) : list InstructionTemplate :=
  map (λ row : string * Z, form37 "M" 0x33 (row, 1))
    [("MUL", 0); ("MULH", 1); ("MULHSU", 2); ("MULHU", 3);
     ("DIV", 4); ("DIVU", 5); ("REM", 6); ("REMU", 7)] ++
  (if xlen c =? 64 then
     map (λ row : string * Z, form37 "M" 0x3B (row, 1))
       [("MULW", 0); ("DIVW", 4); ("DIVUW", 5); ("REMW", 6); ("REMUW", 7)]
   else []).

Definition c_alu_mask : Z := (1 ≪ 12) ||| (0x3 ≪ 10) ||| (0x3 ≪ 5).

(** The list literal of [_c_templates], in the two parts around the index 4 at
    which the RV32 form inserts [C.JAL]. *)
Definition c_head : list InstructionTemplate :=
  [_compressed_template "C.ADDI4SPN" 0 0 0 0;
   _compressed_template "C.LW" 0 2 0 0;
   _compressed_template "C.SW" 0 6 0 0;
   _compressed_template "C.ADDI" 1 0 0 0].

Definition c_tail : list InstructionTemplate :=
  [_compressed_template "C.LI" 1 2 0 0;
   _compressed_template "C.ADDI16SP" 1 3 _C_RD_MASK (2 ≪ 7);
   _compressed_template "C.LUI" 1 3 0 0;
   _compressed_template "C.SRLI" 1 4 (0x3 ≪ 10) 0;
   _compressed_template "C.SRAI" 1 4 (0x3 ≪ 10) (1 ≪ 10);
   _compressed_template "C.ANDI" 1 4 (0x3 ≪ 10) (2 ≪ 10);
   _compressed_template "C.SUB" 1 4 c_alu_mask (3 ≪ 10);
   _compressed_template "C.XOR" 1 4 c_alu_mask ((3 ≪ 10) ||| (1 ≪ 5));
   _compressed_template "C.OR" 1 4 c_alu_mask ((3 ≪ 10) ||| (2 ≪ 5));
   _compressed_template "C.AND" 1 4 c_alu_mask ((3 ≪ 10) ||| (3 ≪ 5));
   _compressed_template "C.J" 1 5 0 0;
   _compressed_template "C.BEQZ" 1 6 0 0;
   _compressed_template "C.BNEZ" 1 7 0 0;
   _compressed_template "C.SLLI" 2 0 0 0;
   _compressed_template "C.LWSP" 2 2 0 0;
   _compressed_template "C.JR" 2 4 ((1 ≪ 12) ||| _C_RS2_MASK) 0;
   _compressed_template "C.MV" 2 4 (1 ≪ 12) 0;
   mkTemplate "C.EBREAK" 16 "C" 0xFFFF 0x9002;
   _compressed_template "C.JALR" 2 4 ((1 ≪ 12) ||| _C_RS2_MASK) (1 ≪ 12);
   _compressed_template "C.ADD" 2 4 (1 ≪ 12) (1 ≪ 12);
   _compressed_template "C.SWSP" 2 6 0 0].

Definition reserve_shamt5 (t : InstructionTemplate) : InstructionTemplate :=
  if has (name t) ["C.SRLI"; "C.SRAI"; "C.SLLI"]
  then mkTemplate (name t) 16 "C" (fixed_mask t ||| (1 ≪ 12)) (fixed_value t)
  else t.

Definition _c_templates (c : IsaContract) : list InstructionTemplate :=
  if xlen c =? 32 then
    map reserve_shamt5 (c_head ++ [_compressed_template "C.JAL" 1 1 0 0] ++ c_tail)
  else
    c_head ++ c_tail ++
    [_compressed_template "C.LD" 0 3 0 0;
     _compressed_template "C.SD" 0 7 0 0;
     _compressed_template "C.ADDIW" 1 1 0 0;
     _compressed_template "C.SUBW" 1 4 c_alu_mask ((1 ≪ 12) ||| (3 ≪ 10));
     _compressed_template "C.ADDW" 1 4 c_alu_mask ((1 ≪ 12) ||| (3 ≪ 10) ||| (1 ≪ 5));
     _compressed_template "C.LDSP" 2 3 0 0;
     _compressed_template "C.SDSP" 2 7 0 0].

(** [RiscvInstructionTransducer.__init__] *)
Definition selector_width : Z := 8.

Definition transducer_templates (c : IsaContract) : list InstructionTemplate :=
  _i_templates c
  ++ (if has "M" (extensions c) then _m_templates c else [])
  ++ (if has "C" (extensions c) && (instruction_alignment c =? 2) then _c_templates c else []).

Definition new_transducer (c : IsaContract) : result (list InstructionTemplate) :=
  raise_if (negb (supports_legal_instruction_validation c))
    (ValueError "instruction transducer requires an implemented ISA contract") ;;
  mret (transducer_templates c).

(** [select_balanced]: a choice index with preimages of nearly equal size.  Its
    [ConstraintIrError] is a subclass of [ValueError] and written as one. *)
Definition balanced_index (raw raw_width count : Z) : Z :=
  Z.min (count - 1) ((raw * count) `div` 2 ^ raw_width).

Definition select_balanced {A} (raw raw_width : Z) (choices : list A) : result A :=
  raise_if ((raw_width <=? 0) || (raw <? 0) || negb (raw <? 2 ^ raw_width)
            || bool_decide (length choices = 0%nat)) (ValueError "invalid selection") ;;
  match choices !! Z.to_nat (balanced_index raw raw_width (Z.of_nat (length choices))) with
  | Some c => Ok c
  | None => Err (IndexError "list index out of range")
  end.

(** The closure [ensure_nonzero]: word and repaired bits. *)
Definition ensure_nonzero (mask : Z) (wr : Z * Z) : Z * Z :=
  if wr.1 &&& mask =? 0 then
    let bit := mask &&& (- mask) in (wr.1 ||| bit, wr.2 ||| bit)
  else wr.

Definition set_bit7 (wr : Z * Z) : Z * Z := (wr.1 ||| (1 ≪ 7), wr.2 ||| (1 ≪ 7)).

(** The operand fix-ups by operation name. *)
Definition repair_operands (name : string) (w : Z) : Z * Z :=
  let wr := (w, 0) in
  if bool_decide (name = "C.ADDI4SPN") then ensure_nonzero _C_ADDI4SPN_IMMEDIATE_MASK wr
  else if bool_decide (name = "C.ADDI") then
    if (w &&& _C_RD_MASK =? 0) && negb (w &&& _C_IMMEDIATE_MASK =? 0) then set_bit7 wr else wr
  else if has name ["C.LI"; "C.ADDIW"; "C.LWSP"; "C.LDSP"; "C.JR"; "C.JALR"] then
    ensure_nonzero _C_RD_MASK wr
  else if bool_decide (name = "C.ADDI16SP") then ensure_nonzero _C_IMMEDIATE_MASK wr
  else if bool_decide (name = "C.LUI") then
    let rd := w &&& _C_RD_MASK in
    let wr := if in_list rd [0; 2 ≪ 7] then set_bit7 wr else wr in
    ensure_nonzero _C_IMMEDIATE_MASK wr
  else if has name ["C.SRLI"; "C.SRAI"; "C.SLLI"] then
    let wr := if bool_decide (name = "C.SLLI") then ensure_nonzero _C_RD_MASK wr else wr in
    ensure_nonzero _C_IMMEDIATE_MASK wr
  else if has name ["C.MV"; "C.ADD"] then
    ensure_nonzero _C_RS2_MASK (ensure_nonzero _C_RD_MASK wr)
  else wr.

Section transducer.
Variable contract : IsaContract.

Definition _repair_template (t : InstructionTemplate) (raw_payload : Z)
    : result InstructionChoice :=
  word0 ← template_repair t raw_payload;
  let '(word, repaired_mask) := repair_operands (name t) word0 in
  let free_mask := word_mask_of (width t) &&& Z.lnot (fixed_mask t ||| repaired_mask) in
  raise_if (negb (is_legal_word contract word (width t =? 16)))
    (AssertionError ("instruction template produced an illegal word: " +:+ name t)) ;;
  mret (mkChoice (name t) (width t) word free_mask true).

Definition _illegal_choice (raw_payload width : Z) : result InstructionChoice :=
  raise_if (raw_payload <? 0)
    (ValueError "raw instruction payload must be a nonnegative integer") ;;
  let word_mask := word_mask_of width in
  if width =? 16 then
    let free_mask := 0x7 ≪ 2 in
    let word := raw_payload &&& free_mask in
    mret (mkChoice "ILLEGAL" 16 word free_mask (is_legal_word contract word true))
  else
    let repaired_mask := _OPCODE_MASK in
    let word := ((raw_payload &&& word_mask) &&& Z.lnot repaired_mask) ||| 0x4B in
    let free_mask := word_mask &&& Z.lnot repaired_mask in
    mret (mkChoice "ILLEGAL" 32 word free_mask (is_legal_word contract word false)).

Definition repair (raw_selector raw_payload : Z) (illegal : bool) (w : Z)
    : result InstructionChoice :=
  raise_if ((raw_selector <? 0) || negb (raw_selector <? 2 ^ selector_width))
    (ValueError "raw instruction selector must fit eight bits") ;;
  raise_if (negb (in_list w [16; 32])) (ValueError "instruction width must be 16 or 32") ;;
  let choices := filter (λ t, width t = w) (transducer_templates contract) in
  raise_if (bool_decide (length choices = 0%nat))
    (ValueError "no operations available for instruction width") ;;
  let choices := (Some <$> choices) ++ (if illegal then [None] else []) in
  template ← select_balanced raw_selector selector_width choices;
  match template with
  | None => _illegal_choice raw_payload w
  | Some t => _repair_template t raw_payload
  end.

Definition repair_payload (raw_payload w : Z) (illegal : bool) : result InstructionChoice :=
  raise_if (raw_payload <? 0)
    (ValueError "raw instruction payload must be a nonnegative integer") ;;
  raise_if (negb (in_list w [16; 32])) (ValueError "instruction width must be 16 or 32") ;;
  let selector := (raw_payload ≫ Z.max 0 (w - selector_width)) &&& ((1 ≪ selector_width) - 1) in
  repair selector raw_payload illegal w.

(** [_by_name]: of several templates with one name the last is kept. *)
Definition _by_name (n : string) : option InstructionTemplate :=
  head (filter (λ t, name t = n) (reverse (transducer_templates contract))).

Definition repair_for_operation (op : string) (raw_payload : Z) : result InstructionChoice :=
  match _by_name op with
  | None => Err (ValueError ("unavailable operation: " +:+ op))
  | Some t => _repair_template t raw_payload
  end.
End transducer.

(** ** Repaired words are legal

    [repair_template_legal] is proved template by template: a repaired word
    has known bits under the template's mask, so its fixed fields are known,
    and [ensure_nonzero] leaves the remaining fields nonzero. *)

Lemma repaired_bits t raw n :
  0 ≤ n →
  Z.testbit (((raw &&& Z.lnot (fixed_mask t)) ||| fixed_value t) &&& word_mask_of (width t)) n =
  (Z.testbit raw n && negb (Z.testbit (fixed_mask t) n) || Z.testbit (fixed_value t) n)
  && Z.testbit (word_mask_of (width t)) n.
Proof. intros Hn. by rewrite Z.land_spec, Z.lor_spec, Z.land_spec, Z.lnot_spec. Qed.

Definition template_wf (t : InstructionTemplate) : Prop :=
  (width t = 16 ∨ width t = 32) ∧
  fixed_mask t &&& word_mask_of (width t) = fixed_mask t ∧
  fixed_value t &&& fixed_mask t = fixed_value t.

Lemma land_eq_testbit a m n : a &&& m = a → Z.testbit a n = true → Z.testbit m n = true.
Proof. intros <-. rewrite Z.land_spec. by intros [_ ?]%andb_true_iff. Qed.

(** The bits a template fixes. *)
Lemma repaired_fixed t raw w :
  template_wf t → template_repair t raw = Ok w → w &&& fixed_mask t = fixed_value t.
Proof.
  intros (_ & Hm & Hv) Hw. unfold template_repair in Hw. inv_Ok.
  apply Z.bits_inj'. intros n Hn. rewrite Z.land_spec, repaired_bits by done.
  pose proof (land_eq_testbit _ _ n Hm) as Hm'. pose proof (land_eq_testbit _ _ n Hv) as Hv'.
  destruct (Z.testbit (fixed_mask t) n), (Z.testbit (fixed_value t) n),
    (Z.testbit (word_mask_of (width t)) n), (Z.testbit raw n); cbn; try done; naive_solver.
Qed.

Lemma repaired_range t raw w :
  template_wf t → template_repair t raw = Ok w → 0 ≤ w < 2 ^ width t.
Proof.
  intros (Hw & _) Hr. unfold template_repair in Hr. inv_Ok.
  unfold word_mask_of. rewrite Z.shiftl_1_l, Z.sub_1_r, <- Z.ones_equiv.
  rewrite Z.land_ones by lia. apply Z.mod_pos_bound. destruct Hw as [-> | ->]; done.
Qed.

(** *** What is known of a word while operands are fixed up *)

Definition known (w M V : Z) : Prop := 0 ≤ w < 2 ^ 32 ∧ w &&& M = V.

Lemma known_join w M V N U : known w M V → w &&& N = U → known w (M ||| N) (V ||| U).
Proof. intros [Hr <-] <-. split; [done|]. apply Z.land_lor_distr_r. Qed.

Lemma lor_range a b n : 0 ≤ n → 0 ≤ a < 2 ^ n → 0 ≤ b < 2 ^ n → 0 ≤ a ||| b < 2 ^ n.
Proof.
  intros Hn Ha Hb. assert (Hab : a ||| b = (a ||| b) `mod` 2 ^ n).
  { rewrite <- Z.land_ones, Z.land_lor_distr_l, !Z.land_ones by done.
    by rewrite (Z.mod_small a), (Z.mod_small b). }
  rewrite Hab. apply Z.mod_pos_bound. by apply Z.pow_pos_nonneg.
Qed.

Lemma known_set w M V b : known w M V → 0 ≤ b < 2 ^ 32 → known (w ||| b) (M ||| b) (V ||| b).
Proof.
  intros [Hr <-] Hb. split; [by apply lor_range|].
  apply Z.bits_inj'. intros n Hn. rewrite !Z.land_spec, !Z.lor_spec, Z.land_spec.
  by destruct (Z.testbit w n), (Z.testbit b n), (Z.testbit M n).
Qed.

Lemma set_nonzero w b m : w &&& m ≠ 0 → (w ||| b) &&& m ≠ 0.
Proof.
  rewrite Z.land_lor_distr_l. intros Hw [Hz _]%Z.lor_eq_0_iff. done.
Qed.

Lemma ensure_cases mask w r :
  w &&& mask ≠ 0 ∧ ensure_nonzero mask (w, r) = (w, r) ∨
  w &&& mask = 0 ∧
  ensure_nonzero mask (w, r) = (w ||| (mask &&& - mask), r ||| (mask &&& - mask)).
Proof.
  unfold ensure_nonzero; cbn [fst snd]. destruct (w &&& mask =? 0) eqn:Hw; [right|left];
    (split; [lia|done]).
Qed.

(** *** The composite fields of the compressed encodings *)

Lemma imm_split v :
  (((v ≫ 2) &&& 0x1F) ||| (((v ≫ 12) &&& 1) ≪ 5) = 0) ↔ v &&& _C_IMMEDIATE_MASK = 0.
Proof.
  unfold _C_IMMEDIATE_MASK. rewrite Z.land_lor_distr_r, !Z.lor_eq_0_iff.
  assert (Hf : ∀ k m, 0 ≤ k → (v ≫ k) &&& m = 0 ↔ v &&& (m ≪ k) = 0).
  { intros k m Hk. rewrite field_shift by done. split; [|intros ->; apply Z.shiftr_0_l].
    intros Hz. destruct (decide (v &&& (m ≪ k) = 0)) as [|Hn]; [done|].
    apply field_nonzero in Hn; [|done]. by rewrite field_shift in Hn. }
  rewrite Z.shiftl_eq_0_iff, !Hf by lia. tauto.
Qed.

Lemma sp_imm v :
  (v &&& (1 ≪ 12)) ||| (v &&& (1 ≪ 6)) ||| (v &&& (1 ≪ 5)) ||| (v &&& (0x3 ≪ 3))
  ||| (v &&& (1 ≪ 2)) = v &&& _C_IMMEDIATE_MASK.
Proof. by rewrite <- !Z.land_lor_distr_r. Qed.

Lemma addi4spn_imm v :
  (v &&& (0xF ≪ 7)) ||| (v &&& (0x3 ≪ 11)) ||| (v &&& (1 ≪ 5)) ||| (v &&& (1 ≪ 6))
  = v &&& _C_ADDI4SPN_IMMEDIATE_MASK.
Proof. by rewrite <- !Z.land_lor_distr_r. Qed.

(** The shift amount's top bit is bit 12. *)
Lemma shamt5 v :
  (((v ≫ 2) &&& 0x1F) ||| (((v ≫ 12) &&& 1) ≪ 5)) &&& 0x20 = ((v ≫ 12) &&& 1) ≪ 5.
Proof.
  apply Z.bits_inj'. intros n Hn. rewrite Z.land_spec, Z.lor_spec, Z.land_spec.
  change 0x20 with (1 ≪ 5). change 0x1F with (Z.ones 5).
  rewrite !Z.shiftl_spec, Z.land_spec by lia. change 1 with (Z.ones 1).
  rewrite !Z.testbit_ones by lia.
  destruct (decide (n = 5)) as [->|]; [cbn; by rewrite andb_false_r, andb_true_r|].
  replace (0 <=? n - 5) with (5 <=? n) by lia.
  destruct (5 <=? n) eqn:?; cbn; rewrite ?andb_false_r; [|done].
  replace (n - 5 <? 1) with false by lia. by rewrite !andb_false_r.
Qed.

Lemma known_top w M V k n :
  known w M V → 0 ≤ k → 0 ≤ n → k + n = 32 → (Z.ones n ≪ k) &&& M = Z.ones n ≪ k →
  w ≫ k = (V ≫ k) &&& Z.ones n.
Proof.
  intros [Hr Hw] Hk Hn Hkn Hm. rewrite (top_field w k n); [|by rewrite Hkn|done..].
  by apply (known_field w M).
Qed.

(** Rewrites every field of [w] that is known. *)
Ltac known_fields Hk :=
  repeat match type of Hk with
  | known ?w ?M ?V =>
    match goal with
    | |- context [(w ≫ ?k) &&& ?m] =>
        rewrite (known_field w M V k m (proj2 Hk)) by (vm_compute; congruence)
    | |- context [w &&& ?m] =>
        rewrite (known_mask w M V m (proj2 Hk)) by (vm_compute; congruence)
    | |- context [w ≫ ?k] =>
        rewrite (known_top w M V k (32 - k) Hk) by (vm_compute; congruence)
    end
  end.

