(* ===== verification/TransducerBase.v ===== *)
(** * Every repaired 32-bit word is legal

    The provider of [Isa] accepts every word that a template of the I and M
    lists of [Transducer] yields, whatever the raw payload. *)

From S2P Require Import Prelude Isa Transducer.

Local Open Scope Z_scope.

Section legality.
Variable c : IsaContract.
Hypothesis supported : supports_legal_instruction_validation c = true.

Definition repairs_legal (t : InstructionTemplate) : Prop :=
  template_wf t ∧
  ∀ raw w, template_repair t raw = Ok w →
    is_legal_word c (repair_operands (name t) w).1 (width t =? 16) = true.

Lemma base_word_legal w M V :
  known w M V → V &&& 3 = 3 → 3 &&& M = 3 → is_legal_word c w false = _base_legal c w.
Proof.
  intros [Hr Hk] H3 HM. unfold is_legal_word. rewrite supported.
  rewrite (known_mask w M V 3 Hk HM), H3.
  replace (w <? 0) with false by lia. by replace (0xFFFFFFFF <? w) with false by lia.
Qed.

Lemma base_repairs t :
  template_wf t → (width t =? 32) = true → (∀ w, (repair_operands (name t) w).1 = w) →
  fixed_value t &&& 3 = 3 → 3 &&& fixed_mask t = 3 →
  (∀ w, known w (fixed_mask t) (fixed_value t) → _base_legal c w = true) → repairs_legal t.
Proof.
  intros Hwf Hwd Hid H3 HM Hl. split; [done|]. intros raw w Hw. rewrite Hid.
  replace (width t =? 16) with false by lia.
  assert (known w (fixed_mask t) (fixed_value t)) as Hk.
  { split; [|by eapply repaired_fixed].
    apply repaired_range in Hw; [|done]. by replace (width t) with 32 in Hw by lia. }
  rewrite (base_word_legal _ _ _ Hk); auto.
Qed.

(** A 32-bit template: every field the provider looks at is fixed. *)
Ltac base_case :=
  match goal with |- repairs_legal ?t0 =>
    let t := eval vm_compute in t0 in change t0 with t end;
  apply base_repairs;
    [split; [by (left + right)|by vm_compute]|reflexivity|by vm_compute|reflexivity|reflexivity|];
  cbn [fixed_mask fixed_value]; let w := fresh "w" in let Hk := fresh "Hk" in intros w Hk;
  unfold _base_legal; known_fields Hk.

Hypothesis width_ok : xlen c = 32 ∨ xlen c = 64.

(** Splits a list of templates known by computation and proves each. *)
Ltac base_cases :=
  cbn [map app Z.eqb Pos.eqb fst snd];
  repeat (apply Forall_cons_2;
    [base_case; repeat match goal with H : _ = _ :> Z |- _ => rewrite H
                | H : _ = true |- _ => rewrite H end; vm_compute; reflexivity|]);
  apply Forall_nil_2.

Lemma i_legal : Forall repairs_legal (_i_templates c).
Proof.
  unfold _i_templates. rewrite map_app, map_app, map_app, map_app.
  repeat (apply Forall_app; split).
  all: try match goal with |- context [has ?x (privilege_modes c)] =>
    destruct (has x (privilege_modes c)) eqn:? end.
  all: destruct width_ok as [Hx|Hx]; rewrite ?Hx.
  all: base_cases.
Qed.
Lemma m_legal : has "M" (extensions c) = true → Forall repairs_legal (_m_templates c).
Proof.
  intros HM. unfold _m_templates. destruct width_ok as [Hx|Hx]; rewrite Hx;
  base_cases.
Qed.
End legality.
