(* ===== verification/TransducerCompressed.v ===== *)
(** * Every repaired 16-bit word is legal

    The same for the C list, where operand fix-ups keep reserved
    encodings out. *)

From S2P Require Import Prelude Isa Transducer TransducerBase.

Local Open Scope Z_scope.

Section compressed.
Variable c : IsaContract.
Hypothesis supported : supports_legal_instruction_validation c = true.
Hypothesis width_ok : xlen c = 32 ∨ xlen c = 64.
#[local] Abbreviation repairs_legal := (repairs_legal c).
Section c_list.
Hypothesis compressed_ok :
  has "C" (extensions c) && (instruction_alignment c =? 2) = true.

Lemma compressed_word_legal w M V :
  known w M V → 0xFFFF0000 &&& M = 0xFFFF0000 → V ≫ 16 = 0 →
  is_legal_word c w true = _compressed_legal c w.
Proof.
  intros [Hr Hk] HM HV. unfold is_legal_word. rewrite supported.
  by replace (w <? 0) with false by lia.
Qed.

Lemma compressed_small w M V :
  known w M V → 0xFFFF0000 &&& M = 0xFFFF0000 → V ≫ 16 = 0 → (0xFFFF <? w) = false.
Proof.
  intros Hk HM HV. pose proof (known_top w M V 16 16 Hk) as Ht.
  rewrite HV in Ht. specialize (Ht ltac:(lia) ltac:(lia) eq_refl HM).
  rewrite Z.shiftr_div_pow2 in Ht by lia. destruct Hk as [Hr _].
  apply Z.ltb_ge. change (2 ^ 16) with 65536 in Ht. cbn in Ht.
  assert (w < 65536); [|lia]. apply Z.div_small_iff in Ht; lia.
Qed.

Lemma compressed_repairs t :
  template_wf t → (width t =? 16) = true →
  (∀ w, known w (fixed_mask t ||| 0xFFFF0000) (fixed_value t) →
    is_legal_word c (repair_operands (name t) w).1 true = true) → repairs_legal t.
Proof.
  intros Hwf Hwd Hl. split; [done|]. intros raw w Hw. rewrite Hwd. apply Hl.
  pose proof (repaired_range _ _ _ Hwf Hw) as Hr. apply Z.eqb_eq in Hwd. rewrite Hwd in Hr.
  rewrite <- (Z.lor_0_r (fixed_value t)). apply known_join.
  - split; [lia|by eapply repaired_fixed].
  - apply Z.bits_inj'. intros n Hn. rewrite Z.land_spec, Z.bits_0.
    destruct (decide (n < 16)).
    + change 0xFFFF0000 with (0xFFFF ≪ 16). rewrite Z.shiftl_spec_low by done. apply andb_false_r.
    + rewrite (Z.bits_above_log2 w); [done|lia|].
      destruct (decide (w = 0)) as [->|]; [cbn; lia|]. apply Z.log2_lt_pow2; [lia|].
      apply Z.lt_le_trans with (2 ^ 16); [lia|]. apply Z.pow_le_mono_r; lia.
Qed.

(** The rules for the fix-ups: what is known before and after. *)
Lemma ensure_rule (P : Z * Z → Prop) w M V m r :
  known w M V → 0 ≤ m &&& - m < 2 ^ 32 → (m &&& - m) &&& m = m &&& - m →
  ((w &&& m =? 0) = false → P (w, r)) →
  (∀ w' r', known w' (M ||| m) (V ||| (m &&& - m)) →
    (∀ m', (w &&& m' =? 0) = false → (w' &&& m' =? 0) = false) →
    (∀ m', (m &&& - m) &&& m' = 0 → w' &&& m' = w &&& m') → P (w', r')) →
  P (ensure_nonzero m (w, r)).
Proof.
  intros Hk Hb Hsub Hnz Hz. destruct (ensure_cases m w r) as [[H0 ->]|[H0 ->]].
  - apply Hnz. lia.
  - apply Hz.
    + apply (known_join _ _ _ m 0) in Hk; [|done]. rewrite Z.lor_0_r in Hk.
      apply (known_set _ _ _ (m &&& - m)) in Hk; [|done].
      replace (M ||| m) with (M ||| m ||| (m &&& - m)); [done|].
      rewrite <- Z.lor_assoc. f_equal. apply Z.bits_inj'. intros n Hn.
      apply (f_equal (λ z, Z.testbit z n)) in Hsub. revert Hsub.
      rewrite Z.land_spec, Z.lor_spec. by destruct (Z.testbit m n), (Z.testbit (m &&& - m) n).
    + intros m' Hm'. by apply Z.eqb_neq, set_nonzero, Z.eqb_neq.
    + intros m' Hm'. by rewrite Z.land_lor_distr_l, Hm', Z.lor_0_r.
Qed.

Lemma set_bit7_rule (P : Z * Z → Prop) w M V r :
  known w M V →
  (∀ w' r', known w' (M ||| 128) (V ||| 128) →
    (∀ m', (w &&& m' =? 0) = false → (w' &&& m' =? 0) = false) → P (w', r')) →
  P (set_bit7 (w, r)).
Proof.
  intros Hk HP. apply HP.
  - by apply known_set.
  - intros m' Hm'. by apply Z.eqb_neq, set_nonzero, Z.eqb_neq.
Qed.

Lemma rd_eqb v : ((v ≫ 7) &&& 0x1F =? 0) = (v &&& 3968 =? 0).
Proof.
  apply eq_true_iff_eq. rewrite !Z.eqb_eq. change 3968 with (0x1F ≪ 7).
  split; [|intros Hz; by rewrite field_shift, Hz by done].
  intros Hz. destruct (decide (v &&& (0x1F ≪ 7) = 0)) as [|Hn]; [done|].
  by apply field_nonzero in Hn.
Qed.

Lemma imm_eqb v :
  (((v ≫ 2) &&& 0x1F) ||| (((v ≫ 12) &&& 1) ≪ 5) =? 0) = (v &&& 4220 =? 0).
Proof. apply eq_true_iff_eq. rewrite !Z.eqb_eq. apply imm_split. Qed.

Lemma rd_not_0_2 v :
  in_list (v &&& 3968) [0; 256] = false →
  ((v ≫ 7) &&& 0x1F =? 2) = false ∧ in_list ((v ≫ 7) &&& 0x1F) [0; 2] = false.
Proof.
  unfold in_list. rewrite !bool_decide_eq_false. intros Hn.
  assert (Hr : ((v ≫ 7) &&& 0x1F) ≪ 7 = v &&& 3968).
  { change 3968 with (0x1F ≪ 7). apply Z.bits_inj'. intros n Hn'.
    rewrite Z.shiftl_spec, !Z.land_spec, Z.shiftl_spec by done.
    destruct (decide (n < 7)).
    - rewrite !(Z.testbit_neg_r _ (n - 7)) by lia. by rewrite !andb_false_r.
    - rewrite Z.shiftr_spec by lia. by replace (n - 7 + 7) with n by lia. }
  assert (¬ ((v ≫ 7) &&& 0x1F) ∈ [0; 2]).
  { intros [Hz|[Hz|[]%elem_of_nil]%elem_of_cons]%elem_of_cons; apply Hn; rewrite <- Hr, Hz;
      vm_compute; set_solver. }
  split; [|done]. apply Z.eqb_neq. set_solver.
Qed.
Ltac c_start :=
  match goal with |- repairs_legal ?t0 =>
    let t := eval vm_compute in t0 in change t0 with t end;
  apply compressed_repairs; [split; [by (left + right)|by vm_compute]|reflexivity|];
  cbn [fixed_mask fixed_value name];
  let w := fresh "w" in let Hk := fresh "Hk" in intros w Hk;
  lazy -[ensure_nonzero set_bit7 is_legal_word in_list Z.land Z.lor Z.shiftl Z.eqb negb].

(** One fix-up of [w]: the case where the field was nonzero and the case
    where its lowest bit was set. *)
Ltac c_fix :=
  match goal with
  | Hk : known ?w ?M ?V |- context [ensure_nonzero ?m (?w, ?r)] =>
      pattern (ensure_nonzero m (w, r)); apply (ensure_rule _ w M V m r Hk);
      [split; vm_compute; congruence|reflexivity|intros ?Hnz
      |clear Hk; let w' := fresh "w" in let Hsame := fresh "Hsame" in
       intros w' ? Hk ?Hmono Hsame;
       try (match goal with H : in_list (w &&& ?f) _ = false |- _ =>
              rewrite <- (Hsame f) in H by reflexivity end);
       clear Hsame]
  | Hk : known ?w ?M ?V |- context [set_bit7 (?w, ?r)] =>
      pattern (set_bit7 (w, r)); apply (set_bit7_rule _ w M V r Hk);
      clear Hk; let w' := fresh "w" in intros w' ? Hk ?Hmono
  end; cbv beta;
  repeat match goal with
    | Hm : (∀ m', (?w &&& m' =? 0) = false → _), H : (?w &&& _ =? 0) = false |- _ => apply Hm in H
    | Hm : (∀ m', (?w &&& m' =? 0) = false → _) |- _ => clear Hm
    end.

(** A condition on a field of [w], its value known where the test pins it. *)
Ltac c_test :=
  match goal with
  | Hk : known ?w _ _ |- context [if ?w &&& ?m =? 0 then _ else _] =>
      let Hz := fresh "Hz" in destruct (w &&& m =? 0) eqn:Hz; cbn [negb];
      try (pose proof (proj1 (Z.eqb_eq _ _) Hz) as Hz'; apply (known_join _ _ _ _ _ Hk) in Hz';
           clear Hk; rename Hz' into Hk)
  | Hk : known ?w _ _ |- context [negb (?w &&& ?m =? 0)] =>
      let Hz := fresh "Hz" in destruct (w &&& m =? 0) eqn:Hz; cbn [negb]
  | Hk : known ?w _ _ |- context [if in_list (?w &&& ?m) ?l then _ else _] =>
      let Hz := fresh "Hz" in destruct (in_list (w &&& m) l) eqn:Hz
  end.

Ltac c_finish :=
  match goal with Hk : known ?w ?M ?V |- _ =>
    cbn [fst];
    rewrite (compressed_word_legal w _ _ Hk) by reflexivity;
    unfold _compressed_legal; rewrite (compressed_small w _ _ Hk) by reflexivity;
    cbv zeta; rewrite ?sp_imm, ?addi4spn_imm, ?imm_eqb, ?rd_eqb, ?shamt5;
    change _C_IMMEDIATE_MASK with 4220; change _C_ADDI4SPN_IMMEDIATE_MASK with 8160;
    repeat match goal with
      | H : (w &&& ?m =? 0) = _ |- _ =>
          let m' := eval vm_compute in m in
          rewrite (H : (w &&& m' =? 0) = _); clear H end;
    known_fields Hk;
    repeat match goal with H : _ = _ :> Z |- _ => rewrite H
                | H : _ = true |- _ => rewrite H | H : _ = false |- _ => rewrite H end;
    vm_compute; reflexivity
  end.
Ltac c_case := c_start; repeat c_fix; c_finish.

Lemma contract_c : has "C" (extensions c) = true ∧ (instruction_alignment c =? 2) = true.
Proof. by apply andb_true_iff. Qed.

Lemma c_addi_legal : repairs_legal (_compressed_template "C.ADDI" 1 0 0 0).
Proof.
  destruct contract_c as [HC HA]. c_start. c_test; [c_test|].
  1: c_finish. 1: cbn [negb]; c_fix; c_finish. 1: c_finish.
Qed.

Lemma c_lui_legal : repairs_legal (_compressed_template "C.LUI" 1 3 0 0).
Proof.
  destruct contract_c as [HC HA]. c_start. c_test.
  - apply in_list_pair in Hz as [Hz|Hz]; apply (known_join _ _ _ _ _ Hk) in Hz; clear Hk;
      repeat c_fix; c_finish.
  - c_fix; apply rd_not_0_2 in Hz as [H2 H02]; c_finish.
Qed.

Lemma c_legal : Forall repairs_legal (_c_templates c).
Proof.
  destruct contract_c as [HC HA]. unfold _c_templates.
  destruct width_ok as [Hx|Hx]; rewrite Hx; cbn [Z.eqb Pos.eqb c_head c_tail app map];
  repeat (apply Forall_cons_2; [first [exact c_addi_legal | exact c_lui_legal | c_case]|]).
  all: apply Forall_nil_2.
Qed.
End c_list.

Lemma templates_legal : Forall repairs_legal (transducer_templates c).
Proof.
  unfold transducer_templates. apply Forall_app; split; [|apply Forall_app; split].
  - by apply i_legal.
  - destruct (has "M" (extensions c)) eqn:HM; [by apply m_legal|done].
  - destruct (_ && _) eqn:HC; [by apply c_legal|done].
Qed.
End compressed.

