(* ===== verification/TransducerSpec.v ===== *)
(** * What the instruction transducer promises

    A repair with a supported contract always yields a legal word that keeps
    every unconstrained payload bit; the reserved choice always yields an
    illegal word; the selector treats the operations evenly. *)

From S2P Require Import Prelude Isa Transducer TransducerBase TransducerCompressed.

Local Open Scope Z_scope.

(** ** Repair changes only constrained bits *)

(** Bits outside the repaired mask are those of the word before. *)
Definition only_repaired (w0 : Z) (wr : Z * Z) : Prop :=
  ∀ n, 0 ≤ n → Z.testbit wr.2 n = false → Z.testbit wr.1 n = Z.testbit w0 n.

Lemma only_repaired_set w0 wr b :
  only_repaired w0 wr → only_repaired w0 (wr.1 ||| b, wr.2 ||| b).
Proof.
  intros H n Hn. cbn. rewrite !Z.lor_spec. intros [Hr Hb]%orb_false_iff.
  by rewrite Hb, orb_false_r, H.
Qed.

Lemma only_repaired_ensure w0 wr m : only_repaired w0 wr → only_repaired w0 (ensure_nonzero m wr).
Proof. intros H. unfold ensure_nonzero. case_match; [by apply only_repaired_set|done]. Qed.

Lemma repair_operands_only n w : only_repaired w (repair_operands n w).
Proof.
  assert (H0 : only_repaired w (w, 0)) by done.
  unfold repair_operands, set_bit7.
  repeat case_match; repeat first [apply only_repaired_ensure | apply (only_repaired_set _ (w, 0)) | done].
Qed.

Lemma repair_free_bits t raw w :
  template_wf t → template_repair t raw = Ok w →
  let '(w', r) := repair_operands (name t) w in
  let free := word_mask_of (width t) &&& Z.lnot (fixed_mask t ||| r) in
  w' &&& free = raw &&& free.
Proof.
  intros (_ & _ & Hv) Hw. pose proof (repair_operands_only (name t) w) as Ho.
  destruct (repair_operands (name t) w) as [w' r]. cbn zeta.
  unfold template_repair in Hw. inv_Ok.
  apply Z.bits_inj'. intros n Hn. rewrite !Z.land_spec, Z.lnot_spec, Z.lor_spec by done.
  pose proof (land_eq_testbit _ _ n Hv) as Hv'. specialize (Ho n Hn). cbn in Ho.
  destruct (Z.testbit r n); [by rewrite orb_true_r; cbn; rewrite !andb_false_r|].
  rewrite Ho, repaired_bits by done.
  destruct (Z.testbit (fixed_mask t) n), (Z.testbit (word_mask_of (width t)) n),
    (Z.testbit (fixed_value t) n), (Z.testbit raw n); cbn; try done; by specialize (Hv' eq_refl).
Qed.

(** ** The balanced selector *)

Lemma balanced_index_range raw k n :
  0 < n → 0 ≤ raw < 2 ^ k → 0 < k → 0 ≤ (raw * n) `div` 2 ^ k < n.
Proof.
  intros Hn Hr Hk. split; [apply Z.div_pos; [lia|by apply Z.pow_pos_nonneg; lia]|].
  apply Z.div_lt_upper_bound; [by apply Z.pow_pos_nonneg; lia|nia].
Qed.

Lemma select_balanced_Ok {A} raw k (l : list A) :
  l ≠ [] → 0 < k → 0 ≤ raw < 2 ^ k → ∃ x, select_balanced raw k l = Ok x ∧ x ∈ l.
Proof.
  intros Hl Hk Hr. unfold select_balanced, balanced_index.
  destruct (length l) as [|m] eqn:Hlen; [by destruct l|].
  pose proof (balanced_index_range raw k (Z.of_nat (S m))) as Hi.
  rewrite Z.min_r by lia.
  replace (_ || _) with false.
  2: { symmetry. repeat (apply orb_false_iff; split); try lia. done. }
  cbn [raise_if mbind result_bind].
  destruct (lookup_lt_is_Some_2 l (Z.to_nat ((raw * Z.of_nat (S m)) `div` 2 ^ k))) as [x Hx]; [lia|].
  rewrite Hx. exists x. split; [done|]. by eapply list_elem_of_lookup_2.
Qed.

Lemma filter_seqZ_interval (P : Z → Prop) `{∀ x, Decision (P x)} lo hi m :
  0 ≤ lo → lo ≤ hi → hi ≤ m → (∀ x, 0 ≤ x < m → P x ↔ lo ≤ x < hi) →
  Z.of_nat (length (filter P (seqZ 0 m))) = hi - lo.
Proof.
  intros Hl Hlh Hh HP.
  replace m with (lo + ((hi - lo) + (m - hi))) by lia.
  rewrite !seqZ_app, !filter_app, !length_app by lia.
  rewrite (filter_none P (seqZ 0 lo)), (filter_none P (seqZ (0 + lo + (hi - lo)) _)).
  - rewrite filter_all; [rewrite length_seqZ; cbn; lia|].
    intros x Hx%elem_of_seqZ. apply HP; lia.
  - intros x Hx%elem_of_seqZ Hp%HP; lia.
  - intros x Hx%elem_of_seqZ Hp%HP; lia.
Qed.

Lemma div_interval a n x : 0 < n → (a ≤ x * n ↔ (a + n - 1) `div` n ≤ x).
Proof.
  intros Hn. split; intros H.
  - apply Z.lt_succ_r, Z.div_lt_upper_bound; [done|]. nia.
  - pose proof (Z.mul_succ_div_gt (a + n - 1) n Hn). nia.
Qed.

(** A contract the constructor accepts and the transducer admits. *)
Definition admitted (c : IsaContract) : Prop :=
  IsaContract_post_init c = Ok c ∧ new_transducer c = Ok (transducer_templates c).

Lemma admitted_inv c :
  admitted c → supports_legal_instruction_validation c = true ∧ (xlen c = 32 ∨ xlen c = 64).
Proof.
  intros [Hp Hn]. unfold IsaContract_post_init, new_transducer in *. inv_Ok.
  eauto using in_list_pair.
Qed.

Lemma repair_template_spec c t raw :
  admitted c → t ∈ transducer_templates c → 0 ≤ raw →
  ∃ ch, _repair_template c t raw = Ok ch ∧ choice_width ch = width t ∧ operation ch = name t ∧
    legal ch = true ∧ is_legal_word c (word ch) (width t =? 16) = true ∧
    word ch &&& free_mask ch = raw &&& free_mask ch ∧ template_wf t.
Proof.
  intros [Hs Hx]%admitted_inv Ht Hraw.
  pose proof (templates_legal c Hs Hx) as Hl. rewrite Forall_forall in Hl.
  destruct (Hl t Ht) as [Hwf Hrep]. unfold _repair_template.
  destruct (template_repair t raw) as [w|e] eqn:Hw.
  2: { unfold template_repair in Hw. apply bind_Err in Hw as [Hw|(? & ? & [=])]; inv_Ok; lia. }
  specialize (Hrep raw w Hw). pose proof (repair_free_bits t raw w Hwf Hw) as Hfree.
  cbn [mbind result_bind]. destruct (repair_operands (name t) w) as [w' r]. cbn [fst] in Hrep.
  rewrite Hrep. cbn. eexists. split; [reflexivity|]. cbn. auto 10.
Qed.

Lemma illegal_choice_spec c raw w :
  in_list w [16; 32] = true → 0 ≤ raw →
  ∃ ch, _illegal_choice c raw w = Ok ch ∧ choice_width ch = w ∧ operation ch = "ILLEGAL" ∧
    legal ch = false ∧ is_legal_word c (word ch) (w =? 16) = false ∧
    word ch &&& free_mask ch = raw &&& free_mask ch.
Proof.
  intros Hw Hraw. unfold _illegal_choice. replace (raw <? 0) with false by lia.
  cbn [raise_if mbind result_bind].
  apply in_list_pair in Hw as [-> | ->]; cbn -[is_legal_word Z.land Z.lnot Z.lor];
    (eexists; split; [reflexivity|]; cbn [choice_width operation legal word free_mask]).
  - assert (Hl : is_legal_word c (raw &&& 28) true = false).
    { unfold is_legal_word. destruct (_ <? 0); [done|]. destruct (negb _); [done|].
      unfold _compressed_legal. destruct (_ || _); [done|].
      assert (Hk : (raw &&& 28) &&& 0xFFFFFFE3 = 0) by (rewrite <- Z.land_assoc; apply Z.land_0_r).
      rewrite addi4spn_imm, (known_mask _ _ _ _ Hk), (known_field _ _ _ 13 7 Hk),
        (known_mask _ _ _ _ Hk) by (vm_compute; congruence). done. }
    split_and!; try done. by rewrite <- Z.land_assoc.
  - set (W := (raw &&& word_mask_of 32) &&& Z.lnot _OPCODE_MASK ||| 75).
    assert (Hl : is_legal_word c W false = false).
    { unfold is_legal_word. destruct (_ <? 0); [done|]. destruct (negb _); [done|].
      destruct (_ || _); [done|]. unfold _base_legal.
      assert (Hk : W &&& 0x7F = 0x4B).
      { unfold W. rewrite Z.land_lor_distr_l, <- Z.land_assoc. cbn -[Z.land].
        change (Z.lnot 127 &&& 127) with 0. by rewrite Z.land_0_r. }
      by rewrite Hk. }
    split_and!; try done. unfold W. cbn [word_mask_of].
    rewrite Z.land_lor_distr_l. change (75 &&& _) with 0. rewrite Z.lor_0_r, <- !Z.land_assoc.
    f_equal.
Qed.

Lemma templates_nonempty c : filter (λ t, width t = 32) (transducer_templates c) ≠ [].
Proof. intros Hf. apply (filter_nil_not_elem_of _ _ (form3 "I" 0x13 ("ADDI", 0))) in Hf; [|done].
  apply Hf. left. Qed.

(** No operation of the tables has the name of the reserved choice. *)
Lemma templates_named c t : t ∈ transducer_templates c → name t ≠ "ILLEGAL".
Proof.
  assert (Hall : forallb (λ t, negb (String.eqb (name t) "ILLEGAL")) (transducer_templates c) = true).
  { unfold transducer_templates, _i_templates, _m_templates, _c_templates.
    destruct (xlen c =? 32), (xlen c =? 64), (has "M" (extensions c)), (has "C" (extensions c) && _),
      (has "M" (privilege_modes c)), (has "S" (privilege_modes c)); vm_compute; reflexivity. }
  intros Ht Hn. rewrite forallb_forall in Hall. specialize (Hall t (proj1 (list_elem_of_In _ _) Ht)). by rewrite Hn in Hall.
Qed.

(** C9.  Repair is total and exact.  For a contract that its constructor accepts
    and the transducer admits, a selector of eight bits, a nonnegative payload,
    and a width of 32, or of 16 where the contract has the compressed
    extension at two-byte alignment, [repair] returns a choice of that width
    (its [AssertionError] is unreachable).  The choice claims to be legal exactly
    when the provider accepts its word, and exactly when it is not the reserved
    [ILLEGAL] choice, which is made only if an illegal choice was asked for; so
    otherwise the word is legal.  On the free mask the word carries the payload's
    bits. *)
Theorem repair_total_and_legal c selector payload illegal w :
  admitted c → 0 ≤ selector < 256 → 0 ≤ payload →
  w = 32 ∨ w = 16 ∧ has "C" (extensions c) && (instruction_alignment c =? 2) = true →
  ∃ ch, repair c selector payload illegal w = Ok ch ∧ choice_width ch = w ∧
    legal ch = is_legal_word c (word ch) (w =? 16) ∧
    (legal ch = false ↔ operation ch = "ILLEGAL") ∧ (operation ch = "ILLEGAL" → illegal = true) ∧
    word ch &&& free_mask ch = payload &&& free_mask ch.
Proof.
  intros Hc Hsel Hp Hw. unfold repair, selector_width.
  replace (_ || _) with false by (symmetry; apply orb_false_iff; cbn; lia).
  assert (Hin : in_list w [16; 32] = true).
  { by destruct Hw as [->|[-> _]]. }
  assert (Hne : filter (λ t, width t = w) (transducer_templates c) ≠ []).
  { destruct Hw as [->|[-> HC]]; [apply templates_nonempty|].
    unfold transducer_templates. rewrite HC. intros Hf.
    apply (filter_nil_not_elem_of _ _ (_compressed_template "C.SWSP" 2 6 0 0)) in Hf; [|done].
    apply Hf. rewrite !elem_of_app. right. right. unfold _c_templates.
    destruct (xlen c =? 32); vm_compute; repeat (left || right). }
  rewrite Hin. cbn [negb raise_if mbind result_bind].
  set (choices := filter _ _) in *. rewrite bool_decide_false by (by destruct choices).
  cbn [raise_if mbind result_bind].
  destruct (select_balanced_Ok selector 8 ((Some <$> choices) ++ (if illegal then [None] else [])))
    as (x & Hx & Hxin); [by destruct choices|lia|done|]. rewrite Hx. cbn [mbind result_bind].
  apply elem_of_app in Hxin as [(t & -> & Ht)%list_elem_of_fmap|Hxin].
  - apply list_elem_of_filter in Ht as [<- Ht].
    destruct (repair_template_spec c t payload Hc Ht Hp) as (ch & -> & ? & ? & Hl & Hl' & ? & ?).
    exists ch. rewrite Hl, Hl'. pose proof (templates_named c t Ht) as Hn. split_and!; try done; [split; [done|]|]; congruence.
  - destruct illegal; [|by apply elem_of_nil in Hxin].
    apply list_elem_of_singleton in Hxin as ->.
    destruct (illegal_choice_spec c payload w Hin Hp) as (ch & -> & ? & ? & Hl & Hl' & ?).
    exists ch. rewrite Hl, Hl'. split_and!; done.
Qed.

(** Balance.  Over all raw selectors of a width, every one of [count]
    choices is selected by [2^w / count] or one more raw values, so no
    declared operation dominates (and each is reachable while there are at
    most [2^w]). *)
Lemma select_balanced_even raw_width count i :
  0 < raw_width → 0 ≤ i < count →
  let preimage := filter (λ raw, balanced_index raw raw_width count = i) (seqZ 0 (2 ^ raw_width)) in
  2 ^ raw_width `div` count ≤ Z.of_nat (length preimage) ≤ 2 ^ raw_width `div` count + 1.
Proof.
  intros Hk Hi preimage. set (m := 2 ^ raw_width).
  assert (Hm : 0 < m) by (apply Z.pow_pos_nonneg; lia).
  set (lo := (i * m + count - 1) `div` count). set (hi := ((i + 1) * m + count - 1) `div` count).
  pose proof (Z.div_mod m count ltac:(lia)) as Hdm. pose proof (Z.mod_pos_bound m count ltac:(lia)).
  assert (Hlo : ∀ x, i * m ≤ x * count ↔ lo ≤ x) by (intros; apply div_interval; lia).
  assert (Hhi : ∀ x, (i + 1) * m ≤ x * count ↔ hi ≤ x) by (intros; apply div_interval; lia).
  assert (0 ≤ lo) by (apply Z.div_pos; nia).
  assert (lo + m `div` count ≤ hi).
  { assert (¬ hi ≤ lo + m `div` count - 1); [|lia]. rewrite <- Hhi.
    assert (¬ lo ≤ lo - 1) as Hn by lia. rewrite <- Hlo in Hn. nia. }
  assert (hi ≤ lo + m `div` count + 1) by (apply Hhi; pose proof (proj2 (Hlo lo)); nia).
  assert (0 ≤ m `div` count) by (apply Z.div_pos; lia).
  unfold preimage. rewrite (filter_seqZ_interval _ lo hi); [lia|done|lia| |].
  - apply Hhi. nia.
  - intros x Hx. unfold balanced_index. fold m.
    pose proof (balanced_index_range x raw_width count) as Hb. fold m in Hb.
    rewrite Z.min_r by lia.
    assert ((x * count) `div` m = i ↔ i * m ≤ x * count < (i + 1) * m) as ->.
    { pose proof (Z.div_mod (x * count) m ltac:(lia)). pose proof (Z.mod_pos_bound (x * count) m Hm).
      split; [intros <-; nia|]. intros ?. symmetry. apply Z.div_unique with ((x * count) - m * i); nia. }
    pose proof (Hlo x). pose proof (Hhi x). lia.
Qed.

(** *** The hypotheses are satisfiable *)

Module Example_transducer.
Definition rv32imc : IsaContract := mkIsa 32 ["I"; "M"; "C"] ["M"] 2.

Lemma repair_total_and_legal_witness :
  ∃ ch, repair rv32imc 100 0x10000 true 16 = Ok ch ∧ choice_width ch = 16 ∧
    legal ch = is_legal_word rv32imc (word ch) true ∧
    (legal ch = false ↔ operation ch = "ILLEGAL") ∧ (operation ch = "ILLEGAL" → true = true) ∧
    word ch &&& free_mask ch = 0x10000 &&& free_mask ch.
Proof.
  apply (repair_total_and_legal rv32imc 100 0x10000 true 16).
  - split; reflexivity.
  - lia.
  - lia.
  - right. split; reflexivity.
Defined.

Lemma select_balanced_even_witness :
  2 ^ 3 `div` 3 ≤ Z.of_nat (length (filter (λ raw, balanced_index raw 3 3 = 1) (seqZ 0 (2 ^ 3))))
    ≤ 2 ^ 3 `div` 3 + 1.
Proof. apply (select_balanced_even 3 3 1); lia. Defined.
End Example_transducer.
