(* ===== verification/Genome.v ===== *)
(** * The source-action genome of one testcase

    Models [src/src/myfuzz/scenario/genome.py]: the frozen records with the
    checks of their constructors, and [ChunkAssembler], which reassembles one
    immutable genome from chunks.  [decode] is an argument of the assembler's
    [finish]; GenomeCodec.v models it and composes the two. *)

From S2P Require Import Prelude Json Isa.

Local Open Scope Z_scope.

Definition DIRECTIONS : list string :=
  ["CPU_TO_IP"; "IP_TO_CPU"; "IP_TO_IP"; "CPU_TO_IP_TO_CPU"; "IP_TO_CPU_TO_IP";
   "MULTI_COMPONENT_CHAIN"].

Definition empty (s : string) : bool := bool_decide (s = EmptyString).

Definition _natural (value : Z) (name : string) (minimum : Z) : result () :=
  raise_if (value <? minimum)
    (ValueError (name +:+ " must be an integer >= " +:+ pretty minimum)).

Record Trigger := mkTrigger {
  kind : string;
  source_component : string;
  source_port : string;
  mask : Z;
  value : Z;
  occurrence : Z }.

#[export] Instance Trigger_eq_dec : EqDecision Trigger.
Proof. solve_decision. Defined.

(** [Trigger.__post_init__] *)
Definition Trigger_post_init (t : Trigger) : result Trigger :=
  raise_if (negb (has (kind t) ["START"; "AFTER_OUTPUT"])) (ValueError "unknown trigger kind") ;;
  (if bool_decide (kind t = "START") then
     raise_if (negb (empty (source_component t)) || negb (empty (source_port t))
               || negb (mask t =? 0) || negb (value t =? 0) || negb (occurrence t =? 1))
       (ValueError "START trigger cannot refer to an output")
   else
     raise_if (empty (source_component t) || empty (source_port t))
       (ValueError "AFTER_OUTPUT requires a real output endpoint") ;;
     _natural (mask t) "trigger mask" 1 ;;
     _natural (value t) "trigger value" 0 ;;
     _natural (occurrence t) "trigger occurrence" 1 ;;
     raise_if (negb (value t &&& Z.lnot (mask t) =? 0)) (ValueError "trigger value exceeds mask")) ;;
  mret t.

Record Action := mkAction {
  action_id : string;
  component : string;
  port : string;
  action_value : Z;
  direction : string;
  trigger : Trigger;
  delay_component : string;
  delay_ticks : Z;
  bit_offset : Z;
  action_width : option Z }.

#[export] Instance Action_eq_dec : EqDecision Action.
Proof. solve_decision. Defined.

(** [Action.__post_init__] *)
Definition Action_post_init (a : Action) : result Action :=
  raise_if (empty (action_id a) || empty (component a) || empty (port a))
    (ValueError "action identity and source endpoint are required") ;;
  raise_if (negb (has (direction a) DIRECTIONS)) (ValueError "unknown mutation direction") ;;
  _natural (action_value a) "action value" 0 ;;
  _natural (delay_ticks a) "delay_ticks" 0 ;;
  _natural (bit_offset a) "bit_offset" 0 ;;
  match action_width a with
  | Some w => _natural w "width" 1
  | None => mret ()
  end ;;
  mret a.

Record MemoryImage := mkImage {
  image_id : string;
  image_component : string;
  address : Z;
  data_hex : string }.

#[export] Instance MemoryImage_eq_dec : EqDecision MemoryImage.
Proof. solve_decision. Defined.

Definition hex_value (c : Ascii.ascii) : option Z :=
  let n := Z.of_nat (Ascii.nat_of_ascii c) in
  if (48 <=? n) && (n <=? 57) then Some (n - 48)
  else if (97 <=? n) && (n <=? 102) then Some (n - 87)
  else if (65 <=? n) && (n <=? 70) then Some (n - 55)
  else None.

(** The ASCII white space [bytes.fromhex] skips between bytes. *)
Definition is_space (c : Ascii.ascii) : bool :=
  let n := Z.of_nat (Ascii.nat_of_ascii c) in
  ((9 <=? n) && (n <=? 13)) || (n =? 32).

(** [bytes.fromhex] *)
Fixpoint fromhex (s : string) : option (list Z) :=
  match s with
  | EmptyString => Some []
  | String c s1 =>
      if is_space c then fromhex s1 else
      match s1 with
      | EmptyString => None
      | String d s2 =>
          match hex_value c, hex_value d, fromhex s2 with
          | Some h, Some l, Some r => Some (16 * h + l :: r)
          | _, _, _ => None
          end
      end
  end.

(** [len] of a string of characters: the bytes of its UTF-8 that start one. *)
Definition characters (s : string) : Z :=
  Z.of_nat (length (filter (λ c, Ascii.N_of_ascii c `div` 64 ≠ 2)%N (String.list_ascii_of_string s))).

(** [MemoryImage.__post_init__] *)
Definition MemoryImage_post_init (m : MemoryImage) : result MemoryImage :=
  raise_if (empty (image_id m) || empty (image_component m))
    (ValueError "memory image identity and component are required") ;;
  _natural (address m) "image address" 0 ;;
  raise_if (empty (data_hex m) || negb (characters (data_hex m) `mod` 2 =? 0))
    (ValueError "memory image must have whole bytes") ;;
  match fromhex (data_hex m) with
  | None => Err (ValueError "memory image must be hex")
  | Some data =>
      raise_if (negb (bool_decide (hex_bytes data = data_hex m)))
        (ValueError "memory image hex must be canonical lowercase") ;;
      mret m
  end.

(** [MemoryImage.data] *)
Definition image_data (m : MemoryImage) : list Z := default [] (fromhex (data_hex m)).

Record ResetAction := mkReset {
  reset_id : string;
  policy : string;
  reset_trigger : Trigger;
  reset_delay_component : string;
  reset_delay_ticks : Z }.

#[export] Instance ResetAction_eq_dec : EqDecision ResetAction.
Proof. solve_decision. Defined.

(** [ResetAction.__post_init__] *)
Definition ResetAction_post_init (r : ResetAction) : result ResetAction :=
  raise_if (empty (reset_id r) || negb (has (policy r) ["warm_all"; "cold_all"]))
    (ValueError "reset action needs an identity and whole-scene policy") ;;
  _natural (reset_delay_ticks r) "reset delay_ticks" 0 ;;
  mret r.

Record ScenarioGenome := mkGenome {
  testcase_id : string;
  genome_direction : string;
  path_id : string;
  schedule_order : list string;
  max_steps : Z;
  actions : list Action;
  initial_images : list MemoryImage;
  encoding_version : Z;
  reset_actions : list ResetAction;
  quiesce_steps : Z }.

#[export] Instance ScenarioGenome_eq_dec : EqDecision ScenarioGenome.
Proof. solve_decision. Defined.

Definition unique (l : list string) : bool := bool_decide (NoDup l).

Definition check_trigger_in (order : list string) (t : Trigger) (msg : string) : result () :=
  raise_if (bool_decide (kind t = "AFTER_OUTPUT") && negb (has (source_component t) order))
    (ValueError msg).

(** [ScenarioGenome.__post_init__] *)
Definition ScenarioGenome_post_init (g : ScenarioGenome) : result ScenarioGenome :=
  let order := schedule_order g in
  let is_empty {A} (l : list A) := bool_decide (length l = 0%nat) in
  raise_if (empty (testcase_id g) || empty (path_id g))
    (ValueError "testcase_id and path_id are required") ;;
  raise_if (negb (has (genome_direction g) DIRECTIONS)) (ValueError "unknown mutation direction") ;;
  raise_if (is_empty order || has EmptyString order || negb (unique order))
    (ValueError "schedule_order must list unique components") ;;
  _natural (max_steps g) "max_steps" 1 ;;
  raise_if (negb (in_list (encoding_version g) [2; 3]))
    (ValueError "unknown genome encoding version") ;;
  raise_if (negb (is_empty (reset_actions g)) && negb (encoding_version g =? 3))
    (ValueError "reset actions require genome encoding version 3") ;;
  _natural (quiesce_steps g) "quiesce_steps" 0 ;;
  raise_if (4096 <? quiesce_steps g) (ValueError "quiesce_steps exceeds first-stage budget") ;;
  raise_if (negb (quiesce_steps g =? 0) && negb (encoding_version g =? 3))
    (ValueError "quiesce steps require genome encoding version 3") ;;
  raise_if (negb (unique (action_id <$> actions g))) (ValueError "action_id must be unique") ;;
  raise_if (negb (unique ((action_id <$> actions g) ++ (reset_id <$> reset_actions g))))
    (ValueError "action_id must be unique across the testcase") ;;
  raise_if (negb (unique (image_id <$> initial_images g))) (ValueError "image_id must be unique") ;;
  for_each (λ i, raise_if (negb (has (image_component i) order))
    (ValueError "memory image component is absent from schedule_order")) (initial_images g) ;;
  for_each (λ a,
    raise_if (negb (has (component a) order))
      (ValueError "action source is absent from schedule_order") ;;
    raise_if (negb (empty (delay_component a)) && negb (has (delay_component a) order))
      (ValueError "delay component is absent from schedule_order") ;;
    check_trigger_in order (trigger a) "trigger component is absent from schedule_order")
    (actions g) ;;
  for_each (λ r,
    raise_if (negb (empty (reset_delay_component r)) && negb (has (reset_delay_component r) order))
      (ValueError "reset delay component is absent from schedule_order") ;;
    check_trigger_in order (reset_trigger r)
      "reset trigger component is absent from schedule_order")
    (reset_actions g) ;;
  mret g.

(** ** Reassembly of chunks *)

Record ChunkAssembler := mkAssembler {
  total_bytes : Z;
  sha256_hex : string;
  _chunks : list (Z * string);
  _received : Z;
  _finished : bool }.

Fixpoint all_chars (p : Ascii.ascii → bool) (s : string) : bool :=
  match s with EmptyString => true | String c s => p c && all_chars p s end.

Definition lower_hex (c : Ascii.ascii) : bool :=
  let n := Z.of_nat (Ascii.nat_of_ascii c) in
  ((48 <=? n) && (n <=? 57)) || ((97 <=? n) && (n <=? 102)).

Definition strlen (s : string) : Z := Z.of_nat (String.length s).

(** [ChunkAssembler.__init__] *)
Definition new_assembler (total_bytes : Z) (sha256_hex : string) (max_bytes : Z)
    : result ChunkAssembler :=
  _natural total_bytes "total_bytes" 1 ;;
  _natural max_bytes "max_bytes" 1 ;;
  raise_if (max_bytes <? total_bytes) (ValueError "genome byte budget exceeded") ;;
  raise_if (negb (strlen sha256_hex =? 64) || negb (all_chars lower_hex sha256_hex))
    (ValueError "sha256 digest must be lowercase hexadecimal") ;;
  mret (mkAssembler total_bytes sha256_hex [] 0 false).

Definition add_chunk (offset : Z) (data : string) (a : ChunkAssembler) : ChunkAssembler :=
  mkAssembler (total_bytes a) (sha256_hex a) (od_set (_chunks a) offset data)
    (_received a + strlen data) (_finished a).
Definition set_finished (a : ChunkAssembler) : ChunkAssembler :=
  mkAssembler (total_bytes a) (sha256_hex a) (_chunks a) (_received a) true.

(** [ChunkAssembler.accept] *)
Definition accept_chunk (offset : Z) (data : string) : M ChunkAssembler () := λ a,
  (check (_finished a) (ValueError "genome is final; no further chunks are accepted") ;;
   reads (λ _, _natural offset "chunk offset" 0) ;;
   check (empty data) (ValueError "chunk must contain bytes") ;;
   match od_get (_chunks a) offset with
   | Some d =>
       check (negb (bool_decide (d = data))) (ValueError "duplicate chunk has changed content")
   | None =>
       check (offset <? _received a) (ValueError "chunk overlap is forbidden") ;;
       check (negb (offset =? _received a)) (ValueError "chunk order is invalid") ;;
       check (total_bytes a <? offset + strlen data)
         (ValueError "chunk exceeds declared genome size") ;;
       modify (add_chunk offset data)
   end) a.

Definition concat_chunks (l : list string) : string := foldr String.append EmptyString l.

(** [b"".join(self._chunks[offset] for offset in sorted(self._chunks))] *)
Definition raw_bytes (a : ChunkAssembler) : string :=
  concat_chunks ((λ o, default EmptyString (od_get (_chunks a) o))
                 <$> merge_sort Z.le (od_keys (_chunks a))).

Section finish.
Context `{Hashlib} (decode : string → result ScenarioGenome).

(** [ChunkAssembler.finish] *)
Definition finish : M ChunkAssembler ScenarioGenome := λ a,
  (check (negb (_received a =? total_bytes a)) (ValueError "genome is incomplete") ;;
   let raw := raw_bytes a in
   check (negb (bool_decide (hexdigest raw = sha256_hex a))) (ValueError "genome digest mismatch") ;;
   genome ← reads (λ _, decode raw);
   modify set_finished ;;
   mret genome) a.
End finish.

(** ** The chunks are a prefix of one byte string *)

Fixpoint contiguous (start : Z) (l : list (Z * string)) : Prop :=
  match l with
  | [] => True
  | (o, d) :: l => o = start ∧ d ≠ EmptyString ∧ contiguous (start + strlen d) l
  end.

Definition chunk_bytes (l : list (Z * string)) : string := concat_chunks l.*2.

#[local] Arguments chunk_bytes : simpl never.
#[local] Arguments concat_chunks : simpl never.

Lemma strlen_app a b : strlen (a +:+ b) = strlen a + strlen b.
Proof.
  unfold strlen. rewrite <- Nat2Z.inj_add. f_equal.
  induction a as [|c a IH]; [done|].
  change (S (String.length (a +:+ b)) = S (String.length a + String.length b)). by rewrite IH.
Qed.

Lemma strlen_pos s : s ≠ EmptyString → 0 < strlen s.
Proof. destruct s; [done|]. unfold strlen. cbn. lia. Qed.

Lemma concat_chunks_snoc l s : concat_chunks (l ++ [s]) = concat_chunks l +:+ s.
Proof.
  induction l as [|x l IH]; [apply append_empty_r|].
  change (x +:+ concat_chunks (l ++ [s]) = (x +:+ concat_chunks l) +:+ s).
  rewrite IH. by rewrite append_assoc.
Qed.

Lemma chunk_bytes_snoc l o d : chunk_bytes (l ++ [(o, d)]) = chunk_bytes l +:+ d.
Proof. unfold chunk_bytes. rewrite fmap_app. apply concat_chunks_snoc. Qed.

Lemma contiguous_snoc l s d :
  contiguous s l → d ≠ EmptyString → contiguous s (l ++ [(s + strlen (chunk_bytes l), d)]).
Proof.
  revert s. induction l as [|[o e] l IH]; cbn; intros s.
  - intros _ Hd. change (strlen (chunk_bytes [])) with 0. split; [lia|done].
  - intros (-> & He & Hl) Hd. split_and!; [done..|].
    change (chunk_bytes ((s, e) :: l)) with (e +:+ chunk_bytes l).
    rewrite strlen_app, Z.add_assoc. by apply IH.
Qed.

Lemma contiguous_keys l s :
  contiguous s l → Forall (λ o, s ≤ o < s + strlen (chunk_bytes l)) (od_keys l)
                   ∧ StronglySorted Z.lt (od_keys l).
Proof.
  revert s. induction l as [|[o d] l IH]; cbn; intros s; [repeat constructor|].
  intros (-> & Hd & Hl). destruct (IH _ Hl) as [Hf Hs].
  change (chunk_bytes ((s, d) :: l)) with (d +:+ chunk_bytes l).
  apply strlen_pos in Hd. rewrite strlen_app. split; constructor.
  - split; [lia|]. assert (0 ≤ strlen (chunk_bytes l)) by (unfold strlen; lia). lia.
  - eapply Forall_impl; [exact Hf|]. cbn. intros x Hx. lia.
  - done.
  - eapply Forall_impl; [exact Hf|]. cbn. intros x Hx. lia.
Qed.

Lemma StronglySorted_lt_le l : StronglySorted Z.lt l → StronglySorted Z.le l.
Proof.
  induction 1 as [|x l Hs IH Hf]; constructor; [done|].
  eapply Forall_impl; [exact Hf|]. cbn. lia.
Qed.

Lemma StronglySorted_lt_NoDup l : StronglySorted Z.lt l → NoDup l.
Proof.
  induction 1 as [|x l Hs IH Hf]; constructor; [|done].
  intros Hin. rewrite Forall_forall in Hf. apply Hf in Hin. lia.
Qed.

Lemma values_of_keys (l : list (Z * string)) :
  NoDup (od_keys l) → ((λ o, default EmptyString (od_get l o)) <$> od_keys l) = l.*2.
Proof.
  intros Hl. unfold od_keys. rewrite <- list_fmap_compose.
  apply list_fmap_ext. intros i [o d] Hi. cbn.
  by rewrite (od_elem_get l o d Hl) by (by eapply list_elem_of_lookup_2).
Qed.

Lemma raw_bytes_contiguous a :
  contiguous 0 (_chunks a) → raw_bytes a = chunk_bytes (_chunks a).
Proof.
  intros Hc. apply contiguous_keys in Hc as [_ Hs]. unfold raw_bytes, chunk_bytes.
  assert (merge_sort Z.le (od_keys (_chunks a)) = od_keys (_chunks a)) as ->.
  { apply (StronglySorted_unique Z.le).
    - apply Sorted_StronglySorted; [intros ???; lia|]. apply Sorted_merge_sort, _.
    - by apply StronglySorted_lt_le.
    - apply merge_sort_Permutation. }
  by rewrite values_of_keys by (by apply StronglySorted_lt_NoDup).
Qed.

Record assembler_ok (a : ChunkAssembler) : Prop := {
  asm_contiguous : contiguous 0 (_chunks a);
  asm_received : _received a = strlen (raw_bytes a);
  asm_total : _received a ≤ total_bytes a }.

Lemma raw_bytes_add a d :
  assembler_ok a → d ≠ EmptyString →
  raw_bytes (add_chunk (_received a) d a) = raw_bytes a +:+ d ∧
  contiguous 0 (_chunks (add_chunk (_received a) d a)).
Proof.
  intros [Hc Hr Ht] Hd. pose proof (contiguous_keys _ _ Hc) as [Hf _].
  assert (Hset : od_set (_chunks a) (_received a) d = _chunks a ++ [(_received a, d)]).
  { apply od_set_absent. intros Hin. rewrite Forall_forall in Hf. apply Hf in Hin.
    rewrite Hr, raw_bytes_contiguous in Hin by done. lia. }
  assert (Hc' : contiguous 0 (_chunks (add_chunk (_received a) d a))).
  { cbn. rewrite Hset, Hr, raw_bytes_contiguous by done. by apply (contiguous_snoc _ 0). }
  split; [|done]. rewrite !raw_bytes_contiguous by done. cbn. by rewrite Hset, chunk_bytes_snoc.
Qed.

(** What one [accept] does. *)
Lemma accept_chunk_cases a offset d :
  assembler_ok a →
  match accept_chunk offset d a with
  | (Err _, a') => a' = a
  | (Ok _, a') => a' = a ∧ od_get (_chunks a) offset = Some d ∨
                  offset = strlen (raw_bytes a) ∧ raw_bytes a' = raw_bytes a +:+ d
  end ∧ assembler_ok (accept_chunk offset d a).2.
Proof.
  intros Hok. unfold accept_chunk. unfold_M. unfold _natural.
  destruct (_finished a); cbn; [done|]. destruct (offset <? 0); cbn; [done|].
  destruct (empty d) eqn:Hd; cbn; [done|].
  destruct (od_get _ _) as [d'|]; cbn.
  { destruct (raise_if _ _) as [[]|] eqn:Hsame; cbn; [|done]. inv_Ok. subst d'. auto. }
  destruct (offset <? _received a) eqn:?; cbn; [done|].
  destruct (offset =? _received a) eqn:?; cbn; [|done].
  destruct (total_bytes a <? _) eqn:?; cbn; [done|].
  assert (offset = _received a) as -> by lia.
  apply bool_decide_eq_false in Hd. destruct (raw_bytes_add a d Hok Hd) as [Hraw Hc].
  split; [right; split; [apply Hok|done]|]. split; [done| |cbn; lia].
  rewrite Hraw, strlen_app, <- (asm_received _ Hok). done.
Qed.

Definition run_accepts (a : ChunkAssembler) (chunks : list (Z * string)) : ChunkAssembler :=
  foldl (λ a c, (accept_chunk c.1 c.2 a).2) a chunks.

Lemma run_accepts_ok chunks a : assembler_ok a → assembler_ok (run_accepts a chunks).
Proof.
  revert a. induction chunks as [|[o d] l IH]; cbn; intros a Ha; [done|].
  apply IH. by apply accept_chunk_cases.
Qed.

Lemma new_assembler_ok total digest max a : new_assembler total digest max = Ok a → assembler_ok a.
Proof.
  unfold new_assembler, _natural. intros Ha. inv_Ok. split; cbn; [done|done|lia].
Qed.

(** A chunk that is present sits at its offset in the assembled bytes. *)
Lemma substring_app a b d n :
  strlen a = Z.of_nat n → String.substring n (String.length d) (a +:+ d +:+ b) = d.
Proof.
  unfold strlen. revert n. induction a as [|c a IH]; intros n Hn.
  - assert (n = 0%nat) as -> by (cbn in Hn; lia).
    change (String.substring 0 (String.length d) (d +:+ b) = d).
    clear. induction d as [|c d IH]; [by destruct b|].
    change (String c (String.substring 0 (String.length d) (d +:+ b)) = String c d).
    by rewrite IH.
  - destruct n as [|n]; [cbn in Hn; lia|]. apply IH. cbn in Hn. lia.
Qed.

Lemma contiguous_substring l s o d :
  contiguous s l → od_get l o = Some d → 0 ≤ s →
  String.substring (Z.to_nat (o - s)) (String.length d) (chunk_bytes l) = d.
Proof.
  intros Hc Hg Hs. apply od_get_elem, list_elem_of_split in Hg as (l1 & l2 & ->).
  assert (Ho : o = s + strlen (chunk_bytes l1)).
  { clear Hs. revert s Hc. induction l1 as [|[o1 d1] l1 IH]; cbn; intros s.
    - intros (-> & _). change (strlen (chunk_bytes [])) with 0. lia.
    - intros (-> & _ & Hc%IH). change (chunk_bytes _) with (d1 +:+ chunk_bytes l1).
      rewrite strlen_app. lia. }
  assert (Hb : chunk_bytes (l1 ++ (o, d) :: l2) = chunk_bytes l1 +:+ d +:+ chunk_bytes l2).
  { clear. induction l1 as [|[o1 d1] l1 IH]; [done|].
    change (d1 +:+ chunk_bytes (l1 ++ (o, d) :: l2) =
            (d1 +:+ chunk_bytes l1) +:+ d +:+ chunk_bytes l2). by rewrite IH, append_assoc. }
  rewrite Hb. apply substring_app. rewrite Ho. unfold strlen. lia.
Qed.

(** C13.  Chunked transfer refines appending to one byte string.  After any
    sequence of [accept] calls on a new assembler the received bytes are the
    joined chunks, within the declared size; a further call either raises and
    changes nothing, or appends its data at exactly the current end, or (same
    offset seen before) changes nothing and its data already stands there. *)
Theorem assembler_refines_append total digest max a0 calls offset d :
  new_assembler total digest max = Ok a0 →
  let a := run_accepts a0 calls in
  let '(r, a') := accept_chunk offset d a in
  _received a = strlen (raw_bytes a) ∧ _received a ≤ total_bytes a ∧
  match r with
  | Err _ => a' = a
  | Ok _ =>
      offset = strlen (raw_bytes a) ∧ raw_bytes a' = raw_bytes a +:+ d ∨
      a' = a ∧ String.substring (Z.to_nat offset) (String.length d) (raw_bytes a) = d
  end.
Proof.
  intros Hnew a. pose proof (run_accepts_ok calls _ (new_assembler_ok _ _ _ _ Hnew)) as Hok.
  fold a in Hok. pose proof (accept_chunk_cases a offset d Hok) as [Hc _].
  destruct (accept_chunk offset d a) as [r a'] eqn:Hacc.
  split; [apply Hok|]. split; [apply Hok|].
  destruct r as [[]|]; [|done]. destruct Hc as [[-> Hg]|Hc]; [right|by left].
  split; [done|]. destruct Hok as [Hcont _ _]. rewrite raw_bytes_contiguous by done.
  replace offset with (offset - 0) at 1 by lia. by apply contiguous_substring.
Qed.

(**  A finished genome is exactly what was declared: [finish] succeeds only
    when every declared byte arrived and their SHA-256 is the declared digest,
    it returns the decoding of those bytes, and afterwards every further chunk
    is refused; when it raises the assembler is unchanged. *)
Lemma finish_checks_everything `{Hashlib} decode a :
  let '(r, a') := finish decode a in
  match r with
  | Ok g =>
      _received a = total_bytes a ∧ hexdigest (raw_bytes a) = sha256_hex a ∧
      decode (raw_bytes a) = Ok g ∧ raw_bytes a' = raw_bytes a ∧
      ∀ offset d, ∃ e, accept_chunk offset d a' = (Err e, a')
  | Err _ => a' = a
  end.
Proof.
  unfold finish. unfold_M. destruct (_received a =? total_bytes a) eqn:Hr; cbn; [|done].
  destruct (bool_decide _) eqn:Hd; cbn; [|done].
  destruct (decode (raw_bytes a)) as [g|e] eqn:Hg; cbn; [|done].
  apply bool_decide_eq_true in Hd. split_and!; [lia|done..|]. intros offset d. eexists. reflexivity.
Qed.

(** *** The hypotheses are satisfiable *)

Module Example_genome.
Definition digest64 : string :=
  "0123456789abcdef0123456789abcdef0123456789abcdef0123456789abcdef".
Definition start : ChunkAssembler := mkAssembler 5 digest64 [] 0 false.

Lemma assembler_refines_append_witness :
  let a := run_accepts start [(0, "abc"); (9, "zz")] in
  let '(r, a') := accept_chunk 0 "abc" a in
  _received a = strlen (raw_bytes a) ∧ _received a ≤ total_bytes a ∧
  match r with
  | Err _ => a' = a
  | Ok _ =>
      0 = strlen (raw_bytes a) ∧ raw_bytes a' = raw_bytes a +:+ "abc" ∨
      a' = a ∧ String.substring (Z.to_nat 0) (String.length "abc") (raw_bytes a) = "abc"
  end.
Proof.
  exact (assembler_refines_append 5 digest64 100 start [(0, "abc"); (9, "zz")] 0 "abc" eq_refl).
Defined.
End Example_genome.
