(* ===== verification/GenomeCodec.v ===== *)
(** * The text of a genome

    Models [GenomeCodec] of [src/src/myfuzz/scenario/genome.py]: [encode] writes
    the canonical JSON of a genome, [decode] checks the fields of a document
    record by record, rebuilds the records through their constructors and
    raises at the first thing that is wrong.  The annotations of the records
    are not checked by the code: a document whose [testcase_id] is the number 7
    gets past [decode].  Where the code goes on with a leaf of another JSON type
    than its annotation names the model answers [Foreign], and says nothing of
    what follows.  The [RecursionError] of Python's JSON reader on very deeply
    nested text is not modelled.

    [decode_encode] is the round trip, [decoded_genome_is_typed] the shape of
    every document [decode] accepts and the invariant of what it returns, and
    [transfer_delivers_the_genome] composes the round trip with the chunk
    assembler of Genome.v. *)

From S2P Require Import Prelude Json JsonText Isa Genome.

Local Open Scope Z_scope.

(** ** Encoding *)

Definition Trigger_asdict (t : Trigger) : json :=
  JObj [("kind", JStr (kind t)); ("source_component", JStr (source_component t));
        ("source_port", JStr (source_port t)); ("mask", JInt (mask t));
        ("value", JInt (value t)); ("occurrence", JInt (occurrence t))].

Definition Action_asdict (a : Action) : json :=
  JObj [("action_id", JStr (action_id a)); ("component", JStr (component a));
        ("port", JStr (port a)); ("value", JInt (action_value a));
        ("direction", JStr (direction a)); ("trigger", Trigger_asdict (trigger a));
        ("delay_component", JStr (delay_component a)); ("delay_ticks", JInt (delay_ticks a));
        ("bit_offset", JInt (bit_offset a)); ("width", from_option JInt JNull (action_width a))].

Definition MemoryImage_asdict (m : MemoryImage) : json :=
  JObj [("image_id", JStr (image_id m)); ("component", JStr (image_component m));
        ("address", JInt (address m)); ("data_hex", JStr (data_hex m))].

Definition ResetAction_asdict (r : ResetAction) : json :=
  JObj [("action_id", JStr (reset_id r)); ("policy", JStr (policy r));
        ("trigger", Trigger_asdict (reset_trigger r));
        ("delay_component", JStr (reset_delay_component r));
        ("delay_ticks", JInt (reset_delay_ticks r))].

(** [dataclasses.asdict] of a genome *)
Definition asdict (g : ScenarioGenome) : list (string * json) :=
  [("testcase_id", JStr (testcase_id g)); ("direction", JStr (genome_direction g));
   ("path_id", JStr (path_id g)); ("schedule_order", JArr (map JStr (schedule_order g)));
   ("max_steps", JInt (max_steps g)); ("actions", JArr (map Action_asdict (actions g)));
   ("initial_images", JArr (map MemoryImage_asdict (initial_images g)));
   ("encoding_version", JInt (encoding_version g));
   ("reset_actions", JArr (map ResetAction_asdict (reset_actions g)));
   ("quiesce_steps", JInt (quiesce_steps g))].

(** [GenomeCodec.encode]; a lone surrogate in a string has no UTF-8. *)
Definition encode (g : ScenarioGenome) : result string :=
  let document := asdict g in
  let document := if encoding_version g =? 2
                  then od_del (od_del document "reset_actions") "quiesce_steps"
                  else document in
  let text := dumps (JObj document) in
  raise_if (negb (utf8_valid text)) (OtherError "UnicodeEncodeError") ;;
  mret text.

(** ** Decoding *)

(** What the model knows of a call: its result, or that the code went on with
    a leaf whose type its annotation excludes. *)
Inductive decoded (A : Type) : Type :=
  | Typed (r : result A)
  | Foreign.
Arguments Typed {A} r.
Arguments Foreign {A}.

#[export] Instance decoded_ret : MRet decoded := λ A a, Typed (Ok a).
#[export] Instance decoded_bind : MBind decoded := λ A B f m,
  match m with
  | Typed (Ok a) => f a
  | Typed (Err e) => Typed (Err e)
  | Foreign => Foreign
  end.

Definition refuse {A} (msg : string) : decoded A := Typed (Err (ValueError msg)).
Definition require (c : bool) (msg : string) : decoded () :=
  Typed (raise_if (negb c) (ValueError msg)).

(** A list comprehension whose body may raise. *)
Fixpoint collect_each {A B} (f : A → decoded B) (l : list A) : decoded (list B) :=
  match l with
  | [] => mret []
  | x :: l => y ← f x; ys ← collect_each f l; mret (y :: ys)
  end.

Section leaves.
Context (d : list (string * JsonText.value)).

Definition str_leaf (k : string) : decoded string :=
  match od_get d k with Some (VStr s) => mret s | _ => Foreign end.
Definition int_leaf (k : string) : decoded Z :=
  match od_get d k with Some (VInt z) => mret z | _ => Foreign end.
Definition optional_int_leaf (k : string) : decoded (option Z) :=
  match od_get d k with Some VNull => mret None | Some (VInt z) => mret (Some z) | _ => Foreign end.
End leaves.

(** [set(d) == set(fields)] *)
Definition same_fields {V} (d : list (string * V)) (fields : list string) : bool :=
  forallb (λ k, has k fields) (od_keys d) && forallb (λ k, has k (od_keys d)) fields.

Definition trigger_fields : list string :=
  ["kind"; "source_component"; "source_port"; "mask"; "value"; "occurrence"].
Definition action_fields : list string :=
  ["action_id"; "component"; "port"; "value"; "direction"; "trigger"; "delay_component";
   "delay_ticks"; "bit_offset"; "width"].
Definition image_fields : list string := ["image_id"; "component"; "address"; "data_hex"].
Definition reset_fields : list string :=
  ["action_id"; "policy"; "trigger"; "delay_component"; "delay_ticks"].

(** [isinstance(v, dict)] and the right fields, else [ValueError(msg)]. *)
Definition dict_with (fields : list string) (msg : string) (v : JsonText.value)
    : decoded (list (string * JsonText.value)) :=
  match v with
  | VObj d => require (same_fields d fields) msg ;; mret d
  | _ => refuse msg
  end.

(** [d[k]] of a field that is known to be there *)
Definition member (d : list (string * JsonText.value)) (k : string) : JsonText.value :=
  default VNull (od_get d k).

(** [Trigger] called with the members of [t] as keyword arguments *)
Definition Trigger_of (t : list (string * JsonText.value)) : decoded Trigger :=
  kind ← str_leaf t "kind";
  source_component ← str_leaf t "source_component";
  source_port ← str_leaf t "source_port";
  mask ← int_leaf t "mask";
  value ← int_leaf t "value";
  occurrence ← int_leaf t "occurrence";
  Typed (Trigger_post_init (mkTrigger kind source_component source_port mask value occurrence)).

(** One turn of the loop over [document["actions"]] *)
Definition decode_action (record : JsonText.value) : decoded Action :=
  r ← dict_with action_fields "unknown or missing action fields" record;
  t ← dict_with trigger_fields "unknown or missing trigger fields" (member r "trigger");
  trigger ← Trigger_of t;
  action_id ← str_leaf r "action_id";
  component ← str_leaf r "component";
  port ← str_leaf r "port";
  value ← int_leaf r "value";
  direction ← str_leaf r "direction";
  delay_component ← str_leaf r "delay_component";
  delay_ticks ← int_leaf r "delay_ticks";
  bit_offset ← int_leaf r "bit_offset";
  width ← optional_int_leaf r "width";
  Typed (Action_post_init (mkAction action_id component port value direction trigger
                             delay_component delay_ticks bit_offset width)).

(** One turn of the loop over the reset actions *)
Definition decode_reset (item : JsonText.value) : decoded ResetAction :=
  r ← dict_with reset_fields "unknown or missing reset action fields" item;
  t ← dict_with trigger_fields "unknown or missing reset trigger fields" (member r "trigger");
  trigger ← Trigger_of t;
  action_id ← str_leaf r "action_id";
  policy ← str_leaf r "policy";
  delay_component ← str_leaf r "delay_component";
  delay_ticks ← int_leaf r "delay_ticks";
  Typed (ResetAction_post_init (mkReset action_id policy trigger delay_component delay_ticks)).

(** [MemoryImage] called with the members of [m] as keyword arguments *)
Definition MemoryImage_of (m : list (string * JsonText.value)) : decoded MemoryImage :=
  image_id ← str_leaf m "image_id";
  component ← str_leaf m "component";
  address ← int_leaf m "address";
  data_hex ← str_leaf m "data_hex";
  Typed (MemoryImage_post_init (mkImage image_id component address data_hex)).

(** [isinstance(v, list)], else [ValueError(msg)] *)
Definition list_or (msg : string) (v : JsonText.value) : decoded (list JsonText.value) :=
  match v with VArr l => mret l | _ => refuse msg end.

(** [tuple(order)], a tuple of strings *)
Definition order_item (v : JsonText.value) : decoded string :=
  match v with VStr s => mret s | _ => Foreign end.

(** [document.get("encoding_version") == 3]; a float may equal 3. *)
Definition is_version_3 (document : list (string * JsonText.value)) : decoded bool :=
  match od_get document "encoding_version" with
  | Some (VInt z) => mret (z =? 3)
  | Some (VFloat _) => Foreign
  | _ => mret false
  end.

Definition base_fields : list string :=
  ["testcase_id"; "direction"; "path_id"; "schedule_order"; "max_steps"; "actions";
   "initial_images"; "encoding_version"].

(** [GenomeCodec.decode], from the parsed document on *)
Definition decode_fields (document : list (string * JsonText.value)) : decoded ScenarioGenome :=
  v3 ← is_version_3 document;
  require (same_fields document
             (base_fields ++ (if (v3 : bool) then ["reset_actions"; "quiesce_steps"] else [])))
    "unknown or missing genome fields" ;;
  records ← list_or "actions must be a list" (member document "actions");
  actions ← collect_each decode_action records;
  order ← list_or "schedule_order must be a list" (member document "schedule_order");
  images ← list_or "initial_images must be a list" (member document "initial_images");
  image_records ← collect_each
    (dict_with image_fields "unknown or missing memory image fields") images;
  resets ← list_or "reset_actions must be a list"
    (default (VArr []) (od_get document "reset_actions"));
  reset_actions ← collect_each decode_reset resets;
  schedule_order ← collect_each order_item order;
  initial_images ← collect_each MemoryImage_of image_records;
  testcase_id ← str_leaf document "testcase_id";
  direction ← str_leaf document "direction";
  path_id ← str_leaf document "path_id";
  max_steps ← int_leaf document "max_steps";
  encoding_version ← int_leaf document "encoding_version";
  quiesce_steps ← match od_get document "quiesce_steps" with
                  | Some _ => int_leaf document "quiesce_steps"
                  | None => mret 0
                  end;
  Typed (ScenarioGenome_post_init
    (mkGenome testcase_id direction path_id schedule_order max_steps actions initial_images
       encoding_version reset_actions quiesce_steps)).

(** [GenomeCodec.decode] *)
Definition decode (raw : string) : decoded ScenarioGenome :=
  require (utf8_valid raw) "invalid genome JSON" ;;
  match loads raw with
  | None => refuse "invalid genome JSON"
  | Some (VObj document) => decode_fields document
  | Some _ => refuse "genome must be a JSON object"
  end.

(** ** What a dict keeps when it is written and read back *)

Lemma od_get_map {V W} (f : V → W) (l : list (string * V)) k :
  od_get (map (λ kv, (kv.1, f kv.2)) l) k = f <$> od_get l k.
Proof. induction l as [|[k' v] l IH]; cbn; [done|]. by case_decide. Qed.

Lemma od_get_perm {V} (l l' : list (string * V)) k :
  l ≡ₚ l' → NoDup (od_keys l) → od_get l k = od_get l' k.
Proof.
  intros Hp Hn. assert (Hn' : NoDup (od_keys l')) by (unfold od_keys in *; by rewrite <- Hp).
  destruct (od_get l k) as [v|] eqn:Hv.
  - apply od_get_elem in Hv. rewrite Hp in Hv. by rewrite (od_elem_get _ _ v).
  - symmetry. apply od_get_None. apply od_get_None in Hv. unfold od_keys in *. by rewrite <- Hp.
Qed.

Lemma same_fields_keys {V W} (d : list (string * V)) (d' : list (string * W)) fields :
  od_keys d ≡ₚ od_keys d' → same_fields d fields = same_fields d' fields.
Proof.
  intros Hp. apply eq_iff_eq_true. unfold same_fields. rewrite !andb_true_iff, !forallb_forall.
  unfold has. setoid_rewrite bool_decide_eq_true. setoid_rewrite <- list_elem_of_In.
  by setoid_rewrite Hp.
Qed.

(** Reading back a written [dict]: the same fields with the values they stand
    for, whatever order they were written in. *)
Lemma dict_back l :
  NoDup (od_keys l) →
  ∃ d, value_of (JObj l) = VObj d ∧ (∀ k, od_get d k = value_of <$> od_get l k) ∧
       ∀ fields, same_fields d fields = same_fields l fields.
Proof.
  intros Hn. eexists. split; [reflexivity|].
  set (rows := map (λ kv, (kv.1, value_of kv.2)) l).
  assert (Hk : od_keys rows = od_keys l).
  { unfold rows, od_keys. clear. induction l as [|kv l IH]; [done|]. cbn. by f_equal. }
  split.
  - intros k. rewrite <- od_get_map. apply od_get_perm; [apply merge_sort_Permutation|].
    unfold od_keys. rewrite merge_sort_Permutation. change (NoDup (od_keys rows)). by rewrite Hk.
  - intros fields. apply same_fields_keys. unfold od_keys at 1. rewrite merge_sort_Permutation.
    change (od_keys rows ≡ₚ od_keys l). by rewrite Hk.
Qed.

Lemma dict_with_back fields msg l :
  NoDup (od_keys l) → same_fields l fields = true →
  ∃ d, dict_with fields msg (value_of (JObj l)) = Typed (Ok d) ∧
       ∀ k, od_get d k = value_of <$> od_get l k.
Proof.
  intros Hn Hf. destruct (dict_back l Hn) as (d & -> & Hg & Hs). exists d.
  unfold dict_with. by rewrite Hs, Hf.
Qed.

Lemma collect_back {A B} (f : A → decoded B) (g : B → A) l :
  Forall (λ b, f (g b) = Typed (Ok b)) l → collect_each f (map g l) = Typed (Ok l).
Proof. induction 1 as [|b l Hb Hl IH]; [done|]. cbn. rewrite Hb. cbn. by rewrite IH. Qed.

(** Keys that are literals: their difference and the fields of a record. *)
Ltac closed_keys := first [by apply (bool_decide_unpack _); vm_compute | by vm_compute].

(** Reads a written record back through its dict. *)
Ltac read_back :=
  match goal with
  | |- context [dict_with ?fields ?msg (value_of (JObj ?l))] =>
      let d := fresh "d" in let Hd := fresh "Hd" in let Hg := fresh "Hg" in
      destruct (dict_with_back fields msg l) as (d & Hd & Hg); [closed_keys..|];
      rewrite Hd; clear Hd; cbn [mbind decoded_bind];
      unfold str_leaf, int_leaf, optional_int_leaf, member; rewrite !Hg
  end.

Lemma Trigger_back t msg :
  Trigger_post_init t = Ok t →
  (d ← dict_with trigger_fields msg (value_of (Trigger_asdict t)); Trigger_of d) = Typed (Ok t).
Proof.
  intros Ht. unfold Trigger_asdict, Trigger_of. read_back.
  destruct t. exact (f_equal Typed Ht).
Qed.

Lemma decoded_assoc {A B C} (m : decoded A) (f : A → decoded B) (g : B → decoded C) :
  (m ≫= λ a, f a ≫= g) = (m ≫= f) ≫= g.
Proof. by destruct m as [[a|e]|]. Qed.

Lemma Action_back a :
  Action_post_init a = Ok a → Trigger_post_init (trigger a) = Ok (trigger a) →
  decode_action (value_of (Action_asdict a)) = Typed (Ok a).
Proof.
  intros Ha Ht. unfold Action_asdict, decode_action. read_back.
  change (default VNull _) with (value_of (Trigger_asdict (trigger a))).
  rewrite decoded_assoc, Trigger_back by done.
  destruct a as [? ? ? ? ? ? ? ? ? []]; exact (f_equal Typed Ha).
Qed.

Lemma ResetAction_back r :
  ResetAction_post_init r = Ok r → Trigger_post_init (reset_trigger r) = Ok (reset_trigger r) →
  decode_reset (value_of (ResetAction_asdict r)) = Typed (Ok r).
Proof.
  intros Hr Ht. unfold ResetAction_asdict, decode_reset. read_back.
  change (default VNull _) with (value_of (Trigger_asdict (reset_trigger r))).
  rewrite decoded_assoc, Trigger_back by done.
  destruct r; exact (f_equal Typed Hr).
Qed.

Lemma MemoryImage_back m msg :
  MemoryImage_post_init m = Ok m →
  (d ← dict_with image_fields msg (value_of (MemoryImage_asdict m)); MemoryImage_of d)
  = Typed (Ok m).
Proof.
  intros Hm. unfold MemoryImage_asdict, MemoryImage_of. read_back.
  destruct m. exact (f_equal Typed Hm).
Qed.

(** Two loops over the same records, one checking and one building. *)
Lemma collect_twice {A B C} (f : A → decoded C) (h : C → decoded B) (g : B → A) l :
  Forall (λ b, (c ← f (g b); h c) = Typed (Ok b)) l →
  ∃ cs, collect_each f (map g l) = Typed (Ok cs) ∧ collect_each h cs = Typed (Ok l).
Proof.
  induction 1 as [|b l Hb Hl (cs & Hf & Hh)]; [by exists []|].
  cbn [map collect_each]. destruct (f (g b)) as [[c|e]|]; [|done..].
  exists (c :: cs). rewrite Hf. split; [done|]. cbn [collect_each].
  change (h c = Typed (Ok b)) in Hb. rewrite Hb, Hh. done.
Qed.

(** ** Genomes that went through their constructors *)

Record genome_ok (g : ScenarioGenome) : Prop := {
  ok_actions : Forall (λ a, Action_post_init a = Ok a ∧
                            Trigger_post_init (trigger a) = Ok (trigger a)) (actions g);
  ok_images : Forall (λ m, MemoryImage_post_init m = Ok m) (initial_images g);
  ok_resets : Forall (λ r, ResetAction_post_init r = Ok r ∧
                           Trigger_post_init (reset_trigger r) = Ok (reset_trigger r))
                     (reset_actions g);
  ok_genome : ScenarioGenome_post_init g = Ok g }.

Lemma version_cases g :
  ScenarioGenome_post_init g = Ok g →
  encoding_version g = 3 ∨
  encoding_version g = 2 ∧ reset_actions g = [] ∧ quiesce_steps g = 0.
Proof.
  unfold ScenarioGenome_post_init, _natural. intros Hg. inv_Ok.
  match goal with H : in_list _ _ = true |- _ => apply in_list_pair in H as [Hv|Hv] end; [|by left].
  right. rewrite Hv in *.
  repeat match goal with H : (_ && _) = false |- _ => apply andb_false_iff in H as [H|H]; [|done] end.
  split_and!; [done| |].
  - match goal with H : negb (bool_decide (length _ = _)) = false |- _ =>
      apply negb_false_iff, bool_decide_eq_true, length_zero_iff_nil in H end. done.
  - match goal with H : negb (quiesce_steps g =? 0) = false |- _ =>
      apply negb_false_iff, Z.eqb_eq in H end. done.
Qed.

Section members_back.
Context (g : ScenarioGenome) (Hg : genome_ok g).

Lemma actions_back :
  collect_each decode_action (map value_of (map Action_asdict (actions g))) = Typed (Ok (actions g)).
Proof.
  rewrite map_map. apply collect_back. eapply Forall_impl; [apply Hg|].
  intros a [Ha Ht]. by apply Action_back.
Qed.

Lemma resets_back :
  collect_each decode_reset (map value_of (map ResetAction_asdict (reset_actions g)))
  = Typed (Ok (reset_actions g)).
Proof.
  rewrite map_map. apply collect_back. eapply Forall_impl; [apply Hg|].
  intros r [Hr Ht]. by apply ResetAction_back.
Qed.

Lemma order_back :
  collect_each order_item (map value_of (map JStr (schedule_order g))) = Typed (Ok (schedule_order g)).
Proof. rewrite map_map. apply collect_back. by apply Forall_true. Qed.

Lemma images_back msg :
  ∃ ds, collect_each (dict_with image_fields msg)
          (map value_of (map MemoryImage_asdict (initial_images g))) = Typed (Ok ds) ∧
        collect_each MemoryImage_of ds = Typed (Ok (initial_images g)).
Proof.
  rewrite map_map. apply (collect_twice _ _ (λ m, value_of (MemoryImage_asdict m))).
  eapply Forall_impl; [apply Hg|]. intros m Hm. by apply MemoryImage_back.
Qed.

End members_back.

(** The document [encode] writes. *)
Definition document_of (g : ScenarioGenome) : list (string * json) :=
  if encoding_version g =? 2 then od_del (od_del (asdict g) "reset_actions") "quiesce_steps"
  else asdict g.

Lemma distinct_members {A} (f : A → json) l :
  (∀ x, distinct_keys (f x) = true) → forallb distinct_keys (map f l) = true.
Proof. intros Hf. induction l as [|x l IH]; [done|]. cbn. by rewrite Hf, IH. Qed.

Lemma distinct_trigger t : distinct_keys (Trigger_asdict t) = true.
Proof. apply andb_true_iff. split; [|done]. apply bool_decide_eq_true_2. closed_keys. Qed.

Lemma distinct_action a : distinct_keys (Action_asdict a) = true.
Proof.
  apply andb_true_iff. split; [apply bool_decide_eq_true_2; closed_keys|].
  cbn -[Trigger_asdict]. rewrite distinct_trigger. by destruct (action_width a).
Qed.

Lemma distinct_image m : distinct_keys (MemoryImage_asdict m) = true.
Proof. apply andb_true_iff. split; [|done]. apply bool_decide_eq_true_2. closed_keys. Qed.

Lemma distinct_reset r : distinct_keys (ResetAction_asdict r) = true.
Proof.
  apply andb_true_iff. split; [apply bool_decide_eq_true_2; closed_keys|].
  cbn -[Trigger_asdict]. by rewrite distinct_trigger.
Qed.

Lemma distinct_arr l : distinct_keys (JArr l) = forallb distinct_keys l.
Proof. done. Qed.

Lemma distinct_obj l :
  distinct_keys (JObj l) = bool_decide (NoDup l.*1) && forallb (λ kv, distinct_keys kv.2) l.
Proof. done. Qed.

(** Version 2 has the first eight fields. *)
Lemma document_fields g :
  document_of g = if encoding_version g =? 2 then take 8 (asdict g) else asdict g.
Proof. unfold document_of. by destruct (encoding_version g =? 2). Qed.

Lemma distinct_document g : distinct_keys (JObj (document_of g)) = true.
Proof.
  rewrite document_fields, distinct_obj. destruct (encoding_version g =? 2); apply andb_true_iff;
    (split; [apply bool_decide_eq_true_2; closed_keys|]);
    unfold asdict; cbn [take forallb snd]; rewrite !distinct_arr;
    rewrite (distinct_members JStr) by done;
    by rewrite ?(distinct_members _ _ distinct_action), ?(distinct_members _ _ distinct_image),
      ?(distinct_members _ _ distinct_reset).
Qed.

(** The members of a dict that spells out [g]. *)
Record spells (g : ScenarioGenome) (d : list (string * JsonText.value)) : Prop := {
  sp_testcase : od_get d "testcase_id" = Some (VStr (testcase_id g));
  sp_direction : od_get d "direction" = Some (VStr (genome_direction g));
  sp_path : od_get d "path_id" = Some (VStr (path_id g));
  sp_order : od_get d "schedule_order" = Some (VArr (map value_of (map JStr (schedule_order g))));
  sp_steps : od_get d "max_steps" = Some (VInt (max_steps g));
  sp_actions :
    od_get d "actions" = Some (VArr (map value_of (map Action_asdict (actions g))));
  sp_images :
    od_get d "initial_images" = Some (VArr (map value_of (map MemoryImage_asdict (initial_images g))));
  sp_version : od_get d "encoding_version" = Some (VInt (encoding_version g));
  sp_resets : default (VArr []) (od_get d "reset_actions")
              = VArr (map value_of (map ResetAction_asdict (reset_actions g)));
  sp_quiesce : match od_get d "quiesce_steps" with
               | Some _ => int_leaf d "quiesce_steps"
               | None => mret 0
               end = Typed (Ok (quiesce_steps g));
  sp_fields : same_fields d (base_fields ++ (if encoding_version g =? 3
                then ["reset_actions"; "quiesce_steps"] else [])) = true }.

Lemma document_spells g d :
  genome_ok g →
  (∀ k, od_get d k = value_of <$> od_get (document_of g) k) →
  (∀ fields, same_fields d fields = same_fields (document_of g) fields) →
  spells g d.
Proof.
  intros [_ _ _ Hg] Hget Hsame. rewrite document_fields in Hget, Hsame.
  assert (Hdoc : ∀ k v, od_get (asdict g) k = Some v → od_get (take 8 (asdict g)) k = Some v →
                        od_get d k = Some (value_of v)).
  { intros k v H1 H2. rewrite Hget. destruct (_ =? 2); [by rewrite H2|by rewrite H1]. }
  split; try first [by apply (Hdoc _ (JStr _)) | by apply (Hdoc _ (JInt _)) | by apply (Hdoc _ (JArr _))].
  - rewrite Hget. by destruct (version_cases g Hg) as [->|(-> & -> & _)].
  - unfold int_leaf. rewrite Hget. by destruct (version_cases g Hg) as [->|(-> & _ & ->)].
  - rewrite Hsame. by destruct (version_cases g Hg) as [->|(-> & _)].
Qed.

Lemma decode_spelled g d : genome_ok g → spells g d → decode_fields d = Typed (Ok g).
Proof.
  intros Hok [H1 H2 H3 H4 H5 H6 H7 H8 H9 H10 H11].
  destruct (images_back g Hok "unknown or missing memory image fields") as (ds & Hds & Hms).
  unfold decode_fields, is_version_3, str_leaf, member.
  rewrite H8. cbn -[same_fields base_fields collect_each int_leaf ScenarioGenome_post_init].
  rewrite H11, H1, H2, H3, H4, H6, H7, H9, H10.
  unfold list_or. cbn [negb raise_if from_option id mbind decoded_bind mret decoded_ret].
  rewrite (actions_back g Hok). cbn [mbind decoded_bind]. rewrite Hds. cbn [mbind decoded_bind].
  rewrite (resets_back g Hok). cbn [mbind decoded_bind].
  rewrite (order_back g). cbn [mbind decoded_bind]. rewrite Hms. cbn [mbind decoded_bind].
  unfold int_leaf. rewrite H5, H8. cbn [mbind decoded_bind mret decoded_ret].
  pose proof (ok_genome g Hok) as Hg. destruct g. exact (f_equal Typed Hg).
Qed.

Lemma decode_written g raw :
  genome_ok g → encode g = Ok raw → decode raw = Typed (Ok g).
Proof.
  intros Hok He. unfold encode in He. fold (document_of g) in He. inv_Ok.
  unfold decode. rewrite H. cbn [negb]. rewrite loads_dumps by apply distinct_document.
  destruct (dict_back (document_of g)) as (d & -> & Hget & Hsame).
  { pose proof (distinct_document g) as Hd. rewrite distinct_obj in Hd.
    apply andb_true_iff in Hd as [Hd _]. by apply bool_decide_eq_true_1 in Hd. }
  apply decode_spelled; [done|]. by apply document_spells.
Qed.

(** C15.  The round trip of the codec: a genome whose records went through their
    constructors, written by [encode], is read back by [decode] as itself, for
    both encoding versions. *)
Theorem decode_encode g :
  genome_ok g →
  match encode g with
  | Ok raw => decode raw = Typed (Ok g)
  | Err e => e = OtherError "UnicodeEncodeError" ∧
             utf8_valid (dumps (JObj (document_of g))) = false
  end.
Proof.
  intros Hok. destruct (encode g) as [raw|e] eqn:He; [by apply decode_written|].
  unfold encode in He. fold (document_of g) in He.
  destruct (utf8_valid _) eqn:Hu; [done|]. by injection He as <-.
Qed.

(** ** Everything a call can answer *)

Lemma only_natural v name min : only_value_error (_natural v name min).
Proof. apply only_raise_if. Qed.

Ltac solve_only := solve_only_with ltac:(apply only_natural).

Lemma only_Trigger t : only_value_error (Trigger_post_init t).
Proof. unfold Trigger_post_init. solve_only. Qed.
Lemma only_Action a : only_value_error (Action_post_init a).
Proof. unfold Action_post_init. solve_only. Qed.
Lemma only_MemoryImage m : only_value_error (MemoryImage_post_init m).
Proof. unfold MemoryImage_post_init. solve_only. Qed.
Lemma only_ResetAction r : only_value_error (ResetAction_post_init r).
Proof. unfold ResetAction_post_init. solve_only. Qed.
Lemma only_ScenarioGenome g : only_value_error (ScenarioGenome_post_init g).
Proof. unfold ScenarioGenome_post_init, check_trigger_in. solve_only. Qed.

(** *** The shape of a document, by its annotations *)

Inductive leaf_type : Type := TStr | TInt | TOptionalInt.
#[export] Instance leaf_type_eq_dec : EqDecision leaf_type.
Proof. solve_decision. Defined.
Definition has_type (t : leaf_type) (v : JsonText.value) : Prop :=
  match t, v with
  | TStr, VStr _ | TInt, VInt _ | TOptionalInt, VInt _ | TOptionalInt, VNull => True
  | _, _ => False
  end.

Definition trigger_leaves : list (string * leaf_type) :=
  [("kind", TStr); ("source_component", TStr); ("source_port", TStr); ("mask", TInt); ("value", TInt);
   ("occurrence", TInt)].
Definition action_leaves : list (string * leaf_type) :=
  [("action_id", TStr); ("component", TStr); ("port", TStr); ("value", TInt); ("direction", TStr);
   ("delay_component", TStr); ("delay_ticks", TInt); ("bit_offset", TInt); ("width", TOptionalInt)].
Definition reset_leaves : list (string * leaf_type) :=
  [("action_id", TStr); ("policy", TStr); ("delay_component", TStr); ("delay_ticks", TInt)].
Definition image_leaves : list (string * leaf_type) :=
  [("image_id", TStr); ("component", TStr); ("address", TInt); ("data_hex", TStr)].
Definition genome_leaves : list (string * leaf_type) :=
  [("testcase_id", TStr); ("direction", TStr); ("path_id", TStr); ("max_steps", TInt);
   ("encoding_version", TInt); ("quiesce_steps", TInt)].

(** A field of the dict is there, and holds a value of another type. *)
Definition foreign_leaf (leaves : list (string * leaf_type)) (d : list (string * JsonText.value)) : Prop :=
  ∃ k t v, (k, t) ∈ leaves ∧ od_get d k = Some v ∧ ¬ has_type t v.

(** All fields that are there have their types. *)
Definition typed_leaves (leaves : list (string * leaf_type)) (d : list (string * JsonText.value)) : Prop :=
  ∀ k t v, (k, t) ∈ leaves → od_get d k = Some v → has_type t v.

(** A dict with exactly these fields *)
Definition record_of (fields : list string) (d : list (string * JsonText.value)) : Prop :=
  ∀ k, k ∈ od_keys d ↔ k ∈ fields.
Definition holds_record (fields : list string) (P : list (string * JsonText.value) → Prop) (v : JsonText.value) : Prop :=
  ∃ d, v = VObj d ∧ record_of fields d ∧ P d.

Definition trigger_shaped : JsonText.value → Prop := holds_record trigger_fields (typed_leaves trigger_leaves).
Definition action_shaped : JsonText.value → Prop := holds_record action_fields (λ r,
  trigger_shaped (member r "trigger") ∧ typed_leaves action_leaves r).
Definition reset_shaped : JsonText.value → Prop := holds_record reset_fields (λ r,
  trigger_shaped (member r "trigger") ∧ typed_leaves reset_leaves r).
Definition image_shaped : JsonText.value → Prop := holds_record image_fields (typed_leaves image_leaves).

Definition foreign_trigger : JsonText.value → Prop := holds_record trigger_fields (foreign_leaf trigger_leaves).
Definition foreign_action : JsonText.value → Prop := holds_record action_fields (λ r,
  foreign_trigger (member r "trigger") ∨ foreign_leaf action_leaves r).
Definition foreign_reset : JsonText.value → Prop := holds_record reset_fields (λ r,
  foreign_trigger (member r "trigger") ∨ foreign_leaf reset_leaves r).
Definition foreign_image : JsonText.value → Prop := holds_record image_fields (foreign_leaf image_leaves).

(** The document is an object with exactly the fields of its version, whose
    lists are lists of records with exactly their fields. *)
Definition list_of (P : JsonText.value → Prop) (v : JsonText.value) : Prop := ∃ l, v = VArr l ∧ Forall P l.
Record document_shaped (d : list (string * JsonText.value)) : Prop := {
  ds_fields : record_of (base_fields ++
    match od_get d "encoding_version" with Some (VInt 3) => ["reset_actions"; "quiesce_steps"] | _ => [] end) d;
  ds_actions : list_of action_shaped (member d "actions");
  ds_order : list_of (has_type TStr) (member d "schedule_order");
  ds_images : list_of image_shaped (member d "initial_images");
  ds_resets v : od_get d "reset_actions" = Some v → list_of reset_shaped v;
  ds_leaves : typed_leaves genome_leaves d }.

(** A leaf of the document has another type than its annotation. *)
Definition in_list_of (P : JsonText.value → Prop) (v : JsonText.value) : Prop := ∃ l x, v = VArr l ∧ x ∈ l ∧ P x.
Definition foreign_document (d : list (string * JsonText.value)) : Prop :=
  foreign_leaf genome_leaves d ∨
  in_list_of (λ v, ¬ has_type TStr v) (member d "schedule_order") ∨
  in_list_of foreign_action (member d "actions") ∨
  in_list_of foreign_image (member d "initial_images") ∨
  in_list_of foreign_reset (member d "reset_actions").

(** The constructors return what they were given. *)
Lemma Trigger_same t t' : Trigger_post_init t = Ok t' → t' = t.
Proof. unfold Trigger_post_init. intros Ht. by inv_Ok. Qed.
Lemma Action_same a a' : Action_post_init a = Ok a' → a' = a.
Proof. unfold Action_post_init. intros Ha. by inv_Ok. Qed.
Lemma MemoryImage_same m m' : MemoryImage_post_init m = Ok m' → m' = m.
Proof. unfold MemoryImage_post_init. intros Hm. inv_Ok. case_match; by inv_Ok. Qed.
Lemma ResetAction_same r r' : ResetAction_post_init r = Ok r' → r' = r.
Proof. unfold ResetAction_post_init. intros Hr. by inv_Ok. Qed.
Lemma ScenarioGenome_same g g' : ScenarioGenome_post_init g = Ok g' → g' = g.
Proof. unfold ScenarioGenome_post_init. intros Hg. by inv_Ok. Qed.

(** *** Outcomes *)

(** A call answers with a value in [P], with a [ValueError], or goes on with a
    leaf of a foreign type, and then [F] holds. *)
Definition outcome {A} (P : A → Prop) (F : Prop) (m : decoded A) : Prop :=
  match m with
  | Typed (Ok a) => P a
  | Typed (Err e) => ∃ msg, e = ValueError msg
  | Foreign => F
  end.

Lemma outcome_bind {A B} (Q : A → Prop) (P : B → Prop) F m (f : A → decoded B) :
  outcome Q F m → (∀ a, Q a → outcome P F (f a)) → outcome P F (m ≫= f).
Proof. destruct m as [[a|e]|]; cbn; auto. Qed.
Lemma outcome_weaken {A} (P Q : A → Prop) (F G : Prop) m :
  outcome P F m → (∀ a, P a → Q a) → (F → G) → outcome Q G m.
Proof. destruct m as [[a|e]|]; cbn; auto. Qed.
Lemma outcome_only {A} (P : A → Prop) F (r : result A) :
  only_value_error r → (∀ a, r = Ok a → P a) → outcome P F (Typed r).
Proof. intros Hr HP. destruct r as [a|e]; [by apply HP|by apply Hr]. Qed.

Lemma record_has fields d k : record_of fields d → k ∈ fields → is_Some (od_get d k).
Proof. intros Hr Hk%Hr. destruct (od_get d k) as [v|] eqn:Hv; [by eexists|]. by apply od_get_None in Hv. Qed.
Lemma same_fields_record {V} (d : list (string * V)) fields :
  same_fields d fields = true → ∀ k, k ∈ od_keys d ↔ k ∈ fields.
Proof.
  unfold same_fields. rewrite andb_true_iff, !forallb_forall. setoid_rewrite <- list_elem_of_In. unfold has.
  setoid_rewrite bool_decide_eq_true. naive_solver.
Qed.

Section leaf_outcomes.
Context (leaves : list (string * leaf_type)) (d : list (string * JsonText.value)) (k : string).
Context (Hk : is_Some (od_get d k)).

Lemma outcome_str : (k, TStr) ∈ leaves →
  outcome (λ s, od_get d k = Some (VStr s)) (foreign_leaf leaves d) (str_leaf d k).
Proof.
  intros Hl. unfold str_leaf. destruct Hk as [v Hv]. rewrite Hv.
  destruct v; try done; (exists k, TStr; eexists; split_and!; [exact Hl|exact Hv|by intros []]).
Qed.
Lemma outcome_int : (k, TInt) ∈ leaves →
  outcome (λ z, od_get d k = Some (VInt z)) (foreign_leaf leaves d) (int_leaf d k).
Proof.
  intros Hl. unfold int_leaf. destruct Hk as [v Hv]. rewrite Hv.
  destruct v; try done; (exists k, TInt; eexists; split_and!; [exact Hl|exact Hv|by intros []]).
Qed.
Lemma outcome_optional : (k, TOptionalInt) ∈ leaves →
  outcome (λ z, od_get d k = Some (from_option VInt VNull z)) (foreign_leaf leaves d) (optional_int_leaf d k).
Proof.
  intros Hl. unfold optional_int_leaf. destruct Hk as [v Hv]. rewrite Hv.
  destruct v; try done; (exists k, TOptionalInt; eexists; split_and!; [exact Hl|exact Hv|by intros []]).
Qed.
End leaf_outcomes.

Lemma outcome_dict fields msg v :
  outcome (λ d, v = VObj d ∧ record_of fields d) False (dict_with fields msg v).
Proof.
  destruct v as [| | | | | |d]; try (by eexists). unfold dict_with, require.
  destruct (same_fields d fields) eqn:Hs; cbn; [|by eexists]. split; [done|].
  exact (same_fields_record d fields Hs).
Qed.
Lemma outcome_record {A} fields msg (Q : A → Prop) P F v f :
  (∀ d, record_of fields d → outcome (λ a, Q a ∧ P d) (F d) (f d)) →
  outcome (λ a, Q a ∧ holds_record fields P v) (holds_record fields F v)
    (d ← dict_with fields msg v; f d).
Proof.
  intros Hf. eapply outcome_bind; [eapply outcome_weaken; [apply outcome_dict|intros d Hd; exact Hd|done]|].
  intros d [-> Hrec]. eapply outcome_weaken; [by apply Hf| |].
  - intros a [Ha HP]. split; [done|]. by exists d.
  - intros HF. by exists d.
Qed.
Lemma outcome_list msg v : outcome (λ l, v = VArr l) False (list_or msg v).
Proof. destruct v; by eexists. Qed.

Lemma outcome_collect {A B} (P : A → B → Prop) (F : A → Prop) (f : A → decoded B) l :
  (∀ a, a ∈ l → outcome (P a) (F a) (f a)) →
  outcome (Forall2 P l) (∃ a, a ∈ l ∧ F a) (collect_each f l).
Proof.
  induction l as [|a l IH]; intros Hf; [by constructor|]. cbn [collect_each].
  eapply outcome_bind.
  { eapply outcome_weaken; [apply Hf; by left|intros b Hb; exact Hb|intros Ha; exists a; by split; [left|]]. }
  intros b Hb. eapply outcome_bind.
  { eapply outcome_weaken; [apply IH; intros x Hx; apply Hf; by right|intros bs Hbs; exact Hbs|].
    intros (x & Hx & Hfx). exists x. by split; [right|]. }
  intros bs Hbs. by constructor.
Qed.

(** Reads the next leaf of the dict whose record is [Hrec], by the table [leaves]. *)
Ltac read_leaf leaves Hrec :=
  eapply outcome_bind;
  [ eapply outcome_weaken;
    [ first [apply (outcome_str leaves) | apply (outcome_int leaves) | apply (outcome_optional leaves)];
      [ eapply record_has; [exact Hrec|closed_keys] | closed_keys ]
    | intros ? Hleaf; exact Hleaf
    | solve [auto] ]
  | intros ? ? ].
(** Every field of the table has been read. *)
Ltac all_read :=
  let k := fresh in let t := fresh in let v := fresh in let Hin := fresh in let Hv := fresh in
  intros k t v Hin Hv;
  repeat (apply elem_of_cons in Hin as [Hin|Hin]; [injection Hin as -> ->; simplify_eq/=; first [done | match goal with z : option Z |- _ => by destruct z end
    | match goal with H : ∀ v, _ → v = VInt _ |- _ => by rewrite (H _ Hv) end]|]);
  by apply not_elem_of_nil in Hin.

Lemma outcome_Trigger d : record_of trigger_fields d →
  outcome (λ t, Trigger_post_init t = Ok t ∧ typed_leaves trigger_leaves d) (foreign_leaf trigger_leaves d) (Trigger_of d).
Proof.
  intros Hrec. unfold Trigger_of. do 6 read_leaf trigger_leaves Hrec. apply outcome_only; [apply only_Trigger|].
  intros t Ht. pose proof (Trigger_same _ _ Ht) as ->. split; [done|all_read].
Qed.

(** The member [trigger] of an action or a reset. *)
Lemma outcome_member_Trigger {B} (P : B → Prop) (F : Prop) msg v f :
  (foreign_trigger v → F) →
  (∀ t, Trigger_post_init t = Ok t → trigger_shaped v → outcome P F (f t)) →
  outcome P F (d ← dict_with trigger_fields msg v; t ← Trigger_of d; f t).
Proof.
  intros HF Hf. rewrite decoded_assoc. eapply outcome_bind.
  - eapply outcome_weaken; [|intros t Ht; exact Ht|exact HF].
    apply outcome_record. apply outcome_Trigger.
  - intros t [Ht Hs]. by apply Hf.
Qed.

Definition action_ok (a : Action) : Prop :=
  Action_post_init a = Ok a ∧ Trigger_post_init (trigger a) = Ok (trigger a).
Lemma outcome_Action v :
  outcome (λ a, action_ok a ∧ action_shaped v) (foreign_action v) (decode_action v).
Proof.
  unfold decode_action. apply outcome_record. intros r Hrec.
  apply outcome_member_Trigger; [by left|]. intros t Ht Hs. do 9 read_leaf action_leaves Hrec.
  apply outcome_only; [apply only_Action|]. intros x Hx. pose proof (Action_same _ _ Hx) as ->.
  split_and!; [done..|all_read].
Qed.

Definition reset_ok (r : ResetAction) : Prop :=
  ResetAction_post_init r = Ok r ∧ Trigger_post_init (reset_trigger r) = Ok (reset_trigger r).
Lemma outcome_ResetAction v :
  outcome (λ r, reset_ok r ∧ reset_shaped v) (foreign_reset v) (decode_reset v).
Proof.
  unfold decode_reset. apply outcome_record. intros r Hrec.
  apply outcome_member_Trigger; [by left|]. intros t Ht Hs. do 4 read_leaf reset_leaves Hrec.
  apply outcome_only; [apply only_ResetAction|]. intros x Hx. pose proof (ResetAction_same _ _ Hx) as ->.
  split_and!; [done..|all_read].
Qed.

Lemma outcome_MemoryImage d : record_of image_fields d →
  outcome (λ m, MemoryImage_post_init m = Ok m ∧ typed_leaves image_leaves d)
    (foreign_leaf image_leaves d) (MemoryImage_of d).
Proof.
  intros Hrec. unfold MemoryImage_of. do 4 read_leaf image_leaves Hrec.
  apply outcome_only; [apply only_MemoryImage|]. intros m Hm. pose proof (MemoryImage_same _ _ Hm) as ->.
  split; [done|all_read].
Qed.

Lemma outcome_order_item v :
  outcome (λ _, has_type TStr v) (¬ has_type TStr v) (order_item v).
Proof. destruct v; cbn; auto. Qed.

Lemma outcome_version d :
  outcome (λ v3, match od_get d "encoding_version" with
                 | Some (VInt 3) => ["reset_actions"; "quiesce_steps"]
                 | _ => [] end = if (v3 : bool) then ["reset_actions"; "quiesce_steps"] else [])
    (foreign_leaf genome_leaves d) (is_version_3 d).
Proof.
  unfold is_version_3. destruct (od_get d "encoding_version") as [v|] eqn:Hv; [|done].
  destruct v as [| |z| | | |]; try done; cbn.
  - by destruct z as [|[[]| |]|].
  - exists "encoding_version", TInt. eexists. split_and!; [closed_keys|exact Hv|by intros []].
Qed.

(** The list of a field, and a comprehension over it. *)
Lemma outcome_each {A} (P : A → Prop) (S F : JsonText.value → Prop) G f l v :
  v = VArr l → (in_list_of F v → G) →
  (∀ x, outcome (λ a, P a ∧ S x) (F x) (f x)) →
  outcome (λ l', Forall P l' ∧ list_of S v) G (collect_each f l).
Proof.
  intros -> HG Hf. eapply outcome_weaken; [apply (outcome_collect (λ x a, P a ∧ S x) F); auto| |].
  - intros l' Hl. clear HG. split; [|exists l; split; [done|]]; (induction Hl as [|????[]]; by constructor).
  - intros (x & Hx & HF). apply HG. by exists l, x.
Qed.

(** The two loops over the images. *)
Lemma outcome_image_records msg l :
  outcome (Forall2 (λ v d, v = VObj d ∧ record_of image_fields d) l) False
    (collect_each (dict_with image_fields msg) l).
Proof.
  pose proof (outcome_collect (λ v d, v = VObj d ∧ record_of image_fields d) (λ _, False)
    (dict_with image_fields msg) l (λ v _, outcome_dict _ _ v)) as H.
  eapply outcome_weaken; [exact H|done|by intros (v & _ & [])].
Qed.
Lemma outcome_images l ds :
  Forall2 (λ v d, v = VObj d ∧ record_of image_fields d) l ds →
  outcome (λ ms, Forall (λ m, MemoryImage_post_init m = Ok m) ms ∧ list_of image_shaped (VArr l))
    (in_list_of foreign_image (VArr l)) (collect_each MemoryImage_of ds).
Proof.
  intros Hl. eapply outcome_weaken; [eapply outcome_collect| |].
  - intros d Hd. apply outcome_MemoryImage. apply list_elem_of_lookup in Hd as [i Hd].
    by destruct (Forall2_lookup_r _ _ _ _ _ Hl Hd) as (v & _ & _ & Hr).
  - intros ms Hms. split; [clear Hl; induction Hms as [|????[]]; by constructor|]. exists l. split; [done|].
    revert ms Hms. induction Hl as [|v d l ds [-> Hr] Hl IH]; intros ms Hms; [by constructor|].
    inversion_clear Hms as [|? ? ? ? [_ Ht]]. constructor; [by exists d|]. by eapply IH.
  - intros (d & Hd & HF). apply list_elem_of_lookup in Hd as [i Hd].
    destruct (Forall2_lookup_r _ _ _ _ _ Hl Hd) as (v & Hv & -> & Hr).
    exists l, (VObj d). split_and!; [done|by eapply list_elem_of_lookup_2|by exists d].
Qed.

Lemma outcome_resets d l G :
  default (VArr []) (od_get d "reset_actions") = VArr l →
  (in_list_of foreign_reset (member d "reset_actions") → G) →
  outcome (λ rs, Forall reset_ok rs ∧
                 ∀ v, od_get d "reset_actions" = Some v → list_of reset_shaped v)
    G (collect_each decode_reset l).
Proof.
  unfold member. intros Hl HG. destruct (od_get d "reset_actions") as [v|]; cbn in *; simplify_eq.
  - eapply outcome_weaken; [apply (outcome_each reset_ok reset_shaped foreign_reset G _ l (VArr l)); auto using outcome_ResetAction| |done].
    intros rs [Hrs Hs]. split; [done|]. by intros v [= <-].
  - cbn. split; [constructor|done].
Qed.

Lemma outcome_quiesce d :
  outcome (λ z, ∀ v, od_get d "quiesce_steps" = Some v → v = VInt z) (foreign_leaf genome_leaves d)
    match od_get d "quiesce_steps" with Some _ => int_leaf d "quiesce_steps" | None => mret 0 end.
Proof.
  destruct (od_get d "quiesce_steps") as [v|] eqn:Hv; [|done].
  eapply outcome_weaken; [apply (outcome_int genome_leaves); [by exists v|closed_keys]| |done].
  cbn. intros z Hz v' [= <-]. congruence.
Qed.

Lemma record_app_l fields more d k :
  record_of (fields ++ more) d → k ∈ fields → is_Some (od_get d k).
Proof. intros Hr Hk. eapply record_has; [exact Hr|]. apply elem_of_app. by left. Qed.

(** One step of [decode_fields], by the outcome [lem] of what it calls. *)
Ltac step lem :=
  eapply outcome_bind;
  [ eapply outcome_weaken; [apply lem|intros ? Hstep; exact Hstep|unfold foreign_document; tauto] | ].
(** The leaf [k] of a document with at least the base fields. *)
Ltac document_leaf Hrec :=
  eapply outcome_bind;
  [ eapply outcome_weaken;
    [ first [apply (outcome_str genome_leaves) | apply (outcome_int genome_leaves)];
      [eapply record_app_l; [exact Hrec|closed_keys]|closed_keys]
    | intros ? Hstep; exact Hstep
    | by left ]
  | ].

Lemma outcome_decode_fields d :
  outcome (λ g, genome_ok g ∧ document_shaped d) (foreign_document d) (decode_fields d).
Proof.
  unfold decode_fields. step outcome_version. intros v3 Hv3.
  eapply (outcome_bind (λ _, record_of (base_fields ++ if v3 then ["reset_actions"; "quiesce_steps"] else []) d)).
  { unfold require. destruct (same_fields d _) eqn:Hs; cbn; [|by eexists]. exact (same_fields_record _ _ Hs). }
  intros _ Hrec. pose proof Hrec as Hfields. rewrite <- Hv3 in Hfields.
  step outcome_list. intros al Hal.
  eapply outcome_bind.
  { apply (outcome_each action_ok action_shaped foreign_action _ _ al (member d "actions"));
      [done|unfold foreign_document; tauto|apply outcome_Action]. }
  intros acts [Hacts Hsa].
  step outcome_list. intros ol Hol. step outcome_list. intros il Hil.
  step outcome_image_records. intros ds Hds. step outcome_list. intros rl Hrl.
  eapply outcome_bind.
  { apply (outcome_resets _ _ _ Hrl). unfold foreign_document. tauto. }
  intros rs [Hrs Hsr]. eapply outcome_bind.
  { apply (outcome_each (λ _, True) (has_type TStr) (λ v, ¬ has_type TStr v) _ _ ol (member d "schedule_order"));
      [done|unfold foreign_document; tauto|].
    intros x. eapply outcome_weaken; [apply outcome_order_item|done|done]. }
  intros order [_ Hso]. eapply outcome_bind.
  { eapply outcome_weaken; [by apply outcome_images|intros ms Hms; exact Hms|].
    rewrite <- Hil. unfold foreign_document. tauto. }
  intros ms [Hms Hsi]. rewrite <- Hil in Hsi.
  document_leaf Hrec. intros s1 H1. document_leaf Hrec. intros s2 H2. document_leaf Hrec. intros s3 H3.
  document_leaf Hrec. intros z4 H4. document_leaf Hrec. intros z5 H5.
  step outcome_quiesce. intros z6 H6.
  apply outcome_only; [apply only_ScenarioGenome|].
  intros g Hg. pose proof (ScenarioGenome_same _ _ Hg) as ->. split; [by split|]. split; try done.
  clear Hfields. all_read.
Qed.

(** C16.  The type of [decode]: whatever the bytes, it answers with a genome,
    raises [ValueError], or goes on with a leaf of another JSON type than its
    annotation.  A genome comes only from a JSON object that is shaped as the
    annotations say, every object in it with exactly the fields of its record
    and every leaf of its type, and each of its records, nested ones included,
    is accepted by its constructor.  The third case arises only for a document
    in which such a leaf is present: a missing or an unknown field without one
    is a [ValueError].  (Python's JSON reader also raises [RecursionError] on very
    deeply nested text, which the model does not have.) *)
Theorem decoded_genome_is_typed raw :
  outcome (λ g, genome_ok g ∧ ∃ d, loads raw = Some (VObj d) ∧ document_shaped d)
    (∃ d, loads raw = Some (VObj d) ∧ foreign_document d)
    (decode raw).
Proof.
  unfold decode. eapply (outcome_bind (λ _, True)); [by destruct (utf8_valid raw); [|eexists]|].
  intros _ _. destruct (loads raw) as [[| | | | | |d]|]; try (by eexists).
  eapply outcome_weaken; [apply outcome_decode_fields| |].
  - intros g [Hg Hd]. split; [done|by exists d].
  - intros Hd. by exists d.
Qed.

(** ** From a genome to the far side of a chunked transfer *)

(** [decode] as the assembler calls it; [foreign] is what the code does with a
    document that holds a leaf of a foreign type. *)
Definition decode_with (foreign : string → result ScenarioGenome) (raw : string)
    : result ScenarioGenome :=
  match decode raw with Typed r => r | Foreign => foreign raw end.

(** Pieces at the offsets they have in the joined text. *)
Fixpoint placed (start : Z) (pieces : list string) : list (Z * string) :=
  match pieces with
  | [] => []
  | d :: pieces => (start, d) :: placed (start + strlen d) pieces
  end.

Lemma accept_next a d :
  assembler_ok a → _finished a = false → d ≠ EmptyString → _received a + strlen d ≤ total_bytes a →
  accept_chunk (_received a) d a = (Ok (), add_chunk (_received a) d a).
Proof.
  intros [Hc Hr Ht] Hf Hd Hlen. unfold accept_chunk. unfold_M. rewrite Hf. unfold _natural.
  assert (0 ≤ _received a) by (rewrite Hr; unfold strlen; lia).
  assert (empty d = false) as -> by (by apply bool_decide_eq_false).
  assert (od_get (_chunks a) (_received a) = None) as ->.
  { apply od_get_None. intros Hin. destruct (contiguous_keys _ _ Hc) as [Hk _].
    rewrite Forall_forall in Hk. apply Hk in Hin. rewrite Hr, raw_bytes_contiguous in Hin by done. lia. }
  rewrite (proj2 (Z.ltb_ge (_received a) 0)), Z.ltb_irrefl, Z.eqb_refl by lia.
  by rewrite (proj2 (Z.ltb_ge (total_bytes a) _)) by lia.
Qed.

Lemma accept_pieces pieces a :
  assembler_ok a → _finished a = false → Forall (λ d, d ≠ EmptyString) pieces →
  _received a + strlen (concat_chunks pieces) ≤ total_bytes a →
  ∃ a', for_eachM (λ c, accept_chunk c.1 c.2) (placed (_received a) pieces) a = (Ok (), a') ∧
        raw_bytes a' = raw_bytes a +:+ concat_chunks pieces ∧ assembler_ok a' ∧
        total_bytes a' = total_bytes a ∧ sha256_hex a' = sha256_hex a.
Proof.
  revert a. induction pieces as [|d l IH]; intros a Hok Hf Hl Hlen.
  { exists a. by rewrite append_empty_r. }
  apply Forall_cons in Hl as [Hd Hl].
  change (concat_chunks (d :: l)) with (d +:+ concat_chunks l) in *. rewrite strlen_app in Hlen.
  assert (0 ≤ strlen (concat_chunks l)) by (unfold strlen; lia).
  pose proof (accept_next a d Hok Hf Hd ltac:(lia)) as Hacc.
  destruct (IH (add_chunk (_received a) d a)) as (a' & Hrun & Hraw & Hok' & Ht & Hs); [|done..|cbn; lia|].
  { pose proof (proj2 (accept_chunk_cases a (_received a) d Hok)) as H'. by rewrite Hacc in H'. }
  exists a'. cbn [placed for_eachM]. unfold_M. cbn [fst snd]. rewrite Hacc.
  split; [exact Hrun|]. split_and!; [|done..].
  rewrite Hraw, (proj1 (raw_bytes_add a d Hok Hd)). by rewrite append_assoc.
Qed.

Lemma all_chars_app p s t : all_chars p (s +:+ t) = all_chars p s && all_chars p t.
Proof.
  induction s as [|c s IH]; [done|]. rewrite append_cons. cbn. rewrite IH. by destruct (p c).
Qed.

Lemma hex_digit_text n :
  0 ≤ n < 16 → String.length (hex_digit n) = 1%nat ∧ all_chars lower_hex (hex_digit n) = true.
Proof.
  intros Hn.
  assert (Hall : Forall (λ n, String.length (hex_digit n) = 1%nat ∧
                              all_chars lower_hex (hex_digit n) = true) (seqZ 0 16)).
  { by repeat constructor. }
  rewrite Forall_forall in Hall. apply Hall, elem_of_seqZ. lia.
Qed.

Lemma hex_bytes_text l :
  Forall is_byte l →
  String.length (hex_bytes l) = (2 * length l)%nat ∧ all_chars lower_hex (hex_bytes l) = true.
Proof.
  induction 1 as [|b l Hb Hl [IHn IHc]]; [done|]. cbn [hex_bytes length]. unfold is_byte in Hb.
  destruct (hex_digit_text (b `div` 16)) as [H1 H2]; [split; [apply Z.div_pos|apply Z.div_lt_upper_bound]; lia|].
  destruct (hex_digit_text (b `mod` 16)) as [H3 H4]; [apply Z.mod_pos_bound; lia|].
  unfold hex_byte. rewrite !append_length, !all_chars_app. rewrite H1, H2, H3, H4, IHn, IHc. split; [lia|done].
Qed.

Section transfer.
Context {hashlib : Hashlib}.

Lemma hexdigest_text s : strlen (hexdigest s) = 64 ∧ all_chars lower_hex (hexdigest s) = true.
Proof.
  destruct (hex_bytes_text (sha256 s)) as [Hl Hc]; [apply sha256_bytes|].
  unfold hexdigest, strlen. rewrite Hl, sha256_length. done.
Qed.

(** An encoded genome is never empty. *)
Lemma encode_nonempty g raw : encode g = Ok raw → 1 ≤ strlen raw.
Proof.
  unfold encode. intros He. inv_Ok. rewrite dumps_obj. rewrite strlen_app. unfold strlen. cbn. lia.
Qed.

(** C14.  A transfer delivers the genome: a genome that went through its
    constructors, encoded, cut into non-empty pieces anywhere and sent in order
    to a new assembler declared with the size and digest of the text, is
    accepted piece by piece, and [finish] returns that genome and closes the
    assembler. *)
Theorem transfer_delivers_the_genome foreign g raw pieces max :
  genome_ok g → encode g = Ok raw → concat_chunks pieces = raw →
  Forall (λ d, d ≠ EmptyString) pieces → strlen raw ≤ max →
  ∃ a0 a1,
    new_assembler (strlen raw) (hexdigest raw) max = Ok a0 ∧
    for_eachM (λ c, accept_chunk c.1 c.2) (placed 0 pieces) a0 = (Ok (), a1) ∧
    finish (decode_with foreign) a1 = (Ok g, set_finished a1).
Proof.
  intros Hok He Hp Hne Hmax. pose proof (encode_nonempty g raw He) as Hlen.
  destruct (hexdigest_text raw) as [Hl Hc].
  set (a0 := mkAssembler (strlen raw) (hexdigest raw) [] 0 false).
  assert (Hnew : new_assembler (strlen raw) (hexdigest raw) max = Ok a0).
  { unfold new_assembler, _natural. rewrite Hl, Hc.
    by rewrite (proj2 (Z.ltb_ge (strlen raw) 1)), (proj2 (Z.ltb_ge max 1)),
      (proj2 (Z.ltb_ge max (strlen raw))) by lia. }
  destruct (accept_pieces pieces a0) as (a1 & Hrun & Hraw & Hok1 & Ht & Hs);
    [by eapply new_assembler_ok|done|done|cbn; rewrite Hp; lia|].
  exists a0, a1. split_and!; [exact Hnew|exact Hrun|].
  change (raw_bytes a1 = EmptyString +:+ concat_chunks pieces) in Hraw.
  change (EmptyString +:+ ?s) with s in Hraw. rewrite Hp in Hraw.
  unfold finish. unfold_M. rewrite (asm_received a1 Hok1), Hraw, Ht, Hs. cbn [total_bytes sha256_hex].
  rewrite Z.eqb_refl, bool_decide_eq_true_2 by done. cbn [negb raise_if].
  unfold decode_with. by rewrite (decode_written g raw Hok He).
Qed.
End transfer.

(** *** The hypotheses are satisfiable *)

Module Example_codec.
Definition start : Trigger := mkTrigger "START" "" "" 0 0 1.
Definition after : Trigger := mkTrigger "AFTER_OUTPUT" "gpio0" "out" 255 3 2.
Definition genome : ScenarioGenome :=
  mkGenome "case \ 7" "IP_TO_CPU" "path/é" ["cpu0"; "gpio0"] 400
    [mkAction "a1" "gpio0" "in" 65535 "IP_TO_CPU" start "" 0 0 None;
     mkAction "a2" "cpu0" "irq" 1 "CPU_TO_IP" after "cpu0" 12 4 (Some 1)]
    [mkImage "boot" "cpu0" 128 "13000000"] 3
    [mkReset "r1" "warm_all" after "gpio0" 5] 16.

Lemma genome_is_ok : genome_ok genome.
Proof. by split; [repeat constructor..|]. Qed.

(** The text [encode] writes, cut after its first ten bytes. *)
Definition text : string := match encode genome with Ok raw => raw | Err _ => EmptyString end.
Definition pieces : list string :=
  [String.substring 0 10 text; String.substring 10 (String.length text - 10) text].

Lemma decode_encode_witness :
  genome_ok genome ∧ encode genome = Ok text ∧ decode text = Typed (Ok genome).
Proof.
  assert (He : encode genome = Ok text) by (vm_compute; reflexivity).
  split_and!; [exact genome_is_ok|exact He|].
  pose proof (decode_encode genome genome_is_ok) as H. rewrite He in H. exact H.
Defined.

Lemma transfer_delivers_the_genome_witness :
  concat_chunks pieces = text ∧
  ∃ a0 a1,
    new_assembler (strlen text) (hexdigest (H := checksum_hashlib) text) 1048576 = Ok a0 ∧
    for_eachM (λ c, accept_chunk c.1 c.2) (placed 0 pieces) a0 = (Ok (), a1) ∧
    finish (H := checksum_hashlib) (decode_with (λ _, Err (OtherError "TypeError"))) a1
    = (Ok genome, set_finished a1).
Proof.
  assert (Hp : concat_chunks pieces = text) by (vm_compute; reflexivity).
  split; [exact Hp|].
  apply (transfer_delivers_the_genome (hashlib := checksum_hashlib) (λ _, Err (OtherError "TypeError")) genome text pieces).
  - exact genome_is_ok.
  - vm_compute. reflexivity.
  - exact Hp.
  - apply Forall_cons_2, Forall_cons_2, Forall_nil_2; vm_compute; discriminate.
  - vm_compute. discriminate.
Defined.
End Example_codec.
