(* ===== verification/Rv32iSources.v ===== *)
(** * Constrained RV32I program sources

    Models [src/src/myfuzz/scenario/rv32i_sources.py]: the instruction record
    with its constructor checks and encoder, the MMIO fragments, the seeded
    mutations, the decoder of RFuzz bytes and the admission checker
    [validate_instruction_bytes].  A refusal carries the code and pointer of
    [rejection_codes.reject]; its diagnostic detail mapping is left out. *)

From S2P Require Import Prelude Json Isa Transducer Genome.

Local Open Scope Z_scope.

(** [rejection_codes.reject] *)
Definition reject {A} (code msg pointer : string) : result A := Err (RejectionError code msg pointer).
Definition reject_if (c : bool) (code msg pointer : string) : result () :=
  raise_if c (RejectionError code msg pointer).

Definition _OPERATIONS : list string :=
  ["LUI"; "ADDI"; "XORI"; "ORI"; "ANDI"; "AND"; "OR"; "SLLI"; "SRLI"; "SRAI"; "LW"; "SW"; "SB"; "NOP"].
Definition _SHIFT_OPERATIONS : list string := ["SLLI"; "SRLI"; "SRAI"].
Definition _REGISTER_LOGIC_OPERATIONS : list string := ["AND"; "OR"].
Definition _MEMORY_OPERATIONS : list string := ["LW"; "SW"; "SB"].

Definition _register (value : Z) (name pointer : string) : result () :=
  reject_if ((value <? 0) || negb (value <? 32)) "field.bad_register"
    (name +:+ " must be an RV32I register number 0..31") pointer.

Definition _signed_12 (value : Z) : result () :=
  reject_if ((value <? - 2048) || negb (value <? 2048)) "field.bad_immediate"
    "immediate must fit signed 12 bits" "instruction.immediate".

Record Rv32iInstruction := mkInstruction {
  operation : string;
  rd : Z;
  rs1 : Z;
  rs2 : Z;
  immediate : Z }.

#[export] Instance Rv32iInstruction_eq_dec : EqDecision Rv32iInstruction.
Proof. solve_decision. Defined.

Definition eqs (a b : string) : bool := bool_decide (a = b).

(** [Rv32iInstruction.__post_init__] *)
Definition Rv32iInstruction_post_init (i : Rv32iInstruction) : result Rv32iInstruction :=
  let op := operation i in
  reject_if (negb (has op _OPERATIONS)) "isa.disallowed_operation"
    "unsupported first-stage RV32I operation" "instruction.operation" ;;
  _register (rd i) "rd" "instruction.rd" ;;
  _register (rs1 i) "rs1" "instruction.rs1" ;;
  _register (rs2 i) "rs2" "instruction.rs2" ;;
  (if eqs op "LUI" then
     reject_if ((immediate i <? 0) || negb (immediate i <? 2 ^ 20)) "field.bad_immediate"
       "LUI immediate must fit unsigned 20 bits" "instruction.immediate" ;;
     reject_if (negb (rs1 i =? 0) || negb (rs2 i =? 0)) "isa.unexpected_operand"
       "LUI has no source registers"
       ("instruction." +:+ (if negb (rs1 i =? 0) then "rs1" else "rs2"))
   else if has op _REGISTER_LOGIC_OPERATIONS then
     reject_if (negb (immediate i =? 0)) "field.bad_immediate"
       "register logic instructions have no immediate" "instruction.immediate"
   else if eqs op "NOP" then
     reject_if (negb (rd i =? 0) || negb (rs1 i =? 0) || negb (rs2 i =? 0)
                || negb (immediate i =? 0)) "isa.unexpected_operand" "NOP has no operands"
       ("instruction." +:+ (if negb (rd i =? 0) then "rd" else if negb (rs1 i =? 0) then "rs1"
                            else if negb (rs2 i =? 0) then "rs2" else "immediate"))
   else if has op _SHIFT_OPERATIONS then
     reject_if ((immediate i <? 0) || negb (immediate i <? 32)) "field.bad_shamt"
       "shift amount must be an RV32I shamt 0..31" "instruction.shamt" ;;
     reject_if (negb (rs2 i =? 0)) "isa.unexpected_operand" (op +:+ " has no rs2") "instruction.rs2"
   else
     _signed_12 (immediate i) ;;
     reject_if (has op ["ADDI"; "XORI"; "ORI"; "ANDI"; "LW"] && negb (rs2 i =? 0))
       "isa.unexpected_operand" (op +:+ " has no rs2") "instruction.rs2" ;;
     reject_if (has op ["SW"; "SB"] && negb (rd i =? 0))
       "isa.unexpected_operand" (op +:+ " has no rd") "instruction.rd" ;;
     reject_if (has op ["LW"; "SW"] && negb (immediate i `mod` 4 =? 0))
       "field.bad_alignment" "LW/SW offset must be word aligned" "instruction.immediate") ;;
  mret i.

(** The constructor call [Rv32iInstruction(op, rd=, rs1=, rs2=, immediate=)]. *)
Definition instruction (op : string) (rd rs1 rs2 imm : Z) : result Rv32iInstruction :=
  Rv32iInstruction_post_init (mkInstruction op rd rs1 rs2 imm).

(** [Rv32iInstruction.word] *)
Definition instruction_word (i : Rv32iInstruction) : Z :=
  let op := operation i in
  let imm := immediate i in
  if eqs op "NOP" then 0x00000013
  else if eqs op "LUI" then (imm ≪ 12) ||| (rd i ≪ 7) ||| 0x37
  else if has op _REGISTER_LOGIC_OPERATIONS then
    (rs2 i ≪ 20) ||| (rs1 i ≪ 15) ||| ((if eqs op "AND" then 7 else 6) ≪ 12) ||| (rd i ≪ 7) ||| 0x33
  else if has op _SHIFT_OPERATIONS then
    let funct3 := if eqs op "SLLI" then 1 else 5 in
    let shift := if eqs op "SRAI" then imm ||| 0x400 else imm in
    ((shift &&& 0xfff) ≪ 20) ||| (rs1 i ≪ 15) ||| (funct3 ≪ 12) ||| (rd i ≪ 7) ||| 0x13
  else if has op ["ADDI"; "XORI"; "ORI"; "ANDI"; "LW"] then
    let '(funct3, opcode) :=
      if eqs op "LW" then (2, 0x03)
      else (if eqs op "ADDI" then 0 else if eqs op "XORI" then 4 else if eqs op "ORI" then 6 else 7, 0x13) in
    ((imm &&& 0xfff) ≪ 20) ||| (rs1 i ≪ 15) ||| (funct3 ≪ 12) ||| (rd i ≪ 7) ||| opcode
  else
    let funct3 := if eqs op "SW" then 2 else 0 in
    (((imm ≫ 5) &&& 0x7f) ≪ 25) ||| (rs2 i ≪ 20) ||| (rs1 i ≪ 15) ||| (funct3 ≪ 12)
    ||| ((imm &&& 0x1f) ≪ 7) ||| 0x23.

(** ** MMIO windows and fragments *)

Record MmioWindow := mkWindow {
  base : Z;
  size : Z;
  readable : bool;
  writable : bool;
  write_widths : list Z }.

(** [MmioWindow.__post_init__] *)
Definition MmioWindow_post_init (w : MmioWindow) : result MmioWindow :=
  let message := "MMIO window must fit a nonempty RV32 address range" in
  reject_if ((base w <? 0) || negb (base w <? 2 ^ 32)) "mmio.bad_window" message "window.base" ;;
  reject_if (size w <=? 0) "mmio.bad_window" message "window.size" ;;
  reject_if (2 ^ 32 <? base w + size w) "mmio.bad_window" message "window.range" ;;
  reject_if (negb (readable w || writable w)) "mmio.bad_permission"
    "MMIO window must permit a read or write" "window.permissions" ;;
  reject_if (bool_decide (length (write_widths w) = 0%nat)
             || negb (forallb (λ x, in_list x [1; 4]) (write_widths w))
             || negb (bool_decide (NoDup (write_widths w))))
    "mmio.bad_width" "MMIO write widths must be a unique tuple of 1 and/or 4"
    "window.write_widths" ;;
  mret w.

(** [MmioWindow.contains] *)
Definition contains (w : MmioWindow) (address width : Z) : bool :=
  (0 <? width) && (base w <=? address) && (address + width <=? base w + size w).

(** [_split_address] *)
Definition _split_address (address : Z) : Z * Z :=
  let low := ((address &&& 0xfff) + 0x800) `mod` 0x1000 - 0x800 in
  let high := ((address - low) ≫ 12) &&& 0xfffff in
  (high, low).

Definition _windows_argument (windows : list MmioWindow) : result () :=
  reject_if (bool_decide (length windows = 0%nat)) "mmio.no_window"
    "at least one MMIO window is required" "mmio.windows".

Definition permits (operation : string) (w : MmioWindow) : bool :=
  if eqs operation "LW" then readable w else writable w.

(** [mmio_access_fragment] *)
Definition mmio_access_fragment (operation : string) (address : Z) (windows : list MmioWindow)
    (base_register data_register : Z) : result (list Rv32iInstruction) :=
  reject_if (negb (has operation _MEMORY_OPERATIONS)) "isa.disallowed_operation"
    "MMIO access must be LW, SW, or SB" "mmio.operation" ;;
  _windows_argument windows ;;
  _register base_register "base_register" "mmio.base_register" ;;
  _register data_register "data_register" "mmio.data_register" ;;
  reject_if (base_register =? 0) "field.register_conflict"
    "MMIO base and data registers must be distinct nonzero registers" "mmio.base_register" ;;
  reject_if ((data_register =? 0) || (base_register =? data_register)) "field.register_conflict"
    "MMIO base and data registers must be distinct nonzero registers" "mmio.data_register" ;;
  let width := if eqs operation "SB" then 1 else 4 in
  reject_if ((address <? 0) || negb (address <? 2 ^ 32)) "field.bad_address"
    "MMIO address must fit RV32" "mmio.address" ;;
  reject_if (negb (address `mod` width =? 0)) "field.bad_alignment"
    "MMIO access address is misaligned" "mmio.address" ;;
  let containing := filter (λ w, contains w address width = true) windows in
  reject_if (bool_decide (length containing = 0%nat)) "mmio.out_of_window"
    "MMIO access is outside declared target windows" "mmio.address" ;;
  reject_if (negb (existsb (permits operation) containing))
    (if eqs operation "LW" then "mmio.write_only" else "mmio.read_only")
    "MMIO access is not permitted by declared target windows" "mmio.address" ;;
  reject_if (negb (eqs operation "LW")
             && negb (existsb (λ w, writable w && in_list width (write_widths w)) containing))
    "mmio.bad_width" "MMIO access width is not supported by declared target windows" "mmio.width" ;;
  let '(high, low) := _split_address address in
  load_base ← instruction "LUI" base_register 0 0 high;
  access ← (if eqs operation "LW" then instruction "LW" data_register base_register 0 low
            else instruction operation 0 base_register data_register low);
  mret [load_base; access].

(** [mmio_write_fragment] *)
Definition mmio_write_fragment (operation : string) (address value : Z) (windows : list MmioWindow)
    (base_register data_register : Z) : result (list Rv32iInstruction) :=
  reject_if (negb (has operation ["SW"; "SB"])) "isa.disallowed_operation"
    "MMIO write must be SW or SB" "mmio.operation" ;;
  reject_if ((value <? 0) || negb (value <? 2 ^ 32)) "field.bad_immediate"
    "MMIO write value must fit RV32" "mmio.value" ;;
  access ← mmio_access_fragment operation address windows base_register data_register;
  let '(high, low) := _split_address value in
  s1 ← instruction "LUI" data_register 0 0 high;
  s2 ← instruction "ADDI" data_register data_register 0 low;
  mret ([s1; s2] ++ access).

(** [(window.base + width - 1) // width * width] *)
Definition align_up (x width : Z) : Z := (x + width - 1) `div` width * width.

(** [entropy[a:b]] *)
Definition slice (l : list Z) (a b : nat) : list Z := take (b - a) (drop a l).
Definition byte_at (l : list Z) (i : nat) : Z := nth i l 0.

(** [mutate_mmio_access]; [entropy] is a [bytes] object. *)
Definition mutate_mmio_access (operation : string) (entropy : list Z) (windows : list MmioWindow)
    (base_register data_register : Z) : result (list Rv32iInstruction) :=
  reject_if (bool_decide (length entropy < 4)%nat) "decode.malformed_entropy"
    "MMIO mutation requires at least four entropy bytes" "mutation.entropy" ;;
  _windows_argument windows ;;
  reject_if (negb (has operation _MEMORY_OPERATIONS)) "isa.disallowed_operation"
    "MMIO access must be LW, SW, or SB" "mmio.operation" ;;
  let width := if eqs operation "SB" then 1 else 4 in
  let accessible := filter (λ w, permits operation w = true) windows in
  reject_if (bool_decide (length accessible = 0%nat)) "mmio.window_denied"
    "no MMIO window permits this operation" "mmio.operation" ;;
  let width_permitted :=
    filter (λ w, (eqs operation "LW" || in_list width (write_widths w)) = true) accessible in
  reject_if (bool_decide (length width_permitted = 0%nat)) "mmio.bad_width"
    ("no MMIO window supports " +:+ operation +:+ " access width") "mmio.width" ;;
  let permitted :=
    filter (λ w, (align_up (base w) width + width <=? base w + size w) = true) width_permitted in
  reject_if (bool_decide (length permitted = 0%nat)) "mmio.no_aligned_address"
    ("no MMIO window has an aligned " +:+ operation +:+ " address") "mmio.windows" ;;
  window ← (match permitted !! Z.to_nat (byte_at entropy 0 `mod` Z.of_nat (length permitted)) with
            | Some w => Ok w | None => Err (IndexError "tuple index out of range") end);
  let first := align_up (base window) width in
  let slots := (base window + size window - width - first) `div` width + 1 in
  let address := first + (from_le (slice entropy 1 4) `mod` slots) * width in
  mmio_access_fragment operation address windows base_register data_register.

(** ** Seeded mutation of one instruction *)

Definition sign_12 (raw : Z) : Z := if negb (raw &&& 0x800 =? 0) then raw - 0x1000 else raw.

(** [mutate_instruction] *)
Definition mutate_instruction (seed : Rv32iInstruction) (entropy : list Z)
    : result Rv32iInstruction :=
  reject_if (bool_decide (length entropy < 4)%nat) "decode.malformed_entropy"
    "instruction seed and at least four entropy bytes are required" "mutation.entropy" ;;
  let field := byte_at entropy 0 `mod` 3 in
  let raw_12 := from_le (slice entropy 1 3) &&& 0xfff in
  let signed := sign_12 raw_12 in
  let register := byte_at entropy 3 &&& 31 in
  let op := operation seed in
  if eqs op "NOP" then mret seed
  else if eqs op "LUI" then
    let imm := from_le (slice entropy 0 4) &&& 0xfffff in
    instruction op (if field =? 0 then register else rd seed) 0 0
      (if negb (field =? 0) then imm else immediate seed)
  else if has op _SHIFT_OPERATIONS then
    instruction op (if field =? 0 then register else rd seed)
      (if field =? 1 then register else rs1 seed) 0
      (if field =? 2 then register else immediate seed)
  else if has op ["ADDI"; "XORI"; "ORI"; "ANDI"; "LW"] then
    let imm := if eqs op "LW" then signed &&& Z.lnot 3 else signed in
    instruction op (if field =? 0 then register else rd seed)
      (if (field =? 1) && negb (eqs op "LW") then register else rs1 seed) 0
      (if field =? 2 then imm else immediate seed)
  else
    let imm := if eqs op "SW" then signed &&& Z.lnot 3 else signed in
    instruction op 0 (rs1 seed) (if field =? 0 then register else rs2 seed)
      (if negb (field =? 0) then imm else immediate seed).

(** ** Fragments *)

(** [fragment_bytes] *)
Definition fragment_bytes (instructions : list Rv32iInstruction) : result (list Z) :=
  reject_if (bool_decide (length instructions = 0%nat)) "fragment.invalid_sequence"
    "a nonempty RV32I instruction tuple is required" "fragment.instructions" ;;
  mret (concat (map (λ i, to_le 4 (instruction_word i)) instructions)).

(** [fragment_image] *)
Definition fragment_image (image_id component : string) (address : Z)
    (instructions : list Rv32iInstruction) : result MemoryImage :=
  reject_if ((address <? 0) || negb (address <? 2 ^ 32)) "field.bad_address"
    "program image address must be a 32-bit RV32 byte address" "image.address" ;;
  reject_if (negb (address `mod` 4 =? 0)) "field.bad_alignment"
    "program image address must be word aligned" "image.address" ;;
  data ← fragment_bytes instructions;
  reject_if (2 ^ 32 <? address + Z.of_nat (length data)) "fragment.exceeds_address_space"
    "program fragment exceeds RV32 address space" "image.address" ;;
  MemoryImage_post_init (mkImage image_id component address (hex_bytes data)).

(** The F1 compressed pair: straight-line ALU words on x12..x15. *)
Definition safe_compressed (half : Z) : bool :=
  let quadrant := half &&& 3 in
  let funct3 := (half ≫ 13) &&& 7 in
  let rd := (half ≫ 7) &&& 31 in
  let rs2 := (half ≫ 2) &&& 31 in
  let compact_rd := 8 + ((half ≫ 7) &&& 7) in
  let compact_rs2 := 8 + ((half ≫ 2) &&& 7) in
  let between x := (12 <=? x) && (x <=? 15) in
  (quadrant =? 1) && in_list funct3 [0; 2; 3] && between rd
  || (quadrant =? 1) && (funct3 =? 4) && between compact_rd
     && (negb ((half ≫ 10) &&& 3 =? 3) || between compact_rs2)
  || (quadrant =? 2) && (funct3 =? 0) && between rd
  || (quadrant =? 2) && (funct3 =? 4) && between rd && between rs2.

Definition fragment_pointer (offset : Z) (suffix : string) : string :=
  "fragment[" +:+ pretty offset +:+ "]" +:+ suffix.

(** One 32-bit group of [_check_instruction_bytes] at byte [offset]. *)
Definition check_word (isa : option IsaContract) (offset word : Z) : result () :=
  if negb (word &&& 3 =? 3) then
    match isa with
    | Some c =>
        reject_if (negb (has "C" (extensions c)) || negb (instruction_alignment c =? 2))
          "isa.disallowed_operation" "compressed instruction requires declared C extension"
          (fragment_pointer offset EmptyString) ;;
        for_each (λ half_offset,
          let half := (word ≫ (8 * half_offset)) &&& 0xffff in
          reject_if (negb (safe_compressed half) || negb (is_legal_word c half true))
            "isa.disallowed_operation" "F1 compressed pair requires safe straight-line ALU words"
            (fragment_pointer (offset + half_offset) EmptyString)) [0; 2]
    | None =>
        reject "isa.disallowed_operation" "compressed instruction requires declared C extension"
          (fragment_pointer offset EmptyString)
    end
  else
  let opcode := word &&& 0x7f in
  let funct3 := (word ≫ 12) &&& 7 in
  if (opcode =? 0x37) || ((opcode =? 0x13) && in_list funct3 [0; 2; 3; 4; 6; 7]) then mret ()
  else if (opcode =? 0x33) && is_legal_word (default (mkIsa 32 ["I"] ["M"] 4) isa) word false
  then mret ()
  else
  if (opcode =? 0x13) && in_list funct3 [1; 5] then
    let imm := (word ≫ 20) &&& 0xfff in
    let reserved := imm ≫ 5 in
    if (reserved =? 0) || ((funct3 =? 5) && (reserved =? 0x20)) then mret ()
    else reject "isa.reserved_imm_bit" "unsupported RV32I shift immediate encoding"
           (fragment_pointer offset ".immediate")
  else if (opcode =? 0x03) && (funct3 =? 2) then
    let imm := (word ≫ 20) &&& 0xfff in
    if imm `mod` 4 =? 0 then mret ()
    else reject "field.bad_alignment" "unsupported first-stage RV32I instruction encoding"
           (fragment_pointer offset ".immediate")
  else if (opcode =? 0x23) && in_list funct3 [0; 2] then
    let imm := ((word ≫ 25) ≪ 5) ||| ((word ≫ 7) &&& 31) in
    if (funct3 =? 0) || (imm `mod` 4 =? 0) then mret ()
    else reject "field.bad_alignment" "unsupported first-stage RV32I instruction encoding"
           (fragment_pointer offset ".immediate")
  else if opcode =? 0x13 then
    reject "isa.disallowed_operation"
      ("unsupported RV32I OP-IMM funct3 " +:+ pretty funct3 +:+ " at byte offset " +:+ pretty offset)
      (fragment_pointer offset ".funct3")
  else reject "isa.disallowed_operation" "unsupported first-stage RV32I instruction encoding"
         (fragment_pointer offset EmptyString).

(** The loop over [range(0, len(data), 4)]. *)
Fixpoint check_words (isa : option IsaContract) (offset : Z) (data : list Z) : result () :=
  match data with
  | b0 :: b1 :: b2 :: b3 :: rest =>
      check_word isa offset (from_le [b0; b1; b2; b3]) ;;
      check_words isa (offset + 4) rest
  | _ => mret ()
  end.

(** [_check_instruction_bytes], which is [validate_instruction_bytes] *)
Definition validate_instruction_bytes (isa : option IsaContract) (data : list Z) : result () :=
  reject_if (bool_decide (length data = 0%nat) || negb (Z.of_nat (length data) `mod` 4 =? 0))
    "decode.malformed_record" "instruction fragment requires complete 32-bit words"
    "fragment.data" ;;
  check_words isa 0 data.

(** ** The decoder of RFuzz bytes *)

Definition default_mmio_operations : list string := ["LW"; "SW"; "SB"].

(** Choice 2: the arithmetic fragments. *)
Definition arithmetic_fragment (raw : list Z) (register : Z) : result (list Rv32iInstruction) :=
  let imm := sign_12 (from_le (slice raw 2 4) &&& 0xfff) in
  let edit := byte_at raw 6 &&& 0xc0 in
  if negb (edit =? 0) then
    base0 ← instruction "LUI" register 0 0 (from_le (slice raw 7 11) &&& 0xfffff);
    base1 ← instruction "ADDI" register register 0 imm;
    if edit =? 0x80 then mret [base0]
    else if edit =? 0xc0 then
      let xor_immediate := sign_12 (from_le (slice raw 4 6) &&& 0xfff) in
      x ← instruction "XORI" register register 0 xor_immediate;
      mret [base0; x; base1]
    else mret [base0; base1]
  else if negb (byte_at raw 4 &&& 0x20 =? 0) then
    let operation := nth (Z.to_nat (byte_at raw 6 `mod` 3)) _SHIFT_OPERATIONS EmptyString in
    i ← instruction operation register (byte_at raw 4 &&& 31) 0 (imm &&& 31); mret [i]
  else
    let operation :=
      match negb (byte_at raw 4 &&& 0x80 =? 0), negb (byte_at raw 4 &&& 0x40 =? 0) with
      | false, false => "ADDI" | false, true => "ORI"
      | true, false => "XORI" | true, true => "ANDI"
      end in
    i ← instruction operation register (byte_at raw 4 &&& 31) 0 imm; mret [i].

(** The choices above 2: a bounded MMIO access. *)
Definition access_fragment_of (raw : list Z) (operation : string) (windows : list MmioWindow)
    : result (list Rv32iInstruction) :=
  access ← mutate_mmio_access operation (slice raw 1 5) windows 1 2;
  if eqs operation "LW" then mret access
  else
    let '(high, low) := _split_address (from_le (slice raw 8 12)) in
    s1 ← instruction "LUI" 2 0 0 high;
    s2 ← instruction "ADDI" 2 2 0 low;
    mret ([s1; s2] ++ access).

(** [decode_instruction_fragment]; [entropy] is a [bytes] object. *)
Definition decode_instruction_fragment (entropy : list Z) (windows : list MmioWindow)
    (allowed_mmio_operations : list string) : result (list Rv32iInstruction) :=
  reject_if (bool_decide (length entropy = 0%nat)) "decode.malformed_entropy"
    "instruction entropy must be nonempty bytes" "mutation.entropy" ;;
  reject_if (bool_decide (length allowed_mmio_operations = 0%nat)
             || negb (forallb (λ o, has o _MEMORY_OPERATIONS) allowed_mmio_operations)
             || negb (unique allowed_mmio_operations))
    "isa.disallowed_operation"
    "allowed MMIO operations must be a nonempty unique tuple of LW, SW, SB"
    "mmio.allowed_operations" ;;
  let raw := take 12 (entropy ++ replicate 12 0) in
  let allowed := Z.of_nat (length allowed_mmio_operations) in
  let choice := byte_at raw 0 `mod`
    (if bool_decide (length windows = 0%nat) then 3 else 3 + allowed) in
  let register := 1 + byte_at raw 1 `mod` 31 in
  if choice =? 0 then i ← instruction "NOP" 0 0 0 0; mret [i]
  else if choice =? 1 then
    i ← instruction "LUI" register 0 0 (from_le (slice raw 2 6) &&& 0xfffff); mret [i]
  else if choice =? 2 then
    arithmetic_fragment raw register
  else
    access_fragment_of raw (nth (Z.to_nat (choice - 3)) allowed_mmio_operations EmptyString) windows.
