(* ===== verification/Rv32iSpec.v ===== *)
(** * What the RV32I sources promise

    Every instruction the constructor accepts encodes to a 32-bit word that
    the admission checker accepts; every decoded fragment can be admitted; an
    MMIO fragment addresses exactly the requested address inside a permitted
    window; mutations keep the operation and stay legal. *)

From S2P Require Import Prelude Json Isa Transducer Genome Rv32iSources.

Local Open Scope Z_scope.

(** ** Encodings as sums of fields *)

Lemma land_3 w : w &&& 3 = w `mod` 4. Proof. apply (Z.land_ones w 2). lia. Qed.
Lemma land_7 w : w &&& 7 = w `mod` 8. Proof. apply (Z.land_ones w 3). lia. Qed.
Lemma land_31 w : w &&& 31 = w `mod` 32. Proof. apply (Z.land_ones w 5). lia. Qed.
Lemma land_127 w : w &&& 127 = w `mod` 128. Proof. apply (Z.land_ones w 7). lia. Qed.
Lemma land_4095 w : w &&& 4095 = w `mod` 4096. Proof. apply (Z.land_ones w 12). lia. Qed.
Lemma land_fffff w : w &&& 0xfffff = w `mod` 2 ^ 20. Proof. apply (Z.land_ones w 20). lia. Qed.

(** Reads fields arithmetically. *)
Ltac arith_fields :=
  rewrite ?land_3, ?land_7, ?land_31, ?land_127, ?land_4095, ?land_fffff;
  rewrite ?Z.shiftr_div_pow2 by lia.

Lemma bits_small b k n : 0 ≤ b < 2 ^ k → 0 ≤ k ≤ n → Z.testbit b n = false.
Proof.
  intros Hb Hk. destruct (decide (b = 0)) as [->|]; [apply Z.bits_0|].
  apply Z.bits_above_log2; [lia|]. apply Z.log2_lt_pow2; [lia|].
  apply Z.lt_le_trans with (2 ^ k); [lia|]. apply Z.pow_le_mono_r; lia.
Qed.

Lemma lor_add a b k : 0 ≤ k → 0 ≤ b < 2 ^ k → (a ≪ k) ||| b = a * 2 ^ k + b.
Proof.
  intros Hk Hb. rewrite <- Z.shiftl_mul_pow2 by done. symmetry.
  assert (Hd : (a ≪ k) &&& b = 0).
  { apply Z.bits_inj'. intros n Hn. rewrite Z.land_spec, Z.bits_0.
    destruct (decide (n < k)); [by rewrite Z.shiftl_spec_low|].
    rewrite (bits_small b k) by lia. apply andb_false_r. }
  rewrite <- Z.lxor_lor by done. by apply Z.add_nocarry_lxor.
Qed.

(** [imm | rs1 | funct3 | rd | opcode] *)
Definition i_word (imm rs1 funct3 rd opcode : Z) : Z :=
  imm * 2 ^ 20 + (rs1 * 2 ^ 15 + (funct3 * 2 ^ 12 + (rd * 2 ^ 7 + opcode))).

Lemma i_word_lor imm rs1 funct3 rd opcode :
  0 ≤ imm < 4096 → 0 ≤ rs1 < 32 → 0 ≤ funct3 < 8 → 0 ≤ rd < 32 → 0 ≤ opcode < 128 →
  (imm ≪ 20) ||| (rs1 ≪ 15) ||| (funct3 ≪ 12) ||| (rd ≪ 7) ||| opcode =
  i_word imm rs1 funct3 rd opcode.
Proof.
  intros. unfold i_word. rewrite <- !Z.lor_assoc.
  rewrite (lor_add rd) by lia. rewrite (lor_add funct3) by lia. rewrite (lor_add rs1) by lia.
  by rewrite (lor_add imm) by lia.
Qed.

Lemma i_word_fields imm rs1 funct3 rd opcode :
  0 ≤ imm < 4096 → 0 ≤ rs1 < 32 → 0 ≤ funct3 < 8 → 0 ≤ rd < 32 → 0 ≤ opcode < 128 →
  let w := i_word imm rs1 funct3 rd opcode in
  0 ≤ w < 2 ^ 32 ∧ w &&& 3 = opcode `mod` 4 ∧ w &&& 0x7f = opcode ∧
  (w ≫ 12) &&& 7 = funct3 ∧ (w ≫ 20) &&& 0xfff = imm ∧ (w ≫ 25) &&& 0x7f = imm `div` 32 ∧
  ((w ≫ 7) &&& 31) = rd ∧ w ≫ 25 = imm `div` 32.
Proof.
  intros. unfold w, i_word.
  arith_fields. split_and!; Z.to_euclidean_division_equations; lia.
Qed.

(** ** What the constructor accepts *)

Definition reg (r : Z) : Prop := 0 ≤ r < 32.

Inductive valid : Rv32iInstruction → Prop :=
  | valid_nop : valid (mkInstruction "NOP" 0 0 0 0)
  | valid_lui rd imm : reg rd → 0 ≤ imm < 2 ^ 20 → valid (mkInstruction "LUI" rd 0 0 imm)
  | valid_logic op rd rs1 rs2 : op ∈ _REGISTER_LOGIC_OPERATIONS → reg rd → reg rs1 → reg rs2 →
      valid (mkInstruction op rd rs1 rs2 0)
  | valid_shift op rd rs1 imm : op ∈ _SHIFT_OPERATIONS → reg rd → reg rs1 → 0 ≤ imm < 32 →
      valid (mkInstruction op rd rs1 0 imm)
  | valid_imm op rd rs1 imm : op ∈ ["ADDI"; "XORI"; "ORI"; "ANDI"] → reg rd → reg rs1 →
      -2048 ≤ imm < 2048 → valid (mkInstruction op rd rs1 0 imm)
  | valid_lw rd rs1 imm : reg rd → reg rs1 → -2048 ≤ imm < 2048 → imm `mod` 4 = 0 →
      valid (mkInstruction "LW" rd rs1 0 imm)
  | valid_sw rs1 rs2 imm : reg rs1 → reg rs2 → -2048 ≤ imm < 2048 → imm `mod` 4 = 0 →
      valid (mkInstruction "SW" 0 rs1 rs2 imm)
  | valid_sb rs1 rs2 imm : reg rs1 → reg rs2 → -2048 ≤ imm < 2048 →
      valid (mkInstruction "SB" 0 rs1 rs2 imm).

(** Evaluates the tests on operation names. *)
Ltac literal b := match b with true => idtac | false => idtac end.
Ltac eval_names :=
  repeat match goal with
  | |- context [eqs ?a ?b] =>
      let v := eval vm_compute in (eqs a b) in literal v; change (eqs a b) with v
  | |- context [has ?a ?b] =>
      let v := eval vm_compute in (has a b) in literal v; change (has a b) with v
  | H : context [eqs ?a ?b] |- _ =>
      let v := eval vm_compute in (eqs a b) in literal v; change (eqs a b) with v in H
  | H : context [has ?a ?b] |- _ =>
      let v := eval vm_compute in (has a b) in literal v; change (has a b) with v in H
  end; cbn beta iota in *.

(** Case analysis on membership in a literal list. *)
Ltac elem_cases H :=
  repeat (apply elem_of_cons in H as [->|H]); [..|by apply elem_of_nil in H].

Ltac inv_reject :=
  unfold _register, _signed_12, reject_if in *; inv_Ok; cbn [andb] in *; inv_Ok.

Lemma valid_of_Ok i : Rv32iInstruction_post_init i = Ok i → valid i.
Proof.
  destruct i as [op rd rs1 rs2 imm]. unfold Rv32iInstruction_post_init. cbn [operation].
  cbn [Rv32iSources.rd Rv32iSources.rs1 Rv32iSources.rs2 immediate].
  intros H. apply bind_Ok in H as (? & Hop & H). unfold reject_if in Hop.
  apply raise_if_Ok, negb_false_iff in Hop.
  apply has_elem in Hop. unfold _OPERATIONS in Hop.
  elem_cases Hop; eval_names; inv_reject; unfold reg;
  repeat match goal with H : (?x =? 0) = true |- _ => apply Z.eqb_eq in H; subst end.
  all: first [apply valid_nop | apply valid_lui | apply valid_lw | apply valid_sw | apply valid_sb
    | apply valid_logic; [set_solver|..] | apply valid_shift; [set_solver|..]
    | apply valid_imm; [set_solver|..]]; unfold reg; try lia.
Qed.

Lemma Ok_of_valid i : valid i → Rv32iInstruction_post_init i = Ok i.
Proof.
  intros Hi. destruct Hi;
    repeat match goal with H : _ ∈ _ |- _ => unfold _REGISTER_LOGIC_OPERATIONS, _SHIFT_OPERATIONS in H;
      elem_cases H end;
    unfold Rv32iInstruction_post_init; cbn [operation Rv32iSources.rd Rv32iSources.rs1 Rv32iSources.rs2 immediate];
    eval_names; unfold reg, _register, _signed_12, reject_if in *;
    repeat match goal with
      | |- context [?a <? ?b] => first [replace (a <? b) with true by lia | replace (a <? b) with false by lia]
      | |- context [?a =? ?b] => first [replace (a =? b) with true by lia | replace (a =? b) with false by lia]
      end; reflexivity.
Qed.

Lemma instruction_Ok op rd rs1 rs2 imm i :
  instruction op rd rs1 rs2 imm = Ok i ↔
  i = mkInstruction op rd rs1 rs2 imm ∧ valid (mkInstruction op rd rs1 rs2 imm).
Proof.
  unfold instruction. split.
  - intros H. assert (i = mkInstruction op rd rs1 rs2 imm) as ->.
    { unfold Rv32iInstruction_post_init in H. by inv_reject. }
    split; [done|by apply valid_of_Ok].
  - intros [-> Hv]. by apply Ok_of_valid.
Qed.

(** ** Encoded words are admitted *)

(** The store layout [imm_hi | rs2 | rs1 | funct3 | imm_lo | opcode] is the
    immediate layout with [imm_hi * 32 + rs2] and [imm_lo]. *)
Lemma s_word_lor hi rs2 rs1 funct3 lo opcode :
  0 ≤ hi < 128 → 0 ≤ rs2 < 32 → 0 ≤ rs1 < 32 → 0 ≤ funct3 < 8 → 0 ≤ lo < 32 → 0 ≤ opcode < 128 →
  (hi ≪ 25) ||| (rs2 ≪ 20) ||| (rs1 ≪ 15) ||| (funct3 ≪ 12) ||| (lo ≪ 7) ||| opcode =
  i_word (hi * 32 + rs2) rs1 funct3 lo opcode.
Proof.
  intros. unfold i_word. rewrite <- !Z.lor_assoc.
  rewrite (lor_add lo) by lia. rewrite (lor_add funct3) by lia. rewrite (lor_add rs1) by lia.
  rewrite (lor_add rs2) by lia. rewrite (lor_add hi) by lia. lia.
Qed.

Definition isa_ok (isa : option IsaContract) : Prop :=
  match isa with Some c => supports_legal_instruction_validation c = true | None => True end.

(** The arms of the checker, by opcode and function field. *)
Definition checked (imm f3 opcode : Z) : Prop :=
  opcode = 0x37 ∨ opcode = 0x13 ∧ f3 ∈ [0; 2; 3; 4; 6; 7] ∨
  opcode = 0x33 ∧ imm `div` 32 = 0 ∨
  opcode = 0x13 ∧ (f3 = 1 ∧ imm `div` 32 = 0 ∨ f3 = 5 ∧ (imm `div` 32 = 0 ∨ imm `div` 32 = 0x20)) ∨
  opcode = 0x03 ∧ f3 = 2 ∧ imm `mod` 4 = 0.

Lemma base_legal_op c w :
  w &&& 0x7F = 0x33 → (w ≫ 25) &&& 0x7f = 0 → _base_legal c w = true.
Proof. intros Ho Hf. unfold _base_legal. by rewrite Ho, Hf. Qed.

Lemma is_legal_base c w :
  supports_legal_instruction_validation c = true → 0 ≤ w < 2 ^ 32 → w &&& 3 = 3 →
  is_legal_word c w false = _base_legal c w.
Proof.
  intros Hs Hw H3. unfold is_legal_word. rewrite Hs, H3. replace (w <? 0) with false by lia.
  by replace (0xFFFFFFFF <? w) with false by lia.
Qed.

Lemma check_word_i isa off imm rs1 f3 rd opcode :
  0 ≤ imm < 4096 → 0 ≤ rs1 < 32 → 0 ≤ f3 < 8 → 0 ≤ rd < 32 → 0 ≤ opcode < 128 →
  isa_ok isa → checked imm f3 opcode → check_word isa off (i_word imm rs1 f3 rd opcode) = Ok ().
Proof.
  intros Hi H1 H3 Hd Ho Hisa Hc.
  destruct (i_word_fields imm rs1 f3 rd opcode Hi H1 H3 Hd Ho) as (Hr & F3 & F7 & Ff & Fi & F25 & _).
  unfold check_word. rewrite F7, Ff, Fi, F3.
  assert (opcode `mod` 4 = 3) as ->.
  { unfold checked in Hc. destruct Hc as [-> |[[-> _]|[[-> _]|[[-> _]|[-> _]]]]]; done. }
  cbn [negb Z.eqb Pos.eqb]. unfold in_list.
  destruct Hc as [-> |[[-> Hf]|[[-> Hf]|[[-> Hf]|(-> & -> & Hf)]]]].
  - done.
  - cbn [Z.eqb Pos.eqb orb andb]. by rewrite bool_decide_true.
  - rewrite is_legal_base.
    + rewrite base_legal_op; [done|done|]. by rewrite F25.
    + by destruct isa.
    + done.
    + rewrite F3. done.
  - replace (imm ≫ 5) with (imm `div` 32) by (by rewrite Z.shiftr_div_pow2).
    destruct Hf as [[-> ->]|[-> [-> | ->]]]; done.
  - cbn [Z.eqb Pos.eqb orb andb]. by rewrite Hf.
Qed.

Lemma check_word_s isa off hi rs2 rs1 f3 lo :
  0 ≤ hi < 128 → 0 ≤ rs2 < 32 → 0 ≤ rs1 < 32 → 0 ≤ lo < 32 →
  f3 = 0 ∨ f3 = 2 ∧ lo `mod` 4 = 0 →
  check_word isa off (i_word (hi * 32 + rs2) rs1 f3 lo 0x23) = Ok ().
Proof.
  intros Hh H2 H1 Hl Hf. assert (0 ≤ f3 < 8) as H3 by lia.
  destruct (i_word_fields (hi * 32 + rs2) rs1 f3 lo 0x23 ltac:(lia) H1 H3 Hl ltac:(lia))
    as (Hr & F3 & F7 & Ff & Fi & F25 & F7' & F25').
  assert (Hdiv : (hi * 32 + rs2) `div` 32 = hi) by (Z.to_euclidean_division_equations; lia).
  unfold check_word. rewrite F7, Ff, F3, F7', F25', Hdiv. cbn -[Z.shiftl Z.lor Z.modulo].
  destruct Hf as [-> |[-> Hm]]; cbn -[Z.shiftl Z.lor Z.modulo]; [done|].
  rewrite lor_add by lia.
  replace ((hi * 2 ^ 5 + lo) `mod` 4 =? 0) with true; [done|].
  symmetry. apply Z.eqb_eq. Z.to_euclidean_division_equations; lia.
Qed.

Lemma u_word_lor imm rd opcode :
  0 ≤ imm < 2 ^ 20 → 0 ≤ rd < 32 → 0 ≤ opcode < 128 →
  (imm ≪ 12) ||| (rd ≪ 7) ||| opcode =
  i_word (imm `div` 256) ((imm `div` 8) `mod` 32) (imm `mod` 8) rd opcode.
Proof.
  intros. unfold i_word. rewrite <- !Z.lor_assoc, (lor_add rd), (lor_add imm) by lia.
  Z.to_euclidean_division_equations. lia.
Qed.

(** The word of an accepted instruction, and that the checker admits it. *)
Lemma valid_word isa off i :
  valid i → isa_ok isa →
  0 ≤ instruction_word i < 2 ^ 32 ∧ check_word isa off (instruction_word i) = Ok ().
Proof.
  intros Hi Hisa.
  assert (Hshape : ∀ imm rs1 f3 rd opcode, 
    0 ≤ imm < 4096 → 0 ≤ rs1 < 32 → 0 ≤ f3 < 8 → 0 ≤ rd < 32 → 0 ≤ opcode < 128 →
    checked imm f3 opcode →
    0 ≤ i_word imm rs1 f3 rd opcode < 2 ^ 32 ∧
    check_word isa off (i_word imm rs1 f3 rd opcode) = Ok ()).
  { intros. split; [by apply i_word_fields|by apply check_word_i]. }
  destruct Hi; unfold reg in *;
    repeat match goal with H : _ ∈ _ |- _ =>
      unfold _REGISTER_LOGIC_OPERATIONS, _SHIFT_OPERATIONS in H; elem_cases H end;
    unfold instruction_word; cbn [operation Rv32iSources.rd Rv32iSources.rs1 Rv32iSources.rs2 immediate];
    eval_names; rewrite ?land_4095, ?land_127, ?land_31.
  1: { change 0x13 with (i_word 0 0 0 0 0x13). apply Hshape; try lia.
       right; left. by split; [|left]. }
  1: { rewrite u_word_lor by lia. apply Hshape; try (Z.to_euclidean_division_equations; lia).
       by left. }
  all: rewrite ?Z.shiftr_div_pow2 by lia.
  all: try (rewrite s_word_lor by (Z.to_euclidean_division_equations; lia);
    split; [apply i_word_fields; Z.to_euclidean_division_equations; lia|];
    apply check_word_s; try (Z.to_euclidean_division_equations; lia)).
  all: try match goal with |- context [?m ||| 0x400] =>
    replace (m ||| 0x400) with (1024 + m)
      by (rewrite (Z.lor_comm m); symmetry; apply (lor_add 1 m 10); lia) end.
  all: rewrite i_word_lor by (Z.to_euclidean_division_equations; lia).
  all: apply Hshape; try (Z.to_euclidean_division_equations; lia).
  all: unfold checked.
  1, 2: right; right; left; split; [done|Z.to_euclidean_division_equations; lia].
  1: right; right; right; left; split; [done|left; split; [done|]].
  2, 3: right; right; right; left; split; [done|right; split; [done|]].
  1-3: Z.to_euclidean_division_equations; lia.
  1-4: right; left; split; [done|repeat (left || right)].
  right; right; right; right. split_and!; [done..|Z.to_euclidean_division_equations; lia].
Qed.

Lemma check_words_app isa off l rest :
  length l = 4%nat →
  check_words isa off (l ++ rest) =
    (check_word isa off (from_le l) ;; check_words isa (off + 4) rest).
Proof. intros Hl. do 4 (destruct l as [|? l]; [done|]). by destruct l. Qed.

Lemma fragment_admitted isa prog :
  prog ≠ [] → Forall valid prog → isa_ok isa →
  ∃ data, fragment_bytes prog = Ok data ∧ Forall is_byte data ∧
    length data = (4 * length prog)%nat ∧ validate_instruction_bytes isa data = Ok ().
Proof.
  intros Hne Hv Hisa. unfold fragment_bytes, reject_if.
  rewrite bool_decide_false by (by destruct prog). eexists. split; [reflexivity|].
  set (data := concat _).
  assert (Hlen : length data = (4 * length prog)%nat).
  { unfold data. clear. induction prog as [|i prog IH]; cbn -[to_le Nat.mul]; [done|].
    rewrite length_app, length_to_le, IH. lia. }
  assert (Hw : ∀ off, check_words isa off data = Ok ()).
  { unfold data. clear Hlen data Hne. induction Hv as [|i prog Hi His IH]; intros off; [done|].
    destruct (valid_word isa off i Hi Hisa) as [Hr Hc].
    cbn [map concat]. rewrite check_words_app by apply length_to_le.
    rewrite from_le_to_le, Hc by (cbn; lia). apply IH. }
  split_and!; [|done|].
  - unfold data. clear. induction prog as [|i prog IH]; [constructor|].
    cbn [map concat]. apply Forall_app; split; [apply to_le_bytes|done].
  - unfold validate_instruction_bytes, reject_if. rewrite Hlen.
    rewrite bool_decide_false by (destruct prog; [done|cbn; lia]).
    replace (Z.of_nat (4 * length prog) `mod` 4 =? 0) with true by (symmetry; apply Z.eqb_eq;
      Z.to_euclidean_division_equations; lia).
    apply Hw.
Qed.

(** ** Addresses and windows *)

Lemma split_address_range a high low :
  _split_address a = (high, low) → 0 ≤ high < 2 ^ 20 ∧ -2048 ≤ low < 2048.
Proof.
  unfold _split_address. rewrite land_4095, land_fffff. intros [= <- <-].
  split; [apply Z.mod_pos_bound; lia|Z.to_euclidean_division_equations; lia].
Qed.

Lemma split_address_sum a high low :
  _split_address a = (high, low) → (high * 4096 + low) `mod` 2 ^ 32 = a `mod` 2 ^ 32 ∧
  low `mod` 4 = a `mod` 4.
Proof.
  unfold _split_address. rewrite land_4095, land_fffff, Z.shiftr_div_pow2 by lia. intros [= <- <-].
  split; Z.to_euclidean_division_equations; lia.
Qed.

(** The RV32 meaning of the set-up instructions, and the address of an access. *)
Definition set_reg (regs : Z → Z) (r v : Z) : Z → Z := λ x, if x =? r then v else regs x.

Definition rv32_step (regs : Z → Z) (i : Rv32iInstruction) : Z → Z :=
  if eqs (operation i) "LUI" then set_reg regs (rd i) ((immediate i * 4096) `mod` 2 ^ 32)
  else if eqs (operation i) "ADDI" then
    set_reg regs (rd i) ((regs (rs1 i) + immediate i) `mod` 2 ^ 32)
  else regs.

Definition effective_address (regs : Z → Z) (i : Rv32iInstruction) : Z :=
  (regs (rs1 i) + immediate i) `mod` 2 ^ 32.

Lemma lui_step regs d h :
  rv32_step regs (mkInstruction "LUI" d 0 0 h) = set_reg regs d ((h * 4096) `mod` 2 ^ 32).
Proof. reflexivity. Qed.
Lemma addi_step regs d l :
  rv32_step regs (mkInstruction "ADDI" d d 0 l) = set_reg regs d ((regs d + l) `mod` 2 ^ 32).
Proof. reflexivity. Qed.

Definition access_width (op : string) : Z := if eqs op "SB" then 1 else 4.

(** A window that serves an access. *)
Definition serves (op : string) (address : Z) (w : MmioWindow) : Prop :=
  contains w address (access_width op) = true ∧ permits op w = true ∧
  (op = "LW" ∨ access_width op ∈ write_widths w).

Lemma access_fragment_Ok op address ws b d prog :
  mmio_access_fragment op address ws b d = Ok prog →
  ∃ high low access,
    prog = [mkInstruction "LUI" b 0 0 high; access] ∧ _split_address address = (high, low) ∧
    operation access = op ∧ rs1 access = b ∧ immediate access = low ∧
    (if eqs op "LW" then rd access = d else rs2 access = d) ∧ Forall valid prog ∧
    0 < b < 32 ∧ 0 < d < 32 ∧ b ≠ d ∧
    0 ≤ address < 2 ^ 32 ∧ address `mod` access_width op = 0 ∧
    (∃ w, w ∈ ws ∧ contains w address (access_width op) = true ∧ permits op w = true) ∧
    (op = "LW" ∨ ∃ w, w ∈ ws ∧ contains w address (access_width op) = true ∧ writable w = true ∧
                      access_width op ∈ write_widths w).
Proof.
  intros H. unfold mmio_access_fragment, _windows_argument in H.
  destruct (_split_address address) as [high low] eqn:Hsplit. inv_reject.
  match goal with H : instruction "LUI" _ _ _ _ = Ok _ |- _ => apply instruction_Ok in H as [-> Hv1] end.
  match goal with H : existsb (permits op) _ = true |- _ => apply existsb_exists in H as (w & Hw & Hp) end.
  apply list_elem_of_In, list_elem_of_filter in Hw as [Hcw Hw].
  match goal with H : (if _ then _ else _) = Ok ?x |- _ =>
    rename x into access; rename H into Hacc end.
  exists high, low, access.
  assert (Hval : operation access = op ∧ rs1 access = b ∧ immediate access = low ∧
    (if eqs op "LW" then rd access = d else rs2 access = d) ∧ valid access).
  { destruct (eqs op "LW") eqn:Hop; apply instruction_Ok in Hacc as [-> Hv2]; [|done].
    apply bool_decide_eq_true in Hop as ->. done. }
  destruct Hval as (? & ? & ? & ? & ?).
  unfold access_width. split_and!; try done; try lia.
  - apply Forall_cons_2; [exact Hv1|]. by apply Forall_singleton.
  - exists w. done.
  - match goal with H : (_ && _) = false |- _ => apply andb_false_iff in H as [Hl|Hx] end.
    + left. apply negb_false_iff, bool_decide_eq_true in Hl. done.
    + right. apply negb_false_iff, existsb_exists in Hx as (w' & Hw' & [Hwr Hwd]%andb_true_iff).
      apply list_elem_of_In, list_elem_of_filter in Hw' as [Hc' Hw'].
      exists w'. apply bool_decide_eq_true in Hwd. done.
Qed.

Lemma instruction_valid op d a b imm :
  valid (mkInstruction op d a b imm) → instruction op d a b imm = Ok (mkInstruction op d a b imm).
Proof. intros Hv. by apply Ok_of_valid. Qed.

Lemma memory_op_cases op : has op _MEMORY_OPERATIONS = true → op = "LW" ∨ op = "SW" ∨ op = "SB".
Proof. intros Hop%has_elem. unfold _MEMORY_OPERATIONS in Hop. elem_cases Hop; auto. Qed.

Lemma elem_length {A} (l : list A) x : x ∈ l → length l ≠ 0%nat.
Proof. intros Hin Hl. apply nil_length_inv in Hl as ->. by apply elem_of_nil in Hin. Qed.

Lemma filter_nonempty {A} (P : A → Prop) `{∀ x, Decision (P x)} (l : list A) x :
  x ∈ l → P x → length (filter P l) ≠ 0%nat.
Proof.
  intros Hx HP Hl. apply nil_length_inv in Hl.
  by apply (filter_nil_not_elem_of P l x Hl HP) in Hx.
Qed.

Lemma access_fragment_total op address ws b d :
  has op _MEMORY_OPERATIONS = true → 0 < b < 32 → 0 < d < 32 → b ≠ d →
  0 ≤ address < 2 ^ 32 → address `mod` access_width op = 0 →
  (∃ w, w ∈ ws ∧ serves op address w) →
  ∃ prog, mmio_access_fragment op address ws b d = Ok prog.
Proof.
  intros Hop Hb Hd Hne Ha Hal (w & Hw & Hc & Hp & Hwd).
  unfold mmio_access_fragment, _windows_argument, _register, reject_if.
  fold (access_width op). rewrite Hop.
  rewrite (bool_decide_false (length ws = 0%nat)) by (by eapply elem_length).
  assert (Hin : In w (filter (λ w, contains w address (access_width op) = true) ws))
    by (by apply list_elem_of_In, list_elem_of_filter).
  assert (H1 : existsb (permits op) (filter (λ w, contains w address (access_width op) = true) ws) = true)
    by (apply existsb_exists; eauto).
  assert (H2 : negb (eqs op "LW") && negb (existsb (λ w, writable w && in_list (access_width op) (write_widths w))
      (filter (λ w, contains w address (access_width op) = true) ws)) = false).
  { destruct (eqs op "LW") eqn:HLW; [done|]. cbn. apply negb_false_iff, existsb_exists.
    exists w. split; [done|]. unfold permits in Hp. rewrite HLW in Hp. rewrite Hp. cbn.
    apply bool_decide_eq_true. destruct Hwd as [->|]; done. }
  pose proof (filter_nonempty (λ w, contains w address (access_width op) = true) ws w Hw Hc) as Hnil.
  rewrite H1, H2, Hal, (bool_decide_false _ Hnil).
  replace (b <? 0) with false by lia. replace (b <? 32) with true by lia.
  replace (d <? 0) with false by lia. replace (d <? 32) with true by lia.
  replace (b =? 0) with false by lia. replace (d =? 0) with false by lia.
  replace (b =? d) with false by lia. replace (address <? 0) with false by lia.
  replace (address <? 2 ^ 32) with true by lia.
  cbn [negb orb raise_if mbind result_bind Z.eqb].
  destruct (_split_address address) as [high low] eqn:Hs.
  pose proof (split_address_range _ _ _ Hs) as [Hh Hl].
  pose proof (split_address_sum _ _ _ Hs) as [_ Hm].
  rewrite (instruction_valid "LUI") by (apply valid_lui; unfold reg; lia). cbn [mbind result_bind].
  destruct (memory_op_cases _ Hop) as [-> |[-> | ->]]; unfold access_width in *; eval_names;
    (rewrite instruction_valid; [eexists; reflexivity|]);
    [apply valid_lw|apply valid_sw|apply valid_sb]; unfold reg; lia.
Qed.

(** A window with an aligned slot for the operation. *)
Definition serviceable (op : string) (w : MmioWindow) : Prop :=
  permits op w = true ∧ (op = "LW" ∨ access_width op ∈ write_widths w) ∧
  align_up (base w) (access_width op) + access_width op ≤ base w + size w.

Lemma window_range w :
  MmioWindow_post_init w = Ok w → 0 ≤ base w ∧ 0 < size w ∧ base w + size w ≤ 2 ^ 32.
Proof. unfold MmioWindow_post_init. intros H. inv_reject. lia. Qed.

Lemma slot_address w width k :
  0 ≤ base w → 0 < width → align_up (base w) width + width ≤ base w + size w → 0 ≤ k →
  let first := align_up (base w) width in
  let slots := (base w + size w - width - first) `div` width + 1 in
  let address := first + (k `mod` slots) * width in
  base w ≤ address ∧ address + width ≤ base w + size w ∧ address `mod` width = 0.
Proof.
  intros Hb Hw Hfit Hk first slots address. set (room := base w + size w - width - first).
  assert (Hfirst : base w ≤ first).
  { unfold first, align_up. pose proof (Z.mul_succ_div_gt (base w + width - 1) width). nia. }
  assert (Hroom : 0 ≤ room) by (unfold room, first; lia).
  assert (Hs : 0 < slots).
  { unfold slots. fold room. pose proof (Z.div_pos room width Hroom Hw). lia. }
  pose proof (Z.mod_pos_bound k slots Hs) as Hkm.
  assert (Hle : (k `mod` slots) * width ≤ room).
  { pose proof (Z.mul_div_le room width Hw). assert (k `mod` slots ≤ room `div` width); [|nia].
    unfold slots in *. fold room in Hkm. fold room. lia. }
  unfold address. split_and!; [nia|unfold room in Hle; lia|].
  unfold first, align_up. rewrite <- Z.mul_add_distr_r. apply Z.mod_mul. lia.
Qed.

Lemma slice_bytes l a b : Forall is_byte l → Forall is_byte (slice l a b).
Proof. intros Hl. by apply Forall_take, Forall_drop. Qed.

Lemma byte_at_range l i : Forall is_byte l → 0 ≤ byte_at l i < 256.
Proof.
  intros Hl. unfold byte_at. destruct (nth_in_or_default i l 0) as [Hin| ->]; [|lia].
  rewrite Forall_forall in Hl. by apply Hl, list_elem_of_In.
Qed.

Lemma from_le_nonneg l : Forall is_byte l → 0 ≤ from_le l.
Proof. intros Hl. by apply from_le_range. Qed.

Lemma mutate_access_total op entropy ws b d :
  Forall is_byte entropy → (4 ≤ length entropy)%nat → has op _MEMORY_OPERATIONS = true →
  Forall (λ w, MmioWindow_post_init w = Ok w) ws → 0 < b < 32 → 0 < d < 32 → b ≠ d →
  (∃ w, w ∈ ws ∧ serviceable op w) →
  ∃ address prog, mutate_mmio_access op entropy ws b d = Ok prog ∧
                mmio_access_fragment op address ws b d = Ok prog.
Proof.
  intros He Hlen Hop Hws Hb Hd Hne (w & Hw & Hp & Hwd & Hfit).
  unfold mutate_mmio_access, _windows_argument, reject_if. fold (access_width op).
  rewrite (bool_decide_false (length entropy < 4)%nat) by lia.
  rewrite (bool_decide_false (length ws = 0%nat)) by (by eapply elem_length). rewrite Hop.
  set (l1 := filter (λ w, permits op w = true) ws).
  set (l2 := filter (λ w, (eqs op "LW" || in_list (access_width op) (write_widths w)) = true) l1).
  set (l3 := filter (λ w, (_ <=? _) = true) l2).
  assert (Hw1 : w ∈ l1) by (by apply list_elem_of_filter).
  assert (Hw2 : w ∈ l2).
  { apply list_elem_of_filter. split; [|done]. apply orb_true_iff.
    destruct Hwd as [->|Hwd]; [by left|right; by apply bool_decide_eq_true]. }
  assert (Hw3 : w ∈ l3) by (apply list_elem_of_filter; split; [by apply Z.leb_le|done]).
  rewrite (bool_decide_false (length l1 = 0%nat)), (bool_decide_false (length l2 = 0%nat)),
    (bool_decide_false (length l3 = 0%nat)) by (by eapply elem_length).
  cbn [negb raise_if mbind result_bind].
  pose proof (byte_at_range entropy 0 He) as H0.
  assert (Hl3 : 0 < Z.of_nat (length l3)) by (pose proof (elem_length _ _ Hw3); lia).
  pose proof (Z.mod_pos_bound (byte_at entropy 0) _ Hl3) as Hi.
  destruct (lookup_lt_is_Some_2 l3 (Z.to_nat (byte_at entropy 0 `mod` Z.of_nat (length l3)))) as [v Hv]; [lia|].
  rewrite Hv. cbn [mbind result_bind].
  apply list_elem_of_lookup_2, list_elem_of_filter in Hv as [Hvf%Z.leb_le Hv].
  apply list_elem_of_filter in Hv as [Hvw Hv]. apply list_elem_of_filter in Hv as [Hvp Hv].
  rewrite Forall_forall in Hws. pose proof (window_range v (Hws v Hv)) as (Hvb & Hvs & Hv32).
  assert (Hpos : 0 < access_width op) by (unfold access_width; by case_match).
  destruct (slot_address v (access_width op) (from_le (slice entropy 1 4)) Hvb Hpos Hvf)
    as (Ha1 & Ha2 & Ha3); [by apply from_le_nonneg, slice_bytes|].
  destruct (access_fragment_total op (align_up (base v) (access_width op) +
    (from_le (slice entropy 1 4) `mod` ((base v + size v - access_width op
      - align_up (base v) (access_width op)) `div` access_width op + 1)) * access_width op) ws b d)
    as [prog Hprog]; try done; [lia| |].
  - exists v. split; [done|]. unfold serves, contains. split_and!; [|done|].
    + rewrite !andb_true_iff. split_and!; lia.
    + apply orb_true_iff in Hvw as [Hx|Hx]; apply bool_decide_eq_true in Hx; auto.
  - eauto.
Qed.

(** ** The decoder *)

Lemma sign_12_range raw : 0 ≤ raw < 4096 → -2048 ≤ sign_12 raw < 2048.
Proof.
  intros Hr. unfold sign_12.
  assert (Hx : raw &&& 0x800 = (raw `div` 2048) * 2048).
  { change 0x800 with (1 ≪ 11) at 1. apply Z.bits_inj'. intros n Hn.
    change 2048 with (2 ^ 11). rewrite <- Z.shiftl_mul_pow2, <- Z.shiftr_div_pow2 by lia.
    rewrite Z.land_spec, !Z.shiftl_spec by done.
    destruct (decide (n < 11)).
    { rewrite !(Z.testbit_neg_r _ (n - 11)) by lia. apply andb_false_r. }
    rewrite Z.shiftr_spec by lia. replace (n - 11 + 11) with n by lia.
    destruct (decide (n = 11)) as [->|]; [by rewrite andb_true_r|].
    rewrite (bits_small raw 12) by lia. done. }
  rewrite Hx. destruct (negb _) eqn:Hz; Z.to_euclidean_division_equations; lia.
Qed.

Definition servable (ws : list MmioWindow) (op : string) : Prop :=
  ∃ w, w ∈ ws ∧ serviceable op w.

Lemma mod_reg z : reg (z &&& 31).
Proof. rewrite land_31. apply Z.mod_pos_bound. lia. Qed.

Lemma raw_bytes entropy :
  Forall is_byte entropy →
  let raw := take 12 (entropy ++ replicate 12 0) in Forall is_byte raw ∧ length raw = 12%nat.
Proof.
  intros He raw. split.
  - apply Forall_take, Forall_app. split; [done|]. by apply Forall_replicate.
  - unfold raw. rewrite length_take, length_app, length_replicate. lia.
Qed.

Lemma slice_length l a b : (a ≤ b ≤ length l)%nat → length (slice l a b) = (b - a)%nat.
Proof. intros H. unfold slice. rewrite length_take, length_drop. lia. Qed.

(** The set-up words that load a 32-bit constant. *)
Lemma load_constant d v high low :
  _split_address v = (high, low) → 0 < d < 32 →
  instruction "LUI" d 0 0 high = Ok (mkInstruction "LUI" d 0 0 high) ∧
  instruction "ADDI" d d 0 low = Ok (mkInstruction "ADDI" d d 0 low) ∧
  valid (mkInstruction "LUI" d 0 0 high) ∧ valid (mkInstruction "ADDI" d d 0 low).
Proof.
  intros Hs Hd. pose proof (split_address_range _ _ _ Hs) as [Hh Hl].
  assert (valid (mkInstruction "LUI" d 0 0 high)) by (apply valid_lui; unfold reg; lia).
  assert (valid (mkInstruction "ADDI" d d 0 low))
    by (apply valid_imm; unfold reg; [repeat (left || right)|lia..]).
  auto using instruction_valid.
Qed.

Definition good (r : result (list Rv32iInstruction)) : Prop :=
  ∃ prog, r = Ok prog ∧ prog ≠ [] ∧ Forall valid prog.

Lemma good_one op d a b imm :
  valid (mkInstruction op d a b imm) → good (i ← instruction op d a b imm; mret [i]).
Proof.
  intros Hv. rewrite instruction_valid by done. eexists. split; [reflexivity|].
  split; [done|by apply Forall_singleton].
Qed.

Lemma land_imm z : 0 ≤ z &&& 0xfff < 4096.
Proof. rewrite land_4095. apply Z.mod_pos_bound. lia. Qed.

Lemma sign_12_zero raw : 0 ≤ raw < 4096 → (sign_12 raw =? 0) = (raw =? 0).
Proof.
  intros Hr. destruct (Z.eqb_spec raw 0) as [->|]; [done|].
  apply Z.eqb_neq. unfold sign_12. case_match; lia.
Qed.

Lemma land_upper z : 0 ≤ z &&& 0xfffff < 2 ^ 20.
Proof. rewrite land_fffff. by apply Z.mod_pos_bound. Qed.

Lemma arithmetic_good raw register :
  Forall is_byte raw → 0 < register < 32 → good (arithmetic_fragment raw register).
Proof.
  intros Hraw Hreg. unfold arithmetic_fragment. set (imm := sign_12 (from_le (slice raw 2 4) &&& 0xfff)).
  assert (Hrd : reg register) by (unfold reg; lia).
  assert (Himm : -2048 ≤ imm < 2048) by apply sign_12_range, land_imm.
  assert (Hop : ∀ op a i, op ∈ ["ADDI"; "XORI"; "ORI"; "ANDI"] → reg a → -2048 ≤ i < 2048 →
    valid (mkInstruction op register a 0 i)) by (intros; by apply valid_imm).
  assert (Hlui : valid (mkInstruction "LUI" register 0 0 (from_le (slice raw 7 11) &&& 0xfffff)))
    by (by apply valid_lui, land_upper).
  assert (Haddi : valid (mkInstruction "ADDI" register register 0 imm))
    by (apply Hop; [repeat (left || right)|done..]).
  assert (Hxori : valid (mkInstruction "XORI" register register 0
    (sign_12 (from_le (slice raw 4 6) &&& 0xfff))))
    by (apply Hop; [repeat (left || right)|done|apply sign_12_range, land_imm]).
  destruct (negb (byte_at raw 6 &&& 0xc0 =? 0)).
  - rewrite (instruction_valid _ _ _ _ _ Hlui), (instruction_valid _ _ _ _ _ Haddi).
    cbn [mbind result_bind].
    destruct (_ =? 0x80); [|destruct (_ =? 0xc0); [rewrite (instruction_valid _ _ _ _ _ Hxori)|]];
      (eexists; split; [reflexivity|]; split; [done|]; by repeat (apply Forall_cons_2; [done|])).
  - destruct (negb (byte_at raw 4 &&& 0x20 =? 0)).
    + apply good_one, valid_shift; [|done|apply mod_reg|apply mod_reg].
      pose proof (Z.mod_pos_bound (byte_at raw 6) 3).
      apply list_elem_of_In, nth_In. cbn. lia.
    + apply good_one, Hop; [|apply mod_reg|done].
      destruct (negb _), (negb _); repeat (left || right).
Qed.

Lemma access_good raw op ws :
  Forall is_byte raw → (length raw = 12)%nat → has op _MEMORY_OPERATIONS = true →
  Forall (λ w, MmioWindow_post_init w = Ok w) ws → servable ws op →
  good (access_fragment_of raw op ws).
Proof.
  intros Hraw Hlen Hmem Hws Hserve. unfold access_fragment_of.
  destruct (mutate_access_total op (slice raw 1 5) ws 1 2) as (address & prog & Hmut & Hacc);
    [by apply slice_bytes|rewrite slice_length; lia|done|done|lia|lia|lia|done|].
  rewrite Hmut. cbn [mbind result_bind].
  destruct (access_fragment_Ok _ _ _ _ _ _ Hacc) as (h & l & acc & -> & _ & _ & _ & _ & _ & Hv & _).
  destruct (eqs op "LW"); [by eexists|].
  destruct (_split_address _) as [high low] eqn:Hs.
  destruct (load_constant 2 _ _ _ Hs) as (-> & -> & Hv1 & Hv2); [lia|].
  eexists. split; [reflexivity|]. split; [done|]. by repeat (apply Forall_cons_2; [done|]).
Qed.

Lemma decode_good entropy ws allowed :
  Forall is_byte entropy → entropy ≠ [] →
  allowed ≠ [] → forallb (λ o, has o _MEMORY_OPERATIONS) allowed = true → NoDup allowed →
  Forall (λ w, MmioWindow_post_init w = Ok w) ws →
  ws = [] ∨ Forall (servable ws) allowed →
  good (decode_instruction_fragment entropy ws allowed).
Proof.
  intros He Hne Ha Hm Hnd Hws Hserve. unfold decode_instruction_fragment, reject_if.
  rewrite (bool_decide_false (length entropy = 0%nat)) by (by destruct entropy).
  rewrite (bool_decide_false (length allowed = 0%nat)) by (by destruct allowed).
  assert (Hu : unique allowed = true) by (by apply bool_decide_eq_true).
  rewrite Hm, Hu. cbn [negb orb raise_if mbind result_bind].
  destruct (raw_bytes entropy He) as [Hraw Hlen]. set (raw := take 12 _) in *.
  set (bound := if bool_decide _ then 3 else _).
  assert (Hb : bound = 3 ∨ bound = 3 + Z.of_nat (length allowed) ∧ ws ≠ []).
  { unfold bound. case_bool_decide as Hw; [by left|right; split; [done|by destruct ws]]. }
  assert (Hal : 0 < Z.of_nat (length allowed)) by (destruct allowed; [done|cbn; lia]).
  assert (Hchoice : 0 ≤ byte_at raw 0 `mod` bound < bound) by (apply Z.mod_pos_bound; lia).
  set (choice := byte_at raw 0 `mod` bound) in *.
  assert (Hreg : 0 < 1 + byte_at raw 1 `mod` 31 < 32)
    by (pose proof (Z.mod_pos_bound (byte_at raw 1) 31); lia).
  set (register := 1 + _) in *.
  destruct (choice =? 0) eqn:H0; [apply good_one, valid_nop|].
  destruct (choice =? 1) eqn:H1; [apply good_one, valid_lui; [unfold reg; lia|apply land_upper]|].
  destruct (choice =? 2) eqn:H2; [by apply arithmetic_good|].
  destruct Hb as [Hb|[Hb Hwne]]; [lia|].
  assert (Hin : nth (Z.to_nat (choice - 3)) allowed EmptyString ∈ allowed)
    by (apply list_elem_of_In, nth_In; lia).
  apply access_good; [done|done| |done|].
  - rewrite forallb_forall in Hm. by apply Hm, list_elem_of_In.
  - destruct Hserve as [->|Hserve]; [done|]. rewrite Forall_forall in Hserve. by apply Hserve.
Qed.

Lemma land_lnot_3 x : x &&& Z.lnot 3 = (x `div` 4) * 4.
Proof.
  rewrite <- Z.ldiff_land. change 3 with (Z.ones 2).
  rewrite Z.ldiff_ones_r, Z.shiftl_mul_pow2, Z.shiftr_div_pow2 by lia. done.
Qed.

(** ** Properties *)

(** RFuzz bytes always decode to an admissible fragment.  For any nonempty
    entropy, any unique nonempty choice of allowed MMIO operations and any
    valid windows (none, or windows that can serve each allowed operation)
    [decode_instruction_fragment] returns instructions without raising, and
    the bytes of their encoding pass [validate_instruction_bytes], with no
    contract or with any supported one: no decoded fragment is ever refused
    at admission. *)
Lemma decoded_fragment_is_admitted isa entropy ws allowed :
  Forall is_byte entropy → entropy ≠ [] →
  allowed ≠ [] → forallb (λ o, has o _MEMORY_OPERATIONS) allowed = true → NoDup allowed →
  Forall (λ w, MmioWindow_post_init w = Ok w) ws → ws = [] ∨ Forall (servable ws) allowed →
  isa_ok isa →
  ∃ prog data, decode_instruction_fragment entropy ws allowed = Ok prog ∧
    fragment_bytes prog = Ok data ∧ length data = (4 * length prog)%nat ∧
    validate_instruction_bytes isa data = Ok ().
Proof.
  intros He Hne Ha Hm Hnd Hws Hs Hisa.
  destruct (decode_good entropy ws allowed) as (prog & Hd & Hp & Hv); [done..|].
  destruct (fragment_admitted isa prog) as (data & Hf & _ & Hl & Hval); [done..|].
  by exists prog, data.
Qed.

(** C12.  An MMIO store fragment does what was asked.  When
    [mmio_write_fragment] returns, running its set-up instructions on any
    register file (LUI and ADDI with 32-bit wrap-around) leaves the value in
    the data register and makes the final store address exactly the requested
    address, which is aligned and lies, with its whole width, in one window
    that is writable and supports the width. *)
Theorem mmio_write_reaches_address op address v ws b d prog :
  mmio_write_fragment op address v ws b d = Ok prog →
  ∃ setup access, prog = setup ++ [access] ∧ operation access = op ∧ rs2 access = d ∧
    (∀ regs, let regs' := foldl rv32_step regs setup in
      effective_address regs' access = address ∧ regs' d = v) ∧
    address `mod` access_width op = 0 ∧
    ∃ w, w ∈ ws ∧ contains w address (access_width op) = true ∧ writable w = true ∧
         access_width op ∈ write_widths w.
Proof.
  intros H. unfold mmio_write_fragment in H. destruct (_split_address v) as [vh vl] eqn:Hv.
  inv_reject. match goal with H : has op _ = true |- _ => apply has_elem in H as Hop end.
  assert (HLW : op ≠ "LW") by (intros ->; by vm_compute in Hop; set_solver).
  match goal with H : mmio_access_fragment _ _ _ _ _ = Ok _ |- _ =>
    apply access_fragment_Ok in H as (high & low & access & -> & Hs & Hao & Har & Hai & Hd & _ &
      Hb & Hdr & Hbd & Ha & Hal & _ & Hw) end.
  rewrite (bool_decide_eq_false_2 (op = "LW") HLW : eqs op "LW" = false) in Hd.
  repeat match goal with H : instruction _ _ _ _ _ = Ok _ |- _ => apply instruction_Ok in H as [-> _] end.
  exists [mkInstruction "LUI" d 0 0 vh; mkInstruction "ADDI" d d 0 vl; mkInstruction "LUI" b 0 0 high],
    access.
  split; [done|]. split_and!; [done|done| |done|by destruct Hw].
  intros regs. cbn [foldl]. rewrite !lui_step, addi_step. unfold effective_address, set_reg. rewrite Har, Hai, !Z.eqb_refl.
  replace (d =? b) with false by lia.
  pose proof (split_address_sum _ _ _ Hs) as [Hsum _].
  pose proof (split_address_sum _ _ _ Hv) as [Hvs _].
  rewrite !Zplus_mod_idemp_l. rewrite Hsum, Hvs. rewrite !Z.mod_small by lia. done.
Qed.

(**  Mutation keeps the operation.  From a valid seed instruction of any
    operation but the register logic ones, and four or more entropy bytes,
    [mutate_instruction] always returns an instruction, of the same operation,
    that the constructor accepts again. *)
Lemma mutation_keeps_operation seed entropy :
  Rv32iInstruction_post_init seed = Ok seed → operation seed ∉ _REGISTER_LOGIC_OPERATIONS →
  Forall is_byte entropy → (4 ≤ length entropy)%nat →
  ∃ i, mutate_instruction seed entropy = Ok i ∧ operation i = operation seed ∧
       Rv32iInstruction_post_init i = Ok i.
Proof.
  intros Hseed%valid_of_Ok Hnl He Hlen.
  unfold mutate_instruction, reject_if. rewrite (bool_decide_false (length entropy < 4)%nat) by lia.
  cbn [raise_if mbind result_bind].
  set (field := _ `mod` 3). set (signed := sign_12 _). set (register := byte_at entropy 3 &&& 31).
  assert (Hsg : -2048 ≤ signed < 2048) by apply sign_12_range, land_imm.
  assert (Hrg : reg register) by apply mod_reg.
  assert (Hw4 : -2048 ≤ signed &&& Z.lnot 3 < 2048 ∧ (signed &&& Z.lnot 3) `mod` 4 = 0).
  { rewrite land_lnot_3. split; [|by rewrite Z.mod_mul]. Z.to_euclidean_division_equations; lia. }
  assert (Hgoal : ∀ op d a b imm, valid (mkInstruction op d a b imm) → op = operation seed →
    ∃ i, instruction op d a b imm = Ok i ∧ operation i = operation seed ∧
         Rv32iInstruction_post_init i = Ok i).
  { intros op d a b imm Hv ->. rewrite instruction_valid by done. eexists.
    split; [reflexivity|]. split; [done|by apply Ok_of_valid]. }
  destruct Hseed as [|? ? ? ?|? ? ? ? Hop|? ? ? ? Hop|? ? ? ? Hop| | |];
    cbn [operation Rv32iSources.rd Rv32iSources.rs1 Rv32iSources.rs2 immediate] in *; [| |done|..];
    try (unfold _SHIFT_OPERATIONS in Hop; elem_cases Hop); eval_names.
  1: { eexists. split; [reflexivity|]. split; [done|]. by apply Ok_of_valid, valid_nop. }
  all: apply Hgoal; [|done].
  1: apply valid_lui; [by case_match|]; destruct (negb _); [apply land_upper|done].
  1-3: apply valid_shift; [repeat (left || right)|by case_match..].
  1-4: apply valid_imm; [repeat (left || right)|by case_match..].
  - rewrite andb_false_r. apply valid_lw; [by case_match|done|case_match; tauto..].
  - apply valid_sw; [done|by case_match|destruct (negb _); tauto..].
  - apply valid_sb; [done|by case_match|destruct (negb _); tauto].
Qed.

(** What mutation does to the register logic operations.  [AND] and [OR]
    have no branch of their own and fall into the store branch: from a valid
    seed, an operand mutation of a source raises whenever the drawn immediate
    is not zero, and in every other case the destination register is lost. *)
Lemma logic_mutation_drops_destination seed entropy :
  Rv32iInstruction_post_init seed = Ok seed → operation seed ∈ _REGISTER_LOGIC_OPERATIONS →
  Forall is_byte entropy → (4 ≤ length entropy)%nat →
  let field := byte_at entropy 0 `mod` 3 in
  let drawn := from_le (slice entropy 1 3) &&& 0xfff in
  mutate_instruction seed entropy =
    if negb (field =? 0) && negb (drawn =? 0)
    then Err (RejectionError "field.bad_immediate" "register logic instructions have no immediate"
                "instruction.immediate")
    else Ok (mkInstruction (operation seed) 0 (rs1 seed)
               (if field =? 0 then byte_at entropy 3 &&& 31 else rs2 seed) 0).
Proof.
  intros Hseed%valid_of_Ok Hl He Hlen field drawn.
  unfold mutate_instruction, reject_if. rewrite (bool_decide_false (length entropy < 4)%nat) by lia.
  cbn [raise_if mbind result_bind]. fold field drawn.
  set (register := byte_at entropy 3 &&& 31).
  assert (Hrg : reg register) by apply mod_reg.
  assert (Hz : (sign_12 drawn =? 0) = (drawn =? 0)) by apply sign_12_zero, land_imm.
  assert (Hr : ∀ a b imm, reg a → reg b → instruction (operation seed) 0 a b imm =
    if negb (imm =? 0)
    then Err (RejectionError "field.bad_immediate" "register logic instructions have no immediate"
                "instruction.immediate")
    else Ok (mkInstruction (operation seed) 0 a b 0)).
  { intros a b imm Ha Hb. unfold reg in *. unfold instruction, Rv32iInstruction_post_init, _register, reject_if.
    cbn [operation Rv32iSources.rd Rv32iSources.rs1 Rv32iSources.rs2 immediate].
    replace (a <? 0) with false by lia. replace (a <? 32) with true by lia.
    replace (b <? 0) with false by lia. replace (b <? 32) with true by lia.
    unfold _REGISTER_LOGIC_OPERATIONS in Hl. elem_cases Hl; eval_names;
      case (Z.eqb_spec imm 0) as [->|]; done. }
  destruct Hseed as [|? ? ? ?|? ? ? ? Hop|? ? ? ? Hop|? ? ? ? Hop| | |];
    cbn [operation Rv32iSources.rd Rv32iSources.rs1 Rv32iSources.rs2 immediate] in *.
  all: try (unfold _SHIFT_OPERATIONS, _REGISTER_LOGIC_OPERATIONS in *; set_solver).
  unfold _REGISTER_LOGIC_OPERATIONS in Hl; elem_cases Hl; eval_names;
    (rewrite Hr; [|done|by case_match]); rewrite <- Hz;
    case (field =? 0); reflexivity.
Qed.

(** *** The hypotheses are satisfiable *)

Module Example_rv32i.
Definition window : MmioWindow := mkWindow 0x10001000 0x100 true true [1; 4].

Lemma decoded_fragment_is_admitted_witness :
  ∃ prog data,
    decode_instruction_fragment [4; 9; 2; 3; 0; 0; 0; 0; 7; 6; 5; 4] [window] ["LW"; "SW"] = Ok prog ∧
    fragment_bytes prog = Ok data ∧ length data = (4 * length prog)%nat ∧
    validate_instruction_bytes None data = Ok ().
Proof.
  apply (decoded_fragment_is_admitted None [4; 9; 2; 3; 0; 0; 0; 0; 7; 6; 5; 4] [window] ["LW"; "SW"]).
  - repeat constructor; discriminate.
  - discriminate.
  - discriminate.
  - reflexivity.
  - apply (bool_decide_unpack _). vm_compute. exact I.
  - repeat constructor.
  - right. repeat constructor; exists window; (split; [left|]); unfold serviceable;
      (split; [reflexivity|]); (split; [first [left; reflexivity | right; right; left]|]);
      vm_compute; discriminate.
  - exact I.
Defined.

Definition write_of : result (list Rv32iInstruction) :=
  mmio_write_fragment "SW" 0x10001ffc 0xdeadbeef [mkWindow 0x10001000 0x1000 true true [4]] 1 2.
Definition written : list Rv32iInstruction :=
  match write_of with Ok p => p | Err _ => [] end.

Lemma mmio_write_reaches_address_witness :
  ∃ setup access, written = setup ++ [access] ∧ operation access = "SW" ∧ rs2 access = 2 ∧
    (∀ regs, let regs' := foldl rv32_step regs setup in
      effective_address regs' access = 0x10001ffc ∧ regs' 2 = 0xdeadbeef) ∧
    0x10001ffc `mod` access_width "SW" = 0 ∧
    ∃ w, w ∈ [mkWindow 0x10001000 0x1000 true true [4]] ∧
      contains w 0x10001ffc (access_width "SW") = true ∧ writable w = true ∧
      access_width "SW" ∈ write_widths w.
Proof.
  apply (mmio_write_reaches_address "SW" 0x10001ffc 0xdeadbeef
    [mkWindow 0x10001000 0x1000 true true [4]] 1 2 written).
  vm_compute. reflexivity.
Defined.

Lemma mutation_keeps_operation_witness :
  ∃ i, mutate_instruction (mkInstruction "LW" 5 6 0 (-4)) [2; 0xff; 0xff; 9] = Ok i ∧
    operation i = "LW" ∧ Rv32iInstruction_post_init i = Ok i.
Proof.
  apply (mutation_keeps_operation (mkInstruction "LW" 5 6 0 (-4)) [2; 0xff; 0xff; 9]).
  - reflexivity.
  - apply (bool_decide_unpack _). vm_compute. exact I.
  - repeat constructor; discriminate.
  - cbn. lia.
Defined.

Lemma logic_mutation_drops_destination_witness :
  mutate_instruction (mkInstruction "AND" 5 6 7 0) [1; 1; 0; 0] =
    Err (RejectionError "field.bad_immediate" "register logic instructions have no immediate"
           "instruction.immediate") ∧
  mutate_instruction (mkInstruction "AND" 5 6 7 0) [0; 1; 0; 9] =
    Ok (mkInstruction "AND" 0 6 9 0).
Proof.
  split.
  - apply (logic_mutation_drops_destination (mkInstruction "AND" 5 6 7 0) [1; 1; 0; 0]).
    + reflexivity.
    + apply (bool_decide_unpack _). vm_compute. exact I.
    + repeat constructor; discriminate.
    + cbn. lia.
  - reflexivity.
Defined.
End Example_rv32i.
