(* ===== verification/Memory.v ===== *)
(** * Authoritative byte memory of one testcase

    Models [src/src/myfuzz/scenario/memory.py]: [MemoryRegion],
    [PersistentMemory] and its operations.  A cell maps a memory identity and
    byte offset to a value, a version (generation, commit sequence) and its
    writer.  Object-identity registries that authenticate issued receipts and
    snapshots are not modelled. *)

From S2P Require Import Prelude Json Isa Genome Rv32iSources.

Local Open Scope Z_scope.

Definition _MAX_ADDRESS : Z := 2 ^ 64 - 1.
Definition _WIDTHS : list Z := [1; 2; 4; 8].

Definition natural (value : Z) (name : string) : result () :=
  raise_if (value <? 0) (ValueError (name +:+ " must be a nonnegative integer")).

Record MemoryRegion := mkRegion {
  memory_id : string;
  base : Z;
  size : Z;
  aliases : list Z;
  readable : bool;
  writable : bool }.

#[export] Instance MemoryRegion_eq_dec : EqDecision MemoryRegion.
Proof. solve_decision. Defined.

(** [MemoryRegion.__post_init__] *)
Definition MemoryRegion_post_init (r : MemoryRegion) : result MemoryRegion :=
  raise_if (empty (memory_id r)) (ValueError "memory_id must be a nonempty string") ;;
  natural (base r) "base" ;;
  natural (size r) "size" ;;
  raise_if ((size r =? 0) || (_MAX_ADDRESS - size r + 1 <? base r))
    (ValueError "memory region exceeds address bounds") ;;
  for_each (λ alias,
    natural alias "alias" ;;
    raise_if (_MAX_ADDRESS - size r + 1 <? alias)
      (ValueError "memory alias exceeds address bounds")) (aliases r) ;;
  mret r.

Definition Version : Type := Z * Z.

Record ByteCell := mkCell {
  cell_value : Z;
  version : Version;
  writer_kind : string;
  writer_event_id : string }.

#[export] Instance ByteCell_eq_dec : EqDecision ByteCell.
Proof. solve_decision. Defined.

Record ReadSnapshot := mkSnapshot {
  transaction_id : string;
  snapshot_memory_id : string;
  snapshot_generation : Z;
  byte_offset : Z;
  data : list Z;
  versions : list Version;
  writer_event_ids : list string;
  materialized_offsets : list Z;
  writer_kinds : list string }.

(** [ReadSnapshot.value] *)
Definition snapshot_value (s : ReadSnapshot) : Z := from_le (data s).

Record InstructionAcceptance := mkAcceptance {
  acc_memory_id : string;
  acc_address : Z;
  acc_byte_offset : Z;
  acc_generation : Z;
  acc_data : list Z;
  source_event_id : string;
  acc_versions : list Version;
  acc_writer_event_ids : list string;
  acc_writer_kinds : list string }.

Definition Key : Type := string * Z.

Record PersistentMemory := mkMemory {
  _regions : list MemoryRegion;
  _windows : list (Z * Z * MemoryRegion);
  initialization_seed : Z;
  instruction_isa : option IsaContract;
  max_initialized_bytes : Z;
  generation : Z;
  step_count : Z;
  _bytes : gmap Key ByteCell;
  _initial_images : gmap Key Z;
  _instruction_slots : gset Key;
  _commit_sequences : gmap string Z }.

(** The nested loops of [__init__] over the regions and their base addresses. *)
Definition add_window (windows : list (Z * Z * MemoryRegion)) (rb : MemoryRegion * Z)
    : result (list (Z * Z * MemoryRegion)) :=
  let '(r, b) := rb in
  let end_ := b + size r in
  raise_if (existsb (λ '(old_base, old_end, _), (b <? old_end) && (old_base <? end_)) windows)
    (ValueError "overlapping memory windows") ;;
  mret (windows ++ [(b, end_, r)]).

Definition add_region (st : list string * list (Z * Z * MemoryRegion)) (r : MemoryRegion)
    : result (list string * list (Z * Z * MemoryRegion)) :=
  let '(seen, windows) := st in
  raise_if (has (memory_id r) seen) (ValueError ("duplicate memory_id " +:+ memory_id r)) ;;
  windows' ← fold_result add_window windows ((λ b, (r, b)) <$> base r :: aliases r);
  mret (seen ++ [memory_id r], windows').

Definition isa_admitted (c : IsaContract) : bool :=
  in_list (xlen c) [32; 64]
  && forallb (λ e, has e ["I"; "M"; "C"]) (extensions c)
  && has "I" (extensions c)
  && negb (has "C" (extensions c) && negb (instruction_alignment c =? 2)).

Definition zero_sequences (regions : list MemoryRegion) : gmap string Z :=
  list_to_map ((λ r, (memory_id r, 0)) <$> regions).

(** [PersistentMemory.__init__] *)
Definition new_memory (regions : list MemoryRegion) (seed max_bytes : Z)
    (isa : option IsaContract) : result PersistentMemory :=
  natural seed "initialization_seed" ;;
  natural max_bytes "max_initialized_bytes" ;;
  raise_if (bool_decide (length regions = 0%nat)) (ValueError "regions must be a nonempty tuple") ;;
  st ← fold_result add_region ([], []) regions;
  raise_if (match isa with Some c => negb (isa_admitted c) | None => false end)
    (ValueError "instruction ISA must be declared RV32I/M/C or RV64I/M/C") ;;
  mret (mkMemory regions st.2 seed isa max_bytes 0 0 ∅ ∅ ∅ (zero_sequences regions)).

(** Assignments. *)
Definition set_bytes (b : gmap Key ByteCell) (m : PersistentMemory) : PersistentMemory :=
  mkMemory (_regions m) (_windows m) (initialization_seed m) (instruction_isa m)
    (max_initialized_bytes m) (generation m) (step_count m) b (_initial_images m)
    (_instruction_slots m) (_commit_sequences m).
Definition set_images (i : gmap Key Z) (m : PersistentMemory) : PersistentMemory :=
  mkMemory (_regions m) (_windows m) (initialization_seed m) (instruction_isa m)
    (max_initialized_bytes m) (generation m) (step_count m) (_bytes m) i
    (_instruction_slots m) (_commit_sequences m).
Definition set_slots (s : gset Key) (m : PersistentMemory) : PersistentMemory :=
  mkMemory (_regions m) (_windows m) (initialization_seed m) (instruction_isa m)
    (max_initialized_bytes m) (generation m) (step_count m) (_bytes m) (_initial_images m)
    s (_commit_sequences m).
Definition set_sequences (q : gmap string Z) (m : PersistentMemory) : PersistentMemory :=
  mkMemory (_regions m) (_windows m) (initialization_seed m) (instruction_isa m)
    (max_initialized_bytes m) (generation m) (step_count m) (_bytes m) (_initial_images m)
    (_instruction_slots m) q.
Definition set_generation (g : Z) (m : PersistentMemory) : PersistentMemory :=
  mkMemory (_regions m) (_windows m) (initialization_seed m) (instruction_isa m)
    (max_initialized_bytes m) g (step_count m) (_bytes m) (_initial_images m)
    (_instruction_slots m) (_commit_sequences m).

Definition initialized_bytes (m : PersistentMemory) : Z := Z.of_nat (base.size (_bytes m)).
Definition memory_ids (m : PersistentMemory) : list string := memory_id <$> _regions m.

(** [advance_step] *)
Definition advance_step (m : PersistentMemory) : PersistentMemory :=
  mkMemory (_regions m) (_windows m) (initialization_seed m) (instruction_isa m)
    (max_initialized_bytes m) (generation m) (step_count m + 1) (_bytes m) (_initial_images m)
    (_instruction_slots m) (_commit_sequences m).

(** [inspect_byte] *)
Definition inspect_byte (id : string) (offset : Z) (m : PersistentMemory)
    : result (option ByteCell) :=
  raise_if (negb (has id (memory_ids m)) || (offset <? 0) || negb (offset <? 2 ^ 64))
    (ValueError "invalid memory byte inspection") ;;
  mret (_bytes m !! (id, offset)).

(** [_resolve]: the first window that holds the address decides. *)
Fixpoint find_window (address width : Z) (write : bool)
    (windows : list (Z * Z * MemoryRegion)) : result (MemoryRegion * Z) :=
  match windows with
  | [] => Err (ValueError "unmapped address; MMIO requires real IP response")
  | (b, end_, region) :: windows =>
      if (b <=? address) && (address <? end_) then
        raise_if (end_ <? address + width) (ValueError "access crosses memory window") ;;
        raise_if (write && negb (writable region)) (ValueError "read-only memory") ;;
        raise_if (negb write && negb (readable region)) (ValueError "write-only memory") ;;
        mret (region, address - b)
      else find_window address width write windows
  end.

Definition _resolve (address width_bytes : Z) (write : bool) (m : PersistentMemory)
    : result (MemoryRegion * Z) :=
  natural address "address" ;;
  raise_if (_MAX_ADDRESS <? address) (ValueError "address exceeds address bounds") ;;
  raise_if (negb (in_list width_bytes _WIDTHS)) (ValueError "unsupported access width") ;;
  raise_if (negb (address `mod` width_bytes =? 0)) (ValueError "unaligned access") ;;
  raise_if (_MAX_ADDRESS - address <? width_bytes - 1)
    (ValueError "address span exceeds address bounds") ;;
  find_window address width_bytes write (_windows m).

(** [resolve_span] *)
Definition resolve_span (address width_bytes : Z) (write : bool) (m : PersistentMemory)
    : result (string * Z * Z) :=
  ro ← _resolve address width_bytes write m;
  mret (memory_id ro.1, generation m, ro.2).

(** [(region.memory_id, offset + index) for index in range(count)] *)
Definition keys_at (id : string) (offset count : Z) : list Key :=
  (λ i, (id, offset + i)) <$> seqZ 0 count.

Definition slot_pending (m : PersistentMemory) (k : Key) : bool :=
  bool_decide (k ∈ _instruction_slots m) && bool_decide (_bytes m !! k = None).

(** [instruction_slot_unmaterialized] *)
Definition instruction_slot_unmaterialized (address : Z) (m : PersistentMemory) : result bool :=
  raise_if ((address <? 0) || negb (address `mod` 4 =? 0))
    (ValueError "invalid instruction slot inspection") ;;
  span ← resolve_span address 4 false m;
  let '(id, _, offset) := span in
  mret (forallb (slot_pending m) (keys_at id offset 4)).

Section memory.
Context `{Hashlib}.

(** [_initial_byte] *)
Definition _initial_byte (m : PersistentMemory) (k : Key) : Z :=
  let fields := JArr [JStr "memory-init-v1"; JInt (initialization_seed m); JStr k.1;
                      JInt (generation m); JInt k.2] in
  nth 0 (sha256 (dumps fields)) 0.

(** [_next_version] *)
Definition _next_version (id : string) : M PersistentMemory Version := λ m,
  let sequence := default 0 (_commit_sequences m !! id) + 1 in
  (Ok (generation m, sequence), set_sequences (<[id := sequence]> (_commit_sequences m)) m).

(** [_budget] *)
Definition _budget (additions : Z) (m : PersistentMemory) : result () :=
  raise_if (max_initialized_bytes m <? initialized_bytes m + additions)
    (ValueError "initialized byte budget exceeded").

(** [_check_instruction_ready] *)
Definition _check_instruction_ready (id : string) (offset width : Z) (m : PersistentMemory)
    : result () :=
  raise_if (existsb (slot_pending m) (keys_at id offset width))
    (InstructionNotReady "online instruction slot awaits its source").

Definition missing (m : PersistentMemory) (keys : list Key) : list Key :=
  filter (λ k, _bytes m !! k = None) keys.

Definition count {A} (l : list A) : Z := Z.of_nat (length l).

(** [validate_read] *)
Definition validate_read (address width_bytes : Z) (m : PersistentMemory) : result () :=
  ro ← _resolve address width_bytes false m;
  let '(region, offset) := ro in
  _check_instruction_ready (memory_id region) offset width_bytes m ;;
  let n := count (missing m (keys_at (memory_id region) offset width_bytes)) in
  raise_if (negb (n =? 0) && negb (writable region)) (ValueError "uninitialized read-only memory") ;;
  _budget n m.

Definition enabled_lanes (width_bytes byte_enable : Z) : list Z :=
  filter (λ i, Z.testbit byte_enable i = true) (seqZ 0 width_bytes).

Definition lane_keys (id : string) (offset : Z) (lanes : list Z) : list Key :=
  (λ i, (id, offset + i)) <$> lanes.

Definition check_store (value width_bytes byte_enable : Z) : result () :=
  natural value "value" ;;
  raise_if (1 ≪ (8 * width_bytes) <=? value) (ValueError "value exceeds access width") ;;
  natural byte_enable "byte_enable" ;;
  raise_if (1 ≪ width_bytes <=? byte_enable) (ValueError "byte_enable exceeds access width").

(** [validate_write] *)
Definition validate_write (address value width_bytes byte_enable : Z) (m : PersistentMemory)
    : result () :=
  ro ← _resolve address width_bytes true m;
  let '(region, offset) := ro in
  check_store value width_bytes byte_enable ;;
  _budget (count (missing m
    (lane_keys (memory_id region) offset (enabled_lanes width_bytes byte_enable)))) m.

(** A loop of assignments [self._bytes[key] = ByteCell(value, ...)]. *)
Definition put_cells (rows : list (Key * ByteCell)) (m : PersistentMemory) : PersistentMemory :=
  set_bytes (foldl (λ b kc, <[kc.1 := kc.2]> b) (_bytes m) rows) m.
Definition put_images (rows : list (Key * Z)) (m : PersistentMemory) : PersistentMemory :=
  set_images (foldl (λ b kv, <[kv.1 := kv.2]> b) (_initial_images m) rows) m.

Definition cells_of (v : Version) (wkind event : string) (keys : list Key) (values : list Z)
    : list (Key * ByteCell) :=
  (λ kv, (kv.1, mkCell kv.2 v wkind event)) <$> zip keys values.

(** [preload] *)
Definition preload (address : Z) (bytes : list Z) : M PersistentMemory () := λ m,
  (check (bool_decide (length bytes = 0%nat)) (ValueError "preload data must be nonempty bytes") ;;
   ro ← reads (_resolve address 1 false);
   let '(region, offset) := ro in
   check (size region <? offset + count bytes) (ValueError "preload crosses memory window") ;;
   let keys := keys_at (memory_id region) offset (count bytes) in
   check (existsb (λ k, bool_decide (is_Some (_bytes m !! k))
                        || bool_decide (k ∈ _instruction_slots m)) keys)
     (ValueError "preload would overwrite initialized or reserved instruction bytes") ;;
   reads (_budget (count keys)) ;;
   modify (put_images (zip keys bytes)) ;;
   modify (put_cells (cells_of (generation m, 0) "INITIAL_IMAGE" "initial-image" keys bytes))) m.

(** [reinstall_image] *)
Definition reinstall_image (address : Z) (bytes : list Z) (event_id : string)
    : M PersistentMemory (string * Z * Version) := λ m,
  (check (bool_decide (length bytes = 0%nat) || empty event_id)
     (ValueError "reset image requires bytes and an event identity") ;;
   ro ← reads (_resolve address 1 false);
   let '(region, offset) := ro in
   check (size region <? offset + count bytes) (ValueError "reset image crosses memory window") ;;
   let keys := keys_at (memory_id region) offset (count bytes) in
   check (existsb (λ k, bool_decide (_initial_images m !! k = None)) keys)
     (ValueError "reset image must replace declared initial image bytes") ;;
   v ← _next_version (memory_id region);
   modify (put_cells (cells_of v "RESET_IMAGE" event_id keys bytes)) ;;
   mret (memory_id region, offset, v)) m.

(** [declare_instruction_slots] *)
Definition declare_instruction_slots (address slot_count : Z) : M PersistentMemory () := λ m,
  (reads (λ _, natural slot_count "count") ;;
   check (slot_count =? 0) (ValueError "instruction slot count must be positive") ;;
   ro ← reads (_resolve address 4 false);
   let '(region, offset) := ro in
   check (size region <? offset + slot_count * 4)
     (ValueError "instruction slots cross memory window") ;;
   let keys := keys_at (memory_id region) offset (slot_count * 4) in
   check (existsb (λ k, bool_decide (is_Some (_bytes m !! k))) keys)
     (ValueError "instruction slots contain determined bytes") ;;
   modify (set_slots (_instruction_slots m ∪ list_to_set keys))) m.

Definition cell_at (m : PersistentMemory) (k : Key) : ByteCell :=
  default (mkCell 0 (0, 0) EmptyString EmptyString) (_bytes m !! k).

(** [accept_instructions] *)
Definition accept_instructions (address : Z) (bytes : list Z) (event : string)
    : M PersistentMemory InstructionAcceptance := λ m,
  (reads (λ m, validate_instruction_bytes (instruction_isa m) bytes) ;;
   check (empty event) (ValueError "instruction source_event_id must be nonempty") ;;
   ro ← reads (_resolve address 4 false);
   let '(region, offset) := ro in
   check (size region <? offset + count bytes)
     (ValueError "instruction fragment crosses memory window") ;;
   let keys := keys_at (memory_id region) offset (count bytes) in
   check (existsb (λ k, negb (bool_decide (k ∈ _instruction_slots m))) keys)
     (ValueError "instruction bytes are outside declared online slots") ;;
   check (existsb (λ k, bool_decide (is_Some (_bytes m !! k))) keys)
     (ValueError "instruction admission would overwrite determined bytes") ;;
   reads (_budget (count keys)) ;;
   v ← _next_version (memory_id region);
   modify (put_cells (cells_of v "INSTRUCTION_SOURCE" event keys bytes)) ;;
   cells ← gets (λ m, cell_at m <$> keys);
   mret (mkAcceptance (memory_id region) address offset (generation m) bytes event
     (version <$> cells) (writer_event_id <$> cells) (writer_kind <$> cells))) m.

Definition first_read_cell (m : PersistentMemory) (id : string) (v : Version) (k : Key)
    : Key * ByteCell :=
  (k, mkCell (_initial_byte m k) v "FIRST_READ" ("init:" +:+ id +:+ ":" +:+ pretty k.2)).

(** [read] *)
Definition read (address width_bytes : Z) (tx : string) : M PersistentMemory ReadSnapshot := λ m,
  (check (empty tx) (ValueError "transaction_id must be nonempty") ;;
   ro ← reads (_resolve address width_bytes false);
   let '(region, offset) := ro in
   let id := memory_id region in
   reads (_check_instruction_ready id offset width_bytes) ;;
   let keys := keys_at id offset width_bytes in
   let absent := missing m keys in
   check (negb (count absent =? 0) && negb (writable region))
     (ValueError "uninitialized read-only memory") ;;
   reads (_budget (count absent)) ;;
   (if bool_decide (absent = []) then mret ()
    else v ← _next_version id;
         modify (put_cells (first_read_cell m id v <$> absent))) ;;
   cells ← gets (λ m, cell_at m <$> keys);
   mret (mkSnapshot tx id (generation m) offset (cell_value <$> cells) (version <$> cells)
     (writer_event_id <$> cells) (snd <$> absent) (writer_kind <$> cells))) m.

(** [value >> (8 * index) & 0xFF] *)
Definition value_byte (value index : Z) : Z := (value ≫ (8 * index)) &&& 0xFF.

(** [write] *)
Definition write (address value width_bytes byte_enable : Z) (event : string)
    : M PersistentMemory (option Version) := λ m,
  (check (empty event) (ValueError "writer_event_id must be nonempty") ;;
   ro ← reads (_resolve address width_bytes true);
   let '(region, offset) := ro in
   let id := memory_id region in
   reads (λ _, check_store value width_bytes byte_enable) ;;
   let enabled := enabled_lanes width_bytes byte_enable in
   reads (_budget (count (missing m (lane_keys id offset enabled)))) ;;
   if bool_decide (enabled = []) then mret None
   else
     v ← _next_version id;
     modify (put_cells (cells_of v "STORE" event (lane_keys id offset enabled)
                          (value_byte value <$> enabled))) ;;
     mret (Some v)) m.

(** [warm_reset]: only the receipts' registry is revoked. *)
Definition warm_reset (m : PersistentMemory) : PersistentMemory := m.

(** [cold_reset] *)
Definition cold_reset (m : PersistentMemory) : PersistentMemory :=
  let g := generation m + 1 in
  set_sequences (zero_sequences (_regions m))
    (set_bytes ((λ v, mkCell v (g, 0) "INITIAL_IMAGE" "initial-image") <$> _initial_images m)
      (set_generation g m)).
End memory.
