(* ===== verification/MemorySpec.v ===== *)
(** * What the persistent memory promises

    The invariant of every reachable memory; every operation that raises
    changes nothing; determined bytes are stable; a store is read back. *)

From S2P Require Import Prelude Json Isa Genome Rv32iSources Memory.

Local Open Scope Z_scope.

(** ** Maps and key lists *)

Section fold_insert.
Context {K V : Type} `{Countable K}.
Implicit Types (b : gmap K V) (rows : list (K * V)).

Lemma lookup_fold_insert b rows k :
  NoDup rows.*1 →
  foldl (λ b kc, <[kc.1 := kc.2]> b) b rows !! k =
    match od_get rows k with Some c => Some c | None => b !! k end.
Proof.
  revert b. induction rows as [|[k1 c] rows IH]; intros b; [done|].
  cbn. intros [Hk Hrows]%NoDup_cons. rewrite IH by done.
  destruct (decide (k1 = k)) as [->|Hne].
  - assert (od_get rows k = None) as -> by (by apply od_get_None). by rewrite lookup_insert_eq.
  - by rewrite lookup_insert_ne.
Qed.

Lemma size_fold_insert b rows :
  (base.size (foldl (λ b kc, <[kc.1 := kc.2]> b) b rows)
   ≤ base.size b + length (filter (λ k, b !! k = None) rows.*1))%nat.
Proof.
  revert b. induction rows as [|[k c] rows IH]; intros b; cbn [foldl fst snd fmap list_fmap]; [lia|].
  etrans; [apply IH|]. rewrite filter_cons.
  assert (Hle : ∀ l : list K, (length (filter (λ k', <[k := c]> b !! k' = None) l)
    ≤ length (filter (λ k', b !! k' = None) l))%nat).
  { induction l as [|k' l IHl]; [done|]. rewrite !filter_cons. repeat case_decide; cbn; try lia.
    match goal with H : <[_:=_]> _ !! _ = None |- _ => apply lookup_insert_None in H as [? _] end.
    done. }
  specialize (Hle rows.*1). case_decide as Hk.
  - rewrite map_size_insert_None by done. cbn. lia.
  - rewrite map_size_insert_Some by (by apply not_eq_None_Some in Hk). lia.
Qed.
End fold_insert.

Lemma keys_at_elem id off n k : k ∈ keys_at id off n ↔ k.1 = id ∧ off ≤ k.2 < off + n.
Proof.
  unfold keys_at. rewrite list_elem_of_fmap. split.
  - intros (i & -> & Hi%elem_of_seqZ). cbn. split; [done|lia].
  - destruct k as [id' o]; cbn. intros [-> Ho]. exists (o - off).
    split; [f_equal; lia|apply elem_of_seqZ; lia].
Qed.

Lemma keys_at_NoDup id off n : NoDup (keys_at id off n).
Proof. apply NoDup_fmap_2_strong; [|apply NoDup_seqZ]. intros x y _ _ [= ?]. lia. Qed.

Lemma keys_at_length id off n : length (keys_at id off n) = Z.to_nat n.
Proof. unfold keys_at. by rewrite length_fmap, length_seqZ. Qed.

Lemma lane_keys_elem id off lanes k :
  k ∈ lane_keys id off lanes ↔ k.1 = id ∧ k.2 - off ∈ lanes.
Proof.
  unfold lane_keys. rewrite list_elem_of_fmap. split.
  - intros (i & -> & Hi). cbn. by replace (off + i - off) with i by lia.
  - destruct k as [id' o]; cbn. intros [-> Ho]. exists (o - off). split; [f_equal; lia|done].
Qed.

Lemma lane_keys_NoDup id off lanes : NoDup lanes → NoDup (lane_keys id off lanes).
Proof. intros. apply NoDup_fmap_2_strong; [|done]. intros x y _ _ [= ?]. lia. Qed.

Lemma enabled_lanes_elem w be i : i ∈ enabled_lanes w be ↔ Z.testbit be i = true ∧ 0 ≤ i < w.
Proof. unfold enabled_lanes. rewrite list_elem_of_filter, elem_of_seqZ. lia || (split; intros [? ?]; split; (done || lia)). Qed.

Lemma enabled_lanes_nil w be : 0 ≤ be < 2 ^ w → enabled_lanes w be = [] ↔ be = 0.
Proof.
  intros Hbe. split.
  - intros Hnil. destruct (decide (be = 0)) as [|Hne]; [done|].
    destruct (elem_of_nil (Z.log2 be)) as [Hf _]. destruct Hf. rewrite <- Hnil. apply enabled_lanes_elem.
    split; [apply Z.bit_log2; lia|]. split; [apply Z.log2_nonneg|]. apply Z.log2_lt_pow2; lia.
  - intros ->. apply filter_none. intros i _. by rewrite Z.testbit_0_l.
Qed.

Lemma enabled_lanes_NoDup w be : NoDup (enabled_lanes w be).
Proof. apply NoDup_filter, NoDup_seqZ. Qed.

Lemma cells_of_keys v k e keys values :
  length keys = length values → (cells_of v k e keys values).*1 = keys.
Proof.
  intros Hl. unfold cells_of. rewrite <- list_fmap_compose.
  transitivity ((zip keys values).*1); [by apply list_fmap_ext; intros ? []|].
  apply fst_zip. lia.
Qed.

Lemma cells_of_elem v kd e keys values k c :
  (k, c) ∈ cells_of v kd e keys values →
  k ∈ keys ∧ ∃ x, x ∈ values ∧ c = mkCell x v kd e ∧ (k, x) ∈ zip keys values.
Proof.
  unfold cells_of. intros ([k' x] & [= -> ->] & Hin)%list_elem_of_fmap. cbn.
  split; [by apply (list_elem_of_fmap_2 fst) in Hin as Hk; eapply elem_of_zip_l|].
  exists x. split_and!; [by eapply elem_of_zip_r|done|done].
Qed.

(** ** The invariant *)

(** The configuration: windows are the bases and aliases of the regions. *)
Definition window_ok (regions : list MemoryRegion) (w : Z * Z * MemoryRegion) : Prop :=
  w.2 ∈ regions ∧ w.1.1 ∈ base w.2 :: aliases w.2 ∧ w.1.2 = w.1.1 + size w.2.

Definition disjoint_windows (w w' : Z * Z * MemoryRegion) : Prop :=
  w.1.2 ≤ w'.1.1 ∨ w'.1.2 ≤ w.1.1.

Definition in_region (regions : list MemoryRegion) (k : Key) : Prop :=
  ∃ r, r ∈ regions ∧ memory_id r = k.1 ∧ 0 ≤ k.2 < size r.

Definition seq_of (m : PersistentMemory) (id : string) : Z :=
  default 0 (_commit_sequences m !! id).

Definition cell_ok (m : PersistentMemory) (k : Key) (c : ByteCell) : Prop :=
  in_region (_regions m) k ∧ is_byte (cell_value c) ∧
  (version c).1 = generation m ∧ 0 ≤ (version c).2 ≤ seq_of m k.1.

Record memory_ok (m : PersistentMemory) : Prop := {
  mok_windows : Forall (window_ok (_regions m)) (_windows m);
  mok_disjoint : ForallOrdPairs disjoint_windows (_windows m);
  mok_cells k c : _bytes m !! k = Some c → cell_ok m k c;
  mok_budget : initialized_bytes m ≤ max_initialized_bytes m;
  mok_images k v : _initial_images m !! k = Some v → is_byte v ∧ is_Some (_bytes m !! k);
  mok_slots k : k ∈ _instruction_slots m → in_region (_regions m) k;
  mok_seq id : 0 ≤ seq_of m id }.

Lemma seq_zero regions id : default 0 (zero_sequences regions !! id) = 0.
Proof.
  unfold zero_sequences.
  destruct (list_to_map _ !! id) as [z|] eqn:Hz; [|done].
  apply elem_of_list_to_map_2, list_elem_of_fmap in Hz as (r & [= _ ->] & _). done.
Qed.

Lemma ForallOrdPairs_snoc {A} (R : A → A → Prop) l x :
  ForallOrdPairs R l → Forall (λ y, R y x) l → ForallOrdPairs R (l ++ [x]).
Proof.
  induction 1 as [|y l Hy Hl IH]; cbn; intros Hx; [repeat constructor|].
  apply Forall_cons in Hx as [? Hx]. constructor; [|by apply IH].
  apply Forall_app; split; [done|by apply Forall_singleton].
Qed.

Lemma add_windows_ok regions r bs ws ws' :
  r ∈ regions → (∀ b, b ∈ bs → b ∈ base r :: aliases r) →
  Forall (window_ok regions) ws ∧ ForallOrdPairs disjoint_windows ws →
  fold_result add_window ws ((λ b, (r, b)) <$> bs) = Ok ws' →
  Forall (window_ok regions) ws' ∧ ForallOrdPairs disjoint_windows ws'.
Proof.
  intros Hr Hbs. apply (fold_result_inv
    (λ ws, Forall (window_ok regions) ws ∧ ForallOrdPairs disjoint_windows ws)).
  intros w rb w' (b & -> & Hb)%list_elem_of_fmap [Hw Hd] Ha. unfold add_window in Ha. inv_Ok.
  match goal with H : existsb _ _ = false |- _ => rename H into He end.
  split.
  - apply Forall_app; split; [done|]. apply Forall_singleton. split_and!; [done|by apply Hbs|done].
  - apply ForallOrdPairs_snoc; [done|]. apply Forall_forall. intros [[b0 e0] r0] Hin.
    unfold disjoint_windows; cbn.
    destruct (decide (e0 ≤ b)); [by left|]. destruct (decide (b + size r ≤ b0)); [by right|].
    exfalso. assert (existsb (λ '(old_base, old_end, _), (b <? old_end) && (old_base <? b + size r)) w = true);
      [|congruence].
    apply existsb_exists. exists (b0, e0, r0). split; [by apply list_elem_of_In|].
    apply andb_true_iff. lia.
Qed.

Lemma new_memory_ok regions seed max_bytes isa m :
  new_memory regions seed max_bytes isa = Ok m → memory_ok m.
Proof.
  intros Hm. unfold new_memory, natural in Hm. inv_Ok.
  match goal with H : fold_result add_region _ _ = Ok ?s |- _ => rename H into Hf, s into st end.
  assert (Hw : Forall (window_ok regions) st.2 ∧ ForallOrdPairs disjoint_windows st.2).
  { revert Hf. apply (fold_result_inv
      (λ s, Forall (window_ok regions) s.2 ∧ ForallOrdPairs disjoint_windows s.2)).
    - intros [seen ws] r [seen' ws'] Hr Hws Ha. unfold add_region in Ha. inv_Ok. cbn.
      eapply add_windows_ok; [exact Hr| |exact Hws|eassumption]. done.
    - cbn. split; constructor. }
  destruct Hw as [Hw Hd]. split; cbn; try done.
  - unfold initialized_bytes; cbn. rewrite map_size_empty. lia.
  - intros id. unfold seq_of; cbn. by rewrite seq_zero.
Qed.

Lemma find_window_Ok a w wr ws r off :
  find_window a w wr ws = Ok (r, off) →
  ∃ b e, (b, e, r) ∈ ws ∧ b ≤ a < e ∧ a + w ≤ e ∧ off = a - b ∧
         (if wr then writable r else readable r) = true.
Proof.
  induction ws as [|[[b e] r'] ws IH]; cbn; [done|].
  destruct ((b <=? a) && (a <? e)) eqn:Hin.
  - intros H. inv_Ok. exists b, e.
    split_and!; [left|lia..|]. destruct wr; cbn in *; inv_Ok; destruct (writable r), (readable r); done.
  - intros (b' & e' & Hw & Hr)%IH. exists b', e'. split; [by right|done].
Qed.

Lemma resolve_Ok m a w wr r off :
  memory_ok m → _resolve a w wr m = Ok (r, off) →
  r ∈ _regions m ∧ 0 ≤ off ∧ off + w ≤ size r ∧ (w = 1 ∨ w = 2 ∨ w = 4 ∨ w = 8) ∧
  (if wr then writable r else readable r) = true ∧ 0 ≤ a ∧ a `mod` w = 0 ∧
  ∃ b, (b, b + size r, r) ∈ _windows m ∧ a = b + off.
Proof.
  intros Hok H. unfold _resolve, natural in H. inv_Ok.
  apply find_window_Ok in H as (b & e & Hin & Ha & Hw & -> & Hp).
  pose proof (mok_windows _ Hok) as Hws. rewrite Forall_forall in Hws.
  destruct (Hws _ Hin) as (Hr & _ & He). cbn in Hr, He. subst e.
  split_and!; try done; try lia.
  - match goal with H : in_list _ _ = true |- _ => apply bool_decide_eq_true in H;
      unfold _WIDTHS in H; repeat (apply elem_of_cons in H as [H|H]; [auto|]);
      by apply elem_of_nil in H end.
  - exists b. split; [done|lia].
Qed.

Lemma keys_in_region m r off n k :
  r ∈ _regions m → 0 ≤ off → off + n ≤ size r → k ∈ keys_at (memory_id r) off n →
  in_region (_regions m) k.
Proof. intros Hr Ho Hn [Hk Hi]%keys_at_elem. exists r. split_and!; [done..|lia|lia]. Qed.

(** *** Writing cells *)

Definition bumped (id : string) (m : PersistentMemory) : PersistentMemory :=
  set_sequences (<[id := seq_of m id + 1]> (_commit_sequences m)) m.

Lemma next_version_eq id m :
  _next_version id m = (Ok (generation m, seq_of m id + 1), bumped id m).
Proof. done. Qed.

Lemma seq_of_bumped id id' m : seq_of (bumped id m) id' = seq_of m id' + (if decide (id = id') then 1 else 0).
Proof.
  unfold seq_of at 1, bumped; cbn. rewrite lookup_insert. case_decide; subst; cbn; [done|].
  unfold seq_of. lia.
Qed.

(** Rows of new cells, all of one memory. *)
Definition rows_ok (m : PersistentMemory) (id : string) (v : Version)
    (rows : list (Key * ByteCell)) : Prop :=
  NoDup rows.*1 ∧ ∀ k c, (k, c) ∈ rows →
    in_region (_regions m) k ∧ k.1 = id ∧ is_byte (cell_value c) ∧ version c = v.

Lemma lookup_put_cells rows m k :
  NoDup rows.*1 →
  _bytes (put_cells rows m) !! k =
    match od_get rows k with Some c => Some c | None => _bytes m !! k end.
Proof. apply lookup_fold_insert. Qed.

Lemma memory_ok_bumped id m : memory_ok m → memory_ok (bumped id m).
Proof.
  intros [Hw Hd Hc Hb Hi Hs Hq]. split; try done.
  - intros k c Hk. destruct (Hc k c Hk) as (? & ? & ? & ?). do 3 (split; [done|]).
    change (0 ≤ (version c).2 ≤ seq_of (bumped id m) k.1). rewrite seq_of_bumped. case_decide; lia.
  - intros id'. rewrite seq_of_bumped. specialize (Hq id'). case_decide; lia.
Qed.

Lemma memory_ok_put id v rows m :
  memory_ok m → rows_ok m id v rows → v.1 = generation m → 0 ≤ v.2 ≤ seq_of m id →
  initialized_bytes m + count (missing m rows.*1) ≤ max_initialized_bytes m →
  memory_ok (put_cells rows m).
Proof.
  intros [Hw Hd Hc Hb Hi Hs Hq] [Hnd Hr] Hv1 Hv2 Hbud. split; try done.
  - intros k c. rewrite lookup_put_cells by done. destruct (od_get rows k) as [c'|] eqn:Hg; [|apply Hc].
    intros [= <-]. apply od_get_elem, Hr in Hg as (? & <- & ? & Hver).
    unfold cell_ok. rewrite Hver. done.
  - etrans; [|exact Hbud]. unfold initialized_bytes, count, missing, put_cells; cbn.
    rewrite <- Nat2Z.inj_add. apply Nat2Z.inj_le, size_fold_insert.
  - intros k x Hk. destruct (Hi k x Hk) as [? ?]. split; [done|].
    rewrite lookup_put_cells by done. by destruct (od_get rows k).
Qed.

Lemma cells_of_rows_ok m r off n v kd e values :
  r ∈ _regions m → 0 ≤ off → off + n ≤ size r → n = count values → Forall is_byte values →
  rows_ok m (memory_id r) v (cells_of v kd e (keys_at (memory_id r) off n) values).
Proof.
  intros Hr Ho Hn Hc Hv.
  assert (Hlen : length (keys_at (memory_id r) off n) = length values).
  { rewrite keys_at_length, Hc. unfold count. lia. }
  split; [rewrite cells_of_keys by done; apply keys_at_NoDup|].
  intros k c (Hk & x & Hx & -> & _)%cells_of_elem. split_and!; [by eapply keys_in_region| | |done].
  - by apply keys_at_elem in Hk as [-> _].
  - rewrite Forall_forall in Hv. by apply Hv.
Qed.

Lemma missing_le m keys : count (missing m keys) ≤ count keys.
Proof. unfold count, missing. apply Nat2Z.inj_le, length_filter. Qed.

(** ** The operations *)

Section operations.
Context {hashlib : Hashlib}.

(** Evaluates the leading checks of an operation that returned. *)
Ltac run_Ok H :=
  unfold_M;
  repeat match type of H with
  | context [match ?c with Ok _ => _ | Err _ => _ end] =>
      let E := fresh "E" in destruct c eqn:E; [|discriminate H]
  | context [let '(_, _) := ?p in _] => is_var p; destruct p
  end.

Lemma preload_Ok a d m m' u :
  preload a d m = (Ok u, m') →
  ∃ r off, _resolve a 1 false m = Ok (r, off) ∧ off + count d ≤ size r ∧
    (∀ k, k ∈ keys_at (memory_id r) off (count d) →
      _bytes m !! k = None ∧ k ∉ _instruction_slots m) ∧
    initialized_bytes m + count (keys_at (memory_id r) off (count d)) ≤ max_initialized_bytes m ∧
    m' = put_cells (cells_of (generation m, 0) "INITIAL_IMAGE" "initial-image"
           (keys_at (memory_id r) off (count d)) d)
           (put_images (zip (keys_at (memory_id r) off (count d)) d) m).
Proof.
  intros H. unfold preload in H. run_Ok H. injection H as _ <-. unfold _budget in *. inv_Ok.
  eexists _, _. split_and!; try done; try lia.
  intros k Hk. match goal with H : existsb _ _ = false |- _ => rename H into He end.
  apply not_true_iff_false in He. split.
  - apply eq_None_not_Some. intros Hs. apply He, existsb_exists. exists k.
    split; [by apply list_elem_of_In|]. by rewrite bool_decide_true.
  - intros Hs. apply He, existsb_exists. exists k.
    split; [by apply list_elem_of_In|]. rewrite (bool_decide_true (k ∈ _)) by done. apply orb_true_r.
Qed.

Lemma reinstall_Ok a d e m m' u :
  reinstall_image a d e m = (Ok u, m') →
  ∃ r off, _resolve a 1 false m = Ok (r, off) ∧ off + count d ≤ size r ∧
    (∀ k, k ∈ keys_at (memory_id r) off (count d) → is_Some (_initial_images m !! k)) ∧
    m' = put_cells (cells_of (generation m, seq_of m (memory_id r) + 1) "RESET_IMAGE" e
           (keys_at (memory_id r) off (count d)) d) (bumped (memory_id r) m).
Proof.
  intros H. unfold reinstall_image in H. run_Ok H. injection H as _ <-. inv_Ok.
  eexists _, _. split_and!; try done; try lia.
  intros k Hk. match goal with H : existsb _ _ = false |- _ => rename H into He end.
  apply not_true_iff_false in He. apply not_eq_None_Some. intros Hs. apply He, existsb_exists.
  exists k. split; [by apply list_elem_of_In|]. by rewrite bool_decide_true.
Qed.

Lemma declare_Ok a n m m' u :
  declare_instruction_slots a n m = (Ok u, m') →
  ∃ r off, _resolve a 4 false m = Ok (r, off) ∧ off + n * 4 ≤ size r ∧
    m' = set_slots (_instruction_slots m ∪ list_to_set (keys_at (memory_id r) off (n * 4))) m.
Proof.
  intros H. unfold declare_instruction_slots in H. run_Ok H. injection H as _ <-. inv_Ok.
  eexists _, _. split_and!; try done; lia.
Qed.

Lemma accept_Ok a d e m m' u :
  accept_instructions a d e m = (Ok u, m') →
  ∃ r off, _resolve a 4 false m = Ok (r, off) ∧ off + count d ≤ size r ∧
    (∀ k, k ∈ keys_at (memory_id r) off (count d) →
      _bytes m !! k = None ∧ k ∈ _instruction_slots m) ∧
    initialized_bytes m + count (keys_at (memory_id r) off (count d)) ≤ max_initialized_bytes m ∧
    m' = put_cells (cells_of (generation m, seq_of m (memory_id r) + 1) "INSTRUCTION_SOURCE" e
           (keys_at (memory_id r) off (count d)) d) (bumped (memory_id r) m).
Proof.
  intros H. unfold accept_instructions in H. run_Ok H. injection H as _ <-. unfold _budget in *. inv_Ok.
  eexists _, _. split_and!; try done; try lia.
  intros k Hk.
  assert (Hex : ∀ f : Key → bool, existsb f (keys_at (memory_id m0) z (count d)) = false → f k = false).
  { intros f Hf. apply not_true_iff_false in Hf. apply not_true_iff_false. intros Ht. apply Hf, existsb_exists.
    exists k. split; [by apply list_elem_of_In|done]. }
  split.
  - apply eq_None_not_Some. match goal with H : existsb (λ k, bool_decide (is_Some _)) _ = false |- _ =>
      apply Hex in H; by apply bool_decide_eq_false in H end.
  - match goal with H : existsb (λ k, negb _) _ = false |- _ => apply Hex in H end. by inv_Ok.
Qed.

(** The memory after a read materialised [absent]. *)
Definition materialize (m : PersistentMemory) (id : string) (absent : list Key) : PersistentMemory :=
  if bool_decide (absent = []) then m
  else put_cells (first_read_cell m id (generation m, seq_of m id + 1) <$> absent) (bumped id m).

Definition snapshot_of (m' : PersistentMemory) (tx : string) (r : MemoryRegion) (off g : Z)
    (keys absent : list Key) : ReadSnapshot :=
  let cells := cell_at m' <$> keys in
  mkSnapshot tx (memory_id r) g off (cell_value <$> cells) (version <$> cells)
    (writer_event_id <$> cells) (snd <$> absent) (writer_kind <$> cells).

Lemma read_Ok a w tx m m' s :
  read a w tx m = (Ok s, m') →
  ∃ r off, _resolve a w false m = Ok (r, off) ∧
    let keys := keys_at (memory_id r) off w in
    let absent := missing m keys in
    _check_instruction_ready (memory_id r) off w m = Ok () ∧
    (absent = [] ∨ writable r = true) ∧
    initialized_bytes m + count absent ≤ max_initialized_bytes m ∧
    m' = materialize m (memory_id r) absent ∧
    s = snapshot_of m' tx r off (generation m) keys absent.
Proof.
  intros H. unfold read in H. run_Ok H.
  exists m0, z. split; [done|]. cbn zeta. unfold _budget in *. 
  assert (Hu : (if bool_decide (missing m (keys_at (memory_id m0) z w) = []) then m
    else put_cells (first_read_cell m (memory_id m0) (generation m, seq_of m (memory_id m0) + 1)
           <$> missing m (keys_at (memory_id m0) z w)) (bumped (memory_id m0) m)) = m' ∧
    s = snapshot_of m' tx m0 z (generation m) (keys_at (memory_id m0) z w)
          (missing m (keys_at (memory_id m0) z w))).
  { destruct (bool_decide _); injection H as <- <-; done. }
  destruct Hu as [Hm' Hs]. inv_Ok. split_and!; try done; try lia.
  match goal with H : (_ && _) = false |- _ => apply andb_false_iff in H as [H|H]; inv_Ok end.
  - left. apply nil_length_inv. unfold count in *. lia.
  - by right.
Qed.

Lemma write_Ok a v w be e m m' u :
  write a v w be e m = (Ok u, m') →
  ∃ r off, _resolve a w true m = Ok (r, off) ∧
    let keys := lane_keys (memory_id r) off (enabled_lanes w be) in
    0 ≤ v < 2 ^ (8 * w) ∧ 0 ≤ be < 2 ^ w ∧
    initialized_bytes m + count (missing m keys) ≤ max_initialized_bytes m ∧
    (enabled_lanes w be = [] ∧ u = None ∧ m' = m ∨
     enabled_lanes w be ≠ [] ∧ u = Some (generation m, seq_of m (memory_id r) + 1) ∧
     m' = put_cells (cells_of (generation m, seq_of m (memory_id r) + 1) "STORE" e keys
            (value_byte v <$> enabled_lanes w be)) (bumped (memory_id r) m)).
Proof.
  intros H. unfold write in H. run_Ok H.
  exists m0, z. split; [done|]. cbn zeta. unfold _budget, check_store, natural in *. inv_Ok.
  rewrite Z.shiftl_1_l in *.
  split_and!; try lia. case_bool_decide; injection H as <- <-; [by left|by right].
Qed.
End operations.

(** ** Any operation *)

Inductive op :=
  | Preload (a : Z) (d : list Z)
  | Reinstall (a : Z) (d : list Z) (e : string)
  | Reserve (a n : Z)
  | AcceptInstructions (a : Z) (d : list Z) (e : string)
  | Read (a w : Z) (tx : string)
  | Write (a v w be : Z) (e : string)
  | AdvanceStep
  | WarmReset
  | ColdReset.

(** The data arguments are [bytes] objects. *)
Definition op_typed (o : op) : Prop :=
  match o with
  | Preload _ d | Reinstall _ d _ | AcceptInstructions _ d _ => Forall is_byte d
  | _ => True
  end.

Section any_operation.
Context {hashlib : Hashlib}.

Definition outcome {A} (p : result A * PersistentMemory) : result () * PersistentMemory :=
  (match p.1 with Ok _ => Ok () | Err e => Err e end, p.2).

Definition exec (o : op) (m : PersistentMemory) : result () * PersistentMemory :=
  match o with
  | Preload a d => preload a d m
  | Reinstall a d e => outcome (reinstall_image a d e m)
  | Reserve a n => declare_instruction_slots a n m
  | AcceptInstructions a d e => outcome (accept_instructions a d e m)
  | Read a w tx => outcome (read a w tx m)
  | Write a v w be e => outcome (write a v w be e m)
  | AdvanceStep => (Ok (), advance_step m)
  | WarmReset => (Ok (), warm_reset m)
  | ColdReset => (Ok (), cold_reset m)
  end.

Definition exec_all (m : PersistentMemory) (os : list op) : PersistentMemory :=
  foldl (λ m o, (exec o m).2) m os.

Ltac atomic_by_cases :=
  intros m x m' Hop; unfold outcome in *; unfold_M;
  repeat (case_match; simplify_eq/=; try done).

Lemma preload_atomic a d : failure_atomic (preload a d).
Proof. unfold preload. atomic_by_cases. Qed.
Lemma reinstall_atomic a d e : failure_atomic (reinstall_image a d e).
Proof. unfold reinstall_image. atomic_by_cases. Qed.
Lemma declare_atomic a n : failure_atomic (declare_instruction_slots a n).
Proof. unfold declare_instruction_slots. atomic_by_cases. Qed.
Lemma accept_atomic a d e : failure_atomic (accept_instructions a d e).
Proof. unfold accept_instructions. atomic_by_cases. Qed.
Lemma read_atomic a w tx : failure_atomic (read a w tx).
Proof. unfold read. atomic_by_cases. Qed.
Lemma write_atomic a v w be e : failure_atomic (write a v w be e).
Proof. unfold write. atomic_by_cases. Qed.

Lemma outcome_Ok {A} (p : result A * PersistentMemory) m' :
  outcome p = (Ok (), m') → ∃ x, p = (Ok x, m').
Proof. destruct p as [[x|e] m1]; unfold outcome; cbn; [intros [= ->]; eauto|done]. Qed.

Lemma outcome_Err {A} (p : result A * PersistentMemory) e m' :
  outcome p = (Err e, m') → p = (Err e, m').
Proof. destruct p as [[x|e'] m1]; unfold outcome; cbn; [done|by intros [= -> ->]]. Qed.

Lemma exec_atomic o : failure_atomic (exec o).
Proof.
  intros m e m' Ho. destruct o; cbn in Ho; try apply outcome_Err in Ho;
    first [ done | by eapply preload_atomic | by eapply reinstall_atomic | by eapply declare_atomic
          | by eapply accept_atomic | by eapply read_atomic | by eapply write_atomic ].
Qed.

Lemma sha_byte s i : is_byte (nth i (sha256 s) 0).
Proof.
  destruct (nth_in_or_default i (sha256 s) 0) as [Hin| ->]; [|by split].
  pose proof (sha256_bytes s) as Hf. rewrite Forall_forall in Hf. by apply Hf, list_elem_of_In.
Qed.

Lemma value_byte_range v i : is_byte (value_byte v i).
Proof.
  unfold value_byte. change 0xFF with (Z.ones 8). rewrite Z.land_ones by lia.
  by apply Z.mod_pos_bound.
Qed.

Lemma first_read_keys m id v absent : (first_read_cell m id v <$> absent).*1 = absent.
Proof. rewrite <- list_fmap_compose. apply list_fmap_id. Qed.

Lemma missing_NoDup m keys : NoDup keys → NoDup (missing m keys).
Proof. apply NoDup_filter. Qed.

Lemma missing_missing m keys : missing m (missing m keys) = missing m keys.
Proof. apply filter_all. by intros k [Hk _]%list_elem_of_filter. Qed.

Lemma materialize_ok m r off w :
  memory_ok m → r ∈ _regions m → 0 ≤ off → off + w ≤ size r →
  initialized_bytes m + count (missing m (keys_at (memory_id r) off w)) ≤ max_initialized_bytes m →
  memory_ok (materialize m (memory_id r) (missing m (keys_at (memory_id r) off w))).
Proof.
  intros Hok Hr Ho Hw Hbud. unfold materialize. case_bool_decide; [done|].
  apply memory_ok_put with (memory_id r) (generation m, seq_of m (memory_id r) + 1);
    [by apply memory_ok_bumped| |done| |].
  - split; [rewrite first_read_keys; apply missing_NoDup, keys_at_NoDup|].
    intros k c (k' & [= -> ->] & Hk)%list_elem_of_fmap. cbn.
    apply list_elem_of_filter in Hk as [_ Hk]. split_and!; [by eapply keys_in_region| | |done].
    + by apply keys_at_elem in Hk as [-> _].
    + apply sha_byte.
  - cbn. rewrite seq_of_bumped, decide_True by done. pose proof (mok_seq _ Hok (memory_id r)). lia.
  - rewrite first_read_keys. change (missing (bumped (memory_id r) m)) with (missing m).
    rewrite missing_missing. exact Hbud.
Qed.

Lemma memory_ok_images keys d m :
  memory_ok m → length keys = length d → Forall is_byte d →
  (∀ k, k ∈ keys → is_Some (_bytes m !! k)) → NoDup keys →
  memory_ok (put_images (zip keys d) m).
Proof.
  intros [Hw Hdj Hc Hb Hi Hs Hq] Hlen Hd Hkeys Hnd. split; try done.
  intros k v. cbn. rewrite lookup_fold_insert by (by rewrite fst_zip by lia).
  destruct (od_get _ k) as [x|] eqn:Hg; [|apply Hi].
  intros [= <-]. apply od_get_elem in Hg. split.
  - rewrite Forall_forall in Hd. by apply Hd, (elem_of_zip_r _ _ _ _ Hg).
  - apply Hkeys. by eapply elem_of_zip_l.
Qed.

Lemma missing_all m keys : (∀ k, k ∈ keys → _bytes m !! k = None) → missing m keys = keys.
Proof. apply filter_all. Qed.

Lemma keys_data r off (d : list Z) : length (keys_at (memory_id r) off (count d)) = length d.
Proof. rewrite keys_at_length. unfold count. lia. Qed.

Lemma cells_present v kd e keys values m k :
  length keys = length values → NoDup keys → k ∈ keys →
  is_Some (_bytes (put_cells (cells_of v kd e keys values) m) !! k).
Proof.
  intros Hlen Hnd Hk. rewrite lookup_put_cells by (by rewrite cells_of_keys).
  destruct (od_get _ k) eqn:Hg; [by eexists|].
  apply od_get_None in Hg. exfalso. apply Hg. unfold od_keys. by rewrite cells_of_keys.
Qed.

Lemma exec_preload_ok a d m m' u :
  memory_ok m → Forall is_byte d → preload a d m = (Ok u, m') → memory_ok m'.
Proof.
  intros Hok Hd (r & off & Hres & Hsz & Hfree & Hbud & ->)%preload_Ok.
  destruct (resolve_Ok _ _ _ _ _ _ Hok Hres) as (Hr & Ho & _).
  set (keys := keys_at (memory_id r) off (count d)) in *.
  change (memory_ok (put_images (zip keys d) (put_cells (cells_of (generation m, 0) "INITIAL_IMAGE"
    "initial-image" keys d) m))).
  apply memory_ok_images; [|apply keys_data|done| |apply keys_at_NoDup].
  - apply memory_ok_put with (memory_id r) (generation m, 0); [done| |done| |].
    + by apply cells_of_rows_ok.
    + cbn. pose proof (mok_seq _ Hok (memory_id r)). lia.
    + rewrite cells_of_keys by apply keys_data. rewrite missing_all; [done|]. apply Hfree.
  - intros k Hk. apply cells_present; [apply keys_data|apply keys_at_NoDup|done].
Qed.

Lemma bumped_version id m : memory_ok m → 0 ≤ seq_of m id + 1 ≤ seq_of (bumped id m) id.
Proof. intros Hok. rewrite seq_of_bumped, decide_True by done. pose proof (mok_seq _ Hok id). lia. Qed.

Lemma exec_reinstall_ok a d e m m' u :
  memory_ok m → Forall is_byte d → reinstall_image a d e m = (Ok u, m') → memory_ok m'.
Proof.
  intros Hok Hd (r & off & Hres & Hsz & Himg & ->)%reinstall_Ok.
  destruct (resolve_Ok _ _ _ _ _ _ Hok Hres) as (Hr & Ho & _).
  apply memory_ok_put with (memory_id r) (generation m, seq_of m (memory_id r) + 1);
    [by apply memory_ok_bumped| |done|by apply bumped_version|].
  - by apply cells_of_rows_ok.
  - rewrite cells_of_keys by apply keys_data.
    change (missing (bumped (memory_id r) m)) with (missing m).
    assert (missing m (keys_at (memory_id r) off (count d)) = []) as ->.
    { apply filter_none. intros k Hk Hn. destruct (Himg k Hk) as [x Hx].
      destruct (mok_images _ Hok _ _ Hx) as [_ [c Hc]]. congruence. }
    cbn. rewrite Z.add_0_r. apply Hok.
Qed.

Lemma exec_accept_ok a d e m m' u :
  memory_ok m → Forall is_byte d → accept_instructions a d e m = (Ok u, m') → memory_ok m'.
Proof.
  intros Hok Hd (r & off & Hres & Hsz & Hfree & Hbud & ->)%accept_Ok.
  destruct (resolve_Ok _ _ _ _ _ _ Hok Hres) as (Hr & Ho & _).
  apply memory_ok_put with (memory_id r) (generation m, seq_of m (memory_id r) + 1);
    [by apply memory_ok_bumped| |done|by apply bumped_version|].
  - by apply cells_of_rows_ok.
  - rewrite cells_of_keys by apply keys_data.
    change (missing (bumped (memory_id r) m)) with (missing m). rewrite missing_all; [done|].
    apply Hfree.
Qed.

Lemma exec_declare_ok a n m m' u :
  memory_ok m → declare_instruction_slots a n m = (Ok u, m') → memory_ok m'.
Proof.
  intros Hok (r & off & Hres & Hsz & ->)%declare_Ok.
  destruct (resolve_Ok _ _ _ _ _ _ Hok Hres) as (Hr & Ho & _).
  destruct Hok as [Hw Hdj Hc Hb Hi Hs Hq]. split; try done.
  intros k [Hk|Hk%elem_of_list_to_set]%elem_of_union; [by apply Hs|].
  by eapply keys_in_region.
Qed.

Lemma exec_read_ok a w tx m m' s :
  memory_ok m → read a w tx m = (Ok s, m') → memory_ok m'.
Proof.
  intros Hok (r & off & Hres & _ & _ & Hbud & -> & _)%read_Ok.
  destruct (resolve_Ok _ _ _ _ _ _ Hok Hres) as (Hr & Ho & Hw & _).
  by apply materialize_ok.
Qed.

Lemma store_rows_ok m r off w be v ver e :
  r ∈ _regions m → 0 ≤ off → off + w ≤ size r →
  rows_ok m (memory_id r) ver
    (cells_of ver "STORE" e (lane_keys (memory_id r) off (enabled_lanes w be))
      (value_byte v <$> enabled_lanes w be)).
Proof.
  intros Hr Ho Hw. assert (Hlen : length (lane_keys (memory_id r) off (enabled_lanes w be)) =
    length (value_byte v <$> enabled_lanes w be)) by (unfold lane_keys; by rewrite !length_fmap).
  split; [rewrite cells_of_keys by done; apply lane_keys_NoDup, enabled_lanes_NoDup|].
  intros k c (Hk & x & Hx & -> & _)%cells_of_elem. apply lane_keys_elem in Hk as [Hid Hl].
  apply enabled_lanes_elem in Hl as [_ Hl].
  split; [exists r; split_and!; [done..|lia|lia]|]. split; [done|].
  apply list_elem_of_fmap in Hx as (i & -> & _). split; [apply value_byte_range|done].
Qed.

Lemma exec_write_ok a v w be e m m' u :
  memory_ok m → write a v w be e m = (Ok u, m') → memory_ok m'.
Proof.
  intros Hok (r & off & Hres & _ & _ & Hbud & [(_ & _ & ->)|(_ & _ & ->)])%write_Ok; [done|].
  destruct (resolve_Ok _ _ _ _ _ _ Hok Hres) as (Hr & Ho & Hw & _).
  apply memory_ok_put with (memory_id r) (generation m, seq_of m (memory_id r) + 1);
    [by apply memory_ok_bumped| |done|by apply bumped_version|].
  - by apply store_rows_ok.
  - rewrite cells_of_keys by (unfold lane_keys; by rewrite !length_fmap). exact Hbud.
Qed.

Lemma cold_reset_ok m : memory_ok m → memory_ok (cold_reset m).
Proof.
  intros [Hw Hdj Hc Hb Hi Hs Hq]. split; try done; cbn.
  - intros k c. rewrite lookup_fmap. destruct (_initial_images m !! k) as [v|] eqn:Hk; [|done].
    intros [= <-]. destruct (Hi _ _ Hk) as [Hv [c' Hc']]. destruct (Hc _ _ Hc') as (Hr & _).
    split_and!; [done|done|done| |]; cbn; [lia|]. unfold seq_of; cbn. by rewrite seq_zero.
  - etrans; [|exact Hb]. unfold initialized_bytes; cbn. apply Nat2Z.inj_le.
    rewrite map_size_fmap, <- !size_dom. apply subseteq_size. intros k [v Hv]%elem_of_dom.
    apply elem_of_dom. by apply Hi in Hv as [_ ?].
  - intros k v Hk. destruct (Hi _ _ Hk) as [Hv _]. split; [done|]. rewrite lookup_fmap, Hk. by eexists.
  - intros id. unfold seq_of; cbn. by rewrite seq_zero.
Qed.

Lemma exec_ok o m : memory_ok m → op_typed o → memory_ok (exec o m).2.
Proof.
  intros Hok Ht. destruct (exec o m) as [[[]|x] m'] eqn:Ho; cbn.
  2: { by rewrite (exec_atomic o m x m' Ho). }
  destruct o; cbn in Ho, Ht; try (apply outcome_Ok in Ho as [? Ho]).
  - by eapply exec_preload_ok.
  - by eapply exec_reinstall_ok.
  - by eapply exec_declare_ok.
  - by eapply exec_accept_ok.
  - by eapply exec_read_ok.
  - by eapply exec_write_ok.
  - injection Ho as <-. by destruct Hok.
  - by injection Ho as <-.
  - injection Ho as <-. by apply cold_reset_ok.
Qed.

Lemma exec_frame o m :
  _regions (exec o m).2 = _regions m ∧
  generation (exec o m).2 = generation m + match o with ColdReset => 1 | _ => 0 end.
Proof.
  destruct (exec o m) as [[[]|x] m'] eqn:Ho; cbn.
  2: { rewrite (exec_atomic o m x m' Ho). destruct o; first [discriminate Ho|by split; [|cbn; lia]]. }
  destruct o; cbn in Ho; try apply outcome_Ok in Ho as [? Ho].
  - apply preload_Ok in Ho as (? & ? & _ & _ & _ & _ & ->). split; [done|cbn; lia].
  - apply reinstall_Ok in Ho as (? & ? & _ & _ & _ & ->). split; [done|cbn; lia].
  - apply declare_Ok in Ho as (? & ? & _ & _ & ->). split; [done|cbn; lia].
  - apply accept_Ok in Ho as (? & ? & _ & _ & _ & _ & ->). split; [done|cbn; lia].
  - apply read_Ok in Ho as (? & ? & _ & _ & _ & _ & -> & _). unfold materialize.
    case_bool_decide; (split; [done|cbn; lia]).
  - apply write_Ok in Ho as (? & ? & _ & _ & _ & _ & [(_ & _ & ->)|(_ & _ & ->)]); (split; [done|cbn; lia]).
  - injection Ho as <-. cbn; split; [done|lia].
  - injection Ho as <-. unfold warm_reset. split; [done|lia].
  - injection Ho as <-. cbn; split; [done|lia].
Qed.

Lemma exec_all_ok os m : memory_ok m → Forall op_typed os → memory_ok (exec_all m os).
Proof.
  intros Hok Hos. revert m Hok. induction Hos as [|o os Ho Hos IH]; intros m Hok; [done|].
  cbn. apply IH. by apply exec_ok.
Qed.
End any_operation.

(** ** Reads, stores and versions *)

Section facts.
Context {hashlib : Hashlib}.

Lemma od_get_cells v kd e keys (f : Key → Z) k :
  NoDup keys → k ∈ keys →
  od_get (cells_of v kd e keys (f <$> keys)) k = Some (mkCell (f k) v kd e).
Proof.
  intros Hnd Hk. apply od_elem_get.
  - unfold od_keys. by rewrite cells_of_keys by (by rewrite length_fmap).
  - unfold cells_of. apply list_elem_of_fmap. exists (k, f k). split; [done|].
    apply list_elem_of_lookup in Hk as [i Hi]. apply list_elem_of_lookup. exists i.
    apply lookup_zip_with_Some. exists k, (f k). split_and!; [done|done|].
    by rewrite list_lookup_fmap, Hi.
Qed.

Lemma od_get_first_read m id v absent k :
  NoDup absent →
  od_get (first_read_cell m id v <$> absent) k =
    if decide (k ∈ absent) then Some (first_read_cell m id v k).2 else None.
Proof.
  intros Hnd. case_decide as Hk.
  - apply od_elem_get; [unfold od_keys; by rewrite first_read_keys|].
    apply list_elem_of_fmap. by exists k.
  - apply od_get_None. unfold od_keys. by rewrite first_read_keys.
Qed.

Lemma materialize_lookup m id keys k :
  NoDup keys →
  _bytes (materialize m id (missing m keys)) !! k =
    if decide (k ∈ keys ∧ _bytes m !! k = None)
    then Some (first_read_cell m id (generation m, seq_of m id + 1) k).2
    else _bytes m !! k.
Proof.
  intros Hnd. assert (Hiff : k ∈ missing m keys ↔ k ∈ keys ∧ _bytes m !! k = None).
  { unfold missing. rewrite list_elem_of_filter. tauto. }
  unfold materialize. case_bool_decide as He.
  - rewrite decide_False; [done|]. rewrite <- Hiff, He. apply not_elem_of_nil.
  - rewrite lookup_put_cells by (rewrite first_read_keys; by apply missing_NoDup).
    rewrite od_get_first_read by (by apply missing_NoDup).
    destruct (decide (k ∈ missing m keys)) as [Hk|Hk].
    + by rewrite decide_True by tauto.
    + by rewrite decide_False by tauto.
Qed.

Lemma find_window_write_read a w ws x y :
  find_window a w true ws = Ok x → find_window a w false ws = Ok y → x = y.
Proof.
  induction ws as [|[[b e] r] ws IH]; cbn; [done|]. case_match; [|apply IH].
  intros H1 H2. inv_Ok. done.
Qed.

Lemma resolve_write_read m m' a w x y :
  _windows m' = _windows m → _resolve a w true m = Ok x → _resolve a w false m' = Ok y → x = y.
Proof.
  intros Hw H1 H2. unfold _resolve, natural in *. rewrite Hw in H2. inv_Ok.
  by eapply find_window_write_read.
Qed.

(** The value a read finds at a byte. *)
Definition byte_value (m : PersistentMemory) (k : Key) : Z :=
  match _bytes m !! k with Some c => cell_value c | None => _initial_byte m k end.

Lemma read_data a w tx m s m' :
  read a w tx m = (Ok s, m') →
  ∃ r off, _resolve a w false m = Ok (r, off) ∧
    data s = byte_value m <$> keys_at (memory_id r) off w ∧
    (∀ k, k ∈ keys_at (memory_id r) off w → is_Some (_bytes m' !! k)) ∧
    (∀ k c, _bytes m !! k = Some c → _bytes m' !! k = Some c) ∧
    _windows m' = _windows m ∧ generation m' = generation m.
Proof.
  intros (r & off & Hres & _ & _ & _ & -> & ->)%read_Ok. exists r, off. split; [done|].
  assert (Hl := λ k, materialize_lookup m (memory_id r) (keys_at (memory_id r) off w) k
    (keys_at_NoDup _ _ _)).
  split; [|split_and!].
  - cbn. rewrite <- list_fmap_compose. apply list_fmap_ext. intros i k Hk%list_elem_of_lookup_2.
    cbn. unfold cell_at, byte_value. rewrite Hl.
    destruct (_bytes m !! k) eqn:Hb; [by rewrite decide_False by (intros [_ ?]; congruence)|].
    by rewrite decide_True.
  - intros k Hk. rewrite Hl. case_decide as Hd; [by eexists|].
    apply not_eq_None_Some. tauto.
  - intros k c Hk. rewrite Hl, decide_False; [done|]. intros [_ ?]; congruence.
  - unfold materialize. by case_bool_decide.
  - unfold materialize. by case_bool_decide.
Qed.

(** After a store: the enabled lanes hold the new cells. *)
Lemma write_lookup a v w be e m u m1 r off (k : Key) :
  write a v w be e m = (Ok u, m1) → _resolve a w true m = Ok (r, off) →
  _bytes m1 !! k =
    if decide (k ∈ lane_keys (memory_id r) off (enabled_lanes w be))
    then Some (mkCell (value_byte v (k.2 - off)) (default (0, 0) u) "STORE" e)
    else _bytes m !! k.
Proof.
  intros (r' & off' & Hres' & Hv & Hbe & _ & Hcases)%write_Ok Hres.
  rewrite Hres in Hres'. injection Hres' as <- <-.
  set (ks := lane_keys (memory_id r) off (enabled_lanes w be)) in *.
  destruct Hcases as [(Hnil & _ & ->)|(Hne & -> & ->)].
  { rewrite decide_False; [done|]. unfold ks. rewrite Hnil. apply not_elem_of_nil. }
  assert (Hvals : value_byte v <$> enabled_lanes w be = (λ k : Key, value_byte v (k.2 - off)) <$> ks).
  { unfold ks, lane_keys. rewrite <- list_fmap_compose. apply list_fmap_ext.
    intros j x _. cbn. f_equal. lia. }
  assert (Hnd : NoDup ks) by apply lane_keys_NoDup, enabled_lanes_NoDup.
  rewrite Hvals.
  rewrite lookup_put_cells by (by rewrite cells_of_keys by (by rewrite length_fmap)).
  case_decide as Hk; [by rewrite od_get_cells|].
  match goal with |- context [od_get ?rows k] => destruct (od_get rows k) as [c|] eqn:Hg end; [|done].
  apply od_get_Some_key in Hg.
  unfold od_keys in Hg. by rewrite cells_of_keys in Hg by (by rewrite length_fmap).
Qed.

Lemma write_byte_value a v w be e m u m1 r off i :
  write a v w be e m = (Ok u, m1) → _resolve a w true m = Ok (r, off) → 0 ≤ i < w →
  byte_value m1 (memory_id r, off + i) =
    if Z.testbit be i then value_byte v i else byte_value m (memory_id r, off + i).
Proof.
  intros Hw Hres Hi.
  assert (Hin : (memory_id r, off + i) ∈ lane_keys (memory_id r) off (enabled_lanes w be) ↔
                Z.testbit be i = true).
  { rewrite lane_keys_elem, enabled_lanes_elem. cbn. replace (off + i - off) with i by lia. intuition. }
  pose proof (write_lookup _ _ _ _ _ _ _ _ _ _ (memory_id r, off + i) Hw Hres) as Hl.
  unfold byte_value at 1. rewrite Hl. destruct (Z.testbit be i).
  - rewrite decide_True by tauto. cbn. f_equal. lia.
  - rewrite decide_False by (rewrite Hin; done). unfold byte_value.
    assert (_initial_byte m1 = _initial_byte m) as ->; [|done].
    by destruct (write_Ok _ _ _ _ _ _ _ _ Hw) as (? & ? & _ & _ & _ & _ & [(_ & _ & ->)|(_ & _ & ->)]).
Qed.

Definition version_lt (v v' : Version) : Prop := v.1 < v'.1 ∨ v.1 = v'.1 ∧ v.2 < v'.2.

(** New rows at a version no old cell has reached. *)
Lemma put_newer m rows id ver k c c' :
  memory_ok m → rows_ok m id ver rows → ver = (generation m, seq_of m id + 1) →
  _bytes m !! k = Some c → _bytes (put_cells rows (bumped id m)) !! k = Some c' →
  c' = c ∨ version_lt (version c) (version c').
Proof.
  intros Hok [Hnd Hr] -> Hk. rewrite lookup_put_cells by done.
  destruct (od_get rows k) as [x|] eqn:Hg; [|by intros H; left; cbn in H; congruence].
  intros [= <-]. right. apply od_get_elem, Hr in Hg as (_ & <- & _ & ->).
  destruct (mok_cells _ Hok _ _ Hk) as (_ & _ & Hg & Hs). right. cbn. split; [done|lia].
Qed.

Lemma put_absent m rows k c :
  NoDup rows.*1 → (∀ k, k ∈ rows.*1 → _bytes m !! k = None) →
  _bytes m !! k = Some c → _bytes (put_cells rows m) !! k = Some c.
Proof.
  intros Hnd Ha Hk. rewrite lookup_put_cells by done.
  destruct (od_get rows k) eqn:Hg; [|done]. apply od_get_Some_key, Ha in Hg. congruence.
Qed.

(** The operations that may replace a determined byte. *)
Definition replaces (o : op) : bool :=
  match o with Reinstall _ _ _ | Write _ _ _ _ _ | ColdReset => true | _ => false end.

Lemma keeps_bytes o m k c :
  replaces o = false → _bytes m !! k = Some c → _bytes (exec o m).2 !! k = Some c.
Proof.
  intros Hr Hk. destruct (exec o m) as [[[]|x] m'] eqn:Ho; cbn.
  2: { by rewrite (exec_atomic o m x m' Ho). }
  destruct o; cbn in Ho, Hr; try done; try (apply outcome_Ok in Ho as [? Ho]).
  - apply preload_Ok in Ho as (r & off & _ & _ & Hfree & _ & ->).
    apply (put_absent m _ k c); [..|done];
      rewrite cells_of_keys by apply keys_data; [apply keys_at_NoDup|apply Hfree].
  - by apply declare_Ok in Ho as (r & off & _ & _ & ->).
  - apply accept_Ok in Ho as (r & off & _ & _ & Hfree & _ & ->).
    apply (put_absent (bumped (memory_id r) m) _ k c); [..|done];
      rewrite cells_of_keys by apply keys_data; [apply keys_at_NoDup|apply Hfree].
  - by apply read_data in Ho as (r & off & _ & _ & _ & Hkeep & _); apply Hkeep.
  - by injection Ho as <-.
  - by injection Ho as <-.
Qed.

Lemma versions_increase o m k c c' :
  memory_ok m → op_typed o → _bytes m !! k = Some c → _bytes (exec o m).2 !! k = Some c' →
  c' = c ∨ version_lt (version c) (version c').
Proof.
  intros Hok Ht Hk. destruct (replaces o) eqn:Hr.
  2: { rewrite (keeps_bytes o m k c Hr Hk). intros [= ->]. by left. }
  destruct (exec o m) as [[[]|x] m'] eqn:Ho; cbn.
  2: { rewrite (exec_atomic o m x m' Ho). intros Hk'. left. congruence. }
  destruct o; try done; cbn in Ho, Ht; try (apply outcome_Ok in Ho as [? Ho]).
  - apply reinstall_Ok in Ho as (r & off & Hres & Hsz & _ & ->).
    destruct (resolve_Ok _ _ _ _ _ _ Hok Hres) as (Hreg & Hoff & _).
    eapply put_newer; [done| |done|done]. by apply cells_of_rows_ok.
  - apply write_Ok in Ho as (r & off & Hres & _ & _ & _ & [(_ & _ & ->)|(_ & _ & ->)]).
    { intros ?. left. congruence. }
    destruct (resolve_Ok _ _ _ _ _ _ Hok Hres) as (Hreg & Hoff & Hw & _).
    eapply put_newer; [done| |done|done]. by apply store_rows_ok.
  - injection Ho as <-. cbn. rewrite lookup_fmap. destruct (_initial_images m !! k); [|done].
    intros [= <-]. right. left. cbn. destruct (mok_cells _ Hok _ _ Hk) as (_ & _ & Hg & _). lia.
Qed.
End facts.

(** ** Properties *)

Section properties.
Context {hashlib : Hashlib}.

Lemma resolve_same_windows m m' a w wr :
  _windows m' = _windows m → _resolve a w wr m' = _resolve a w wr m.
Proof. intros Hw. unfold _resolve. by rewrite Hw. Qed.

Lemma write_windows a v w be e m u m1 : write a v w be e m = (Ok u, m1) → _windows m1 = _windows m
  ∧ (∀ k, _initial_byte m1 k = _initial_byte m k).
Proof. by intros (r & off & _ & _ & _ & _ & [(_ & _ & ->)|(_ & _ & ->)])%write_Ok. Qed.

Lemma validated_read a w tx m :
  tx ≠ EmptyString →
  match validate_read a w m with
  | Ok _ => ∃ s m', read a w tx m = (Ok s, m')
  | Err e => read a w tx m = (Err e, m)
  end.
Proof.
  intros Htx. unfold validate_read, read. unfold_M. unfold empty. rewrite (bool_decide_false (tx = _)) by done.
  cbn [raise_if]. destruct (_resolve a w false m) as [[r off]|e]; [|done]. cbn.
  destruct (_check_instruction_ready _ _ _ _) as [[]|e]; [|done]. cbn.
  destruct (raise_if _ _) as [[]|e]; [|done]. cbn.
  destruct (_budget _ _) as [[]|e]; [|done]. case_bool_decide; eauto.
Qed.

Lemma validated_write a w v be tx m :
  tx ≠ EmptyString →
  match validate_write a v w be m with
  | Ok _ => ∃ u m', write a v w be tx m = (Ok u, m')
  | Err e => write a v w be tx m = (Err e, m)
  end.
Proof.
  intros Htx. unfold validate_write, write. unfold_M. unfold empty. rewrite (bool_decide_false (tx = _)) by done.
  cbn [raise_if]. destruct (_resolve a w true m) as [[r off]|e]; [|done]. cbn.
  destruct (check_store _ _ _) as [[]|e]; [|done]. cbn.
  destruct (_budget _ _) as [[]|e]; [|done]. case_bool_decide; eauto.
Qed.

(** C3.  Every reachable memory is well formed.  From any configuration the
    constructor accepts, whatever operations are run (failing ones included):
    windows are disjoint and cover declared regions; every determined byte
    lies inside its region, holds a byte value, and its version belongs to the
    current generation and is no newer than the memory's commit sequence; the
    initialised-byte budget is never exceeded; and every initial image byte is
    determined. *)
Theorem memory_invariant regions seed max_bytes isa m0 os :
  new_memory regions seed max_bytes isa = Ok m0 → Forall op_typed os →
  let m := exec_all m0 os in
  ForallOrdPairs disjoint_windows (_windows m) ∧
  Forall (window_ok (_regions m)) (_windows m) ∧
  (∀ k c, _bytes m !! k = Some c → cell_ok m k c) ∧
  initialized_bytes m ≤ max_initialized_bytes m ∧
  (∀ k v, _initial_images m !! k = Some v → is_byte v ∧ is_Some (_bytes m !! k)) ∧
  (∀ k, k ∈ _instruction_slots m → in_region (_regions m) k).
Proof.
  intros Hm Hos m.
  destruct (exec_all_ok os m0 (new_memory_ok _ _ _ _ _ Hm) Hos) as [? ? ? ? ? ? ?].
  done.
Qed.

(** Failure atomicity.  An operation of the memory that raises, at any
    point and for any reason, leaves the memory exactly as it was: no byte, no
    version, no commit sequence and no reservation changes. *)
Lemma failed_operation_changes_nothing o : failure_atomic (exec o).
Proof. intros m e m' Ho. by apply (exec_atomic o m e m'). Qed.

(** C4.  A store is read back.  After a successful [write], a successful
    [read] of the same width through any address of the same bytes (the base
    window or an alias) returns, lane by lane, the stored byte where the byte
    enable is set and otherwise what a read would have found there before. *)
Theorem write_then_read a a' v w be e tx m m1 m2 u s r off :
  write a v w be e m = (Ok u, m1) → read a' w tx m1 = (Ok s, m2) →
  _resolve a w true m = Ok (r, off) → _resolve a' w false m = Ok (r, off) →
  data s = (λ i, if Z.testbit be i then value_byte v i
                 else byte_value m (memory_id r, off + i)) <$> seqZ 0 w.
Proof.
  intros Hw Hr Hres Hres'. destruct (write_windows _ _ _ _ _ _ _ _ Hw) as [Hwin _].
  apply read_data in Hr as (r' & off' & Hrr & -> & _).
  rewrite (resolve_same_windows m m1), Hres' in Hrr by done. injection Hrr as <- <-.
  unfold keys_at. rewrite <- list_fmap_compose. apply list_fmap_ext.
  intros j i Hi%list_elem_of_lookup_2%elem_of_seqZ. cbn.
  eapply write_byte_value; [done..|lia].
Qed.

(** Reads are stable.  A successful read determines its bytes: reading
    the same span again succeeds, returns the same data, versions and writers,
    materialises nothing and leaves the memory unchanged. *)
Lemma read_is_stable a w tx tx' m m1 s :
  read a w tx m = (Ok s, m1) → tx' ≠ EmptyString →
  ∃ s', read a w tx' m1 = (Ok s', m1) ∧ data s' = data s ∧ versions s' = versions s ∧
    writer_event_ids s' = writer_event_ids s ∧ writer_kinds s' = writer_kinds s ∧
    materialized_offsets s' = [] ∧ snapshot_value s' = snapshot_value s.
Proof.
  intros Hr Htx. pose proof Hr as (r0 & off0 & Hres0 & _ & Hpres & _ & Hwin & Hgen)%read_data.
  apply read_Ok in Hr as (r & off & Hres & Hready & _ & Hbud & Hm1 & ->).
  rewrite Hres in Hres0. injection Hres0 as <- <-.
  set (keys := keys_at (memory_id r) off w) in *.
  assert (Hnone : missing m1 keys = []).
  { apply filter_none. intros k Hk Hn. destruct (Hpres k Hk). congruence. }
  assert (Hready1 : _check_instruction_ready (memory_id r) off w m1 = Ok ()).
  { unfold _check_instruction_ready in *. apply raise_if_Ok. apply not_true_iff_false.
    intros (k & Hk & Hp)%existsb_exists. unfold slot_pending in Hp.
    apply andb_true_iff in Hp as [_ Hp%bool_decide_eq_true].
    apply list_elem_of_In, Hpres in Hk as [? ?]. congruence. }
  assert (Hbud1 : initialized_bytes m1 ≤ max_initialized_bytes m1).
  { subst m1. unfold materialize. case_bool_decide as Hn.
    - rewrite Hn in Hbud. unfold count in Hbud. cbn [length] in Hbud. lia.
    - etrans; [|exact Hbud]. unfold initialized_bytes, count, put_cells; cbn.
      rewrite <- Nat2Z.inj_add. apply Nat2Z.inj_le. etrans; [apply size_fold_insert|].
      rewrite first_read_keys. change (filter _ (missing m keys)) with (missing m (missing m keys)).
      by rewrite missing_missing. }
  assert (Hb0 : _budget (count ([] : list Key)) m1 = Ok ()).
  { unfold _budget. apply raise_if_Ok, Z.ltb_ge. unfold count. cbn [length]. lia. }
  unfold read. unfold_M. unfold empty. rewrite (bool_decide_false (tx' = EmptyString)) by done.
  cbn [raise_if]. rewrite (resolve_same_windows m m1), Hres by done. fold keys.
  rewrite Hready1, Hnone, Hb0. cbn.
  eexists. split; [reflexivity|]. cbn. done.
Qed.

(**  Determined bytes are never overwritten by admission: preloading,
    declaring slots, accepting instructions and reading leave every byte that
    is already determined untouched; and whenever any operation changes a
    determined byte, its new version is strictly newer. *)
Lemma determined_bytes_only_move_forward regions seed max_bytes isa m0 os o k c :
  new_memory regions seed max_bytes isa = Ok m0 → Forall op_typed os → op_typed o →
  let m := exec_all m0 os in
  _bytes m !! k = Some c →
  (replaces o = false → _bytes (exec o m).2 !! k = Some c) ∧
  (∀ c', _bytes (exec o m).2 !! k = Some c' → c' = c ∨ version_lt (version c) (version c')).
Proof.
  intros Hm Hos Ho m Hk.
  pose proof (exec_all_ok os m0 (new_memory_ok _ _ _ _ _ Hm) Hos) as Hok. split.
  - intros Hr. by apply keeps_bytes.
  - intros c'. by apply versions_increase.
Qed.

(**  Admission checks are exact.  [validate_read] and [validate_write]
    change nothing and foresee the operation: given the nonempty identity it
    needs, the read (store) succeeds exactly when its check passes, and
    otherwise raises the very exception of the check. *)
Lemma validation_is_exact a w v be tx m :
  tx ≠ EmptyString →
  match validate_read a w m with
  | Ok _ => ∃ s m', read a w tx m = (Ok s, m')
  | Err e => read a w tx m = (Err e, m)
  end ∧
  match validate_write a v w be m with
  | Ok _ => ∃ u m', write a v w be tx m = (Ok u, m')
  | Err e => write a v w be tx m = (Err e, m)
  end.
Proof.
  intros Htx. split; [by apply validated_read|by apply validated_write].
Qed.
End properties.

(** *** The hypotheses are satisfiable *)

Module Example_memory.
#[local] Existing Instance checksum_hashlib.

Definition ram : MemoryRegion := mkRegion "ram" 0x1000 16 [0x8000] true true.
Definition start : PersistentMemory :=
  match new_memory [ram] 7 12 None with Ok m => m
  | Err _ => mkMemory [] [] 0 None 0 0 0 ∅ ∅ ∅ ∅ end.
Definition script : list op :=
  [Preload 0x1000 [1; 2]; Read 0x1004 2 "t"; Write 0x8000 0xAABB 2 3 "e"; Read 0x1001 2 "t"].

Lemma script_typed : Forall op_typed script.
Proof. repeat constructor; discriminate. Qed.

Lemma memory_invariant_witness :
  let m := exec_all start script in
  ForallOrdPairs disjoint_windows (_windows m) ∧
  Forall (window_ok (_regions m)) (_windows m) ∧
  (∀ k c, _bytes m !! k = Some c → cell_ok m k c) ∧
  initialized_bytes m ≤ max_initialized_bytes m ∧
  (∀ k v, _initial_images m !! k = Some v → is_byte v ∧ is_Some (_bytes m !! k)) ∧
  (∀ k, k ∈ _instruction_slots m → in_region (_regions m) k).
Proof. exact (memory_invariant [ram] 7 12 None start script eq_refl script_typed). Defined.

Definition stored : PersistentMemory := (write 0x1002 0xCCDD 2 1 "w" start).2.
Definition stored_result : result (option Version) := (write 0x1002 0xCCDD 2 1 "w" start).1.
Definition fetched : PersistentMemory := (read 0x8002 2 "t" stored).2.
Definition snapshot : ReadSnapshot :=
  match (read 0x8002 2 "t" stored).1 with
  | Ok s => s | Err _ => mkSnapshot "" "" 0 0 [] [] [] [] [] end.

Lemma write_then_read_witness :
  data snapshot = (λ i, if Z.testbit 1 i then value_byte 0xCCDD i
                        else byte_value start ("ram", 2 + i)) <$> seqZ 0 2.
Proof.
  apply (write_then_read 0x1002 0x8002 0xCCDD 2 1 "w" "t" start stored fetched (Some (0, 1))
    snapshot ram 2); vm_compute; reflexivity.
Defined.

Lemma read_is_stable_witness :
  ∃ s', read 0x8002 2 "u" fetched = (Ok s', fetched) ∧ data s' = data snapshot ∧
    versions s' = versions snapshot ∧ writer_event_ids s' = writer_event_ids snapshot ∧
    writer_kinds s' = writer_kinds snapshot ∧ materialized_offsets s' = [] ∧
    snapshot_value s' = snapshot_value snapshot.
Proof.
  apply (read_is_stable 0x8002 2 "t" "u" stored fetched snapshot).
  - vm_compute. reflexivity.
  - discriminate.
Defined.

Lemma determined_bytes_only_move_forward_witness :
  let m := exec_all start script in
  (replaces (Write 0x1000 5 1 1 "x") = false →
    _bytes (exec (Write 0x1000 5 1 1 "x") m).2 !! ("ram", 0) =
    Some (cell_at m ("ram", 0))) ∧
  (∀ c', _bytes (exec (Write 0x1000 5 1 1 "x") m).2 !! ("ram", 0) = Some c' →
    c' = cell_at m ("ram", 0) ∨ version_lt (version (cell_at m ("ram", 0))) (version c')).
Proof.
  exact (determined_bytes_only_move_forward [ram] 7 12 None start script (Write 0x1000 5 1 1 "x")
    ("ram", 0) (cell_at (exec_all start script) ("ram", 0)) eq_refl script_typed I
    ltac:(vm_compute; reflexivity)).
Defined.

Lemma validation_is_exact_witness :
  match validate_read 0x1000 4 start with
  | Ok _ => ∃ s m', read 0x1000 4 "t" start = (Ok s, m')
  | Err e => read 0x1000 4 "t" start = (Err e, start)
  end ∧
  match validate_write 0x1000 9 4 15 start with
  | Ok _ => ∃ u m', write 0x1000 9 4 15 "t" start = (Ok u, m')
  | Err e => write 0x1000 9 4 15 "t" start = (Err e, start)
  end.
Proof. apply (validation_is_exact 0x1000 4 9 15 "t" start). discriminate. Defined.
End Example_memory.
