(* ===== verification/Ledger.v ===== *)
(** * Transaction identity and at-most-once delivery

    Models [src/src/myfuzz/scenario/ledger.py]: [TransactionKey], the ledger's
    entries, and its methods.  A target operation is any computation on a
    world [W] that may raise; its assignments survive the raise.

    The theorems: whatever sequence of calls is made, on each source channel
    targets run in strictly increasing source sequence (so a key runs at most
    once); a completed key replays its frozen receipt without running
    anything; the same key with another payload digest is refused; a target
    that raised is never run, cancelled or confirmed later. *)

From S2P Require Import Prelude Json.

Local Open Scope Z_scope.

Record TransactionKey := mkKey {
  execution_id : string;
  testcase_id : string;
  source_component : string;
  source_epoch : Z;
  channel_id : string;
  source_sequence : Z }.

#[export] Instance TransactionKey_eq_dec : EqDecision TransactionKey.
Proof. solve_decision. Defined.

(** [TransactionKey.__post_init__]: the constructor checks the fields. *)
Definition TransactionKey_post_init (k : TransactionKey) : result TransactionKey :=
  raise_if (bool_decide (execution_id k = "") || bool_decide (testcase_id k = "")
    || bool_decide (source_component k = "") || bool_decide (channel_id k = ""))
    (ValueError "transaction identity fields must be nonempty") ;;
  raise_if (source_epoch k <? 0) (ValueError "source_epoch must be nonnegative") ;;
  raise_if (source_sequence k <? 0) (ValueError "source_sequence must be nonnegative") ;;
  mret k.

Inductive Status :=
  | target_pending | target_inflight | uncertain_effect | complete | cancelled.

#[export] Instance Status_eq_dec : EqDecision Status.
Proof. solve_decision. Defined.

Definition status_name (s : Status) : string :=
  match s with
  | target_pending => "target_pending"
  | target_inflight => "target_inflight"
  | uncertain_effect => "uncertain_effect"
  | complete => "complete"
  | cancelled => "cancelled"
  end.

Definition Channel : Type := string * string * string * Z * string.

Definition _channel (k : TransactionKey) : Channel :=
  (execution_id k, testcase_id k, source_component k, source_epoch k, channel_id k).

Section ledger.
Context `{Hashlib} {T W : Type}.

Record Entry := mkEntry {
  payload_digest : string;
  status : Status;
  receipt : option T }.

Record Ledger := mkLedger {
  _entries : list (TransactionKey * Entry);
  _next_channel_sequence : gmap Channel Z;
  _next_target_sequence : gmap Channel Z }.

(** [__init__] *)
Definition new_ledger : Ledger := mkLedger [] ∅ ∅.

Definition next_channel (l : Ledger) (c : Channel) : Z :=
  default 1 (_next_channel_sequence l !! c).
Definition next_target (l : Ledger) (c : Channel) : Z :=
  default 1 (_next_target_sequence l !! c).

(** [_digest]: only a [dict] is a payload. *)
Definition _digest (payload : json) : result string :=
  match payload with
  | JObj _ => Ok (hexdigest (dumps payload))
  | _ => Err (ValueError "transaction payload is required")
  end.

Definition keys_with (p : Status → bool) (l : Ledger) : list TransactionKey :=
  (filter (λ ke, p (status ke.2) = true) (_entries l)).*1.

Definition pending_keys : Ledger → list TransactionKey :=
  keys_with (λ s, bool_decide (s = target_pending)).
Definition uncertain_keys : Ledger → list TransactionKey :=
  keys_with (λ s, bool_decide (s = target_inflight) || bool_decide (s = uncertain_effect)).
Definition unresolved_keys : Ledger → list TransactionKey :=
  keys_with (λ s, negb (bool_decide (s = complete) || bool_decide (s = cancelled))).

Definition target_ready (l : Ledger) (k : TransactionKey) : bool :=
  match od_get (_entries l) k with
  | Some e => bool_decide (status e = target_pending)
              && (source_sequence k =? next_target l (_channel k))
  | None => false
  end.

(** Assignments to the object's fields. *)
Definition put_entry (k : TransactionKey) (e : Entry) (l : Ledger) : Ledger :=
  mkLedger (od_set (_entries l) k e) (_next_channel_sequence l) (_next_target_sequence l).
Definition put_next_channel (c : Channel) (n : Z) (l : Ledger) : Ledger :=
  mkLedger (_entries l) (<[c := n]> (_next_channel_sequence l)) (_next_target_sequence l).
Definition put_next_target (c : Channel) (n : Z) (l : Ledger) : Ledger :=
  mkLedger (_entries l) (_next_channel_sequence l) (<[c := n]> (_next_target_sequence l)).
Definition with_status (e : Entry) (s : Status) : Entry :=
  mkEntry (payload_digest e) s (receipt e).
Definition with_receipt (e : Entry) (r : T) : Entry :=
  mkEntry (payload_digest e) complete (Some r).

Definition out_of_order (what : string) (k : TransactionKey) (expected : Z) : exn :=
  ValueError (what +:+ ": source channel sequence " +:+ pretty (source_sequence k)
              +:+ " expected " +:+ pretty expected).

(** [accept]: take a source handshake without running its target. *)
Definition accept (k : TransactionKey) (payload : json) : M Ledger bool :=
  digest ← reads (λ _, _digest payload);
  previous ← gets (λ l, od_get (_entries l) k);
  match previous with
  | Some e =>
      check (negb (bool_decide (payload_digest e = digest)))
        (ValueError "identity_conflict: same key, different payload") ;;
      match status e with
      | target_pending | complete => mret false
      | s => raise (RuntimeError (status_name s +:+ ": target result is not available"))
      end
  | None =>
      expected ← gets (λ l, next_channel l (_channel k));
      check (negb (source_sequence k =? expected))
        (out_of_order "out_of_order_transaction" k expected) ;;
      modify (put_entry k (mkEntry digest target_pending None)) ;;
      modify (put_next_channel (_channel k) (expected + 1)) ;;
      mret true
  end.

(** Run the target between the [target_inflight] and the final assignment of
    the entry; a raise leaves the entry [uncertain_effect]. *)
Definition run_target (k : TransactionKey) (e : Entry) (expected : Z)
    (operation : M W T) : M (Ledger * W) (option T) := λ '(l, w),
  let l1 := put_entry k (with_status e target_inflight) l in
  match operation w with
  | (Err ex, w') => (Err ex, (put_entry k (with_status e uncertain_effect) l1, w'))
  | (Ok r, w') =>
      (Ok (Some r),
       (put_next_target (_channel k) (expected + 1) (put_entry k (with_receipt e r) l1), w'))
  end.

(** [complete_accepted] *)
Definition complete_accepted (k : TransactionKey) (payload : json)
    (operation : M W T) : M (Ledger * W) (option T) :=
  digest ← reads (λ _, _digest payload);
  e ← reads (λ '(l, _), match od_get (_entries l) k with
                        | Some e => Ok e
                        | None => Err (ValueError "transaction was not accepted")
                        end);
  check (negb (bool_decide (payload_digest e = digest)))
    (ValueError "identity_conflict: same key, different payload") ;;
  if decide (status e = complete) then mret (receipt e)
  else
    check (negb (bool_decide (status e = target_pending)))
      (RuntimeError (status_name (status e) +:+ ": target result is not available")) ;;
    expected ← gets (λ '(l, _), next_target l (_channel k));
    check (negb (source_sequence k =? expected))
      (out_of_order "out_of_order_target_delivery" k expected) ;;
    run_target k e expected operation.

(** [cancel_accepted] *)
Definition cancel_accepted (k : TransactionKey) (payload : json) : M Ledger () :=
  digest ← reads (λ _, _digest payload);
  e ← reads (λ l, match od_get (_entries l) k with
                  | Some e => if decide (payload_digest e = digest) then Ok e else
                      Err (ValueError "transaction identity does not match accepted request")
                  | None =>
                      Err (ValueError "transaction identity does not match accepted request")
                  end);
  check (negb (bool_decide (status e = target_pending)))
    (RuntimeError "only an undelivered target request can be cancelled") ;;
  expected ← gets (λ l, next_target l (_channel k));
  check (negb (source_sequence k =? expected))
    (ValueError "out_of_order_target_delivery: cancellation order changed") ;;
  modify (put_entry k (with_status e cancelled)) ;;
  modify (put_next_target (_channel k) (expected + 1)).

(** [execute_once] *)
Definition execute_once (k : TransactionKey) (payload : json)
    (operation : M W T) : M (Ledger * W) (option T) :=
  digest ← reads (λ _, _digest payload);
  previous ← gets (λ '(l, _), od_get (_entries l) k);
  match previous with
  | Some e =>
      check (negb (bool_decide (payload_digest e = digest)))
        (ValueError "identity_conflict: same key, different payload") ;;
      check (negb (bool_decide (status e = complete)))
        (RuntimeError "uncertain_effect: target result is not known") ;;
      mret (receipt e)
  | None =>
      expected_sequence ← gets (λ '(l, _), next_channel l (_channel k));
      check (negb (source_sequence k =? expected_sequence))
        (out_of_order "out_of_order_transaction" k expected_sequence) ;;
      expected_target ← gets (λ '(l, _), next_target l (_channel k));
      check (negb (source_sequence k =? expected_target))
        (out_of_order "out_of_order_target_delivery" k expected_target) ;;
      let e := mkEntry digest target_pending None in
      modify (prod_map (put_entry k e) id) ;;
      modify (prod_map (put_next_channel (_channel k) (expected_sequence + 1)) id) ;;
      run_target k e expected_target operation
  end.
End ledger.

Arguments Entry T : clear implicits.
Arguments Ledger T : clear implicits.

(** ** Calls and executions

    Every client drives the ledger through these four methods.  [traced]
    records in the world that the operation of a key really ran. *)

Section trace.
Context `{Hashlib} {T W : Type}.
Implicit Types (l : Ledger T) (e : Entry T) (k : TransactionKey).

Inductive call :=
  | Accept (k : TransactionKey) (payload : json)
  | Complete (k : TransactionKey) (payload : json) (operation : M W T)
  | Cancel (k : TransactionKey) (payload : json)
  | Execute (k : TransactionKey) (payload : json) (operation : M W T).

Definition traced (k : TransactionKey) (operation : M W T)
    : M (W * list TransactionKey) T := λ '(w, log),
  let '(r, w') := operation w in (r, (w', log ++ [k])).

Definition state : Type := Ledger T * (W * list TransactionKey).

Definition run_call (c : call) (s : state) : state :=
  match c with
  | Accept k p => ((accept k p s.1).2, s.2)
  | Complete k p op => (complete_accepted k p (traced k op) s).2
  | Cancel k p => ((cancel_accepted k p s.1).2, s.2)
  | Execute k p op => (execute_once k p (traced k op) s).2
  end.

Definition run_calls (s : state) (cs : list call) : state :=
  foldl (λ s c, run_call c s) s cs.

Definition executions (s : state) : list TransactionKey := s.2.2.

(** ** The invariant *)

Definition channel_log (c : Channel) (log : list TransactionKey) : list Z :=
  source_sequence <$> filter (λ k, _channel k = c) log.

Definition status_ok (n : Z) (k : TransactionKey) (e : Entry T) : Prop :=
  match status e with
  | target_pending => n ≤ source_sequence k
  | target_inflight => False
  | uncertain_effect => source_sequence k = n
  | complete => source_sequence k < n ∧ is_Some (receipt e)
  | cancelled => source_sequence k < n
  end.

Record ledger_ok (l : Ledger T) (log : list TransactionKey) : Prop := {
  ok_nodup : NoDup (od_keys (_entries l));
  ok_range k e : od_get (_entries l) k = Some e →
    1 ≤ source_sequence k < next_channel l (_channel k);
  ok_contiguous c n : 1 ≤ n < next_channel l c →
    ∃ k e, od_get (_entries l) k = Some e ∧ _channel k = c ∧ source_sequence k = n;
  ok_status k e : od_get (_entries l) k = Some e →
    status_ok (next_target l (_channel k)) k e;
  ok_targets c : 1 ≤ next_target l c ≤ next_channel l c;
  ok_log k : k ∈ log → ∃ e, od_get (_entries l) k = Some e ∧
    (status e = complete ∨ status e = uncertain_effect);
  ok_order c : StronglySorted Z.lt (channel_log c log) }.

Lemma key_ext k k' :
  _channel k = _channel k' → source_sequence k = source_sequence k' → k = k'.
Proof. destruct k, k'; unfold _channel; cbn. naive_solver. Qed.

Lemma channel_log_snoc (c : Channel) log k :
  channel_log c (log ++ [k]) =
    channel_log c log ++ (if decide (_channel k = c) then [source_sequence k] else []).
Proof.
  unfold channel_log. rewrite filter_app, fmap_app. f_equal.
  rewrite filter_cons, filter_nil. by case_decide.
Qed.

Lemma channel_log_bound l log k c n :
  ledger_ok l log → n ∈ channel_log c log → _channel k = c →
  source_sequence k = next_target l c →
  (∃ e, od_get (_entries l) k = Some e ∧ status e = target_pending) → n < source_sequence k.
Proof.
  intros Hok (k' & -> & [Hc Hin]%list_elem_of_filter)%list_elem_of_fmap Hk Hs (e & He & Hp).
  destruct (ok_log _ _ Hok _ Hin) as (e' & He' & Hst).
  pose proof (ok_status _ _ Hok _ _ He') as Hs'. unfold status_ok in Hs'.
  destruct Hst as [Hst|Hst]; rewrite Hst, Hc, <- Hs in Hs'; [lia|].
  rewrite <- Hk in Hc. rewrite (key_ext k' k Hc Hs') in He'. congruence.
Qed.

Lemma StronglySorted_snoc (l : list Z) x :
  StronglySorted Z.lt l → (∀ n, n ∈ l → n < x) → StronglySorted Z.lt (l ++ [x]).
Proof.
  induction 1 as [|y l Hl IH Hy]; cbn; intros Hx; [repeat constructor|].
  constructor; [apply IH; set_solver|].
  apply Forall_app; split; [done|]. apply Forall_singleton, Hx. left.
Qed.

(** *** The four transitions of an entry *)

Lemma next_channel_put l (c c' : Channel) n :
  next_channel (put_next_channel c n l) c' = if decide (c = c') then n else next_channel l c'.
Proof.
  unfold next_channel; cbn. rewrite lookup_insert. by case_decide.
Qed.

Lemma next_target_put l (c c' : Channel) n :
  next_target (put_next_target c n l) c' = if decide (c = c') then n else next_target l c'.
Proof.
  unfold next_target; cbn. rewrite lookup_insert. by case_decide.
Qed.

Lemma next_channel_put_entry l k e (c : Channel) :
  next_channel (put_entry k e l) c = next_channel l c.
Proof. done. Qed.
Lemma next_target_put_entry l k e (c : Channel) :
  next_target (put_entry k e l) c = next_target l c.
Proof. done. Qed.
Lemma next_target_put_channel l (c c' : Channel) n :
  next_target (put_next_channel c n l) c' = next_target l c'.
Proof. done. Qed.
Lemma next_channel_put_target l (c c' : Channel) n :
  next_channel (put_next_target c n l) c' = next_channel l c'.
Proof. done. Qed.

Lemma ledger_ok_new : ledger_ok new_ledger [].
Proof.
  split; cbn; try done.
  - apply NoDup_nil_2.
  - intros c n Hn. assert (next_channel (T := T) new_ledger c = 1) by done. lia.
  - by intros k ?%not_elem_of_nil.
  - constructor.
Qed.

Lemma ledger_ok_accept l log k digest :
  ledger_ok l log → od_get (_entries l) k = None →
  source_sequence k = next_channel l (_channel k) →
  ledger_ok (put_next_channel (_channel k) (next_channel l (_channel k) + 1)
              (put_entry k (mkEntry digest target_pending None) l)) log.
Proof.
  intros Hok Hk Hseq. pose proof (ok_targets _ _ Hok (_channel k)) as Ht.
  split.
  - apply od_set_NoDup, Hok.
  - intros k' e. rewrite next_channel_put. cbn. rewrite od_get_set.
    destruct (decide (k = k')) as [->|].
    + rewrite decide_True by done. lia.
    + intros Hr%(ok_range _ _ Hok). case_decide as Hc; [rewrite <- Hc in Hr; lia|done].
  - intros c n. rewrite next_channel_put. cbn. intros Hn.
    destruct (decide (_channel k = c ∧ n = source_sequence k)) as [[<- ->]|Hne].
    + exists k. eexists. cbn. by rewrite od_get_set_eq.
    + destruct (ok_contiguous _ _ Hok c n) as (k' & e & He & <- & <-).
      { case_decide as Hd; [|exact Hn]. subst c. assert (n ≠ source_sequence k) by tauto. lia. }
      exists k', e. cbn. by rewrite od_get_set_ne by congruence.
  - intros k' e. change (next_target _ _) with (next_target l (_channel k')). cbn.
    rewrite od_get_set. case_decide as Hd; [|apply Hok].
    intros [= <-]. subst k'. cbn. lia.
  - intros c. rewrite next_channel_put, next_channel_put_entry, next_target_put_channel,
      next_target_put_entry. pose proof (ok_targets _ _ Hok c). case_decide; subst; lia.
  - intros k' (e & He & Hs)%(ok_log _ _ Hok). exists e. cbn.
    rewrite od_get_set_ne by congruence. done.
  - apply Hok.
Qed.

(** An entry leaves [target_pending] at the head of its channel: towards
    [complete] or [cancelled] (the head moves) or [uncertain_effect] (it stays). *)
Lemma ledger_ok_resolve l log log' k e e' n :
  ledger_ok l log → od_get (_entries l) k = Some e → status e = target_pending →
  source_sequence k = next_target l (_channel k) →
  n = next_target l (_channel k) ∨ n = next_target l (_channel k) + 1 →
  status_ok n k e' → status e' ≠ target_pending →
  log' = log ∨ log' = log ++ [k] ∧ (status e' = complete ∨ status e' = uncertain_effect) →
  ledger_ok (put_next_target (_channel k) n (put_entry k e' l)) log'.
Proof.
  intros Hok Hk Hp Hseq Hn Hst Hnp Hlog.
  assert (Hput : ∀ k', od_get (_entries (put_entry k e' l)) k' =
            if decide (k = k') then Some e' else od_get (_entries l) k')
    by (intros k'; cbn; by rewrite od_get_set).
  split.
  - apply od_set_NoDup, Hok.
  - intros k' e1. change (next_channel _ _) with (next_channel l (_channel k')).
    cbn -[put_entry]. rewrite Hput. case_decide; [|apply Hok]. intros _. subst k'.
    by apply (ok_range _ _ Hok k e).
  - intros c m. change (next_channel _ _) with (next_channel l c). cbn -[put_entry].
    intros (k' & e1 & He1 & ? & ?)%(ok_contiguous _ _ Hok).
    exists k', (if decide (k = k') then e' else e1). rewrite Hput. by case_decide.
  - intros k' e1. rewrite next_target_put, next_target_put_entry.
    cbn -[put_entry]. rewrite Hput. case_decide as Hd.
    + intros [= <-]. subst k'. by rewrite decide_True.
    + intros He1. pose proof (ok_status _ _ Hok _ _ He1) as Hs.
      case_decide as Hc; [|done]. rewrite <- Hc in Hs.
      assert (source_sequence k' ≠ next_target l (_channel k)) as Hne.
      { intros Heq. apply Hd, key_ext; congruence. }
      unfold status_ok in *. destruct (status e1); intuition lia.
  - intros c. rewrite next_target_put, next_target_put_entry, next_channel_put_target,
      next_channel_put_entry.
    pose proof (ok_targets _ _ Hok c). pose proof (ok_range _ _ Hok _ _ Hk).
    case_decide; subst; lia.
  - intros k' Hk'. cbn -[put_entry]. rewrite Hput.
    destruct Hlog as [->|[-> Hs]].
    + destruct (ok_log _ _ Hok _ Hk') as (e1 & He1 & Hs1). case_decide; subst; [|eauto].
      assert (e1 = e) as -> by congruence. destruct Hs1; congruence.
    + case_decide as Hd; [eauto|]. apply (ok_log _ _ Hok). set_solver.
  - intros c. destruct Hlog as [->|[-> _]]; [apply Hok|].
    rewrite channel_log_snoc. case_decide as Hc; [|rewrite app_nil_r; apply Hok].
    apply StronglySorted_snoc; [apply Hok|]. intros m Hm.
    eapply channel_log_bound; [done..|congruence|eauto].
Qed.

(** *** Every call preserves the invariant *)

Lemma put_entry_put_entry k e e' l : put_entry k e' (put_entry k e l) = put_entry k e' l.
Proof. unfold put_entry; cbn. by rewrite od_set_set. Qed.

Lemma run_target_ok l w log k e (op : M W T) :
  ledger_ok l log → od_get (_entries l) k = Some e → status e = target_pending →
  source_sequence k = next_target l (_channel k) →
  let '(_, (l', (_, log'))) :=
    run_target k e (next_target l (_channel k)) (traced k op) (l, (w, log)) in
  ledger_ok l' log'.
Proof.
  intros Hok Hk Hp Hs. unfold run_target, traced.
  destruct (op w) as [[r|ex] w']; rewrite put_entry_put_entry.
  - apply (ledger_ok_resolve l log (log ++ [k]) k e (with_receipt e r)); try done.
    + by right.
    + split; cbn; [lia|eauto].
    + right. by split; [|left].
  - pose proof (ledger_ok_resolve l log (log ++ [k]) k e (with_status e uncertain_effect)
      (next_target l (_channel k)) Hok Hk Hp Hs) as Hr.
    assert (Hsame : ∀ d, next_target (put_next_target (_channel k)
      (next_target l (_channel k)) (put_entry k (with_status e uncertain_effect) l)) d =
      next_target (put_entry k (with_status e uncertain_effect) l) d).
    { intros d. rewrite next_target_put, next_target_put_entry. by case_decide; subst. }
    destruct Hr as [? ? ? Hst Htg ? ?]; [by left|done|done|by right; split; [|right]|].
    split; try done; setoid_rewrite Hsame in Hst; setoid_rewrite Hsame in Htg; done.
Qed.

Lemma accept_ok l log k p : ledger_ok l log → ledger_ok (accept k p l).2 log.
Proof.
  intros Hok. unfold accept. unfold_M. destruct (_digest p) as [digest|ex]; [|done].
  destruct (od_get (_entries l) k) as [e|] eqn:Hk.
  - repeat (case_match; simplify_eq/=; try done).
  - destruct (source_sequence k =? next_channel l (_channel k)) eqn:Hs; cbn; [|done].
    apply ledger_ok_accept; [done..|lia].
Qed.

Lemma cancel_ok l log k p : ledger_ok l log → ledger_ok (cancel_accepted k p l).2 log.
Proof.
  intros Hok. unfold cancel_accepted. unfold_M. destruct (_digest p) as [digest|ex]; [|done].
  destruct (od_get (_entries l) k) as [e|] eqn:Hk; [|done].
  case_decide; [|done].
  destruct (decide (status e = target_pending)) as [Hp|Hp];
    [rewrite (bool_decide_true _ Hp)|rewrite (bool_decide_false _ Hp)]; cbn; [|done].
  destruct (source_sequence k =? next_target l (_channel k)) eqn:Hs; cbn; [|done].
  apply Z.eqb_eq in Hs.
  eapply (ledger_ok_resolve _ _ _ k e); [done..|by right| |done|by left].
  unfold status_ok; cbn. lia.
Qed.

Lemma complete_ok l w log k p op :
  ledger_ok l log → let '(l', (_, log')) :=
    (complete_accepted k p (traced k op) (l, (w, log))).2 in ledger_ok l' log'.
Proof.
  intros Hok. unfold complete_accepted. unfold_M.
  destruct (_digest p) as [digest|ex]; [|done].
  destruct (od_get (_entries l) k) as [e|] eqn:Hk; [|done].
  destruct (raise_if _ _); [|done]. case_decide; [done|].
  destruct (decide (status e = target_pending)) as [Hp|Hp];
    [rewrite (bool_decide_true _ Hp)|rewrite (bool_decide_false _ Hp)]; cbn -[run_target]; [|done].
  destruct (source_sequence k =? next_target l (_channel k)) eqn:Hs; cbn -[run_target]; [|done].
  apply Z.eqb_eq in Hs. pose proof (run_target_ok l w log k e op Hok Hk Hp Hs) as Hr.
  by destruct (run_target _ _ _ _ _) as [? [? [? ?]]].
Qed.

Lemma execute_ok l w log k p op :
  ledger_ok l log → let '(l', (_, log')) :=
    (execute_once k p (traced k op) (l, (w, log))).2 in ledger_ok l' log'.
Proof.
  intros Hok. unfold execute_once. unfold_M.
  destruct (_digest p) as [digest|ex]; [|done].
  destruct (od_get (_entries l) k) as [e|] eqn:Hk.
  { repeat (case_match; simplify_eq/=; try done). }
  destruct (source_sequence k =? next_channel l (_channel k)) eqn:Hc; cbn -[run_target]; [|done].
  destruct (source_sequence k =? next_target l (_channel k)) eqn:Ht; cbn -[run_target]; [|done].
  apply Z.eqb_eq in Hc, Ht.
  pose proof (ledger_ok_accept l log k digest Hok Hk Hc) as Hok'.
  pose proof (run_target_ok _ w log k (mkEntry digest target_pending None) op Hok') as Hr.
  rewrite next_target_put_channel, next_target_put_entry in Hr. cbn -[run_target put_entry] in Hr.
  specialize (Hr (od_get_set_eq _ _ _) eq_refl Ht).
  by destruct (run_target _ _ _ _ _) as [? [? [? ?]]].
Qed.

Definition state_ok (s : state) : Prop := ledger_ok s.1 (executions s).

Lemma run_call_ok (cl : call) (s : state) : state_ok s → state_ok (run_call cl s).
Proof.
  destruct s as [l [w log]], cl as [k p|k p op|k p|k p op]; unfold state_ok;
    cbn -[execute_once complete_accepted accept cancel_accepted]; intros Hok.
  - by apply accept_ok.
  - pose proof (complete_ok l w log k p op Hok).
    by destruct (complete_accepted _ _ _ _) as [? [? [? ?]]].
  - by apply cancel_ok.
  - pose proof (execute_ok l w log k p op Hok).
    by destruct (execute_once _ _ _ _) as [? [? [? ?]]].
Qed.

Lemma run_calls_ok (cs : list call) (s : state) : state_ok s → state_ok (run_calls s cs).
Proof. revert s. induction cs; cbn; eauto using run_call_ok. Qed.

Lemma start_ok (w : W) (cs : list call) : state_ok (run_calls (new_ledger, (w, [])) cs).
Proof. apply run_calls_ok, ledger_ok_new. Qed.

Lemma sorted_NoDup (log : list TransactionKey) :
  (∀ c, StronglySorted Z.lt (channel_log c log)) → NoDup log.
Proof.
  induction log as [|k log IH] using rev_ind; intros Hs; [constructor|].
  apply NoDup_app. split_and!; [| |apply NoDup_singleton].
  - apply IH. intros c. specialize (Hs c). rewrite channel_log_snoc in Hs.
    by apply StronglySorted_app_1_l in Hs.
  - intros k' Hk' ->%list_elem_of_singleton. specialize (Hs (_channel k)).
    rewrite channel_log_snoc, decide_True in Hs by done.
    eapply (StronglySorted_app_1_elem_of _ _ _ (source_sequence k) (source_sequence k)) in Hs;
      [lia| |set_solver].
    by apply list_elem_of_fmap_2, list_elem_of_filter.
Qed.

(** *** What one call does to an entry that is not pending *)

Definition frozen (e : Entry T) : Prop := status e ≠ target_pending.

(** From [s] to [s'] no entry that is not pending changes, and only keys at the
    head of their channel that were pending or new run. *)
Definition step_ok (s s' : state) : Prop :=
  (∀ k e, od_get (_entries s.1) k = Some e → frozen e → od_get (_entries s'.1) k = Some e) ∧
  ∃ ext, executions s' = executions s ++ ext ∧
    ∀ k, k ∈ ext → source_sequence k = next_target s.1 (_channel k) ∧
      ∀ e, od_get (_entries s.1) k = Some e → status e = target_pending.

Lemma step_ok_refl s : step_ok s s.
Proof. split; [done|]. exists []. rewrite app_nil_r. split; [done|by intros ? ?%not_elem_of_nil]. Qed.

Lemma step_ok_put l l' (x : W * list TransactionKey) k e :
  _entries l' = od_set (_entries l) k e →
  (∀ e0, od_get (_entries l) k = Some e0 → status e0 = target_pending) →
  step_ok (l, x) (l', x).
Proof.
  intros Hl' Hk. split; cbn.
  - intros k' e' He' Hf. rewrite Hl', od_get_set. case_decide; [|done]. subst k'.
    by apply Hk in He'.
  - exists []. rewrite app_nil_r. split; [done|by intros ? ?%not_elem_of_nil].
Qed.

Lemma step_ok_run l l0 w log k e n (op : M W T) :
  (∀ k', k' ≠ k → od_get (_entries l0) k' = od_get (_entries l) k') →
  (∀ e0, od_get (_entries l) k = Some e0 → status e0 = target_pending) →
  source_sequence k = next_target l (_channel k) →
  step_ok (l, (w, log)) (run_target k e n (traced k op) (l0, (w, log))).2.
Proof.
  intros Hl0 Hk Hs. unfold run_target, traced, step_ok, executions.
  destruct (op w) as [[r|ex] w']; cbn; (split; [|exists [k]; split; [done|];
    by intros ? ->%list_elem_of_singleton]);
  intros k' e' He' Hf; assert (k' ≠ k) by (intros ->; by apply Hk in He');
  by rewrite !od_get_set_ne, Hl0 by done.
Qed.

Lemma step_ok_accept l x k p : step_ok (l, x) ((accept k p l).2, x).
Proof.
  unfold accept. unfold_M. destruct (_digest p); [|apply step_ok_refl].
  destruct (od_get _ k) as [e|] eqn:Hk; cbn.
  - repeat (case_match; simplify_eq/=; try apply step_ok_refl).
  - destruct (raise_if _ _); cbn; [|apply step_ok_refl].
    by eapply step_ok_put; [|rewrite Hk].
Qed.

Lemma step_ok_cancel l x k p : step_ok (l, x) ((cancel_accepted k p l).2, x).
Proof.
  unfold cancel_accepted. unfold_M. destruct (_digest p); [|apply step_ok_refl].
  destruct (od_get _ k) as [e|] eqn:Hk; cbn; [|apply step_ok_refl].
  case_decide; [|apply step_ok_refl].
  destruct (raise_if (negb _) _) as [[]|] eqn:Hp; cbn; [|apply step_ok_refl]. inv_Ok.
  destruct (raise_if (negb (_ =? _)) _); cbn; [|apply step_ok_refl].
  eapply step_ok_put; [done|rewrite Hk]. congruence.
Qed.

Lemma step_ok_complete l w log k p op :
  step_ok (l, (w, log)) (complete_accepted k p (traced k op) (l, (w, log))).2.
Proof.
  unfold complete_accepted. unfold_M. destruct (_digest p); [|apply step_ok_refl].
  destruct (od_get _ k) as [e|] eqn:Hk; [|apply step_ok_refl].
  destruct (raise_if _ _); [|apply step_ok_refl]. case_decide; [apply step_ok_refl|].
  destruct (raise_if (negb (bool_decide (status e = _))) _) as [[]|] eqn:Hp;
    cbn -[run_target]; [|apply step_ok_refl].
  destruct (raise_if (negb (_ =? next_target l _)) _) eqn:Hs; cbn -[run_target]; [|apply step_ok_refl]. inv_Ok.
  apply step_ok_run; [done| |lia]. rewrite Hk. congruence.
Qed.

Lemma step_ok_execute l w log k p op :
  step_ok (l, (w, log)) (execute_once k p (traced k op) (l, (w, log))).2.
Proof.
  unfold execute_once. unfold_M. destruct (_digest p); [|apply step_ok_refl].
  destruct (od_get _ k) as [e|] eqn:Hk.
  { repeat (case_match; simplify_eq/=; try apply step_ok_refl). }
  destruct (raise_if _ _); [|apply step_ok_refl].
  destruct (raise_if (negb (_ =? next_target l _)) _) eqn:Hs; cbn -[run_target]; [|apply step_ok_refl]. inv_Ok.
  apply step_ok_run; [|by rewrite Hk|lia].
  intros k' Hne. cbn. by rewrite od_get_set_ne.
Qed.

Lemma step_ok_call cl s : step_ok s (run_call cl s).
Proof.
  destruct s as [l [w log]], cl; cbn [run_call fst snd];
    auto using step_ok_accept, step_ok_cancel, step_ok_complete, step_ok_execute.
Qed.

Lemma run_calls_cons s cl cs : run_calls s (cl :: cs) = run_calls (run_call cl s) cs.
Proof. done. Qed.

Lemma frozen_calls cs s k e :
  od_get (_entries s.1) k = Some e → frozen e →
  od_get (_entries (run_calls s cs).1) k = Some e ∧
  ∃ ext, executions (run_calls s cs) = executions s ++ ext ∧ k ∉ ext.
Proof.
  intros Hk Hf. revert s Hk. induction cs as [|cl cs IH]; intros s Hk.
  { split; [done|]. exists []. rewrite app_nil_r. split; [done|by intros ?%not_elem_of_nil]. }
  rewrite run_calls_cons. destruct (step_ok_call cl s) as (Hkeep & ext & Hext & Hh).
  destruct (IH (run_call cl s)) as (Hk' & ext' & Hext' & Hn); [by apply Hkeep|].
  split; [done|]. exists (ext ++ ext'). rewrite Hext', Hext, app_assoc. split; [done|].
  rewrite elem_of_app. intros [Hin|]; [|done]. apply Hh in Hin as [_ Hp]. by apply Hf, Hp.
Qed.

(** An uncertain entry stays at the head of its channel. *)
Lemma uncertain_blocks cs s k e :
  state_ok s → od_get (_entries s.1) k = Some e → status e = uncertain_effect →
  channel_log (_channel k) (executions (run_calls s cs)) =
  channel_log (_channel k) (executions s).
Proof.
  intros Hok Hk Hu. revert s Hok Hk. induction cs as [|cl cs IH]; intros s Hok Hk; [done|].
  rewrite run_calls_cons.
  assert (frozen e) as Hf by (unfold frozen; congruence).
  destruct (step_ok_call cl s) as (Hkeep & ext & Hext & Hh).
  rewrite (IH (run_call cl s)), Hext by auto using run_call_ok.
  unfold channel_log. rewrite filter_app, fmap_app. rewrite (filter_none _ ext).
  { by rewrite app_nil_r. }
  intros k' Hk' Hc. apply Hh in Hk' as [Hs Hp].
  pose proof (ok_status _ _ Hok _ _ Hk) as Hst. unfold status_ok in Hst. rewrite Hu in Hst.
  rewrite Hc, <- Hst in Hs. rewrite (key_ext k' k Hc Hs) in Hp. apply Hp in Hk. done.
Qed.

Lemma digest_object p d : _digest p = Ok d → ∃ fields, p = JObj fields.
Proof. destruct p; cbn; eauto || discriminate. Qed.
End trace.

(** ** One call of [execute_once], for its clients *)

Section execute_once.
Context `{Hashlib} {T W : Type}.
Implicit Types (l : Ledger T) (k : TransactionKey) (op : M W T).

(** The call runs its operation. *)
Definition fresh_in l k : Prop :=
  od_get (_entries l) k = None ∧ source_sequence k = next_channel l (_channel k) ∧
  source_sequence k = next_target l (_channel k).

Definition outcome_entry (digest : string) (r : result T) : Entry T :=
  match r with
  | Ok t => mkEntry digest complete (Some t)
  | Err _ => mkEntry digest uncertain_effect None
  end.

Lemma execute_once_fresh k p d op l w :
  _digest p = Ok d → fresh_in l k →
  ∃ l', execute_once k p op (l, w) = (Some <$> (op w).1, (l', (op w).2)) ∧
        _entries l' = od_set (_entries l) k (outcome_entry d (op w).1).
Proof.
  intros Hp (Hk & Hc & Ht). unfold execute_once. unfold_M. rewrite Hp, Hk, <- Hc, <- Ht, Z.eqb_refl.
  cbn -[run_target]. unfold run_target. destruct (op w) as [[t|x] w1]; cbn; eexists; (split; [done|]);
    cbn; by rewrite !od_set_set.
Qed.

Lemma execute_once_replay k p op l w (e : Entry T) :
  od_get (_entries l) k = Some e → status e = complete → _digest p = Ok (payload_digest e) →
  execute_once k p op (l, w) = (Ok (receipt e), (l, w)).
Proof.
  intros Hk He Hp. unfold execute_once. unfold_M. by rewrite Hp, Hk, He, !bool_decide_true.
Qed.

(** Otherwise it changes nothing, and returns only a frozen receipt. *)
Lemma execute_once_other k p op l w :
  ¬ fresh_in l k →
  (execute_once k p op (l, w)).2 = (l, w) ∧
  ∀ x, (execute_once k p op (l, w)).1 = Ok x →
    ∃ e, od_get (_entries l) k = Some e ∧ status e = complete ∧ receipt e = x ∧
         _digest p = Ok (payload_digest e).
Proof.
  intros Hn. unfold execute_once. unfold_M. destruct (_digest p) as [d|]; [|done].
  destruct (od_get (_entries l) k) as [e|] eqn:Hk.
  - destruct (raise_if _ _) as [[]|] eqn:H1; [|done]. destruct (raise_if (negb (bool_decide (status e = _))) _)
      as [[]|] eqn:H2; [|done].
    inv_Ok. subst. split; [done|]. intros x [= <-]. by exists e.
  - destruct (raise_if _ _) as [[]|] eqn:H1; [|done].
    destruct (raise_if (negb (_ =? next_target l _)) _) as [[]|] eqn:H2; [|done].
    inv_Ok. destruct Hn. split_and!; [done|lia|lia].
Qed.

#[export] Instance fresh_in_dec l k : Decision (fresh_in l k).
Proof. unfold fresh_in. apply _. Defined.
End execute_once.

(** ** Properties *)

Section properties.
Context `{Hashlib} {T W : Type}.
Implicit Types (w : W) (op : M W T) (cs : list (@call T W)) (l : Ledger T).

(** C1.  At-most-once, in-order delivery.  Whatever sequence of calls of the
    four methods is made on a fresh ledger, with any payloads and any target
    operations (raising ones included), no transaction key runs its target
    twice, and on every source channel targets run in strictly increasing
    source sequence. *)
Theorem target_runs_once_in_order w cs :
  let log := executions (run_calls (new_ledger, (w, [])) cs) in
  NoDup log ∧ ∀ c : Channel, StronglySorted Z.lt (channel_log c log).
Proof.
  cbn zeta. assert (Hs : ∀ c, StronglySorted Z.lt (channel_log c
    (executions (run_calls (new_ledger, (w, [])) cs)))) by apply start_ok.
  split; [by apply sorted_NoDup|done].
Qed.

(**  Replay.  Once a key is complete, then after any further calls both
    [complete_accepted] and [execute_once] with the same payload return the
    frozen receipt without touching ledger or world, and none of the further
    calls ran its target again. *)
Lemma completed_key_replays (s : @state T W) cs k p op (e : Entry T) :
  od_get (_entries s.1) k = Some e → status e = complete → _digest p = Ok (payload_digest e) →
  let s' := run_calls s cs in
  complete_accepted k p (traced k op) s' = (Ok (receipt e), s') ∧
  execute_once k p (traced k op) s' = (Ok (receipt e), s') ∧
  ∃ ext, executions s' = executions s ++ ext ∧ k ∉ ext.
Proof.
  intros Hk Hc Hp s'. destruct (frozen_calls cs s k e) as [Hk' Hext]; [done| |].
  { unfold frozen. congruence. }
  fold s' in Hk', Hext. destruct s' as [l' x]; cbn [fst] in Hk'.
  unfold complete_accepted, execute_once. unfold_M. rewrite Hp, Hk'.
  rewrite Hc, !bool_decide_true by done. split_and!; done.
Qed.

(** C2.  An uncertain effect is final and blocks its channel: in any state
    reached from a fresh ledger, once a target raised, no later sequence of
    calls runs any target of that source channel, and each of the four methods,
    called for the key itself with any payload and operation, raises and changes
    neither ledger nor world. *)
Theorem uncertain_effect_is_final w cs0 cs k (e : Entry T) p op :
  let s := run_calls (new_ledger, (w, [])) cs0 in
  let s' := run_calls s cs in
  od_get (_entries s.1) k = Some e → status e = uncertain_effect →
  od_get (_entries s'.1) k = Some e ∧
  channel_log (_channel k) (executions s') = channel_log (_channel k) (executions s) ∧
  (∃ x, accept k p s'.1 = (Err x, s'.1)) ∧ (∃ x, cancel_accepted k p s'.1 = (Err x, s'.1)) ∧
  (∃ x, complete_accepted k p (traced k op) s' = (Err x, s')) ∧
  (∃ x, execute_once k p (traced k op) s' = (Err x, s')).
Proof.
  intros s s' Hk Hu. assert (Hok : state_ok s) by apply start_ok.
  destruct (frozen_calls cs s k e) as [Hk' _]; [done|unfold frozen; congruence|].
  split; [done|]. split; [by eapply uncertain_blocks|].
  fold s' in Hk'. clearbody s'. destruct s' as [l' [w' log']]; cbn [fst] in Hk'.
  unfold accept, complete_accepted, cancel_accepted, execute_once; unfold_M; cbn [fst snd].
  destruct (_digest p) as [d|x]; [|eauto 10]. rewrite Hk', !Hu. cbn.
  destruct (decide (payload_digest e = d)) as [Hd|Hd];
    [rewrite !bool_decide_true by done|rewrite !bool_decide_false by done]; cbn; rewrite ?Hu; cbn; eauto 10.
Qed.

(** Same identity, other payload: when a key is known and a call carries
    a payload with another digest, every method raises and changes neither the
    ledger nor the world. *)
Lemma conflicting_payload_refused (s : Ledger T * W) k p op (e : Entry T) :
  od_get (_entries s.1) k = Some e → _digest p ≠ Ok (payload_digest e) →
  (∃ x, accept k p s.1 = (Err x, s.1)) ∧ (∃ x, cancel_accepted k p s.1 = (Err x, s.1)) ∧
  (∃ x, complete_accepted k p op s = (Err x, s)) ∧ (∃ x, execute_once k p op s = (Err x, s)).
Proof.
  destruct s as [l w]; cbn [fst]. intros Hk Hp.
  unfold accept, complete_accepted, cancel_accepted, execute_once; unfold_M.
  destruct (_digest p) as [d|x]; [|eauto 10].
  rewrite Hk. rewrite !(bool_decide_false (payload_digest e = d)) by congruence. cbn.
  rewrite decide_False by congruence. eauto 10.
Qed.
End properties.

(** *** The hypotheses are satisfiable *)

Module Example_ledger.
#[local] Existing Instance checksum_hashlib.

Definition k1 : TransactionKey := mkKey "e" "t" "cpu" 0 "bus" 1.
Definition k2 : TransactionKey := mkKey "e" "t" "cpu" 0 "bus" 2.
Definition payload : json := JObj [("op", JStr "read")].
Definition other : json := JObj [("op", JStr "write")].
Definition count : M Z Z := λ n, (Ok (n * 10), n + 1).
Definition fail : M Z Z := λ n, (Err (RuntimeError "bus"), n + 1).
Definition calls (op : M Z Z) : list call :=
  [Accept k1 payload; Accept k2 payload; Complete k1 payload op].
Definition after (op : M Z Z) : @state Z Z := run_calls (new_ledger, (1, [])) (calls op).
Definition entry_of (s : @state Z Z) k : Entry Z :=
  default (mkEntry "" cancelled None) (od_get (_entries s.1) k).

Lemma completed_key_replays_witness :
  let s := after count in
  let s' := run_calls s [Complete k2 payload count; Cancel k1 payload] in
  complete_accepted k1 payload (traced k1 fail) s' = (Ok (Some 10), s') ∧
  execute_once k1 payload (traced k1 fail) s' = (Ok (Some 10), s') ∧
  ∃ ext, executions s' = executions s ++ ext ∧ k1 ∉ ext.
Proof.
  exact (completed_key_replays (after count) [Complete k2 payload count; Cancel k1 payload]
    k1 payload fail (entry_of (after count) k1) eq_refl eq_refl eq_refl).
Defined.

Lemma uncertain_effect_is_final_witness :
  let s := after fail in
  let s' := run_calls s [Complete k2 payload count; Execute k1 payload count] in
  od_get (_entries s'.1) k1 = Some (entry_of s k1) ∧
  channel_log (_channel k1) (executions s') = channel_log (_channel k1) (executions s) ∧
  (∃ x, accept k1 payload s'.1 = (Err x, s'.1)) ∧ (∃ x, cancel_accepted k1 payload s'.1 = (Err x, s'.1)) ∧
  (∃ x, complete_accepted k1 payload (traced k1 count) s' = (Err x, s')) ∧
  (∃ x, execute_once k1 payload (traced k1 count) s' = (Err x, s')).
Proof.
  exact (uncertain_effect_is_final 1 (calls fail)
    [Complete k2 payload count; Execute k1 payload count] k1 (entry_of (after fail) k1)
    payload count eq_refl eq_refl).
Defined.

Lemma conflicting_payload_refused_witness :
  let s := after count in
  (∃ x, accept k1 other s.1 = (Err x, s.1)) ∧ (∃ x, cancel_accepted k1 other s.1 = (Err x, s.1)) ∧
  (∃ x, complete_accepted k1 other (traced k1 count) s = (Err x, s)) ∧
  (∃ x, execute_once k1 other (traced k1 count) s = (Err x, s)).
Proof.
  apply (conflicting_payload_refused (after count) k1 other (traced k1 count)
    (entry_of (after count) k1)).
  - reflexivity.
  - vm_compute. discriminate.
Defined.
End Example_ledger.
