(* ===== verification/MemoryService.v ===== *)
(** * The memory service

    Models [MemoryService] of [src/src/myfuzz/scenario/memory_service.py]: the
    reads and writes of a processor, executed once by the transaction ledger, on
    the persistent memory, with the event list and the stream of write commits
    that waits for acknowledgement.

    Objects have an identity: a receipt carries the serial number of its creation
    ([receipt_object]), so [is] compares serial numbers.  A frozen document is
    kept as the document; its text is [dumps_ascii] of it.  [str(key)] is the
    class [KeyText]: the text of a dataclass, different for different keys.

    Not modelled: the registries that arm a native or DMA read for one call
    ([_ARM_ISSUED_READ], [_f6_dma_read_arm]); without an armed read [read] is
    what is modelled. *)

From S2P Require Import Prelude Json Isa Genome Rv32iSources Memory Ledger.

Local Open Scope Z_scope.

#[export] Instance TransactionKey_countable : Countable TransactionKey.
Proof.
  refine (inj_countable'
    (λ k, (execution_id k, testcase_id k, source_component k, source_epoch k, channel_id k, source_sequence k))
    (λ '(e, t, s, p, c, n), mkKey e t s p c n) _).
  by intros [].
Defined.

Class KeyText : Type := {
  str_key : TransactionKey → string;
  str_key_inj :: Inj (=) (=) str_key;
  str_key_nonempty k : empty (str_key k) = false }.

(** [asdict(key)] *)
Definition key_json (k : TransactionKey) : json :=
  JObj [("execution_id", JStr (execution_id k)); ("testcase_id", JStr (testcase_id k));
        ("source_component", JStr (source_component k)); ("source_epoch", JInt (source_epoch k));
        ("channel_id", JStr (channel_id k)); ("source_sequence", JInt (source_sequence k))].

Definition version_json (v : option Version) : json :=
  match v with Some v => JArr [JInt v.1; JInt v.2] | None => JNull end.

(** ** State *)

Record WriteReceipt := mkReceipt {
  receipt_object : Z;
  receipt_key : TransactionKey;
  receipt_version : option Version;
  receipt_byte_enable : Z;
  _commit_json : option json }.

(** What an operation of the service returns through the ledger. *)
Inductive Receipt : Type :=
  | ReadReceipt (s : ReadSnapshot)
  | Written (r : WriteReceipt).

Inductive ServiceEvent : Type :=
  | instruction_source (address : Z) (data : list Z) (source_event_id : string) (generation : Z)
  | memory_initialization (transaction : TransactionKey) (memory_id : string) (generation byte_offset value : Z)
      (version : Version) (writer_event_id : string)
  | memory_read (transaction : TransactionKey) (address width_bytes : Z) (memory_id : string)
      (generation byte_offset value : Z) (data : list Z) (versions : list Version)
      (writer_event_ids : list string) (writer_kinds : option (list string))
  | memory_write (transaction : TransactionKey) (address width_bytes : Z) (memory_id : string)
      (generation byte_offset value byte_enable : Z) (version : option Version).

(** One row of [_pending_commits]: receipt, frozen document, encoded event. *)
Definition Commit : Type := WriteReceipt * json * json.

Record MemoryService := mkService {
  include_writer_kinds : bool;
  events : list ServiceEvent;
  _commit_stream_capacity : option Z;
  _pending_commits : list (string * Commit);
  _issued_receipt_ids : gmap Z string;
  _service_commit_sequence : Z;
  _commit_reserved : Z;
  created_objects : Z }.

(** [MemoryService.__init__] *)
Definition new_service (include_kinds : bool) (capacity : option Z) : result MemoryService :=
  raise_if (match capacity with Some c => c <? 1 | None => false end)
    (ValueError "commit stream capacity must be a positive integer") ;;
  mret (mkService include_kinds [] capacity [] ∅ 0 0 0).

(** Assignments. *)
Definition record_event (e : ServiceEvent) (s : MemoryService) : MemoryService :=
  mkService (include_writer_kinds s) (events s ++ [e]) (_commit_stream_capacity s) (_pending_commits s)
    (_issued_receipt_ids s) (_service_commit_sequence s) (_commit_reserved s) (created_objects s).
Definition set_reserved (n : Z) (s : MemoryService) : MemoryService :=
  mkService (include_writer_kinds s) (events s) (_commit_stream_capacity s) (_pending_commits s)
    (_issued_receipt_ids s) (_service_commit_sequence s) n (created_objects s).
Definition create_object (s : MemoryService) : MemoryService :=
  mkService (include_writer_kinds s) (events s) (_commit_stream_capacity s) (_pending_commits s)
    (_issued_receipt_ids s) (_service_commit_sequence s) (_commit_reserved s) (created_objects s + 1).
Definition publish (id : string) (c : Commit) (s : MemoryService) : MemoryService :=
  mkService (include_writer_kinds s) (events s) (_commit_stream_capacity s)
    (od_set (_pending_commits s) id c) (<[receipt_object c.1.1 := id]> (_issued_receipt_ids s))
    (_service_commit_sequence s + 1) (_commit_reserved s) (created_objects s).
Definition release (id : string) (s : MemoryService) : MemoryService :=
  match od_get (_pending_commits s) id with
  | Some (r, _, _) =>
      mkService (include_writer_kinds s) (events s) (_commit_stream_capacity s)
        (od_del (_pending_commits s) id) (delete (receipt_object r) (_issued_receipt_ids s))
        (_service_commit_sequence s) (_commit_reserved s) (created_objects s)
  | None => s
  end.

Definition commit_stream_enabled (s : MemoryService) : bool := bool_decide (is_Some (_commit_stream_capacity s)).
Definition pending_commit_count (s : MemoryService) : Z := Z.of_nat (length (_pending_commits s)).

(** No room in the stream. *)
Definition stream_full (s : MemoryService) : bool :=
  match _commit_stream_capacity s with
  | Some capacity => capacity <=? pending_commit_count s + _commit_reserved s
  | None => false
  end.

(** The memory, the ledger and the service, which hold references to each other. *)
Record World := mkWorld {
  memory : PersistentMemory;
  ledger : Ledger Receipt;
  service : MemoryService }.
Definition set_service (s : MemoryService) (w : World) : World := mkWorld (memory w) (ledger w) s.

(** What a callback works on: the memory, the service, and the call's locals
    [actual_callback] and [reserved]. *)
Record Local := mkLocal {
  actual_callback : option WriteReceipt;
  reserved : bool }.
Definition Callback : Type := PersistentMemory * MemoryService * Local.

Definition on_memory {A} (m : M PersistentMemory A) : M Callback A := λ '(mem, s, l),
  let '(r, mem) := m mem in (r, (mem, s, l)).
Definition the_memory : M Callback PersistentMemory := gets (λ c, c.1.1).
Definition the_service : M Callback MemoryService := gets (λ c, c.1.2).
Definition on_service (f : MemoryService → MemoryService) : M Callback () :=
  modify (λ '(mem, s, l), (mem, f s, l)).
Definition on_local (f : Local → Local) : M Callback () := modify (λ '(mem, s, l), (mem, s, f l)).

Section service.
Context `{Hashlib} `{KeyText}.

(** [ledger.execute_once(key, payload, commit)], with the locals afterwards. *)
Definition executed (k : TransactionKey) (payload : json) (commit : M Callback Receipt) (w : World)
    : (result (option Receipt) * Local) * World :=
  let '(r, (l, (mem, s, local))) :=
    execute_once k payload commit (ledger w, ((memory w, service w, mkLocal None false) : Callback)) in
  ((r, local), mkWorld mem l s).

(** ** Reading *)

Definition read_payload (address width_bytes : Z) : json :=
  JObj [("op", JStr "read"); ("address", JInt address); ("width_bytes", JInt width_bytes)].

(** The entries at one lane; Python raises past the end. *)
Definition lane {A} (l : list A) (i : Z) : result A :=
  match l !! Z.to_nat i with Some x => Ok x | None => Err (IndexError "tuple index out of range") end.

Definition initialization_event (k : TransactionKey) (snapshot : ReadSnapshot) (offset : Z) : M Callback () :=
  let i := offset - byte_offset snapshot in
  value ← reads (λ _, lane (data snapshot) i);
  version ← reads (λ _, lane (versions snapshot) i);
  writer ← reads (λ _, lane (writer_event_ids snapshot) i);
  on_service (record_event (memory_initialization k (snapshot_memory_id snapshot)
    (snapshot_generation snapshot) offset value version writer)).

(** The callback [commit] of [read]. *)
Definition commit_read (k : TransactionKey) (address width_bytes : Z) : M Callback Receipt :=
  snapshot ← on_memory (read address width_bytes (str_key k));
  for_eachM (initialization_event k snapshot) (materialized_offsets snapshot) ;;
  s ← the_service;
  on_service (record_event (memory_read k address width_bytes (snapshot_memory_id snapshot)
    (snapshot_generation snapshot) (byte_offset snapshot) (snapshot_value snapshot) (data snapshot)
    (versions snapshot) (writer_event_ids snapshot)
    (if include_writer_kinds s then Some (writer_kinds snapshot) else None))) ;;
  mret (ReadReceipt snapshot).

(** [MemoryService.read] *)
Definition service_read (k : TransactionKey) (address width_bytes : Z) : M World (option Receipt) := λ w,
  match validate_read address width_bytes (memory w) with
  | Err e => (Err e, w)
  | Ok _ =>
      let '((r, _), w) := executed k (read_payload address width_bytes) (commit_read k address width_bytes) w in
      (r, w)
  end.

(** ** Writing *)

Definition write_payload (address value width_bytes byte_enable : Z) : json :=
  JObj [("op", JStr "write"); ("address", JInt address); ("value", JInt value);
        ("width_bytes", JInt width_bytes); ("byte_enable", JInt byte_enable)].

Definition fits64 (n : Z) : bool := (0 <=? n) && (n <? 2 ^ 64).

(** The first check of [write]: the fields of a typed key. *)
Definition typed_key (k : TransactionKey) : bool :=
  negb (empty (execution_id k)) && negb (empty (testcase_id k)) && negb (empty (source_component k))
  && negb (empty (channel_id k)) && fits64 (source_epoch k) && fits64 (source_sequence k).

Definition typed_version (v : Version) : bool := fits64 v.1 && fits64 v.2.

Definition span_conflict : exn := RuntimeError "host memory span identity conflicts with commit".
Definition outcome_conflict : exn := RuntimeError "host memory write outcome conflicts with commit".
Definition stream_overflow : exn := RuntimeError "memory commit stream capacity exceeded before effect".

(** The outcome of [memory.write] is what the memory now says. *)
Definition check_outcome (id : string) (generation byte_enable : Z) (version : option Version)
    (m : PersistentMemory) : result () :=
  if byte_enable =? 0 then raise_if (bool_decide (is_Some version)) outcome_conflict
  else
    match version with
    | None => Err outcome_conflict
    | Some v =>
        raise_if (negb (typed_version v) || negb (v.1 =? generation)) outcome_conflict ;;
        match _commit_sequences m !! id with
        | None => Err (KeyError id)
        | Some sequence => raise_if (negb (v.2 =? sequence) || (v.2 =? 0)) outcome_conflict
        end
    end.

Definition cell_json (offset : Z) (c : ByteCell) : json :=
  JObj [("byte_offset", JInt offset); ("value", JInt (cell_value c));
        ("version", version_json (Some (version c))); ("writer_kind", JStr (writer_kind c));
        ("writer_event_id", JStr (writer_event_id c))].

(** One enabled lane of the loop over the cells. *)
Definition committed_cell (k : TransactionKey) (value : Z) (version : option Version) (m : PersistentMemory)
    (id : string) (offset lane : Z) : result json :=
  match _bytes m !! ((id, offset + lane) : Key) with
  | None => Err (KeyError id)
  | Some c =>
      raise_if (negb (typed_version (Memory.version c)) || negb (bool_decide (Some (Memory.version c) = version))
                || negb ((0 <=? cell_value c) && (cell_value c <? 256))
                || negb (bool_decide (writer_kind c = "STORE"))
                || negb (bool_decide (writer_event_id c = str_key k))
                || negb (cell_value c =? value_byte value lane)) outcome_conflict ;;
      mret (cell_json (offset + lane) c)
  end.

Definition commit_document (k : TransactionKey) (id : string) (generation offset width_bytes byte_enable : Z)
    (version : option Version) (digest : string) (cells : list json) : list (string * json) :=
  [("schema_version", JStr "memory_write_commit_receipt.v1"); ("fullkey", key_json k);
   ("memory_kind", JStr "modeled_host_persistent_memory"); ("memory_id", JStr id);
   ("generation", JInt generation); ("byte_offset", JInt offset); ("width_bytes", JInt width_bytes);
   ("byte_enable", JInt byte_enable); ("version", version_json version); ("payload_sha256", JStr digest);
   ("commit_status", JStr "complete"); ("performed_effect", JBool (bool_decide (is_Some version)));
   ("enabled_byte_cells", JArr cells)].

(** The identifier of a document, and the document with it. *)
Definition commit_id_of (document : list (string * json)) : string := hexdigest (dumps_ascii (JObj document)).
Definition identified (document : list (string * json)) : json :=
  JObj (document ++ [("commit_id", JStr (commit_id_of document))]).

(** The callback [commit] of [write]: first it reserves its place in the stream, *)
Definition reserve_commit : M Callback () :=
  s ← the_service;
  if commit_stream_enabled s then
    check (stream_full s) stream_overflow ;;
    on_service (λ s, set_reserved (_commit_reserved s + 1) s) ;;
    on_local (λ l, mkLocal (actual_callback l) true)
  else mret ().

(** then it writes, and freezes what the memory says about it. *)
Definition store_and_freeze (k : TransactionKey) (address value width_bytes byte_enable : Z)
    : M Callback Receipt :=
  m ← the_memory;
  span ← reads (λ _, resolve_span address width_bytes true m);
  let '(id, generation, offset) := span in
  version ← on_memory (write address value width_bytes byte_enable (str_key k));
  m ← the_memory;
  actual ← reads (λ _, _resolve address width_bytes true m);
  check (empty id || negb (fits64 generation) || negb (fits64 offset)
         || negb (bool_decide (id = memory_id actual.1)) || negb (offset =? actual.2)
         || negb (generation =? Memory.generation m)) span_conflict ;;
  reads (λ _, check_outcome id generation byte_enable version m) ;;
  cells ← reads (λ _, fold_result (λ cells lane,
            cell ← committed_cell k value version m id offset lane; mret (cells ++ [cell])) []
            (enabled_lanes width_bytes byte_enable));
  digest ← reads (λ _, _digest (write_payload address value width_bytes byte_enable));
  let document := commit_document k id generation offset width_bytes byte_enable version digest cells in
  s ← the_service;
  let receipt := mkReceipt (created_objects s) k version byte_enable (Some (identified document)) in
  on_service create_object ;;
  on_service (record_event (memory_write k address width_bytes id generation offset value byte_enable version)) ;;
  on_local (λ l, mkLocal (Some receipt) (reserved l)) ;;
  mret (Written receipt).

Definition commit_write (k : TransactionKey) (address value width_bytes byte_enable : Z)
    : M Callback Receipt :=
  reserve_commit ;; store_and_freeze k address value width_bytes byte_enable.

(** Is the ledger's entry of the key this very receipt, completed? *)
Definition completed_with (k : TransactionKey) (r : WriteReceipt) (l : Ledger Receipt) : bool :=
  match od_get (_entries l) k with
  | Some e =>
      bool_decide (status e = complete)
      && match receipt e with
         | Some (Written r') => receipt_object r' =? receipt_object r
         | _ => false
         end
  | None => false
  end.

(** [document['commit_id']] *)
Definition json_field (key : string) (d : json) : result json :=
  match d with
  | JObj l => match od_get l key with Some v => Ok v | None => Err (KeyError key) end
  | _ => Err (OtherError "not a dict")
  end.
Definition json_str (d : json) : string := match d with JStr s => s | _ => EmptyString end.

Definition commit_event (sequence : Z) (k : TransactionKey) (id : string) (document : json) : json :=
  JObj [("kind", JStr "memory_write_commit"); ("schema_version", JStr "memory_write_commit.v1");
        ("service_commit_sequence", JInt sequence); ("transaction", key_json k); ("commit_id", JStr id);
        ("commit_document", document)].

(** The publication of a commit, after the ledger returned. *)
Definition publish_commit (k : TransactionKey) (returned : option Receipt) (receipt : WriteReceipt) (w : World)
    : result World :=
  match _commit_json receipt with
  | None => Err (OtherError "no commit document")
  | Some document =>
      raise_if (negb (completed_with k receipt (ledger w))
                || negb match returned with
                        | Some (Written r) => receipt_object r =? receipt_object receipt
                        | _ => false
                        end)
        (RuntimeError "memory commit publication requires actual completed callback") ;;
      id ← json_field "commit_id" document;
      let id := json_str id in
      let event := commit_event (_service_commit_sequence (service w) + 1) k id document in
      mret (set_service (publish id (receipt, document, event) (service w)) w)
  end.

(** [MemoryService.write] *)
Definition service_write (k : TransactionKey) (address value width_bytes byte_enable : Z)
    : M World (option Receipt) := λ w,
  match
    (raise_if (negb (typed_key k)) (ValueError "write requires a complete typed transaction key") ;;
     validate_write address value width_bytes byte_enable (memory w) ;;
     raise_if (commit_stream_enabled (service w) && bool_decide (od_get (_entries (ledger w)) k = None)
               && stream_full (service w)) stream_overflow)
  with
  | Err e => (Err e, w)
  | Ok _ =>
      let '((r, local), w) := executed k (write_payload address value width_bytes byte_enable)
        (commit_write k address value width_bytes byte_enable) w in
      let '(r, w) :=
        match r, actual_callback local with
        | Ok returned, Some receipt =>
            if commit_stream_enabled (service w) then
              match publish_commit k returned receipt w with
              | Ok w => (Ok returned, w)
              | Err e => (Err e, w)
              end
            else (r, w)
        | _, _ => (r, w)
        end in
      (* finally *)
      (r, if reserved local
          then set_service (set_reserved (_commit_reserved (service w) - 1) (service w)) w
          else w)
  end.

(** ** Instructions *)

(** [MemoryService.accept_instructions] *)
Definition service_accept (address : Z) (bytes : list Z) (event : string) : M World InstructionAcceptance := λ w,
  match accept_instructions address bytes event (memory w) with
  | (Err e, m) => (Err e, mkWorld m (ledger w) (service w))
  | (Ok acceptance, m) =>
      (Ok acceptance, mkWorld m (ledger w)
         (record_event (instruction_source address bytes event (generation m)) (service w)))
  end.

(** ** The commit stream *)

(** [lookup_pending_commit] *)
Definition lookup_pending_commit (id : string) (w : World) : result (WriteReceipt * json) :=
  match od_get (_pending_commits (service w)) id with
  | None => Err (ValueError "commit was not issued or has been acknowledged")
  | Some (receipt, frozen, event) =>
      raise_if (negb (completed_with (receipt_key receipt) receipt (ledger w))
                || negb (bool_decide (dumps_ascii <$> _commit_json receipt = Some (dumps_ascii frozen))))
        (RuntimeError "issued commit no longer matches the completed callback receipt") ;;
      mret (receipt, event)
  end.

(** [lookup_issued_write_commit] *)
Definition lookup_issued_write_commit (receipt : WriteReceipt) (w : World) : result json :=
  match _issued_receipt_ids (service w) !! receipt_object receipt with
  | None => Err (ValueError "receipt was not issued or has been acknowledged")
  | Some id =>
      ae ← lookup_pending_commit id w;
      raise_if (negb (receipt_object ae.1 =? receipt_object receipt))
        (ValueError "receipt is not the actual issued callback object") ;;
      mret ae.2
  end.

(** [drain_commit_events] *)
Definition drain_commit_events (max_events : option Z) (w : World) : result (list json) :=
  raise_if (match max_events with Some n => n <? 1 | None => false end)
    (ValueError "drain limit must be a positive integer") ;;
  let keys := od_keys (_pending_commits (service w)) in
  let keys := match max_events with Some n => take (Z.to_nat n) keys | None => keys end in
  fold_result (λ drained id, re ← lookup_pending_commit id w; mret (drained ++ [re.2])) [] keys.

(** [ack_commit_events] *)
Definition ack_commit_events (ids : list string) : M World () := λ w,
  if negb (bool_decide (ids = take (length ids) (od_keys (_pending_commits (service w)))))
  then (Err (ValueError "ack must name the exact pending commit prefix"), w)
  else (Ok (), set_service (foldl (λ s id, release id s) (service w) ids) w).
End service.
