(* ===== verification/MemoryServiceSpec.v ===== *)
(** * What the memory service promises

    A write that passes its checks commits: the consistency errors of the callback
    are never raised.  Every transaction is recorded once and retried without
    effect.  The stream of commits keeps its capacity and order, every commit in it
    can be looked up, and an acknowledged one never comes back. *)

From S2P Require Import Prelude Json Isa Genome Rv32iSources Memory MemorySpec Ledger MemoryService.

Local Open Scope Z_scope.

(** ** The callback of a write *)

(** The memory was built from regions their constructor accepts. *)
Record memory_typed (m : PersistentMemory) : Prop := {
  mt_ok : memory_ok m;
  mt_generation : 0 ≤ generation m;
  mt_regions : Forall (λ r, MemoryRegion_post_init r = Ok r) (_regions m) }.

(** The documents hold 64-bit counters. *)
Definition counters_fit (m : PersistentMemory) : Prop :=
  generation m < 2 ^ 64 ∧ ∀ id, seq_of m id + 1 < 2 ^ 64.

Lemma post_init_region r r' :
  MemoryRegion_post_init r = Ok r' → memory_id r ≠ "" ∧ 0 ≤ base r ∧ Forall (λ a, 0 ≤ a) (aliases r).
Proof.
  unfold MemoryRegion_post_init, natural, empty. intros Hr.
  apply bind_Ok in Hr as ([] & H1 & Hr). apply bind_Ok in Hr as ([] & H2 & Hr).
  apply bind_Ok in Hr as ([] & H3 & Hr). apply bind_Ok in Hr as ([] & H4 & Hr).
  apply bind_Ok in Hr as ([] & H5 & Hr). inv_Ok. split_and!; [done|lia|].
  rewrite for_each_Ok in H5. eapply Forall_impl; [exact H5|]. cbn. intros a Ha.
  apply bind_Ok in Ha as ([] & Ha & _). inv_Ok. lia.
Qed.

Lemma resolved_span m a w wr r off :
  memory_typed m → _resolve a w wr m = Ok (r, off) → memory_id r ≠ "" ∧ 0 ≤ off < 2 ^ 64.
Proof.
  intros [Hok _ Hr] Hres. pose proof Hres as Hres'. unfold _resolve in Hres'.
  apply bind_Ok in Hres' as ([] & _ & Hres'). apply bind_Ok in Hres' as ([] & Hmax & _).
  apply raise_if_Ok in Hmax. unfold _MAX_ADDRESS in Hmax.
  destruct (resolve_Ok _ _ _ _ _ _ Hok Hres) as (Hin & Ho & _ & _ & _ & _ & _ & b & Hb & ->).
  rewrite Forall_forall in Hr. destruct (post_init_region _ _ (Hr _ Hin)) as (Hid & Hbase & Hal).
  split; [done|]. pose proof (mok_windows _ Hok) as Hws. rewrite Forall_forall in Hws.
  destruct (Hws _ Hb) as (_ & Hbs & _). cbn in Hbs.
  assert (0 ≤ b). { apply elem_of_cons in Hbs as [->|Hbs]; [done|]. rewrite Forall_forall in Hal. by apply Hal. }
  lia.
Qed.

Section write.
Context {hashlib : Hashlib} {keytext : KeyText}.

Lemma str_key_ne k : str_key k ≠ "".
Proof. pose proof (str_key_nonempty k) as Hk. unfold empty in Hk. by apply bool_decide_eq_false in Hk. Qed.

(** The cells a store leaves at its enabled lanes. *)
Definition stored_cells (k : TransactionKey) (v : Z) (u : option Version) (off : Z) (lanes : list Z) : list json :=
  (λ i, cell_json (off + i) (mkCell (value_byte v i) (default (0, 0) u) "STORE" (str_key k))) <$> lanes.

(** The document of a store, before its identifier is added. *)
Definition written_fields (k : TransactionKey) (a v w be : Z) (r : MemoryRegion) (off g : Z)
    (u : option Version) : list (string * json) :=
  commit_document k (memory_id r) g off w be u (hexdigest (dumps (write_payload a v w be)))
    (stored_cells k v u off (enabled_lanes w be)).

Lemma store_outcome a v w be e m u m' r off :
  memory_typed m → counters_fit m →
  write a v w be e m = (Ok u, m') → _resolve a w true m = Ok (r, off) →
  _resolve a w true m' = Ok (r, off) ∧ generation m' = generation m ∧
  check_outcome (memory_id r) (generation m) be u m' = Ok () ∧
  (be ≠ 0 → ∃ ver, u = Some ver ∧ typed_version ver = true).
Proof.
  intros Hm [Hg Hs] Hw Hres. destruct (write_windows _ _ _ _ _ _ _ _ Hw) as [Hwin _].
  split; [by rewrite (resolve_same_windows m)|].
  apply write_Ok in Hw as (r' & off' & Hres' & _ & Hbe & _ & Hcases).
  rewrite Hres in Hres'. injection Hres' as <- <-. specialize (Hs (memory_id r)).
  pose proof (mt_generation _ Hm). pose proof (mok_seq _ (mt_ok _ Hm) (memory_id r)).
  rewrite enabled_lanes_nil in Hcases by done. unfold check_outcome.
  destruct Hcases as [(-> & -> & ->)|(Hne & -> & ->)]; [done|].
  rewrite (proj2 (Z.eqb_neq be 0)) by done. cbn [_commit_sequences put_cells set_bytes bumped set_sequences].
  rewrite lookup_insert_eq. cbn [fst snd].
  assert (Ht : typed_version (generation m, seq_of m (memory_id r) + 1) = true).
  { unfold typed_version, fits64; cbn [fst snd]. lia. }
  split; [done|]. split; [|by eauto].
  rewrite Ht, !Z.eqb_refl. cbn. destruct (Z.eqb_spec (seq_of m (memory_id r) + 1) 0); [lia|done].
Qed.

Lemma committed_cell_stored k a v w be m u m' r off i :
  write a v w be (str_key k) m = (Ok u, m') → _resolve a w true m = Ok (r, off) →
  (∃ ver, u = Some ver ∧ typed_version ver = true) → i ∈ enabled_lanes w be →
  committed_cell k v u m' (memory_id r) off i =
    Ok (cell_json (off + i) (mkCell (value_byte v i) (default (0, 0) u) "STORE" (str_key k))).
Proof.
  intros Hw Hres (ver & -> & Hver) Hi. unfold committed_cell.
  rewrite (write_lookup _ _ _ _ _ _ _ _ _ _ (memory_id r, off + i) Hw Hres).
  rewrite decide_True by (apply lane_keys_elem; cbn; by replace (off + i - off) with i by lia).
  cbn [snd default cell_value version writer_kind writer_event_id].
  replace (off + i - off) with i by lia. cbn [default from_option id].
  rewrite Hver, !bool_decide_true by done. pose proof (value_byte_range v i) as Hb. unfold is_byte in Hb.
  rewrite Z.eqb_refl. replace ((0 <=? value_byte v i) && (value_byte v i <? 256)) with true by lia. done.
Qed.

(** The service after the callback of a committed store. *)
Definition store_event (k : TransactionKey) (a v w be : Z) (r : MemoryRegion) (off g : Z)
    (u : option Version) : ServiceEvent :=
  memory_write k a w (memory_id r) g off v be u.

Definition after_store (k : TransactionKey) (a v w be : Z) (r : MemoryRegion) (off g : Z)
    (u : option Version) (s : MemoryService) : MemoryService :=
  record_event (store_event k a v w be r off g u) (create_object s).

Definition stored_receipt (k : TransactionKey) (a v w be : Z) (r : MemoryRegion) (off g : Z)
    (u : option Version) (s : MemoryService) : WriteReceipt :=
  mkReceipt (created_objects s) k u be (Some (identified (written_fields k a v w be r off g u))).

Lemma store_and_freeze_Ok k a v w be m s l :
  memory_typed m → counters_fit m → validate_write a v w be m = Ok () →
  ∃ r off u m', _resolve a w true m = Ok (r, off) ∧ write a v w be (str_key k) m = (Ok u, m') ∧
    let rc := stored_receipt k a v w be r off (generation m) u s in
    store_and_freeze k a v w be (m, s, l) =
      (Ok (Written rc), (m', after_store k a v w be r off (generation m) u s,
         mkLocal (Some rc) (reserved l))).
Proof.
  intros Hm Hc Hv. pose proof (validated_write a w v be (str_key k) m (str_key_ne k)) as Hw.
  rewrite Hv in Hw. destruct Hw as (u & m' & Hw).
  destruct (write_Ok _ _ _ _ _ _ _ _ Hw) as (r & off & Hres & _ & Hbe & _ & _).
  exists r, off, u, m'. split_and!; [done|done|]. cbn zeta.
  destruct (store_outcome _ _ _ _ _ _ _ _ _ _ Hm Hc Hw Hres) as (Hres' & Hg & Hout & Hver).
  destruct (resolved_span _ _ _ _ _ _ Hm Hres) as [Hid Hoff].
  pose proof (mt_generation _ Hm) as Hg0. destruct Hc as [Hg1 _].
  assert (Hcells : fold_result (λ cells lane,
      cell ← committed_cell k v u m' (memory_id r) off lane; mret (cells ++ [cell])) []
      (enabled_lanes w be) = Ok (stored_cells k v u off (enabled_lanes w be))).
  { rewrite fold_result_collect with (g := λ i, cell_json (off + i)
      (mkCell (value_byte v i) (default (0, 0) u) "STORE" (str_key k))); [done|].
    intros acc i Hi. erewrite committed_cell_stored; [done|done..| |done]. apply Hver. intros ->.
    rewrite (proj2 (enabled_lanes_nil w 0 ltac:(lia)) eq_refl) in Hi. by apply elem_of_nil in Hi. }
  assert (Hspan : empty (memory_id r) || negb (fits64 (generation m)) || negb (fits64 off)
      || negb (bool_decide (memory_id r = memory_id r)) || negb (off =? off)
      || negb (generation m =? generation m') = false).
  { rewrite Hg, !Z.eqb_refl, bool_decide_true by done. unfold empty, fits64.
    rewrite (bool_decide_false (memory_id r = _)) by done. lia. }
  unfold store_and_freeze, resolve_span, on_memory, on_service, on_local, the_memory, the_service. unfold_M.
  cbn [fst snd]. rewrite Hres. cbn [fst snd mbind result_bind mret result_ret].
  rewrite Hw. cbn [fst snd]. rewrite Hres'. cbn [fst snd]. rewrite Hspan. cbn [raise_if].
  by rewrite Hout, Hcells.
Qed.

(** What it does in any state, whether it returns or raises. *)
Record stored (k : TransactionKey) (a v w be : Z) (m m' : PersistentMemory) (s : MemoryService)
    (rc : WriteReceipt) (fields : list (string * json)) (ev : ServiceEvent) : Prop := {
  st_object : receipt_object rc = created_objects s;
  st_key : receipt_key rc = k;
  st_fields : od_get fields "commit_id" = None;
  st_document : _commit_json rc = Some (identified fields);
  st_event : ∃ r off u, _resolve a w true m = Ok (r, off) ∧ write a v w be (str_key k) m = (Ok u, m') ∧
    receipt_version rc = u ∧
    ev = memory_write k a w (memory_id r) (generation m) off v be u }.

Lemma store_and_freeze_cases k a v w be m s l :
  let '(t, (m', s', l')) := store_and_freeze k a v w be (m, s, l) in
  (m' = m ∨ ∃ u, write a v w be (str_key k) m = (Ok u, m')) ∧
  match t with
  | Ok t => ∃ rc fields ev, t = Written rc ∧ stored k a v w be m m' s rc fields ev ∧
      s' = record_event ev (create_object s) ∧ l' = mkLocal (Some rc) (reserved l)
  | Err _ => l' = l ∧ s' = s
  end.
Proof.
  unfold store_and_freeze, resolve_span, on_memory, on_service, on_local, the_memory, the_service.
  unfold_M. cbn [fst snd]. destruct (_resolve a w true m) as [[r off]|x] eqn:Hres; cbn; [|by auto].
  destruct (write a v w be (str_key k) m) as [[u|x] m'] eqn:Hw; cbn.
  2: { rewrite (write_atomic _ _ _ _ _ _ _ _ Hw). by auto. }
  destruct (_resolve a w true m') as [[r' off']|x]; cbn; [|by eauto].
  destruct (raise_if _ _); cbn; [|by eauto]. destruct (check_outcome _ _ _ _ _); cbn; [|by eauto].
  destruct (fold_result _ _ _); cbn; [|by eauto]. split; [by eauto|].
  eexists _, _, _. split_and!; [done| |done|done]. split; [done|done|..|by eauto 10]; [|done]. done.
Qed.
Definition reserve (s : MemoryService) : MemoryService :=
  if commit_stream_enabled s then set_reserved (_commit_reserved s + 1) s else s.

Lemma reserve_commit_eq m s l :
  reserve_commit (m, s, l) =
    if stream_full s then (Err stream_overflow, (m, s, l))
    else (Ok (), (m, reserve s, mkLocal (actual_callback l) (commit_stream_enabled s || reserved l))).
Proof.
  unfold reserve_commit, reserve, on_service, on_local, the_service. unfold_M. cbn [fst snd].
  destruct (commit_stream_enabled s) eqn:He; cbn [fst snd].
  - destruct (stream_full s); done.
  - assert (stream_full s = false) as ->; [|by destruct l].
    unfold commit_stream_enabled, stream_full in *. by destruct (_commit_stream_capacity s).
Qed.
End write.

(** ** One call of the service *)

Section calls.
Context {hashlib : Hashlib} {keytext : KeyText}.

Lemma json_field_identified fields :
  od_get fields "commit_id" = None →
  json_field "commit_id" (identified fields) = Ok (JStr (commit_id_of fields)).
Proof.
  intros Hf. unfold json_field, identified. set (i := JStr _). clearbody i.
  assert (od_get (fields ++ [("commit_id", i)]) "commit_id" = Some i) as ->; [|done].
  induction fields as [|[x j] fields IH]; cbn in *; [done|].
  destruct (decide (x = "commit_id")); [done|]. by apply IH.
Qed.

(** The service after a committed store. *)
Definition committed (rc : WriteReceipt) (fields : list (string * json)) (ev : ServiceEvent) (s : MemoryService)
    : MemoryService :=
  let s' := record_event ev (create_object s) in
  let id := commit_id_of fields in
  if commit_stream_enabled s then
    publish id (rc, identified fields,
      commit_event (_service_commit_sequence s + 1) (receipt_key rc) id (identified fields)) s'
  else s'.

(** The callback of a fresh write, past its reservation. *)
Definition frozen_store (k : TransactionKey) (a v w be : Z) (W : World) : result Receipt * Callback :=
  store_and_freeze k a v w be
    (memory W, reserve (service W), mkLocal None (commit_stream_enabled (service W))).

(** How a fresh write ends. *)
Inductive written (k : TransactionKey) (a v w be : Z) (W : World) : result (option Receipt) → World → Prop :=
  | written_commits rc fields ev d m' l' :
      _digest (write_payload a v w be) = Ok d →
      (frozen_store k a v w be W).1 = Ok (Written rc) →
      stored k a v w be (memory W) m' (service W) rc fields ev →
      _entries l' = od_set (_entries (ledger W)) k (mkEntry d complete (Some (Written rc))) →
      written k a v w be W (Ok (Some (Written rc))) (mkWorld m' l' (committed rc fields ev (service W)))
  | written_fails x d m' l' :
      (frozen_store k a v w be W).1 = Err x →
      m' = memory W ∨ (∃ u, write a v w be (str_key k) (memory W) = (Ok u, m')) →
      _entries l' = od_set (_entries (ledger W)) k (mkEntry d uncertain_effect None) →
      written k a v w be W (Err x) (mkWorld m' l' (service W)).

Lemma completed_with_set k rc d (l : Ledger Receipt) en :
  _entries l = od_set en k (mkEntry d complete (Some (Written rc))) → completed_with k rc l = true.
Proof.
  intros Hl. unfold completed_with. rewrite Hl, od_get_set_eq. cbn. by rewrite Z.eqb_refl.
Qed.

Lemma set_reserved_back n s : n = _commit_reserved s → set_reserved n s = s.
Proof. intros ->. by destruct s. Qed.

(** Reserving and releasing around a commit. *)
Lemma committed_reserved rc fields ev s :
  commit_stream_enabled s = true →
  set_reserved (_commit_reserved (publish (commit_id_of fields) (rc, identified fields,
      commit_event (_service_commit_sequence s + 1) (receipt_key rc) (commit_id_of fields) (identified fields))
      (record_event ev (create_object (reserve s)))) - 1)
    (publish (commit_id_of fields) (rc, identified fields,
      commit_event (_service_commit_sequence s + 1) (receipt_key rc) (commit_id_of fields) (identified fields))
      (record_event ev (create_object (reserve s)))) =
  committed rc fields ev s.
Proof.
  intros He. unfold committed, reserve. rewrite He. unfold set_reserved, publish; cbn.
  by rewrite Z.add_simpl_r.
Qed.

Lemma reserve_disabled s : commit_stream_enabled s = false → reserve s = s.
Proof. unfold reserve. by intros ->. Qed.

Lemma commit_write_eq k a v w be W :
  stream_full (service W) = false →
  commit_write k a v w be (memory W, service W, mkLocal None false) = frozen_store k a v w be W.
Proof.
  intros Hfull. unfold commit_write, frozen_store. unfold mbind at 1, M_bind at 1.
  rewrite reserve_commit_eq, Hfull. cbn. by rewrite orb_false_r.
Qed.

Lemma stored_reserve k a v w be m m' s rc fields ev :
  stored k a v w be m m' (reserve s) rc fields ev → stored k a v w be m m' s rc fields ev.
Proof.
  intros [H1 H2 H3 H4 H5]. split; try done. rewrite H1. unfold reserve. by destruct (commit_stream_enabled s).
Qed.

Lemma enabled_reserved s ev :
  commit_stream_enabled (record_event ev (create_object (reserve s))) = commit_stream_enabled s.
Proof. unfold reserve. by destruct (commit_stream_enabled s) eqn:He. Qed.

Lemma service_write_fresh k a v w be W :
  typed_key k = true → validate_write a v w be (memory W) = Ok () → stream_full (service W) = false →
  fresh_in (ledger W) k →
  let '(r, W') := service_write k a v w be W in written k a v w be W r W'.
Proof.
  intros Hk Hv Hfull Hfresh. unfold service_write, executed.
  rewrite Hk, Hv, Hfull, andb_false_r. cbn [negb raise_if mbind result_bind].
  destruct (execute_once_fresh k (write_payload a v w be) _ (commit_write k a v w be) (ledger W)
    (memory W, service W, mkLocal None false) eq_refl Hfresh) as (l' & -> & Hl').
  rewrite commit_write_eq in * by done.
  pose proof (store_and_freeze_cases k a v w be (memory W) (reserve (service W))
    (mkLocal None (commit_stream_enabled (service W)))) as Hcases.
  fold (frozen_store k a v w be W) in Hcases.
  destruct (frozen_store k a v w be W) as [t [[m' s'] loc]] eqn:Hf. cbn in Hcases.
  destruct Hcases as [Hm Hcases]. cbn [fst snd] in *.
  destruct t as [t|x]; cbn [outcome_entry] in Hl'.
  - destruct Hcases as (rc & fields & ev & -> & Hst & -> & ->). cbn.
    apply stored_reserve in Hst.
    assert (Hcommit : written k a v w be W (Ok (Some (Written rc)))
      (mkWorld m' l' (committed rc fields ev (service W)))).
    { eapply written_commits; [done|by rewrite Hf|done|exact Hl']. }
    rewrite enabled_reserved. destruct (commit_stream_enabled (service W)) eqn:He.
    + unfold publish_commit. rewrite (st_document _ _ _ _ _ _ _ _ _ _ _ Hst).
      cbn [ledger memory service set_service].
      rewrite (completed_with_set k rc _ l' _ Hl'). rewrite Z.eqb_refl. cbn [negb orb raise_if mbind result_bind].
      rewrite json_field_identified by apply Hst.
      cbn [mbind result_bind mret result_ret json_str service set_service memory ledger].
      rewrite <- (committed_reserved rc fields ev (service W) He), (st_key _ _ _ _ _ _ _ _ _ _ _ Hst) in Hcommit.
      unfold reserve in *. rewrite He in *. exact Hcommit.
    + unfold committed in Hcommit. rewrite He in Hcommit. rewrite reserve_disabled by done. exact Hcommit.
  - destruct Hcases as [-> ->]. cbn. eapply written_fails in Hl'; [|by rewrite Hf|done].
    destruct (commit_stream_enabled (service W)) eqn:He; [|by rewrite reserve_disabled].
    assert (set_service (set_reserved (_commit_reserved (reserve (service W)) - 1) (reserve (service W)))
      (mkWorld m' l' (reserve (service W))) = mkWorld m' l' (service W)) as Heq; [|cbn [service]; rewrite Heq; exact Hl'].
    unfold reserve, set_service. rewrite He. cbn. f_equal. apply (set_reserved_back _ (service W)). lia.
Qed.

(** Otherwise a write changes nothing, and returns only a frozen receipt. *)
Definition frozen_receipt (k : TransactionKey) (payload : json) (W : World) (r : result (option Receipt)) : Prop :=
  ∀ x, r = Ok x → ∃ e, od_get (_entries (ledger W)) k = Some e ∧ status e = complete ∧ receipt e = x ∧
    _digest payload = Ok (payload_digest e).

Lemma executed_other k p op W :
  ¬ fresh_in (ledger W) k →
  ∃ r, executed k p op W = ((r, mkLocal None false), W) ∧ frozen_receipt k p W r.
Proof.
  intros Hn. unfold executed.
  destruct (execute_once_other k p op (ledger W) ((memory W, service W, mkLocal None false) : Callback) Hn)
    as [Hst Hr].
  destruct (execute_once _ _ _ _) as [r [l [[m s] loc]]]. cbn in *. simplify_eq.
  exists r. split; [by destruct W|done].
Qed.

Lemma service_write_cases k a v w be W :
  let '(r, W') := service_write k a v w be W in
  (W' = W ∧ frozen_receipt k (write_payload a v w be) W r) ∨
  (typed_key k = true ∧ validate_write a v w be (memory W) = Ok () ∧ stream_full (service W) = false ∧
   fresh_in (ledger W) k ∧ written k a v w be W r W').
Proof.
  destruct (typed_key k) eqn:Hk.
  2: { unfold service_write. rewrite Hk. by left. }
  destruct (validate_write a v w be (memory W)) as [[]|x] eqn:Hv.
  2: { unfold service_write. rewrite Hk, Hv. by left. }
  destruct (decide (fresh_in (ledger W) k)) as [Hf|Hf].
  - destruct (stream_full (service W)) eqn:Hfull.
    { unfold service_write. rewrite Hk, Hv, Hfull, bool_decide_true by apply Hf.
      assert (commit_stream_enabled (service W) = true) as ->; [|by left].
      unfold stream_full, commit_stream_enabled in *. by destruct (_commit_stream_capacity (service W)). }
    pose proof (service_write_fresh k a v w be W Hk Hv Hfull Hf) as Hw.
    destruct (service_write k a v w be W) as [r W']. by right.
  - unfold service_write. rewrite Hk, Hv. cbn [negb raise_if mbind result_bind].
    destruct (raise_if _ _) as [[]|x]; [|by left].
    destruct (executed_other k (write_payload a v w be) (commit_write k a v w be) W Hf) as (r & -> & Hr).
    cbn [actual_callback reserved]. destruct r; by left.
Qed.

(** ** Reads *)

Definition initialization_of (k : TransactionKey) (snap : ReadSnapshot) (offset : Z) : ServiceEvent :=
  let i := Z.to_nat (offset - byte_offset snap) in
  memory_initialization k (snapshot_memory_id snap) (snapshot_generation snap) offset
    (default 0 (data snap !! i)) (default (0, 0) (versions snap !! i))
    (default EmptyString (writer_event_ids snap !! i)).

Definition read_event (k : TransactionKey) (a w : Z) (snap : ReadSnapshot) (kinds : bool) : ServiceEvent :=
  memory_read k a w (snapshot_memory_id snap) (snapshot_generation snap) (byte_offset snap)
    (snapshot_value snap) (data snap) (versions snap) (writer_event_ids snap)
    (if kinds then Some (writer_kinds snap) else None).

Definition log_events (evs : list ServiceEvent) (s : MemoryService) : MemoryService :=
  mkService (include_writer_kinds s) (events s ++ evs) (_commit_stream_capacity s) (_pending_commits s)
    (_issued_receipt_ids s) (_service_commit_sequence s) (_commit_reserved s) (created_objects s).

Lemma log_record evs e s : record_event e (log_events evs s) = log_events (evs ++ [e]) s.
Proof. unfold record_event, log_events; cbn. by rewrite app_assoc. Qed.

Lemma snapshot_lengths a w tx m s m' :
  read a w tx m = (Ok s, m') →
  length (data s) = Z.to_nat w ∧ length (versions s) = Z.to_nat w ∧ length (writer_event_ids s) = Z.to_nat w ∧
  Forall (λ o, byte_offset s ≤ o < byte_offset s + w) (materialized_offsets s).
Proof.
  intros (r & off & _ & _ & _ & _ & _ & ->)%read_Ok. cbn. rewrite !length_fmap, keys_at_length.
  split_and!; try done. apply Forall_forall.
  by intros o (k & -> & [_ [_ Hk]%keys_at_elem]%list_elem_of_filter)%list_elem_of_fmap.
Qed.

Lemma lane_lookup {A} (l : list A) d i :
  0 ≤ i < Z.of_nat (length l) → lane l i = Ok (default d (l !! Z.to_nat i)).
Proof.
  intros Hi. unfold lane. destruct (l !! Z.to_nat i) eqn:Hl; [done|]. apply lookup_ge_None in Hl. lia.
Qed.

Lemma initialization_logged k snap w o m s loc :
  length (data snap) = Z.to_nat w → length (versions snap) = Z.to_nat w →
  length (writer_event_ids snap) = Z.to_nat w → byte_offset snap ≤ o < byte_offset snap + w →
  initialization_event k snap o (m, s, loc) = (Ok (), (m, record_event (initialization_of k snap o) s, loc)).
Proof.
  intros Hd Hv Hw Ho. unfold initialization_event, on_service. unfold_M.
  by rewrite (lane_lookup (data snap) 0), (lane_lookup (versions snap) (0, 0)),
    (lane_lookup (writer_event_ids snap) EmptyString) by lia.
Qed.

Lemma initializations_logged k snap w l m evs s loc :
  length (data snap) = Z.to_nat w → length (versions snap) = Z.to_nat w →
  length (writer_event_ids snap) = Z.to_nat w →
  Forall (λ o, byte_offset snap ≤ o < byte_offset snap + w) l →
  for_eachM (initialization_event k snap) l (m, log_events evs s, loc) =
    (Ok (), (m, log_events (evs ++ (initialization_of k snap <$> l)) s, loc)).
Proof.
  intros Hd Hv Hw Hl. revert evs. induction Hl as [|o l Ho Hl IH]; intros evs.
  { by rewrite app_nil_r. }
  cbn [for_eachM]. unfold mbind at 1, M_bind at 1. rewrite (initialization_logged k snap w) by done.
  rewrite log_record, IH, <- app_assoc. done.
Qed.

Lemma commit_read_Ok k a w m s l :
  validate_read a w m = Ok () →
  ∃ snap m', read a w (str_key k) m = (Ok snap, m') ∧
    commit_read k a w (m, s, l) =
      (Ok (ReadReceipt snap), (m', log_events ((initialization_of k snap <$> materialized_offsets snap)
         ++ [read_event k a w snap (include_writer_kinds s)]) s, l)).
Proof.
  intros Hv. pose proof (validated_read a w (str_key k) m (str_key_ne k)) as Hr. rewrite Hv in Hr.
  destruct Hr as (snap & m' & Hr). exists snap, m'. split; [done|].
  destruct (snapshot_lengths _ _ _ _ _ _ Hr) as (Hd & Hvs & Hw & Hoff).
  unfold commit_read, on_memory. unfold mbind at 1, M_bind at 1. rewrite Hr. unfold mbind at 1, M_bind at 1.
  pose proof (initializations_logged k snap w _ m' [] s l Hd Hvs Hw Hoff) as Hi.
  assert (Hs : log_events [] s = s) by (destruct s; unfold log_events; cbn; by rewrite app_nil_r).
  rewrite Hs in Hi. rewrite Hi. unfold on_service, the_service. unfold_M.
  by rewrite log_record.
Qed.

(** How a fresh read ends. *)
Inductive read_done (k : TransactionKey) (a w : Z) (W : World) : result (option Receipt) → World → Prop :=
  | read_commits snap d m' l' :
      _digest (read_payload a w) = Ok d →
      read a w (str_key k) (memory W) = (Ok snap, m') →
      _entries l' = od_set (_entries (ledger W)) k (mkEntry d complete (Some (ReadReceipt snap))) →
      read_done k a w W (Ok (Some (ReadReceipt snap)))
        (mkWorld m' l' (log_events ((initialization_of k snap <$> materialized_offsets snap)
           ++ [read_event k a w snap (include_writer_kinds (service W))]) (service W))).

Lemma service_read_cases k a w W :
  let '(r, W') := service_read k a w W in
  (W' = W ∧ frozen_receipt k (read_payload a w) W r) ∨
  (validate_read a w (memory W) = Ok () ∧ fresh_in (ledger W) k ∧ read_done k a w W r W').
Proof.
  unfold service_read. destruct (validate_read a w (memory W)) as [[]|x] eqn:Hv; [|by left].
  destruct (decide (fresh_in (ledger W) k)) as [Hf|Hf].
  - destruct (commit_read_Ok k a w (memory W) (service W) (mkLocal None false) Hv) as (snap & m' & Hr & Hc).
    unfold executed.
    destruct (execute_once_fresh k (read_payload a w) _ (commit_read k a w) (ledger W)
      ((memory W, service W, mkLocal None false) : Callback) eq_refl Hf) as (l' & -> & Hl').
    rewrite Hc in *. right. split_and!; [done|done|]. eapply read_commits; [done|done|exact Hl'].
  - destruct (executed_other k (read_payload a w) (commit_read k a w) W Hf) as (r & -> & Hr). by left.
Qed.
End calls.

(** ** Any sequence of calls *)

Inductive service_call :=
  | CallRead (k : TransactionKey) (a w : Z)
  | CallWrite (k : TransactionKey) (a v w be : Z)
  | CallAccept (a : Z) (d : list Z) (e : string)
  | CallAck (ids : list string)
  | CallMemory (o : op).

Definition call_typed (c : service_call) : Prop :=
  match c with
  | CallAccept _ d _ => Forall is_byte d
  | CallMemory o => op_typed o
  | _ => True
  end.

Section reachable.
Context {hashlib : Hashlib} {keytext : KeyText}.

Definition serve (W : World) (c : service_call) : World :=
  match c with
  | CallRead k a w => (service_read k a w W).2
  | CallWrite k a v w be => (service_write k a v w be W).2
  | CallAccept a d e => (service_accept a d e W).2
  | CallAck ids => (ack_commit_events ids W).2
  | CallMemory o => mkWorld (exec o (memory W)).2 (ledger W) (service W)
  end.

Definition serve_all (W : World) (cs : list service_call) : World := foldl serve W cs.

(** *** Every transaction is logged once *)

Definition transaction_of (e : ServiceEvent) : option TransactionKey :=
  match e with
  | memory_read k _ _ _ _ _ _ _ _ _ _ | memory_write k _ _ _ _ _ _ _ _ => Some k
  | _ => None
  end.

Definition transactions (evs : list ServiceEvent) : list TransactionKey := omap transaction_of evs.

(** The event says what the receipt says. *)
Definition recorded_as (e : ServiceEvent) (t : Receipt) : Prop :=
  match t with
  | ReadReceipt snap => ∃ k a w kinds, e = read_event k a w snap kinds
  | Written rc => ∃ a w id g off v be,
      e = memory_write (receipt_key rc) a w id g off v be (receipt_version rc)
  end.

Record log_ok (l : Ledger Receipt) (evs : list ServiceEvent) : Prop := {
  lo_once : NoDup (transactions evs);
  lo_receipt e k : e ∈ evs → transaction_of e = Some k →
    ∃ d t, od_get (_entries l) k = Some (mkEntry d complete (Some t)) ∧ recorded_as e t;
  lo_logged k e : od_get (_entries l) k = Some e → status e = complete → k ∈ transactions evs }.

Lemma transactions_elem evs k : k ∈ transactions evs ↔ ∃ e, e ∈ evs ∧ transaction_of e = Some k.
Proof. apply list_elem_of_omap. Qed.

(** Events that name no transaction. *)
Lemma log_ok_silent l evs evs' :
  log_ok l evs → Forall (λ e, transaction_of e = None) evs' → log_ok l (evs ++ evs').
Proof.
  intros [H1 H2 H3] Hs. assert (Heq : transactions (evs ++ evs') = transactions evs).
  { unfold transactions. rewrite omap_app. clear -Hs. induction Hs as [|e es He Hs IH]; cbn.
    - by rewrite app_nil_r.
    - by rewrite He. }
  split; rewrite ?Heq; [done| |done].
  intros e k [He|He]%elem_of_app Hk; [by eapply H2|]. rewrite Forall_forall in Hs. apply Hs in He. congruence.
Qed.

Lemma log_ok_failed l l' evs k d :
  log_ok l evs → fresh_in l k → _entries l' = od_set (_entries l) k (mkEntry d uncertain_effect None) →
  log_ok l' evs.
Proof.
  intros [H1 H2 H3] [Hk _] Hl. split; [done| |]; intros e k'; rewrite Hl.
  - intros He Hk'. destruct (H2 _ _ He Hk') as (d' & t & Hg & ?). exists d', t.
    rewrite od_get_set_ne by congruence. done.
  - rewrite od_get_set. case_decide; [by intros [= <-]|]. eauto.
Qed.

Lemma log_ok_recorded l l' evs k d e t :
  log_ok l evs → fresh_in l k → _entries l' = od_set (_entries l) k (mkEntry d complete (Some t)) →
  transaction_of e = Some k → recorded_as e t → log_ok l' (evs ++ [e]).
Proof.
  intros [H1 H2 H3] [Hk _] Hl He Ht. assert (Heq : transactions (evs ++ [e]) = transactions evs ++ [k]).
  { unfold transactions. rewrite omap_app. cbn. by rewrite He. }
  split; rewrite ?Heq.
  - apply NoDup_app. split_and!; [done| |apply NoDup_singleton].
    intros k' Hk' ->%list_elem_of_singleton. apply transactions_elem in Hk' as (e' & He' & Hke').
    destruct (H2 _ _ He' Hke') as (? & ? & Hg & _). congruence.
  - intros e' k' [He'|He']%elem_of_app Hk'; rewrite Hl; [|apply list_elem_of_singleton in He' as ->].
    + destruct (H2 _ _ He' Hk') as (d' & t' & Hg & ?). exists d', t'.
      rewrite od_get_set_ne by congruence. done.
    + assert (k' = k) as -> by congruence. exists d, t. by rewrite od_get_set_eq.
  - intros k' e'. rewrite Hl, od_get_set, elem_of_app. case_decide as Hd; [|eauto].
    intros _ _. right. subst. left.
Qed.

(** *** The stream of commits *)

Record commit_ok (l : Ledger Receipt) (s : MemoryService) (id : string) (c : Commit) : Prop := {
  co_document : _commit_json c.1.1 = Some c.1.2;
  co_completed : completed_with (receipt_key c.1.1) c.1.1 l = true;
  co_issued : _issued_receipt_ids s !! receipt_object c.1.1 = Some id;
  co_event : ∃ n, 1 ≤ n ≤ _service_commit_sequence s ∧
    c.2 = commit_event n (receipt_key c.1.1) id c.1.2 }.

Record stream_ok (l : Ledger Receipt) (s : MemoryService) : Prop := {
  so_reserved : _commit_reserved s = 0;
  so_capacity : match _commit_stream_capacity s with
                | Some c => pending_commit_count s ≤ c
                | None => _pending_commits s = []
                end;
  so_keys : NoDup (od_keys (_pending_commits s));
  so_pending id c : od_get (_pending_commits s) id = Some c → commit_ok l s id c;
  so_issued o id : _issued_receipt_ids s !! o = Some id → o < created_objects s;
  so_sequence : 0 ≤ _service_commit_sequence s }.

Lemma completed_with_keeps k' r (l l' : Ledger Receipt) k e :
  fresh_in l k → _entries l' = od_set (_entries l) k e →
  completed_with k' r l = true → completed_with k' r l' = true.
Proof.
  intros [Hk _] Hl. unfold completed_with. rewrite Hl, od_get_set. case_decide; [|done].
  subst. by rewrite Hk.
Qed.

Lemma stream_ok_ledger l l' s k e :
  fresh_in l k → _entries l' = od_set (_entries l) k e → stream_ok l s → stream_ok l' s.
Proof.
  intros Hf Hl [H1 H2 H3 H4 H5 H6]. split; try done. intros id c Hc.
  destruct (H4 id c Hc) as [? Hd ? ?]. split; try done. by eapply completed_with_keeps.
Qed.

Lemma stream_ok_log l s evs : stream_ok l s → stream_ok l (log_events evs s).
Proof. intros [H1 H2 H3 H4 H5 H6]. split; try done. intros id c Hc. by destruct (H4 id c Hc). Qed.

Lemma stream_full_room s :
  stream_full s = false → _commit_reserved s = 0 →
  match _commit_stream_capacity s with Some c => pending_commit_count s + 1 ≤ c | None => True end.
Proof. unfold stream_full. destruct (_commit_stream_capacity s); [|done]. intros Hl%Z.leb_gt Hr. lia. Qed.

Lemma stream_ok_committed l s k a v w be m m' rc fields ev d l0 :
  stream_ok l0 s → fresh_in l0 k → _entries l = od_set (_entries l0) k (mkEntry d complete (Some (Written rc))) →
  stored k a v w be m m' s rc fields ev → stream_full s = false →
  stream_ok l (committed rc fields ev s).
Proof.
  intros Hs Hf Hl Hst Hfull. apply (stream_ok_ledger _ _ _ _ _ Hf Hl) in Hs.
  destruct Hs as [H1 H2 H3 H4 H5 H6]. destruct Hst as [Hobj Hkey _ Hdoc _].
  pose proof (stream_full_room s Hfull H1) as Hroom.
  unfold committed, commit_stream_enabled. destruct (_commit_stream_capacity s) as [cap|] eqn:Hcap; cbn.
  2: { split; try done; cbn; [by rewrite Hcap|..].
       - intros id c. rewrite H2. done.
       - intros o id Ho%H5. lia. }
  split; cbn; try done.
  - rewrite Hcap. unfold pending_commit_count in *. cbn.
    pose proof (od_set_length (_pending_commits s) (commit_id_of fields) (rc, identified fields,
      commit_event (_service_commit_sequence s + 1) (receipt_key rc) (commit_id_of fields) (identified fields))).
    lia.
  - by apply od_set_NoDup.
  - intros id c. rewrite od_get_set. case_decide as Hid.
    + intros [= <-]. subst id. split; cbn; [done| |by rewrite Hobj, lookup_insert_eq|].
      * rewrite Hkey. by eapply completed_with_set.
      * eexists. split; [|done]. lia.
    + intros Hc. destruct (H4 id c Hc) as [Hd Hcw Hi (n & Hn & He)]. split; cbn; [done|done| |].
      * rewrite lookup_insert_ne; [done|]. apply H5 in Hi. lia.
      * exists n. split; [lia|done].
  - intros o id. rewrite lookup_insert. case_decide; [lia|]. intros Ho%H5. lia.
  - lia.
Qed.

Lemma stream_ok_release l s id : stream_ok l s → stream_ok l (release id s).
Proof.
  intros Hs. unfold release. destruct (od_get (_pending_commits s) id) as [[[r j] e]|] eqn:Hg; [|done].
  destruct Hs as [H1 H2 H3 H4 H5 H6]. split; cbn; try done.
  - unfold pending_commit_count in *. cbn. destruct (_commit_stream_capacity s); [|by rewrite H2].
    pose proof (od_del_length (_pending_commits s) id). lia.
  - by apply od_del_NoDup.
  - intros id' c. rewrite od_get_del by done. case_decide as Hid; [done|]. intros Hc.
    destruct (H4 id' c Hc) as [Hd Hcw Hi He]. split; cbn; try done.
    rewrite lookup_delete_ne; [done|]. intros Heq.
    pose proof (co_issued _ _ _ _ (H4 id _ Hg)) as Hi'. cbn in Hi'. congruence.
  - intros o id'. rewrite lookup_delete. case_decide; [done|]. apply H5.
Qed.

(** *** The invariant of every reachable state *)

Record service_ok (W : World) : Prop := {
  sv_memory : memory_typed (memory W);
  sv_stream : stream_ok (ledger W) (service W);
  sv_log : log_ok (ledger W) (events (service W)) }.

Lemma memory_typed_exec o m : op_typed o → memory_typed m → memory_typed (exec o m).2.
Proof.
  intros Ho [Hm Hg Hr]. destruct (exec_frame o m) as [He Hgen]. split.
  - by apply exec_ok.
  - rewrite Hgen. destruct o; lia.
  - by rewrite He.
Qed.

Lemma memory_typed_write a v w be e m u m' :
  write a v w be e m = (Ok u, m') → memory_typed m → memory_typed m'.
Proof.
  intros Hw Hm. pose proof (memory_typed_exec (Write a v w be e) m I Hm) as Hm'.
  cbn in Hm'. by rewrite Hw in Hm'.
Qed.

Lemma memory_typed_read a w tx m s m' :
  read a w tx m = (Ok s, m') → memory_typed m → memory_typed m'.
Proof.
  intros Hr Hm. pose proof (memory_typed_exec (Read a w tx) m I Hm) as Hm'.
  cbn in Hm'. by rewrite Hr in Hm'.
Qed.

Lemma committed_events rc fields ev s : events (committed rc fields ev s) = events s ++ [ev].
Proof. unfold committed. by case_match. Qed.

Lemma service_write_ok k a v w be W : service_ok W → service_ok (service_write k a v w be W).2.
Proof.
  intros Hok. pose proof (service_write_cases k a v w be W) as Hc.
  destruct (service_write k a v w be W) as [r W']. cbn [snd].
  destruct Hc as [[-> _]|(_ & _ & Hfull & Hf & Hw)]; [done|]. destruct Hok as [Hm Hs Hl].
  destruct Hw as [rc fields ev d m' l' _ _ Hst Hl'|x d m' l' _ Hm' Hl'].
  - pose proof (st_event _ _ _ _ _ _ _ _ _ _ _ Hst) as (r & off & u & _ & Hw & Hu & Hev). split; cbn.
    + by eapply memory_typed_write.
    + by eapply stream_ok_committed.
    + rewrite committed_events. eapply log_ok_recorded; [done..|by rewrite Hev|].
      cbn. rewrite Hev, (st_key _ _ _ _ _ _ _ _ _ _ _ Hst), Hu. eauto 10.
  - split; cbn.
    + destruct Hm' as [->|[u Hu]]; [done|]. by eapply memory_typed_write.
    + by eapply stream_ok_ledger.
    + by eapply log_ok_failed.
Qed.

Lemma service_read_ok k a w W : service_ok W → service_ok (service_read k a w W).2.
Proof.
  intros Hok. pose proof (service_read_cases k a w W) as Hc.
  destruct (service_read k a w W) as [r W']. cbn [snd].
  destruct Hc as [[-> _]|(_ & Hf & Hr)]; [done|]. destruct Hok as [Hm Hs Hl].
  destruct Hr as [snap d m' l' _ Hr Hl']. split; cbn.
  - by eapply memory_typed_read.
  - apply stream_ok_log. by eapply stream_ok_ledger.
  - rewrite app_assoc. eapply log_ok_recorded; [|done..|by eexists _, _, _, _].
    apply log_ok_silent; [done|]. apply Forall_fmap, Forall_true. done.
Qed.

Lemma release_all_ok l ids s : stream_ok l s → stream_ok l (foldl (λ s id, release id s) s ids).
Proof. revert s. induction ids; cbn; eauto using stream_ok_release. Qed.

Lemma release_all_events ids s : events (foldl (λ s id, release id s) s ids) = events s.
Proof.
  revert s. induction ids as [|id ids IH]; intros s; cbn; [done|]. rewrite IH.
  unfold release. by destruct (od_get _ id) as [[[? ?] ?]|].
Qed.

Lemma serve_ok W c : call_typed c → service_ok W → service_ok (serve W c).
Proof.
  intros Ht Hok. destruct c as [k a w|k a v w be|a d e|ids|o]; cbn.
  - by apply service_read_ok.
  - by apply service_write_ok.
  - unfold service_accept. destruct Hok as [Hm Hs Hl].
    pose proof (memory_typed_exec (AcceptInstructions a d e) _ Ht Hm) as Hm'. cbn in Hm'.
    destruct (accept_instructions a d e (memory W)) as [[acc|x] m']; (split; [done| |]); cbn; [..|done|done].
    + apply (stream_ok_log _ _ [_]). done.
    + apply log_ok_silent; [done|]. by apply Forall_singleton.
  - unfold ack_commit_events. destruct (negb _); [done|]. destruct Hok as [Hm Hs Hl]. split; cbn.
    + done.
    + by apply release_all_ok.
    + by rewrite release_all_events.
  - destruct Hok as [Hm Hs Hl]. split; cbn; [|done|done]. by apply memory_typed_exec.
Qed.

Lemma serve_all_ok W cs : Forall call_typed cs → service_ok W → service_ok (serve_all W cs).
Proof. intros Hcs. revert W. induction Hcs; cbn; eauto using serve_ok. Qed.

Lemma new_world_ok regions seed max_bytes isa m kinds capacity s :
  Forall (λ r, MemoryRegion_post_init r = Ok r) regions →
  new_memory regions seed max_bytes isa = Ok m → new_service kinds capacity = Ok s →
  service_ok (mkWorld m new_ledger s).
Proof.
  intros Hr Hm Hs. unfold new_service in Hs. inv_Ok. split; cbn.
  - assert (Hf : generation m = 0 ∧ _regions m = regions).
    { unfold new_memory in Hm. inv_Ok. done. }
    destruct Hf as [Hg Hreg]. split; [by eapply new_memory_ok|lia|by rewrite Hreg].
  - split; cbn; try done; [|constructor].
    destruct capacity; [|done]. unfold pending_commit_count. cbn. lia.
  - split; cbn; [constructor| |done]. by intros e k ?%elem_of_nil.
Qed.
End reachable.

(** ** Properties *)

Section properties.
Context {hashlib : Hashlib} {keytext : KeyText}.

(** A service built by its constructors. *)
Definition started (W : World) : Prop :=
  ∃ regions seed max_bytes isa m kinds capacity s,
    Forall (λ r, MemoryRegion_post_init r = Ok r) regions ∧
    new_memory regions seed max_bytes isa = Ok m ∧ new_service kinds capacity = Ok s ∧
    W = mkWorld m new_ledger s.

Lemma started_ok W0 cs : started W0 → Forall call_typed cs → service_ok (serve_all W0 cs).
Proof.
  intros (? & ? & ? & ? & ? & ? & ? & ? & Hr & Hm & Hs & ->) Hcs.
  apply serve_all_ok; [done|]. by eapply new_world_ok.
Qed.

Lemma identified_inj f f' : identified f = identified f' → f = f'.
Proof. unfold identified. intros [= Heq]. by apply app_inj_2 in Heq as [-> _]. Qed.

(** The bytes of a store are there, so its check passes again. *)
Lemma validate_again a v w be e m u m' :
  memory_ok m → validate_write a v w be m = Ok () → write a v w be e m = (Ok u, m') →
  validate_write a v w be m' = Ok ().
Proof.
  intros Hm Hv Hw. pose proof (exec_write_ok _ _ _ _ _ _ _ _ Hm Hw) as Hm'.
  destruct (write_windows _ _ _ _ _ _ _ _ Hw) as [Hwin _].
  destruct (write_Ok _ _ _ _ _ _ _ _ Hw) as (r & off & Hres & _).
  unfold validate_write in *. rewrite (resolve_same_windows m m'), Hres in * by done.
  cbn in *. destruct (check_store v w be) as [[]|]; [|done]. cbn.
  unfold _budget. apply raise_if_Ok, Z.ltb_ge.
  assert (missing m' (lane_keys (memory_id r) off (enabled_lanes w be)) = []) as ->.
  { apply filter_none. intros k Hk. rewrite (write_lookup _ _ _ _ _ _ _ _ _ _ k Hw Hres).
    by rewrite decide_True. }
  unfold count. cbn [length]. pose proof (mok_budget _ Hm'). lia.
Qed.

Lemma service_write_replay k a v w be W d rc :
  typed_key k = true → validate_write a v w be (memory W) = Ok () →
  od_get (_entries (ledger W)) k = Some (mkEntry d complete (Some rc)) →
  _digest (write_payload a v w be) = Ok d →
  service_write k a v w be W = (Ok (Some rc), W).
Proof.
  intros Hk Hv He Hd. unfold service_write. rewrite Hk, Hv, He, bool_decide_false by done.
  rewrite andb_false_r. cbn [negb raise_if mbind result_bind]. unfold executed.
  rewrite (execute_once_replay k _ _ _ _ _ He) by done. by destruct W.
Qed.

(** C6.  A fresh write commits.  In every reachable state of a service, a write
    with a complete typed key that passes [validate_write], whose key is new and
    next on its channel, with room in the commit stream and 64-bit counters,
    returns a receipt: none of the consistency errors of the callback is raised.
    The memory makes exactly its store; the receipt carries the version and the
    frozen document of the stored cells; the event list grows by the write; an
    enabled stream gets the commit, numbered next.  A retry of the same call
    returns the same receipt object and changes nothing. *)
Theorem fresh_write_commits W0 cs k a v w be :
  started W0 → Forall call_typed cs →
  let W := serve_all W0 cs in
  counters_fit (memory W) → typed_key k = true → validate_write a v w be (memory W) = Ok () →
  stream_full (service W) = false → fresh_in (ledger W) k →
  ∃ r off u W',
    let g := generation (memory W) in
    let rc := stored_receipt k a v w be r off g u (service W) in
    _resolve a w true (memory W) = Ok (r, off) ∧
    write a v w be (str_key k) (memory W) = (Ok u, memory W') ∧
    service_write k a v w be W = (Ok (Some (Written rc)), W') ∧
    service W' = committed rc (written_fields k a v w be r off g u)
                   (store_event k a v w be r off g u) (service W) ∧
    service_write k a v w be W' = (Ok (Some (Written rc)), W').
Proof.
  intros H0 Hcs W Hc Hk Hv Hfull Hf. destruct (started_ok W0 cs H0 Hcs) as [Hm _ _]. fold W in Hm.
  pose proof (service_write_fresh k a v w be W Hk Hv Hfull Hf) as Hw.
  destruct (store_and_freeze_Ok k a v w be (memory W) (reserve (service W))
    (mkLocal None (commit_stream_enabled (service W))) Hm Hc Hv) as (r & off & u & m' & Hres & Hwr & Hst).
  fold (frozen_store k a v w be W) in Hst. cbn zeta in Hst.
  destruct (service_write k a v w be W) as [t W'] eqn:Hs.
  exists r, off, u, W'. cbn zeta.
  destruct Hw as [rc fields ev d m1 l1 Hd Hfs Hsd Hl1|x d m1 l1 Hfs]; [|by rewrite Hst in Hfs].
  rewrite Hst in Hfs. injection Hfs as <-.
  destruct Hsd as [Hobj _ _ Hdoc (r' & off' & u' & Hres' & Hwr' & Hu & Hev)].
  rewrite Hres in Hres'. injection Hres' as <- <-. rewrite Hwr in Hwr'. injection Hwr' as -> <-.
  apply (inj Some), identified_inj in Hdoc as <-.
  assert (Hrc : stored_receipt k a v w be r off (generation (memory W)) u' (reserve (service W)) =
    stored_receipt k a v w be r off (generation (memory W)) u' (service W)).
  { unfold stored_receipt. cbn in Hobj. by rewrite Hobj. }
  rewrite Hrc in *. split_and!; try done; [by rewrite Hev|].
  eapply service_write_replay; [done| |cbn; by rewrite Hl1, od_get_set_eq|done].
  eapply validate_again; [apply Hm|done|done].
Qed.

(** C7.  A transaction takes effect once.  In every reachable state: no key
    appears twice among the logged reads and writes; the logged keys are exactly
    the completed ones, and the log says what the receipt of the key says; and a
    call with a key the ledger knows changes nothing and returns, if anything, the
    frozen receipt of the same payload. *)
Theorem transaction_takes_effect_once W0 cs :
  started W0 → Forall call_typed cs →
  let W := serve_all W0 cs in
  let en := _entries (ledger W) in
  NoDup (transactions (events (service W))) ∧
  (∀ k, k ∈ transactions (events (service W)) ↔ ∃ e, od_get en k = Some e ∧ status e = complete) ∧
  (∀ e k, e ∈ events (service W) → transaction_of e = Some k →
     ∃ d t, od_get en k = Some (mkEntry d complete (Some t)) ∧ recorded_as e t) ∧
  (∀ k a v w be, od_get en k ≠ None →
     (service_write k a v w be W).2 = W ∧ (service_read k a w W).2 = W ∧
     frozen_receipt k (write_payload a v w be) W (service_write k a v w be W).1 ∧
     frozen_receipt k (read_payload a w) W (service_read k a w W).1).
Proof.
  intros H0 Hcs W en. destruct (started_ok W0 cs H0 Hcs) as [_ _ [Ho Hr Hl]]. split_and!; [done| |done|].
  - intros k. split; [|intros (e & ? & ?); by eapply Hl].
    intros (e & He & Hk)%transactions_elem. destruct (Hr _ _ He Hk) as (d & t & Hg & _). eauto.
  - intros k a v w be Hk.
    pose proof (service_write_cases k a v w be W) as Hw. destruct (service_write k a v w be W) as [x W1].
    pose proof (service_read_cases k a w W) as Hrd. destruct (service_read k a w W) as [y W2]. cbn.
    destruct Hw as [[-> Hw]|(_ & _ & _ & [? _] & _)]; [|done].
    destruct Hrd as [[-> Hrd]|(_ & [? _] & _)]; [|done]. done.
Qed.

Lemma lookup_pending_ok W id c :
  commit_ok (ledger W) (service W) id c → od_get (_pending_commits (service W)) id = Some c →
  lookup_pending_commit id W = Ok (c.1.1, c.2).
Proof.
  destruct c as [[r d] ev]. intros [Hd Hc _ _] Hg. cbn in *. unfold lookup_pending_commit.
  by rewrite Hg, Hc, Hd, bool_decide_true.
Qed.

(** The pending events, oldest first. *)
Definition pending_events (W : World) : list json := (λ row, row.2.2) <$> _pending_commits (service W).

Lemma drained_rows W rows :
  service_ok W → rows ⊆ _pending_commits (service W) →
  fold_result (λ drained id, re ← lookup_pending_commit id W; mret (drained ++ [re.2])) [] rows.*1 =
    Ok ((λ row, row.2.2) <$> rows).
Proof.
  intros Hok Hrows. pose proof (sv_stream _ Hok) as Hs.
  rewrite fold_result_collect with (g := λ id, default JNull (snd <$> od_get (_pending_commits (service W)) id)).
  - cbn. f_equal. rewrite <- list_fmap_compose. apply list_fmap_ext.
    intros i [id c] Hi%list_elem_of_lookup_2%Hrows. cbn.
    by rewrite (od_elem_get _ id c) by (done || apply Hs).
  - intros acc id ([id' c] & -> & Hin%Hrows)%list_elem_of_fmap. cbn.
    assert (Hg : od_get (_pending_commits (service W)) id' = Some c) by (apply od_elem_get; [apply Hs|done]).
    rewrite (lookup_pending_ok W id' c), Hg by (done || by apply Hs). done.
Qed.

(** C8.  The stream of commits is sound.  In every reachable state: no place stays
    reserved and the stream never exceeds its capacity; every pending commit can
    be looked up by its identifier and through its receipt, giving its event, which
    holds the frozen document of that receipt and a number already issued; and a
    drain returns the events of the oldest commits, in order, without raising. *)
Theorem commit_stream_sound W0 cs :
  started W0 → Forall call_typed cs →
  let W := serve_all W0 cs in
  _commit_reserved (service W) = 0 ∧
  match _commit_stream_capacity (service W) with
  | Some c => pending_commit_count (service W) ≤ c
  | None => pending_commit_count (service W) = 0
  end ∧
  (∀ id r d ev, od_get (_pending_commits (service W)) id = Some (r, d, ev) →
     lookup_pending_commit id W = Ok (r, ev) ∧ lookup_issued_write_commit r W = Ok ev ∧
     _commit_json r = Some d ∧
     ∃ n, 1 ≤ n ≤ _service_commit_sequence (service W) ∧ ev = commit_event n (receipt_key r) id d) ∧
  drain_commit_events None W = Ok (pending_events W) ∧
  (∀ n, 1 ≤ n → drain_commit_events (Some n) W = Ok (take (Z.to_nat n) (pending_events W))).
Proof.
  intros H0 Hcs W. pose proof (started_ok W0 cs H0 Hcs) as Hok. fold W in Hok.
  pose proof (sv_stream _ Hok) as Hs. split_and!.
  - apply Hs.
  - pose proof (so_capacity _ _ Hs) as Hc. destruct (_commit_stream_capacity _); [done|].
    unfold pending_commit_count. by rewrite Hc.
  - intros id r d ev Hg. pose proof (so_pending _ _ Hs _ _ Hg) as Hc.
    pose proof (lookup_pending_ok W id _ Hc Hg) as Hl. cbn in Hl. split_and!.
    + done.
    + unfold lookup_issued_write_commit. rewrite (co_issued _ _ _ _ Hc : _ !! receipt_object r = _), Hl.
      cbn. by rewrite Z.eqb_refl.
    + apply Hc.
    + apply Hc.
  - unfold drain_commit_events. cbn. apply drained_rows; done.
  - intros n Hn. unfold drain_commit_events. rewrite (proj2 (Z.ltb_ge n 1)) by lia. cbn.
    unfold od_keys. rewrite <- fmap_take, drained_rows; [by unfold pending_events; rewrite fmap_take|done|apply subseteq_take].
Qed.

(** Receipts that have left the stream. *)
Definition gone (o : Z) (s : MemoryService) : Prop := o < created_objects s ∧ _issued_receipt_ids s !! o = None.

Lemma gone_release o id s : gone o s → gone o (release id s).
Proof.
  intros [Ho Hi]. unfold release. destruct (od_get _ id) as [[[r d] ev]|]; [|done]. split; cbn; [done|].
  rewrite lookup_delete. by case_decide.
Qed.

Lemma gone_committed o rc fields ev s :
  receipt_object rc = created_objects s → gone o s → gone o (committed rc fields ev s).
Proof.
  intros Hrc [Ho Hi]. unfold committed. destruct (commit_stream_enabled s); split; cbn; try lia; [|done].
  rewrite lookup_insert_ne; [done|]. cbn. lia.
Qed.

Lemma gone_serve o W c : gone o (service W) → gone o (service (serve W c)).
Proof.
  intros Hg. destruct c as [k a w|k a v w be|a d e|ids|op]; cbn; [..|done].
  - pose proof (service_read_cases k a w W) as Hc. destruct (service_read k a w W) as [r W'].
    destruct Hc as [[-> _]|(_ & _ & [])]; done.
  - pose proof (service_write_cases k a v w be W) as Hc. destruct (service_write k a v w be W) as [r W'].
    destruct Hc as [[-> _]|(_ & _ & _ & _ & Hw)]; [done|].
    destruct Hw as [rc fields ev d m' l' _ _ Hst _|]; [|done]. cbn. apply gone_committed; [apply Hst|done].
  - unfold service_accept. by destruct (accept_instructions a d e (memory W)) as [[]].
  - unfold ack_commit_events. destruct (negb _); [done|]. cbn.
    generalize dependent (service W). induction ids; cbn; eauto using gone_release.
Qed.

Lemma gone_serve_all o W cs : gone o (service W) → gone o (service (serve_all W cs)).
Proof. revert W. induction cs; cbn; eauto using gone_serve. Qed.

Lemma release_prefix n s :
  NoDup (od_keys (_pending_commits s)) →
  _pending_commits (foldl (λ s id, release id s) s (take n (od_keys (_pending_commits s)))) =
    drop n (_pending_commits s).
Proof.
  revert s. induction n as [|n IH]; intros s Hd; [done|].
  destruct (_pending_commits s) as [|[id [[r d] ev]] rows] eqn:Hp; [done|]. cbn.
  assert (Hr : _pending_commits (release id s) = rows).
  { unfold release. rewrite Hp. cbn. rewrite decide_True by done. cbn. by rewrite decide_True. }
  apply NoDup_cons in Hd as [_ Hd]. rewrite <- Hr in *. by apply IH.
Qed.

Lemma released_gone ids id r d ev l s :
  stream_ok l s → od_get (_pending_commits s) id = Some (r, d, ev) → id ∈ ids →
  gone (receipt_object r) (foldl (λ s id, release id s) s ids).
Proof.
  revert s. induction ids as [|id' ids IH]; intros s Hs Hg Hin; [by apply elem_of_nil in Hin|]. cbn.
  pose proof (so_pending _ _ Hs _ _ Hg) as Hc.
  destruct (decide (id' = id)) as [->|Hne].
  - assert (gone (receipt_object r) (release id s)) as Hgone.
    { split; unfold release; rewrite Hg; cbn.
      - apply (so_issued _ _ Hs _ id), Hc.
      - by rewrite lookup_delete_eq. }
    clear -Hgone. revert Hgone. generalize (release id s). induction ids; cbn; eauto using gone_release.
  - apply IH; [by apply stream_ok_release| |set_solver].
    unfold release. destruct (od_get (_pending_commits s) id') as [[[r' d'] ev']|] eqn:Hg'; [|done].
    cbn. rewrite od_get_del by apply Hs. by rewrite decide_False.
Qed.

Lemma release_all_frame ids s :
  let s' := foldl (λ s id, release id s) s ids in
  events s' = events s ∧ _service_commit_sequence s' = _service_commit_sequence s ∧
  _commit_reserved s' = _commit_reserved s.
Proof.
  revert s. induction ids as [|id ids IH]; intros s; cbn; [done|].
  destruct (IH (release id s)) as (-> & -> & ->).
  unfold release. by destruct (od_get _ id) as [[[? ?] ?]|].
Qed.

(**  An acknowledged commit never comes back.  In every reachable state,
    [ack_commit_events] of identifiers that are not the exact prefix of the stream
    raises and changes nothing; of the oldest [n] it drops exactly these, and
    leaves memory, ledger, event list and numbering alone; and whatever calls
    follow, the receipt of a dropped commit is refused as acknowledged. *)
Lemma acknowledged_commit_is_gone W0 cs :
  started W0 → Forall call_typed cs →
  let W := serve_all W0 cs in
  let keys := od_keys (_pending_commits (service W)) in
  (∀ ids, ids ≠ take (length ids) keys →
     ack_commit_events ids W = (Err (ValueError "ack must name the exact pending commit prefix"), W)) ∧
  (∀ n, ∃ W', ack_commit_events (take n keys) W = (Ok (), W') ∧
     _pending_commits (service W') = drop n (_pending_commits (service W)) ∧
     memory W' = memory W ∧ ledger W' = ledger W ∧ events (service W') = events (service W) ∧
     _service_commit_sequence (service W') = _service_commit_sequence (service W) ∧
     ∀ id r d ev cs', id ∈ take n keys → od_get (_pending_commits (service W)) id = Some (r, d, ev) →
       lookup_issued_write_commit r (serve_all W' cs') =
         Err (ValueError "receipt was not issued or has been acknowledged")).
Proof.
  intros H0 Hcs W keys. pose proof (sv_stream _ (started_ok W0 cs H0 Hcs)) as Hs. fold W in Hs.
  split.
  - intros ids Hids. unfold ack_commit_events. by rewrite bool_decide_false.
  - intros n. unfold ack_commit_events. rewrite bool_decide_true.
    2: { rewrite length_take. destruct (Nat.min_spec n (length keys)) as [[_ ->]|[? ->]]; [done|].
       by rewrite firstn_all, take_ge. }
    eexists. split; [done|]. cbn [negb set_service service memory ledger].
    destruct (release_all_frame (take n keys) (service W)) as (He & Hq & _).
    split_and!; [apply release_prefix, Hs|done|done|done|done|].
    intros id r d ev cs' Hin Hg.
    unfold lookup_issued_write_commit.
    destruct (gone_serve_all (receipt_object r)
      (set_service (foldl (λ s id, release id s) (service W) (take n keys)) W) cs') as [_ Hi].
    { by eapply released_gone. }
    by rewrite Hi.
Qed.
End properties.

(** *** The hypotheses are satisfiable *)

Module Example_service.
#[local] Existing Instance checksum_hashlib.

Definition key_text : KeyText.
Proof. by refine {| str_key k := "k" +:+ pretty (encode k) |}. Defined.
#[local] Existing Instance key_text.

Definition regions : list MemoryRegion := [mkRegion "ram" 0x1000 64 [] true true].
Definition key (n : Z) : TransactionKey := mkKey "e" "t" "cpu" 0 "bus" n.

Definition start : World :=
  match new_memory regions 7 32 None, new_service true (Some 2) with
  | Ok m, Ok s => mkWorld m new_ledger s
  | _, _ => mkWorld (mkMemory [] [] 0 None 0 0 0 ∅ ∅ ∅ ∅) new_ledger (mkService true [] None [] ∅ 0 0 0)
  end.
Definition calls : list service_call :=
  [CallWrite (key 1) 0x1000 0x11223344 4 5; CallRead (key 2) 0x1000 4; CallWrite (key 2) 0x1000 0 4 15;
   CallAck []; CallMemory AdvanceStep].

Lemma start_started : started start.
Proof.
  eexists regions, 7, 32, None, _, true, (Some 2), _.
  split; [apply (bool_decide_unpack _); vm_compute; exact I|].
  split; [vm_compute; reflexivity|]. split; [reflexivity|]. vm_compute. reflexivity.
Defined.

Lemma calls_typed : Forall call_typed calls.
Proof. repeat constructor. Defined.

Lemma fit : counters_fit (memory (serve_all start calls)).
Proof.
  split; [vm_compute; reflexivity|]. intros id. unfold seq_of.
  assert (Hm : map_Forall (λ _ n, n + 1 < 2 ^ 64) (_commit_sequences (memory (serve_all start calls))))
    by (apply (bool_decide_unpack _); vm_compute; exact I).
  destruct (_ !! id) as [n|] eqn:Hn; [by apply (Hm id n)|done].
Defined.

Lemma fresh_write_commits_witness :
  let W := serve_all start calls in
  ∃ r off u W',
    let g := generation (memory W) in
    let rc := stored_receipt (key 3) 0x1004 0xaabb 2 3 r off g u (service W) in
    _resolve 0x1004 2 true (memory W) = Ok (r, off) ∧
    write 0x1004 0xaabb 2 3 (str_key (key 3)) (memory W) = (Ok u, memory W') ∧
    service_write (key 3) 0x1004 0xaabb 2 3 W = (Ok (Some (Written rc)), W') ∧
    service W' = committed rc (written_fields (key 3) 0x1004 0xaabb 2 3 r off g u)
                   (store_event (key 3) 0x1004 0xaabb 2 3 r off g u) (service W) ∧
    service_write (key 3) 0x1004 0xaabb 2 3 W' = (Ok (Some (Written rc)), W').
Proof.
  apply (fresh_write_commits start calls (key 3) 0x1004 0xaabb 2 3 start_started calls_typed fit).
  - vm_compute. reflexivity.
  - vm_compute. reflexivity.
  - vm_compute. reflexivity.
  - apply (bool_decide_unpack _). vm_compute. exact I.
Defined.

Lemma transaction_takes_effect_once_witness :
  let W := serve_all start calls in
  let en := _entries (ledger W) in
  NoDup (transactions (events (service W))) ∧
  (∀ k, k ∈ transactions (events (service W)) ↔ ∃ e, od_get en k = Some e ∧ status e = complete) ∧
  (∀ e k, e ∈ events (service W) → transaction_of e = Some k →
     ∃ d t, od_get en k = Some (mkEntry d complete (Some t)) ∧ recorded_as e t) ∧
  (∀ k a v w be, od_get en k ≠ None →
     (service_write k a v w be W).2 = W ∧ (service_read k a w W).2 = W ∧
     frozen_receipt k (write_payload a v w be) W (service_write k a v w be W).1 ∧
     frozen_receipt k (read_payload a w) W (service_read k a w W).1).
Proof. apply (transaction_takes_effect_once start calls start_started calls_typed). Defined.

Lemma commit_stream_sound_witness :
  let W := serve_all start calls in
  _commit_reserved (service W) = 0 ∧
  match _commit_stream_capacity (service W) with
  | Some c => pending_commit_count (service W) ≤ c
  | None => pending_commit_count (service W) = 0
  end ∧
  (∀ id r d ev, od_get (_pending_commits (service W)) id = Some (r, d, ev) →
     lookup_pending_commit id W = Ok (r, ev) ∧ lookup_issued_write_commit r W = Ok ev ∧
     _commit_json r = Some d ∧
     ∃ n, 1 ≤ n ≤ _service_commit_sequence (service W) ∧ ev = commit_event n (receipt_key r) id d) ∧
  drain_commit_events None W = Ok (pending_events W) ∧
  (∀ n, 1 ≤ n → drain_commit_events (Some n) W = Ok (take (Z.to_nat n) (pending_events W))).
Proof. apply (commit_stream_sound start calls start_started calls_typed). Defined.

Lemma acknowledged_commit_is_gone_witness :
  let W := serve_all start calls in
  let keys := od_keys (_pending_commits (service W)) in
  (∀ ids, ids ≠ take (length ids) keys →
     ack_commit_events ids W = (Err (ValueError "ack must name the exact pending commit prefix"), W)) ∧
  (∀ n, ∃ W', ack_commit_events (take n keys) W = (Ok (), W') ∧
     _pending_commits (service W') = drop n (_pending_commits (service W)) ∧
     memory W' = memory W ∧ ledger W' = ledger W ∧ events (service W') = events (service W) ∧
     _service_commit_sequence (service W') = _service_commit_sequence (service W) ∧
     ∀ id r d ev cs', id ∈ take n keys → od_get (_pending_commits (service W)) id = Some (r, d, ev) →
       lookup_issued_write_commit r (serve_all W' cs') =
         Err (ValueError "receipt was not issued or has been acknowledged")).
Proof. apply (acknowledged_commit_is_gone start calls start_started calls_typed). Defined.

(** The stream holds one commit here. *)
Example one_pending : length (pending_events (serve_all start calls)) = 1%nat.
Proof. vm_compute. reflexivity. Qed.
End Example_service.
