(* ===== verification/StateDependency.v ===== *)
(** * Dependencies between transactions through memory bytes

    Models [src/src/myfuzz/scenario/state_dependency.py]: [StateEdge] and
    [StateDependencyTracker], fed with the events of the memory service; and how
    [src/src/myfuzz/scenario/runner.py] drives the tracker: the collection of the
    events after a step, and [reset_all], of which only what concerns the memory
    and the tracker is here.

    [_current] is iterated, so it is an ordered dictionary; [_readers] is not. *)

From S2P Require Import Prelude Json Isa Genome Rv32iSources Memory Ledger MemoryService.

Local Open Scope Z_scope.

Inductive EdgeKind := WAW | WAR | RAW | PERSIST | INVALIDATE.

Record StateEdge := mkStateEdge {
  edge_kind : EdgeKind;
  edge_source : string;
  edge_target : string;
  edge_memory_id : string;
  edge_generation : Z;
  edge_byte_offset : Z;
  edge_version : option Version }.

(** (memory_id, generation, byte_offset) *)
Definition ByteKey : Type := string * Z * Z.

Record StateDependencyTracker := mkTracker {
  edges : list StateEdge;
  _current : list (ByteKey * (string * Version));
  _readers : gmap ByteKey (list string);
  _seen : gset (string * string) }.

(** [StateDependencyTracker.__init__] *)
Definition new_tracker : StateDependencyTracker := mkTracker [] [] ∅ ∅.

(** Assignments. *)
Definition add_edge (e : StateEdge) (t : StateDependencyTracker) : StateDependencyTracker :=
  mkTracker (edges t ++ [e]) (_current t) (_readers t) (_seen t).
Definition set_current (key : ByteKey) (v : string * Version) (t : StateDependencyTracker)
    : StateDependencyTracker :=
  mkTracker (edges t) (od_set (_current t) key v) (_readers t) (_seen t).
Definition set_readers (key : ByteKey) (l : list string) (t : StateDependencyTracker) : StateDependencyTracker :=
  mkTracker (edges t) (_current t) (<[key := l]> (_readers t)) (_seen t).
Definition see (x : string * string) (t : StateDependencyTracker) : StateDependencyTracker :=
  mkTracker (edges t) (_current t) (_readers t) ({[x]} ∪ _seen t).
Definition forget (key : ByteKey) (t : StateDependencyTracker) : StateDependencyTracker :=
  mkTracker (edges t) (od_del (_current t) key) (delete key (_readers t)) (_seen t).

Definition readers_of (key : ByteKey) (t : StateDependencyTracker) : list string :=
  default [] (_readers t !! key).

(** The two kinds of edge a writer closes, and its own entry.  [waw] says whether
    the previous writer counts as overwritten. *)
Definition overwrite (key : ByteKey) (identity : string) (version : Version) (waw : bool)
    (previous : option (string * Version)) (t : StateDependencyTracker) : StateDependencyTracker :=
  let edge k source v := mkStateEdge k source identity key.1.1 key.1.2 key.2 v in
  let t := match previous with
           | Some p => if waw then add_edge (edge WAW p.1 (Some p.2)) t else t
           | None => t
           end in
  let t := foldl (λ t reader, add_edge (edge WAR reader (snd <$> previous)) t) t (readers_of key t) in
  set_readers key [] (set_current key (identity, version) t).

(** One enabled lane of a write. *)
Definition write_lane (identity : string) (version : Version) (key : ByteKey) (t : StateDependencyTracker)
    : StateDependencyTracker :=
  let previous := od_get (_current t) key in
  let waw := match previous with Some p => negb (bool_decide (p.1 = identity)) | None => false end in
  overwrite key identity version waw previous t.

(** One lane of a read. *)
Definition read_lane (identity : string) (key : ByteKey) (writer : string) (version : Version)
    : M StateDependencyTracker () :=
  observed ← gets (λ t, od_get (_current t) key);
  check (match observed with Some o => negb (bool_decide (o = (writer, version))) | None => false end)
    (ValueError "read snapshot conflicts with committed state history") ;;
  let edge k := mkStateEdge k writer identity key.1.1 key.1.2 key.2 (Some version) in
  modify (set_current key (writer, version)) ;;
  modify (add_edge (edge RAW)) ;;
  modify (add_edge (edge PERSIST)) ;;
  modify (λ t, set_readers key (readers_of key t ++ [identity]) t).

(** [enumerate(...)] *)
Definition enumerate {A} (l : list A) : list (Z * A) := imap (λ i x, (Z.of_nat i, x)) l.

Section ingest.
Context `{Hashlib} `{KeyText}.

(** [_transaction] *)
Definition _transaction (k : TransactionKey) : result string :=
  key ← TransactionKey_post_init k; mret (str_key key).

(** The first part of the loop of [ingest]: [None] when the event was seen. *)
Definition unseen (kind : string) (k : TransactionKey) : M StateDependencyTracker (option string) :=
  identity ← reads (λ _, _transaction k);
  known ← gets (λ t, bool_decide ((kind, identity) ∈ _seen t));
  if known : bool then mret None
  else modify (see (kind, identity)) ;; mret (Some identity).

Definition ingest_event (event : ServiceEvent) : M StateDependencyTracker () :=
  match event with
  | memory_write k _ width id generation base _ byte_enable version =>
      identity ← unseen "memory_write" k;
      match identity, version with
      | Some writer, Some version =>
          for_eachM (λ lane, modify (write_lane writer version (id, generation, base + lane)))
            (enabled_lanes width byte_enable)
      | _, _ => mret ()
      end
  | memory_read k _ _ id generation base _ _ versions writers _ =>
      identity ← unseen "memory_read" k;
      match identity with
      | Some reader =>
          for_eachM (λ '(lane, (writer, version)), read_lane reader (id, generation, base + lane) writer version)
            (enumerate (zip writers versions))
      | None => mret ()
      end
  | _ => mret ()
  end.

(** [ingest] *)
Definition ingest (events : list ServiceEvent) : M StateDependencyTracker () := for_eachM ingest_event events.
End ingest.

(** [invalidate_generation] *)
Definition invalidate_entry (memory_id : string) (generation : Z) (reset_identity : string)
    (s : list StateEdge * StateDependencyTracker) (entry : ByteKey * (string * Version))
    : list StateEdge * StateDependencyTracker :=
  let '(created, t) := s in
  let '(key, (writer, version)) := entry in
  if bool_decide (key.1 = (memory_id, generation)) then
    let edge := mkStateEdge INVALIDATE writer reset_identity memory_id generation key.2 (Some version) in
    (created ++ [edge], forget key (add_edge edge t))
  else (created, t).

Definition invalidate_generation (memory_id : string) (generation : Z) (reset_identity : string)
    (t : StateDependencyTracker) : list StateEdge * StateDependencyTracker :=
  foldl (invalidate_entry memory_id generation reset_identity) ([], t) (_current t).

(** [install_image] *)
Definition install_byte (memory_id : string) (version : Version) (identity : string)
    (t : StateDependencyTracker) (offset : Z) : StateDependencyTracker :=
  let key := (memory_id, version.1, offset) in
  match od_get (_current t) key with
  | None => t
  | Some previous => overwrite key identity version true (Some previous) t
  end.

Definition install_image (memory_id : string) (byte_offset size : Z) (version : Version) (identity : string)
    (t : StateDependencyTracker) : list StateEdge * StateDependencyTracker :=
  let t' := foldl (install_byte memory_id version identity) t (seqZ byte_offset size) in
  (drop (length (edges t)) (edges t'), t').

(** ** In the runner *)

(** The memory service, the tracker, and the number of service events the runner
    has handed to the tracker ([_external_offsets]). *)
Record System := mkSystem {
  world : World;
  tracker : StateDependencyTracker;
  collected : nat }.

Section runner.
Context `{Hashlib} `{KeyText}.

(** The end of a step: every new event is handed to the tracker, one by one. *)
Definition collect_event (e : ServiceEvent) : M System () := λ s,
  let '(r, t) := ingest [e] (tracker s) in (r, mkSystem (world s) t (S (collected s))).

Definition collect_new : M System () := λ s,
  for_eachM collect_event (drop (collected s) (events (service (world s)))) s.

(** [reset_all]: the memories' resets, the tracker's invalidations, the image. *)
Definition invalidate_all (ids : list string) (generation : Z) (reset_identity : string)
    (t : StateDependencyTracker) : StateDependencyTracker :=
  foldl (λ t id, (invalidate_generation id generation reset_identity t).2) t ids.

Definition set_memory (m : PersistentMemory) (w : World) : World := mkWorld m (ledger w) (service w).

Definition reset_memory (cold : bool) (reset_identity : string) (s : System) : System :=
  let m := memory (world s) in
  if cold then
    mkSystem (set_memory (cold_reset m) (world s))
      (invalidate_all (memory_ids m) (generation m) reset_identity (tracker s)) (collected s)
  else mkSystem (set_memory (warm_reset m) (world s)) (tracker s) (collected s).

Definition install (address : Z) (data : list Z) (identity : string) : M System () := λ s,
  match reinstall_image address data identity (memory (world s)) with
  | (Err e, m) => (Err e, mkSystem (set_memory m (world s)) (tracker s) (collected s))
  | (Ok (id, offset, version), m) =>
      (Ok (), mkSystem (set_memory m (world s))
         (install_image id offset (count data) version identity (tracker s)).2 (collected s))
  end.

Definition reset_all (cold : bool) (reset_identity : string) (image : option (Z * list Z * string))
    : M System () :=
  modify (reset_memory cold reset_identity) ;;
  match image with
  | None => mret ()
  | Some (address, data, identity) => install address data identity
  end.
End runner.
