(* ===== verification/StateDependencySpec.v ===== *)
(** * The tracker follows the memory

    Through any sequence of steps and resets the tracker never finds a read that
    conflicts with its history, and what it holds of a byte is what the memory
    holds: the writer and the version. *)

From S2P Require Import Prelude Json Isa Genome Rv32iSources Memory MemorySpec Ledger.
From S2P Require Import MemoryService MemoryServiceSpec StateDependency.

Local Open Scope Z_scope.

(** ** The tracker's view of one byte *)

Lemma current_overwrite key identity version waw previous t key' :
  od_get (_current (overwrite key identity version waw previous t)) key' =
    if decide (key = key') then Some (identity, version) else od_get (_current t) key'.
Proof.
  unfold overwrite. cbn -[readers_of]. rewrite od_get_set. case_decide; [done|].
  set (t0 := match previous with Some p => _ | None => t end).
  assert (Ht0 : _current t0 = _current t) by (subst t0; destruct previous; [by destruct waw|done]).
  rewrite <- Ht0. generalize (readers_of key t0). generalize t0. clear.
  intros t0 l. revert t0. induction l as [|x l IH]; intros t0; cbn; [done|]. by rewrite IH.
Qed.

Lemma seen_overwrite key identity version waw previous t :
  _seen (overwrite key identity version waw previous t) = _seen t.
Proof.
  unfold overwrite. cbn -[readers_of].
  set (t0 := match previous with Some p => _ | None => t end).
  assert (Ht0 : _seen t0 = _seen t) by (subst t0; destruct previous; [by destruct waw|done]).
  rewrite <- Ht0. generalize (readers_of key t0). generalize t0. clear.
  intros t0 l. revert t0. induction l as [|x l IH]; intros t0; cbn; [done|]. by rewrite IH.
Qed.

Lemma current_NoDup_overwrite key identity version waw previous t :
  NoDup (od_keys (_current t)) → NoDup (od_keys (_current (overwrite key identity version waw previous t))).
Proof.
  intros Hd. unfold overwrite. cbn -[readers_of]. apply od_set_NoDup.
  set (t0 := match previous with Some p => _ | None => t end).
  assert (Ht0 : _current t0 = _current t) by (subst t0; destruct previous; [by destruct waw|done]).
  rewrite <- Ht0 in Hd. revert Hd. generalize (readers_of key t0). generalize t0. clear.
  intros t0 l. revert t0. induction l as [|x l IH]; intros t0; cbn; [done|]. intros Hd. by apply IH.
Qed.

(** What the tracker says of the bytes is what the memory says. *)
Definition agrees (m : PersistentMemory) (t : StateDependencyTracker) : Prop :=
  ∀ (key : ByteKey) wv, od_get (_current t) key = Some wv →
    key.1.2 = generation m ∧
    ∃ c, _bytes m !! ((key.1.1, key.2) : Key) = Some c ∧ wv = (writer_event_id c, version c).

Record tracker_ok (m : PersistentMemory) (t : StateDependencyTracker) : Prop := {
  tk_agrees : agrees m t;
  tk_keys : NoDup (od_keys (_current t)) }.

Section lanes.
Implicit Types (t : StateDependencyTracker) (key : ByteKey).

Lemma write_lanes who ver keys t :
  NoDup (od_keys (_current t)) →
  let t' := foldl (λ t key, write_lane who ver key t) t keys in
  (∀ key, od_get (_current t') key =
     if decide (key ∈ keys) then Some (who, ver) else od_get (_current t) key) ∧
  NoDup (od_keys (_current t')) ∧ _seen t' = _seen t.
Proof.
  revert t. induction keys as [|k keys IH]; intros t Hd; cbn.
  { split_and!; [|done|done]. intros key. by rewrite decide_False by apply not_elem_of_nil. }
  destruct (IH (write_lane who ver k t)) as (Hg & Hd' & Hs); [by apply current_NoDup_overwrite|].
  split_and!; [|done|by rewrite Hs; apply seen_overwrite].
  intros key. rewrite Hg. unfold write_lane at 1. rewrite current_overwrite.
  destruct (decide (key ∈ keys)) as [Hin|Hin]; [by rewrite decide_True by (by right)|].
  destruct (decide (k = key)) as [->|Hne]; [by rewrite decide_True by left|].
  rewrite decide_False; [done|]. by intros [->|]%elem_of_cons.
Qed.

(** A lane of a read that tells what the memory holds. *)
Lemma read_lane_ok who m key c t :
  tracker_ok m t → key.1.2 = generation m → _bytes m !! ((key.1.1, key.2) : Key) = Some c →
  ∃ t', read_lane who key (writer_event_id c) (version c) t = (Ok (), t') ∧ tracker_ok m t' ∧
    _seen t' = _seen t.
Proof.
  intros [Ha Hd] Hg Hc. unfold read_lane. unfold_M.
  assert (Hcheck : match od_get (_current t) key with
    | Some o => negb (bool_decide (o = (writer_event_id c, version c))) | None => false end = false).
  { destruct (od_get (_current t) key) as [wv|] eqn:Hk; [|done].
    destruct (Ha _ _ Hk) as (_ & c' & Hc' & ->). assert (c' = c) as -> by congruence.
    by rewrite bool_decide_true. }
  rewrite Hcheck. cbn -[readers_of]. eexists. split; [done|]. split; [|done].
  split; cbn -[readers_of]; [|by apply od_set_NoDup].
  intros key' wv. cbn -[readers_of]. rewrite od_get_set. case_decide as Hk; [|apply Ha].
  intros [= <-]. subst key'. by eauto.
Qed.

(** The lanes of a snapshot, one after the other. *)
Lemma read_lanes_ok who m id off (rows : list (Z * (string * Version))) t :
  tracker_ok m t →
  (∀ i w v, (i, (w, v)) ∈ rows → ∃ c, _bytes m !! ((id, off + i) : Key) = Some c ∧
     w = writer_event_id c ∧ v = version c) →
  ∃ t', for_eachM (λ '(i, (w, v)), read_lane who (id, generation m, off + i) w v) rows t = (Ok (), t') ∧
    tracker_ok m t' ∧ _seen t' = _seen t.
Proof.
  intros Ht. revert t Ht. induction rows as [|[i [w v]] rows IH]; intros t Ht Hrows; [by exists t|].
  destruct (Hrows i w v) as (c & Hc & -> & ->); [left|].
  destruct (read_lane_ok who m (id, generation m, off + i) c t Ht eq_refl Hc) as (t1 & Hr & Ht1 & Hs1).
  destruct (IH t1 Ht1) as (t' & Hf & Ht' & Hs'); [by intros; apply Hrows; right|].
  exists t'. cbn -[read_lane]. unfold mbind at 1, M_bind at 1. rewrite Hr, Hf. split_and!; [done|done|congruence].
Qed.
End lanes.

(** ** One call of the service *)

Section calls.
Context {hashlib : Hashlib} {keytext : KeyText}.

(** The calls of a step: their keys are [TransactionKey] objects, and what else
    happens to the memory overwrites nothing. *)
Definition observed_call (c : service_call) : Prop :=
  call_typed c ∧
  match c with
  | CallRead k _ _ | CallWrite k _ _ _ _ => TransactionKey_post_init k = Ok k
  | CallMemory o => replaces o = false
  | _ => True
  end.

(** The transactions the tracker has seen are logged. *)
Definition seen_logged (evs : list ServiceEvent) (t : StateDependencyTracker) : Prop :=
  ∀ kd i, (kd, i) ∈ _seen t → ∃ k, i = str_key k ∧ k ∈ transactions evs.

Record tracked (W : World) (t : StateDependencyTracker) : Prop := {
  td_service : service_ok W;
  td_tracker : tracker_ok (memory W) t;
  td_seen : seen_logged (events (service W)) t }.

Lemma unseen_new kd k evs t :
  TransactionKey_post_init k = Ok k → seen_logged evs t → k ∉ transactions evs →
  unseen kd k t = (Ok (Some (str_key k)), see (kd, str_key k) t).
Proof.
  intros Hk Hs Hn. unfold unseen, _transaction. unfold_M. rewrite Hk. cbn.
  rewrite bool_decide_false; [done|]. intros (k' & Heq%(inj str_key) & Hin)%Hs. by subst.
Qed.

Lemma agrees_keeps m m' t :
  generation m' = generation m → (∀ k c, _bytes m !! k = Some c → _bytes m' !! k = Some c) →
  tracker_ok m t → tracker_ok m' t.
Proof.
  intros Hg Hk [Ha Hd]. split; [|done]. intros key wv Hwv.
  destruct (Ha _ _ Hwv) as (Hgen & c & Hc & ->). split; [by rewrite Hg|]. exists c. eauto.
Qed.

Lemma tracker_ok_see m t x : tracker_ok m t → tracker_ok m (see x t).
Proof. by intros [? ?]. Qed.

Lemma seen_logged_see evs t e k kd :
  seen_logged evs t → transaction_of e = Some k → seen_logged (evs ++ [e]) (see (kd, str_key k) t).
Proof.
  intros Hs He kd' i. cbn. intros [[= -> ->]%elem_of_singleton|Hin]%elem_of_union.
  - exists k. split; [done|]. apply transactions_elem. exists e. split; [|done]. set_solver.
  - destruct (Hs _ _ Hin) as (k' & -> & Hk'). exists k'. split; [done|].
    apply transactions_elem in Hk' as (e' & He' & Hk'). apply transactions_elem. exists e'. set_solver.
Qed.

Lemma snapshot_rows a w tx m s m' i wr v :
  read a w tx m = (Ok s, m') → (i, (wr, v)) ∈ enumerate (zip (writer_event_ids s) (versions s)) →
  ∃ c, _bytes m' !! ((snapshot_memory_id s, byte_offset s + i) : Key) = Some c ∧
    wr = writer_event_id c ∧ v = version c.
Proof.
  intros Hr Hin. destruct (read_data _ _ _ _ _ _ Hr) as (r & off & Hres & _ & Hpres & _).
  apply read_Ok in Hr as (r' & off' & Hres' & _ & _ & _ & _ & ->).
  rewrite Hres in Hres'. injection Hres' as <- <-.
  unfold snapshot_of in *. cbn [writer_event_ids versions snapshot_memory_id byte_offset] in *.
  unfold enumerate in Hin. apply elem_of_lookup_imap in Hin as (j & [w0 v0] & [= -> -> ->] & Hj).
  apply lookup_zip_with_Some in Hj as (w1 & v1 & [= <- <-] & Hw & Hv).
  rewrite !list_lookup_fmap in Hw. rewrite !list_lookup_fmap in Hv.
  destruct (keys_at (memory_id r) off w !! j) as [k|] eqn:Hk; [|done]. cbn in Hw, Hv.
  destruct (Hpres k) as [c Hc]; [by eapply list_elem_of_lookup_2|].
  assert (k = (memory_id r, off + Z.of_nat j)) as ->.
  { unfold keys_at in Hk. rewrite list_lookup_fmap in Hk.
    destruct (seqZ 0 w !! j) as [z|] eqn:Hz; [|done]. apply lookup_seqZ in Hz as [-> _].
    injection Hk as <-. f_equal. }
  exists c. split; [done|]. unfold cell_at in *. rewrite Hc in Hw, Hv. cbn in *. split; congruence.
Qed.

Lemma ingest_silent evs t : Forall (λ e, transaction_of e = None) evs → ingest evs t = (Ok (), t).
Proof.
  induction 1 as [|e evs He Hevs IH]; [done|]. cbn. destruct e; try done; cbn; unfold mbind, M_bind; apply IH.
Qed.

Lemma ingest_app evs evs' t t' : ingest evs t = (Ok (), t') → ingest (evs ++ evs') t = ingest evs' t'.
Proof. intros He. unfold ingest in *. rewrite for_eachM_app. unfold mbind, M_bind. by rewrite He. Qed.

(** A fresh read is taken in. *)
Lemma ingest_read k a w kinds m m' snap evs t :
  read a w (str_key k) m = (Ok snap, m') → TransactionKey_post_init k = Ok k →
  tracker_ok m t → seen_logged evs t → k ∉ transactions evs →
  ∃ t', ingest [read_event k a w snap kinds] t = (Ok (), t') ∧ tracker_ok m' t' ∧
    seen_logged (evs ++ [read_event k a w snap kinds]) t'.
Proof.
  intros Hr Hk Ht Hs Hn. destruct (read_data _ _ _ _ _ _ Hr) as (_ & _ & _ & _ & _ & Hkeep & _ & Hg).
  pose proof (agrees_keeps m m' t Hg Hkeep Ht) as Ht'. apply (tracker_ok_see _ _ ("memory_read", str_key k)) in Ht'.
  assert (Hgs : snapshot_generation snap = generation m').
  { rewrite Hg. by apply read_Ok in Hr as (? & ? & _ & _ & _ & _ & _ & ->). }
  destruct (read_lanes_ok (str_key k) m' (snapshot_memory_id snap) (byte_offset snap)
    (enumerate (zip (writer_event_ids snap) (versions snap))) _ Ht') as (t' & Hf & Ht1 & Hst).
  { intros i wr v Hi. by eapply snapshot_rows. }
  exists t'. split_and!; [|done|].
  - unfold ingest, read_event. cbn [for_eachM ingest_event]. unfold mbind, M_bind.
    rewrite (unseen_new _ _ evs) by done. rewrite Hgs, Hf. done.
  - intros kd i. rewrite Hst. by apply (seen_logged_see evs t _ k "memory_read").
Qed.

(** A fresh store is taken in. *)
Lemma ingest_write k a v w be m m' r off u evs t :
  write a v w be (str_key k) m = (Ok u, m') → _resolve a w true m = Ok (r, off) →
  TransactionKey_post_init k = Ok k → tracker_ok m t → seen_logged evs t → k ∉ transactions evs →
  let e := store_event k a v w be r off (generation m) u in
  ∃ t', ingest [e] t = (Ok (), t') ∧ tracker_ok m' t' ∧ seen_logged (evs ++ [e]) t'.
Proof.
  intros Hw Hres Hk Ht Hs Hn e. assert (Hl := λ key, write_lookup _ _ _ _ _ _ _ _ _ _ key Hw Hres).
  assert (Hg : generation m' = generation m).
  { by destruct (write_Ok _ _ _ _ _ _ _ _ Hw) as (? & ? & _ & _ & _ & _ & [(_ & _ & ->)|(_ & _ & ->)]). }
  pose proof (seen_logged_see evs t e k "memory_write" Hs eq_refl) as Hs'.
  set (t1 := see ("memory_write", str_key k) t) in *.
  assert (Hi : ingest [e] t = (Ok (), match u with
    | Some ver => foldl (λ t lane, write_lane (str_key k) ver (memory_id r, generation m, off + lane) t) t1
                    (enabled_lanes w be)
    | None => t1 end)).
  { unfold ingest, e, store_event. cbn [for_eachM ingest_event]. unfold mbind, M_bind.
    rewrite (unseen_new _ _ evs) by done. fold t1. destruct u as [ver|]; [|done].
    by rewrite (for_eachM_modify (λ lane, write_lane (str_key k) ver (memory_id r, generation m, off + lane))). }
  eexists. split; [exact Hi|]. destruct u as [ver|].
  2: { split; [|done]. destruct (write_Ok _ _ _ _ _ _ _ _ Hw) as (? & ? & _ & _ & _ & _ & [(_ & _ & ->)|(_ & Hu & _)]);
         [|done]. by destruct Ht. }
  destruct Ht as [Ha Hd].
  pose proof (write_lanes (str_key k) ver ((λ lane, (memory_id r, generation m, off + lane)) <$> enabled_lanes w be)
    t1 Hd) as Hwl. rewrite foldl_fmap in Hwl. cbn zeta in Hwl. destruct Hwl as (Hcur & Hd' & Hseen).
  split; [split; [|done]|].
  - intros key wv. rewrite Hcur. case_decide as Hin.
    + intros [= <-]. apply list_elem_of_fmap in Hin as (i & -> & Hi'). cbn. split; [done|].
      rewrite Hl, decide_True.
      2: { apply lane_keys_elem. cbn. by replace (off + i - off) with i by lia. }
      by eexists.
    + intros Hwv. destruct (Ha _ _ Hwv) as (Hgen & c & Hc & ->). split; [by rewrite Hg|].
      exists c. split; [|done]. rewrite Hl, decide_False; [done|]. intros [Hid Hin']%lane_keys_elem.
      cbn in *. apply Hin, list_elem_of_fmap. exists (key.2 - off). split; [|done].
      destruct key as [[id g] o]. cbn in *. subst. do 2 f_equal. lia.
  - intros kd i. rewrite Hseen. apply Hs'.
Qed.

(** *** Counters *)

Definition counters_below (n : Z) (m : PersistentMemory) : Prop :=
  generation m ≤ n ∧ ∀ id, seq_of m id ≤ n.

Lemma counters_below_fit n m : counters_below n m → n + 1 < 2 ^ 64 → counters_fit m.
Proof. intros [Hg Hs] Hn. split; [lia|]. intros id. specialize (Hs id). lia. Qed.

Lemma counters_below_mono n n' m : counters_below n m → n ≤ n' → counters_below n' m.
Proof. intros [Hg Hs] Hn. split; [lia|]. intros id. specialize (Hs id). lia. Qed.

Lemma counters_below_bumped n m id : counters_below n m → counters_below (n + 1) (bumped id m).
Proof.
  intros [Hg Hs]. split; [cbn; lia|]. intros id'. rewrite seq_of_bumped. specialize (Hs id').
  case_decide; lia.
Qed.

Lemma counters_below_exec n o m : 0 ≤ n → counters_below n m → counters_below (n + 1) (exec o m).2.
Proof.
  intros Hn Hb. assert (Hm := counters_below_mono n (n + 1) m Hb ltac:(lia)).
  destruct (exec o m) as [[[]|x] m'] eqn:Ho; cbn.
  2: { by rewrite (exec_atomic o m x m' Ho). }
  destruct o; cbn in Ho; try apply outcome_Ok in Ho as [? Ho].
  - by apply preload_Ok in Ho as (? & ? & _ & _ & _ & _ & ->).
  - apply reinstall_Ok in Ho as (? & ? & _ & _ & _ & ->). by apply counters_below_bumped.
  - by apply declare_Ok in Ho as (? & ? & _ & _ & ->).
  - apply accept_Ok in Ho as (? & ? & _ & _ & _ & _ & ->). by apply counters_below_bumped.
  - apply read_Ok in Ho as (? & ? & _ & _ & _ & _ & -> & _). unfold materialize.
    case_bool_decide; [done|]. by apply counters_below_bumped.
  - apply write_Ok in Ho as (? & ? & _ & _ & _ & _ & [(_ & _ & ->)|(_ & _ & ->)]); [done|].
    by apply counters_below_bumped.
  - by injection Ho as <-.
  - by injection Ho as <-.
  - injection Ho as <-. destruct Hb as [Hg _]. split; [cbn; lia|].
    intros id. unfold seq_of; cbn. rewrite seq_zero. lia.
Qed.

(** *** One call, and the events it logs *)

Definition follows (W : World) (t : StateDependencyTracker) (W' : World) : Prop :=
  ∃ evs t', events (service W') = events (service W) ++ evs ∧ ingest evs t = (Ok (), t') ∧ tracked W' t' ∧
    (memory W' = memory W ∨ ∃ o, memory W' = (exec o (memory W)).2).

Lemma follows_nothing W t W' :
  tracked W t → service_ok W' → events (service W') = events (service W) → memory W' = memory W → follows W t W'.
Proof.
  intros [Hok Ht Hs] Hok' He Hm. exists [], t. rewrite app_nil_r, He. split_and!; [done|done| |by left].
  split; [done|by rewrite Hm|by rewrite He].
Qed.

Lemma fresh_unlogged W k : service_ok W → fresh_in (ledger W) k → k ∉ transactions (events (service W)).
Proof.
  intros Hok [Hk _] (e & He & Hke)%transactions_elem.
  destruct (lo_receipt _ _ (sv_log _ Hok) _ _ He Hke) as (d & t & Hg & _). congruence.
Qed.

Lemma serve_write_follows k a v w be W t :
  tracked W t → TransactionKey_post_init k = Ok k → counters_fit (memory W) →
  follows W t (service_write k a v w be W).2.
Proof.
  intros Ht Hk Hc. pose proof Ht as [Hok Htk Hs].
  pose proof (service_write_ok k a v w be W Hok) as Hok'.
  pose proof (service_write_cases k a v w be W) as Hcases.
  destruct (service_write k a v w be W) as [x W']. cbn [snd] in *.
  destruct Hcases as [[-> _]|(_ & Hv & _ & Hf & Hw)]; [by apply follows_nothing|].
  destruct Hw as [rc fields ev d m' l' _ _ Hst _|y d m' l' Hfs].
  2: { destruct (store_and_freeze_Ok k a v w be (memory W) (reserve (service W))
         (mkLocal None (commit_stream_enabled (service W))) (sv_memory _ Hok) Hc Hv) as (? & ? & ? & ? & _ & _ & Heq).
       unfold frozen_store in Hfs. by rewrite Heq in Hfs. }
  destruct (st_event _ _ _ _ _ _ _ _ _ _ _ Hst) as (r & off & u & Hres & Hwr & _ & ->).
  destruct (ingest_write k a v w be _ _ r off u _ t Hwr Hres Hk Htk Hs) as (t' & Hi & Htk' & Hs').
  { by apply fresh_unlogged. }
  eexists _, t'. split; [apply committed_events|]. split; [exact Hi|]. split.
  - split; cbn; [done|done|]. by rewrite committed_events.
  - right. exists (Write a v w be (str_key k)). cbn. by rewrite Hwr.
Qed.

Lemma serve_read_follows k a w W t :
  tracked W t → TransactionKey_post_init k = Ok k → follows W t (service_read k a w W).2.
Proof.
  intros Ht Hk. pose proof Ht as [Hok Htk Hs].
  pose proof (service_read_ok k a w W Hok) as Hok'. pose proof (service_read_cases k a w W) as Hcases.
  destruct (service_read k a w W) as [x W']. cbn [snd] in *.
  destruct Hcases as [[-> _]|(_ & Hf & Hr)]; [by apply follows_nothing|].
  destruct Hr as [snap d m' l' _ Hr _].
  set (inits := initialization_of k snap <$> materialized_offsets snap) in *.
  assert (Hsil : Forall (λ e, transaction_of e = None) inits) by (apply Forall_fmap, Forall_true; done).
  assert (Htr : transactions (events (service W) ++ inits) = transactions (events (service W))).
  { unfold transactions. rewrite omap_app. clear -Hsil. induction Hsil as [|e es He Hs IH]; cbn.
    - by rewrite app_nil_r.
    - by rewrite He. }
  destruct (ingest_read k a w (include_writer_kinds (service W)) _ _ snap (events (service W) ++ inits) t Hr Hk Htk)
    as (t' & Hi & Htk' & Hs').
  { intros kd i Hin. rewrite Htr. by apply (Hs kd). }
  { rewrite Htr. by apply fresh_unlogged. }
  eexists _, t'. split; [done|]. split; [by rewrite (ingest_app _ _ _ t) by by apply ingest_silent|]. split.
  - split; cbn; [done|done|]. by rewrite app_assoc.
  - right. exists (Read a w (str_key k)). cbn. by rewrite Hr.
Qed.

Lemma serve_follows W t c :
  tracked W t → observed_call c → counters_fit (memory W) → follows W t (serve W c).
Proof.
  intros Ht [Hty Hc] Hfit. pose proof Ht as [Hok Htk Hs]. pose proof (serve_ok W c Hty Hok) as Hok'.
  destruct c as [k a w|k a v w be|a d e|ids|o]; cbn in *.
  - by apply serve_read_follows.
  - by apply serve_write_follows.
  - unfold service_accept in *. pose proof (exec_frame (AcceptInstructions a d e) (memory W)) as [_ Hg].
    pose proof (keeps_bytes (AcceptInstructions a d e) (memory W)) as Hk. cbn in Hg, Hk.
    destruct (accept_instructions a d e (memory W)) as [[acc|x] m'] eqn:Ha; cbn in *.
    + exists [instruction_source a d e (generation m')], t. split_and!; [done|done| |].
      * split; cbn; [done| |].
        { apply (agrees_keeps (memory W)); [lia| |done]. intros. by apply Hk. }
        intros kd i Hin. destruct (Hs kd i Hin) as (k & -> & Hk'). exists k. split; [done|].
        unfold transactions. rewrite omap_app, elem_of_app. by left.
      * right. exists (AcceptInstructions a d e). cbn. by rewrite Ha.
    + apply accept_atomic in Ha as ->. destruct W; by apply follows_nothing.
  - unfold ack_commit_events in *. destruct (negb _); [by apply follows_nothing|].
    apply follows_nothing; [done|done| |done]. cbn. by destruct (release_all_frame ids (service W)) as [-> _].
  - pose proof (exec_frame o (memory W)) as [_ Hg]. exists [], t. rewrite app_nil_r.
    split_and!; [done|done| |by right; exists o]. split; cbn; [done| |done].
    apply (agrees_keeps (memory W)); [|intros; by apply keeps_bytes|done].
    rewrite Hg. destruct o; (done || lia).
Qed.

Lemma serve_all_follows n cs W t :
  tracked W t → Forall observed_call cs → 0 ≤ n → counters_below n (memory W) →
  n + count cs < 2 ^ 64 →
  ∃ evs t', events (service (serve_all W cs)) = events (service W) ++ evs ∧ ingest evs t = (Ok (), t') ∧
    tracked (serve_all W cs) t' ∧ counters_below (n + count cs) (memory (serve_all W cs)).
Proof.
  intros Ht Hcs Hn Hb Hlt. revert n W t Ht Hn Hb Hlt. unfold count.
  induction Hcs as [|c cs Hc Hcs IH]; intros n W t Ht Hn Hb Hlt; cbn [serve_all foldl length] in *.
  { exists [], t. rewrite app_nil_r, Z.add_0_r. done. }
  destruct (serve_follows W t c) as (evs & t1 & He & Hi & Ht1 & Hm); [done|done| |].
  { eapply counters_below_fit; [done|]. lia. }
  assert (Hb1 : counters_below (n + 1) (memory (serve W c))).
  { destruct Hm as [->|[o ->]]; [apply (counters_below_mono n); [done|lia]|by apply counters_below_exec]. }
  destruct (IH (n + 1) (serve W c) t1 Ht1 ltac:(lia) Hb1 ltac:(lia)) as (evs' & t' & He' & Hi' & Ht' & Hb').
  exists (evs ++ evs'), t'. unfold serve_all in He'. rewrite He', He, app_assoc.
  split_and!; [done|by rewrite (ingest_app _ _ _ t1)|done|].
  eapply counters_below_mono; [done|]. lia.
Qed.
End calls.

(** ** Resets *)

Section resets.
Implicit Types (t : StateDependencyTracker) (key : ByteKey).

Lemma invalidate_entries id g who rows created t :
  NoDup (od_keys (_current t)) →
  let t' := (foldl (invalidate_entry id g who) (created, t) rows).2 in
  (∀ key, od_get (_current t') key =
     if decide (key.1 = (id, g) ∧ key ∈ rows.*1) then None else od_get (_current t) key) ∧
  NoDup (od_keys (_current t')) ∧ _seen t' = _seen t.
Proof.
  revert created t. induction rows as [|[k [w v]] rows IH]; intros created t Hd; cbn [foldl].
  { split_and!; [|done|done]. intros key. rewrite decide_False; [done|]. intros [_ Hin]. by apply elem_of_nil in Hin. }
  unfold invalidate_entry at 2 4 6. case_bool_decide as Hk.
  - destruct (IH (created ++ [mkStateEdge INVALIDATE w who id g k.2 (Some v)])
      (forget k (add_edge (mkStateEdge INVALIDATE w who id g k.2 (Some v)) t))) as (Hg & Hd' & Hs).
    { cbn. by apply od_del_NoDup. }
    split_and!; [|done|done]. intros key. rewrite Hg. cbn. rewrite od_get_del by done.
    repeat case_decide; try done; set_solver.
  - destruct (IH created t Hd) as (Hg & Hd' & Hs). split_and!; [|done|done].
    intros key. rewrite Hg. cbn. repeat case_decide; try done; set_solver.
Qed.

Lemma invalidate_current id g who t :
  NoDup (od_keys (_current t)) →
  let t' := (invalidate_generation id g who t).2 in
  (∀ key wv, od_get (_current t') key = Some wv → key.1 ≠ (id, g) ∧ od_get (_current t) key = Some wv) ∧
  NoDup (od_keys (_current t')) ∧ _seen t' = _seen t.
Proof.
  intros Hd. destruct (invalidate_entries id g who (_current t) [] t Hd) as (Hg & Hd' & Hs).
  unfold invalidate_generation. split_and!; [|done|done]. intros key wv. rewrite Hg.
  case_decide as Hk; [done|]. intros Hwv. split; [|done]. intros Heq. apply Hk. split; [done|].
  by apply od_get_Some_key in Hwv.
Qed.

Lemma invalidate_all_current ids g who t :
  NoDup (od_keys (_current t)) →
  let t' := invalidate_all ids g who t in
  (∀ key wv, od_get (_current t') key = Some wv →
     (∀ id, id ∈ ids → key.1 ≠ (id, g)) ∧ od_get (_current t) key = Some wv) ∧
  NoDup (od_keys (_current t')) ∧ _seen t' = _seen t.
Proof.
  revert t. induction ids as [|id ids IH]; intros t Hd; cbn.
  { split_and!; [|done|done]. intros key wv Hwv. split; [|done]. by intros id ?%elem_of_nil. }
  destruct (invalidate_current id g who t Hd) as (Hg & Hd1 & Hs).
  destruct (IH _ Hd1) as (Hg' & Hd' & Hs'). split_and!; [|done|by etrans].
  intros key wv [Hids Hwv]%Hg'. apply Hg in Hwv as [Hid Hwv]. split; [|done].
  intros id' [->|Hin]%elem_of_cons; [done|by apply Hids].
Qed.

Lemma install_bytes id ver who offs t :
  NoDup (od_keys (_current t)) →
  let t' := foldl (install_byte id ver who) t offs in
  (∀ key wv, od_get (_current t') key = Some wv →
     if decide (key.1 = (id, ver.1) ∧ key.2 ∈ offs) then wv = (who, ver) else od_get (_current t) key = Some wv) ∧
  NoDup (od_keys (_current t')) ∧ _seen t' = _seen t.
Proof.
  revert t. induction offs as [|o offs IH]; intros t Hd; cbn.
  { split_and!; [|done|done]. intros key wv. rewrite decide_False; [done|]. intros [_ Hin]. by apply elem_of_nil in Hin. }
  assert (H1 : let t1 := install_byte id ver who t o in
    (∀ key wv, od_get (_current t1) key = Some wv →
       if decide (key = (id, ver.1, o)) then wv = (who, ver) else od_get (_current t) key = Some wv) ∧
    NoDup (od_keys (_current t1)) ∧ _seen t1 = _seen t).
  { unfold install_byte. destruct (od_get (_current t) (id, ver.1, o)) as [p|] eqn:Hp; cbn zeta.
    - split_and!; [|by apply current_NoDup_overwrite|by apply seen_overwrite].
      intros key wv. rewrite current_overwrite. repeat case_decide; congruence.
    - split_and!; [|done|done]. intros key wv Hwv. case_decide; [congruence|done]. }
  destruct H1 as (Hg1 & Hd1 & Hs1). destruct (IH _ Hd1) as (Hg & Hd' & Hs).
  split_and!; [|done|by etrans]. intros key wv Hwv. specialize (Hg _ _ Hwv).
  destruct (decide (key.1 = (id, ver.1) ∧ key.2 ∈ offs)) as [[H2 H3]|Hn].
  { rewrite decide_True; [done|]. split; [done|]. by right. }
  apply Hg1 in Hg. case_decide as Hk.
  - subst key. by rewrite decide_True by (split; [done|left]).
  - rewrite decide_False; [done|]. intros [H2 H3]. apply elem_of_cons in H3 as [H3|H3]; [|tauto].
    apply Hk. destruct key as [k1 k2]. cbn in *. by subst.
Qed.
End resets.

(** ** Steps of the runner *)

Section run.
Context {hashlib : Hashlib} {keytext : KeyText}.

Inductive run_step :=
  | Step (cs : list service_call)
  | Reset (cold : bool) (reset_identity : string) (image : option (Z * list Z * string)).

Definition run_step_typed (x : run_step) : Prop :=
  match x with
  | Step cs => Forall observed_call cs
  | Reset _ _ image => match image with Some (_, data, _) => Forall is_byte data | None => True end
  end.

(** A step of the sessions makes calls of the memory service; then the runner
    collects the events. *)
Definition take_step (x : run_step) : M System () :=
  match x with
  | Step cs => modify (λ s, mkSystem (serve_all (world s) cs) (tracker s) (collected s)) ;; collect_new
  | Reset cold reset_identity image => reset_all cold reset_identity image
  end.

Definition take_steps (s : System) (xs : list run_step) : System := foldl (λ s x, (take_step x s).2) s xs.

(** How far a step can move a counter. *)
Definition cost (x : run_step) : Z := match x with Step cs => count cs | Reset _ _ _ => 2 end.
Fixpoint total_cost (xs : list run_step) : Z :=
  match xs with [] => 0 | x :: xs => cost x + total_cost xs end.

Record system_ok (s : System) : Prop := {
  sy_tracked : tracked (world s) (tracker s);
  sy_collected : collected s = length (events (service (world s))) }.

Lemma collect_events evs w t t' n :
  ingest evs t = (Ok (), t') →
  for_eachM collect_event evs (mkSystem w t n) = (Ok (), mkSystem w t' (n + length evs)).
Proof.
  revert t n. induction evs as [|e evs IH]; intros t n Hi; cbn [for_eachM length].
  { injection Hi as <-. by rewrite Nat.add_0_r. }
  unfold ingest in Hi. cbn [for_eachM] in Hi. apply M_bind_Ok in Hi as ([] & t1 & He & Hi).
  unfold mbind, M_bind. unfold collect_event at 1. cbn [tracker world collected].
  unfold ingest. cbn [for_eachM]. unfold mbind, M_bind. rewrite He. cbn -[for_eachM ingest_event].
  rewrite (IH t1 (S n) Hi). do 2 f_equal. lia.
Qed.

Lemma step_collects n cs s :
  system_ok s → Forall observed_call cs → 0 ≤ n → counters_below n (memory (world s)) → n + count cs < 2 ^ 64 →
  ∃ t', take_step (Step cs) s =
      (Ok (), mkSystem (serve_all (world s) cs) t' (length (events (service (serve_all (world s) cs))))) ∧
    tracked (serve_all (world s) cs) t' ∧ counters_below (n + count cs) (memory (serve_all (world s) cs)).
Proof.
  intros [Ht Hc] Hcs Hn Hb Hlt.
  destruct (serve_all_follows n cs (world s) (tracker s) Ht Hcs Hn Hb Hlt) as (evs & t' & He & Hi & Ht' & Hb').
  exists t'. split_and!; [|done|done]. unfold take_step. unfold_M. unfold collect_new.
  cbn [world collected tracker]. rewrite He, Hc, drop_app_length, (collect_events evs _ _ t') by done.
  by rewrite length_app.
Qed.

(** *** Resets *)

Lemma service_ok_memory W m : service_ok W → memory_typed m → service_ok (set_memory m W).
Proof. by intros [? ? ?] ?. Qed.

Lemma cold_reset_agrees W who t :
  tracked W t →
  tracked (set_memory (cold_reset (memory W)) W)
    (invalidate_all (memory_ids (memory W)) (generation (memory W)) who t).
Proof.
  intros [Hok [Ha Hd] Hs].
  destruct (invalidate_all_current (memory_ids (memory W)) (generation (memory W)) who t Hd) as (Hg & Hd' & Hs').
  split; [| |by intros kd i; rewrite Hs'; apply Hs].
  - apply service_ok_memory; [done|].
    apply (memory_typed_exec ColdReset (memory W)); [done|apply Hok].
  - split; [|done]. intros key wv [Hids Hwv]%Hg. exfalso.
    destruct (Ha _ _ Hwv) as (Hgen & c & Hc & _).
    destruct (mok_cells _ (mt_ok _ (sv_memory _ Hok)) _ _ Hc) as ((r & Hr & Hid & _) & _). cbn in Hid.
    apply (Hids key.1.1).
    + unfold memory_ids. rewrite <- Hid. by apply list_elem_of_fmap_2.
    + destruct key as [[id g] o]. cbn in *. by subst.
Qed.

Lemma reset_memory_ok cold who s : system_ok s → system_ok (reset_memory cold who s).
Proof.
  intros [Ht Hc]. unfold reset_memory. destruct cold; split; try done.
  - by apply cold_reset_agrees.
  - cbn. unfold warm_reset. by destruct s as [[m l sv] t n].
Qed.

Lemma reinstall_agrees a d who m id off ver m' t :
  reinstall_image a d who m = (Ok (id, off, ver), m') → memory_typed m → tracker_ok m t →
  tracker_ok m' (install_image id off (count d) ver who t).2 ∧
  _seen (install_image id off (count d) ver who t).2 = _seen t.
Proof.
  intros Hr Hm [Ha Hd]. assert (Hv : ∃ r, _resolve a 1 false m = Ok (r, off) ∧ id = memory_id r ∧
    ver = (generation m, seq_of m (memory_id r) + 1)).
  { revert Hr. unfold reinstall_image. unfold_M. repeat (case_match; simplify_eq/=; try done).
    intros [= <- <- <- _]. by eexists. }
  destruct Hv as (r & Hres & -> & ->).
  apply reinstall_Ok in Hr as (r' & off' & Hres' & _ & _ & Hm').
  rewrite Hres in Hres'. injection Hres' as <- <-.
  destruct (install_bytes (memory_id r) (generation m, seq_of m (memory_id r) + 1) who
    (seqZ off (count d)) t Hd) as (Hg & Hd' & Hs').
  unfold install_image. cbn [snd]. split; [split; [|done]|done].
  set (ver := (generation m, seq_of m (memory_id r) + 1)) in *.
  assert (Hgen : generation m' = generation m) by (by subst m').
  assert (Hl : ∀ k : Key, _bytes m' !! k =
    match od_get (cells_of ver "RESET_IMAGE" who (keys_at (memory_id r) off (count d)) d) k with
    | Some c => Some c | None => _bytes m !! k end).
  { intros k. subst m'. rewrite lookup_put_cells; [done|].
    rewrite cells_of_keys by apply keys_data. apply keys_at_NoDup. }
  set (rows := cells_of ver "RESET_IMAGE" who (keys_at (memory_id r) off (count d)) d) in *.
  assert (Hkeys : od_keys rows = keys_at (memory_id r) off (count d)) by apply cells_of_keys, keys_data.
  intros key wv Hwv%Hg. case_decide as Hin.
  - subst wv. destruct Hin as [Hid Ho%elem_of_seqZ]. rewrite Hid. cbn. split; [by rewrite Hgen|].
    rewrite Hl. assert (Hk : (memory_id r, key.2) ∈ keys_at (memory_id r) off (count d)).
    { apply keys_at_elem. split; [done|exact Ho]. }
    destruct (od_get rows (memory_id r, key.2)) as [c|] eqn:Hc.
    + exists c. split; [done|]. apply od_get_elem, cells_of_elem in Hc as (_ & x & _ & -> & _). done.
    + apply od_get_None in Hc. by rewrite Hkeys in Hc.
  - destruct (Ha _ _ Hwv) as (Hgk & c & Hc & ->). split; [by rewrite Hgen|]. exists c. split; [|done].
    rewrite Hl. destruct (od_get rows (key.1.1, key.2)) as [c'|] eqn:Hc'; [|done].
    apply od_get_Some_key in Hc'. rewrite Hkeys in Hc'. apply keys_at_elem in Hc' as [Hid Ho]. destruct Hin. split.
    + destruct key as [[id g] o]. cbn in *. by subst.
    + by apply elem_of_seqZ.
Qed.

Lemma install_ok a d who s :
  Forall is_byte d → system_ok s → system_ok (install a d who s).2.
Proof.
  intros Hd [[Hok Ht Hs] Hc]. unfold install.
  pose proof (memory_typed_exec (Reinstall a d who) _ Hd (sv_memory _ Hok)) as Hm'. cbn in Hm'.
  destruct (reinstall_image a d who (memory (world s))) as [[[[id off] ver]|e] m'] eqn:Hr; cbn in Hm'.
  - destruct (reinstall_agrees _ _ _ _ _ _ _ _ _ Hr (sv_memory _ Hok) Ht) as [Ht' Hs'].
    split; [|done]. split; cbn; [by apply service_ok_memory|done|].
    intros kd i Hin. apply (Hs kd). rewrite <- Hs'. exact Hin.
  - apply reinstall_atomic in Hr as ->. split; [|done]. split; cbn; [by apply service_ok_memory|done|done].
Qed.

Lemma reset_all_ok cold who image s :
  run_step_typed (Reset cold who image) → system_ok s → system_ok (reset_all cold who image s).2.
Proof.
  intros Hd Hok. apply (reset_memory_ok cold who) in Hok. unfold reset_all. unfold_M.
  destruct image as [[[a d] i]|]; [|done]. by apply install_ok.
Qed.

Lemma reset_counters n cold who image s :
  0 ≤ n → counters_below n (memory (world s)) →
  counters_below (n + 2) (memory (world (reset_all cold who image s).2)).
Proof.
  intros Hn Hb.
  assert (Hb1 : counters_below (n + 1) (memory (world (reset_memory cold who s)))).
  { unfold reset_memory. destruct cold; [apply (counters_below_exec n ColdReset (memory (world s)) Hn Hb)|].
    by apply (counters_below_exec n WarmReset (memory (world s))). }
  unfold reset_all. unfold_M. destruct image as [[[a d] i]|]; [|apply (counters_below_mono (n + 1)); [exact Hb1|lia]].
  unfold install. pose proof (counters_below_exec (n + 1) (Reinstall a d i) _ ltac:(lia) Hb1) as Hb2. cbn in Hb2.
  replace (n + 2) with (n + 1 + 1) by lia.
  by destruct (reinstall_image a d i _) as [[[[id off] ver]|e] m'].
Qed.

Lemma total_cost_nonneg xs : 0 ≤ total_cost xs.
Proof.
  induction xs as [|x xs IH]; cbn [total_cost]; [lia|]. destruct x; cbn [cost]; unfold count; lia.
Qed.

Lemma take_steps_ok n xs s :
  Forall run_step_typed xs → 0 ≤ n → counters_below n (memory (world s)) → n + total_cost xs < 2 ^ 64 →
  system_ok s →
  system_ok (take_steps s xs) ∧ counters_below (n + total_cost xs) (memory (world (take_steps s xs))).
Proof.
  intros Hxs. revert n s. induction Hxs as [|x xs Hx Hxs IH]; intros n s Hn Hb Hlt Hok; cbn [total_cost take_steps foldl] in *.
  { by rewrite Z.add_0_r. }
  pose proof (total_cost_nonneg xs) as Hnn. destruct x as [cs|cold who image].
  - cbn [cost] in *. destruct (step_collects n cs s) as (t' & Hst & Ht' & Hb'); [done|done|done|done|lia|].
    rewrite Hst. cbn [snd].
    assert (0 ≤ count cs) by (unfold count; lia).
    destruct (IH (n + count cs) (mkSystem (serve_all (world s) cs) t'
      (length (events (service (serve_all (world s) cs)))))) as [Hok' Hb'']; [lia|done|lia|done|].
    split; [done|]. by rewrite Z.add_assoc.
  - cbn [cost] in *. destruct (IH (n + 2) (reset_all cold who image s).2) as [Hok' Hb'']; [lia| |lia| |].
    + by apply reset_counters.
    + by apply reset_all_ok.
    + split; [done|]. by rewrite Z.add_assoc.
Qed.

Lemma started_counters W : started W → counters_below 0 (memory W).
Proof.
  intros (regions & seed & mx & isa & m & kinds & cap & s & _ & Hm & _ & ->). cbn.
  unfold new_memory in Hm. inv_Ok. split; [done|]. intros id. unfold seq_of. cbn. by rewrite seq_zero.
Qed.

Lemma started_system W : started W → system_ok (mkSystem W new_tracker 0).
Proof.
  intros HW. pose proof (started_ok W [] HW ltac:(constructor)) as Hok. cbn in Hok.
  assert (He : events (service W) = []).
  { destruct HW as (? & ? & ? & ? & ? & ? & ? & s & _ & _ & Hs & ->). unfold new_service in Hs. by inv_Ok. }
  split; cbn; [|by rewrite He]. split; [done| |].
  - split; [by intros key wv|constructor].
  - by intros kd i ?%not_elem_of_empty.
Qed.

(** ** The property *)

(** C5.  The tracker follows the memory.  From a fresh service and tracker, take
    any steps of the runner (each any sequence of calls of the memory service,
    failing ones included, then the collection of its events) and resets (warm or
    cold, with or without a new image, which may be refused), fewer than 2^64
    operations in all.  Then every event is collected; for every byte the tracker
    holds, the memory holds the same writer and version, of the current
    generation; and the next step, whatever its calls, is collected without the
    tracker ever finding a read in conflict with its history. *)
Theorem tracker_follows_memory W0 xs cs :
  started W0 → Forall run_step_typed xs → Forall observed_call cs →
  total_cost xs + count cs < 2 ^ 64 →
  let s := take_steps (mkSystem W0 new_tracker 0) xs in
  agrees (memory (world s)) (tracker s) ∧
  collected s = length (events (service (world s))) ∧
  (take_step (Step cs) s).1 = Ok ().
Proof.
  intros HW Hxs Hcs Hlt s. assert (Hcs0 : 0 ≤ count cs) by (unfold count; lia).
  destruct (take_steps_ok 0 xs (mkSystem W0 new_tracker 0) Hxs) as [Hok Hb];
    [lia|by apply started_counters|lia|by apply started_system|].
  fold s in Hok, Hb. split_and!; [apply Hok|apply Hok|].
  destruct (step_collects (0 + total_cost xs) cs s Hok Hcs) as (t' & Hst & _); [|done|lia|by rewrite Hst].
  pose proof (total_cost_nonneg xs). lia.
Qed.
End run.

(** *** The hypotheses are satisfiable *)

Module Example_tracker.
#[local] Existing Instance checksum_hashlib.
#[local] Existing Instance Example_service.key_text.

Definition key := Example_service.key.
Definition steps : list run_step :=
  [Step [CallMemory (Preload 0x1020 [1; 2; 3; 4]); CallWrite (key 1) 0x1000 0x11223344 4 15; CallRead (key 2) 0x1000 4;
         CallRead (key 3) 0x1020 4];
   Reset true "reset:9" (Some (0x1020, [9; 8], "reset-image:10"));
   Step [CallWrite (key 4) 0x1020 7 1 1; CallRead (key 5) 0x1020 4];
   Reset false "reset:20" (Some (0x1022, [6], "reset-image:21"))].
Definition next_calls : list service_call :=
  [CallRead (key 6) 0x1020 4; CallWrite (key 7) 0x1020 0xffff 2 3; CallRead (key 7) 0x1000 1].

Lemma steps_typed : Forall run_step_typed steps.
Proof. repeat constructor; vm_compute; done. Defined.

Lemma tracker_follows_memory_witness :
  let s := take_steps (mkSystem Example_service.start new_tracker 0) steps in
  agrees (memory (world s)) (tracker s) ∧
  collected s = length (events (service (world s))) ∧
  (take_step (Step next_calls) s).1 = Ok ().
Proof.
  apply (tracker_follows_memory Example_service.start steps next_calls Example_service.start_started steps_typed).
  - repeat constructor.
  - vm_compute. reflexivity.
Defined.

(** The image replaces a byte that was read: a WAW and a WAR edge. *)
Example image_edges :
  drop 32 (edge_kind <$> edges (tracker (take_steps (mkSystem Example_service.start new_tracker 0) steps))) =
    [WAW; WAR].
Proof. vm_compute. reflexivity. Qed.
End Example_tracker.
