(* ===== verification/Ownership.v ===== *)
(** * Exclusive bit ownership of the inputs

    Models [src/src/myfuzz/scenario/ownership.py]: declared input fields, their
    owners, the compiler that gives every input bit exactly one owner, and the
    queries by which a mutation or a route names a producer.  The field widths
    and bit ranges are Python integers; the [isinstance] guards hold by typing.

    The theorems: the compiler succeeds exactly on declarations that partition
    the input bits, and the compiled map returns the declared owner of each
    bit; a mutation range lies in one fuzzable source only, so it never touches
    a bound or fixed bit and never what a route delivers to. *)

From S2P Require Import Prelude Isa Genome.

Local Open Scope Z_scope.

Definition _KINDS : list string := ["source"; "bound"; "fixed"].
Definition _DIRECTIONS : list string :=
  ["CPU_TO_IP"; "IP_TO_CPU"; "IP_TO_IP"; "CPU_TO_IP_TO_CPU"; "IP_TO_CPU_TO_IP";
   "MULTI_COMPONENT_CHAIN"].

Module Field.
Record InputField := mkField {
  component_id : string;
  port : string;
  width : Z }.
End Field.
Export Field (InputField, mkField).

#[export] Instance InputField_eq_dec : EqDecision InputField.
Proof. solve_decision. Defined.

(** [InputField.__post_init__] *)
Definition InputField_post_init (f : InputField) : result InputField :=
  raise_if (empty (Field.component_id f) || empty (Field.port f))
    (ValueError "component_id and port must be nonempty") ;;
  raise_if (Field.width f <? 1) (ValueError "input width must be positive") ;;
  mret f.

Module Owner.
Record InputOwner := mkOwner {
  component_id : string;
  port : string;
  bit_offset : Z;
  width : Z;
  kind : string;
  producer_ref : string }.
End Owner.
Export Owner (InputOwner, mkOwner).

#[export] Instance InputOwner_eq_dec : EqDecision InputOwner.
Proof. solve_decision. Defined.

(** [InputOwner.__post_init__] *)
Definition InputOwner_post_init (o : InputOwner) : result InputOwner :=
  raise_if (empty (Owner.component_id o) || empty (Owner.port o) || empty (Owner.producer_ref o))
    (ValueError "owner identity and producer_ref must be nonempty") ;;
  raise_if (negb (has (Owner.kind o) _KINDS)) (ValueError "unknown input owner kind") ;;
  raise_if ((Owner.bit_offset o <? 0) || (Owner.width o <? 1))
    (ValueError "owner bit range is invalid") ;;
  mret o.

Definition FieldKey : Type := string * string.
Definition field_key (f : InputField) : FieldKey := (Field.component_id f, Field.port f).
Definition owner_key (o : InputOwner) : FieldKey := (Owner.component_id o, Owner.port o).

(** [OwnershipMap]: the owners of each field's bits, bit 0 first. *)
Record OwnershipMap := mkOwnership { _bits : gmap FieldKey (list InputOwner) }.

(** [bits[a:a+n]] *)
Definition bit_slice {A} (bits : list A) (a n : Z) : list A :=
  take (Z.to_nat n) (drop (Z.to_nat a) bits).

(** [producers = {...}; if len(producers) != 1: raise; next(iter(producers))] *)
Definition single_producer (selected : list InputOwner) (message : string) : result string :=
  match remove_dups (Owner.producer_ref <$> selected) with
  | [p] => Ok p
  | _ => Err (ValueError message)
  end.

Definition not_source (o : InputOwner) : bool := negb (bool_decide (Owner.kind o = "source")).
Definition not_bound (o : InputOwner) : bool := negb (bool_decide (Owner.kind o = "bound")).

(** [mutation_source] *)
Definition mutation_source (component port : string) (offset width : Z) (direction : string)
    (m : OwnershipMap) : result string :=
  raise_if (negb (has direction _DIRECTIONS)) (ValueError "unknown mutation direction") ;;
  match _bits m !! (component, port) with
  | None => Err (ValueError "undeclared input field")
  | Some bits =>
      raise_if ((offset <? 0) || (width <? 1) || (Z.of_nat (length bits) <? offset + width))
        (ValueError "mutation range exceeds input field") ;;
      let selected := bit_slice bits offset width in
      for_each (λ o, raise_if (not_source o)
        (ValueError (Owner.kind o +:+ " input cannot be mutated"))) selected ;;
      single_producer selected "mutation spans multiple fuzzable sources"
  end.

(** [field_width] *)
Definition field_width (component port : string) (m : OwnershipMap) : result Z :=
  match _bits m !! (component, port) with
  | None => Err (ValueError "undeclared input field")
  | Some bits => mret (Z.of_nat (length bits))
  end.

(** [binding_producer] *)
Definition binding_producer (component port : string) (offset width : Z) (m : OwnershipMap)
    : result string :=
  match _bits m !! (component, port) with
  | None => Err (ValueError "binding range exceeds input field")
  | Some bits =>
      raise_if ((offset <? 0) || (width <? 1) || (Z.of_nat (length bits) <? offset + width))
        (ValueError "binding range exceeds input field") ;;
      let selected := bit_slice bits offset width in
      raise_if (existsb not_bound selected) (ValueError "route target is not bound input") ;;
      single_producer selected "route target has multiple producers"
  end.

Definition irq_group_prefix : string := "irq-group:".

(** [irq_group_owner] *)
Definition irq_group_owner (component port : string) (offset width : Z) (m : OwnershipMap)
    : result string :=
  producer ← binding_producer component port offset width m;
  let group := String.substring (String.length irq_group_prefix) (String.length producer) producer in
  raise_if (negb (width =? 1) || negb (String.prefix irq_group_prefix producer) || empty group)
    (ValueError "input is not owned by an IRQ delivery group") ;;
  mret group.

(** ** [compile_ownership] *)

(** The bits while they are compiled: unowned bits are [None]. *)
Definition Bits : Type := gmap FieldKey (list (option InputOwner)).

Definition declare_field (bits : Bits) (f : InputField) : result Bits :=
  raise_if (bool_decide (is_Some (bits !! field_key f))) (ValueError "duplicate input field") ;;
  mret (<[field_key f := replicate (Z.to_nat (Field.width f)) None]> bits).

(** One turn of the inner loop: bit [index] gets its owner. *)
Definition claim_bit (o : InputOwner) (field_bits : list (option InputOwner)) (index : Z)
    : result (list (option InputOwner)) :=
  match field_bits !! Z.to_nat index with
  | None => Err (IndexError "list index out of range")
  | Some (Some _) => Err (ValueError "input ownership overlap")
  | Some None => mret (<[Z.to_nat index := Some o]> field_bits)
  end.

Definition claim_owner (bits : Bits) (o : InputOwner) : result Bits :=
  match bits !! owner_key o with
  | None => Err (ValueError "owner references undeclared input field")
  | Some field_bits =>
      raise_if (Z.of_nat (length field_bits) <? Owner.bit_offset o + Owner.width o)
        (ValueError "owner exceeds input width") ;;
      field_bits' ← fold_result (claim_bit o) field_bits (seqZ (Owner.bit_offset o) (Owner.width o));
      mret (<[owner_key o := field_bits']> bits)
  end.

(** [tuple(field_bits)], once no bit is [None]. *)
Definition owned_bits (field_bits : list (option InputOwner)) : list InputOwner :=
  omap id field_bits.

(** [compile_ownership] *)
Definition compile_ownership (fields : list InputField) (owners : list InputOwner)
    : result OwnershipMap :=
  bits0 ← fold_result declare_field ∅ fields;
  bits ← fold_result claim_owner bits0 owners;
  raise_if (negb (bool_decide (map_Forall (λ _ field_bits, Forall is_Some field_bits) bits)))
    (ValueError "input has unclassified bits") ;;
  mret (mkOwnership (owned_bits <$> bits)).

(** ** Specification *)

(** Bit [i] of field [k] is in the owner's range. *)
Definition covers (k : FieldKey) (i : nat) (o : InputOwner) : Prop :=
  owner_key o = k ∧ Owner.bit_offset o ≤ Z.of_nat i < Owner.bit_offset o + Owner.width o.

#[export] Instance covers_dec k i o : Decision (covers k i o).
Proof. unfold covers. apply _. Defined.

Definition field_of (fields : list InputField) (k : FieldKey) (w : Z) : Prop :=
  ∃ f, f ∈ fields ∧ field_key f = k ∧ Field.width f = w.

(** The declarations give every declared bit one owner and nothing else. *)
Record partitions (fields : list InputField) (owners : list InputOwner) : Prop := {
  pt_fields : NoDup (field_key <$> fields);
  pt_owners o : o ∈ owners →
    ∃ w, field_of fields (owner_key o) w ∧ Owner.bit_offset o + Owner.width o ≤ w;
  pt_bits k w i : field_of fields k w → Z.of_nat i < w →
    ∃ o, filter (covers k i) owners = [o] }.

(** What the bits under compilation mean, after the owners [claimed]. *)
Record bits_ok (fields : list InputField) (claimed : list InputOwner) (bits : Bits) : Prop := {
  bo_field k l : bits !! k = Some l → field_of fields k (Z.of_nat (length l));
  bo_dom k w : field_of fields k w → is_Some (bits !! k);
  bo_bit k l i x : bits !! k = Some l → l !! i = Some x →
    filter (covers k i) claimed = option_list x }.

Definition owner_ok (o : InputOwner) : Prop := InputOwner_post_init o = Ok o.
Definition field_ok (f : InputField) : Prop := InputField_post_init f = Ok f.

Lemma owner_ok_range o : owner_ok o → 0 ≤ Owner.bit_offset o ∧ 1 ≤ Owner.width o.
Proof. unfold owner_ok, InputOwner_post_init. intros H. inv_Ok. lia. Qed.
Lemma field_ok_width f : field_ok f → 1 ≤ Field.width f.
Proof. unfold field_ok, InputField_post_init. intros H. inv_Ok. lia. Qed.

Lemma field_of_unique fields k w w' :
  NoDup (field_key <$> fields) → field_of fields k w → field_of fields k w' → w = w'.
Proof.
  intros Hnd (f & Hf & Hk & <-) (f' & Hf' & Hk' & <-).
  apply list_elem_of_lookup in Hf as [i Hi]. apply list_elem_of_lookup in Hf' as [j Hj].
  assert (i = j) as ->; [|congruence].
  apply (NoDup_lookup _ i j k Hnd); rewrite list_lookup_fmap.
  - rewrite Hi. cbn. congruence.
  - rewrite Hj. cbn. congruence.
Qed.

(** *** The fields *)

Lemma declare_fields_ok fields bits :
  Forall field_ok fields → fold_result declare_field ∅ fields = Ok bits →
  NoDup (field_key <$> fields) ∧ bits_ok fields [] bits.
Proof.
  induction fields as [|f fields IH] using rev_ind in bits |- *; intros Hf Hd.
  - injection Hd as <-. split; [constructor|]. split; [done| |done].
    intros k w (? & ?%not_elem_of_nil & ?). done.
  - rewrite fold_result_app in Hd. apply bind_Ok in Hd as (b & Hb & Hd).
    apply Forall_app in Hf as [Hf Hf1]. destruct (IH _ Hf Hb) as [Hnd Hok]. apply Forall_cons in Hf1 as [Hw _].
    apply field_ok_width in Hw.
    cbn in Hd. unfold declare_field in Hd. inv_Ok.
    assert (Hnew : field_key f ∉ field_key <$> fields).
    { intros (f' & Hk & Hin)%list_elem_of_fmap.
      match goal with H : ¬ is_Some _ |- _ => apply H end. rewrite Hk.
      apply (bo_dom _ _ _ Hok _ (Field.width f')). by exists f'. }
    split.
    + rewrite fmap_app. apply NoDup_app. split_and!; [done| |apply NoDup_singleton].
      by intros ? Hx ->%list_elem_of_singleton.
    + split.
      * intros k l [[<- <-]|[Hk Hl]]%lookup_insert_Some.
        -- exists f. rewrite length_replicate, Z2Nat.id by lia. split_and!; [|done..].
           apply elem_of_app. by right; left.
        -- destruct (bo_field _ _ _ Hok _ _ Hl) as (f' & ? & ? & ?). exists f'.
           split_and!; [|done..]. apply elem_of_app. by left.
      * intros k w (f' & Hin & <- & Hw').
        apply elem_of_app in Hin as [Hin|Hin]; [|apply list_elem_of_singleton in Hin as ->].
        -- apply lookup_insert_is_Some'; right. apply (bo_dom _ _ _ Hok _ w). by exists f'.
        -- eexists. apply lookup_insert_eq.
      * intros k l i x [[<- <-]|[Hk Hl]]%lookup_insert_Some Hx.
        -- by apply lookup_replicate in Hx as [-> _].
        -- by apply (bo_bit _ _ _ Hok _ _ _ _ Hl Hx).
Qed.

Lemma declare_fields_total fields :
  NoDup (field_key <$> fields) → Forall field_ok fields → ∃ bits, fold_result declare_field ∅ fields = Ok bits.
Proof.
  induction fields as [|f fields IH] using rev_ind; intros Hnd Hf; [by eexists|].
  rewrite fmap_app in Hnd. apply NoDup_app in Hnd as (Hnd & Hnew & _).
  apply Forall_app in Hf as [Hf _]. destruct (IH Hnd Hf) as [b Hb].
  rewrite fold_result_app, Hb. cbn. unfold declare_field.
  rewrite bool_decide_eq_false_2; [by eexists|]. intros [l Hl].
  destruct (declare_fields_ok _ _ Hf Hb) as [_ Hok].
  destruct (bo_field _ _ _ Hok _ _ Hl) as (f' & Hin & Hk & _).
  apply (Hnew (field_key f)); [|by left]. apply list_elem_of_fmap. by exists f'.
Qed.

(** *** The owners *)

(** Claiming a range of bits succeeds exactly when none is owned, and owns
    exactly that range. *)
Lemma claim_bits_Ok o l a n l' :
  0 ≤ a → fold_result (claim_bit o) l (seqZ a n) = Ok l' →
  length l' = length l ∧
  (∀ i, a ≤ Z.of_nat i < a + n → l !! i = Some None ∧ l' !! i = Some (Some o)) ∧
  (∀ i, ¬ a ≤ Z.of_nat i < a + n → l' !! i = l !! i).
Proof.
  intros Ha. destruct (Z.lt_ge_cases n 0) as [Hn|Hn].
  { rewrite seqZ_nil by lia. intros [= <-]. split_and!; [done| |done]. intros i; lia. }
  destruct (Z_of_nat_complete n ltac:(lia)) as [k ->]. clear Hn. revert l'. induction k as [|k IH]; intros l'.
  { intros [= <-]. split_and!; [done| |done]. intros i; lia. }
  rewrite Nat2Z.inj_succ. set (n := Z.of_nat k) in *. assert (0 ≤ n) by lia.
  replace (Z.succ n) with (n + 1) by lia. rewrite seqZ_app by lia. rewrite fold_result_app.
  intros (l1 & H1 & H2)%bind_Ok. destruct (IH _ H1) as (Hlen & Hin & Hout).
  cbn in H2. apply bind_Ok in H2 as (l2 & H2 & [= <-]). unfold claim_bit in H2.
  change (Z.of_nat 0 + (a + n)) with (a + n) in H2.
  destruct (l1 !! Z.to_nat (a + n)) as [[?|]|] eqn:Hl1; [done| |done]. injection H2 as <-.
  split_and!.
  - by rewrite length_insert.
  - intros i Hi. destruct (decide (Z.of_nat i = a + n)) as [He|He].
    + replace i with (Z.to_nat (a + n)) by lia. rewrite <- Hout by lia. split; [done|].
      rewrite list_lookup_insert_eq; [done|]. by apply lookup_lt_Some in Hl1.
    + rewrite list_lookup_insert_ne by lia. apply Hin. lia.
  - intros i Hi. rewrite list_lookup_insert_ne by lia. apply Hout. lia.
Qed.

Lemma claim_bits_total o l a n :
  0 ≤ a → (∀ i, a ≤ Z.of_nat i < a + n → l !! i = Some None) →
  ∃ l', fold_result (claim_bit o) l (seqZ a n) = Ok l'.
Proof.
  intros Ha. destruct (Z.lt_ge_cases n 0) as [Hn|Hn].
  { rewrite seqZ_nil by lia. by eexists. }
  destruct (Z_of_nat_complete n ltac:(lia)) as [k ->]. clear Hn. induction k as [|k IH]; [by eexists|].
  rewrite Nat2Z.inj_succ. set (n := Z.of_nat k) in *. assert (0 ≤ n) by lia. intros Hfree.
  destruct IH as [l1 H1]; [intros i Hi; apply Hfree; lia|].
  replace (Z.succ n) with (n + 1) by lia. rewrite seqZ_app by lia. rewrite fold_result_app, H1.
  destruct (claim_bits_Ok _ _ _ _ _ Ha H1) as (_ & _ & Hout).
  change (seqZ (a + n) 1) with [a + n]. cbn. unfold claim_bit.
  rewrite Hout, Hfree by lia. by eexists.
Qed.

Lemma filter_snoc_covers k i l o :
  filter (covers k i) (l ++ [o]) =
  filter (covers k i) l ++ (if decide (covers k i o) then [o] else []).
Proof. rewrite filter_app. reflexivity. Qed.

Lemma claim_owner_ok fields claimed bits o bits' :
  bits_ok fields claimed bits → owner_ok o → claim_owner bits o = Ok bits' →
  bits_ok fields (claimed ++ [o]) bits' ∧
  ∃ w, field_of fields (owner_key o) w ∧ Owner.bit_offset o + Owner.width o ≤ w.
Proof.
  intros Hok [Ha Hw]%owner_ok_range Hc. unfold claim_owner in Hc.
  destruct (bits !! owner_key o) as [l|] eqn:Hl; [|done]. inv_Ok.
  match goal with H : (_ <? _) = false |- _ => apply Z.ltb_ge in H end.
  match goal with H : fold_result _ _ _ = Ok ?l' |- _ =>
    destruct (claim_bits_Ok _ _ _ _ _ Ha H) as (Hlen & Hin & Hout) end.
  pose proof (bo_field _ _ _ Hok _ _ Hl) as Hf. split; [|by eexists].
  split.
  - intros k l1 [[<- <-]|[Hk Hl1]]%lookup_insert_Some; [by rewrite Hlen|].
    by apply (bo_field _ _ _ Hok).
  - intros k w Hk. apply lookup_insert_is_Some'; right. by apply (bo_dom _ _ _ Hok _ w).
  - intros k l1 i x [[<- <-]|[Hk Hl1]]%lookup_insert_Some Hx; rewrite filter_snoc_covers.
    + destruct (decide (covers (owner_key o) i o)) as [[_ Hi]|Hi].
      * destruct (Hin i Hi) as [H1 H2].
        rewrite (bo_bit _ _ _ Hok _ _ _ _ Hl H1). by simplify_eq.
      * rewrite app_nil_r. rewrite Hout in Hx by (unfold covers in Hi; tauto).
        by apply (bo_bit _ _ _ Hok _ _ _ _ Hl).
    + rewrite decide_False, app_nil_r by (intros [? _]; done).
      by apply (bo_bit _ _ _ Hok _ _ _ _ Hl1).
Qed.

Lemma claim_owners_ok fields claimed owners bits bits' :
  bits_ok fields claimed bits → Forall owner_ok owners →
  fold_result claim_owner bits owners = Ok bits' →
  bits_ok fields (claimed ++ owners) bits' ∧
  ∀ o, o ∈ owners → ∃ w, field_of fields (owner_key o) w ∧
    Owner.bit_offset o + Owner.width o ≤ w.
Proof.
  revert claimed bits. induction owners as [|o owners IH]; intros claimed bits Hok Hos Hc.
  { injection Hc as <-. rewrite app_nil_r. split; [done|set_solver]. }
  apply Forall_cons in Hos as [Ho Hos]. cbn in Hc. apply bind_Ok in Hc as (b1 & H1 & Hc).
  destruct (claim_owner_ok _ _ _ _ _ Hok Ho H1) as [Hok1 Hw].
  destruct (IH _ _ Hok1 Hos Hc) as [Hok2 Hws]. rewrite <- (assoc_L (++)) in Hok2.
  split; [done|]. intros o' [->|Hin]%elem_of_cons; [done|by apply Hws].
Qed.

Lemma claim_owners_total fields owners claimed bits :
  Forall owner_ok owners → partitions fields (claimed ++ owners) → bits_ok fields claimed bits →
  ∃ bits', fold_result claim_owner bits owners = Ok bits'.
Proof.
  revert claimed bits. induction owners as [|o owners IH]; intros claimed bits Hos Hp Hok.
  { by eexists. }
  apply Forall_cons in Hos as [Ho Hos]. pose proof (owner_ok_range _ Ho) as [Ha Hw].
  destruct (pt_owners _ _ Hp o ltac:(set_solver)) as (w & Hf & Hwi).
  destruct (bo_dom _ _ _ Hok _ _ Hf) as [l Hl].
  pose proof (field_of_unique _ _ _ _ (pt_fields _ _ Hp) Hf (bo_field _ _ _ Hok _ _ Hl)) as ->.
  destruct (claim_bits_total o l (Owner.bit_offset o) (Owner.width o) Ha) as [l' Hl'].
  { intros i Hi. destruct (lookup_lt_is_Some_2 l i) as [x Hx]; [lia|]. rewrite Hx. f_equal.
    pose proof (bo_bit _ _ _ Hok _ _ _ _ Hl Hx) as Hb.
    destruct (pt_bits _ _ Hp _ _ i Hf ltac:(lia)) as [o' Ho'].
    rewrite filter_app, filter_cons_True, Hb in Ho' by done.
    destruct x; [|done]. by destruct (filter _ owners). }
  assert (H1 : claim_owner bits o = Ok (<[owner_key o := l']> bits)).
  { unfold claim_owner. rewrite Hl. replace (_ <? _) with false by lia. cbn. by rewrite Hl'. }
  cbn. rewrite H1. cbn. apply (IH (claimed ++ [o])); [done| |].
  - by rewrite <- (assoc_L (++)).
  - by apply (claim_owner_ok _ _ _ _ _ Hok Ho H1).
Qed.

(** *** The compiled map and its queries *)

Lemma owned_bits_all l : Forall is_Some l →
  length (owned_bits l) = length l ∧ ∀ i o, owned_bits l !! i = Some o ↔ l !! i = Some (Some o).
Proof.
  induction 1 as [|x l [o ->] Hl [IHlen IH]]; cbn.
  { split; [done|]. by intros i o; rewrite !lookup_nil. }
  change (omap id l) with (owned_bits l). split; [by rewrite IHlen|].
  intros [|i] o'; cbn; [|apply IH]. split; congruence.
Qed.

Lemma compile_Ok fields owners m :
  Forall field_ok fields → Forall owner_ok owners → compile_ownership fields owners = Ok m →
  NoDup (field_key <$> fields) ∧
  (∀ o, o ∈ owners → ∃ w, field_of fields (owner_key o) w ∧ Owner.bit_offset o + Owner.width o ≤ w) ∧
  ∃ bits, bits_ok fields owners bits ∧ m = mkOwnership (owned_bits <$> bits) ∧
    map_Forall (λ _ field_bits, Forall is_Some field_bits) bits.
Proof.
  intros Hf Ho Hc. unfold compile_ownership in Hc.
  apply bind_Ok in Hc as (b0 & H0 & Hc). apply bind_Ok in Hc as (b & Hb & Hc).
  destruct (declare_fields_ok _ _ Hf H0) as [Hnd Hok0].
  destruct (claim_owners_ok _ _ _ _ _ Hok0 Ho Hb) as [Hok Hw].
  inv_Ok. split_and!; [done|done|]. by exists b.
Qed.

Lemma compile_total fields owners :
  Forall field_ok fields → Forall owner_ok owners → partitions fields owners →
  ∃ m, compile_ownership fields owners = Ok m.
Proof.
  intros Hf Ho Hp. destruct (declare_fields_total fields (pt_fields _ _ Hp) Hf) as [b0 H0].
  destruct (declare_fields_ok _ _ Hf H0) as [_ Hok0].
  destruct (claim_owners_total fields owners [] b0 Ho Hp Hok0) as [b Hb].
  destruct (claim_owners_ok _ _ _ _ _ Hok0 Ho Hb) as [Hok _].
  unfold compile_ownership. rewrite H0. cbn. rewrite Hb. cbn. rewrite bool_decide_eq_true_2; [by eexists|].
  intros k l Hl. apply Forall_lookup_2. intros i x Hx.
  pose proof (bo_bit _ _ _ Hok _ _ _ _ Hl Hx) as Hbit.
  destruct (pt_bits _ _ Hp _ _ i (bo_field _ _ _ Hok _ _ Hl)) as [o Hi].
  { apply lookup_lt_Some in Hx. lia. }
  cbn in Hbit. rewrite Hi in Hbit. destruct x; [by eexists|done].
Qed.

(** C19.  The ownership compiler is exact.  For constructed fields and owners it
    succeeds precisely when the declarations partition the input bits (distinct
    fields, owners inside declared fields, every bit of every field in exactly
    one owner's range), and then the map has exactly the declared fields, each
    of its width, and at every bit the one owner whose range contains it. *)
Theorem compile_ownership_exact fields owners :
  Forall field_ok fields → Forall owner_ok owners →
  (is_Ok (compile_ownership fields owners) = true ↔ partitions fields owners) ∧
  ∀ m, compile_ownership fields owners = Ok m →
    ∀ k w, field_of fields k w ↔ ∃ bits, _bits m !! k = Some bits ∧ Z.of_nat (length bits) = w ∧
      ∀ i o, bits !! i = Some o ↔ Z.of_nat i < w ∧ filter (covers k i) owners = [o].
Proof.
  intros Hf Ho.
  assert (Hbits : ∀ m, compile_ownership fields owners = Ok m →
    ∀ k w, field_of fields k w ↔ ∃ bits, _bits m !! k = Some bits ∧ Z.of_nat (length bits) = w ∧
      ∀ i o, bits !! i = Some o ↔ Z.of_nat i < w ∧ filter (covers k i) owners = [o]).
  { intros m (Hnd & _ & bits & Hok & -> & Hall)%compile_Ok k w; [|done..]. cbn. split.
    - intros Hk. destruct (bo_dom _ _ _ Hok _ _ Hk) as [l Hl].
      pose proof (field_of_unique _ _ _ _ Hnd Hk (bo_field _ _ _ Hok _ _ Hl)) as ->.
      destruct (owned_bits_all l (Hall _ _ Hl)) as [Hlen Hown].
      exists (owned_bits l). rewrite Hlen. split_and!; [apply lookup_fmap_Some; by exists l|done|].
      intros i o. rewrite Hown. split.
      + intros Hi. split; [by apply lookup_lt_Some in Hi; lia|].
        by rewrite (bo_bit _ _ _ Hok _ _ _ _ Hl Hi).
      + intros [Hi Hfo]. destruct (lookup_lt_is_Some_2 l i) as [x Hx]; [lia|].
        rewrite Hx. f_equal. rewrite (bo_bit _ _ _ Hok _ _ _ _ Hl Hx) in Hfo. by destruct x; simplify_eq/=.
    - intros (b & (l & <- & Hl)%lookup_fmap_Some & <- & _).
      rewrite (proj1 (owned_bits_all l (Hall _ _ Hl))). by apply (bo_field _ _ _ Hok). }
  split; [|exact Hbits]. rewrite is_Ok_spec. split; [|by apply compile_total].
  intros [m Hm]. destruct (compile_Ok _ _ _ Hf Ho Hm) as (Hnd & Hw & _). split; [done..|].
  intros k w i Hk Hi. destruct (proj1 (Hbits m Hm k w) Hk) as (b & _ & Hlen & Hb).
  destruct (lookup_lt_is_Some_2 b i) as [o Ho']; [lia|]. exists o. by apply Hb in Ho' as [_ ?].
Qed.

Lemma single_producer_Ok sel msg p :
  single_producer sel msg = Ok p → ∀ o, o ∈ sel → Owner.producer_ref o = p.
Proof.
  unfold single_producer. intros Hs o Ho.
  assert (Hin : Owner.producer_ref o ∈ remove_dups (Owner.producer_ref <$> sel)).
  { apply elem_of_remove_dups, list_elem_of_fmap_2, Ho. }
  destruct (remove_dups _) as [|q [|? ?]]; [done| |done]. injection Hs as ->.
  by apply list_elem_of_singleton in Hin.
Qed.

Lemma single_producer_all sel msg p :
  sel ≠ [] → (∀ o, o ∈ sel → Owner.producer_ref o = p) → single_producer sel msg = Ok p.
Proof.
  unfold single_producer. intros Hne Hall.
  assert (Hp : ∀ q, q ∈ remove_dups (Owner.producer_ref <$> sel) ↔ q = p).
  { intros q. rewrite elem_of_remove_dups. split.
    - intros (o & -> & Ho)%list_elem_of_fmap. by apply Hall.
    - intros ->. destruct sel as [|o sel]; [done|]. rewrite <- (Hall o) by left. by left. }
  pose proof (NoDup_remove_dups (Owner.producer_ref <$> sel)) as Hnd.
  destruct (remove_dups _) as [|q [|q' l]].
  - assert (p ∈ []) as ?%not_elem_of_nil by by apply Hp. done.
  - f_equal. apply Hp. by left.
  - apply NoDup_cons in Hnd as [Hq _]. destruct Hq. rewrite (proj1 (Hp q)) by left.
    rewrite <- (proj1 (Hp q')) by (right; left). left.
Qed.

Lemma bit_slice_elem {A} (bits : list A) a n x :
  0 ≤ a → 0 ≤ n →
  x ∈ bit_slice bits a n ↔ ∃ i : nat, a ≤ Z.of_nat i < a + n ∧ bits !! i = Some x.
Proof.
  intros Ha Hn. unfold bit_slice. rewrite list_elem_of_lookup. split.
  - intros [i Hi]. apply lookup_take_Some in Hi as [Hi Hlt]. rewrite lookup_drop in Hi.
    exists (Z.to_nat a + i)%nat. split; [lia|done].
  - intros (i & Hi & Hx). exists (i - Z.to_nat a)%nat. apply lookup_take_Some. rewrite lookup_drop.
    split; [|lia]. rewrite <- Hx. f_equal. lia.
Qed.

(** Mutation stays inside one fuzzable source.  [mutation_source] returns a
    producer exactly when the direction is declared, the range is a nonempty
    range of the field, and every bit of it is owned by a source with that
    producer; hence it shares no bit with any range a route may deliver to. *)
Lemma mutation_source_exact m component port offset width direction :
  (∀ p, mutation_source component port offset width direction m = Ok p ↔
    direction ∈ _DIRECTIONS ∧ ∃ bits, _bits m !! (component, port) = Some bits ∧
      0 ≤ offset ∧ 1 ≤ width ∧ offset + width ≤ Z.of_nat (length bits) ∧
      ∀ i o, offset ≤ Z.of_nat i < offset + width → bits !! i = Some o →
        Owner.kind o = "source" ∧ Owner.producer_ref o = p) ∧
  ∀ p offset' width' q,
    mutation_source component port offset width direction m = Ok p →
    binding_producer component port offset' width' m = Ok q →
    offset + width ≤ offset' ∨ offset' + width' ≤ offset.
Proof.
  assert (Hex : ∀ p, mutation_source component port offset width direction m = Ok p ↔
    direction ∈ _DIRECTIONS ∧ ∃ bits, _bits m !! (component, port) = Some bits ∧
      0 ≤ offset ∧ 1 ≤ width ∧ offset + width ≤ Z.of_nat (length bits) ∧
      ∀ i o, offset ≤ Z.of_nat i < offset + width → bits !! i = Some o →
        Owner.kind o = "source" ∧ Owner.producer_ref o = p).
  { intros p. unfold mutation_source, has. split.
    - intros H. inv_Ok. split; [done|]. destruct (_bits m !! _) as [bits|]; [|done]. inv_Ok.
      exists bits. split_and!; [done|lia..|]. intros i o Hi Ho.
      assert (Hin : o ∈ bit_slice bits offset width) by (apply bit_slice_elem; [lia..|]; by exists i).
      split; [|by eapply single_producer_Ok].
      match goal with H : for_each _ _ = Ok _ |- _ =>
        apply for_each_Ok in H; rewrite Forall_forall in H; specialize (H o Hin) end.
      unfold not_source in *. by inv_Ok.
    - intros (Hd & bits & -> & H1 & H2 & H3 & Hall). rewrite bool_decide_eq_true_2 by done. cbn.
      replace (offset <? 0) with false by lia. replace (width <? 1) with false by lia.
      replace (_ <? offset + width) with false by lia. cbn.
      assert (Hsel : ∀ o, o ∈ bit_slice bits offset width →
        Owner.kind o = "source" ∧ Owner.producer_ref o = p).
      { intros o (i & Hi & Ho)%bit_slice_elem; [by apply (Hall i)|lia..]. }
      rewrite (proj2 (for_each_Ok _ _)).
      + cbn. apply single_producer_all; [|intros; by apply Hsel].
        intros Hn. destruct (lookup_lt_is_Some_2 bits (Z.to_nat offset)) as [o Ho]; [lia|].
        apply (not_elem_of_nil o). rewrite <- Hn. apply bit_slice_elem; [lia..|].
        exists (Z.to_nat offset). split; [lia|done].
      + apply Forall_forall. intros o [Hk _]%Hsel. unfold not_source. by rewrite Hk. }
  split; [exact Hex|]. intros p off' w' q (_ & bits & Hb & Ho & Hw & Hl & Hall)%Hex Hbp.
  unfold binding_producer in Hbp. rewrite Hb in Hbp. inv_Ok.
  destruct (Z_le_gt_dec (offset + width) off') as [|Hgt]; [by left|]. right.
  destruct (Z_le_gt_dec (off' + w') offset) as [|Hgt']; [done|exfalso].
  set (i := Z.to_nat (Z.max offset off')).
  destruct (lookup_lt_is_Some_2 bits i) as [o Hi]; [lia|].
  destruct (Hall i o ltac:(lia) Hi) as [Hk _].
  match goal with H : existsb _ _ = false |- _ => apply not_true_iff_false in H; apply H end.
  apply existsb_exists. exists o. split.
  - apply list_elem_of_In, bit_slice_elem; [lia..|]. exists i. split; [lia|done].
  - unfold not_bound. by rewrite Hk.
Qed.

Module Example_ownership.
Definition fields : list InputField := [mkField "cpu" "irq" 4].
Definition owners : list InputOwner :=
  [mkOwner "cpu" "irq" 0 3 "source" "fuzz"; mkOwner "cpu" "irq" 3 1 "bound" "irq-group:g"].

Lemma compile_ownership_exact_witness :
  is_Ok (compile_ownership fields owners) = true ∧ partitions fields owners.
Proof.
  split; [vm_compute; reflexivity|].
  apply (compile_ownership_exact fields owners).
  - repeat constructor.
  - repeat constructor.
  - vm_compute. reflexivity.
Defined.

Definition map_ : OwnershipMap :=
  match compile_ownership fields owners with Ok m => m | Err _ => mkOwnership ∅ end.

Lemma mutation_source_exact_witness :
  mutation_source "cpu" "irq" 1 2 "CPU_TO_IP" map_ = Ok "fuzz" ∧ 1 + 2 ≤ 3 ∨ 3 + 1 ≤ 1.
Proof.
  destruct (mutation_source_exact map_ "cpu" "irq" 1 2 "CPU_TO_IP") as [_ H].
  destruct (H "fuzz" 3 1 "irq-group:g") as [?|?]; [vm_compute; reflexivity..| |].
  - left. split; [vm_compute; reflexivity|done].
  - right. done.
Defined.
End Example_ownership.
