(* ===== verification/Scheduler.v ===== *)
(** * The dependency scheduler

    Models [src/src/myfuzz/scenario/scheduler.py] and the part of
    [src/src/myfuzz/scenario/runner.py] that it drives step by step
    ([step_batch], [events_since], [event_count]).  The rest of the runner is
    the interface [Runner]: its operations are computations on any state [R]
    that may raise, and its observable data are functions of that state.  The
    local variables that the nested functions of [run] share are the record
    [Sched].

    A value of an output is an integer, a Boolean or a string, as in the event
    records; [int(s, 16)] is [int_16]. *)

From S2P Require Import Prelude Isa Genome Ownership.

Local Open Scope Z_scope.

(** ** Events as the runner records them *)

Inductive value : Type :=
  | VInt (z : Z)
  | VBool (b : bool)
  | VStr (s : string).

#[export] Instance value_eq_dec : EqDecision value.
Proof. solve_decision. Defined.

Definition Outputs : Type := gmap string value.

(** Python's [==]: [True == 1]. *)
Definition numeric (v : value) : value :=
  match v with VBool b => VInt (Z.b2z b) | _ => v end.
Definition outputs_equal (a b : Outputs) : bool :=
  bool_decide (numeric <$> a = numeric <$> b).

(** One record of the event log; [None] is an absent key. *)
Record Event := mkEvent {
  event_id : Z;
  event_component : option string;
  event_kind : option string;
  event_outputs : option Outputs }.

Record ConsumptionCursor := mkCursor {
  cursor_kind : string;
  cursor_event_id : option Z;
  cursor_epoch : Z;
  cursor_occurrence : Z;
  cursor_component : string;
  cursor_port : string }.

Record QuiesceResult := mkQuiesce {
  quiesce_status : string;
  quiesce_step_count : Z;
  quiesce_pending : gmap string Z;
  quiesce_uncertain : list string }.

Record SchedulerResult := mkResult {
  result_status : string;
  result_steps : Z;
  fired_actions : list string;
  pending_actions : list string;
  fired_resets : list string;
  pending_resets : list string;
  result_quiesce : option QuiesceResult;
  consumption_cursor_records : list (string * ConsumptionCursor) }.

(** ** What the scheduler needs of a runner *)

Class Runner (R : Type) : Type := {
  sessions : R → list string;
  can_reset : R → string → bool;
  ownership : R → OwnershipMap;
  local_ticks : R → gmap string Z;
  command_epoch : R → Z;
  events : R → list Event;
  failure_status : R → option string;
  preload_image : MemoryImage → M R ();
  begin_test : string → M R ();
  step : string → M R Outputs;
  reset_all : string → M R ();
  inject_source : Action → M R ();
  quiesce : Z → M R QuiesceResult;
  finalize : M R () }.

(** [event_count], [events_since] *)
Definition event_count `{Runner R} (r : R) : Z := Z.of_nat (length (events r)).
Definition events_since `{Runner R} (index : Z) (r : R) : result (list Event) :=
  raise_if ((index <? 0) || (event_count r <? index))
    (ValueError "event index is outside the recorded prefix") ;;
  mret (drop (Z.to_nat index) (events r)).

(** ** The state of one run *)

(** [pending], [fired], [counts] and [previous_match], once for the actions
    and once for the reset actions. *)
Record Track := mkTrack {
  pending : gmap string Z;
  fired : gset string;
  counts : gmap string Z;
  previous_match : gmap string bool }.

Record Sched := mkSched {
  track : bool → Track;
  selected_cursors : gmap string ConsumptionCursor;
  consumed_cursors : gmap string ConsumptionCursor;
  steps : Z;
  last_event_count : Z }.

(** Which of the two tracks. *)
Definition ACTIONS : bool := false.
Definition RESETS : bool := true.

Definition set_track (w : bool) (f : Track → Track) (s : Sched) : Sched :=
  mkSched (λ v, if decide (v = w) then f (track s v) else track s v)
    (selected_cursors s) (consumed_cursors s) (steps s) (last_event_count s).
Definition set_pending (w : bool) (f : gmap string Z → gmap string Z) : Sched → Sched :=
  set_track w (λ t, mkTrack (f (pending t)) (fired t) (counts t) (previous_match t)).
Definition set_fired (w : bool) (f : gset string → gset string) : Sched → Sched :=
  set_track w (λ t, mkTrack (pending t) (f (fired t)) (counts t) (previous_match t)).
Definition set_counts (w : bool) (f : gmap string Z → gmap string Z) : Sched → Sched :=
  set_track w (λ t, mkTrack (pending t) (fired t) (f (counts t)) (previous_match t)).
Definition set_previous (w : bool) (f : gmap string bool → gmap string bool) : Sched → Sched :=
  set_track w (λ t, mkTrack (pending t) (fired t) (counts t) (f (previous_match t))).
Definition set_selected (id : string) (c : ConsumptionCursor) (s : Sched) : Sched :=
  mkSched (track s) (<[id := c]> (selected_cursors s)) (consumed_cursors s) (steps s)
    (last_event_count s).
Definition set_consumed (id : string) (c : ConsumptionCursor) (s : Sched) : Sched :=
  mkSched (track s) (selected_cursors s) (<[id := c]> (consumed_cursors s)) (steps s)
    (last_event_count s).
Definition set_steps (n : Z) (s : Sched) : Sched :=
  mkSched (track s) (selected_cursors s) (consumed_cursors s) n (last_event_count s).
Definition set_last (n : Z) (s : Sched) : Sched :=
  mkSched (track s) (selected_cursors s) (consumed_cursors s) (steps s) n.

(** [dict[key]] *)
Definition dict_get {V} (m : gmap string V) (k : string) : result V :=
  match m !! k with Some v => Ok v | None => Err (KeyError k) end.

(** The initial dictionaries: one entry per action. *)
Definition init_track (ids : list string) : Track :=
  mkTrack ∅ ∅ (list_to_map ((λ i, (i, 0)) <$> ids)) (list_to_map ((λ i, (i, false)) <$> ids)).

(** ** What the two kinds of actions have in common *)

Definition or_else (a b : string) : string := if empty a then b else a.

(** [int(text, 16)]: surrounding spaces, a sign, a prefix and single
    underscores between digits are allowed. *)
Fixpoint hex_digits (acc : Z) (after_digit : bool) (s : string) : option Z :=
  match s with
  | EmptyString => if after_digit then Some acc else None
  | String c s' =>
      if decide (c = Ascii.ascii_of_nat 95) then
        if after_digit then match s' with
                            | EmptyString => None
                            | _ => hex_digits acc false s'
                            end
        else None
      else match hex_value c with
           | Some d => hex_digits (16 * acc + d) true s'
           | None => None
           end
  end.

(** White space of [str], within ASCII. *)
Definition str_space (c : Ascii.ascii) : bool :=
  let n := Z.of_nat (Ascii.nat_of_ascii c) in
  ((9 <=? n) && (n <=? 13)) || ((28 <=? n) && (n <=? 32)).

Fixpoint strip_left (s : string) : string :=
  match s with
  | String c s' => if str_space c then strip_left s' else s
  | EmptyString => s
  end.
Definition strip (s : string) : string :=
  String.rev (strip_left (String.rev (strip_left s))).

Definition unsigned_16 (s : string) : option Z :=
  match s with
  | String z (String x s') =>
      if bool_decide (z = Ascii.ascii_of_nat 48)
         && (bool_decide (x = Ascii.ascii_of_nat 120) || bool_decide (x = Ascii.ascii_of_nat 88))
      then match s' with
           | String u s'' => if bool_decide (u = Ascii.ascii_of_nat 95)
                             then hex_digits 0 false s'' else hex_digits 0 false s'
           | EmptyString => None
           end
      else hex_digits 0 false s
  | _ => hex_digits 0 false s
  end.

Definition int_16 (text : string) : result Z :=
  let s := strip text in
  let parsed := match s with
    | String c s' =>
        if bool_decide (c = Ascii.ascii_of_nat 45) then Z.opp <$> unsigned_16 s'
        else if bool_decide (c = Ascii.ascii_of_nat 43) then unsigned_16 s'
        else unsigned_16 s
    | EmptyString => None
    end in
  match parsed with
  | Some z => Ok z
  | None => Err (ValueError "invalid literal for int() with base 16")
  end.

(** ** The run *)

Section scheduler.
Context {R : Type} `{Runner R}.

Definition Run : Type → Type := M (R * Sched).

(** A call of the runner. *)
Definition lift {A} (m : M R A) : Run A := λ w,
  let '(r, r') := m w.1 in (r, (r', w.2)).
Definition state : Run Sched := gets snd.
Definition assign (f : Sched → Sched) : Run () := modify (λ w, (w.1, f w.2)).
Definition now (clock : string) : Run Z := reads (λ w, dict_get (local_ticks w.1) clock).

Variable genome : ScenarioGenome.

Definition first_component : result string :=
  match schedule_order genome with
  | c :: _ => Ok c
  | [] => Err (IndexError "tuple index out of range")
  end.

(** [action.delay_component or action.component] *)
Definition action_clock (a : Action) : string := or_else (delay_component a) (component a).
(** [action.delay_component or genome.schedule_order[0]] *)
Definition reset_clock (a : ResetAction) : result string :=
  if empty (reset_delay_component a) then first_component else Ok (reset_delay_component a).

(** The two loops that schedule the [START] actions. *)
Definition start_cursor (epoch : Z) : ConsumptionCursor :=
  mkCursor "START" None epoch 0 EmptyString EmptyString.
Definition start_one (w : bool) (id : string) (t : Trigger) (clock : Run string) (delay : Z)
    : Run () :=
  if bool_decide (kind t = "START") then
    clock ← clock;
    tick ← now clock;
    assign (set_pending w (<[id := tick + delay]>)) ;;
    epoch ← gets (λ w, command_epoch w.1);
    assign (set_selected id (start_cursor epoch))
  else mret ().

Definition start_actions : Run () :=
  for_eachM (λ a, start_one ACTIONS (action_id a) (trigger a) (mret (action_clock a))
                    (delay_ticks a)) (actions genome) ;;
  for_eachM (λ a, start_one RESETS (reset_id a) (reset_trigger a)
                    (reads (λ _, reset_clock a)) (reset_delay_ticks a)) (reset_actions genome).

(** [release_due] *)
Definition consume (w : bool) (id : string) : Run () :=
  assign (set_fired w (λ f, f ∪ {[id]})) ;;
  c ← reads (λ w, dict_get (selected_cursors w.2) id);
  assign (set_consumed id c) ;;
  assign (set_pending w (delete id)).

Definition release_reset (a : ResetAction) : Run () :=
  s ← state;
  match pending (track s RESETS) !! reset_id a with
  | None => mret ()
  | Some due =>
      clock ← reads (λ _, reset_clock a);
      tick ← now clock;
      if tick <? due then mret ()
      else
        lift (reset_all (policy a)) ;;
        consume RESETS (reset_id a) ;;
        assign (set_previous ACTIONS (fmap (λ _, false))) ;;
        assign (set_previous RESETS (fmap (λ _, false)))
  end.

Definition release_action (a : Action) : Run () :=
  s ← state;
  match pending (track s ACTIONS) !! action_id a with
  | None => mret ()
  | Some due =>
      tick ← now (action_clock a);
      if tick <? due then mret ()
      else
        lift (inject_source a) ;;
        consume ACTIONS (action_id a)
  end.

Definition release_due : Run () :=
  for_eachM release_reset (reset_actions genome) ;;
  for_eachM release_action (actions genome).

(** [observe_step] *)
Definition is_source_event (c : string) (e : Event) : bool :=
  bool_decide (event_component e = Some c) && bool_decide (event_kind e = None)
  && bool_decide (is_Some (event_outputs e)).
Definition is_sample (e : Event) : bool := bool_decide (event_kind e = Some "local_tick_sample").

Definition require {A} (key : string) (o : option A) : result A :=
  match o with Some a => Ok a | None => Err (KeyError key) end.

(** The outputs of a native receipt, under the names the triggers use. *)
Definition sample_outputs (o : Outputs) : result Outputs :=
  let o := match o !! "interrupt" with Some v => <["irq" := v]> o | None => o end in
  match o !! "gpio_padcfg" with
  | Some (VStr text) => z ← int_16 text; mret (<["gpio_padcfg" := VInt z]> o)
  | _ => mret o
  end.

Definition add_sampled (sampled : list string) (e : Event) : result (list string) :=
  if is_sample e then c ← require "component" (event_component e); mret (sampled ++ [c])
  else mret sampled.

Definition add_observation (c : string) (sampled : list string)
    (acc : list (Event * Outputs)) (e : Event) : result (list (Event * Outputs)) :=
  if is_sample e then
    o ← require "outputs" (event_outputs e);
    o ← sample_outputs o;
    mret (acc ++ [(e, o)])
  else if is_source_event c e && negb (has c sampled) then
    o ← require "outputs" (event_outputs e);
    mret (acc ++ [(e, o)])
  else mret acc.

Definition observations_of (c : string) (o : Outputs) (window : list Event)
    : result (list (Event * Outputs)) :=
  raise_if (match filter (λ e, is_source_event c e = true) window with
            | [e] => negb (match event_outputs e with Some oe => outputs_equal oe o | None => false end)
            | _ => true
            end) (RuntimeError "observed output has no unique source step event") ;;
  sampled ← fold_result add_sampled [] window;
  fold_result (add_observation c sampled) [] window.

(** The predicate of an [AFTER_OUTPUT] trigger on one observation. *)
Definition matches (t : Trigger) (o : Outputs) : bool :=
  match o !! source_port t with
  | Some (VInt z) => (0 <=? z) && (z &&& mask t =? Genome.value t)
  | _ => false
  end.

Definition observe_trigger (w : bool) (id : string) (t : Trigger) (clock : string) (delay : Z)
    (component : string) (event epoch : Z) (o : Outputs) : Run () :=
  s ← state;
  let tr := track s w in
  if bool_decide (id ∈ fired tr) || bool_decide (is_Some (pending tr !! id))
     || negb (bool_decide (kind t = "AFTER_OUTPUT"))
     || negb (bool_decide (source_component t = component))
  then mret ()
  else
    let matched := matches t o in
    previous ← reads (λ _, dict_get (previous_match tr) id);
    (if matched && negb previous then
       n ← reads (λ _, dict_get (counts tr) id);
       assign (set_counts w (<[id := n + 1]>)) ;;
       if n + 1 =? occurrence t then
         tick ← now clock;
         assign (set_pending w (<[id := tick + delay]>)) ;;
         assign (set_selected id
           (mkCursor "AFTER_OUTPUT" (Some event) epoch (n + 1) component (source_port t)))
       else mret ()
     else mret ()) ;;
    assign (set_previous w (<[id := matched]>)).

Definition observe_event (epoch : Z) (eo : Event * Outputs) : Run () :=
  let '(e, o) := eo in
  c ← reads (λ _, require "component" (event_component e));
  for_eachM (λ a, observe_trigger ACTIONS (action_id a) (trigger a) (action_clock a)
                    (delay_ticks a) c (event_id e) epoch o) (actions genome) ;;
  for_eachM (λ a, observe_trigger RESETS (reset_id a) (reset_trigger a)
                    (or_else (reset_delay_component a) c) (reset_delay_ticks a)
                    c (event_id e) epoch o) (reset_actions genome).

Definition remember_events : Run () :=
  n ← gets (λ w, event_count w.1);
  assign (set_last n).

Definition observe_step (component : string) (o : Outputs) : Run () :=
  window ← reads (λ w, events_since (last_event_count w.2) w.1);
  observations ← reads (λ _, observations_of component o window);
  epoch ← gets (λ w, command_epoch w.1);
  assign (λ s, set_steps (steps s + 1) s) ;;
  for_eachM (observe_event epoch) observations ;;
  release_due ;;
  remember_events.

(** [ScenarioRunner.step_batch], with [on_step = observe_step] *)
Definition step_batch (schedule : list string) : Run () :=
  check (bool_decide (schedule = [])) (ValueError "step_batch requires a nonempty component tuple") ;;
  known ← gets (λ w, sessions w.1);
  check (existsb (λ c, negb (has c known)) schedule)
    (ValueError "step_batch references unknown local harness") ;;
  for_eachM (λ c, o ← lift (step c); observe_step c o) schedule.

(** [genome.schedule_order[index % len(genome.schedule_order)]] *)
Definition scheduled (index : Z) : result string :=
  let order := schedule_order genome in
  match order !! Z.to_nat (index `mod` Z.of_nat (length order)) with
  | Some c => Ok c
  | None => Err (OtherError "integer modulo by zero")
  end.

Definition scheduled_all (first count : Z) : result (list string) :=
  fold_result (λ l i, c ← scheduled i; mret (l ++ [c])) [] (seqZ first count).

Definition run_steps : Run () :=
  for_eachM (λ index,
    c ← reads (λ _, scheduled index);
    o ← lift (step c);
    observe_step c o) (seqZ 0 (max_steps genome)).

(** The [while] loop over the batches; every batch advances [offset], so
    [max_steps] turns are enough. *)
Fixpoint run_batches (fuel : nat) (batch_sizes : list Z) (offset batch_index : Z) : Run () :=
  if negb (offset <? max_steps genome) then mret ()
  else match fuel with
  | O => raise (OtherError "out of fuel")
  | S fuel =>
      b ← reads (λ _, match batch_sizes !! Z.to_nat (batch_index `mod` Z.of_nat (length batch_sizes)) with
                      | Some b => Ok b
                      | None => Err (OtherError "integer modulo by zero")
                      end);
      let size := Z.min b (max_steps genome - offset) in
      schedule ← reads (λ _, scheduled_all offset size);
      step_batch schedule ;;
      run_batches fuel batch_sizes (offset + size) (batch_index + 1)
  end.

(** The body of the [try] statement. *)
Definition body (batch_sizes : option (list Z)) : Run (option QuiesceResult) :=
  lift (begin_test (testcase_id genome)) ;;
  release_due ;;
  remember_events ;;
  match batch_sizes with
  | None => run_steps
  | Some sizes => run_batches (Z.to_nat (max_steps genome)) sizes 0 0
  end ;;
  if negb (quiesce_steps genome =? 0) then
    q ← lift (quiesce (quiesce_steps genome));
    mret (Some q)
  else mret None.

(** The checks before the [try]. *)
Definition check_action (r : R) (a : Action) : result () :=
  raise_if (negb (bool_decide (direction a = genome_direction genome)))
    (ValueError "action direction disagrees with genome") ;;
  field ← field_width (component a) (port a) (ownership r);
  let width := default field (action_width a) in
  mutation_source (component a) (port a) (bit_offset a) width (direction a) (ownership r) ;;
  raise_if (2 ^ width <=? action_value a) (ValueError "action value exceeds selected source width").

Definition prepare (batch_sizes : option (list Z)) : Run () :=
  check (match batch_sizes with
         | Some sizes => bool_decide (sizes = []) || existsb (λ b, b <=? 0) sizes
         | None => false
         end) (ValueError "batch_sizes must be a nonempty tuple of positive integers") ;;
  reads (λ w, raise_if (negb (bool_decide
    (list_to_set (C:=gset string) (schedule_order genome) = list_to_set (sessions w.1))))
    (ValueError "schedule_order must contain every local harness")) ;;
  reads (λ w, for_each (check_action w.1) (actions genome)) ;;
  reads (λ w, if bool_decide (reset_actions genome = []) then Ok ()
              else for_each (λ c, raise_if (negb (can_reset w.1 c))
                     (ValueError ("local harness " +:+ c +:+ " cannot reset"))) (sessions w.1)) ;;
  for_eachM (λ i, lift (preload_image i)) (initial_images genome).

Definition initial_sched : Sched :=
  mkSched (λ w, if w then init_track (reset_id <$> reset_actions genome)
                else init_track (action_id <$> actions genome)) ∅ ∅ 0 0.

Definition fired_ids (w : bool) (s : Sched) (ids : list string) : list string :=
  filter (λ i, i ∈ fired (track s w)) ids.
Definition unfired_ids (w : bool) (s : Sched) (ids : list string) : list string :=
  filter (λ i, i ∉ fired (track s w)) ids.

(** The result of a run that ended in [s]. *)
Definition summary (s : Sched) (q : option QuiesceResult) (failure : option string)
    : SchedulerResult :=
  let ids := action_id <$> actions genome in
  let reset_ids := reset_id <$> reset_actions genome in
  let path_complete :=
    (Z.of_nat (base.size (fired (track s ACTIONS))) =? Z.of_nat (length ids))
    && (Z.of_nat (base.size (fired (track s RESETS))) =? Z.of_nat (length reset_ids)) in
  let status := if path_complete then "complete" else "path_incomplete" in
  let status := match q with
                | Some q => if bool_decide (quiesce_status q = "drained") then status
                            else quiesce_status q
                | None => status
                end in
  mkResult (default status failure) (steps s)
    (fired_ids ACTIONS s ids) (unfired_ids ACTIONS s ids)
    (fired_ids RESETS s reset_ids) (unfired_ids RESETS s reset_ids) q
    (omap (λ i, (i,.) <$> consumed_cursors s !! i) (ids ++ reset_ids)).

(** [DependencyScheduler.run] *)
Definition run (batch_sizes : option (list Z)) : M R SchedulerResult := λ r,
  match (prepare batch_sizes ;; start_actions) (r, initial_sched) with
  | (Err e, (r, _)) => (Err e, r)
  | (Ok _, w) =>
      let '(outcome, (r, s)) := body batch_sizes w in
      let failure := match outcome with
        | Ok _ => None
        | Err _ => Some (let f := default EmptyString (failure_status r) in
                         or_else f "environment_error")
        end in
      match finalize r with
      | (Err e, r) => (Err e, r)
      | (Ok _, r) =>
          let failure := match failure_status r with
            | Some f => if empty f then failure else Some f
            | None => failure
            end in
          (Ok (summary s (match outcome with Ok q => q | Err _ => None end) failure), r)
      end
  end.
End scheduler.
