(* ===== verification/SchedulerSpec.v ===== *)
(** * What the scheduler guarantees

    Theorems about [Scheduler.run], for every runner.  A rule for the whole run
    ([body_rule]) reduces an invariant of a run to its elementary steps; it is
    used three times: for the identities of the consumed source events, for
    the order and uniqueness of the injections (over a runner that also keeps
    a log), and for batching. *)

From S2P Require Import Prelude Isa Genome Ownership Scheduler.

Local Open Scope Z_scope.

(** ** The rule of a run *)

Section rule.
Context {R : Type} `{Runner R} (genome : ScenarioGenome).
Abbreviation World := (R * Sched)%type.

(** One turn of the unbatched loop, and its second half. *)
Definition turn_on (c : string) : Run () := o ← lift (step c); observe_step genome c o.
Definition turn (index : Z) : Run () := c ← reads (λ _, scheduled genome index); turn_on c.

(** [I] holds between turns, [IS] after a step of a harness, [E] of the state a
    raise leaves. *)
Record elementary (I IS E : World → Prop) : Prop := {
  el_error w : I w → E w;
  el_error_stepped w : IS w → E w;
  el_stepped w : IS w → I w;
  el_step c : triple I (lift (step c)) (λ _, IS) E;
  el_counter w n : IS w → IS (w.1, set_steps n w.2);
  el_last w n : I w → I (w.1, set_last n w.2);
  el_observe_action a c e epoch o : a ∈ actions genome →
    triple IS (observe_trigger ACTIONS (action_id a) (trigger a) (action_clock a)
                 (delay_ticks a) c e epoch o) (λ _, IS) E;
  el_observe_reset a c e epoch o : a ∈ reset_actions genome →
    triple IS (observe_trigger RESETS (reset_id a) (reset_trigger a)
                 (or_else (reset_delay_component a) c) (reset_delay_ticks a) c e epoch o)
      (λ _, IS) E;
  el_release_reset a : a ∈ reset_actions genome → triple I (release_reset genome a) (λ _, I) E;
  el_release_action a : a ∈ actions genome → triple I (release_action a) (λ _, I) E;
  el_quiesce n : triple I (lift (quiesce n)) (λ _, I) E }.

Context (I IS E : World → Prop) (el : elementary I IS E).

Lemma release_rule : triple I (release_due genome) (λ _, I) E.
Proof.
  apply triple_bind with (Q := λ _, I); [|intros _].
  - apply triple_for_each, (el_release_reset _ _ _ el).
  - apply triple_for_each, (el_release_action _ _ _ el).
Qed.

Lemma remember_rule : triple I remember_events (λ _, I) E.
Proof. intros w Hw. cbn. by apply (el_last _ _ _ el (w.1, w.2)); destruct w. Qed.

Lemma observe_event_rule epoch eo : triple IS (observe_event genome epoch eo) (λ _, IS) E.
Proof.
  destruct eo as [e o]. unfold observe_event.
  apply triple_bind with (Q := λ _, IS).
  { eapply triple_conseq; [apply triple_reads, (el_error_stepped _ _ _ el)|done|by intros ?? []|done]. }
  intros c. apply triple_bind with (Q := λ _, IS); [|intros _]; apply triple_for_each.
  - intros a. apply (el_observe_action _ _ _ el).
  - intros a. apply (el_observe_reset _ _ _ el).
Qed.

Lemma observe_step_rule c o : triple IS (observe_step genome c o) (λ _, I) E.
Proof.
  assert (Hreads : ∀ A (f : World → result A), triple IS (reads f) (λ _, IS) E).
  { intros A f. eapply triple_conseq;
      [apply triple_reads, (el_error_stepped _ _ _ el)|done|by intros ?? []|done]. }
  unfold observe_step. apply triple_bind with (Q := λ _, IS); [apply Hreads|intros window].
  apply triple_bind with (Q := λ _, IS); [apply Hreads|intros obs].
  apply triple_bind with (Q := λ _, IS); [by intros w|intros epoch].
  apply triple_bind with (Q := λ _, IS).
  { intros w Hw. apply (el_counter _ _ _ el (w.1, w.2)); by destruct w. }
  intros _. apply triple_bind with (Q := λ _, IS).
  { apply triple_for_each. intros eo _. apply observe_event_rule. }
  intros _. apply triple_bind with (Q := λ _, I); [|intros _; apply remember_rule].
  eapply triple_conseq; [apply release_rule|apply (el_stepped _ _ _ el)|done|done].
Qed.

Lemma turn_on_rule c : triple I (turn_on c) (λ _, I) E.
Proof.
  apply triple_bind with (Q := λ _, IS); [apply (el_step _ _ _ el)|].
  intros o. apply observe_step_rule.
Qed.

Lemma turn_rule index : triple I (turn index) (λ _, I) E.
Proof.
  apply triple_bind with (Q := λ _, I); [|apply turn_on_rule].
  eapply triple_conseq; [apply triple_reads, (el_error _ _ _ el)|done|by intros ?? []|done].
Qed.

Lemma step_batch_rule l : triple I (step_batch genome l) (λ _, I) E.
Proof.
  assert (Hcheck : ∀ b e, triple I (check b e) (λ _, I) E).
  { intros b e w Hw. unfold check, reads. destruct b; [by apply (el_error _ _ _ el)|done]. }
  unfold step_batch. apply triple_bind with (Q := λ _, I); [apply Hcheck|intros _].
  apply triple_bind with (Q := λ _, I); [by intros w|intros known].
  apply triple_bind with (Q := λ _, I); [apply Hcheck|intros _].
  apply triple_for_each. intros c _. apply turn_on_rule.
Qed.

Lemma run_batches_rule fuel sizes offset index :
  triple I (run_batches genome fuel sizes offset index) (λ _, I) E.
Proof.
  assert (Hreads : ∀ A (f : World → result A), triple I (reads f) (λ _, I) E).
  { intros A f. eapply triple_conseq;
      [apply triple_reads, (el_error _ _ _ el)|done|by intros ?? []|done]. }
  revert offset index. induction fuel as [|fuel IH]; intros offset index; cbn;
    (case_match; [by intros w|]).
  { apply triple_raise, (el_error _ _ _ el). }
  apply triple_bind with (Q := λ _, I); [apply Hreads|intros b].
  apply triple_bind with (Q := λ _, I); [apply Hreads|intros l].
  apply triple_bind with (Q := λ _, I); [apply step_batch_rule|intros _; apply IH].
Qed.

(** A run of the body, from its test's beginning. *)
Lemma body_rule (I0 : World → Prop) sizes :
  triple I0 (lift (begin_test (testcase_id genome))) (λ _, I) E →
  triple I0 (body genome sizes) (λ _, I) E.
Proof.
  intros Hbegin. unfold body. apply triple_bind with (Q := λ _, I); [done|intros _].
  apply triple_bind with (Q := λ _, I); [apply release_rule|intros _].
  apply triple_bind with (Q := λ _, I); [apply remember_rule|intros _].
  apply triple_bind with (Q := λ _, I); [|intros _; case_match; [|by intros w]].
  - destruct sizes as [sizes|]; [apply run_batches_rule|].
    apply triple_for_each. intros index _. apply (turn_rule index).
  - apply triple_bind with (Q := λ _, I); [apply (el_quiesce _ _ _ el)|]. by intros q w.
Qed.
End rule.

(** ** Batching *)

(** No operation adds or removes a harness. *)
Class SessionsFixed (R : Type) `{Runner R} : Prop := {
  step_sessions c r : sessions (step c r).2 = sessions r;
  reset_sessions p r : sessions (reset_all p r).2 = sessions r;
  inject_sessions a r : sessions (inject_source a r).2 = sessions r;
  preload_sessions i r : sessions (preload_image i r).2 = sessions r;
  begin_sessions t r : sessions (begin_test t r).2 = sessions r;
  quiesce_sessions n r : sessions (quiesce n r).2 = sessions r }.

Section batching.
Context {R : Type} `{SessionsFixed R} (genome : ScenarioGenome).
Abbreviation World := (R * Sched)%type.

Definition known (w : World) : list string := sessions w.1.

Lemma lift_known {A} (m : M R A) :
  (∀ r, sessions (m r).2 = sessions r) → preserves known (lift m).
Proof. intros Hm [r s]. unfold lift, known. cbn. specialize (Hm r). by destruct (m r). Qed.

Ltac known_op :=
  first [ apply lift_known; intros; first [apply step_sessions | apply reset_sessions
        | apply inject_sessions | apply preload_sessions | apply begin_sessions
        | apply quiesce_sessions ] ].

Lemma observe_trigger_known u id t clock delay c e epoch o :
  preserves known (observe_trigger u id t clock delay c e epoch o).
Proof. unfold observe_trigger, state, assign, now. solve_preserves known_op. Qed.

Lemma observe_step_known c o : preserves known (observe_step genome c o).
Proof.
  unfold observe_step, observe_event, release_due, release_reset, release_action, consume,
    remember_events, state, assign, now.
  solve_preserves ltac:(first [known_op | apply observe_trigger_known]).
Qed.

Lemma turn_on_known c : preserves known (turn_on genome c).
Proof. unfold turn_on. solve_preserves ltac:(first [known_op | apply observe_step_known]). Qed.

Lemma prepare_known sizes : preserves known (prepare genome sizes).
Proof. unfold prepare. solve_preserves known_op. Qed.

Lemma start_known : preserves known (start_actions genome).
Proof. unfold start_actions, start_one, assign, now. solve_preserves known_op. Qed.

(** *** The schedule of a batch *)

Definition component_at (index : Z) : string :=
  default EmptyString
    (schedule_order genome !! Z.to_nat (index `mod` Z.of_nat (length (schedule_order genome)))).

Lemma scheduled_Ok index :
  schedule_order genome ≠ [] →
  scheduled genome index = Ok (component_at index) ∧ component_at index ∈ schedule_order genome.
Proof.
  intros Hne. unfold scheduled, component_at. set (n := Z.of_nat (length (schedule_order genome))).
  assert (0 < n) by (destruct (schedule_order genome); [done|cbn in *; lia]).
  pose proof (Z.mod_pos_bound index n ltac:(done)).
  destruct (lookup_lt_is_Some_2 (schedule_order genome) (Z.to_nat (index `mod` n))) as [c Hc]; [lia|].
  rewrite Hc. split; [done|]. cbn. by eapply list_elem_of_lookup_2.
Qed.

Lemma scheduled_all_Ok first count :
  schedule_order genome ≠ [] → scheduled_all genome first count = Ok (component_at <$> seqZ first count).
Proof.
  intros Hne. unfold scheduled_all.
  enough (Hg : ∀ l acc, fold_result (λ l i, c ← scheduled genome i; mret (l ++ [c])) acc l =
    Ok (acc ++ (component_at <$> l))) by apply Hg.
  induction l as [|i l IH]; intros acc; cbn; [by rewrite app_nil_r|].
  rewrite (proj1 (scheduled_Ok i Hne)). cbn. rewrite IH. by rewrite <- (assoc_L (++)).
Qed.

Lemma turn_at i w :
  schedule_order genome ≠ [] → turn genome i w = turn_on genome (component_at i) w.
Proof.
  intros Hne. unfold turn, mbind, M_bind, reads. by rewrite (proj1 (scheduled_Ok i Hne)).
Qed.

Lemma for_turns l w :
  schedule_order genome ≠ [] →
  for_eachM (turn_on genome) (component_at <$> l) w = for_eachM (turn genome) l w.
Proof.
  intros Hne. revert w. induction l as [|i l IH]; intros w; [done|].
  cbn. unfold mbind, M_bind. rewrite turn_at by done.
  destruct (turn_on genome (component_at i) w) as [[a|e] w']; [apply IH|done].
Qed.

Lemma turns_known l : preserves known (for_eachM (turn genome) l).
Proof.
  apply preserves_for_each. intros i. unfold turn.
  solve_preserves ltac:(apply turn_on_known).
Qed.

Lemma step_batch_turns offset size w :
  schedule_order genome ≠ [] → (∀ c, c ∈ schedule_order genome → c ∈ known w) → 0 < size →
  step_batch genome (component_at <$> seqZ offset size) w = for_eachM (turn genome) (seqZ offset size) w.
Proof.
  intros Hne Hk Hs. rewrite <- for_turns by done. unfold step_batch.
  unfold check, gets, reads, mbind, M_bind. rewrite bool_decide_eq_false_2.
  2: { rewrite seqZ_cons by done. discriminate. }
  cbn [raise_if]. replace (existsb _ _) with false; [done|].
  symmetry. apply not_true_iff_false. intros (c & Hc & Hn)%existsb_exists.
  apply list_elem_of_In, list_elem_of_fmap in Hc as (i & -> & _).
  unfold has in Hn. rewrite bool_decide_eq_true_2 in Hn; [done|]. by apply Hk, scheduled_Ok.
Qed.

Lemma run_batches_turns fuel sizes offset index w :
  schedule_order genome ≠ [] → (∀ c, c ∈ schedule_order genome → c ∈ known w) →
  sizes ≠ [] → Forall (λ b, 0 < b) sizes → max_steps genome - offset ≤ Z.of_nat fuel →
  run_batches genome fuel sizes offset index w =
  for_eachM (turn genome) (seqZ offset (max_steps genome - offset)) w.
Proof.
  intros Hne Hk Hsz Hpos. revert offset index w Hk.
  induction fuel as [|fuel IH]; intros offset index w Hk Hf; cbn; destruct (Z.ltb_spec offset (max_steps genome)).
  all: try lia.
  1,3: by rewrite seqZ_nil by lia.
  set (n := Z.of_nat (length sizes)). assert (0 < n) by (destruct sizes; [done|cbn in *; lia]).
  pose proof (Z.mod_pos_bound index n ltac:(done)).
  destruct (lookup_lt_is_Some_2 sizes (Z.to_nat (index `mod` n))) as [b Hb]; [lia|].
  assert (0 < b) by (rewrite Forall_forall in Hpos; by eapply Hpos, list_elem_of_lookup_2).
  unfold mbind, M_bind, reads. cbn. rewrite Hb. set (size := Z.min b (max_steps genome - offset)).
  rewrite scheduled_all_Ok, step_batch_turns by (done || lia).
  replace (max_steps genome - offset) with (size + (max_steps genome - (offset + size))) by lia.
  rewrite (seqZ_app offset size) by lia. rewrite for_eachM_app. unfold mbind, M_bind.
  pose proof (turns_known (seqZ offset size) w) as Hw.
  destruct (for_eachM _ (seqZ offset size) w) as [[[]|e] w'] eqn:Hrun; [|done].
  apply IH; [|lia]. unfold known in *. cbn in Hw. rewrite Hw. done.
Qed.

Lemma release_known : preserves known (release_due genome).
Proof.
  unfold release_due, release_reset, release_action, consume, state, assign, now.
  solve_preserves known_op.
Qed.

Lemma remember_known : preserves known remember_events.
Proof. unfold remember_events, assign. solve_preserves known_op. Qed.

(** Equal operations after an operation that keeps the sessions. *)
Lemma bind_known_ext {A B} (m : Run A) (f g : A → Run B) w :
  preserves known m → (∀ a w', known w' = known w → f a w' = g a w') →
  (m ≫= f) w = (m ≫= g) w.
Proof.
  intros Hm Hfg. specialize (Hm w). unfold mbind, M_bind.
  destruct (m w) as [[a|e] w']; cbn in *; [by apply Hfg|done].
Qed.

Lemma body_batches sizes w :
  schedule_order genome ≠ [] → (∀ c, c ∈ schedule_order genome → c ∈ known w) →
  sizes ≠ [] → Forall (λ b, 0 < b) sizes →
  body genome (Some sizes) w = body genome None w.
Proof.
  intros Hne Hk Hsz Hpos. unfold body.
  apply bind_known_ext; [known_op|intros [] w1 H1].
  apply bind_known_ext; [apply release_known|intros [] w2 H2].
  apply bind_known_ext; [apply remember_known|intros [] w3 H3].
  unfold mbind, M_bind. rewrite run_batches_turns; try done; [|rewrite H3, H2, H1; done|lia].
  by rewrite Z.sub_0_r.
Qed.

Lemma prepare_Ok sizes w w' :
  prepare genome sizes w = (Ok (), w') → ∀ c, c ∈ schedule_order genome → c ∈ known w'.
Proof.
  intros Hp c Hc. pose proof (prepare_known sizes w) as Hk. rewrite Hp in Hk. cbn in Hk. rewrite Hk.
  unfold prepare in Hp. apply M_bind_Ok in Hp as ([] & w1 & H1 & Hp).
  assert (w1 = w) as -> by (unfold check, reads in H1; congruence).
  apply M_bind_Ok in Hp as ([] & w2 & H2 & _). unfold reads in H2.
  injection H2 as H2 ->. inv_Ok.
  unfold known. rewrite <- (elem_of_list_to_set (C:=gset string)).
  match goal with H : list_to_set _ = list_to_set _ |- _ => rewrite <- H end.
  by apply elem_of_list_to_set.
Qed.

(** C18.  Batching is invisible.  For any runner whose set of harnesses does not
    change, running a testcase in batches of any positive sizes gives the very
    result of running it step by step: the same status, steps, fired actions
    and consumption cursors (or the same exception), and the same final runner. *)
Theorem batching_is_invisible sizes r :
  schedule_order genome ≠ [] → sizes ≠ [] → Forall (λ b, 0 < b) sizes →
  run genome (Some sizes) r = run genome None r.
Proof.
  intros Hne Hsz Hpos. unfold run.
  assert (Hprep : ∀ w, prepare genome (Some sizes) w = prepare genome None w).
  { intros w. unfold prepare at 1. rewrite (bool_decide_eq_false_2 (sizes = [])) by done.
    replace (existsb _ sizes) with false; [done|]. symmetry. apply not_true_iff_false.
    intros (b & Hb & ?)%existsb_exists. rewrite Forall_forall in Hpos.
    apply list_elem_of_In, Hpos in Hb. lia. }
  unfold mbind, M_bind. rewrite Hprep.
  destruct (prepare genome None (r, initial_sched genome)) as [[[]|e] w] eqn:Hp; [|done].
  pose proof (start_known w) as Hs. pose proof (prepare_Ok _ _ _ Hp) as Hk.
  destruct (start_actions genome w) as [[[]|e] w1] eqn:Hstart; [|done].
  by rewrite body_batches by (try done; unfold known in *; cbn in Hs; rewrite Hs; done).
Qed.
End batching.

(** ** What one elementary operation does to the scheduler's variables *)

(** Equality but for counters, previous matches and cursors into the log. *)
Record same_core (s s' : Sched) : Prop := {
  sc_pending w : pending (track s' w) = pending (track s w);
  sc_fired w : fired (track s' w) = fired (track s w);
  sc_selected : selected_cursors s' = selected_cursors s;
  sc_consumed : consumed_cursors s' = consumed_cursors s }.

Definition selects (s : Sched) (w : bool) (id : string) (due : Z) (c : ConsumptionCursor) : Sched :=
  set_selected id c (set_pending w (<[id := due]>) s).
Definition consumes (s : Sched) (w : bool) (id : string) (c : ConsumptionCursor) : Sched :=
  set_pending w (delete id) (set_consumed id c (set_fired w (λ f, f ∪ {[id]}) s)).

Lemma same_core_refl s : same_core s s.
Proof. by split. Qed.
Lemma same_core_trans s1 s2 s3 : same_core s1 s2 → same_core s2 s3 → same_core s1 s3.
Proof. intros [] []. split; congruence. Qed.
Lemma same_core_counts s w f : same_core s (set_counts w f s).
Proof. split; [intros v; cbn; by case_decide; subst..|done|done]. Qed.
Lemma same_core_previous s w f : same_core s (set_previous w f s).
Proof. split; [intros v; cbn; by case_decide; subst..|done|done]. Qed.
Lemma same_core_selects s s' w id due c :
  same_core s s' → same_core (selects s w id due c) (selects s' w id due c).
Proof. intros [Hp Hf Hs Hc]. split; cbn; [intros v; case_decide; subst; cbn; congruence..|congruence|congruence]. Qed.

Lemma pending_selects s w id due c w' :
  pending (track (selects s w id due c) w') =
  if decide (w' = w) then <[id := due]> (pending (track s w')) else pending (track s w').
Proof. cbn. by case_decide. Qed.
Lemma fired_selects s w id due c w' : fired (track (selects s w id due c) w') = fired (track s w').
Proof. cbn. by case_decide. Qed.
Lemma pending_consumes s w id c w' :
  pending (track (consumes s w id c) w') =
  if decide (w' = w) then delete id (pending (track s w')) else pending (track s w').
Proof. cbn. by case_decide. Qed.
Lemma fired_consumes s w id c w' :
  fired (track (consumes s w id c) w') =
  if decide (w' = w) then fired (track s w') ∪ {[id]} else fired (track s w').
Proof. cbn. by case_decide. Qed.

#[local] Hint Resolve same_core_refl same_core_counts same_core_previous same_core_selects : core.

Section outcomes.
Context {R : Type} `{Runner R} (genome : ScenarioGenome).
Abbreviation World := (R * Sched)%type.

(** The cursor an observed occurrence leaves. *)
Definition observed_cursor (t : Trigger) (event epoch : Z) : ConsumptionCursor :=
  mkCursor "AFTER_OUTPUT" (Some event) epoch (occurrence t) (source_component t) (source_port t).

Lemma observe_outcome u id t clock delay c e epoch o r s :
  let w' := (observe_trigger u id t clock delay c e epoch o (r, s) : result () * World).2 in
  w'.1 = r ∧
  (same_core s w'.2 ∨
   (∃ tick, local_ticks r !! clock = Some tick ∧ kind t = "AFTER_OUTPUT" ∧
     (id ∉ fired (track s u)) ∧ pending (track s u) !! id = None ∧
     same_core (selects s u id (tick + delay) (observed_cursor t e epoch)) w'.2)).
Proof.
  unfold observe_trigger, state, gets, reads, mbind, M_bind; cbn -[assign now].
  destruct (_ || _) eqn:Hskip; [by split; [|left]|]. inv_Ok.
  destruct (dict_get (previous_match _) id) as [p|] eqn:Hp; cbn -[assign now]; [|by split; [|left]].
  destruct (matches t o && negb p); cbn -[assign now]; [|by split; [|left; cbn; auto]].
  destruct (dict_get (counts _) id) as [n|] eqn:Hn; cbn -[assign now]; [|by split; [|left]].
  destruct (Z.eqb_spec (n + 1) (occurrence t)) as [Hocc|]; cbn -[now dict_get].
  2: { split; [done|left]. eapply same_core_trans; [apply same_core_counts|apply same_core_previous]. }
  unfold now, reads, dict_get. cbn.
  destruct (local_ticks r !! clock) as [tick|] eqn:Htick; cbn; [|split; [done|left; auto]].
  split; [done|right]. exists tick. split_and!; [done|done|done| |].
  - match goal with H : ¬ is_Some _ |- _ => by apply eq_None_not_Some in H end.
  - unfold observed_cursor. rewrite Hocc. match goal with H : source_component t = c |- _ => rewrite H end.
    eapply same_core_trans; [|apply same_core_previous].
    apply (same_core_selects s (set_counts u (<[id:=occurrence t]>) s)). auto.
Qed.

Lemma consume_Ok w id c r s :
  selected_cursors s !! id = Some c →
  (consume w id (r, s) : result () * World) = (Ok (), (r, consumes s w id c)).
Proof.
  intros Hc. unfold consume, assign, modify, reads, mbind, M_bind. cbn.
  unfold dict_get. by rewrite Hc.
Qed.

Lemma release_action_outcome a r s c :
  (is_Some (pending (track s ACTIONS) !! action_id a) → selected_cursors s !! action_id a = Some c) →
  let out : result () * World := release_action a (r, s) in
  out.2 = (r, s) ∨
  ∃ tick due, local_ticks r !! action_clock a = Some tick ∧
    pending (track s ACTIONS) !! action_id a = Some due ∧ due ≤ tick ∧
    out.2 = ((inject_source a r).2,
             if is_Ok out.1 then consumes s ACTIONS (action_id a) c else s).
Proof.
  intros Hc. unfold release_action, state, gets, mbind, M_bind. cbn -[now lift consume].
  destruct (pending _ !! action_id a) as [due|] eqn:Hp; [|by left].
  unfold now, reads, dict_get. cbn -[lift consume].
  destruct (local_ticks r !! action_clock a) as [tick|] eqn:Ht; [|by left].
  destruct (Z.ltb_spec tick due); [by left|]. right. exists tick, due.
  split_and!; [done..|]. unfold lift. cbn -[consume].
  destruct (inject_source a r) as [[[]|e] r'] eqn:Hi; [|done].
  by rewrite (consume_Ok _ _ c) by eauto.
Qed.

Lemma release_reset_outcome a r s c :
  (is_Some (pending (track s RESETS) !! reset_id a) → selected_cursors s !! reset_id a = Some c) →
  let out : result () * World := release_reset genome a (r, s) in
  out.2 = (r, s) ∨
  ∃ due, pending (track s RESETS) !! reset_id a = Some due ∧
    out.2.1 = (reset_all (policy a) r).2 ∧
    same_core (if is_Ok out.1 then consumes s RESETS (reset_id a) c else s) out.2.2.
Proof.
  intros Hc. unfold release_reset, state, gets, mbind, M_bind. cbn -[now lift consume assign].
  destruct (pending _ !! reset_id a) as [due|] eqn:Hp; [|by left].
  unfold reads. destruct (reset_clock genome a) as [clock|]; cbn -[now lift consume assign]; [|by left].
  unfold now, reads, dict_get. cbn -[lift consume assign].
  destruct (local_ticks r !! clock) as [tick|] eqn:Ht; [|by left].
  destruct (Z.ltb_spec tick due); [by left|]. right. exists due.
  unfold lift. cbn -[consume assign].
  destruct (reset_all (policy a) r) as [[[]|e] r'] eqn:Hi; [|split_and!; cbn; auto].
  rewrite (consume_Ok _ _ c) by eauto. split_and!; [done..|].
  eapply same_core_trans; apply same_core_previous.
Qed.
End outcomes.

(** ** From the start to the summary *)

Section runs.
Context {R : Type} `{Runner R} (genome : ScenarioGenome).
Abbreviation World := (R * Sched)%type.

Lemma start_outcome u id t clock delay r s :
  readonly clock →
  let w' := (start_one u id t clock delay (r, s) : result () * World).2 in
  w' = (r, s) ∨
  ∃ c tick, (clock (r, s)).1 = Ok c ∧ local_ticks r !! c = Some tick ∧ kind t = "START" ∧
    w' = (r, selects s u id (tick + delay) (start_cursor (command_epoch r))).
Proof.
  intros Hro. unfold start_one. case_bool_decide as Hk; [|by left].
  unfold now, reads, gets, assign, modify, dict_get, mbind, M_bind. pose proof (Hro (r, s)) as Hc.
  destruct (clock (r, s)) as [[c|e] w1]; cbn in Hc; subst; [|by left]. cbn -[selects].
  destruct (local_ticks r !! c) as [tick|] eqn:Ht; [|by left].
  right. by exists c, tick.
Qed.

Lemma prepare_sched sizes : preserves snd (prepare genome sizes).
Proof.
  unfold prepare. solve_preserves ltac:(idtac; match goal with |- preserves _ (lift _) =>
    intros [r s]; unfold lift; cbn; by destruct (preload_image _ r) end).
Qed.

(** What is left of a run that got past the checks. *)
Definition conclude (sizes : option (list Z)) (w : World) : M R SchedulerResult := λ _,
  let '(outcome, (r, s)) := body genome sizes w in
  let failure := match outcome with
    | Ok _ => None
    | Err _ => Some (let f := default EmptyString (failure_status r) in
                     or_else f "environment_error")
    end in
  match finalize r with
  | (Err e, r) => (Err e, r)
  | (Ok _, r) =>
      let failure := match failure_status r with
        | Some f => if empty f then failure else Some f
        | None => failure
        end in
      (Ok (summary genome s (match outcome with Ok q => q | Err _ => None end) failure), r)
  end.

Lemma run_cases sizes r :
  (∃ e w, prepare genome sizes (r, initial_sched genome) = (Err e, w) ∧
     run genome sizes r = (Err e, w.1)) ∨
  ∃ r0, prepare genome sizes (r, initial_sched genome) = (Ok (), (r0, initial_sched genome)) ∧
    ((∃ e w, start_actions genome (r0, initial_sched genome) = (Err e, w) ∧
        run genome sizes r = (Err e, w.1)) ∨
     ∃ w, start_actions genome (r0, initial_sched genome) = (Ok (), w) ∧
       run genome sizes r = conclude sizes w r).
Proof.
  unfold run, mbind, M_bind.
  pose proof (prepare_sched sizes (r, initial_sched genome)) as Hs.
  destruct (prepare _ _ _) as [[[]|e] [r0 s0]]; cbn in Hs; subst; [right|left; by exists e, (r0, initial_sched genome)].
  exists r0. split; [done|]. cbv beta iota.
  destruct (start_actions _ _) as [[[]|e] [r1 s1]]; [right|left; by exists e, (r1, s1)].
  by exists (r1, s1).
Qed.
End runs.

(** ** The identity of what fired *)

Section identity.
Context {R : Type} `{Runner R} (genome : ScenarioGenome).
Abbreviation World := (R * Sched)%type.

(** The trigger declared for an identity, among the actions or the resets. *)
Definition declared (w : bool) (id : string) (t : Trigger) : Prop :=
  if w then ∃ a, a ∈ reset_actions genome ∧ reset_id a = id ∧ reset_trigger a = t
  else ∃ a, a ∈ actions genome ∧ action_id a = id ∧ trigger a = t.

(** The cursor names the occurrence the trigger asked for. *)
Definition cursor_ok (t : Trigger) (c : ConsumptionCursor) : Prop :=
  (kind t = "START" ∧ cursor_kind c = "START" ∧ cursor_event_id c = None) ∨
  (kind t = "AFTER_OUTPUT" ∧ cursor_kind c = "AFTER_OUTPUT" ∧ is_Some (cursor_event_id c) ∧
  cursor_occurrence c = occurrence t ∧ cursor_component c = source_component t ∧
  cursor_port c = source_port t).

Definition all_ids : list string :=
  (action_id <$> actions genome) ++ (reset_id <$> reset_actions genome).

Record sched_ok (s : Sched) : Prop := {
  so_pending w id : is_Some (pending (track s w) !! id) →
    (id ∉ fired (track s w)) ∧
    ∃ t c, declared w id t ∧ selected_cursors s !! id = Some c ∧ cursor_ok t c;
  so_fired w id : id ∈ fired (track s w) →
    ∃ t c, declared w id t ∧ consumed_cursors s !! id = Some c ∧ cursor_ok t c;
  so_consumed id : is_Some (consumed_cursors s !! id) → ∃ w, id ∈ fired (track s w) }.

Lemma declared_id w id t : declared w id t →
  id ∈ (if w then reset_id <$> reset_actions genome else action_id <$> actions genome).
Proof. destruct w; intros (a & Ha & <- & _); by apply list_elem_of_fmap_2. Qed.

Lemma declared_same w w' id t t' :
  NoDup all_ids → declared w id t → declared w' id t' → w = w'.
Proof.
  intros (_ & Hd & _)%NoDup_app H1%declared_id H2%declared_id.
  destruct w, w'; try done; exfalso; by apply (Hd id).
Qed.

Lemma sched_ok_core s s' : same_core s s' → sched_ok s → sched_ok s'.
Proof.
  intros [Hp Hf Hs Hc] [H1 H2 H3]. split.
  - intros w id. rewrite Hp, Hf, Hs. apply H1.
  - intros w id. rewrite Hf, Hc. apply H2.
  - intros id. rewrite Hc. intros [w Hw]%H3. exists w. by rewrite Hf.
Qed.

Lemma sched_ok_selects s w id t due c :
  NoDup all_ids → sched_ok s → declared w id t → id ∉ fired (track s w) → cursor_ok t c →
  sched_ok (selects s w id due c).
Proof.
  intros Hnd [H1 H2 H3] Hdec Hnf Hcur. split.
  - intros w' id'. rewrite pending_selects, fired_selects. intros Hpend.
    change (selected_cursors _) with (<[id := c]> (selected_cursors s)).
    destruct (decide (id' = id)) as [->|Hne].
    + assert (w' = w) as ->.
      { case_decide; [done|]. destruct (H1 w' id Hpend) as (_ & t' & _ & Hd' & _).
        by apply (declared_same _ _ id t' t). }
      split; [done|]. exists t, c. by rewrite lookup_insert_eq.
    + rewrite lookup_insert_ne by done. apply H1. case_decide; [|done].
      by rewrite lookup_insert_ne in Hpend.
  - intros w' id'. rewrite fired_selects. apply H2.
  - intros id' [w' Hw']%H3. exists w'. by rewrite fired_selects.
Qed.

Lemma sched_ok_consumes s w id c :
  NoDup all_ids → sched_ok s → is_Some (pending (track s w) !! id) →
  selected_cursors s !! id = Some c → sched_ok (consumes s w id c).
Proof.
  intros Hnd [H1 H2 H3] Hpend Hsel. destruct (H1 _ _ Hpend) as (Hnf & t & c' & Hdec & Hsel' & Hcur).
  assert (c' = c) as -> by congruence.
  split; [intros w' id'|intros w' id'|intros id'].
  - rewrite pending_consumes, fired_consumes. intros Hp.
    change (selected_cursors _) with (selected_cursors s). case_decide as Hw; [|by apply H1].
    apply lookup_delete_is_Some in Hp as [Hne Hp]. destruct (H1 _ _ Hp) as [Hn Hr].
    split; [|done]. intros [?|Hs%elem_of_singleton]%elem_of_union; [done|congruence].
  - rewrite fired_consumes. intros Hf.
    change (consumed_cursors _) with (<[id := c]> (consumed_cursors s)).
    destruct (decide (id' = id)) as [->|Hne].
    + exists t, c. rewrite lookup_insert_eq. split_and!; [|done|done].
      case_decide as Hw; [by subst|]. destruct (H2 _ _ Hf) as (t' & _ & Hd' & _).
      by rewrite (declared_same w' w id t' t).
    + rewrite lookup_insert_ne by done. apply H2. case_decide; [|done].
      apply elem_of_union in Hf as [Hf|Hf%elem_of_singleton]; [by subst|done].
  - change (consumed_cursors _) with (<[id := c]> (consumed_cursors s)). intros Hc.
    destruct (decide (id' = id)) as [->|Hne].
    + exists w. rewrite fired_consumes, decide_True by done. apply elem_of_union. right.
      by apply elem_of_singleton.
    + rewrite lookup_insert_ne in Hc by done. destruct (H3 _ Hc) as [w' Hw']. exists w'.
      rewrite fired_consumes. case_decide; [apply elem_of_union; by left|done].
Qed.

Context (unique_ids : NoDup all_ids).

Definition world_ok (w : World) : Prop := sched_ok w.2.

Lemma lift_ok {A} (m : M R A) : triple world_ok (lift m) (λ _, world_ok) world_ok.
Proof. intros [r s] Hw. unfold lift. cbn. by destruct (m r) as [[a|e] r']. Qed.

Lemma observe_ok u id t clock delay c e epoch o :
  declared u id t →
  triple world_ok (observe_trigger u id t clock delay c e epoch o) (λ _, world_ok) world_ok.
Proof.
  intros Hd [r s] Hw. unfold world_ok in *. cbn in Hw.
  pose proof (observe_outcome u id t clock delay c e epoch o r s) as Ho. cbn in Ho.
  assert (Hr : sched_ok ((observe_trigger u id t clock delay c e epoch o (r, s)).2.2)).
  { destruct Ho as [_ [Hc|(tick & _ & Hk & Hnf & _ & Hc)]]; apply (sched_ok_core _ _ Hc); [done|].
    apply (sched_ok_selects _ _ _ t); [done..|]. right. cbn. by split_and!. }
  by destruct (observe_trigger _ _ _ _ _ _ _ _ _ _) as [[|] w'].
Qed.

Lemma sched_ok_cursor s w id :
  sched_ok s → ∃ c, is_Some (pending (track s w) !! id) → selected_cursors s !! id = Some c.
Proof.
  intros Hok. destruct (pending (track s w) !! id) as [due|] eqn:Hp.
  - destruct (so_pending _ Hok w id ltac:(by eexists)) as (_ & t & c & _ & Hc & _). by exists c.
  - exists (start_cursor 0). by intros [].
Qed.

Lemma release_action_ok a : a ∈ actions genome →
  triple world_ok (release_action a) (λ _, world_ok) world_ok.
Proof.
  intros Ha [r s] Hw. unfold world_ok in *. cbn in Hw.
  destruct (sched_ok_cursor s ACTIONS (action_id a) Hw) as [c Hc].
  pose proof (release_action_outcome a r s c Hc) as Ho. cbn in Ho.
  assert (Hr : sched_ok ((release_action a (r, s) : result () * World).2.2)).
  { destruct Ho as [->|(tick & due & _ & Hp & _ & ->)]; [done|]. cbn. case_match; [|done].
    apply sched_ok_consumes; [done|done|by eexists|]. apply Hc. by eexists. }
  by destruct (release_action _ _) as [[|] w'].
Qed.

Lemma release_reset_ok a : a ∈ reset_actions genome →
  triple world_ok (release_reset genome a) (λ _, world_ok) world_ok.
Proof.
  intros Ha [r s] Hw. unfold world_ok in *. cbn in Hw.
  destruct (sched_ok_cursor s RESETS (reset_id a) Hw) as [c Hc].
  pose proof (release_reset_outcome genome a r s c Hc) as Ho. cbn in Ho.
  assert (Hr : sched_ok ((release_reset genome a (r, s) : result () * World).2.2)).
  { destruct Ho as [->|(due & Hp & _ & Hcore)]; [done|]. apply (sched_ok_core _ _ Hcore).
    case_match; [|done]. apply sched_ok_consumes; [done|done|by eexists|]. apply Hc. by eexists. }
  by destruct (release_reset _ _ _) as [[|] w'].
Qed.

Lemma identity_elementary : elementary genome world_ok world_ok world_ok.
Proof.
  split; try done.
  - intros c. apply lift_ok.
  - intros [r s] n Hw. unfold world_ok in *. cbn in *. by apply (sched_ok_core s).
  - intros [r s] n Hw. unfold world_ok in *. cbn in *. by apply (sched_ok_core s).
  - intros a c e epoch o Ha. apply observe_ok. by exists a.
  - intros a c e epoch o Ha. apply observe_ok. by exists a.
  - apply release_reset_ok.
  - apply release_action_ok.
  - intros n. apply lift_ok.
Qed.

Definition starting (w : World) : Prop := world_ok w ∧ ∀ v, fired (track w.2 v) = ∅.

Lemma start_one_ok u id t clock delay :
  readonly clock → declared u id t →
  triple starting (start_one u id t clock delay) (λ _, starting) (λ _, True).
Proof.
  intros Hro Hd [r s] [Hok Hf]. unfold world_ok in *. cbn in Hok, Hf.
  pose proof (start_outcome u id t clock delay r s Hro) as Ho. cbn in Ho.
  assert (Hw : starting (start_one u id t clock delay (r, s) : result () * World).2).
  { destruct Ho as [->|(c & tick & _ & _ & Hk & ->)]; [by split|]. split; unfold world_ok; cbn [snd].
    - apply (sched_ok_selects _ _ _ t); [done..|by rewrite Hf|]. left. by split_and!.
    - intros v. by rewrite fired_selects. }
  by destruct (start_one _ _ _ _ _ _) as [[|] w'].
Qed.

Lemma start_actions_ok : triple starting (start_actions genome) (λ _, starting) (λ _, True).
Proof.
  apply triple_bind with (Q := λ _, starting); [|intros _]; apply triple_for_each; intros a Ha;
    apply start_one_ok; try done; by exists a.
Qed.

Lemma initial_ok r : starting (r, initial_sched genome).
Proof.
  split; [split|]; cbn.
  - intros w id Hp. by destruct w; destruct Hp.
  - intros w id Hf. destruct w; by apply not_elem_of_empty in Hf.
  - intros id [? ?]. done.
  - by intros [].
Qed.

Lemma run_summary sizes r sr r' :
  run genome sizes r = (Ok sr, r') → ∃ s q failure, sched_ok s ∧ sr = summary genome s q failure.
Proof.
  intros Hrun. destruct (run_cases genome sizes r) as [(e & w & _ & Hr)|(r0 & _ & [(e & w & _ & Hr)|(w & Hw & Hr)])];
    rewrite Hr in Hrun; [done..|].
  pose proof (start_actions_ok _ (initial_ok r0)) as Hst. rewrite Hw in Hst. destruct Hst as [Hok _].
  pose proof (body_rule genome _ _ _ identity_elementary world_ok sizes (lift_ok _) w Hok) as Hb.
  unfold conclude in Hrun.
  destruct (body genome sizes w) as [out [r2 s2]].
  assert (Hs : sched_ok s2) by (by destruct out).
  destruct (finalize r2) as [[u|e] r3]; [|done]. injection Hrun as <- _. by eexists s2, _, _.
Qed.

Lemma fired_iff_consumed s w id t :
  sched_ok s → declared w id t → id ∈ fired (track s w) ↔ is_Some (consumed_cursors s !! id).
Proof.
  intros Hok Hd. split.
  - intros (t' & c & _ & Hc & _)%(so_fired _ Hok). by eexists.
  - intros [w' Hw']%(so_consumed _ Hok). destruct (so_fired _ Hok _ _ Hw') as (t' & _ & Hd' & _).
    by rewrite (declared_same w w' id t t').
Qed.

Lemma records_fst (m : gmap string ConsumptionCursor) ids :
  (omap (λ i, (i,.) <$> m !! i) ids).*1 = filter (λ i, is_Some (m !! i)) ids.
Proof.
  induction ids as [|i ids IH]; [done|]. destruct (m !! i) as [c|] eqn:Hi.
  - rewrite filter_cons_True by (rewrite Hi; by eexists). rewrite <- IH. cbn. by rewrite Hi.
  - rewrite filter_cons_False by (rewrite Hi; by intros []). rewrite <- IH. cbn. by rewrite Hi.
Qed.

(** A result tells exactly what happened, and why.  With unique identities
    (as the genome's constructor demands), whenever [run] returns, the fired
    and the pending identities partition the declared actions, and the
    declared resets; the consumption records are one for each fired identity,
    in declaration order; and every record names the cause its trigger asked
    for: the start, or the requested occurrence at the declared component and
    port with the event that was observed there. *)
Lemma result_accounts_for_every_action sizes r sr r' :
  run genome sizes r = (Ok sr, r') →
  fired_actions sr ++ pending_actions sr ≡ₚ action_id <$> actions genome ∧
  fired_resets sr ++ pending_resets sr ≡ₚ reset_id <$> reset_actions genome ∧
  (consumption_cursor_records sr).*1 = fired_actions sr ++ fired_resets sr ∧
  ∀ id c, (id, c) ∈ consumption_cursor_records sr →
    ∃ w t, declared w id t ∧ cursor_ok t c.
Proof.
  intros (s & q & failure & Hok & ->)%run_summary. cbn. unfold fired_ids, unfired_ids.
  split_and!; [apply filter_partition..| |].
  - rewrite records_fst, filter_app. f_equal; apply filter_iff; intros id (a & -> & Ha)%list_elem_of_fmap.
    + rewrite (fired_iff_consumed s ACTIONS _ (trigger a)); [done|done|by exists a].
    + rewrite (fired_iff_consumed s RESETS _ (reset_trigger a)); [done|done|by exists a].
  - intros id c (i & Hi & Hc)%list_elem_of_omap. apply fmap_Some in Hc as (c' & Hc & [= -> ->]).
    destruct (so_consumed _ Hok i ltac:(by eexists)) as [w Hw].
    destruct (so_fired _ Hok w i Hw) as (t & c1 & Hd & Hc1 & Hcur).
    exists w, t. split; [done|]. by simplify_eq.
Qed.
End identity.

(** ** The order of the injections

    A runner that also keeps a log: when the test began, what the local clocks
    read after each step, and what they read at each injection, whether it
    succeeded or raised. *)

Inductive LogEntry : Type :=
  | Began (ticks : gmap string Z)
  | Stepped (ticks : gmap string Z)
  | Injected (id : string) (ticks : gmap string Z).

Definition on_runner {R A} (m : M R A) (entry : R → R → list LogEntry) : M (R * list LogEntry) A :=
  λ rl, let '(out, r') := m rl.1 in (out, (r', rl.2 ++ entry rl.1 r')).
Definition unlogged {R A} (m : M R A) : M (R * list LogEntry) A := on_runner m (λ _ _, []).

Definition logged_runner {R} `{Runner R} : Runner (R * list LogEntry) := {|
  sessions rl := sessions rl.1;
  can_reset rl := can_reset rl.1;
  ownership rl := ownership rl.1;
  local_ticks rl := local_ticks rl.1;
  command_epoch rl := command_epoch rl.1;
  events rl := events rl.1;
  failure_status rl := failure_status rl.1;
  preload_image i := unlogged (preload_image i);
  begin_test t := on_runner (begin_test t) (λ r _, [Began (local_ticks r)]);
  step c := on_runner (step c) (λ _ r', [Stepped (local_ticks r')]);
  reset_all p := unlogged (reset_all p);
  inject_source a := on_runner (inject_source a) (λ r _, [Injected (action_id a) (local_ticks r)]);
  quiesce n := unlogged (quiesce n);
  finalize := unlogged finalize |}.

Definition injected (log : list LogEntry) : list string :=
  omap (λ e, match e with Injected id _ => Some id | _ => None end) log.

Section injections.
Context {R : Type} `{HR : Runner R} (genome : ScenarioGenome).
#[local] Existing Instance logged_runner.
Abbreviation World := ((R * list LogEntry) * Sched)%type.

(** The tick from which an action's delay counts was read at the beginning of
    the test, or after an observed step. *)
Definition origin (log : list LogEntry) (a : Action) (tick : Z) : Prop :=
  (kind (trigger a) = "START" ∧ ∃ ts, Began ts ∈ log ∧ ts !! action_clock a = Some tick) ∨
  (kind (trigger a) = "AFTER_OUTPUT" ∧ ∃ ts, Stepped ts ∈ log ∧ ts !! action_clock a = Some tick).

(** An injection at clock readings [ts] after [log] is due. *)
Definition due_injection (log : list LogEntry) (id : string) (ts : gmap string Z) : Prop :=
  ∃ a from now, a ∈ actions genome ∧ action_id a = id ∧ origin log a from ∧
    ts !! action_clock a = Some now ∧ from + delay_ticks a ≤ now.

Record log_ok (log : list LogEntry) : Prop := {
  lo_once : NoDup (injected log);
  lo_due i id ts : log !! i = Some (Injected id ts) → due_injection (take i log) id ts }.

Lemma injected_app l1 l2 : injected (l1 ++ l2) = injected l1 ++ injected l2.
Proof. apply omap_app. Qed.

Lemma log_ok_snoc log e :
  log_ok log →
  match e with
  | Injected id ts => (id ∉ injected log) ∧ due_injection log id ts
  | _ => True
  end → log_ok (log ++ [e]).
Proof.
  intros [Hn Hd] He. split.
  - rewrite injected_app. apply NoDup_app. split_and!; [done| |].
    + intros id Hid. destruct e; cbn; intros Hin; try by apply not_elem_of_nil in Hin.
      apply list_elem_of_singleton in Hin as ->. by destruct He.
    + destruct e; cbn; repeat constructor. apply not_elem_of_nil.
  - intros i id ts [Hi|[Hi Hx]]%lookup_app_Some.
    + rewrite take_app_le by (apply lookup_lt_Some in Hi; lia). by apply Hd.
    + apply list_lookup_singleton_Some in Hx as [Hz ->].
      replace i with (length log) by lia. rewrite take_app_length. by destruct He.
Qed.

Record injections_ok (w : World) : Prop := {
  io_log : log_ok w.1.2;
  io_fired id : id ∈ injected w.1.2 ↔ id ∈ fired (track w.2 ACTIONS);
  io_pending id due : pending (track w.2 ACTIONS) !! id = Some due →
    (id ∉ fired (track w.2 ACTIONS)) ∧
    ∃ a from, a ∈ actions genome ∧ action_id a = id ∧ origin w.1.2 a from ∧
      due = from + delay_ticks a;
  io_cursor v id : is_Some (pending (track w.2 v) !! id) → is_Some (selected_cursors w.2 !! id) }.

Definition stepped_ok (w : World) : Prop :=
  injections_ok w ∧ Stepped (local_ticks w.1.1) ∈ w.1.2.
Definition left_ok (w : World) : Prop :=
  log_ok w.1.2 ∧ ∀ id, id ∈ fired (track w.2 ACTIONS) → id ∈ injected w.1.2.

Lemma left_of_ok w : injections_ok w → left_ok w.
Proof. intros [H1 H2 _ _]. split; [done|]. intros id. apply H2. Qed.

Lemma origin_app log l a tick : origin log a tick → origin (log ++ l) a tick.
Proof. unfold origin. setoid_rewrite elem_of_app. naive_solver. Qed.

(** Only the log grows, by something that is not an injection. *)
Lemma injections_ok_grow r r' log l s :
  injected l = [] → log_ok (log ++ l) → injections_ok ((r, log), s) →
  injections_ok ((r', log ++ l), s).
Proof.
  intros Hl Hlog [H1 H2 H3 H4]. split; cbn in *; [done| | |done].
  - intros id. by rewrite injected_app, Hl, app_nil_r.
  - intros id due (Hnf & a & from & ? & ? & ? & ?)%H3. split; [done|].
    exists a, from. split_and!; try done. by apply origin_app.
Qed.

Lemma injections_ok_core rl s s' :
  same_core s s' → injections_ok (rl, s) → injections_ok (rl, s').
Proof.
  intros [Hp Hf Hs _] [H1 H2 H3 H4]. split; cbn in *.
  - done.
  - intros id. by rewrite Hf.
  - intros id due. rewrite Hp, Hf. apply H3.
  - intros v id. rewrite Hp, Hs. apply H4.
Qed.

Lemma injections_ok_selects rl s w id due c :
  injections_ok (rl, s) →
  (w = ACTIONS → (id ∉ fired (track s ACTIONS)) ∧
    ∃ a from, a ∈ actions genome ∧ action_id a = id ∧ origin rl.2 a from ∧
      due = from + delay_ticks a) →
  injections_ok (rl, selects s w id due c).
Proof.
  intros [H1 H2 H3 H4] Hnew. split; cbn [fst snd] in *.
  - done.
  - intros id'. by rewrite fired_selects.
  - intros id' due'. rewrite pending_selects, fired_selects. case_decide; [|apply H3].
    intros [[-> ->]|[Hne Hp]]%lookup_insert_Some; [by apply Hnew|by apply H3].
  - intros v id'. rewrite pending_selects.
    change (selected_cursors _) with (<[id := c]> (selected_cursors s)).
    rewrite lookup_insert_is_Some'. case_decide; [|by right; eapply H4].
    rewrite lookup_insert_is_Some'. intros [?|?]; [by left|right; by eapply H4].
Qed.

Lemma injections_ok_consumes_reset r r' log s id c :
  injections_ok ((r, log), s) → injections_ok ((r', log), consumes s RESETS id c).
Proof.
  intros [H1 H2 H3 H4]. split; cbn [fst snd] in *.
  - done.
  - intros id'. by rewrite fired_consumes.
  - intros id' due'. rewrite pending_consumes, fired_consumes. apply H3.
  - intros v id'. rewrite pending_consumes. change (selected_cursors _) with (selected_cursors s).
    case_decide; [|by apply H4]. intros [? Hp]%lookup_delete_is_Some. by apply (H4 v).
Qed.

Lemma injections_ok_inject r r' log s id ts c :
  injections_ok ((r, log), s) → is_Some (pending (track s ACTIONS) !! id) →
  log_ok (log ++ [Injected id ts]) →
  injections_ok ((r', log ++ [Injected id ts]), consumes s ACTIONS id c).
Proof.
  intros [H1 H2 H3 H4] [due0 Hpend] Hlog. split; cbn [fst snd] in *.
  - done.
  - intros id'. rewrite injected_app, fired_consumes, decide_True by done. cbn.
    rewrite elem_of_app, elem_of_union, H2, list_elem_of_singleton, elem_of_singleton. done.
  - intros id' due'. rewrite pending_consumes, fired_consumes, !decide_True by done.
    intros [Hne Hp]%lookup_delete_Some. destruct (H3 _ _ Hp) as (Hnf & a & from & ? & ? & ? & ?).
    split.
    + intros [?|?%elem_of_singleton]%elem_of_union; [done|congruence].
    + exists a, from. split_and!; try done. by apply origin_app.
  - intros v id'. rewrite pending_consumes. change (selected_cursors _) with (selected_cursors s).
    case_decide; [|by apply H4]. intros [? Hp]%lookup_delete_is_Some. by apply (H4 v).
Qed.

(** A call of the runner whose log entry is not an injection. *)
Lemma lift_grow {A} (m : M R A) entry :
  (∀ r r' log, log_ok log → injected (entry r r') = [] ∧ log_ok (log ++ entry r r')) →
  triple injections_ok (lift (on_runner m entry)) (λ _, injections_ok) left_ok.
Proof.
  intros Hentry [[r log] s] Hok. unfold lift, on_runner. cbn.
  destruct (m r) as [[a|e] r']; cbn;
    destruct (Hentry r r' log (io_log _ Hok)) as [Hi Hl]; [by eapply injections_ok_grow|].
  apply left_of_ok. by eapply injections_ok_grow.
Qed.

Lemma unlogged_ok {A} (m : M R A) : triple injections_ok (lift (unlogged m)) (λ _, injections_ok) left_ok.
Proof. apply lift_grow. intros r r' log Hl. rewrite app_nil_r. by split. Qed.

Lemma lift_step_ok c : triple injections_ok (lift (step c)) (λ _, stepped_ok) left_ok.
Proof.
  intros [[r log] s] Hok. unfold lift. cbn. unfold on_runner. cbn.
  assert (Hl : ∀ ts, log_ok (log ++ [Stepped ts])) by (intros; by apply log_ok_snoc, I; apply (io_log _ Hok)).
  destruct (step c r) as [[a|e] r']; cbn;
    [|apply left_of_ok; by eapply injections_ok_grow]. split; [by eapply injections_ok_grow|].
  cbn. apply elem_of_app. right. by left.
Qed.

Lemma observe_injections u id t clock delay c e epoch o :
  (u = ACTIONS → ∃ a, a ∈ actions genome ∧ action_id a = id ∧ trigger a = t ∧
     action_clock a = clock ∧ delay_ticks a = delay) →
  triple stepped_ok (observe_trigger u id t clock delay c e epoch o) (λ _, stepped_ok) left_ok.
Proof.
  intros Hdecl [[r log] s] [Hok Hst].
  pose proof (observe_outcome u id t clock delay c e epoch o (r, log) s) as Ho. cbn in Ho, Hst.
  assert (Hr : stepped_ok (observe_trigger u id t clock delay c e epoch o ((r, log), s)).2).
  { destruct (observe_trigger _ _ _ _ _ _ _ _ _ _) as [out [rl s']]. cbn in Ho |- *.
    destruct Ho as [-> Ho]. split; [|done].
    destruct Ho as [Hc|(tick & Ht & Hk & Hnf & _ & Hc)]; apply (injections_ok_core _ _ _ Hc); [done|].
    apply injections_ok_selects; [done|]. intros ->. split; [done|].
    destruct (Hdecl eq_refl) as (a & Ha & <- & <- & <- & <-). exists a, tick.
    split_and!; [done..| |done]. right. split; [done|]. by exists (local_ticks r). }
  destruct (observe_trigger _ _ _ _ _ _ _ _ _ _) as [[|] w']; [done|]. apply left_of_ok, Hr.
Qed.

Lemma cursor_of w v id : injections_ok w →
  ∃ c, is_Some (pending (track w.2 v) !! id) → selected_cursors w.2 !! id = Some c.
Proof.
  intros Hok. destruct (pending (track w.2 v) !! id) as [due|] eqn:Hp.
  - destruct (io_cursor _ Hok v id ltac:(by eexists)) as [c Hc]. by exists c.
  - exists (start_cursor 0). by intros [].
Qed.

Lemma release_reset_injections a :
  triple injections_ok (release_reset genome a) (λ _, injections_ok) left_ok.
Proof.
  intros [[r log] s] Hok. destruct (cursor_of _ RESETS (reset_id a) Hok) as [c Hc].
  pose proof (release_reset_outcome genome a (r, log) s c Hc) as Ho.
  assert (Hr : injections_ok (release_reset genome a ((r, log), s)).2).
  { destruct (release_reset genome a _) as [out [rl s']]. cbn in Ho |- *.
    destruct Ho as [[= -> ->]|(due & Hp & -> & Hcore)]; [done|].
    cbn. unfold unlogged, on_runner. cbn.
    destruct (reset_all (policy a) r) as [o' r'] eqn:Hreset. cbn. rewrite app_nil_r.
    apply (injections_ok_core _ _ _ Hcore). case_match.
    - by apply injections_ok_consumes_reset with r.
    - rewrite <- (app_nil_r log). apply injections_ok_grow with r; [done| |done].
      rewrite app_nil_r. apply (io_log _ Hok). }
  destruct (release_reset _ _ _) as [[|] w']; [done|]. by apply left_of_ok.
Qed.

Lemma release_action_injections a :
  a ∈ actions genome → NoDup (action_id <$> actions genome) →
  triple injections_ok (release_action a) (λ _, injections_ok) left_ok.
Proof.
  intros Ha Hnd [[r log] s] Hok. destruct (cursor_of _ ACTIONS (action_id a) Hok) as [c Hc].
  pose proof (release_action_outcome a (r, log) s c Hc) as Ho.
  destruct (release_action a _) as [out [rl s']]. cbn in Ho |- *.
  destruct Ho as [[= -> ->]|(tick & due & Ht & Hp & Hdue & [= -> ->])].
  { destruct out; [done|by apply left_of_ok]. }
  unfold on_runner. cbn. destruct (inject_source a r) as [o' r'] eqn:Hinj. cbn.
  destruct (io_pending _ Hok _ _ Hp) as (Hnf & b & from & Hb & Hid & Ho & ->).
  assert (b = a) as -> by by eapply NoDup_fmap_elem.
  assert (Hlog : log_ok (log ++ [Injected (action_id a) (local_ticks r)])).
  { apply log_ok_snoc; [apply (io_log _ Hok)|]. split; [by rewrite (io_fired _ Hok)|].
    by exists a, from, tick. }
  destruct out; cbn.
  - apply injections_ok_inject with r; [done|by eexists|done].
  - split; [done|]. intros id Hin%(io_fired _ Hok). cbn in *. rewrite injected_app. apply elem_of_app. by left.
Qed.

Lemma injections_elementary :
  NoDup (action_id <$> actions genome) → elementary genome injections_ok stepped_ok left_ok.
Proof.
  intros Hnd. split.
  - apply left_of_ok.
  - intros w [Hw _]. by apply left_of_ok.
  - by intros w [Hw _].
  - apply lift_step_ok.
  - intros [rl s] n [Hw Hs]. split; [|done]. by apply (injections_ok_core _ s).
  - intros [rl s] n Hw. by apply (injections_ok_core _ s).
  - intros a c e epoch o Ha. apply observe_injections. intros _. by exists a.
  - intros a c e epoch o Ha. by apply observe_injections.
  - intros a Ha. apply release_reset_injections.
  - intros a Ha. by apply release_action_injections.
  - intros n. apply unlogged_ok.
Qed.

(** Before the test begins: the [START] actions are scheduled from the present
    readings of their clocks. *)
Record scheduled_ok (w : World) : Prop := {
  sk_log : w.1.2 = [];
  sk_fired : fired (track w.2 ACTIONS) = ∅;
  sk_pending id due : pending (track w.2 ACTIONS) !! id = Some due →
    ∃ a from, a ∈ actions genome ∧ action_id a = id ∧ kind (trigger a) = "START" ∧
      local_ticks w.1.1 !! action_clock a = Some from ∧ due = from + delay_ticks a;
  sk_cursor v id : is_Some (pending (track w.2 v) !! id) → is_Some (selected_cursors w.2 !! id) }.

Lemma begin_injections t :
  triple scheduled_ok (lift (begin_test t)) (λ _, injections_ok) left_ok.
Proof.
  intros [[r log] s] [Hl Hf Hp Hc]. cbn in Hl, Hf, Hp, Hc. subst log.
  unfold lift. cbn. unfold on_runner. cbn. set (entry := [Began (local_ticks r)]).
  assert (Hok : ∀ r', injections_ok ((r', entry), s)).
  { intros r'. split; cbn.
    - apply (log_ok_snoc []); [|done]. split; [constructor|]. by intros i id ts.
    - intros id. rewrite Hf. split; [by intros ?%not_elem_of_nil|by intros ?%not_elem_of_empty].
    - intros id due Hd. rewrite Hf. split; [apply not_elem_of_empty|].
      destruct (Hp _ _ Hd) as (a & from & Ha & Hid & Hk & Ht & Hdue). exists a, from.
      split_and!; [done..| |done]. left. split; [done|]. exists (local_ticks r). split; [by left|done].
    - apply Hc. }
  destruct (begin_test t r) as [[a|e] r']; [apply Hok|apply left_of_ok, Hok].
Qed.

Lemma start_one_scheduled u id t clock delay :
  readonly clock →
  (u = ACTIONS → ∃ a, a ∈ actions genome ∧ action_id a = id ∧ trigger a = t ∧
     clock = mret (action_clock a) ∧ delay_ticks a = delay) →
  triple scheduled_ok (start_one u id t clock delay) (λ _, scheduled_ok) (λ w, w.1.2 = []).
Proof.
  intros Hro Hdecl [rl s] [Hl Hf Hp Hc].
  pose proof (start_outcome u id t clock delay rl s Hro) as Ho. cbn zeta in Ho.
  assert (Hr : scheduled_ok (start_one u id t clock delay (rl, s)).2).
  { destruct Ho as [->|(cl & tick & Hcl & Ht & Hk & ->)]; [by split|]. split; cbn [fst snd] in *.
    - done.
    - by rewrite fired_selects.
    - intros id' due. rewrite pending_selects. case_decide as Hu; [|apply Hp].
      destruct (Hdecl (eq_sym Hu)) as (a & Ha & Hid & <- & -> & <-).
      injection Hcl as <-. rewrite lookup_insert_Some. intros [[<- <-]|[Hne Hd]]; [|by apply Hp].
      by exists a, tick.
    - intros v id'. rewrite pending_selects.
      change (selected_cursors _) with (<[id := start_cursor (command_epoch rl)]> (selected_cursors s)).
      rewrite lookup_insert_is_Some'. case_decide; [|by right; eapply Hc].
      rewrite lookup_insert_is_Some'. intros [?|?]; [by left|right; by eapply Hc]. }
  destruct (start_one _ _ _ _ _ _) as [[|] w']; [done|]. apply (sk_log _ Hr).
Qed.

Lemma start_scheduled :
  triple scheduled_ok (start_actions genome) (λ _, scheduled_ok) (λ w, w.1.2 = []).
Proof.
  apply triple_bind with (Q := λ _, scheduled_ok); [|intros _]; apply triple_for_each; intros a Ha;
    apply start_one_scheduled; try done. intros _. by exists a.
Qed.

Lemma initial_scheduled r : scheduled_ok ((r, []), initial_sched genome).
Proof.
  split; cbn; [done|done|done|]. intros [] id; by intros [].
Qed.

Lemma prepare_log sizes : preserves (λ w : World, w.1.2) (prepare genome sizes).
Proof.
  unfold prepare. solve_preserves ltac:(idtac; match goal with |- preserves _ (lift _) =>
    let r := fresh in let log := fresh in let s := fresh in intros [[r log] s]; unfold lift; cbn;
    unfold unlogged, on_runner; cbn; destruct (preload_image _ r); cbn; apply app_nil_r end).
Qed.

(** C17.  Every action is injected at most once, and never early.  For any runner,
    over the log of its clock readings and with unique action identities:
    however the run ends, no action is injected twice; every injection is of a
    declared action, at a reading of its clock at least [delay_ticks] past the
    one taken when the test began (a [START] action) or after an earlier step
    (an [AFTER_OUTPUT] action); and what the result reports as fired was
    injected. *)
Theorem injections_once_and_due sizes r out r' log :
  NoDup (action_id <$> actions genome) →
  run genome sizes (r, []) = (out, (r', log)) →
  NoDup (injected log) ∧
  (∀ i id ts, log !! i = Some (Injected id ts) → due_injection (take i log) id ts) ∧
  ∀ sr id, out = Ok sr → id ∈ fired_actions sr → id ∈ injected log.
Proof.
  intros Hnd Hrun.
  assert (Hleft : left_ok ((r', log), initial_sched genome) → (∀ sr, out ≠ Ok sr) →
    NoDup (injected log) ∧
    (∀ i id ts, log !! i = Some (Injected id ts) → due_injection (take i log) id ts) ∧
    ∀ sr id, out = Ok sr → id ∈ fired_actions sr → id ∈ injected log).
  { intros [[H1 H2] _] Hno. split_and!; [done|done|]. intros sr id Hsr. by destruct (Hno sr). }
  assert (Hempty : log = [] → left_ok ((r', log), initial_sched genome)).
  { intros ->. split; [split; [constructor|done]|]. by intros id ?%not_elem_of_empty. }
  destruct (run_cases genome sizes (r, []))
    as [(e & w & Hp & Hr)|([r0 l0] & Hp & [(e & w & Hs & Hr)|(w & Hs & Hr)])].
  - pose proof (prepare_log sizes ((r, []), initial_sched genome)) as Hl. rewrite Hp in Hl. cbn in Hl.
    rewrite Hr in Hrun. injection Hrun as <- Hw. rewrite Hw in Hl. apply Hleft; [by apply Hempty|done].
  - pose proof (prepare_log sizes ((r, []), initial_sched genome)) as Hl. rewrite Hp in Hl. cbn in Hl.
    subst l0. pose proof (start_scheduled _ (initial_scheduled r0)) as Hst. rewrite Hs in Hst.
    rewrite Hr in Hrun. injection Hrun as <- Hw. rewrite Hw in Hst. apply Hleft; [by apply Hempty|done].
  - pose proof (prepare_log sizes ((r, []), initial_sched genome)) as Hl. rewrite Hp in Hl. cbn in Hl.
    subst l0. pose proof (start_scheduled _ (initial_scheduled r0)) as Hst. rewrite Hs in Hst.
    pose proof (body_rule genome _ _ _ (injections_elementary Hnd) _ sizes (begin_injections _) w Hst) as Hb.
    rewrite Hr in Hrun. unfold conclude in Hrun.
    destruct (body genome sizes w) as [o [[r2 l2] s2]].
    assert (Hb' : left_ok ((r2, l2), s2)) by (destruct o; [by apply left_of_ok|done]). clear Hb.
    cbn in Hrun. unfold unlogged, on_runner in Hrun. cbn in Hrun.
    destruct (finalize r2) as [[u|e] r3]; cbn in Hrun; injection Hrun as <- <- <-;
      rewrite app_nil_r in *; destruct Hb' as [[H1 H2] H3]; split_and!; try done.
    intros sr id [= <-]. cbn. intros [Hf _]%list_elem_of_filter. by apply H3.
Qed.
End injections.

(** *** The hypotheses are satisfiable: a runner with two harnesses *)

Module Example_scheduler.
Record Toy := mkToy { toy_ticks : gmap string Z; toy_events : list Event; toy_inputs : Z }.

Definition toy_ownership : OwnershipMap :=
  mkOwnership {[ ("cpu", "irq_in") := replicate 8 (mkOwner "cpu" "irq_in" 0 8 "source" "fuzz") ]}.

Definition toy_step (c : string) : M Toy Outputs := λ r,
  let tick := default 0 (toy_ticks r !! c) + 1 in
  let o : Outputs := {[ "irq" := VInt (tick `mod` 2) ]} in
  (Ok o, mkToy (<[c := tick]> (toy_ticks r))
     (toy_events r ++ [mkEvent (Z.of_nat (length (toy_events r)) + 1) (Some c) None (Some o)])
     (toy_inputs r)).

#[export] Instance toy_runner : Runner Toy := {|
  sessions _ := ["cpu"; "ip"];
  can_reset _ _ := true;
  ownership _ := toy_ownership;
  local_ticks := toy_ticks;
  command_epoch _ := 0;
  events := toy_events;
  failure_status _ := None;
  preload_image _ := mret ();
  begin_test _ := mret ();
  step := toy_step;
  reset_all _ := mret ();
  inject_source a := modify (λ r, mkToy (toy_ticks r) (toy_events r) (action_value a));
  quiesce _ := mret (mkQuiesce "drained" 0 ∅ []);
  finalize := mret () |}.

#[export] Instance toy_fixed : SessionsFixed Toy.
Proof. by split. Qed.

Definition toy : Toy := mkToy {[ "cpu" := 0; "ip" := 0 ]} [] 0.

Definition genome : ScenarioGenome :=
  mkGenome "t" "IP_TO_CPU" "p" ["cpu"; "ip"] 6
    [mkAction "now" "cpu" "irq_in" 3 "IP_TO_CPU" (mkTrigger "START" EmptyString EmptyString 0 0 1)
       EmptyString 1 0 None;
     mkAction "later" "cpu" "irq_in" 5 "IP_TO_CPU" (mkTrigger "AFTER_OUTPUT" "ip" "irq" 1 1 1)
       EmptyString 1 0 None] [] 3
    [mkReset "r" "warm_all" (mkTrigger "AFTER_OUTPUT" "cpu" "irq" 1 1 9) EmptyString 0] 1.

Definition outcome : result SchedulerResult := (run genome None toy).1.
Definition final : SchedulerResult :=
  match outcome with
  | Ok sr => sr
  | Err _ => mkResult EmptyString 0 [] [] [] [] None []
  end.

Lemma unique : NoDup (all_ids genome).
Proof. apply (bool_decide_unpack _). vm_compute. exact I. Qed.

Lemma result_accounts_for_every_action_witness :
  fired_actions final = ["now"; "later"] ∧ pending_resets final = ["r"] ∧
  ∀ id c, (id, c) ∈ consumption_cursor_records final →
    ∃ w t, declared genome w id t ∧ cursor_ok t c.
Proof.
  destruct (result_accounts_for_every_action genome unique None toy final (run genome None toy).2)
    as (_ & _ & _ & Hc).
  - vm_compute. reflexivity.
  - split_and!; [vm_compute; reflexivity|vm_compute; reflexivity|exact Hc].
Defined.

Lemma batching_is_invisible_witness :
  (run genome (Some [2; 3]) toy).1 = Ok final ∧
  run genome (Some [2; 3]) toy = run genome None toy.
Proof.
  split; [vm_compute; reflexivity|].
  apply (batching_is_invisible genome [2; 3] toy); [done|done|repeat constructor].
Defined.

#[local] Existing Instance logged_runner.
Definition log : list LogEntry := (run genome None (toy, [])).2.2.

Lemma injections_once_and_due_witness :
  injected log = ["now"; "later"] ∧ NoDup (injected log) ∧
  ∀ i id ts, log !! i = Some (Injected id ts) → due_injection genome (take i log) id ts.
Proof.
  split; [vm_compute; reflexivity|].
  destruct (injections_once_and_due genome None toy (run genome None (toy, [])).1
    (run genome None (toy, [])).2.1 log) as (H1 & H2 & _); [| |split; [exact H1|exact H2]].
  - apply (bool_decide_unpack _). vm_compute. exact I.
  - unfold log. by destruct (run genome None (toy, [])) as [o [r l]].
Defined.
End Example_scheduler.
