(* ===== verification/Router.v ===== *)
(** * Delivery of CPU requests to the register targets

    Models [src/src/myfuzz/scenario/router.py]: device windows, the checks and
    lane selection of a request, its acceptance into the source's ledger, the
    queue, the execution of one queued request at its target, cancellation at a
    reset barrier, and the synchronous path.

    Targets are real RTL behind the interface [Targets]: computations on a
    world that may raise.  A plain target has [write_register] and
    [read_register]; a routed or ordinary-APB target answers with the read data
    and further fields for the delivery record ([observed_access] is
    [routed_register_access], or [execute_observed_register_access] together
    with the validation of its receipt).  A completion callback is a computation
    on the world as well.  Ledgers are objects with an identity: the state keeps
    one per identity, a ledger not used before is new.

    The theorems: the queue holds exactly the requests that are pending in
    their ledgers, each once, whatever is called in whatever order; one drain
    serves the oldest queued request of the device, and runs no target unless
    that request is the next of its source channel; the response to a read
    carries the target's data on the lane the address selects. *)

From S2P Require Import Prelude Json Isa Ledger Ownership.

Local Open Scope Z_scope.

(** ** Windows and requests

    A window's [target] is an object; the model names it by its identity. *)

Record DeviceWindow := mkDevice {
  device_id : string;
  device_base : Z;
  device_size : Z;
  target : string }.

#[export] Instance DeviceWindow_eq_dec : EqDecision DeviceWindow.
Proof. solve_decision. Defined.

(** [DeviceWindow.__post_init__] *)
Definition DeviceWindow_post_init (w : DeviceWindow) : result DeviceWindow :=
  raise_if (bool_decide (device_id w = EmptyString) || (device_base w <? 0)
            || negb (device_base w `mod` 0x1000 =? 0) || (device_size w <? 4)
            || negb (device_size w `mod` 4 =? 0) || (2 ^ 64 <? device_base w + device_size w))
    (ValueError "device window is invalid") ;;
  mret w.

(** The checks of [DataflowRouter.__init__]. *)
Definition overlaps (a b : DeviceWindow) : bool :=
  (device_base a <? device_base b + device_size b) && (device_base b <? device_base a + device_size a).
Definition add_device (windows : list DeviceWindow) (w : DeviceWindow) : result (list DeviceWindow) :=
  raise_if (existsb (overlaps w) windows) (ValueError "overlapping device windows") ;;
  mret (windows ++ [w]).

(** The keyword arguments of a request. *)
Record Request := mkRequest {
  address : Z;
  is_write : bool;
  wdata : Z;
  be : Z;
  beat_bytes : Z }.

(** [_window], [owns] *)
Definition in_window (a : Z) (w : DeviceWindow) : bool :=
  (device_base w <=? a) && (a <? device_base w + device_size w).
Definition _window (windows : list DeviceWindow) (a : Z) : option DeviceWindow :=
  head (filter (λ w, in_window a w = true) windows).
Definition owns (windows : list DeviceWindow) (a : Z) : bool :=
  bool_decide (is_Some (_window windows a)).

Record Prepared := mkPrepared {
  p_window : DeviceWindow;
  lane_be : Z;
  data32 : Z;
  p_offset : Z;
  high_lane : bool;
  payload : json }.

(** [_prepare] *)
Definition _prepare (windows : list DeviceWindow) (q : Request) : result Prepared :=
  match _window windows (address q) with
  | None => Err (ValueError "MMIO address has no declared real target")
  | Some w =>
      raise_if (negb (in_list (beat_bytes q) [4; 8]) || negb (address q `mod` 4 =? 0)
                || (device_base w + device_size w <? address q + 4))
        (ValueError "unsupported MMIO access shape") ;;
      raise_if ((be q <? 0) || (2 ^ beat_bytes q <=? be q)) (ValueError "byte enables are invalid") ;;
      let high := (beat_bytes q =? 8) && negb (address q &&& 4 =? 0) in
      let lane := if high then be q ≫ 4 else be q &&& 15 in
      let other := if high then be q &&& 15 else be q ≫ 4 in
      raise_if (is_write q && ((lane =? 0) || ((beat_bytes q =? 8) && negb (other =? 0))))
        (ValueError "MMIO byte lanes do not match address") ;;
      mret (mkPrepared w lane ((if high then wdata q ≫ 32 else wdata q) &&& 0xffffffff)
              (address q - device_base w) high
              (JObj [("device_id", JStr (device_id w)); ("address", JInt (address q));
                     ("write", JBool (is_write q)); ("wdata", JInt (wdata q)); ("be", JInt (be q));
                     ("beat_bytes", JInt (beat_bytes q))]))
  end.

(** ** The state *)

Definition Response : Type := Z * Z.
Inductive TargetKind : Type := Plain | Routed | Ordinary.
#[export] Instance TargetKind_eq_dec : EqDecision TargetKind.
Proof. solve_decision. Defined.

Section router.
Context `{Hashlib} {W A : Type}.

(** What is asked of a target at one access. *)
Record Access := mkAccess {
  a_key : TransactionKey;
  a_window : DeviceWindow;
  a_request : Request;
  a_offset : Z;
  a_data32 : Z;
  a_lane_be : Z }.

Class Targets : Type := {
  target_kind : string → TargetKind;
  write_register : string → Z → Z → Z → M W ();
  read_register : string → Z → M W Z;
  observed_access : Access → M W (Z * A);
  (** [routed_delivery_failed], [ordinary_apb_delivery_failed] *)
  delivery_failed : string → TransactionKey → option A → M W () }.
Context `{Targets}.

Record Item := mkItem {
  i_ledger : string;
  i_key : TransactionKey;
  i_request : Request;
  i_prepared : Prepared;
  i_callback : Response → M W () }.

Record Acceptance := mkAccept {
  acc_key : TransactionKey;
  acc_device : string;
  acceptance_order : Z;
  acc_request : Request;
  acc_offset : Z;
  acc_byte_enable : Z;
  acc_write_value : option Z }.

Record Delivery := mkDelivery {
  del_key : TransactionKey;
  del_device : string;
  delivery_order : Z;
  target_delivery_order : Z;
  del_address : Z;
  del_beat_bytes : Z;
  del_offset : Z;
  del_write : bool;
  del_byte_enable : Z;
  del_write_value : option Z;
  del_read_value : option Z;
  del_access : option A;
  source_delivery_confirmed : option bool }.

Record Router := mkRouter {
  windows : list DeviceWindow;
  acceptances : list Acceptance;
  deliveries : list Delivery;
  _target_delivery_counts : gmap string Z;
  _delivery_sequence : Z;
  _ordinary_delivery_confirmations : list (TransactionKey * Delivery);
  _queued : list Item }.

(** [__init__] *)
Definition new_router (windows : list DeviceWindow) : result Router :=
  ws ← fold_result add_device [] windows;
  mret (mkRouter ws [] [] ∅ 0 [] []).

Definition set_queued (q : list Item) (r : Router) : Router :=
  mkRouter (windows r) (acceptances r) (deliveries r) (_target_delivery_counts r)
    (_delivery_sequence r) (_ordinary_delivery_confirmations r) q.
Definition add_acceptance (a : Acceptance) (r : Router) : Router :=
  mkRouter (windows r) (acceptances r ++ [a]) (deliveries r) (_target_delivery_counts r)
    (_delivery_sequence r) (_ordinary_delivery_confirmations r) (_queued r).
Definition add_delivery (d : Delivery) (r : Router) : Router :=
  mkRouter (windows r) (acceptances r) (deliveries r ++ [d]) (_target_delivery_counts r)
    (_delivery_sequence r) (_ordinary_delivery_confirmations r) (_queued r).
Definition count_delivery (device : string) (r : Router) : Router :=
  mkRouter (windows r) (acceptances r) (deliveries r)
    (<[device := default 0 (_target_delivery_counts r !! device) + 1]> (_target_delivery_counts r))
    (_delivery_sequence r + 1) (_ordinary_delivery_confirmations r) (_queued r).
Definition confirm (k : TransactionKey) (d : Delivery) (r : Router) : Router :=
  mkRouter (windows r) (acceptances r) (deliveries r) (_target_delivery_counts r)
    (_delivery_sequence r) (od_set (_ordinary_delivery_confirmations r) k d) (_queued r).

(** The whole state: router, ledgers by identity, world. *)
Record World := mkWorld {
  router : Router;
  ledgers : gmap string (Ledger Response);
  world : W }.

Definition ledger_of (id : string) (s : World) : Ledger Response :=
  default new_ledger (ledgers s !! id).
Definition set_router (f : Router → Router) (s : World) : World :=
  mkWorld (f (router s)) (ledgers s) (world s).
Definition put_ledger (id : string) (l : Ledger Response) (s : World) : World :=
  mkWorld (router s) (<[id := l]> (ledgers s)) (world s).

(** A method of a ledger that runs no target. *)
Definition on_ledger {B} (id : string) (m : M (Ledger Response) B) : M World B := λ s,
  let '(out, l) := m (ledger_of id s) in (out, put_ledger id l s).

(** A computation on the world alone. *)
Definition on_world {B} (m : M W B) : M World B := λ s,
  let '(out, w) := m (world s) in (out, mkWorld (router s) (ledgers s) w).

(** ** Queries *)

Definition device_of (i : Item) : string := device_id (p_window (i_prepared i)).
Definition target_of (i : Item) : string := target (p_window (i_prepared i)).

(** [pending_target_counts]: requests per target with one queued. *)
Definition pending_count (device : string) (r : Router) : Z :=
  Z.of_nat (length (filter (λ i, device_of i = device) (_queued r))).

(** The oldest queued request of a device, and its place. *)
Definition first_queued (device : string) (r : Router) : option (nat * Item) :=
  list_find (λ i, device_of i = device) (_queued r).

(** [device in ready_targets] *)
Definition ready_target (device : string) (s : World) : bool :=
  match first_queued device (router s) with
  | Some (_, i) => target_ready (ledger_of (i_ledger i) s) (i_key i)
  | None => false
  end.

(** [ordinary_delivery_confirmation] *)
Definition ordinary_delivery_confirmation (k : TransactionKey) (r : Router) : result Delivery :=
  match od_get (_ordinary_delivery_confirmations r) k with
  | Some d => Ok d
  | None => Err (ValueError "ordinary APB source callback is not confirmed")
  end.

(** ** Operations *)

(** [_access] *)
Definition _access (k : TransactionKey) (q : Request) (p : Prepared) : M W (Z * option A) :=
  match target_kind (target (p_window p)) with
  | Plain =>
      if is_write q then
        write_register (target (p_window p)) (p_offset p) (data32 p) (lane_be p) ;;
        mret (0, None)
      else
        v ← read_register (target (p_window p)) (p_offset p);
        mret (v, None)
  | _ =>
      va ← observed_access (mkAccess k (p_window p) q (p_offset p) (data32 p) (lane_be p));
      mret (va.1, Some va.2)
  end.

(** The data placed on the lane the address selects. *)
Definition response_of (q : Request) (readback : Z) : Response :=
  if is_write q then (0, 0)
  else (readback ≪ (if (beat_bytes q =? 8) && negb (address q &&& 4 =? 0) then 32 else 0), 0).

Definition delivery_of (k : TransactionKey) (q : Request) (p : Prepared) (access : option A)
    (response : Response) (order target_order : Z) (confirmed : option bool) : Delivery :=
  mkDelivery k (device_id (p_window p)) order target_order (address q) (beat_bytes q) (p_offset p)
    (is_write q) (lane_be p) (if is_write q then Some (data32 p) else None)
    (if is_write q then None else Some response.1) access confirmed.

(** The closure [deliver] of [drain_one]: it runs inside the ledger, on the
    router, the closure's variable [pending_delivery] and the world. *)
Definition deliver (k : TransactionKey) (q : Request) (p : Prepared)
    : M ((Router * option Delivery) * W) Response := λ '((r, pending), w),
  match _access k q p w with
  | (Err e, w) => (Err e, ((r, pending), w))
  | (Ok (readback, access), w) =>
      let response := response_of q readback in
      let r := count_delivery (device_id (p_window p)) r in
      let d := delivery_of k q p access response (_delivery_sequence r)
                 (default 0 (_target_delivery_counts r !! device_id (p_window p))) None in
      let r := if bool_decide (target_kind (target (p_window p)) = Plain)
               then add_delivery d r else r in
      (Ok response, ((r, Some d), w))
  end.

(** [enqueue] *)
Definition enqueue (ledger : string) (k : TransactionKey) (q : Request)
    (callback : Response → M W ()) : M World bool :=
  p ← reads (λ s, _prepare (windows (router s)) q);
  fresh ← on_ledger ledger (accept k (payload p));
  (if fresh : bool then
     modify (set_router (λ r, set_queued (_queued r ++ [mkItem ledger k q p callback]) r)) ;;
     modify (set_router (λ r, add_acceptance
       (mkAccept k (device_id (p_window p)) (Z.of_nat (length (acceptances r)) + 1) q (p_offset p)
          (lane_be p) (if is_write q then Some (data32 p) else None)) r))
   else mret ()) ;;
  mret fresh.

Definition _MAX_ORDINARY_DELIVERY_CONFIRMATIONS : Z := 65536.

Definition pop (index : nat) : World → World :=
  set_router (λ r, set_queued (delete index (_queued r)) r).

(** [ledger.complete_accepted(key, payload, deliver)]; the value of
    [pending_delivery] afterwards is part of the answer. *)
Definition complete_item (i : Item) : World → (result (option Response) * option Delivery) * World :=
  λ s,
  let '(out, (l, ((r, pending), w))) :=
    complete_accepted (i_key i) (payload (i_prepared i)) (deliver (i_key i) (i_request i) (i_prepared i))
      (ledger_of (i_ledger i) s, ((router s, None), world s)) in
  ((out, pending), mkWorld r (<[i_ledger i := l]> (ledgers s)) w).

(** The end of a drain, once the source was answered. *)
Definition confirm_delivery (kind : TargetKind) (k : TransactionKey) (pending : option Delivery)
    : World → World :=
  match kind, pending with
  | Plain, _ | _, None => id
  | Routed, Some d => set_router (add_delivery d)
  | Ordinary, Some d =>
      let d := mkDelivery (del_key d) (del_device d) (delivery_order d) (target_delivery_order d)
        (del_address d) (del_beat_bytes d) (del_offset d) (del_write d) (del_byte_enable d)
        (del_write_value d) (del_read_value d) (del_access d) (Some true) in
      set_router (λ r, add_delivery d (confirm k d r))
  end.

(** [drain_one] *)
Definition drain_one (device : string) : M World bool := λ s,
  match first_queued device (router s) with
  | None => (Ok false, s)
  | Some (index, i) =>
      if negb (target_ready (ledger_of (i_ledger i) s) (i_key i)) then (Ok false, s)
      else
        let kind := target_kind (target_of i) in
        if bool_decide (kind = Ordinary)
           && (_MAX_ORDINARY_DELIVERY_CONFIRMATIONS <=?
               Z.of_nat (length (_ordinary_delivery_confirmations (router s))))
        then (Err (ValueError "ordinary APB source confirmation capacity exceeded"), s)
        else
          let '((out, pending), s) := complete_item i s in
          match out with
          | Err e =>
              (Err e, if bool_decide (i_key i ∈ uncertain_keys (ledger_of (i_ledger i) s))
                      then pop index s else s)
          | Ok None => (Err (OtherError "callback of no response"), pop index s)
          | Ok (Some response) =>
              let s := pop index s in
              match on_world (i_callback i response) s with
              | (Ok _, s) => (Ok true, confirm_delivery kind (i_key i) pending s)
              | (Err e, s) =>
                  if bool_decide (kind = Plain) then (Err e, s)
                  else
                    let '(terminal, s) :=
                      on_world (delivery_failed (target_of i) (i_key i) (pending ≫= del_access)) s in
                    (* an ordinary target's own error is chained to the callback's *)
                    (match kind, terminal with
                     | Routed, Err e' => Err e'
                     | _, _ => Err e
                     end, s)
              end
          end
  end.

(** [cancel_for_ledger] *)
Fixpoint cancel_items (ledger : string) (items remaining : list Item) (cancelled : list TransactionKey)
    : M World (list TransactionKey) :=
  match items with
  | [] =>
      modify (set_router (set_queued remaining)) ;;
      mret cancelled
  | i :: items =>
      if bool_decide (i_ledger i = ledger) then
        on_ledger ledger (cancel_accepted (i_key i) (payload (i_prepared i))) ;;
        cancel_items ledger items remaining (cancelled ++ [i_key i])
      else cancel_items ledger items (remaining ++ [i]) cancelled
  end.
Definition cancel_for_ledger (ledger : string) : M World (list TransactionKey) := λ s,
  cancel_items ledger (_queued (router s)) [] [] s.

(** The closure [deliver] of [transact]. *)
Definition deliver_now (k : TransactionKey) (q : Request) (p : Prepared) : M (Router * W) Response :=
  λ '(r, w),
  match _access k q p w with
  | (Err e, w) => (Err e, (r, w))
  | (Ok (readback, access), w) =>
      let response := if is_write q then (0, 0)
                      else (readback ≪ (if high_lane p then 32 else 0), 0) in
      let r := count_delivery (device_id (p_window p)) r in
      (Ok response,
       (add_delivery (delivery_of k q p access response (_delivery_sequence r)
          (default 0 (_target_delivery_counts r !! device_id (p_window p)))
          (if bool_decide (target_kind (target (p_window p)) = Ordinary)
           then Some false else None)) r, w))
  end.

(** [transact] *)
Definition transact (ledger : string) (k : TransactionKey) (q : Request) : M World (option Response) := λ s,
  match _prepare (windows (router s)) q with
  | Err e => (Err e, s)
  | Ok p =>
      let '(out, (l, (r, w))) :=
        execute_once k (payload p) (deliver_now k q p) (ledger_of ledger s, (router s, world s)) in
      (out, mkWorld r (<[ledger := l]> (ledgers s)) w)
  end.
End router.
