(* ===== verification/RouterSpec.v ===== *)
(** * What the router guarantees

    Theorems about [Router]: the invariant that ties the queue to the ledgers
    over any sequence of calls, the behaviour of one drain, and the address and
    lane arithmetic of a request. *)

From S2P Require Import Prelude Json Isa Ledger Ownership Router.

Local Open Scope Z_scope.

(** ** One ledger method changes one entry *)

Section entries.
Context `{Hashlib} {T W : Type}.
Implicit Types (l : Ledger T) (k : TransactionKey).

Definition entry (l : Ledger T) (k : TransactionKey) : option (Entry T) := od_get (_entries l) k.

(** [l'] is [l] but for the entry of [k], which is [e]. *)
Definition entry_set (k : TransactionKey) (e : Entry T) (l l' : Ledger T) : Prop :=
  ∀ k', entry l' k' = if decide (k = k') then Some e else entry l k'.

Lemma entry_put k e l : entry_set k e l (put_entry k e l).
Proof. intros k'. apply od_get_set. Qed.

Lemma entry_set_trans k e e' l l1 l2 :
  entry_set k e l l1 → entry_set k e' l1 l2 → entry_set k e' l l2.
Proof. intros H1 H2 k'. rewrite H2, H1. by case_decide. Qed.

Lemma accept_cases k p l out l' :
  accept k p l = (out, l') →
  (out = Ok true ∧ entry l k = None ∧ ∃ d, _digest p = Ok d ∧ entry_set k (mkEntry d target_pending None) l l')
  ∨ (out ≠ Ok true ∧ l' = l).
Proof.
  unfold accept. unfold_M. fold (entry l k).
  destruct (_digest p) as [d|e]; [|intros [= <- <-]; by right].
  destruct (entry l k) as [e|] eqn:He.
  { destruct (raise_if _ _) as [[]|]; [|intros [= <- <-]; by right].
    destruct (status e); intros [= <- <-]; by right. }
  destruct (raise_if _ _) as [[]|]; [|intros [= <- <-]; by right].
  intros [= <- <-]. left. split_and!; [done|done|]. exists d. split; [done|].
  intros k'. apply od_get_set.
Qed.

Lemma cancel_cases k p l out l' :
  cancel_accepted k p l = (out, l') →
  (out = Ok () ∧ ∃ e, entry l k = Some e ∧ status e = target_pending ∧
     entry_set k (with_status e cancelled) l l') ∨ (out ≠ Ok () ∧ l' = l).
Proof.
  unfold cancel_accepted. unfold_M. fold (entry l k).
  destruct (_digest p) as [d|e]; [|intros [= <- <-]; by right].
  destruct (entry l k) as [e|] eqn:He; [|intros [= <- <-]; by right].
  case_decide; [|intros [= <- <-]; by right].
  case_raise Hs; [|intros [= <- <-]; by right].
  case_raise Ho; [|intros [= <- <-]; by right].
  intros [= <- <-]. left. split; [done|]. inv_Ok. exists e. split_and!; [done|done|].
  intros k'. apply od_get_set.
Qed.

Lemma run_target_cases k e n (op : M W T) l w out l' w' :
  run_target k e n op (l, w) = (out, (l', w')) →
  (∃ r, op w = (Ok r, w') ∧ out = Ok (Some r) ∧ entry_set k (with_receipt e r) l l') ∨
  (∃ ex, op w = (Err ex, w') ∧ out = Err ex ∧ entry_set k (with_status e uncertain_effect) l l').
Proof.
  unfold run_target. destruct (op w) as [[r|ex] w1]; intros [= <- <- <-]; [left|right].
  - exists r. split_and!; [done|done|]. intros k'. cbn. unfold entry. cbn. rewrite od_set_set. apply od_get_set.
  - exists ex. split_and!; [done|done|]. intros k'. unfold entry. cbn. rewrite od_set_set. apply od_get_set.
Qed.

(** A pending entry that is the next of its channel does run. *)
Lemma complete_ready k p d e (op : M W T) l w :
  _digest p = Ok d → entry l k = Some e → payload_digest e = d → target_ready l k = true →
  status e = target_pending ∧
  complete_accepted k p op (l, w) = run_target k e (next_target l (_channel k)) op (l, w).
Proof.
  intros Hd He Hp Hr. unfold target_ready in Hr. fold (entry l k) in Hr. rewrite He in Hr. inv_Ok.
  split; [done|]. unfold complete_accepted. unfold_M. fold (entry l k).
  rewrite Hd, He. rewrite bool_decide_eq_true_2 by done. cbn [negb raise_if].
  match goal with H : status e = _ |- _ => rewrite H end.
  rewrite decide_False by done. rewrite bool_decide_eq_true_2 by done. cbn [negb raise_if].
  match goal with H : (source_sequence k =? _) = true |- _ => rewrite H end. done.
Qed.

Lemma execute_cases k p (op : M W T) l w out l' w' :
  execute_once k p op (l, w) = (out, (l', w')) →
  (l' = l ∧ w' = w) ∨
  (entry l k = None ∧ ∃ e, entry_set k e l l' ∧ (status e = complete ∨ status e = uncertain_effect)).
Proof.
  unfold execute_once. unfold_M. fold (entry l k).
  destruct (_digest p) as [d|e]; [|intros [= <- <-]; by left].
  destruct (entry l k) as [e|] eqn:He.
  { destruct (raise_if _ _) as [[]|]; [|intros [= <- <-]; by left].
    destruct (raise_if _ _) as [[]|]; intros [= <- <-]; by left. }
  destruct (raise_if _ _) as [[]|]; [|intros [= <- <-]; by left].
  destruct (raise_if _ _) as [[]|]; [|intros [= <- <-]; by left].
  cbn [prod_map fst snd]. intros Hr. right. split; [done|].
  set (e0 := mkEntry d target_pending None) in *.
  assert (H0 : entry_set k e0 l (put_next_channel (_channel k) (next_channel l (_channel k) + 1) (put_entry k e0 l)))
    by (intros k'; apply od_get_set).
  apply run_target_cases in Hr as [(r & _ & _ & Hs)|(ex & _ & _ & Hs)].
  - exists (with_receipt e0 r). split; [by eapply entry_set_trans|by left].
  - exists (with_status e0 uncertain_effect). split; [by eapply entry_set_trans|by right].
Qed.

(** *** The ledger's own invariant *)

Definition sound (l : Ledger T) : Prop := ∃ log, ledger_ok l log.

Lemma new_sound : sound new_ledger.
Proof. exists []. apply ledger_ok_new. Qed.

Lemma accept_sound k p l : sound l → sound (accept k p l).2.
Proof. intros [log Hl]. exists log. by apply accept_ok. Qed.

Lemma cancel_sound k p l : sound l → sound (cancel_accepted k p l).2.
Proof. intros [log Hl]. exists log. by apply cancel_ok. Qed.

Lemma run_target_traced k e n (op : M W T) l w log :
  (run_target k e n (traced k op) (l, (w, log))).2.1 = (run_target k e n op (l, w)).2.1.
Proof. unfold run_target, traced. by destruct (op w) as [[]?]. Qed.

Lemma complete_sound k p (op : M W T) l w : sound l → sound (complete_accepted k p op (l, w)).2.1.
Proof.
  intros [log Hl]. pose proof (complete_ok l w log k p op Hl) as Hok.
  cut ((complete_accepted k p (traced k op) (l, (w, log))).2.1 = (complete_accepted k p op (l, w)).2.1).
  { intros <-. destruct (complete_accepted k p _ _) as [? [? [? ?]]]. eexists. exact Hok. }
  unfold complete_accepted. unfold_M.
  repeat (first [done | apply run_target_traced | case_match; simplify_eq/=]).
Qed.

Lemma execute_sound k p (op : M W T) l w : sound l → sound (execute_once k p op (l, w)).2.1.
Proof.
  intros [log Hl]. pose proof (execute_ok l w log k p op Hl) as Hok.
  cut ((execute_once k p (traced k op) (l, (w, log))).2.1 = (execute_once k p op (l, w)).2.1).
  { intros <-. destruct (execute_once k p _ _) as [? [? [? ?]]]. eexists. exact Hok. }
  unfold execute_once. unfold_M.
  repeat (first [done | apply run_target_traced | case_match; simplify_eq/=]).
Qed.

(** The oldest transaction of a channel that is not resolved is pending, when
    no effect is uncertain. *)
Lemma next_is_pending l k e :
  sound l → uncertain_keys l = [] → entry l k = Some e → status e = target_pending →
  ∃ k' e', entry l k' = Some e' ∧ status e' = target_pending ∧ _channel k' = _channel k ∧
    source_sequence k' = next_target l (_channel k) ∧ source_sequence k' ≤ source_sequence k.
Proof.
  intros [log Hl] Hu He Hp.
  pose proof (ok_range _ _ Hl _ _ He) as Hr. pose proof (ok_status _ _ Hl _ _ He) as Hs.
  pose proof (ok_targets _ _ Hl (_channel k)) as Ht. unfold status_ok in Hs. rewrite Hp in Hs.
  destruct (ok_contiguous _ _ Hl (_channel k) (next_target l (_channel k))) as (k' & e' & He' & Hc & Hn); [lia|].
  exists k', e'. split_and!; [done| |done|done|lia].
  pose proof (ok_status _ _ Hl _ _ He') as Hs'. unfold status_ok in Hs'. rewrite Hc in Hs'.
  destruct (status e') eqn:Hst; [done|done| |lia|lia].
  exfalso. apply (not_elem_of_nil k'). rewrite <- Hu. unfold uncertain_keys, keys_with.
  apply (list_elem_of_fmap_2 fst _ (k', e')), list_elem_of_filter. split; [cbn; by rewrite Hst|by apply od_get_elem].
Qed.

Lemma accept_sequence k p l l' :
  accept k p l = (Ok true, l') → source_sequence k = next_channel l (_channel k).
Proof.
  unfold accept. unfold_M. destruct (_digest p); [|done]. destruct (od_get _ _) as [e|].
  { case_raise Hd; [|done]. by destruct (status e). }
  case_raise Hs; [|done]. intros _. inv_Ok. lia.
Qed.

Lemma accept_newest k p l l' k' e :
  sound l → accept k p l = (Ok true, l') → entry l k' = Some e → _channel k' = _channel k →
  source_sequence k' < source_sequence k.
Proof.
  intros [log Hl] Ha He Hc. rewrite (accept_sequence _ _ _ _ Ha), <- Hc.
  by destruct (ok_range _ _ Hl _ _ He).
Qed.
End entries.

(** ** The queue and the ledgers *)

Section router.
Context `{Hashlib} {W A : Type} `{!Targets (W := W) (A := A)}.
Implicit Types (s : World (W := W) (A := A)) (i j : Item (W := W)).

Definition queue s : list Item := _queued (router s).

(** What a run calls, in any order: the router's operations, and synchronous
    operations of other clients of the same ledgers. *)
Inductive action : Type :=
  | Enqueue (ledger : string) (k : TransactionKey) (q : Request) (callback : Response → M W ())
  | Drain (device : string)
  | Barrier (ledger : string)
  | Transact (ledger : string) (k : TransactionKey) (q : Request)
  | Elsewhere (ledger : string) (k : TransactionKey) (payload : json) (operation : M W Response).

Definition elsewhere (ledger : string) (k : TransactionKey) (p : json) (op : M W Response) s : World (W := W) (A := A) :=
  let '(_, (l, w)) := execute_once k p op (ledger_of ledger s, world s) in
  mkWorld (router s) (<[ledger := l]> (ledgers s)) w.

Definition act s (a : action) : World :=
  match a with
  | Enqueue l k q cb => (enqueue l k q cb s).2
  | Drain d => (drain_one d s).2
  | Barrier l => (cancel_for_ledger l s).2
  | Transact l k q => (transact l k q s).2
  | Elsewhere l k p op => elsewhere l k p op s
  end.

(** A reset barrier that raised half way. *)
Definition interrupted s (a : action) : bool :=
  match a with
  | Barrier l => match (cancel_for_ledger l s).1 with Ok _ => false | Err _ => true end
  | _ => false
  end.

Definition acts s (l : list action) : World * bool :=
  foldl (λ sb a, (act sb.1 a, sb.2 || interrupted sb.1 a)) (s, false) l.

Definition before i j : Prop :=
  i_ledger i = i_ledger j → _channel (i_key i) = _channel (i_key j) →
  source_sequence (i_key i) < source_sequence (i_key j).

Definition entry_in s i : option (Entry Response) := entry (ledger_of (i_ledger i) s) (i_key i).

Record router_ok (b : bool) s : Prop := {
  rok_ledgers id : sound (ledger_of id s);
  rok_queued i : i ∈ queue s → ∃ e, entry_in s i = Some e ∧
    _digest (payload (i_prepared i)) = Ok (payload_digest e) ∧
    (status e = target_pending ∨ b = true ∧ status e = cancelled);
  rok_pending id k e : entry (ledger_of id s) k = Some e → status e = target_pending →
    ∃ i, i ∈ queue s ∧ i_ledger i = id ∧ i_key i = k;
  rok_order : StronglySorted before (queue s) }.

Lemma ledger_of_insert id id' l r m (w : W) :
  ledger_of id' (mkWorld (A := A) r (<[id := l]> m) w) =
    if decide (id = id') then l else default new_ledger (m !! id').
Proof. unfold ledger_of; cbn. rewrite lookup_insert. by case_decide. Qed.

Lemma ledger_of_put id id' l s :
  ledger_of id' (put_ledger id l s) = if decide (id = id') then l else ledger_of id' s.
Proof. apply ledger_of_insert. Qed.

Lemma ledger_of_router id f s : ledger_of id (set_router f s) = ledger_of id s.
Proof. done. Qed.

(** [s'] differs from [s] in the ledger [id], which is [l]. *)
Definition ledger_set (id : string) (l : Ledger Response) s s' : Prop :=
  ∀ id', ledger_of id' s' = if decide (id = id') then l else ledger_of id' s.

Lemma ledger_set_insert id l s r w : ledger_set id l s (mkWorld r (<[id := l]> (ledgers s)) w).
Proof. intros id'. apply ledger_of_insert. Qed.

Lemma ledger_set_same s id : ledger_set id (ledger_of id s) s s.
Proof. intros id'. by case_decide; subst. Qed.

Lemma router_ok_same b s s' :
  router_ok b s → queue s' = queue s → (∀ id, ledger_of id s' = ledger_of id s) → router_ok b s'.
Proof.
  intros [H1 H2 H3 H4] Hq Hl. split; unfold entry_in; rewrite ?Hq; [|intros i Hi|intros id k e|done].
  - intros id. by rewrite Hl.
  - rewrite Hl. by apply H2.
  - rewrite Hl. apply H3.
Qed.

Lemma sublist_sorted (R : Item (W := W) → Item → Prop) (l l' : list Item) :
  l' `sublist_of` l → StronglySorted R l → StronglySorted R l'.
Proof.
  induction 1 as [|x l l' Hs IH|x l l' Hs IH]; inversion_clear 1; [constructor|constructor|]; auto.
  eapply Forall_impl; [|done]. apply Forall_forall. intros y Hy.
  eapply Forall_forall; [done|]. by eapply elem_of_sublist.
Qed.

Lemma queued_unique b s l1 i l2 j :
  router_ok b s → queue s = l1 ++ i :: l2 → j ∈ l1 ++ l2 →
  i_ledger j = i_ledger i → i_key j = i_key i → False.
Proof.
  intros Hok Hq [Hj|Hj]%elem_of_app Hl Hk; pose proof (rok_order _ _ Hok) as Ho; rewrite Hq in Ho.
  - apply (StronglySorted_app_1_elem_of _ _ _ j i) in Ho; [|done|by left]. unfold before in Ho.
    rewrite Hk in Ho. specialize (Ho Hl eq_refl). lia.
  - apply StronglySorted_app_1_r, StronglySorted_cons in Ho as [Ho _].
    eapply Forall_forall in Ho; [|done]. unfold before in Ho. rewrite Hk in Ho.
    specialize (Ho (eq_sym Hl) eq_refl). lia.
Qed.

(** One entry of one ledger is resolved, and the requests that leave the queue
    are those of that entry. *)
Lemma router_ok_resolve b b' s s' id k e l' :
  router_ok b s → ledger_set id l' s s' → sound l' → entry_set k e (ledger_of id s) l' →
  queue s' `sublist_of` queue s → status e ≠ target_pending → (b = true → b' = true) →
  (∀ i, i ∈ queue s' → i_ledger i = id → i_key i = k →
    b' = true ∧ status e = cancelled ∧ _digest (payload (i_prepared i)) = Ok (payload_digest e)) →
  (∀ i, i ∈ queue s → i ∈ queue s' ∨ i_ledger i = id ∧ i_key i = k) → router_ok b' s'.
Proof.
  intros Hok Hl Hs He Hsub Hst Hb Hin Hout. split.
  - intros id'. rewrite Hl. case_decide; [done|apply Hok].
  - intros i Hi. assert (Hi' : i ∈ queue s) by by eapply elem_of_sublist.
    destruct (rok_queued _ _ Hok i Hi') as (ei & Hei & Hd & Hsi). unfold entry_in in *.
    rewrite Hl. case_decide as Hid; [|by exists ei; naive_solver].
    rewrite He. case_decide as Hik; [|subst; by exists ei; naive_solver].
    destruct (Hin i Hi) as (? & ? & ?); [done|done|]. exists e. auto.
  - intros id' k' e'. rewrite Hl. intros Hk' Hp'.
    assert (∃ i, i ∈ queue s ∧ i_ledger i = id' ∧ i_key i = k' ∧ ¬ (id = id' ∧ k = k')) as (i & Hi & Hil & Hik & Hne).
    { case_decide as Hid.
      - rewrite He in Hk'. case_decide as Hkk; [by simplify_eq|]. subst id'.
        destruct (rok_pending _ _ Hok id k' e') as (i & ? & ? & ?); naive_solver.
      - destruct (rok_pending _ _ Hok id' k' e') as (i & ? & ? & ?); naive_solver. }
    exists i. split; [|done]. destruct (Hout i Hi); [done|naive_solver].
  - eapply sublist_sorted; [done|apply Hok].
Qed.

(** *** The operations *)

Lemma enqueue_ok b s l k q cb : router_ok b s → router_ok b (enqueue l k q cb s).2.
Proof.
  intros Hok. unfold enqueue. unfold_M. unfold on_ledger.
  destruct (_prepare _ q) as [p|]; [|done].
  pose proof (rok_ledgers _ _ Hok l) as Hs.
  destruct (accept k (payload p) (ledger_of l s)) as [out l'] eqn:Ha.
  pose proof (accept_sound k (payload p) _ Hs) as Hs'. rewrite Ha in Hs'; cbn in Hs'.
  pose proof (accept_cases _ _ _ _ _ Ha) as [(-> & Hn & d & Hd & He)|[Hout ->]].
  2: { assert (Hsame : router_ok b (put_ledger l (ledger_of l s) s)).
       { eapply router_ok_same; [done|done|]. intros id. rewrite ledger_of_put.
         by case_decide; subst. }
       destruct out as [[]|]; [done|exact Hsame|exact Hsame]. }
  cbn. split; unfold queue, entry_in; cbn.
  - intros id. rewrite !ledger_of_router, ledger_of_put. case_decide; [done|apply Hok].
  - intros i [Hi|Hi%list_elem_of_singleton]%elem_of_app; rewrite !ledger_of_router, ledger_of_put.
    + destruct (rok_queued _ _ Hok i Hi) as (ei & Hei & Hr). unfold entry_in in Hei.
      exists ei. split; [|done]. case_decide; [|done]. subst l. rewrite He.
      rewrite decide_False; [done|]. intros Hk. rewrite <- Hk in Hei. congruence.
    + subst i; cbn. rewrite decide_True by done. rewrite He, decide_True by done. eexists. split; [done|]. auto.
  - intros id k' e'. rewrite !ledger_of_router, ledger_of_put. case_decide as Hid.
    + rewrite He. case_decide as Hkk.
      * intros _ _. eexists. split; [apply elem_of_app; right; by apply list_elem_of_singleton|done].
      * subst id. intros Hk' Hp. destruct (rok_pending _ _ Hok _ _ _ Hk' Hp) as (i & Hi & ?).
        exists i. split; [by apply elem_of_app; left|done].
    + intros Hk' Hp. destruct (rok_pending _ _ Hok _ _ _ Hk' Hp) as (i & Hi & ?).
      exists i. split; [by apply elem_of_app; left|done].
  - apply StronglySorted_app. split_and!; [|apply Hok|repeat constructor].
    intros i j Hi ->%list_elem_of_singleton Hl Hc; cbn in *.
    destruct (rok_queued _ _ Hok i Hi) as (e & Hei & _). unfold entry_in in Hei. rewrite Hl in Hei.
    exact (accept_newest _ _ _ _ _ _ Hs Ha Hei Hc).
Qed.

Lemma deliver_queue k q p r pend (w : W) :
  _queued (deliver k q p ((r, pend), w)).2.1.1 = _queued r.
Proof. unfold deliver. destruct (_access _ _ _ _) as [[[v a]|]?]; [cbn; by case_bool_decide|done]. Qed.

(** The completion of a ready request runs its access once. *)
Lemma complete_item_cases s i e out pending s' :
  entry_in s i = Some e → _digest (payload (i_prepared i)) = Ok (payload_digest e) →
  target_ready (ledger_of (i_ledger i) s) (i_key i) = true →
  complete_item i s = ((out, pending), s') →
  status e = target_pending ∧ queue s' = queue s ∧
  ∃ l', ledger_set (i_ledger i) l' s s' ∧ (sound (ledger_of (i_ledger i) s) → sound l') ∧
  ((∃ v a, _access (i_key i) (i_request i) (i_prepared i) (world s) = (Ok (v, a), world s') ∧
     out = Ok (Some (response_of (i_request i) v)) ∧
     entry_set (i_key i) (with_receipt e (response_of (i_request i) v)) (ledger_of (i_ledger i) s) l') ∨
   (∃ ex, _access (i_key i) (i_request i) (i_prepared i) (world s) = (Err ex, world s') ∧ out = Err ex ∧
     entry_set (i_key i) (with_status e uncertain_effect) (ledger_of (i_ledger i) s) l')).
Proof.
  unfold entry_in. intros He Hd Hr. unfold complete_item.
  pose proof (complete_ready _ _ _ _ (deliver (i_key i) (i_request i) (i_prepared i)) _
    ((router s, None), world s) Hd He eq_refl Hr) as [Hp Hrun].
  pose proof (complete_sound (i_key i) (payload (i_prepared i)) (deliver (i_key i) (i_request i) (i_prepared i))
    (ledger_of (i_ledger i) s) ((router s, None), world s)) as Hs.
  rewrite Hrun in Hs |- *. destruct (run_target _ _ _ _ _) as [o [l' [[r pd] w]]] eqn:Ht.
  intros [= <- <- <-]. split; [done|].
  pose proof (deliver_queue (i_key i) (i_request i) (i_prepared i) (router s) None (world s)) as Hq.
  apply run_target_cases in Ht as [(x & Hop & -> & Hset)|(ex & Hop & -> & Hset)]; rewrite Hop in Hq;
    (split; [exact Hq|]); exists l'; (split; [apply ledger_set_insert|]); (split; [exact Hs|]).
  - left. unfold deliver in Hop. destruct (_access _ _ _ _) as [[[v a]|]?]; [|done].
    injection Hop as <- ? ? ->. by exists v, a.
  - right. unfold deliver in Hop. destruct (_access _ _ _ _) as [[[v a]|]?]; [done|].
    injection Hop as <- ? ? ->. by exists e0.
Qed.

(** The router has no room for another confirmation of an ordinary target. *)
Definition confirmations_full i s : Prop :=
  target_kind (target_of i) = Ordinary ∧
  _MAX_ORDINARY_DELIVERY_CONFIRMATIONS ≤ Z.of_nat (length (_ordinary_delivery_confirmations (router s))).
Definition capacity_exceeded : exn := ValueError "ordinary APB source confirmation capacity exceeded".

(** [i] is the oldest queued request of the device, is the next of its channel
    and does not need room that is not there; it leaves the queue, no other
    ledger than its own changes, and in that one only its entry does. *)
Record serves (device : string) s i (e e' : Entry Response) s' : Prop := {
  served_queue : ∃ l1 l2, queue s = l1 ++ i :: l2 ∧ queue s' = l1 ++ l2 ∧
    Forall (λ j, device_of j ≠ device) l1;
  served_device : device_of i = device;
  served_ready : target_ready (ledger_of (i_ledger i) s) (i_key i) = true;
  served_room : ¬ confirmations_full i s;
  served_entry : entry_in s i = Some e ∧ status e = target_pending;
  served_ledger : ∃ l', ledger_set (i_ledger i) l' s s' ∧ sound l' ∧
    entry_set (i_key i) e' (ledger_of (i_ledger i) s) l' }.

(** What a drain does to the state, and when. *)
Inductive drained (device : string) s : result bool → World (W := W) (A := A) → Prop :=
  | drained_idle : ready_target device s = false → drained device s (Ok false) s
  | drained_full index i : first_queued device (router s) = Some (index, i) →
      target_ready (ledger_of (i_ledger i) s) (i_key i) = true → confirmations_full i s →
      drained device s (Err capacity_exceeded) s
  | drained_uncertain i e ex s' :
      serves device s i e (with_status e uncertain_effect) s' →
      _access (i_key i) (i_request i) (i_prepared i) (world s) = (Err ex, world s') →
      drained device s (Err ex) s'
  | drained_unanswered i e v a ex ex' w w' s' :
      serves device s i e (with_receipt e (response_of (i_request i) v)) s' →
      _access (i_key i) (i_request i) (i_prepared i) (world s) = (Ok (v, a), w) →
      i_callback i (response_of (i_request i) v) w = (Err ex, w') →
      ex' = ex ∨ target_kind (target_of i) = Routed →
      (target_kind (target_of i) = Plain → world s' = w') →
      drained device s (Err ex') s'
  | drained_served i e v a w s' :
      serves device s i e (with_receipt e (response_of (i_request i) v)) s' →
      _access (i_key i) (i_request i) (i_prepared i) (world s) = (Ok (v, a), w) →
      i_callback i (response_of (i_request i) v) w = (Ok (), world s') →
      drained device s (Ok true) s'.

Lemma first_queued_split device (r : Router (W := W) (A := A)) index i :
  first_queued device r = Some (index, i) →
  ∃ l1 l2, _queued r = l1 ++ i :: l2 ∧ delete index (_queued r) = l1 ++ l2 ∧
    Forall (λ j, device_of j ≠ device) l1 ∧ device_of i = device.
Proof.
  unfold first_queued. intros (Hl & Hd & Hf)%list_find_Some.
  exists (take index (_queued r)), (drop (S index) (_queued r)).
  split_and!; [by rewrite take_drop_middle|by rewrite delete_take_drop| |done].
  apply Forall_lookup. intros n j [Hj Hn]%lookup_take_Some. by eapply Hf.
Qed.

Lemma uncertain_keys_elem (l : Ledger Response) k e :
  entry l k = Some e → status e = uncertain_effect → k ∈ uncertain_keys l.
Proof.
  intros He Hs. unfold uncertain_keys, keys_with.
  apply (list_elem_of_fmap_2 fst _ (k, e)), list_elem_of_filter.
  split; [cbn; by rewrite Hs|by apply od_get_elem].
Qed.

Lemma confirm_queue kind k pend s : queue (confirm_delivery kind k pend s) = queue s.
Proof. by destruct kind, pend. Qed.
Lemma confirm_ledger kind k pend s id : ledger_of id (confirm_delivery kind k pend s) = ledger_of id s.
Proof. by destruct kind, pend. Qed.
Lemma confirm_world kind k pend s : world (confirm_delivery kind k pend s) = world s.
Proof. by destruct kind, pend. Qed.

Lemma drain_cases b s device out s' :
  router_ok b s → drain_one device s = (out, s') → drained device s out s'.
Proof.
  intros Hok. unfold drain_one.
  destruct (first_queued device (router s)) as [[index i]|] eqn:Hf.
  2: { intros [= <- <-]. apply drained_idle. unfold ready_target. by rewrite Hf. }
  destruct (target_ready (ledger_of (i_ledger i) s) (i_key i)) eqn:Hr; cbn [negb].
  2: { intros [= <- <-]. apply drained_idle. unfold ready_target. by rewrite Hf. }
  destruct (bool_decide _ && _) eqn:Hcap.
  { intros [= <- <-]. apply andb_true_iff in Hcap as [Hk Hc].
    apply bool_decide_eq_true in Hk. eapply drained_full; [done|done|split; [done|lia]]. }
  assert (Hroom : ¬ confirmations_full i s).
  { intros [Hk Hfull]. rewrite bool_decide_eq_true_2 in Hcap by done. cbn in Hcap. lia. }
  destruct (first_queued_split _ _ _ _ Hf) as (l1 & l2 & Hq & Hdel & Hl1 & Hdev).
  assert (Hi : i ∈ queue s) by (unfold queue; rewrite Hq; set_solver).
  destruct (rok_queued _ _ Hok i Hi) as (e & He & Hdig & _).
  destruct (complete_item i s) as [[o pend] s1] eqn:Hc.
  destruct (complete_item_cases s i e o pend s1 He Hdig Hr Hc) as (Hp & Hq1 & l' & Hset & Hsound & Hcase).
  specialize (Hsound (rok_ledgers _ _ Hok _)).
  assert (Hserves : ∀ e' s2, queue s2 = delete index (queue s1) →
    (∀ id, ledger_of id s2 = ledger_of id s1) →
    entry_set (i_key i) e' (ledger_of (i_ledger i) s) l' → serves device s i e e' s2).
  { intros e' s2 Hq2 Hl2 He'. split; [|done..|].
    - exists l1, l2. split_and!; [done| |done]. rewrite Hq2, Hq1. exact Hdel.
    - exists l'. split_and!; [|done|done]. intros id. rewrite Hl2. apply Hset. }
  destruct Hcase as [(v & a & Ha & -> & He')|(ex & Ha & -> & He')].
  - unfold on_world. cbn [pop set_router world].
    destruct (i_callback i _ (world s1)) as [[[]|ex] w2] eqn:Hcb.
    + intros [= <- <-]. eapply drained_served; [|exact Ha|by rewrite confirm_world].
      apply Hserves; [by rewrite confirm_queue|intros id; by rewrite confirm_ledger|done].
    + assert (serves device s i e (with_receipt e (response_of (i_request i) v))
        (mkWorld (router (pop index s1)) (ledgers (pop index s1)) w2)) by by apply Hserves.
      clear Hcap. case_bool_decide as Hplain.
      { intros [= <- <-]. eapply drained_unanswered; [done|exact Ha|exact Hcb|by left|done]. }
      destruct (delivery_failed _ _ _ _) as [terminal w3].
      destruct (target_kind (target_of i)) eqn:Hkind, terminal; intros [= <- <-];
        (eapply drained_unanswered; [by apply Hserves|exact Ha|exact Hcb|rewrite Hkind; auto|by rewrite Hkind]).
  - rewrite bool_decide_eq_true_2.
    2: { apply (uncertain_keys_elem _ _ (with_status e uncertain_effect)); [|done].
         rewrite Hset, decide_True by done. rewrite He'. by rewrite decide_True. }
    intros [= <- <-]. eapply drained_uncertain; [by apply Hserves|exact Ha].
Qed.

Lemma drained_ok b s device out s' : router_ok b s → drained device s out s' → router_ok b s'.
Proof.
  intros Hok Hd.
  assert (Hserves : ∀ i e e', serves device s i e e' s' → status e' ≠ target_pending → router_ok b s').
  { intros i e e' [(l1 & l2 & Hq & Hq' & _) _ _ _ _ (l' & Hset & Hs & He')] Hst.
    eapply router_ok_resolve; [done|done|done|done| |done|done| |].
    - rewrite Hq, Hq'. apply sublist_app; [done|]. by apply sublist_cons.
    - intros j Hj Hl Hk. exfalso. rewrite Hq' in Hj. by eapply queued_unique.
    - intros j. rewrite Hq, Hq'. intros [Hj|[->|Hj]%elem_of_cons]%elem_of_app; [left|by right|left]; set_solver. }
  destruct Hd; [done|done|..]; by eapply Hserves.
Qed.

Lemma router_ok_weaken b s : router_ok b s → router_ok true s.
Proof.
  intros Hok. split; [apply Hok| |apply Hok|apply Hok].
  intros i Hi. destruct (rok_queued _ _ Hok i Hi) as (e & ? & ? & ?). exists e. naive_solver.
Qed.

Lemma filter_sublist (P : Item (W := W) → Prop) `{∀ i, Decision (P i)} (l : list Item) :
  filter P l `sublist_of` l.
Proof.
  induction l as [|x l IH]; [done|]. rewrite filter_cons. case_decide; by constructor.
Qed.

(** The cancelled requests leave the queue. *)
Lemma barrier_commit b l s0 s :
  router_ok b s0 → router_ok true s → queue s = queue s0 →
  (∀ id, id ≠ l → ledger_of id s = ledger_of id s0) →
  (∀ i, i ∈ queue s → i_ledger i = l → ∃ e, entry_in s i = Some e ∧ status e = cancelled) →
  router_ok b (set_router (set_queued (filter (λ i, i_ledger i ≠ l) (queue s))) s).
Proof.
  intros H0 Hok Hq Hoth Hdone. split; [apply Hok| | |].
  - intros i [Hne Hi]%list_elem_of_filter. unfold entry_in. rewrite ledger_of_router, Hoth by done.
    rewrite Hq in Hi. by apply (rok_queued _ _ H0 i).
  - intros id k e He Hp. destruct (rok_pending _ _ Hok id k e He Hp) as (i & Hi & Hid & Hk).
    exists i. split_and!; [|done|done]. apply list_elem_of_filter. split; [|done]. intros Hl.
    destruct (Hdone i Hi Hl) as (e' & He' & Hc). unfold entry_in in He'. subst id k.
    rewrite ledger_of_router in He. congruence.
  - eapply sublist_sorted; [apply filter_sublist|apply Hok].
Qed.

Lemma cancel_items_ok b l s0 items : ∀ past s acc out s',
  router_ok b s0 → router_ok true s → queue s = queue s0 → queue s = past ++ items →
  (∀ id, id ≠ l → ledger_of id s = ledger_of id s0) →
  (∀ i, i ∈ past → i_ledger i = l → ∃ e, entry_in s i = Some e ∧ status e = cancelled) →
  cancel_items l items (filter (λ i, i_ledger i ≠ l) past) acc s = (out, s') →
  match out with
  | Ok _ => router_ok b s' ∧ queue s' = filter (λ i, i_ledger i ≠ l) (queue s0)
  | Err _ => router_ok true s'
  end.
Proof.
  induction items as [|i items IH]; intros past s acc out s' H0 Hok Hq Hsplit Hoth Hpast.
  { cbn. unfold_M. intros [= <- <-]. rewrite app_nil_r in Hsplit. subst past. split.
    - by apply (barrier_commit b l s0 s).
    - unfold queue at 1; cbn. by rewrite Hq. }
  cbn [cancel_items]. case_bool_decide as Hl.
  2: { intros Hc. eapply (IH (past ++ [i]) s); try done.
       - by rewrite <- app_assoc.
       - intros j [Hj| ->%list_elem_of_singleton]%elem_of_app; [by apply Hpast|done].
       - rewrite filter_app, filter_cons, decide_True by done. exact Hc. }
  unfold mbind at 1, M_bind at 1, on_ledger.
  destruct (cancel_accepted _ _ _) as [o l'] eqn:Hc.
  pose proof (cancel_sound (i_key i) (payload (i_prepared i)) _ (rok_ledgers _ _ Hok l)) as Hs'.
  rewrite Hc in Hs'; cbn in Hs'.
  assert (Hi : i ∈ queue s) by (rewrite Hsplit; set_solver).
  destruct (cancel_cases _ _ _ _ _ Hc) as [(-> & e & He & Hp & Hset)|[Ho ->]].
  2: { destruct o as [[]|ex]; [done|]. intros [= <- <-]. eapply router_ok_same; [done|done|].
       intros id. rewrite ledger_of_put. by case_decide; subst. }
  intros Hrun. eapply (IH (past ++ [i]) (put_ledger l l' s)); try done.
  - eapply (router_ok_resolve true true s _ l (i_key i)); try done.
    + intros id. apply ledger_of_put.
    + intros j Hj Hjl Hjk. split_and!; [done|done|]. destruct (rok_queued _ _ Hok j Hj) as (ej & Hej & Hdj & _).
      unfold entry_in in Hej. rewrite Hjl, Hjk in Hej. rewrite Hdj. cbn. congruence.
    + intros j Hj. by left.
  - by rewrite <- app_assoc.
  - intros id Hid. rewrite ledger_of_put, decide_False by done. by apply Hoth.
  - intros j Hj Hjl. unfold entry_in. rewrite ledger_of_put, decide_True by done. rewrite Hset.
    apply elem_of_app in Hj as [Hj| ->%list_elem_of_singleton].
    + case_decide as Hk; [by eexists|]. destruct (Hpast j Hj Hjl) as (ej & Hej & ?). unfold entry_in in Hej.
      rewrite Hjl in Hej. by exists ej.
    + rewrite decide_True by done. by eexists.
  - rewrite filter_app, filter_cons, decide_False, app_nil_r by naive_solver. exact Hrun.
Qed.

Lemma barrier_ok b s l out s' :
  router_ok b s → cancel_for_ledger l s = (out, s') →
  match out with
  | Ok _ => router_ok b s' ∧ queue s' = filter (λ i, i_ledger i ≠ l) (queue s)
  | Err _ => router_ok true s'
  end.
Proof.
  intros Hok. apply (cancel_items_ok b l s (queue s) []); try done; [by eapply router_ok_weaken|].
  by intros i ?%not_elem_of_nil.
Qed.

(** A transaction executed at once was not queued and does not stay pending. *)
Lemma execute_router_ok {X} b s s' id k p (op : M X Response) (x x' : X) out l' :
  router_ok b s → execute_once k p op (ledger_of id s, x) = (out, (l', x')) →
  ledger_set id l' s s' → queue s' = queue s → router_ok b s'.
Proof.
  intros Hok Hx Hset Hq.
  pose proof (execute_sound k p op _ x (rok_ledgers _ _ Hok id)) as Hs. rewrite Hx in Hs; cbn in Hs.
  destruct (execute_cases _ _ _ _ _ _ _ _ Hx) as [[-> _]|(Hn & e & He & Hst)].
  - eapply router_ok_same; [done|done|]. intros id'. rewrite Hset. by case_decide; subst.
  - eapply router_ok_resolve; [done|done|done|done|by rewrite Hq| |done| |].
    + destruct Hst as [-> | ->]; done.
    + intros i Hi Hl Hk. rewrite Hq in Hi. destruct (rok_queued _ _ Hok i Hi) as (ei & Hei & _).
      unfold entry_in in Hei. congruence.
    + intros i Hi. rewrite Hq. by left.
Qed.

Lemma deliver_now_queue k q p r (w : W) : _queued (deliver_now k q p (r, w)).2.1 = _queued r.
Proof. unfold deliver_now. by destruct (_access _ _ _ _) as [[[v a]|]?]. Qed.

Lemma execute_queue k p k' q p' (l : Ledger Response) r (w : W) :
  _queued (execute_once k p (deliver_now k' q p') (l, (r, w))).2.2.1 = _queued r.
Proof.
  pose proof (deliver_now_queue k' q p' r w) as Hq.
  unfold execute_once, run_target. unfold_M.
  repeat (first [done | case_match; simplify_eq/=]).
Qed.

Lemma transact_ok b s l k q : router_ok b s → router_ok b (transact l k q s).2.
Proof.
  intros Hok. unfold transact. destruct (_prepare _ _) as [p|]; [|done].
  pose proof (execute_queue k (payload p) k q p (ledger_of l s) (router s) (world s)) as Hq.
  destruct (execute_once _ _ _ _) as [o [l' [r w]]] eqn:Hx.
  eapply execute_router_ok; [done|exact Hx|apply ledger_set_insert|exact Hq].
Qed.

Lemma elsewhere_ok b s l k p op : router_ok b s → router_ok b (elsewhere l k p op s).
Proof.
  intros Hok. unfold elsewhere. destruct (execute_once _ _ _ _) as [o [l' w]] eqn:Hx.
  eapply execute_router_ok; [done|exact Hx|apply ledger_set_insert|done].
Qed.

Lemma act_ok b s a : router_ok b s → router_ok (b || interrupted s a) (act s a).
Proof.
  intros Hok. destruct a as [l k q cb|d|l|l k q|l k p op]; cbn; rewrite ?orb_false_r.
  - by apply enqueue_ok.
  - destruct (drain_one d s) as [out s'] eqn:Hd. eapply drained_ok; [done|by eapply drain_cases].
  - destruct (cancel_for_ledger l s) as [out s'] eqn:Hc. pose proof (barrier_ok _ _ _ _ _ Hok Hc) as Hb.
    destruct out; cbn; rewrite ?orb_false_r, ?orb_true_r; [apply Hb|done].
  - by apply transact_ok.
  - by apply elsewhere_ok.
Qed.

(** The router as the session makes it: nothing queued, every ledger new. *)
Definition fresh s : Prop := queue s = [] ∧ ledgers s = ∅.

Lemma fresh_ok s : fresh s → router_ok false s.
Proof.
  intros [Hq Hl]. assert (Hn : ∀ id, ledger_of id s = new_ledger)
    by (intros id; unfold ledger_of; by rewrite Hl, lookup_empty).
  split; rewrite ?Hq; [intros id|by intros i ?%not_elem_of_nil|intros id k e|constructor]; rewrite Hn; [apply new_sound|done].
Qed.

Lemma acts_ok s l : fresh s → router_ok (acts s l).2 (acts s l).1.
Proof.
  intros Hf. unfold acts. assert (Hok : router_ok false s) by by apply fresh_ok. revert Hok.
  generalize false. generalize s. induction l as [|a l IH]; cbn; intros s1 b Hok; [done|].
  by apply IH, act_ok.
Qed.

(** ** The properties *)

(** The queue is the pending requests.  Whatever is called in whatever
    order on a new router (enqueues, drains whose targets or callbacks raise,
    reset barriers, synchronous accesses, other clients of the ledgers), a
    request pending in a ledger is queued, each queued request was accepted
    with its own payload and no transaction is queued twice; every queued
    request is pending as long as no reset barrier raised half way. *)
Lemma queue_is_the_pending_requests (s : World (W := W) (A := A)) l :
  fresh s →
  let '(s', barrier_raised) := acts s l in
  (∀ id k e, entry (ledger_of id s') k = Some e → status e = target_pending →
     ∃ i, i ∈ queue s' ∧ i_ledger i = id ∧ i_key i = k) ∧
  (∀ i, i ∈ queue s' → ∃ e, entry_in s' i = Some e ∧
     _digest (payload (i_prepared i)) = Ok (payload_digest e) ∧
     (status e = target_pending ∨ barrier_raised = true ∧ status e = cancelled)) ∧
  NoDup ((λ i, (i_ledger i, i_key i)) <$> queue s').
Proof.
  intros Hf. pose proof (acts_ok s l Hf) as Hok. destruct (acts s l) as [s' b]; cbn in Hok.
  split_and!; [apply Hok|apply Hok|].
  pose proof (rok_order _ _ Hok) as Ho. induction Ho as [|i q Ho IH Hi]; cbn; [constructor|].
  constructor; [|done]. intros (j & Heq & Hj)%list_elem_of_fmap. injection Heq as Hl Hk.
  eapply Forall_forall in Hi; [|done]. unfold before in Hi. rewrite Hk in Hi. specialize (Hi Hl eq_refl). lia.
Qed.

(** C32. A drain concerns the oldest queued request of its device, and nothing
    else.  When there is none, or it is not the next of its source channel, the
    drain changes nothing and returns false; when its target is an ordinary APB
    one and the router already holds as many confirmations of such targets as it
    keeps, the drain changes nothing and raises.  Otherwise the request leaves the
    queue, its target is accessed exactly once, and its entry becomes uncertain
    when the access raised and complete with the answer otherwise, the source
    being answered once; true is returned exactly when the source took the
    answer. *)
Theorem drain_serves_the_oldest (s : World (W := W) (A := A)) l device :
  fresh s → let s' := (acts s l).1 in
  drained device s' (drain_one device s').1 (drain_one device s').2.
Proof.
  intros Hf. pose proof (acts_ok s l Hf) as Hok. cbn zeta. eapply drain_cases; [exact Hok|].
  apply surjective_pairing.
Qed.

Lemma oldest_ready b s i rest :
  router_ok b s → b = false → queue s = i :: rest → uncertain_keys (ledger_of (i_ledger i) s) = [] →
  target_ready (ledger_of (i_ledger i) s) (i_key i) = true.
Proof.
  intros Hok -> Hq Hu. assert (Hi : i ∈ queue s) by (rewrite Hq; left).
  destruct (rok_queued _ _ Hok i Hi) as (e & He & _ & [Hp|[? _]]); [|done].
  destruct (next_is_pending _ _ _ (rok_ledgers _ _ Hok _) Hu He Hp) as (k' & e' & He' & Hp' & Hc & Hn & Hle).
  destruct (rok_pending _ _ Hok _ _ _ He' Hp') as (j & Hj & Hjl & Hjk).
  unfold target_ready. unfold entry_in, entry in He. rewrite He, Hp. cbn. apply Z.eqb_eq. rewrite <- Hn.
  rewrite Hq in Hj. apply elem_of_cons in Hj as [->|Hj]; [by rewrite Hjk|].
  pose proof (rok_order _ _ Hok) as Ho. rewrite Hq in Ho. apply StronglySorted_cons in Ho as [Ho _].
  eapply Forall_forall in Ho; [|exact Hj]. unfold before in Ho. rewrite Hjk, Hc in Ho.
  specialize (Ho (eq_sym Hjl) eq_refl). lia.
Qed.

(** C33. The router makes progress.  After any calls (no reset barrier having
    raised half way), as long as the ledger of the oldest queued request knows of
    no uncertain effect, that request is the next of its channel; and a drain of
    its device serves it, if the target and the source answer and, in the case of
    an ordinary APB target, the router has room for its confirmation. *)
Theorem oldest_request_is_served (s : World (W := W) (A := A)) l i rest v a w w' :
  fresh s → let s' := (acts s l).1 in
  (acts s l).2 = false → queue s' = i :: rest → uncertain_keys (ledger_of (i_ledger i) s') = [] →
  _access (i_key i) (i_request i) (i_prepared i) (world s') = (Ok (v, a), w) →
  i_callback i (response_of (i_request i) v) w = (Ok (), w') →
  (target_kind (target_of i) = Ordinary →
   Z.of_nat (length (_ordinary_delivery_confirmations (router s'))) < _MAX_ORDINARY_DELIVERY_CONFIRMATIONS) →
  ready_target (device_of i) s' = true ∧
  ∃ s'', drain_one (device_of i) s' = (Ok true, s'') ∧ queue s'' = rest ∧ world s'' = w'.
Proof.
  intros Hf s' Hb Hq Hu Ha Hcb Hcap. pose proof (acts_ok s l Hf) as Hok. rewrite Hb in Hok. fold s' in Hok.
  pose proof (oldest_ready _ _ _ _ Hok eq_refl Hq Hu) as Hr.
  assert (Hfirst : first_queued (device_of i) (router s') = Some (0%nat, i)).
  { unfold first_queued. unfold queue in Hq. rewrite Hq. cbn. by rewrite decide_True. }
  split; [unfold ready_target; by rewrite Hfirst|].
  destruct (rok_queued _ _ Hok i ltac:(rewrite Hq; left)) as (e & He & Hd & _).
  unfold drain_one. rewrite Hfirst, Hr. cbn [negb].
  assert (bool_decide (target_kind (target_of i) = Ordinary) && (_MAX_ORDINARY_DELIVERY_CONFIRMATIONS <=?
    Z.of_nat (length (_ordinary_delivery_confirmations (router s')))) = false) as ->
    by (case_bool_decide; [cbn; apply Z.leb_gt; auto|done]).
  destruct (complete_item i s') as [[o pend] s1] eqn:Hc.
  destruct (complete_item_cases s' i e o pend s1 He Hd Hr Hc) as (_ & Hq1 & l' & _ & _ & [(v' & a' & Ha' & -> & _)|(? & Ha' & _)]);
    rewrite Ha in Ha'; simplify_eq.
  unfold on_world. cbn [pop set_router world]. rewrite Hcb. eexists. split; [done|].
  rewrite confirm_queue, confirm_world. split; [|done].
  unfold queue, pop, set_router, set_queued; cbn. fold (queue s1). by rewrite Hq1, Hq.
Qed.
End router.

(** ** Windows and lanes *)

(** Byte [j] of a value, and the first byte of the lane the address selects. *)
Definition byte_of (x j : Z) : Z := (x ≫ (8 * j)) &&& 255.
Definition lane_base (q : Request) : Z :=
  if (beat_bytes q =? 8) && negb (address q &&& 4 =? 0) then 4 else 0.

Lemma mask_bit x k n : 0 ≤ k → 0 ≤ n → Z.testbit (x &&& Z.ones k) n = Z.testbit x n && (n <? k).
Proof. intros Hk Hn. by rewrite Z.land_spec, Z.testbit_ones_nonneg. Qed.

Lemma byte_of_bit x j n : 0 ≤ j → 0 ≤ n → Z.testbit (byte_of x j) n = Z.testbit x (n + 8 * j) && (n <? 8).
Proof. intros Hj Hn. unfold byte_of. change 255 with (Z.ones 8). rewrite mask_bit, Z.shiftr_spec by lia. done. Qed.

Lemma byte_of_data x s j : 0 ≤ s → 0 ≤ j < 4 →
  byte_of ((x ≫ (8 * s)) &&& 0xffffffff) j = byte_of x (s + j).
Proof.
  intros Hs Hj. apply Z.bits_inj'. intros n Hn. rewrite !byte_of_bit by lia.
  change 0xffffffff with (Z.ones 32). rewrite mask_bit, Z.shiftr_spec by lia.
  replace (n + 8 * j + 8 * s) with (n + 8 * (s + j)) by lia.
  destruct (Z.ltb_spec n 8); rewrite ?andb_false_r; [|done].
  by rewrite (proj2 (Z.ltb_lt (n + 8 * j) 32)), !andb_true_r by lia.
Qed.

Lemma byte_of_lane v s j : 0 ≤ s → 0 ≤ j → byte_of (v ≪ (8 * s)) (s + j) = byte_of v j.
Proof.
  intros Hs Hj. apply Z.bits_inj'. intros n Hn. rewrite !byte_of_bit by lia.
  rewrite Z.shiftl_spec by lia. f_equal. f_equal. lia.
Qed.

Lemma nibble_bound x : 0 ≤ x &&& 15 < 16.
Proof. change 15 with (Z.ones 4). rewrite Z.land_ones by lia. apply Z.mod_pos_bound. lia. Qed.

Lemma clear_nibble_bit x j : x &&& 15 = 0 → 0 ≤ j < 4 → Z.testbit x j = false.
Proof.
  intros Hx Hj. change 15 with (Z.ones 4) in Hx.
  apply (f_equal (λ y, Z.testbit y j)) in Hx. rewrite mask_bit, Z.bits_0 in Hx by lia.
  rewrite (proj2 (Z.ltb_lt j 4)), andb_true_r in Hx by lia. done.
Qed.

Lemma clear_high_bit x j : x ≫ 4 = 0 → 4 ≤ j → Z.testbit x j = false.
Proof.
  intros Hx Hj. apply (f_equal (λ y, Z.testbit y (j - 4))) in Hx.
  rewrite Z.shiftr_spec, Z.bits_0 in Hx by lia. by replace (j - 4 + 4) with j in Hx by lia.
Qed.

Lemma window_containment ws q w :
  _window ws (address q) = Some w → w ∈ ws ∧ device_base w ≤ address q.
Proof.
  unfold _window. intros Hw. assert (Hin : w ∈ filter (λ w, in_window (address q) w = true) ws).
  { destruct (filter _ ws); [done|]. cbn in Hw. simplify_eq. left. }
  apply list_elem_of_filter in Hin as [Hin ?]. unfold in_window in Hin. split; [done|lia].
Qed.

(** C34. An accepted access stays in its window and on its lanes: the offset is
    a word of the register window; the target's byte enables and data are those
    of the four bytes the address selects, and a write enables no other byte;
    a read's answer carries the target's word on those bytes and fits the beat. *)
Theorem lanes_carry_the_word ws q p v :
  Forall (λ w, DeviceWindow_post_init w = Ok w) ws → _prepare ws q = Ok p → 0 ≤ v < 2 ^ 32 →
  p_window p ∈ ws ∧ address q = device_base (p_window p) + p_offset p ∧
  (0 ≤ p_offset p ∧ p_offset p + 4 ≤ device_size (p_window p) ∧ p_offset p `mod` 4 = 0) ∧
  0 ≤ data32 p < 2 ^ 32 ∧ 0 ≤ lane_be p < 16 ∧
  (∀ j, 0 ≤ j < 4 →
     Z.testbit (lane_be p) j = Z.testbit (be q) (lane_base q + j) ∧
     byte_of (data32 p) j = byte_of (wdata q) (lane_base q + j)) ∧
  (is_write q = true → 0 < lane_be p ∧
     ∀ j, 0 ≤ j < beat_bytes q → Z.testbit (be q) j = true → lane_base q ≤ j < lane_base q + 4) ∧
  (is_write q = false →
     (∀ j, 0 ≤ j < 4 → byte_of (response_of q v).1 (lane_base q + j) = byte_of v j) ∧
     0 ≤ (response_of q v).1 < 2 ^ (8 * beat_bytes q)).
Proof.
  intros Hws Hp Hv. unfold _prepare in Hp.
  destruct (_window ws (address q)) as [w|] eqn:Hw; [|done].
  apply window_containment in Hw as [Hin Hbase].
  eapply Forall_forall in Hws; [|exact Hin]. unfold DeviceWindow_post_init in Hws. inv_Ok.
  unfold lane_base, response_of. cbn [p_window p_offset data32 lane_be payload].
  set (hi := (beat_bytes q =? 8) && negb (address q &&& 4 =? 0)) in *.
  assert (Hbeat : (hi = true → beat_bytes q = 8) ∧ (beat_bytes q = 4 ∨ beat_bytes q = 8)).
  { split; [intros Hhi; subst hi; destruct (Z.eqb_spec (beat_bytes q) 8); [done|discriminate Hhi]|].
    by apply in_list_pair. }
  clearbody hi. destruct Hbeat as [Hbeat Hb48].
  match goal with H : (2 ^ beat_bytes q <=? be q) = false |- _ =>
    assert (Hbe : 0 ≤ be q < 2 ^ beat_bytes q) by lia end.
  match goal with H : is_write q && _ = false |- _ => rename H into Hwr end.
  split; [done|]. split; [lia|]. split.
  { split_and!; [lia|lia|].
    match goal with H : (device_base w `mod` 4096 =? 0) = true |- _ => revert H end.
    match goal with H : (address q `mod` 4 =? 0) = true |- _ => revert H end.
    rewrite !Z.eqb_eq. intros. Z.div_mod_to_equations. lia. }
  split. { change 4294967295 with (Z.ones 32). rewrite Z.land_ones by lia. by apply Z.mod_pos_bound. }
  split. { destruct hi; [|apply nibble_bound]. rewrite Z.shiftr_div_pow2 by lia.
    rewrite Hbeat in Hbe by done. Z.div_mod_to_equations. lia. }
  split; [intros j Hj; split|split].
  - destruct hi; [by rewrite Z.shiftr_spec, Z.add_comm by lia|].
    change 15 with (Z.ones 4). rewrite mask_bit by lia. by rewrite (proj2 (Z.ltb_lt j 4)), andb_true_r by lia.
  - destruct hi; [by apply (byte_of_data (wdata q) 4)|by apply (byte_of_data (wdata q) 0)].
  - intros Hw. rewrite Hw in Hwr. cbn in Hwr. apply orb_false_iff in Hwr as [Hl Ho]. split.
    + destruct hi; [|pose proof (nibble_bound (be q)); lia].
      assert (0 ≤ be q ≫ 4) by (apply Z.shiftr_nonneg; lia). lia.
    + intros j Hj Hbit. destruct hi.
      * rewrite Hbeat in Hj, Ho by done. cbn in Ho. apply negb_false_iff, Z.eqb_eq in Ho.
        destruct (Z.ltb_spec j 4); [|lia]. by rewrite (clear_nibble_bit _ _ Ho) in Hbit by lia.
      * destruct Hb48 as [Hb|Hb]; rewrite Hb in Hj, Ho; [lia|]. cbn in Ho. apply negb_false_iff, Z.eqb_eq in Ho.
        destruct (Z.ltb_spec j 4); [lia|]. by rewrite (clear_high_bit _ _ Ho) in Hbit by lia.
  - intros ->. cbn [fst]. split.
    + intros j Hj. destruct hi; [apply (byte_of_lane v 4)|apply (byte_of_lane v 0)]; lia.
    + rewrite Z.shiftl_mul_pow2 by (by destruct hi). destruct hi; [rewrite Hbeat by done; lia|].
      destruct Hb48 as [-> | ->]; lia.
Qed.

(** *** The hypotheses are satisfiable *)

Module Example_router.
#[local] Existing Instance checksum_hashlib.

(** A register bank: a register reads as the sum of what was written, the
    device "bad" raises, "apb" hands out receipts. *)
#[local] Instance bank : Targets (W := Z) (A := ()) := {|
  target_kind d := if bool_decide (d = "apb") then Ordinary else Plain;
  write_register d offset value be w :=
    if bool_decide (d = "bad") then (Err (OtherError "bus"), w) else (Ok (), w + value);
  read_register d offset w := (Ok w, w);
  observed_access a w := (Ok (w, ()), w + a_data32 a);
  delivery_failed d k a w := (Ok (), w) |}.

Definition devices : list DeviceWindow :=
  [mkDevice "uart" 0x1000 0x100 "uart"; mkDevice "apb" 0x2000 0x100 "apb";
   mkDevice "bad" 0x3000 0x100 "bad"].
Definition key n : TransactionKey := mkKey "e" "t" "cpu" 0 "bus" n.
Definition write_at a : Request := mkRequest a true 5 15 4.
Definition high_read : Request := mkRequest 0x1004 false 0 0 8.
Definition answered : Response → M Z () := λ r, modify (Z.add r.1).
Definition start : World (W := Z) (A := ()) :=
  mkWorld (match new_router devices with Ok r => r | Err _ => mkRouter [] [] [] ∅ 0 [] [] end) ∅ 7.
Definition calls : list (action (W := Z)) :=
  [Enqueue "cpu" (key 1) (write_at 0x2000) answered; Enqueue "cpu" (key 2) (write_at 0x1000) answered;
   Drain "uart"; Enqueue "cpu" (key 3) (write_at 0x3000) answered; Drain "apb"; Drain "uart"; Drain "bad";
   Enqueue "dma" (key 1) high_read answered; Transact "io" (key 1) high_read;
   Barrier "mem"; Enqueue "dma" (key 2) (write_at 0x2000) answered].

Lemma queue_is_the_pending_requests_witness :
  let '(s', barrier_raised) := acts start calls in
  (∀ id k e, entry (ledger_of id s') k = Some e → status e = target_pending →
     ∃ i, i ∈ queue s' ∧ i_ledger i = id ∧ i_key i = k) ∧
  (∀ i, i ∈ queue s' → ∃ e, entry_in s' i = Some e ∧
     _digest (payload (i_prepared i)) = Ok (payload_digest e) ∧
     (status e = target_pending ∨ barrier_raised = true ∧ status e = cancelled)) ∧
  NoDup ((λ i, (i_ledger i, i_key i)) <$> queue s').
Proof. apply (queue_is_the_pending_requests start calls). split; reflexivity. Defined.

Lemma drain_serves_the_oldest_witness :
  drained "uart" (acts start calls).1 (drain_one "uart" (acts start calls).1).1
    (drain_one "uart" (acts start calls).1).2 ∧
  (drain_one "uart" (acts start calls).1).1 = Ok true.
Proof.
  split; [apply (drain_serves_the_oldest start calls "uart"); split; reflexivity|vm_compute; reflexivity].
Defined.

Lemma oldest_request_is_served_witness :
  let s' := (acts start calls).1 in
  ∃ i rest s'', queue s' = i :: rest ∧ ready_target (device_of i) s' = true ∧
    drain_one (device_of i) s' = (Ok true, s'') ∧ queue s'' = rest.
Proof.
  set (s' := (acts start calls).1).
  destruct (queue s') as [|i rest] eqn:Hq; [vm_compute in Hq; discriminate Hq|].
  exists i, rest.
  destruct (oldest_request_is_served start calls i rest 17 None 17 (17 * 2 ^ 32 + 17)) as (Hr & s'' & Hd & Hs & _).
  - split; reflexivity.
  - vm_compute. reflexivity.
  - exact Hq.
  - vm_compute in Hq. injection Hq as <- <-. vm_compute. reflexivity.
  - vm_compute in Hq. injection Hq as <- <-. vm_compute. reflexivity.
  - vm_compute in Hq. injection Hq as <- <-. vm_compute. reflexivity.
  - vm_compute. reflexivity.
  - exists s''. split; [exact Hq|]. split; [exact Hr|]. split; [exact Hd|exact Hs].
Defined.

Lemma lanes_carry_the_word_witness :
  ∃ p, _prepare devices high_read = Ok p ∧ p_offset p = 4 ∧
    byte_of (response_of high_read 0x11223344).1 5 = 0x33.
Proof.
  destruct (_prepare devices high_read) as [p|e] eqn:Hp; [|vm_compute in Hp; discriminate Hp].
  exists p. split; [reflexivity|].
  destruct (lanes_carry_the_word devices high_read p 0x11223344) as (_ & Ha & _ & _ & _ & _ & _ & Hread).
  - repeat constructor.
  - exact Hp.
  - split; [discriminate|reflexivity].
  - split; [vm_compute in Hp; injection Hp as <-; reflexivity|].
    destruct (Hread eq_refl) as [Hb _]. apply (Hb 1). split; [discriminate|reflexivity].
Defined.
End Example_router.
