(* ===== verification/Irq.v ===== *)
(** * One-pulse delivery of an interrupt source

    Models [src/src/myfuzz/scenario/irq.py]: [IrqPulseDelivery] maps the rising
    edges of an observed source level to pulses of a fixed number of CPU ticks.
    The events are a type with one constructor for each kind of record; a
    source trigger is a document the class only copies.

    The theorems: over any run whose observations are made at the present CPU
    tick, the delivered level is one exactly inside the announced pulses, which
    have the declared width, are disjoint and in order, and belong to distinct
    source edges; an overrun is terminal; a pulse reported as expired while
    masked was sampled, and seen masked, at every one of its ticks. *)

From S2P Require Import Prelude Json.

Local Open Scope Z_scope.

Inductive IrqEvent : Type :=
  | source_end (source_tick cpu_tick source_event_id : Z) (trigger : option json)
  | source_start (source_tick cpu_tick source_event_id : Z) (trigger : option json)
  | irq_overrun (source_tick cpu_tick source_event_id : Z) (active_source_event_id : option Z)
  | pulse_start (source_event_id start_cpu_tick end_cpu_tick_exclusive : Z) (trigger : option json)
  | cpu_irq_input (cpu_tick : Z) (source_event_id : option Z) (cpu_step_event_id : Z)
      (trigger : option json)
  | cpu_irq_taken (cpu_tick : Z) (source_event_id : option Z) (cpu_step_event_id : option Z)
      (trigger : option json)
  | expired (fully_masked : bool) (source_event_id : option Z) (end_cpu_tick_exclusive : Z)
  | pulse_cancelled_by_reset (source_event_id : option Z) (cpu_tick : Z).

Inductive IrqStatus : Type := active | unsupported_irq_overrun.
#[export] Instance IrqStatus_eq_dec : EqDecision IrqStatus.
Proof. solve_decision. Defined.

(** The slot: the fields that belong to the pulse under delivery. *)
Record Slot := mkSlot {
  _active_source_event_id : option Z;
  _active_source_trigger : option json;
  _pulse : option (Z * Z);
  _all_masked : bool;
  _masked_tick_count : Z }.

Record IrqPulseDelivery := mkIrq {
  require_observed_baseline : bool;
  width_ticks : Z;
  events : list IrqEvent;
  status : IrqStatus;
  source_level : option Z;
  _source_count : Z;
  _source_event_id : option Z;
  _source_trigger : option json;
  slot : Slot;
  _last_cpu_tick : Z }.

Definition empty_slot : Slot := mkSlot None None None true 0.

(** [__init__] *)
Definition new_irq (width_ticks : Z) (require_observed_baseline : bool) : result IrqPulseDelivery :=
  raise_if ((width_ticks <? 1) || (4096 <? width_ticks))
    (ValueError "IRQ pulse width must be in 1..4096 CPU ticks") ;;
  mret (mkIrq require_observed_baseline width_ticks [] active
          (if require_observed_baseline then None else Some 0) 0 None None empty_slot 0).

(** Assignments. *)
Definition emit (e : IrqEvent) (d : IrqPulseDelivery) : IrqPulseDelivery :=
  mkIrq (require_observed_baseline d) (width_ticks d) (events d ++ [e]) (status d) (source_level d)
    (_source_count d) (_source_event_id d) (_source_trigger d) (slot d) (_last_cpu_tick d).
Definition set_status (s : IrqStatus) (d : IrqPulseDelivery) : IrqPulseDelivery :=
  mkIrq (require_observed_baseline d) (width_ticks d) (events d) s (source_level d)
    (_source_count d) (_source_event_id d) (_source_trigger d) (slot d) (_last_cpu_tick d).
Definition set_level (l : option Z) (d : IrqPulseDelivery) : IrqPulseDelivery :=
  mkIrq (require_observed_baseline d) (width_ticks d) (events d) (status d) l
    (_source_count d) (_source_event_id d) (_source_trigger d) (slot d) (_last_cpu_tick d).
Definition set_source (count : Z) (id : option Z) (t : option json) (d : IrqPulseDelivery)
    : IrqPulseDelivery :=
  mkIrq (require_observed_baseline d) (width_ticks d) (events d) (status d) (source_level d)
    count id t (slot d) (_last_cpu_tick d).
Definition set_slot (s : Slot) (d : IrqPulseDelivery) : IrqPulseDelivery :=
  mkIrq (require_observed_baseline d) (width_ticks d) (events d) (status d) (source_level d)
    (_source_count d) (_source_event_id d) (_source_trigger d) s (_last_cpu_tick d).
Definition set_last_cpu_tick (t : Z) (d : IrqPulseDelivery) : IrqPulseDelivery :=
  mkIrq (require_observed_baseline d) (width_ticks d) (events d) (status d) (source_level d)
    (_source_count d) (_source_event_id d) (_source_trigger d) (slot d) t.

(** [pending] *)
Definition pending (d : IrqPulseDelivery) : bool := bool_decide (is_Some (_pulse (slot d))).

(** [observe_source] *)
Definition observe_source (level source_tick cpu_tick : Z) (trigger : option json)
    : M IrqPulseDelivery () := λ d,
  (check (negb (in_list level [0; 1])) (ValueError "IRQ source level must be one bit") ;;
   check ((source_tick <? 0) || (cpu_tick <? _last_cpu_tick d))
     (ValueError "IRQ local tick moved backwards") ;;
   match source_level d with
   | None => modify (set_level (Some level))
   | Some old =>
       if level =? old then mret ()
       else
         modify (set_level (Some level)) ;;
         if level =? 0 then
           match _source_event_id d with
           | None => mret ()
           | Some id =>
               modify (emit (source_end source_tick cpu_tick id (_source_trigger d))) ;;
               modify (set_source (_source_count d) None None)
           end
         else
           let id := _source_count d + 1 in
           modify (set_source id (Some id) trigger) ;;
           modify (emit (source_start source_tick cpu_tick id trigger)) ;;
           if match _pulse (slot d) with Some (_, end_) => cpu_tick <? end_ | None => false end then
             modify (set_status unsupported_irq_overrun) ;;
             modify (emit (irq_overrun source_tick cpu_tick id (_active_source_event_id (slot d))))
           else if negb (bool_decide (status d = active)) then mret ()
           else
             let start := cpu_tick + 1 in
             let end_ := start + width_ticks d in
             modify (set_slot (mkSlot (Some id) trigger (Some (start, end_)) true 0)) ;;
             modify (emit (pulse_start id start end_ trigger))
   end) d.

(** [input_at] *)
Definition level_at (s : Slot) (cpu_tick : Z) : Z :=
  match _pulse s with
  | Some (start, end_) => if (start <=? cpu_tick) && (cpu_tick <? end_) then 1 else 0
  | None => 0
  end.
Definition input_at (cpu_tick : Z) (d : IrqPulseDelivery) : result Z :=
  raise_if (cpu_tick <? _last_cpu_tick d) (ValueError "CPU local tick moved backwards") ;;
  mret (level_at (slot d) cpu_tick).

Definition occupied (s : Slot) : bool := bool_decide (is_Some (_pulse s)).

(** The mask bookkeeping of [sample_cpu]. *)
Definition note_mask (cpu_tick last value : Z) (masked : option bool) (s : Slot) : Slot :=
  let s := if occupied s && negb (cpu_tick =? last + 1)
           then mkSlot (_active_source_event_id s) (_active_source_trigger s) (_pulse s) false
                  (_masked_tick_count s)
           else s in
  if value =? 0 then s
  else if bool_decide (masked = Some true)
  then mkSlot (_active_source_event_id s) (_active_source_trigger s) (_pulse s) (_all_masked s)
         (_masked_tick_count s + 1)
  else mkSlot (_active_source_event_id s) (_active_source_trigger s) (_pulse s) false
         (_masked_tick_count s).

(** The expiry of [sample_cpu]: what is reported, and the slot afterwards (its
    mask bookkeeping stays). *)
Definition expiry (cpu_tick width : Z) (s : Slot) : option (IrqEvent * Slot) :=
  match _pulse s with
  | Some (_, end_) =>
      if end_ <=? cpu_tick then
        let fully_masked := _all_masked s && (_masked_tick_count s =? width) in
        Some (expired fully_masked (_active_source_event_id s) end_,
              mkSlot None None None (_all_masked s) (_masked_tick_count s))
      else None
  | None => None
  end.

(** [sample_cpu] *)
Definition sample_cpu (cpu_tick : Z) (masked accepted : option bool) (step : option Z)
    : M IrqPulseDelivery Z := λ d,
  (check (cpu_tick <=? _last_cpu_tick d) (ValueError "CPU local tick must advance") ;;
   value ← reads (input_at cpu_tick);
   let s := slot d in
   match step with
   | Some step_id =>
       if value =? 0 then mret ()
       else modify (emit (cpu_irq_input cpu_tick (_active_source_event_id s) step_id
                            (_active_source_trigger s)))
   | None => mret ()
   end ;;
   (if negb (value =? 0) && bool_decide (accepted = Some true)
    then modify (emit (cpu_irq_taken cpu_tick (_active_source_event_id s) step
                         (_active_source_trigger s)))
    else mret ()) ;;
   let s := note_mask cpu_tick (_last_cpu_tick d) value masked s in
   modify (set_slot s) ;;
   match expiry cpu_tick (width_ticks d) s with
   | Some (e, s) => modify (emit e) ;; modify (set_slot s)
   | None => mret ()
   end ;;
   modify (set_last_cpu_tick cpu_tick) ;;
   mret value) d.

(** [reset] *)
Definition reset (cpu_tick : Z) (d : IrqPulseDelivery) : IrqPulseDelivery :=
  let d := if pending d
           then emit (pulse_cancelled_by_reset (_active_source_event_id (slot d)) cpu_tick) d
           else d in
  mkIrq (require_observed_baseline d) (width_ticks d) (events d) active
    (if require_observed_baseline d then None else Some 0) (_source_count d) None None
    empty_slot cpu_tick.

(** ** Runs without a reset, observed at the present CPU tick *)

Inductive Call : Type :=
  | Observe (level source_tick : Z) (trigger : option json)
  | Sample (cpu_tick : Z) (masked accepted : option bool) (step : option Z).

(** What each successful sample saw: tick, mask observation, level delivered. *)
Definition History : Type := list (Z * option bool * Z).

Definition exec (dh : IrqPulseDelivery * History) (c : Call) : IrqPulseDelivery * History :=
  let '(d, h) := dh in
  match c with
  | Observe level source_tick trigger =>
      ((observe_source level source_tick (_last_cpu_tick d) trigger d).2, h)
  | Sample t masked accepted step =>
      match sample_cpu t masked accepted step d with
      | (Ok v, d') => (d', h ++ [(t, masked, v)])
      | (Err _, d') => (d', h)
      end
  end.

Record Pulse := mkPulse { p_source : Z; p_start : Z; p_end : Z }.
Definition pulse_of (e : IrqEvent) : option Pulse :=
  match e with pulse_start id s e _ => Some (mkPulse id s e) | _ => None end.
(** The pulses announced so far. *)
Definition pulses (d : IrqPulseDelivery) : list Pulse := omap pulse_of (events d).

Definition inside (t : Z) (p : Pulse) : Prop := p_start p ≤ t < p_end p.
Definition before (p q : Pulse) : Prop := p_end p < p_start q ∧ p_source p < p_source q.
Definition seen_masked (h : History) (p : Pulse) : Prop :=
  ∀ t, inside t p → (t, Some true, 1) ∈ h.

Record irq_ok (w : Z) (d : IrqPulseDelivery) (h : History) : Prop := {
  iq_width : width_ticks d = w ∧ 1 ≤ w;
  iq_pulses : Forall (λ p, p_end p = p_start p + w ∧ p_source p ≤ _source_count d) (pulses d);
  iq_sorted : StronglySorted before (pulses d);
  iq_slot : match _pulse (slot d) with
    | None => Forall (λ p, p_end p ≤ _last_cpu_tick d) (pulses d)
    | Some (s, e) => s ≤ _last_cpu_tick d + 1 ∧ _last_cpu_tick d < e ∧
        ∃ id l, pulses d = l ++ [mkPulse id s e] ∧ _active_source_event_id (slot d) = Some id ∧
          (_all_masked (slot d) = true →
           ∀ t, s ≤ t ≤ _last_cpu_tick d → (t, Some true, 1) ∈ h)
    end;
  iq_history t m v : (t, m, v) ∈ h →
    t ≤ _last_cpu_tick d ∧ (v = 0 ∨ v = 1) ∧ (v = 1 ↔ ∃ p, p ∈ pulses d ∧ inside t p);
  iq_expired id e : expired true id e ∈ events d →
    ∃ p, p ∈ pulses d ∧ id = Some (p_source p) ∧ e = p_end p ∧ seen_masked h p }.

Lemma pulses_emit e d : pulses (emit e d) = pulses d ++ option_list (pulse_of e).
Proof. unfold pulses. cbn. rewrite omap_app. cbn. by destruct (pulse_of e). Qed.

(** At most the last pulse is not over. *)
Lemma slot_level w d h t :
  irq_ok w d h → _last_cpu_tick d < t →
  (level_at (slot d) t = 0 ∨ level_at (slot d) t = 1) ∧
  (level_at (slot d) t = 1 ↔ ∃ p, p ∈ pulses d ∧ inside t p).
Proof.
  intros Hok Ht. pose proof (iq_slot _ _ _ Hok) as Hs. unfold level_at, inside.
  destruct (_pulse (slot d)) as [[s e]|].
  - destruct Hs as (Hs1 & Hs2 & id & l & Hp & _ & _).
    split; [case_match; auto|]. rewrite Hp. split.
    + intros Hl. case_match eqn:Hc; [|done]. exists (mkPulse id s e). cbn.
      split; [apply elem_of_app; right; by left|lia].
    + intros (p & [Hin|Hin]%elem_of_app & Hi).
      * pose proof (iq_sorted _ _ _ Hok) as Hsort. rewrite Hp in Hsort.
        apply StronglySorted_app in Hsort as (Hb & _ & _).
        specialize (Hb p (mkPulse id s e) Hin ltac:(by left)). destruct Hb as [Hb _]. cbn in Hb. lia.
      * apply list_elem_of_singleton in Hin as ->. cbn in Hi.
        replace (s <=? t) with true by lia. by replace (t <? e) with true by lia.
  - split; [by left|]. split; [done|]. intros (p & Hin & Hi).
    rewrite Forall_forall in Hs. specialize (Hs p Hin). lia.
Qed.

(** What the invariant does not look at. *)
Lemma irq_ok_frame w d d' h :
  width_ticks d' = width_ticks d → slot d' = slot d → _last_cpu_tick d' = _last_cpu_tick d →
  pulses d' = pulses d → _source_count d ≤ _source_count d' →
  (∀ id e, expired true id e ∈ events d' → expired true id e ∈ events d) →
  irq_ok w d h → irq_ok w d' h.
Proof.
  intros Hw Hs Hl Hp Hc He [H1 H2 H3 H4 H5 H6].
  split; rewrite ?Hw, ?Hs, ?Hl, ?Hp; try done.
  - eapply Forall_impl; [exact H2|]. cbn. lia.
  - intros id e Hin. apply He in Hin. destruct (H6 _ _ Hin) as (p & ? & ? & ? & ?). by exists p.
Qed.

Definition silent (e : IrqEvent) : Prop :=
  match e with pulse_start _ _ _ _ => False | expired b _ _ => b = false | _ => True end.

Lemma irq_ok_emit w d h e : silent e → irq_ok w d h → irq_ok w (emit e d) h.
Proof.
  intros He. apply irq_ok_frame; try done.
  - rewrite pulses_emit. destruct e; try done; by rewrite app_nil_r.
  - intros id end_. cbn. rewrite elem_of_app, list_elem_of_singleton.
    intros [?|Heq]; [done|]. subst e. done.
Qed.

(** A pulse begins right after the present tick. *)
Lemma irq_ok_pulse w d h trigger id :
  irq_ok w d h → _pulse (slot d) = None →
  (∀ p, p ∈ pulses d → p_source p < id) → id ≤ _source_count d →
  let start := _last_cpu_tick d + 1 in
  irq_ok w (emit (pulse_start id start (start + w) trigger)
    (set_slot (mkSlot (Some id) trigger (Some (start, start + w)) true 0) d)) h.
Proof.
  intros [[H1 H1'] H2 H3 H4 H5 H6] Hnone Hlt Hc start. rewrite Hnone in H4.
  set (p := mkPulse id start (start + w)). set (d' := emit _ _).
  assert (Hp : pulses d' = pulses d ++ [p]) by exact (pulses_emit _ (set_slot _ d)).
  assert (Hbefore : ∀ q, q ∈ pulses d → before q p).
  { rewrite !Forall_forall in H4. intros q Hq. pose proof (Hlt q Hq). pose proof (H4 q Hq).
    unfold before. cbn. lia. }
  split; rewrite ?Hp.
  - cbn. lia.
  - apply Forall_app. split; [|by repeat constructor].
    eapply Forall_impl; [exact H2|]. cbn. lia.
  - apply StronglySorted_app_2; [|done|repeat constructor].
    intros q q' Hq ->%list_elem_of_singleton. by apply Hbefore.
  - cbn. split_and!; [lia|lia|]. exists id, (pulses d). split_and!; [done|done|]. intros _ t. lia.
  - intros t m v Hin. destruct (H5 _ _ _ Hin) as (Ht & Hv & Hiff). split_and!; [done|done|].
    rewrite Hiff. unfold inside. split; intros (q & Hq & Hi).
    + exists q. split; [apply elem_of_app; by left|done].
    + apply elem_of_app in Hq as [Hq|Hq]; [by exists q|].
      apply list_elem_of_singleton in Hq as ->. cbn in Hi. lia.
  - intros i e Hin. cbn in Hin. apply elem_of_app in Hin as [Hin|Hin].
    2: { by apply list_elem_of_singleton in Hin. }
    destruct (H6 _ _ Hin) as (q & Hq & ? & ? & ?). exists q. split; [apply elem_of_app; by left|done].
Qed.

Ltac frame d0 := apply (irq_ok_frame _ d0); [done|done|done|done|cbn; lia|done|].

Lemma observe_source_ok w d h level source_tick trigger :
  irq_ok w d h → irq_ok w (observe_source level source_tick (_last_cpu_tick d) trigger d).2 h.
Proof.
  intros Hok. unfold observe_source, check, reads, modify, mbind, M_bind.
  destruct (raise_if _ _) as [[]|]; [|done]. destruct (raise_if _ _) as [[]|]; [|done].
  destruct (source_level d) as [old|]; [|by frame d].
  destruct (level =? old); [done|]. destruct (level =? 0).
  { destruct (_source_event_id d) as [id|]; [|by frame d]. cbn.
    frame (emit (source_end source_tick (_last_cpu_tick d) id (_source_trigger d))
      (set_level (Some level) d)). apply irq_ok_emit; [done|]. by frame d. }
  set (id := _source_count d + 1).
  set (d1 := emit (source_start source_tick (_last_cpu_tick d) id trigger)
    (set_source id (Some id) trigger (set_level (Some level) d))).
  assert (Hp1 : pulses d1 = pulses d) by (unfold d1; rewrite pulses_emit; by rewrite app_nil_r).
  assert (H1 : irq_ok w d1 h).
  { apply irq_ok_emit; [done|]. by frame d. }
  destruct (_pulse (slot d)) as [[s e]|] eqn:Hpulse.
  - pose proof (iq_slot _ _ _ Hok) as Hs. rewrite Hpulse in Hs. destruct Hs as (_ & He & _).
    replace (_last_cpu_tick d <? e) with true by lia.
    apply irq_ok_emit; [done|]. by frame d1.
  - case_bool_decide as Hst; [|exact H1]. destruct (iq_width _ _ _ Hok) as [-> _].
    apply (irq_ok_pulse w d1); [done|done| |cbn; lia].
    intros p Hp. rewrite Hp1 in Hp. pose proof (iq_pulses _ _ _ Hok) as Hf. rewrite Forall_forall in Hf.
    destruct (Hf p Hp). lia.
Qed.

Lemma note_mask_slot t last v masked s :
  _pulse (note_mask t last v masked s) = _pulse s ∧
  _active_source_event_id (note_mask t last v masked s) = _active_source_event_id s.
Proof. unfold note_mask. by repeat case_match. Qed.

(** The mask flag survives only consecutive samples that saw the mask. *)
Lemma note_mask_all t last v masked s :
  occupied s = true → _all_masked (note_mask t last v masked s) = true →
  _all_masked s = true ∧ t = last + 1 ∧ (v = 0 ∨ masked = Some true).
Proof.
  unfold note_mask. intros ->. cbn. destruct (Z.eqb_spec t (last + 1)); cbn;
    destruct (Z.eqb_spec v 0); cbn; try done; try tauto.
  all: case_bool_decide; cbn; try done; tauto.
Qed.

(** The state [sample_cpu] leaves, from the state after its reports. *)
Definition sampled (t : Z) (masked : option bool) (d : IrqPulseDelivery) : IrqPulseDelivery :=
  let s := note_mask t (_last_cpu_tick d) (level_at (slot d) t) masked (slot d) in
  set_last_cpu_tick t
    match expiry t (width_ticks d) s with
    | Some (e, s') => set_slot s' (emit e (set_slot s d))
    | None => set_slot s d
    end.

Lemma pulses_before w d h id s e l p :
  irq_ok w d h → pulses d = l ++ [mkPulse id s e] → p ∈ pulses d → p_end p ≤ Z.max (s - 1) e.
Proof.
  intros Hok Hp. rewrite Hp. intros [Hin|Hin]%elem_of_app.
  - pose proof (iq_sorted _ _ _ Hok) as Hs. rewrite Hp in Hs.
    destruct (StronglySorted_app_1_elem_of _ _ _ p (mkPulse id s e) Hs Hin ltac:(by left)) as [Hb _].
    cbn in Hb. lia.
  - apply list_elem_of_singleton in Hin as ->. cbn. lia.
Qed.

(** The history after one more sample, against the same pulses. *)
Lemma history_sampled w d h t masked d' :
  irq_ok w d h → _last_cpu_tick d < t → pulses d' = pulses d → _last_cpu_tick d' = t →
  ∀ t' m v', (t', m, v') ∈ h ++ [(t, masked, level_at (slot d) t)] →
    t' ≤ _last_cpu_tick d' ∧ (v' = 0 ∨ v' = 1) ∧ (v' = 1 ↔ ∃ p, p ∈ pulses d' ∧ inside t' p).
Proof.
  intros Hok Ht -> -> t' m v' [Hin|Hin]%elem_of_app.
  - destruct (iq_history _ _ _ Hok _ _ _ Hin) as (? & ? & ?). split_and!; [lia|done|done].
  - apply list_elem_of_singleton in Hin as [= -> -> ->].
    destruct (slot_level _ _ _ _ Hok Ht). split_and!; [lia|done|done].
Qed.

Lemma expired_sampled w d h x id e :
  irq_ok w d h → expired true id e ∈ events d →
  ∃ p, p ∈ pulses d ∧ id = Some (p_source p) ∧ e = p_end p ∧ seen_masked (h ++ [x]) p.
Proof.
  intros Hok Hin. destruct (iq_expired _ _ _ Hok _ _ Hin) as (p & ? & ? & ? & Hp). exists p.
  split_and!; try done. intros t' Ht'. apply elem_of_app. left. by apply Hp.
Qed.

(** A pulse whose ticks are all in the past, after this sample, expires. *)
Lemma sampled_expires w d h t masked s1 s e id l b :
  irq_ok w d h → _last_cpu_tick d < t → s ≤ t → e ≤ t → pulses d = l ++ [mkPulse id s e] →
  (b = true → ∀ t', s ≤ t' < e → (t', Some true, 1) ∈ h) →
  irq_ok w (set_last_cpu_tick t
      (set_slot (mkSlot None None None (_all_masked s1) (_masked_tick_count s1))
         (emit (expired b (Some id) e) (set_slot s1 d))))
    (h ++ [(t, masked, level_at (slot d) t)]).
Proof.
  intros Hok Ht Hst Hle Hp Hb. set (d' := set_last_cpu_tick _ _).
  assert (Hp' : pulses d' = pulses d).
  { etrans; [exact (pulses_emit (expired b (Some id) e) (set_slot s1 d))|]. by rewrite app_nil_r. }
  split; rewrite ?Hp'; cbn; try apply Hok.
  - apply Forall_forall. intros p Hin. pose proof (pulses_before _ _ _ _ _ _ _ _ Hok Hp Hin). lia.
  - intros t' m v' Hin. rewrite <- Hp'. by apply (history_sampled w d h t masked d' Hok Ht Hp' eq_refl t' m).
  - intros id' e'. rewrite elem_of_app, list_elem_of_singleton.
    intros [Hin|[= Hb' -> ->]]; [by eapply expired_sampled|].
    exists (mkPulse id s e). split_and!; try done.
    { rewrite Hp. apply elem_of_app. right. by left. }
    intros t' Hin. unfold inside in Hin. cbn in Hin. apply elem_of_app. left. by apply Hb.
Qed.

Lemma sampled_ok w d h t masked :
  irq_ok w d h → _last_cpu_tick d < t →
  irq_ok w (sampled t masked d) (h ++ [(t, masked, level_at (slot d) t)]).
Proof.
  intros Hok Ht. unfold sampled. set (v := level_at (slot d) t). set (s1 := note_mask _ _ _ _ _).
  destruct (note_mask_slot t (_last_cpu_tick d) v masked (slot d)) as [Hs1 Hid]. fold s1 in Hs1, Hid.
  pose proof (iq_slot _ _ _ Hok) as Hslot. unfold expiry. rewrite Hs1.
  destruct (_pulse (slot d)) as [[s e]|] eqn:Hpulse.
  - destruct Hslot as (Hs & He & id & l & Hp & Hact & Hmask).
    assert (Hall : _all_masked s1 = true → t = _last_cpu_tick d + 1 ∧ (v = 0 ∨ masked = Some true) ∧
      ∀ t', s ≤ t' ≤ _last_cpu_tick d → (t', Some true, 1) ∈ h).
    { intros Ha. apply note_mask_all in Ha as (Ha & ? & ?); [|unfold occupied; by rewrite Hpulse].
      split_and!; [done|done|by apply Hmask]. }
    destruct (Z.leb_spec e t) as [Hle|Hlt].
    + rewrite Hid, Hact. apply (sampled_expires w d h t masked s1 s e id l); [done|done|lia|done|done|].
      intros (Ha & _)%andb_true_iff t' Ht'. apply Hall in Ha as (-> & _ & Hseen). apply Hseen. lia.
    + split; cbn; try apply Hok.
      * rewrite Hs1. split_and!; [lia|lia|]. exists id, l. rewrite Hid. split_and!; [done|done|].
        intros Ha t' Ht'. apply Hall in Ha as (-> & Hmk & Hseen). apply elem_of_app.
        destruct (decide (t' = _last_cpu_tick d + 1)) as [->|]; [|left; apply Hseen; lia].
        right. apply list_elem_of_singleton. assert (v = 1) as ->.
        { apply (slot_level _ _ _ _ Hok Ht). exists (mkPulse id s e).
          split; [rewrite Hp; apply elem_of_app; right; by left|]. unfold inside. cbn. lia. }
        destruct Hmk as [Hmk|Hmk]; [done|by rewrite Hmk].
      * exact (history_sampled w d h t masked (set_last_cpu_tick t (set_slot s1 d)) Hok Ht eq_refl eq_refl).
      * intros id' e'. by apply (expired_sampled w).
  - split; cbn; try apply Hok.
    + rewrite Hs1. eapply Forall_impl; [exact Hslot|]. cbn. lia.
    + exact (history_sampled w d h t masked (set_last_cpu_tick t (set_slot s1 d)) Hok Ht eq_refl eq_refl).
    + intros id e. by apply (expired_sampled w).
Qed.

Definition input_report (t : Z) (step : option Z) (d : IrqPulseDelivery) : IrqPulseDelivery :=
  match step with
  | Some step_id =>
      if level_at (slot d) t =? 0 then d
      else emit (cpu_irq_input t (_active_source_event_id (slot d)) step_id
                   (_active_source_trigger (slot d))) d
  | None => d
  end.
Definition taken_report (t : Z) (accepted : option bool) (step : option Z) (d : IrqPulseDelivery)
    : IrqPulseDelivery :=
  if negb (level_at (slot d) t =? 0) && bool_decide (accepted = Some true)
  then emit (cpu_irq_taken t (_active_source_event_id (slot d)) step
               (_active_source_trigger (slot d))) d
  else d.

Lemma report_frame t accepted step d :
  let d1 := taken_report t accepted step (input_report t step d) in
  slot d1 = slot d ∧ _last_cpu_tick d1 = _last_cpu_tick d ∧ status d1 = status d ∧
  ∀ w h, irq_ok w d h → irq_ok w d1 h.
Proof.
  unfold taken_report, input_report. repeat case_match; cbn;
    split_and!; try done; intros w h Hok; repeat (apply irq_ok_emit; [done|]); done.
Qed.

Lemma sample_outcome t masked accepted step d :
  sample_cpu t masked accepted step d =
  if t <=? _last_cpu_tick d then (Err (ValueError "CPU local tick must advance"), d)
  else (Ok (level_at (slot d) t), sampled t masked (taken_report t accepted step (input_report t step d))).
Proof.
  unfold sample_cpu, check, reads, modify, mbind, M_bind, mret, M_ret, input_at.
  destruct (Z.leb_spec t (_last_cpu_tick d)); [done|]. cbn -[level_at emit note_mask expiry].
  replace (t <? _last_cpu_tick d) with false by lia. cbn -[level_at emit note_mask expiry].
  unfold sampled, taken_report, input_report.
  destruct step as [i|]; destruct (level_at (slot d) t =? 0) eqn:Hl;
    cbn -[level_at note_mask expiry]; rewrite ?Hl; cbn -[level_at note_mask expiry];
    try case_bool_decide; cbn -[level_at note_mask expiry]; by destruct (expiry _ _ _) as [[? ?]|].
Qed.

Lemma exec_irq_ok w d h c d' h' : irq_ok w d h → exec (d, h) c = (d', h') → irq_ok w d' h'.
Proof.
  intros Hok. destruct c as [level st trigger|t masked accepted step]; cbn.
  - intros [= <- <-]. by apply observe_source_ok.
  - rewrite sample_outcome. destruct (Z.leb_spec t (_last_cpu_tick d)) as [|Ht]; intros [= <- <-]; [done|].
    destruct (report_frame t accepted step d) as (Hs & Hl & _ & Hok1).
    rewrite <- Hs. apply sampled_ok; [by apply Hok1|by rewrite Hl].
Qed.

Lemma new_irq_ok w b d : new_irq w b = Ok d → irq_ok w d [].
Proof.
  unfold new_irq. intros Hn. inv_Ok.
  split; cbn; [lia|constructor|constructor|constructor|intros t m v Hin|intros id e Hin];
    by apply not_elem_of_nil in Hin.
Qed.

Lemma run_ok w b d0 calls d h :
  new_irq w b = Ok d0 → foldl exec (d0, []) calls = (d, h) → irq_ok w d h.
Proof.
  intros Hn%new_irq_ok. revert Hn. generalize (@nil (Z * option bool * Z)). revert d0.
  induction calls as [|c calls IH]; intros d0 h0 Hok; cbn [foldl]; [by intros [= <- <-]|].
  destruct (exec (d0, h0) c) as [d1 h1] eqn:Hx. apply IH. by eapply exec_irq_ok.
Qed.

(**  The delivered level is exactly the announced pulses.  From a new
    delivery, over any calls that observe the source at the present CPU tick:
    every sample returned one at the ticks inside an announced pulse and zero
    elsewhere; every pulse lasts exactly [width_ticks] ticks; and the pulses are
    disjoint, in order, and each for a later source edge than the one before. *)
Lemma level_is_exactly_the_pulses w b d0 calls d h :
  new_irq w b = Ok d0 → foldl exec (d0, []) calls = (d, h) →
  (∀ t m v, (t, m, v) ∈ h → (v = 0 ∨ v = 1) ∧ (v = 1 ↔ ∃ p, p ∈ pulses d ∧ inside t p)) ∧
  Forall (λ p, p_end p = p_start p + w ∧ p_source p ≤ _source_count d) (pulses d) ∧
  StronglySorted before (pulses d).
Proof.
  intros Hn Hr. pose proof (run_ok _ _ _ _ _ _ Hn Hr) as Hok. split_and!; [|apply (iq_pulses _ _ _ Hok)|apply (iq_sorted _ _ _ Hok)].
  intros t m v Hin. by destruct (iq_history _ _ _ Hok _ _ _ Hin).
Qed.

(** A pulse is reported as expired while masked only when the CPU was
    sampled, and observed to be masked, at every single tick of the pulse. *)
Lemma masked_expiry_was_observed w b d0 calls d h id e :
  new_irq w b = Ok d0 → foldl exec (d0, []) calls = (d, h) → expired true id e ∈ events d →
  ∃ p, p ∈ pulses d ∧ id = Some (p_source p) ∧ e = p_end p ∧
    ∀ t, inside t p → (t, Some true, 1) ∈ h.
Proof.
  intros Hn Hr Hin. pose proof (run_ok _ _ _ _ _ _ Hn Hr) as Hok.
  destruct (iq_expired _ _ _ Hok _ _ Hin) as (p & ? & ? & ? & ?). by exists p.
Qed.

Lemma observe_overrun l st t tr d :
  status d = unsupported_irq_overrun →
  status (observe_source l st t tr d).2 = unsupported_irq_overrun ∧
  pulses (observe_source l st t tr d).2 = pulses d.
Proof.
  intros Hs. unfold observe_source, check, reads, modify, mbind, M_bind.
  destruct (raise_if _ _) as [[]|]; [|done]. destruct (raise_if _ _) as [[]|]; [|done].
  rewrite Hs. rewrite (bool_decide_eq_false_2 (unsupported_irq_overrun = active)) by done.
  destruct (source_level d) as [old|]; [|done]. destruct (l =? old); [done|].
  destruct (l =? 0); [destruct (_source_event_id d)|];
    repeat case_match; simplify_eq; split; try done;
    unfold pulses; cbn; by rewrite !omap_app, ?app_nil_r.
Qed.

Lemma sample_overrun t masked accepted step d :
  status (sample_cpu t masked accepted step d).2 = status d ∧
  pulses (sample_cpu t masked accepted step d).2 = pulses d.
Proof.
  rewrite sample_outcome. case_match; [done|]. cbn [snd].
  assert (Hin : pulses (taken_report t accepted step (input_report t step d)) = pulses d ∧
                status (taken_report t accepted step (input_report t step d)) = status d).
  { unfold taken_report, input_report, pulses. repeat case_match; cbn;
      rewrite ?omap_app; cbn; rewrite ?app_nil_r; done. }
  destruct Hin as [<- <-]. generalize (taken_report t accepted step (input_report t step d)).
  intros d1. unfold sampled, expiry. repeat case_match; simplify_eq; split; try done;
    unfold pulses; cbn; by rewrite ?omap_app, ?app_nil_r.
Qed.

(**  An overrun is terminal.  Once a second source edge met an undelivered
    pulse, no later observation or sample begins a new pulse or clears the
    status; only a reset does, and it makes the delivery new again. *)
Lemma overrun_is_terminal d h calls :
  status d = unsupported_irq_overrun →
  let d' := (foldl exec (d, h) calls).1 in
  status d' = unsupported_irq_overrun ∧ pulses d' = pulses d ∧
  ∀ t, status (reset t d') = active ∧ slot (reset t d') = empty_slot ∧
    pulses (reset t d') = pulses d.
Proof.
  intros Hs.
  assert (Hall : status (foldl exec (d, h) calls).1 = unsupported_irq_overrun ∧
                 pulses (foldl exec (d, h) calls).1 = pulses d).
  { revert d h Hs. induction calls as [|c calls IH]; intros d h Hs; [done|]. cbn [foldl].
    destruct c as [level st tr|t masked accepted step]; cbn [exec].
    - destruct (observe_overrun level st (_last_cpu_tick d) tr d Hs) as [H1 H2].
      rewrite <- H2. by apply IH.
    - destruct (sample_overrun t masked accepted step d) as [H1 H2].
      destruct (sample_cpu t masked accepted step d) as [[v|e] d1]; cbn in H1, H2;
        rewrite <- H2; apply IH; congruence. }
  destruct Hall as [H1 H2]. cbn zeta. split_and!; [done|done|]. intros t. rewrite <- H2.
  unfold reset, pulses. case_match; cbn; [|done]. by rewrite omap_app, app_nil_r.
Qed.

Module Example_irq.
Definition fresh : IrqPulseDelivery := 
  mkIrq false 2 [] active (Some 0) 0 None None empty_slot 0.
Definition calls : list Call :=
  [Sample 1 None None None; Observe 1 1 None; Sample 2 (Some true) None None;
   Sample 3 (Some true) None (Some 7); Sample 4 None None None].
Definition final : IrqPulseDelivery * History := foldl exec (fresh, []) calls.

Lemma level_is_exactly_the_pulses_witness :
  final.2 = [(1, None, 0); (2, Some true, 1); (3, Some true, 1); (4, None, 0)] ∧
  Forall (λ p, p_end p = p_start p + 2 ∧ p_source p ≤ _source_count final.1) (pulses final.1).
Proof.
  split; [vm_compute; reflexivity|].
  destruct (level_is_exactly_the_pulses 2 false fresh calls final.1 final.2) as (_ & H & _).
  - vm_compute. reflexivity.
  - vm_compute. reflexivity.
  - exact H.
Defined.

Lemma masked_expiry_was_observed_witness :
  ∃ p, p ∈ pulses final.1 ∧ Some 1 = Some (p_source p) ∧ 4 = p_end p ∧
    ∀ t, inside t p → (t, Some true, 1) ∈ final.2.
Proof.
  apply (masked_expiry_was_observed 2 false fresh calls final.1 final.2 (Some 1) 4).
  - vm_compute. reflexivity.
  - vm_compute. reflexivity.
  - vm_compute. repeat (left || right).
Defined.

Definition overrun : IrqPulseDelivery :=
  (foldl exec (fresh, []) [Observe 1 1 None; Observe 0 1 None; Observe 1 1 None]).1.

Lemma overrun_is_terminal_witness :
  status overrun = unsupported_irq_overrun ∧
  pulses (foldl exec (overrun, []) calls).1 = pulses overrun.
Proof.
  split; [vm_compute; reflexivity|].
  destruct (overrun_is_terminal overrun [] calls) as (_ & H & _); [vm_compute; reflexivity|exact H].
Defined.
End Example_irq.
