(* ===== verification/IrqGroup.v ===== *)
(** * Several interrupt sources on one CPU input bit

    Models [IrqDeliveryMember], [IrqDeliveryGroup] and [IrqDeliveryGroupState] of
    [src/src/myfuzz/scenario/irq_delivery_group.py], and from
    [src/src/myfuzz/scenario/runner.py] the order in which one CPU step drives
    them together with the pulse deliveries of Irq.v ([Delivery], [exec_op]).
    The group's state holds the pulse deliveries in the code; the runner owns
    and changes them, so here they are a field of [Delivery], passed to [frame].
    A reference to a native event is a record; what else the document holds is
    [detail].  [verify_group_sessions], which inspects live harness sessions,
    and [from_document] are not modelled. *)

From S2P Require Import Prelude Json Irq.

Local Open Scope Z_scope.

(** ** Declarations *)

(** [_text]: not empty, and [strip] removes nothing. *)
Definition _text (v : string) : bool := negb (bool_decide (v = EmptyString)) && is_stripped v.

(** [runner.Binding] *)
Record Binding := mkBinding {
  source_component : string;
  source_port : string;
  target_component : string;
  target_port : string;
  binding_width : Z;
  source_bit_offset : Z;
  target_bit_offset : Z }.

#[export] Instance Binding_eq_dec : EqDecision Binding.
Proof. solve_decision. Defined.

Record IrqDeliveryMember := mkMember {
  member_component : string;
  member_port : string;
  mode : string;
  pulse_width_ticks : option Z;
  member_bit_offset : Z;
  source_adapter : option string }.

#[export] Instance IrqDeliveryMember_eq_dec : EqDecision IrqDeliveryMember.
Proof. solve_decision. Defined.

(** [IrqDeliveryMember.__post_init__] *)
Definition IrqDeliveryMember_post_init (m : IrqDeliveryMember) : result IrqDeliveryMember :=
  let is_pulse := bool_decide (mode m = "pulse") in
  let width := if is_pulse then Some (default 4 (pulse_width_ticks m)) else pulse_width_ticks m in
  raise_if
    (negb (_text (member_component m)) || negb (_text (member_port m))
     || negb (bool_decide (source_adapter m = None ∨ source_adapter m = Some "declared-output.v1"))
     || negb (is_pulse || bool_decide (mode m = "level"))
     || negb ((0 <=? member_bit_offset m) && (member_bit_offset m <? 64))
     || is_pulse && match width with Some w => negb ((1 <=? w) && (w <=? 4096)) | None => true end
     || bool_decide (mode m = "level") && bool_decide (is_Some width))
    (ValueError "invalid IRQ delivery group member") ;;
  mret (mkMember (member_component m) (member_port m) (mode m) width (member_bit_offset m)
          (source_adapter m)).

(** [source_id] *)
Definition source_id (component port : string) : string := component +:+ "." +:+ port.
Definition member_id (m : IrqDeliveryMember) : string :=
  source_id (member_component m) (member_port m).

Record IrqDeliveryGroup := mkGroup {
  group_id : string;
  group_component : string;
  group_port : string;
  members : list IrqDeliveryMember;
  group_bit_offset : Z;
  operation : string;
  target_input_bit_lo : Z }.

(** [IrqDeliveryGroup.__post_init__] *)
Definition IrqDeliveryGroup_post_init (g : IrqDeliveryGroup) : result IrqDeliveryGroup :=
  raise_if
    (negb (_text (group_id g) && _text (group_component g) && _text (group_port g))
     || negb (bool_decide (operation g = "or"))
     || negb ((0 <=? group_bit_offset g) && (group_bit_offset g <? 64))
     || negb ((0 <=? target_input_bit_lo g) && (target_input_bit_lo g <? 1 ≪ 16))
     || negb ((1 <=? length (members g))%nat && (length (members g) <=? 16)%nat)
     || existsb (λ m, bool_decide (member_component m = group_component g)) (members g)
     || negb (bool_decide (NoDup (member_id <$> members g))))
    (ValueError "invalid host IRQ delivery group") ;;
  mret g.

(** [owner_ref] *)
Definition owner_ref (g : IrqDeliveryGroup) : string := "irq-group:" +:+ group_id g.

Definition member_document (m : IrqDeliveryMember) : json :=
  JObj ([("source_component", JStr (member_component m)); ("source_port", JStr (member_port m));
         ("mode", JStr (mode m)); ("pulse_width_ticks", from_option JInt JNull (pulse_width_ticks m));
         ("source_bit_offset", JInt (member_bit_offset m))]
        ++ match source_adapter m with Some a => [("source_adapter", JStr a)] | None => [] end).

(** [document] *)
Definition document (g : IrqDeliveryGroup) : json :=
  JObj ([("schema_version", JStr "host_irq_delivery_group.v1"); ("group_id", JStr (group_id g));
         ("target_component", JStr (group_component g)); ("target_port", JStr (group_port g));
         ("members", JArr (map member_document (members g)));
         ("target_bit_offset", JInt (group_bit_offset g)); ("operation", JStr (operation g))]
        ++ if target_input_bit_lo g =? 0 then []
           else [("target_input_bit_lo", JInt (target_input_bit_lo g))]).

(** [identity_sha256] *)
Definition identity_sha256 {hashlib : Hashlib} (g : IrqDeliveryGroup) : string :=
  hexdigest (dumps_ascii (document g)).

Definition member_binding (g : IrqDeliveryGroup) (m : IrqDeliveryMember) : Binding :=
  mkBinding (member_component m) (member_port m) (group_component g) (group_port g) 1
    (member_bit_offset m) (group_bit_offset g).

(** [member_bindings] *)
Definition member_bindings (g : IrqDeliveryGroup) : list Binding := member_binding g <$> members g.

(** ** The state of a group *)

(** A reference to the native event of an observation. *)
Record Reference := mkReference {
  ref_component : string;
  event_id : Z;
  reset_epoch : Z;
  local_tick : Z;
  phase : string;
  detail : list (string * json) }.

Record MemberSample := mkSample {
  sample_value : Z;
  reference : Reference;
  pulse_origin : option Reference }.

(** One member in a frame; [row_pulse] is the pulse delivery whose state
    document the row carries. *)
Record Row := mkRow {
  row_source : string;
  row_mode : string;
  row_value : Z;
  native_source : option Reference;
  latest_native_source : Reference;
  row_pulse : option IrqPulseDelivery }.

Record NativeSample := mkNativeSample {
  native_sample_event_id : Z;
  cpu_step_event_id : Z;
  target_epoch : Z;
  receipt_id : json }.

Record NativeTake := mkNativeTake {
  native_take_event_id : Z;
  take_key : json;
  irq_serial_observation : json }.

Record Frame := mkFrame {
  frame_group_id : string;
  group_sha256 : string;
  frame_component : string;
  frame_port : string;
  cpu_tick : Z;
  frame_value : Z;
  rows : list Row;
  active_sources : list string;
  attribution_status : string;
  unique_source : option string;
  native_sample : option NativeSample;
  native_take : option NativeTake }.

Record GroupState := mkState {
  group : IrqDeliveryGroup;
  samples : list (Binding * MemberSample);
  active_frame : option Frame;
  last_delivery : option Frame }.

(** [IrqDeliveryGroupState.__init__], without the pulses *)
Definition new_state (g : IrqDeliveryGroup) : GroupState := mkState g [] None None.

Definition set_samples (l : list (Binding * MemberSample)) (s : GroupState) : GroupState :=
  mkState (group s) l (active_frame s) (last_delivery s).
Definition set_active (f : option Frame) (s : GroupState) : GroupState :=
  mkState (group s) (samples s) f (last_delivery s).
Definition set_last (f : option Frame) (s : GroupState) : GroupState :=
  mkState (group s) (samples s) (active_frame s) f.

(** [reset] *)
Definition reset (s : GroupState) : GroupState := mkState (group s) [] None None.

(** The origin an observation leaves in its sample. *)
Definition rising (value : Z) (r : Reference) (previous : option MemberSample) : option Reference :=
  if (value =? 1) && match previous with Some p => sample_value p =? 0 | None => true end
  then Some r
  else p ← previous; pulse_origin p.

(** [observe] *)
Definition observe (b : Binding) (value : Z) (r : Reference) : M GroupState bool := λ s,
  (check (negb (bool_decide (b ∈ member_bindings (group s))) || negb (in_list value [0; 1]))
     (ValueError "IRQ group undeclared or invalid source") ;;
   check (negb (bool_decide (ref_component r = source_component b)) || (event_id r <? 1)
          || (reset_epoch r <? 0) || (local_tick r <? 0)
          || negb (bool_decide (phase r = "pre" ∨ phase r = "post")))
     (ValueError "IRQ group native member reference required") ;;
   let previous := od_get (samples s) b in
   modify (set_samples (od_set (samples s) b (mkSample value r (rising value r previous)))) ;;
   mret (match previous with Some p => negb (sample_value p =? value) | None => true end)) s.

(** One row of a frame. *)
Definition frame_row (s : GroupState) (pulses : list (Binding * IrqPulseDelivery)) (tick : Z)
    (m : IrqDeliveryMember) : result Row :=
  let b := member_binding (group s) m in
  match od_get (samples s) b with
  | None => Err (ValueError "IRQ group member native state unavailable")
  | Some sample =>
      '(value, pulse) ←
        (if bool_decide (mode m = "pulse") then
           match od_get pulses b with
           | None => Err (KeyError "Binding")
           | Some d => v ← input_at tick d; mret (v, Some d)
           end
         else mret (sample_value sample, None));
      mret (mkRow (member_id m) (mode m) value
              (if value =? 0 then Some (reference sample) else pulse_origin sample)
              (reference sample) pulse)
  end.

Section group_state.
Context {hashlib : Hashlib}.

(** [frame] *)
Definition frame (pulses : list (Binding * IrqPulseDelivery)) (tick : Z) (s : GroupState)
    : result Frame :=
  let g := group s in
  rows ← map_result (frame_row s pulses tick) (members g);
  let active := row_source <$> filter (λ r, row_value r = 1) rows in
  mret (mkFrame (group_id g) (identity_sha256 g) (group_component g) (group_port g) tick
          (if active is [] then 0 else 1) rows active
          (match active with [] => "unknown" | [_] => "unique" | _ => "joint" end)
          (match active with [x] => Some x | _ => None end) None None).

(** [begin_step] *)
Definition begin_step (pulses : list (Binding * IrqPulseDelivery)) (tick : Z) : M GroupState () := λ s,
  (check (bool_decide (is_Some (active_frame s))) (ValueError "IRQ group CPU step still active") ;;
   f ← reads (frame pulses tick);
   modify (set_active (Some f))) s.
End group_state.

(** The native events of the CPU, by [kind]. *)
Inductive Native : Type :=
  | cpu_external_irq_sample (component : string) (local_tick : option Z)
      (expected_input actual_pre_input actual_post_input : option Z)
      (event_id producer_event_id reset_epoch : Z) (receipt_id : json)
  | cpu_external_irq_taken (component : string) (sample_event_id producer_event_id : option Z)
      (local_tick : option Z) (event_id : Z) (take_key irq_serial_observation : json)
  | other_native (component : string).

Definition native_component (e : Native) : string :=
  match e with
  | cpu_external_irq_sample c _ _ _ _ _ _ _ _ => c
  | cpu_external_irq_taken c _ _ _ _ _ _ => c
  | other_native c => c
  end.

Definition with_sample (n : NativeSample) (f : Frame) : Frame :=
  mkFrame (frame_group_id f) (group_sha256 f) (frame_component f) (frame_port f) (cpu_tick f)
    (frame_value f) (rows f) (active_sources f) (attribution_status f) (unique_source f)
    (Some n) (native_take f).
Definition with_take (n : NativeTake) (f : Frame) : Frame :=
  mkFrame (frame_group_id f) (group_sha256 f) (frame_component f) (frame_port f) (cpu_tick f)
    (frame_value f) (rows f) (active_sources f) (attribution_status f) (unique_source f)
    (native_sample f) (Some n).

(** [native] *)
Definition native (e : Native) : M GroupState () := λ s,
  match active_frame s with
  | None => (Ok (), s)
  | Some f =>
      if negb (bool_decide (native_component e = group_component (group s))) then (Ok (), s) else
      match e with
      | cpu_external_irq_sample _ tick expected pre post id producer epoch receipt =>
          (check (negb (bool_decide (tick = Some (cpu_tick f)))
                  || existsb (λ v, negb (bool_decide (v = Some (frame_value f)))) [expected; pre; post]
                  || bool_decide (is_Some (native_sample f)))
             (ValueError "IRQ group parsed CPU input does not match OR") ;;
           modify (set_active (Some (with_sample (mkNativeSample id producer epoch receipt) f)))) s
      | cpu_external_irq_taken _ sample producer tick id key serial =>
          (check (negb (bool_decide (sample = native_sample_event_id <$> native_sample f))
                  || negb (bool_decide (producer = cpu_step_event_id <$> native_sample f))
                  || negb (bool_decide (tick = Some (cpu_tick f))))
             (ValueError "IRQ group native acceptance receipt mismatch") ;;
           modify (set_active (Some (with_take (mkNativeTake id key serial) f)))) s
      | other_native _ => (Ok (), s)
      end
  end.

(** [finish_step] *)
Definition finish_step (step_event_id : Z) : M GroupState Frame := λ s,
  match active_frame s with
  | Some f =>
      (check (negb (bool_decide (cpu_step_event_id <$> native_sample f = Some step_event_id)))
         (ValueError "IRQ group parsed CPU input receipt missing") ;;
       modify (set_last (Some f)) ;;
       modify (set_active None) ;;
       mret f) s
  | None => raise (ValueError "IRQ group parsed CPU input receipt missing") s
  end.

(** ** The group in the runner's step *)

Record Delivery := mkDelivery {
  state : GroupState;
  pulses_of : list (Binding * IrqPulseDelivery);
  cpu_local_tick : Z }.

Definition set_state (s : GroupState) (d : Delivery) : Delivery :=
  mkDelivery s (pulses_of d) (cpu_local_tick d).
Definition set_pulse (b : Binding) (p : IrqPulseDelivery) (d : Delivery) : Delivery :=
  mkDelivery (state d) (od_set (pulses_of d) b p) (cpu_local_tick d).
Definition advance (d : Delivery) : Delivery :=
  mkDelivery (state d) (pulses_of d) (cpu_local_tick d + 1).

(** An operation of the group's state; of one pulse delivery. *)
Definition on_state {A} (m : M GroupState A) : M Delivery A := λ d,
  let '(r, s) := m (state d) in (r, set_state s d).
Definition on_pulse {A} (b : Binding) (p : IrqPulseDelivery) (m : M IrqPulseDelivery A)
    : M Delivery A := λ d, let '(r, p) := m p in (r, set_pulse b p d).

(** The pulse delivery the runner makes for a pulse member. *)
Definition new_pulse (m : IrqDeliveryMember) : result IrqPulseDelivery :=
  match pulse_width_ticks m with
  | Some w => new_irq w (bool_decide (source_adapter m = Some "declared-output.v1"))
  | None => Err (OtherError "TypeError")
  end.

Definition new_pulses (g : IrqDeliveryGroup) : result (list (Binding * IrqPulseDelivery)) :=
  map_result (λ m, p ← new_pulse m; mret (member_binding g m, p))
    (filter (λ m, mode m = "pulse") (members g)).

Definition new_delivery (g : IrqDeliveryGroup) : result Delivery :=
  pulses ← new_pulses g; mret (mkDelivery (new_state g) pulses 0).

(** A source output observed and routed; a step of the target CPU with the
    native events it reported and what it showed of mask and acceptance. *)
Inductive Op : Type :=
  | Observed (b : Binding) (value : Z) (r : Reference) (source_tick : Z) (trigger : option json)
  | Stepped (natives : list Native) (step_event_id : Z) (masked taken : option bool).

(** [_route_observed_outputs] for one binding of the group *)
Definition route (b : Binding) (value : Z) (r : Reference) (source_tick : Z) (trigger : option json)
    : M Delivery () := λ d,
  (on_state (observe b value r) ;;
   match od_get (pulses_of d) b with
   | Some p => on_pulse b p (observe_source value source_tick (cpu_local_tick d) trigger)
   | None => mret ()
   end) d.

(** The pulse deliveries sampled after a step. *)
Definition sample_pulse (f : Frame) (step_event_id : Z) (masked taken : option bool)
    (bp : Binding * IrqPulseDelivery) : M Delivery () := λ d,
  let '(b, p) := bp in
  let taken := if bool_decide (unique_source f = Some (source_id (source_component b) (source_port b)))
                  && bool_decide (is_Some (native_take f)) then taken else None in
  (on_pulse b p (sample_cpu (cpu_local_tick d) masked taken (Some step_event_id)) ;; mret ()) d.

Section delivery.
Context {hashlib : Hashlib}.

(** [step_component] of the target CPU, as far as the group goes *)
Definition step_cpu (natives : list Native) (step_event_id : Z) (masked taken : option bool)
    : M Delivery Frame := λ d,
  (on_state (begin_step (pulses_of d) (cpu_local_tick d + 1)) ;;
   for_eachM (λ e, on_state (native e)) natives ;;
   modify advance ;;
   f ← on_state (finish_step step_event_id);
   for_eachM (sample_pulse f step_event_id masked taken) (pulses_of d) ;;
   mret f) d.

Definition exec_op (o : Op) : M Delivery () :=
  match o with
  | Observed b value r source_tick trigger => route b value r source_tick trigger
  | Stepped natives id masked taken => step_cpu natives id masked taken ;; mret ()
  end.
End delivery.

(** ** Lists of results *)

(** ** What the observations leave behind *)

(** The observations of one binding in a run, in order. *)
Definition observation (b : Binding) (o : Op) : option (Z * Reference) :=
  match o with
  | Observed b' v r _ _ => if bool_decide (b' = b) then Some (v, r) else None
  | Stepped _ _ _ _ => None
  end.
Definition observed (ops : list Op) (b : Binding) : list (Z * Reference) := omap (observation b) ops.

Definition observe_sample (previous : option MemberSample) (o : Z * Reference) : option MemberSample :=
  Some (mkSample o.1 o.2 (rising o.1 o.2 previous)).
Definition sample_of (h : list (Z * Reference)) : option MemberSample := foldl observe_sample None h.

Lemma sample_of_snoc h o : sample_of (h ++ [o]) = observe_sample (sample_of h) o.
Proof. unfold sample_of. by rewrite foldl_app. Qed.

Lemma sample_of_last h s :
  sample_of h = Some s → ∃ h0, h = h0 ++ [(sample_value s, reference s)].
Proof.
  destruct h as [|[v r] h0 _] using rev_ind; [done|]. rewrite sample_of_snoc.
  intros [= <-]. by exists h0.
Qed.

Definition high (o : Z * Reference) : Prop := o.1 = 1.
Definition low (o : Z * Reference) : Prop := o.1 = 0.

(** [r] is the reference of the last rising edge of [h]: it saw a one where the
    observation before, if any, saw a zero, and a run of ones and one of zeros
    is all that follows. *)
Definition last_rise (r : Reference) (h zeros : list (Z * Reference)) : Prop :=
  ∃ h0 ones, h = h0 ++ (1, r) :: ones ++ zeros ∧ Forall high ones ∧ Forall low zeros ∧
             (∀ o, last h0 = Some o → low o).

(** A sample's origin is the last rising edge; a sample that reads one has an
    origin, and no zero after it. *)
Lemma sample_origin h s :
  Forall (λ o, low o ∨ high o) h → sample_of h = Some s →
  match pulse_origin s with
  | Some r => ∃ zeros, last_rise r h zeros ∧ (sample_value s = 1 → zeros = [])
  | None => Forall low h
  end.
Proof.
  revert s. induction h as [|[v r] h IH] using rev_ind; [done|].
  intros s [Hh Hv]%Forall_app. rewrite sample_of_snoc. intros [= <-]. unfold rising. cbn.
  rewrite Forall_singleton in Hv. unfold high, low in Hv. cbn in Hv.
  destruct (sample_of h) as [p|] eqn:Hp.
  - specialize (IH p Hh eq_refl). destruct (sample_of_last h p Hp) as (h0 & Hlast).
    destruct Hv as [Hv|Hv]; subst v; cbn.
    + destruct (pulse_origin p) as [r0|]; [|apply Forall_app; split; [done|by repeat constructor]].
      destruct IH as (zeros & (h1 & ones & -> & Ho & Hz & Hl) & _).
      exists (zeros ++ [(0, r)]). split; [|done]. exists h1, ones.
      split_and!; [by rewrite <- !app_assoc, <- app_comm_cons, <- app_assoc|done| |done].
      apply Forall_app. split; [done|by repeat constructor].
    + destruct (sample_value p =? 0) eqn:Hz; cbn.
      * exists []. split; [|done]. exists h, []. split_and!; [done|constructor|constructor|].
        intros o. rewrite Hlast, last_snoc. intros [= <-]. unfold low. cbn. lia.
      * assert (sample_value p = 1) as H1.
        { rewrite Hlast in Hh. apply Forall_app in Hh as [_ Hh]. rewrite Forall_singleton in Hh.
          unfold low, high in Hh. cbn in Hh. lia. }
        destruct (pulse_origin p) as [r0|].
        2: { rewrite Hlast in IH. apply Forall_app in IH as [_ IH]. rewrite Forall_singleton in IH.
             unfold low in IH. cbn in IH. lia. }
        destruct IH as (zeros & (h1 & ones & Heq & Ho & _ & Hl) & Hzs). rewrite (Hzs H1) in Heq.
        exists []. split; [|done]. exists h1, (ones ++ [(1, r)]).
        rewrite app_nil_r in *. split_and!; [by rewrite Heq, <- app_assoc, <- app_comm_cons| |done|done].
        apply Forall_app. split; [done|by repeat constructor].
  - destruct h as [|o h _] using rev_ind; [|by rewrite sample_of_snoc in Hp].
    destruct Hv as [Hv|Hv]; subst v; cbn; [by repeat constructor|].
    exists []. split; [|done]. exists [], []. split_and!; [done|constructor|constructor|done].
Qed.

(** ** The invariant between operations *)

Record delivery_ok (g : IrqDeliveryGroup) (ops : list Op) (d : Delivery) : Prop := {
  do_group : group (state d) = g;
  do_idle : active_frame (state d) = None;
  do_samples b : od_get (samples (state d)) b = sample_of (observed ops b);
  do_values b : Forall (λ o, low o ∨ high o) (observed ops b);
  do_pulses b p : od_get (pulses_of d) b = Some p →
    (∃ w h, irq_ok w p h) ∧ _last_cpu_tick p = cpu_local_tick d;
  do_keys : NoDup (od_keys (pulses_of d)) }.

Lemma member_binding_inj g m m' :
  member_binding g m = member_binding g m' → member_id m = member_id m'.
Proof. unfold member_binding, member_id. intros [= Hc Hp _]. unfold source_id. by rewrite Hc, Hp. Qed.

Lemma new_delivery_ok g d :
  NoDup (member_id <$> members g) → new_delivery g = Ok d → delivery_ok g [] d.
Proof.
  intros Hn. unfold new_delivery. intros Hd. inv_Ok.
  match goal with H : new_pulses _ = Ok _ |- _ => apply map_result_Ok in H as Hp end.
  split; try done.
  - intros b p Hg. apply od_get_elem in Hg. cbn in Hg.
    apply list_elem_of_lookup in Hg as [i Hi].
    destruct (Forall2_lookup_r _ _ _ _ _ Hp Hi) as (m & _ & Hm). inv_Ok.
    match goal with H : new_pulse _ = Ok _ |- _ => unfold new_pulse in H; rename H into Hnew end.
    destruct (pulse_width_ticks m) as [w|]; [|done].
    split; [exists w, []; by eapply new_irq_ok|]. unfold new_irq in Hnew. inv_Ok. done.
  - assert (Hk : od_keys x = member_binding g <$> filter (λ m, mode m = "pulse") (members g)).
    { clear -Hp. unfold od_keys.
      induction Hp as [|m [b p] ms l Hm Hp IH]; [done|]. inv_Ok. cbn. by f_equal. }
    change (NoDup (od_keys x)). rewrite Hk. apply NoDup_fmap_2_strong.
    + intros m m' Hm Hm' Hb%member_binding_inj. rewrite list_elem_of_filter in Hm, Hm'.
      by eapply (NoDup_fmap_elem member_id (members g)); [|apply Hm|apply Hm'|].
    + apply NoDup_filter. by eapply NoDup_fmap_1.
Qed.

Lemma observe_Ok b v r s c s' :
  observe b v r s = (Ok c, s') →
  (v = 0 ∨ v = 1) ∧
  s' = set_samples (od_set (samples s) b (mkSample v r (rising v r (od_get (samples s) b)))) s.
Proof.
  unfold observe. intros Ho. inv_M. split; [|done]. by apply in_list_pair.
Qed.

Lemma observed_snoc ops o b :
  observed (ops ++ [o]) b = observed ops b ++ option_list (observation b o).
Proof. unfold observed. rewrite omap_app. cbn. by destruct (observation b o). Qed.

(** A change of one pulse delivery that keeps it at its tick. *)
Lemma pulses_set g ops d b p :
  delivery_ok g ops d → (∃ w h, irq_ok w p h) → _last_cpu_tick p = cpu_local_tick d →
  delivery_ok g ops (set_pulse b p d).
Proof.
  intros [Hg Hi Hs Hv Hp Hk] Hok Hl. split; try done.
  - intros b' p' Hget. cbn in Hget. rewrite od_get_set in Hget.
    case_decide; [by simplify_eq|by apply (Hp b')].
  - by apply od_set_NoDup.
Qed.

Lemma observe_source_tick level st t tr p :
  _last_cpu_tick (observe_source level st t tr p).2 = _last_cpu_tick p.
Proof. unfold observe_source. unfold_M. by repeat (case_match; try done). Qed.

Lemma route_ok g ops d d' b v r st tr :
  delivery_ok g ops d → route b v r st tr d = (Ok (), d') →
  delivery_ok g (ops ++ [Observed b v r st tr]) d'.
Proof.
  intros Hok Hr. unfold route in Hr. apply M_bind_Ok in Hr as (c & d1 & Ho & Hr).
  unfold on_state in Ho. destruct (observe b v r (state d)) as [[c'|] s1] eqn:Hobs; [|done].
  injection Ho as <- <-. apply observe_Ok in Hobs as [Hv ->].
  assert (Hok1 : delivery_ok g (ops ++ [Observed b v r st tr])
    (set_state (set_samples (od_set (samples (state d)) b
       (mkSample v r (rising v r (od_get (samples (state d)) b)))) (state d)) d)).
  { destruct Hok as [Hg Hi Hs Hvs Hp Hk]. split; try done.
    - intros b'. cbn. rewrite observed_snoc, od_get_set. cbn. case_decide as Hb.
      + subst b'. rewrite bool_decide_eq_true_2 by done. cbn. by rewrite sample_of_snoc, <- Hs.
      + rewrite bool_decide_eq_false_2 by done. cbn. by rewrite app_nil_r.
    - intros b'. rewrite observed_snoc. apply Forall_app. split; [done|]. cbn.
      case_bool_decide; cbn; constructor; [exact Hv|constructor]. }
  destruct (od_get (pulses_of d) b) as [p|] eqn:Hp; [|by injection Hr as <-].
  unfold on_pulse in Hr.
  destruct (do_pulses _ _ _ Hok b p Hp) as ((w & h & Hirq) & Hl).
  pose proof (observe_source_ok w p h v st tr Hirq) as Hirq'. rewrite Hl in Hirq'.
  pose proof (observe_source_tick v st (cpu_local_tick d) tr p) as Ht.
  change (cpu_local_tick (set_state _ d)) with (cpu_local_tick d) in Hr.
  destruct (observe_source v st (cpu_local_tick d) tr p) as [r' p'].
  injection Hr as -> <-. cbn in Ht, Hirq'. apply pulses_set; [done|by eauto|by rewrite Ht].
Qed.

(** ** One step of the CPU *)

(** A frame without what the CPU reported of it. *)
Definition bare (f : Frame) : Frame :=
  mkFrame (frame_group_id f) (group_sha256 f) (frame_component f) (frame_port f) (cpu_tick f)
    (frame_value f) (rows f) (active_sources f) (attribution_status f) (unique_source f) None None.

(** The CPU's sample of its input, before and after the step and as it was
    expected, all equal to the frame's value at the frame's tick. *)
Definition confirms (g : IrqDeliveryGroup) (f : Frame) (n : NativeSample) (e : Native) : Prop :=
  let v := Some (frame_value f) in
  e = cpu_external_irq_sample (group_component g) (Some (cpu_tick f)) v v v
        (native_sample_event_id n) (cpu_step_event_id n) (target_epoch n) (receipt_id n).

Lemma native_Ok e s s' f :
  active_frame s = Some f → native e s = (Ok (), s') →
  ∃ f', s' = set_active (Some f') s ∧ bare f' = bare f ∧
        (native_sample f' = native_sample f ∨
         ∃ n, native_sample f' = Some n ∧ confirms (group s) f n e).
Proof.
  unfold native. intros Hf Hn. rewrite Hf in Hn.
  assert (Hself : s = set_active (Some f) s) by (destruct s; cbn in *; by subst).
  destruct (negb _) eqn:Hc; [injection Hn as <-; by eauto|].
  apply negb_false_iff, bool_decide_eq_true in Hc.
  destruct e as [c tick expected pre post id producer epoch receipt|c sample producer tick id key serial|c];
    [| |injection Hn as <-; by eauto]; cbn in Hc; subst c; inv_M; injection Hn as <-.
  - exists (with_sample (mkNativeSample id producer epoch receipt) f).
    split_and!; [done|done|]. right. eexists. split; [done|]. unfold confirms. cbn in *. inv_Ok.
    by subst.
  - exists (with_take (mkNativeTake id key serial) f). split_and!; [done|done|by left].
Qed.

Lemma natives_Ok es d d' f :
  active_frame (state d) = Some f → for_eachM (λ e, on_state (native e)) es d = (Ok (), d') →
  ∃ f', d' = set_state (set_active (Some f') (state d)) d ∧ bare f' = bare f ∧
        (native_sample f' = native_sample f ∨
         ∃ n e, native_sample f' = Some n ∧ e ∈ es ∧ confirms (group (state d)) f n e).
Proof.
  revert d f. induction es as [|e es IH]; intros d f Hf Hr; cbn in Hr.
  { injection Hr as <-. exists f. split_and!; [|done|by left]. destruct d as [[] ? ?]; cbn in *; by subst. }
  apply M_bind_Ok in Hr as ([] & d1 & He & Hr). unfold on_state in He.
  destruct (native e (state d)) as [r s1] eqn:Hn. injection He as -> <-.
  apply (native_Ok e _ _ f) in Hn as (f1 & -> & Hb1 & Hs1); [|done].
  apply (IH _ f1) in Hr as (f2 & -> & Hb2 & Hs2); [|done].
  exists f2. split_and!; [done|congruence|].
  assert (Hcore : frame_value f1 = frame_value f ∧ cpu_tick f1 = cpu_tick f).
  { unfold bare in Hb1. by injection Hb1. }
  destruct Hs2 as [Hs2|(n & e' & Hn & Hin & Hc)].
  - destruct Hs1 as [Hs1|(n & Hn & Hc)]; [left; congruence|].
    right. exists n, e. split_and!; [congruence|by left|done].
  - right. exists n, e'. split_and!; [done|by right|]. unfold confirms in *. cbn in Hc.
    destruct Hcore as [<- <-]. done.
Qed.

Lemma sample_cpu_Ok w p h t masked accepted step v p' :
  irq_ok w p h → sample_cpu t masked accepted step p = (Ok v, p') →
  (∃ h', irq_ok w p' h') ∧ _last_cpu_tick p' = t.
Proof.
  intros Hok Hs. split.
  - exists (h ++ [(t, masked, v)]).
    apply (exec_irq_ok w p h (Sample t masked accepted step)); [done|]. cbn. by rewrite Hs.
  - rewrite sample_outcome in Hs. destruct (t <=? _last_cpu_tick p); [done|].
    injection Hs as _ <-. unfold sampled. by destruct (expiry _ _ _) as [[? ?]|].
Qed.

Lemma sample_loop_ok f id masked taken l d d' t :
  for_eachM (sample_pulse f id masked taken) l d = (Ok (), d') →
  NoDup (od_keys l) → cpu_local_tick d = t →
  Forall (λ bp, ∃ w h, irq_ok w bp.2 h) l →
  NoDup (od_keys (pulses_of d)) →
  state d' = state d ∧ cpu_local_tick d' = t ∧ NoDup (od_keys (pulses_of d')) ∧
  ∀ b p, od_get (pulses_of d') b = Some p →
    ((∃ w h, irq_ok w p h) ∧ _last_cpu_tick p = t) ∨
    ((b ∉ od_keys l) ∧ od_get (pulses_of d) b = Some p).
Proof.
  revert d. induction l as [|[b p] l IH]; intros d Hr Hn Ht Hl Hk.
  { injection Hr as <-. split_and!; [done..|]. intros b p Hg. right. split; [apply not_elem_of_nil|done]. }
  cbn [for_eachM] in Hr.
  apply M_bind_Ok in Hr as ([] & d1 & Hp & Hr). unfold sample_pulse in Hp.
  apply M_bind_Ok in Hp as (v & d2 & Hp & Hd). injection Hd as <-. unfold on_pulse in Hp. rewrite Ht in Hp.
  destruct (sample_cpu _ _ _ _ p) as [r p'] eqn:Hs. injection Hp as -> <-.
  apply Forall_cons in Hl as [(w & h & Hirq) Hl]. apply NoDup_cons in Hn as [Hb Hn].
  destruct (sample_cpu_Ok _ _ _ _ _ _ _ _ _ Hirq Hs) as [(h' & Hirq') Hlast].
  destruct (IH (set_pulse b p' d) Hr Hn Ht Hl) as (Hst & Htick & Hkeys & Hget); [by apply od_set_NoDup|].
  split_and!; [done..|]. intros b2 p2 H2. destruct (Hget b2 p2 H2) as [?|[Hnin Hold]]; [by left|].
  cbn in Hold. rewrite od_get_set in Hold. case_decide as Heq.
  - left. simplify_eq. by eauto.
  - right. split; [|done]. intros [?|?]%elem_of_cons; [by subst|done].
Qed.

Section steps.
Context {hashlib : Hashlib}.

Lemma begin_step_Ok pulses t s s' :
  begin_step pulses t s = (Ok (), s') →
  ∃ f, frame pulses t s = Ok f ∧ native_sample f = None ∧ s' = set_active (Some f) s.
Proof.
  unfold begin_step. unfold_M. case_raise Hc; [|done].
  destruct (frame pulses t s) as [f|] eqn:Hf; cbn; [|done]. intros [= <-]. exists f.
  split_and!; [done| |done]. unfold frame in Hf. inv_Ok. done.
Qed.

Lemma finish_step_Ok id s f0 f s' :
  active_frame s = Some f0 → finish_step id s = (Ok f, s') →
  f = f0 ∧ (∃ n, native_sample f = Some n ∧ cpu_step_event_id n = id) ∧
  s' = set_active None (set_last (Some f) s).
Proof.
  unfold finish_step. intros ->. unfold_M. case_raise Hc; [|done]. intros [= -> <-].
  inv_Ok. split_and!; [done| |done].
  match goal with H : _ <$> native_sample f = _ |- _ => apply fmap_Some in H as (n & Hn & ->) end.
  by exists n.
Qed.

(** What a completed step did: it formed a frame before the CPU moved, the CPU
    confirmed it, and the pulse deliveries are at the new tick. *)
Lemma step_cpu_ok g ops d natives id masked taken f d' :
  delivery_ok g ops d → step_cpu natives id masked taken d = (Ok f, d') →
  delivery_ok g (ops ++ [Stepped natives id masked taken]) d' ∧
  ∃ f0, frame (pulses_of d) (cpu_local_tick d + 1) (state d) = Ok f0 ∧ bare f = bare f0 ∧
        ∃ n e, native_sample f = Some n ∧ cpu_step_event_id n = id ∧ e ∈ natives ∧ confirms g f n e.
Proof.
  intros Hok Hs. unfold step_cpu in Hs. apply M_bind_Ok in Hs as ([] & d1 & Hb & Hs).
  unfold on_state in Hb. destruct (begin_step _ _ _) as [r s1] eqn:Hbegin. injection Hb as -> <-.
  apply begin_step_Ok in Hbegin as (f0 & Hframe & Hnone & ->).
  apply M_bind_Ok in Hs as ([] & d2 & Hn & Hs).
  apply (natives_Ok _ _ _ f0) in Hn as (f1 & -> & Hbare & Hconf); [|done].
  apply M_bind_Ok in Hs as ([] & d3 & Ha & Hs). injection Ha as <-.
  apply M_bind_Ok in Hs as (f2 & d4 & Hf & Hs).
  unfold on_state in Hf. destruct (finish_step id _) as [r s2] eqn:Hfin. injection Hf as -> <-.
  apply (finish_step_Ok _ _ f1) in Hfin as (-> & (n & Hn & Hid) & ->); [|done].
  apply M_bind_Ok in Hs as ([] & d5 & Hloop & Hd). injection Hd as -> <-.
  destruct Hok as [Hg Hi Hsm Hv Hp Hk].
  apply (sample_loop_ok _ _ _ _ _ _ _ (cpu_local_tick d + 1)) in Hloop
    as (Hst & Ht & Hkeys & Hget); [|done|done| |done].
  2: { apply Forall_forall. intros [b p] Hin. apply (Hp b p). by apply od_elem_get. }
  split.
  - split; rewrite ?Hst, ?Ht; try done.
    + intros b. cbn. by rewrite observed_snoc, app_nil_r.
    + intros b. by rewrite observed_snoc, app_nil_r.
    + intros b p Hb. destruct (Hget b p Hb) as [[? ?]|[Hnin Hold]]; [done|].
      by apply od_get_Some_key in Hold.
  - exists f0. split_and!; [done|done|]. destruct Hconf as [Hc|(n' & e & Hn' & Hin & Hc)]; [congruence|].
    exists n', e. rewrite <- Hg. split_and!; [done|congruence|done|].
    assert (frame_value f = frame_value f0 ∧ cpu_tick f = cpu_tick f0) as [Hfv Hft].
    { unfold bare in Hbare. by injection Hbare. }
    unfold confirms. by rewrite Hfv, Hft.
Qed.

Lemma run_delivery_ok g ops0 ops d0 d :
  delivery_ok g ops0 d0 → for_eachM exec_op ops d0 = (Ok (), d) → delivery_ok g (ops0 ++ ops) d.
Proof.
  revert ops0 d0. induction ops as [|o ops IH]; intros ops0 d0 Hok Hr.
  { injection Hr as <-. by rewrite app_nil_r. }
  change (for_eachM exec_op (o :: ops) d0) with ((exec_op o ;; for_eachM exec_op ops) d0) in Hr.
  apply M_bind_Ok in Hr as ([] & d1 & Ho & Hr). rewrite (cons_middle o ops0 ops), app_assoc.
  apply (IH _ d1); [|done]. destruct o as [b v r st tr|natives id masked taken].
  - by eapply route_ok.
  - apply M_bind_Ok in Ho as (f & d2 & Hs & Hd). injection Hd as <-. by eapply step_cpu_ok.
Qed.
End steps.

(** ** What the CPU is given *)

(** A member is on at a tick: a pulse member when one of the pulses its delivery
    announced covers the tick, a level member when it was last observed high. *)
Definition is_on (ops : list Op) (d : Delivery) (tick : Z) (m : IrqDeliveryMember) : Prop :=
  let b := member_binding (group (state d)) m in
  if bool_decide (mode m = "pulse")
  then ∃ p q, od_get (pulses_of d) b = Some p ∧ q ∈ pulses p ∧ inside tick q
  else ∃ h r, observed ops b = h ++ [(1, r)].

Lemma row_on g ops d m r :
  delivery_ok g ops d → frame_row (state d) (pulses_of d) (cpu_local_tick d + 1) m = Ok r →
  row_source r = member_id m ∧ (row_value r = 1 ↔ is_on ops d (cpu_local_tick d + 1) m).
Proof.
  intros Hok. unfold frame_row, is_on. set (b := member_binding _ m).
  destruct (od_get (samples (state d)) b) as [s|] eqn:Hs; [|done].
  rewrite (do_samples _ _ _ Hok) in Hs. destruct (sample_of_last _ _ Hs) as (h & Hh).
  case_bool_decide as Hm.
  - destruct (od_get (pulses_of d) b) as [p|] eqn:Hp; [|done].
    destruct (do_pulses _ _ _ Hok b p Hp) as ((w & hist & Hirq) & Hl).
    intros Hr. inv_Ok. split; [done|]. unfold input_at in *. inv_Ok. cbn.
    rewrite (proj2 (slot_level w p hist (cpu_local_tick d + 1) Hirq ltac:(lia))). naive_solver.
  - intros Hr. inv_Ok. split; [done|]. cbn. rewrite Hh. split.
    + intros ->. by eexists _, _.
    + intros (h' & r' & Heq). apply app_inj_tail in Heq as [_ Heq]. by injection Heq.
Qed.

Lemma frame_shape {hashlib : Hashlib} pulses t s f :
  frame pulses t s = Ok f →
  let active := row_source <$> filter (λ r, row_value r = 1) (rows f) in
  Forall2 (λ m r, frame_row s pulses t m = Ok r) (members (group s)) (rows f) ∧
  cpu_tick f = t ∧ active_sources f = active ∧
  frame_value f = (if active is [] then 0 else 1) ∧
  unique_source f = match active with [x] => Some x | _ => None end.
Proof.
  unfold frame. intros Hf. inv_Ok.
  match goal with H : map_result _ _ = Ok _ |- _ => apply map_result_Ok in H end. done.
Qed.

(** The ids of the members that are on, in order. *)
Lemma active_members (on : IrqDeliveryMember → Prop) (ok : IrqDeliveryMember → Row → Prop) ms rs :
  Forall2 ok ms rs → (∀ m r, ok m r → row_source r = member_id m ∧ (row_value r = 1 ↔ on m)) →
  NoDup (member_id <$> ms) →
  let active := row_source <$> filter (λ r, row_value r = 1) rs in
  NoDup active ∧ (∀ x, x ∈ active ↔ ∃ m, m ∈ ms ∧ on m ∧ x = member_id m).
Proof.
  intros Hall Hok. induction Hall as [|m r ms rs Hmr Hall IH]; cbv zeta; intros Hn.
  { split; [constructor|]. intros x. split; [by intros ?%not_elem_of_nil|].
    intros (m & Hm & _). by apply not_elem_of_nil in Hm. }
  rewrite fmap_cons in Hn. apply NoDup_cons in Hn as [Hm Hn]. destruct (IH Hn) as [IHn IHx]. destruct (Hok m r Hmr) as [Hid Hon].
  rewrite filter_cons. case_decide as Hv; rewrite ?fmap_cons.
  - split.
    + apply NoDup_cons. split; [|done]. rewrite IHx, Hid. intros (m' & Hm' & _ & Heq).
      apply Hm. rewrite Heq. by apply list_elem_of_fmap_2.
    + intros x. rewrite elem_of_cons, IHx, Hid. set_solver.
  - split; [done|]. intros x. rewrite IHx. set_solver.
Qed.

Lemma NoDup_all_same {A} (l : list A) x : NoDup l → x ∈ l → (∀ y, y ∈ l → y = x) → l = [x].
Proof.
  intros Hn Hx Hall. destruct l as [|a [|b l]]; [by apply not_elem_of_nil in Hx| |].
  - by rewrite (Hall a ltac:(by left)).
  - rewrite (Hall a ltac:(by left)), (Hall b ltac:(by right; left)) in Hn.
    apply NoDup_cons in Hn as [Hn _]. destruct Hn. by left.
Qed.

(** What a list of the ids of the members that are on says of them. *)
Lemma or_of_members ms (on : IrqDeliveryMember → Prop) active :
  NoDup (member_id <$> ms) → NoDup active →
  (∀ m, on m → m ∈ ms) → (∀ x, x ∈ active ↔ ∃ m, on m ∧ x = member_id m) →
  ((if active is [] then 0 else 1) = 1 ↔ ∃ m, on m) ∧
  ∀ m, match active with [x] => Some x | _ => None end = Some (member_id m) ∧ m ∈ ms ↔
       on m ∧ ∀ m', on m' → m' = m.
Proof.
  intros Hids Hn Hin Hmem. pose proof (λ x y, NoDup_fmap_elem member_id ms x y Hids) as Hinj. split.
  - destruct active as [|x l].
    + split; [done|]. intros (m & Hm).
      assert (Hx : member_id m ∈ @nil string) by (apply Hmem; by exists m).
      by apply not_elem_of_nil in Hx.
    + split; [|done]. intros _. destruct (proj1 (Hmem x) ltac:(by left)) as (m & Hm & _). by exists m.
  - intros m. split.
    + intros [Huniq Hm]. destruct active as [|x [|y l]]; [done| |done]. injection Huniq as ->.
      assert (Hall : ∀ m', on m' → m' = m).
      { intros m' Hm'. apply Hinj; [by apply Hin|done|].
        apply list_elem_of_singleton, Hmem. by exists m'. }
      destruct (proj1 (Hmem (member_id m)) ltac:(by left)) as (m' & Hm' & _).
      split; [by rewrite <- (Hall m' Hm')|done].
    + intros [Hm Hall]. split; [|by apply Hin].
      rewrite (NoDup_all_same active (member_id m)); [done|done|apply Hmem; by exists m|].
      intros y (m' & Hm' & ->)%Hmem. by rewrite (Hall m' Hm').
Qed.

Section theorems.
Context {hashlib : Hashlib}.

Lemma group_ids g : IrqDeliveryGroup_post_init g = Ok g → NoDup (member_id <$> members g).
Proof. unfold IrqDeliveryGroup_post_init. intros Hg. by inv_Ok. Qed.

Lemma reachable_ok g d0 ops d :
  IrqDeliveryGroup_post_init g = Ok g → new_delivery g = Ok d0 →
  for_eachM exec_op ops d0 = (Ok (), d) → delivery_ok g ops d.
Proof.
  intros Hg Hnew Hrun. apply (run_delivery_ok g [] ops d0); [|done].
  apply new_delivery_ok; [by apply group_ids|done].
Qed.

(** C20.  The CPU is given the OR of the sources, and the delivery names them.
    From a declared group with fresh pulse deliveries, over any observations and
    steps that returned: a step's frame is one exactly if a member is on at the
    tick (a pulse member inside an announced pulse, a level member last seen
    high); the active sources are those members; the source is called unique
    exactly if one member alone is on; and the step returned only because the
    CPU's own sample, taken before, after and as expected, equals that value. *)
Theorem group_delivers_the_or g d0 ops d natives id masked taken f d' :
  IrqDeliveryGroup_post_init g = Ok g → new_delivery g = Ok d0 →
  for_eachM exec_op ops d0 = (Ok (), d) → step_cpu natives id masked taken d = (Ok f, d') →
  let on m := m ∈ members g ∧ is_on ops d (cpu_local_tick d + 1) m in
  cpu_tick f = cpu_local_tick d + 1 ∧
  (frame_value f = 0 ∨ frame_value f = 1) ∧ (frame_value f = 1 ↔ ∃ m, on m) ∧
  (∀ x, x ∈ active_sources f ↔ ∃ m, on m ∧ x = member_id m) ∧
  (∀ m, unique_source f = Some (member_id m) ∧ m ∈ members g ↔ on m ∧ ∀ m', on m' → m' = m) ∧
  ∃ n e, native_sample f = Some n ∧ cpu_step_event_id n = id ∧ e ∈ natives ∧ confirms g f n e.
Proof.
  intros Hg Hnew Hrun Hstep on. pose proof (reachable_ok _ _ _ _ Hg Hnew Hrun) as Hok.
  destruct (step_cpu_ok _ _ _ _ _ _ _ _ _ Hok Hstep) as (_ & f0 & Hf & Hb & Hconf).
  apply frame_shape in Hf as (Hrows & Ht & Ha & Hv & Hu). rewrite (do_group _ _ _ Hok) in Hrows.
  assert (bare f = bare f0 → cpu_tick f = cpu_tick f0 ∧ frame_value f = frame_value f0 ∧
    active_sources f = active_sources f0 ∧ unique_source f = unique_source f0) as Hcore.
  { unfold bare. intros Hbare. by injection Hbare. }
  destruct (Hcore Hb) as (-> & -> & -> & ->). clear Hcore.
  destruct (active_members (is_on ops d (cpu_local_tick d + 1)) _ _ _ Hrows) as [Hn Hx];
    [intros m r; by apply (row_on g)|by apply group_ids|].
  rewrite Hv, Hu, Ha. set (active := row_source <$> _) in *. clearbody active.
  destruct (or_of_members (members g) on active) as [Hor Huniq];
    [by apply group_ids|done|by intros m []|unfold on; set_solver|].
  split_and!; [done|destruct active; auto|done|unfold on; set_solver|done|done].
Qed.

(**  Attribution reaches back to the rising edge.  In any frame of a
    reachable state, the event an active member cites as its source is the last
    rising edge observed on its binding: a one that the observation before, if
    any, saw as zero, with nothing after it but ones and then zeros.  A level
    member that is on always cites one, with nothing but ones after it. *)
Lemma native_source_is_the_last_rise g d0 ops d pulses t f row :
  IrqDeliveryGroup_post_init g = Ok g → new_delivery g = Ok d0 →
  for_eachM exec_op ops d0 = (Ok (), d) → frame pulses t (state d) = Ok f →
  row ∈ rows f → row_value row = 1 →
  ∃ m, m ∈ members g ∧ row_source row = member_id m ∧
  match native_source row with
  | Some r => ∃ zeros, last_rise r (observed ops (member_binding g m)) zeros ∧
                       (mode m ≠ "pulse" → zeros = [])
  | None => mode m = "pulse"
  end.
Proof.
  intros Hg Hnew Hrun Hf Hin Hv. pose proof (reachable_ok _ _ _ _ Hg Hnew Hrun) as Hok.
  apply frame_shape in Hf as (Hrows & _). rewrite (do_group _ _ _ Hok) in Hrows.
  apply list_elem_of_lookup in Hin as [i Hi].
  destruct (Forall2_lookup_r _ _ _ _ _ Hrows Hi) as (m & Hm & Hrow).
  exists m. split; [by eapply list_elem_of_lookup_2|].
  unfold frame_row in Hrow. rewrite (do_group _ _ _ Hok), (do_samples _ _ _ Hok) in Hrow.
  destruct (sample_of _) as [s|] eqn:Hs; [|done].
  pose proof (sample_origin _ s (do_values _ _ _ Hok _) Hs) as Horigin.
  inv_Ok. destruct x as [v pulse]. inv_Ok. cbn in Hv. subst v. split; [done|]. cbn.
  case_bool_decide as Hmode.
  - destruct (pulse_origin s); [|done]. destruct Horigin as (zeros & Hrise & _). by exists zeros.
  - inv_Ok. destruct (pulse_origin s) as [r|].
    + destruct Horigin as (zeros & Hrise & Hz). exists zeros. split; [done|]. intros _. apply Hz. congruence.
    + destruct (sample_of_last _ _ Hs) as (h & Hh). rewrite Hh in Horigin.
      apply Forall_app in Horigin as [_ Hlow]. rewrite Forall_singleton in Hlow.
      unfold low in Hlow. cbn in Hlow. congruence.
Qed.
End theorems.

(** *** The hypotheses are satisfiable *)

Module Example_group.
#[local] Existing Instance checksum_hashlib.

Definition gpio : IrqDeliveryMember :=
  mkMember "gpio0" "irq" "pulse" (Some 3) 0 (Some "declared-output.v1").
Definition timer : IrqDeliveryMember := mkMember "timer0" "alarm" "level" None 2 None.
Definition irq_group : IrqDeliveryGroup :=
  mkGroup "external" "cpu0" "irq_external" [gpio; timer] 0 "or" 11.

Definition seen (component : string) (id tick : Z) : Reference :=
  mkReference component id 0 tick "post" [].
Definition fresh : Delivery :=
  match new_delivery irq_group with Ok d => d | Err _ => mkDelivery (new_state irq_group) [] 0 end.

(** Both lines low, then the timer's line high. *)
Definition ops : list Op :=
  [Observed (member_binding irq_group gpio) 0 (seen "gpio0" 1 0) 0 None;
   Observed (member_binding irq_group timer) 0 (seen "timer0" 2 0) 0 None;
   Observed (member_binding irq_group timer) 1 (seen "timer0" 3 1) 1 None;
   Stepped [other_native "cpu0"; cpu_external_irq_sample "cpu0" (Some 1) (Some 1) (Some 1) (Some 1)
              5 4 0 JNull] 4 (Some true) None;
   Observed (member_binding irq_group gpio) 1 (seen "gpio0" 6 1) 1 None].
Definition reached : Delivery := (for_eachM exec_op ops fresh).2.
Definition natives : list Native :=
  [cpu_external_irq_sample "cpu0" (Some 2) (Some 1) (Some 1) (Some 1) 8 7 0 JNull;
   cpu_external_irq_taken "cpu0" (Some 8) (Some 7) (Some 2) 9 JNull JNull].
Definition stepped : result Frame * Delivery := step_cpu natives 7 (Some false) (Some true) reached.
Definition no_frame : Frame := mkFrame "" "" "" "" 0 0 [] [] "" None None None.
Definition delivered : Frame := match stepped.1 with Ok f => f | Err _ => no_frame end.
Definition sources : list Row := rows delivered.

Example both_are_active :
  (frame_value delivered, active_sources delivered, attribution_status delivered) =
  (1, ["gpio0.irq"; "timer0.alarm"], "joint").
Proof. vm_compute. reflexivity. Qed.

Lemma group_delivers_the_or_witness :
  let on m := m ∈ members irq_group ∧ is_on ops reached (cpu_local_tick reached + 1) m in
  cpu_tick delivered = cpu_local_tick reached + 1 ∧
  (frame_value delivered = 0 ∨ frame_value delivered = 1) ∧
  (frame_value delivered = 1 ↔ ∃ m, on m) ∧
  (∀ x, x ∈ active_sources delivered ↔ ∃ m, on m ∧ x = member_id m) ∧
  (∀ m, unique_source delivered = Some (member_id m) ∧ m ∈ members irq_group ↔
        on m ∧ ∀ m', on m' → m' = m) ∧
  ∃ n e, native_sample delivered = Some n ∧ cpu_step_event_id n = 7 ∧ e ∈ natives ∧
         confirms irq_group delivered n e.
Proof.
  apply (group_delivers_the_or irq_group fresh ops reached natives 7 (Some false) (Some true)
           delivered stepped.2); vm_compute; reflexivity.
Defined.

Definition timer_row : Row := default (mkRow "" "" 0 None (seen "" 0 0) None) (sources !! 1%nat).

Lemma native_source_is_the_last_rise_witness :
  ∃ m, m ∈ members irq_group ∧ row_source timer_row = member_id m ∧
  match native_source timer_row with
  | Some r => ∃ zeros, last_rise r (observed ops (member_binding irq_group m)) zeros ∧
                       (mode m ≠ "pulse" → zeros = [])
  | None => mode m = "pulse"
  end.
Proof.
  assert (Hf : frame (pulses_of reached) 2 (state reached) = Ok (bare delivered))
    by (vm_compute; reflexivity).
  apply (native_source_is_the_last_rise irq_group fresh ops reached (pulses_of reached) 2
           (bare delivered) timer_row); [vm_compute; reflexivity..|exact Hf| |vm_compute; reflexivity].
  apply (list_elem_of_lookup_2 (rows (bare delivered)) 1%nat). vm_compute. reflexivity.
Defined.
End Example_group.
