(* ===== verification/Feedback.v ===== *)
(** * Coverage targets over observed outputs

    Models [src/src/myfuzz/scenario/feedback.py]: a target is a predicate on the
    bits of one output port, and [observed_targets] collects the targets some
    recorded event satisfies.  Events are documents as [json.loads] reads them.
    [observed_targets_spec] says exactly which targets are hit, and
    [observed_targets_app] that feedback taken batch by batch adds up to the
    feedback of the whole record. *)

From S2P Require Import Prelude JsonText.

Local Open Scope Z_scope.

Record CoverageTarget := mkTarget {
  target_id : string;
  target_component : string;
  target_port : string;
  target_mask : Z;
  target_value : Z }.

(** [CoverageTarget.__post_init__] *)
Definition CoverageTarget_post_init (t : CoverageTarget) : result CoverageTarget :=
  let empty s := bool_decide (s = EmptyString) in
  raise_if (empty (target_id t) || empty (target_component t) || empty (target_port t))
    (ValueError "coverage target identity is required") ;;
  raise_if ((target_mask t <? 1) || (target_value t <? 0)
            || negb (target_value t &&& Z.lnot (target_mask t) =? 0))
    (ValueError "coverage target predicate is invalid") ;;
  mret t.

Definition event : Type := list (string * value).

(** The test of one target against one event. *)
Definition hit (e : event) (t : CoverageTarget) : bool :=
  match od_get e "outputs", od_get e "component" with
  | Some (VObj outputs), Some (VStr component) =>
      bool_decide (component = target_component t) &&
      match od_get outputs (target_port t) with
      | Some (VInt actual) => actual &&& target_mask t =? target_value t
      | _ => false
      end
  | _, _ => false
  end.

(** The inner loop: one event against every target. *)
Definition add_hits (targets : list CoverageTarget) (hits : gset string) (e : event) : gset string :=
  foldl (λ hits t, if hit e t then {[ target_id t ]} ∪ hits else hits) hits targets.

(** [observed_targets] *)
Definition observed_targets (events : list event) (targets : list CoverageTarget) : gset string :=
  foldl (add_hits targets) ∅ events.

Lemma event_hits e targets hits x :
  x ∈ add_hits targets hits e ↔ x ∈ hits ∨ ∃ t, t ∈ targets ∧ hit e t = true ∧ x = target_id t.
Proof.
  unfold add_hits. revert hits.
  induction targets as [|t targets IH]; intros hits; cbn [foldl].
  { split; [by left|]. intros [?|(t & Ht & _)]; [done|]. by apply not_elem_of_nil in Ht. }
  rewrite IH. setoid_rewrite elem_of_cons.
  destruct (hit e t) eqn:Ht; rewrite ?elem_of_union, ?elem_of_singleton; clear IH; naive_solver congruence.
Qed.

Lemma hits_from events targets hits x :
  x ∈ foldl (add_hits targets) hits events ↔
  x ∈ hits ∨ ∃ e t, e ∈ events ∧ t ∈ targets ∧ hit e t = true ∧ x = target_id t.
Proof.
  revert hits. induction events as [|e events IH]; intros hits; cbn [foldl].
  { split; [by left|]. intros [?|(e & t & He & _)]; [done|]. by apply not_elem_of_nil in He. }
  rewrite IH, event_hits. setoid_rewrite elem_of_cons. clear IH. naive_solver.
Qed.

Lemma observed_targets_spec events targets x :
  x ∈ observed_targets events targets ↔
  ∃ e t, e ∈ events ∧ t ∈ targets ∧ hit e t = true ∧ x = target_id t.
Proof. unfold observed_targets. rewrite hits_from. set_solver. Qed.

Lemma observed_targets_app events1 events2 targets :
  observed_targets (events1 ++ events2) targets =
  observed_targets events1 targets ∪ observed_targets events2 targets.
Proof.
  apply set_eq. intros x. rewrite elem_of_union, !observed_targets_spec. set_solver.
Qed.

Example one_hit :
  observed_targets
    [[("component", VStr "gpio0"); ("outputs", VObj [("out", VInt 6); ("irq", VBool true)])];
     [("component", VStr "gpio0"); ("inputs", VObj [("out", VInt 1)])]]
    [mkTarget "t1" "gpio0" "out" 3 2; mkTarget "t2" "gpio0" "out" 1 1;
     mkTarget "t3" "gpio0" "irq" 1 1] = {[ "t1" ]}.
Proof. vm_compute. reflexivity. Qed.
