(* ===== verification/Spi.v ===== *)
(** * The external SPI peers

    Models [src/src/myfuzz/scenario/spi_peer.py] ([SpiPeer], single line, mode
    0) and [src/src/myfuzz/scenario/pulp_spi_peer.py] ([PulpSpiMode0Peer], which
    feeds such a peer from raw pin snapshots).  Bytes are integers; a pin
    snapshot is a map from names to integers.

    The theorems: a whole transfer of any bytes shifts the queued payload out
    most significant bit first, receives exactly the sent bytes as one frame
    and consumes one payload byte for each; and the PULP peer is that peer
    behind checks: a refused snapshot changes nothing, an accepted one is one
    observation of the inner peer, and the recorded events are exactly the
    level changes of each bit. *)

From S2P Require Import Prelude Isa.

Local Open Scope Z_scope.

Record SpiPeer := mkSpi {
  _payload : list Z;
  _payload_index : Z;
  _last_sck : Z;
  _last_csb : Z;
  _miso : Z;
  _rx_byte : Z;
  _bit_index : Z;
  _current_frame : list Z;
  _completed_frames : list (list Z);
  sample_count : Z;
  incomplete_frame_count : Z }.

(** [reset_case] *)
Definition reset_case (payload : option (list Z)) (s : SpiPeer) : SpiPeer :=
  mkSpi (default (_payload s) payload) 0 0 1 0 0 0 [] [] 0 0.

(** [__init__] *)
Definition new_spi (payload : list Z) (cpol cpha : Z) : result SpiPeer :=
  raise_if (negb ((cpol =? 0) && (cpha =? 0)))
    (ValueError "SpiPeer currently supports only CPOL=0, CPHA=0") ;;
  mret (reset_case None (mkSpi payload 0 0 1 0 0 0 [] [] 0 0)).

(** [queue_payload] *)
Definition queue_payload (payload : list Z) (s : SpiPeer) : SpiPeer :=
  mkSpi (_payload s ++ payload) (_payload_index s) (_last_sck s) (_last_csb s) (_miso s) (_rx_byte s)
    (_bit_index s) (_current_frame s) (_completed_frames s) (sample_count s)
    (incomplete_frame_count s).

(** [sd_i] *)
Definition sd_i (s : SpiPeer) : Z := _miso s ≪ 1.

(** [_payload_bit] *)
Definition payload_bit (payload : list Z) (index bit : Z) : Z :=
  if Z.of_nat (length payload) <=? index then 0
  else (nth (Z.to_nat index) payload 0 ≫ (7 - bit)) &&& 1.
Definition _payload_bit (s : SpiPeer) : Z := payload_bit (_payload s) (_payload_index s) (_bit_index s).

(** The last two assignments of [observe]. *)
Definition remember_pins (sck csb : Z) (s : SpiPeer) : SpiPeer :=
  mkSpi (_payload s) (_payload_index s) sck csb (_miso s) (_rx_byte s)
    (_bit_index s) (_current_frame s) (_completed_frames s) (sample_count s)
    (incomplete_frame_count s).

(** A selection begins. *)
Definition select (s : SpiPeer) : SpiPeer :=
  mkSpi (_payload s) (_payload_index s) (_last_sck s) (_last_csb s)
    (payload_bit (_payload s) (_payload_index s) 0) 0 0 [] (_completed_frames s)
    (sample_count s) (incomplete_frame_count s).

(** A selection ends. *)
Definition deselect (s : SpiPeer) : SpiPeer :=
  mkSpi (_payload s) (_payload_index s) (_last_sck s) (_last_csb s) 0 0 0 []
    (if bool_decide (_current_frame s = []) then _completed_frames s
     else _completed_frames s ++ [_current_frame s])
    (sample_count s)
    (if _bit_index s =? 0 then incomplete_frame_count s else incomplete_frame_count s + 1).

(** A rising clock edge samples [mosi]. *)
Definition sample (mosi : Z) (s : SpiPeer) : SpiPeer :=
  let rx := (_rx_byte s ≪ 1) ||| mosi in
  let bit := _bit_index s + 1 in
  if bit =? 8 then
    mkSpi (_payload s) (_payload_index s + 1) (_last_sck s) (_last_csb s) (_miso s) 0 0
      (_current_frame s ++ [rx]) (_completed_frames s) (sample_count s + 1)
      (incomplete_frame_count s)
  else
    mkSpi (_payload s) (_payload_index s) (_last_sck s) (_last_csb s) (_miso s) rx bit
      (_current_frame s) (_completed_frames s) (sample_count s + 1) (incomplete_frame_count s).

(** A falling clock edge presents the next bit. *)
Definition present (s : SpiPeer) : SpiPeer :=
  mkSpi (_payload s) (_payload_index s) (_last_sck s) (_last_csb s) (_payload_bit s) (_rx_byte s)
    (_bit_index s) (_current_frame s) (_completed_frames s) (sample_count s)
    (incomplete_frame_count s).

(** [observe] *)
Definition observe (sck csb mosi : Z) : M SpiPeer () := λ s,
  (check (negb (in_list sck [0; 1]) || negb (in_list csb [0; 1]) || negb (in_list mosi [0; 1]))
     (ValueError "SPI pins must be binary") ;;
   let was_selected := _last_csb s =? 0 in
   let selected := csb =? 0 in
   (if selected && negb was_selected then modify select
    else if was_selected && negb selected then modify deselect
    else if selected then
      if (_last_sck s =? 0) && negb (sck =? 0) then modify (sample mosi)
      else if negb (_last_sck s =? 0) && (sck =? 0) then modify present
      else mret ()
    else mret ()) ;;
   modify (remember_pins sck csb)) s.

(** ** A whole transfer *)

(** The bits of a byte, most significant first. *)
Definition msb_bits (b : Z) : list Z := (λ i, (b ≫ (7 - i)) &&& 1) <$> seqZ 0 8.

(** One clock cycle with [mosi] on the line; the value the host samples. *)
Definition cycle (mosi : Z) (s : SpiPeer) : SpiPeer * Z :=
  ((observe 0 0 mosi (observe 1 0 mosi s).2).2, _miso s).

Fixpoint cycles (l : list Z) (s : SpiPeer) : SpiPeer * list Z :=
  match l with
  | [] => (s, [])
  | m :: l =>
      let '(s1, seen) := cycle m s in
      let '(s2, rest) := cycles l s1 in
      (s2, seen :: rest)
  end.

(** Select, clock every bit of the bytes, deselect. *)
Definition transfer (bytes : list Z) (s : SpiPeer) : SpiPeer * list Z :=
  let '(s1, seen) := cycles (bytes ≫= msb_bits) (observe 0 0 0 s).2 in
  ((observe 0 1 0 s1).2, seen).

(** The byte the peer shifts out at a payload position: zero past the end. *)
Definition payload_at (s : SpiPeer) (index : Z) : Z :=
  if Z.of_nat (length (_payload s)) <=? index then 0 else nth (Z.to_nat index) (_payload s) 0.

Lemma payload_bit_at s index bit : payload_bit (_payload s) index bit = (payload_at s index ≫ (7 - bit)) &&& 1.
Proof. unfold payload_bit, payload_at. case_match; [|done]. by rewrite Z.shiftr_0_l. Qed.

Definition is_bit (m : Z) : Prop := m = 0 ∨ m = 1.
Lemma bit_in_list m : is_bit m → in_list m [0; 1] = true.
Proof. by intros [->| ->]. Qed.
Lemma land_1_bit x : is_bit (x &&& 1).
Proof.
  unfold is_bit. change (x &&& 1) with (x &&& Z.ones 1). rewrite !Z.land_ones by lia.
  pose proof (Z.mod_pos_bound x 2). change (2 ^ 1) with 2. lia.
Qed.

(** The peer in the middle of a frame, the clock low. *)
Definition ready (payload : list Z) (index bit rx : Z) (frame : list Z) (frames : list (list Z))
    (samples incomplete : Z) : SpiPeer :=
  mkSpi payload index 0 0 (payload_bit payload index bit) rx bit frame frames samples incomplete.

Lemma cycle_ready payload index bit rx frame frames samples inc m :
  is_bit m → 0 ≤ bit < 8 →
  cycle m (ready payload index bit rx frame frames samples inc) =
  (if bit =? 7 then ready payload (index + 1) 0 0 (frame ++ [(rx ≪ 1) ||| m]) frames (samples + 1) inc
   else ready payload index (bit + 1) ((rx ≪ 1) ||| m) frame frames (samples + 1) inc,
   payload_bit payload index bit).
Proof.
  intros Hm Hb. unfold cycle, observe, check, reads, modify, mbind, M_bind.
  rewrite (bit_in_list m Hm). cbn. unfold sample. cbn.
  destruct (Z.eqb_spec bit 7) as [->|]; cbn; [done|]. by replace (bit + 1 =? 8) with false by lia.
Qed.

(** The eight sampled bits of a byte give the byte back. *)
Lemma rx_of_bits b : is_byte b → foldl (λ rx m, (rx ≪ 1) ||| m) 0 (msb_bits b) = b.
Proof.
  intros Hb. assert (Hall : Forall (λ b, foldl (λ rx m, (rx ≪ 1) ||| m) 0 (msb_bits b) = b) (seqZ 0 256)).
  { apply (bool_decide_unpack _). vm_compute. exact I. }
  rewrite Forall_forall in Hall. apply Hall, elem_of_seqZ. unfold is_byte in Hb. lia.
Qed.

Lemma cycle_byte payload index b frame frames samples inc :
  is_byte b →
  cycles (msb_bits b) (ready payload index 0 0 frame frames samples inc) =
  (ready payload (index + 1) 0 0 (frame ++ [b]) frames (samples + 8) inc,
   (λ i, payload_bit payload index i) <$> seqZ 0 8).
Proof.
  intros Hb. pose proof (rx_of_bits b Hb) as Hrx. revert Hrx. unfold msb_bits.
  change (seqZ 0 8) with [0; 1; 2; 3; 4; 5; 6; 7]. cbn [fmap list_fmap foldl cycles]. intros Hrx.
  do 8 (rewrite cycle_ready by (lia || apply land_1_bit); cbn [Z.eqb Pos.eqb];
    change (0 + 1) with 1; change (1 + 1) with 2; change (2 + 1) with 3; change (3 + 1) with 4;
    change (4 + 1) with 5; change (5 + 1) with 6; change (6 + 1) with 7).
  by rewrite Hrx, <- !Z.add_assoc.
Qed.

Lemma msb_payload payload index :
  (λ i, payload_bit payload index i) <$> seqZ 0 8 =
  msb_bits (if Z.of_nat (length payload) <=? index then 0 else nth (Z.to_nat index) payload 0).
Proof.
  unfold msb_bits, payload_bit. case_match; [|done]. apply list_fmap_ext. intros i x _.
  by rewrite Z.shiftr_0_l.
Qed.

Lemma cycles_app l1 l2 s :
  cycles (l1 ++ l2) s =
  let '(s1, seen1) := cycles l1 s in let '(s2, seen2) := cycles l2 s1 in (s2, seen1 ++ seen2).
Proof.
  revert s. induction l1 as [|m l1 IH]; intros s; cbn [cycles app].
  { by destruct (cycles l2 s). }
  destruct (cycle m s) as [s1 v]. rewrite IH. destruct (cycles l1 s1) as [s2 seen].
  by destruct (cycles l2 s2).
Qed.

Lemma cycles_bytes bytes payload index frame frames samples inc :
  Forall is_byte bytes →
  cycles (bytes ≫= msb_bits) (ready payload index 0 0 frame frames samples inc) =
  (ready payload (index + Z.of_nat (length bytes)) 0 0 (frame ++ bytes) frames
     (samples + 8 * Z.of_nat (length bytes)) inc,
   seqZ index (Z.of_nat (length bytes)) ≫= λ i, (λ k, payload_bit payload i k) <$> seqZ 0 8).
Proof.
  intros Hb. revert index frame samples. induction Hb as [|b bytes Hb _ IH]; intros index frame samples.
  { cbn. rewrite !Z.add_0_r, app_nil_r. done. }
  cbn [mbind list_bind]. rewrite cycles_app, cycle_byte, IH by done. cbn [length].
  rewrite <- (assoc_L (++)). rewrite Nat2Z.inj_succ.
  rewrite (seqZ_cons index) by lia. cbn [mbind list_bind]. f_equal; [|by rewrite Z.pred_succ].
  f_equal; lia.
Qed.

(** C31.  A transfer exchanges bytes.  For any peer that is not selected and any
    bytes, selecting it, clocking every bit most significant first and
    deselecting it lets the host sample the next payload bytes, most
    significant bit first and zero past the end of the payload; records exactly
    the sent bytes as one completed frame; consumes one payload byte per byte;
    and leaves the peer ready for the next selection. *)
Theorem transfer_exchanges_bytes bytes s :
  Forall is_byte bytes → _last_csb s = 1 →
  let n := Z.of_nat (length bytes) in
  let '(s', seen) := transfer bytes s in
  seen = (seqZ (_payload_index s) n ≫= λ i, msb_bits (payload_at s i)) ∧
  _completed_frames s' =
    _completed_frames s ++ (if bool_decide (bytes = []) then [] else [bytes]) ∧
  _payload_index s' = _payload_index s + n ∧ _payload s' = _payload s ∧
  sample_count s' = sample_count s + 8 * n ∧
  incomplete_frame_count s' = incomplete_frame_count s ∧ _last_csb s' = 1 ∧ sd_i s' = 0.
Proof.
  intros Hb Hcsb n. unfold transfer.
  assert (Hsel : (observe 0 0 0 s).2 = ready (_payload s) (_payload_index s) 0 0 []
    (_completed_frames s) (sample_count s) (incomplete_frame_count s)).
  { unfold observe, check, reads, modify, mbind, M_bind. cbn. by rewrite Hcsb. }
  assert (Hdes : ∀ s0, _last_csb s0 = 0 → (observe 0 1 0 s0).2 = remember_pins 0 1 (deselect s0)).
  { intros s0 H0. unfold observe, check, reads, modify, mbind, M_bind. cbn. by rewrite H0. }
  rewrite Hsel, cycles_bytes, Hdes by done. split_and!; try done.
  - apply list_bind_ext; [|done]. intros i. apply msb_payload.
  - cbn. case_bool_decide; [by rewrite app_nil_r|done].
Qed.

(** ** The PULP mode-0 peer *)

Definition Pins : Type := gmap string Z.

Record SpiEvent := mkSpiEvent {
  spi_event_bit : Z;
  spi_event_tick : Z;
  spi_event_phase : string;
  spi_event_level : Z }.

Record PulpSpiMode0Peer := mkPulp {
  chip_select : Z;
  _peer : SpiPeer;
  _last_position : Z * Z;
  _last_selected : bool;
  _selected_has_edge : bool;
  pulp_last_sck : Z;
  _last_mode : Z;
  _event_levels : Z;
  spi_events : list SpiEvent }.

(** [PulpSpiMode0Peer.reset_case] *)
Definition pulp_reset_case (payload : option (list Z)) (p : PulpSpiMode0Peer) : PulpSpiMode0Peer :=
  mkPulp (chip_select p) (reset_case payload (_peer p)) (0, 1) false false 0 0 0 [].

(** [PulpSpiMode0Peer.__init__] *)
Definition new_pulp (payload : list Z) (chip_select : Z) : result PulpSpiMode0Peer :=
  raise_if ((chip_select <? 0) || (3 <? chip_select)) (ValueError "invalid PULP SPI chip select") ;;
  peer ← new_spi payload 0 0;
  mret (pulp_reset_case None (mkPulp chip_select peer (0, 1) false false 0 0 0 [])).

(** [PulpSpiMode0Peer.queue_payload] *)
Definition pulp_queue_payload (payload : list Z) (p : PulpSpiMode0Peer) : PulpSpiMode0Peer :=
  mkPulp (chip_select p) (queue_payload payload (_peer p)) (_last_position p) (_last_selected p)
    (_selected_has_edge p) (pulp_last_sck p) (_last_mode p) (_event_levels p) (spi_events p).

(** [drive_inputs] *)
Definition drive_inputs (p : PulpSpiMode0Peer) : Pins :=
  list_to_map [("spi_sdi0", 0); ("spi_sdi1", if _last_mode p =? 0 then _miso (_peer p) else 0);
               ("spi_sdi2", 0); ("spi_sdi3", 0)].

Definition phase_index (phase : string) : option Z :=
  if bool_decide (phase = "pre") then Some 0
  else if bool_decide (phase = "post") then Some 1 else None.

(** The required pins.  A Python set has no fixed iteration order: when several
    pins are out of range, which of them the message names is not determined;
    here it is the first of this list. *)
Definition required : list string :=
  ["spi_clk"; "spi_csn0"; "spi_csn1"; "spi_csn2"; "spi_csn3"; "spi_mode"; "spi_sdo0"; "events_o"].

Definition pin (pins : Pins) (name : string) : Z := default 0 (pins !! name).
Definition csn_name (i : Z) : string := "spi_csn" +:+ pretty i.

Definition check_pin (pins : Pins) (name : string) : result () :=
  let maximum := if has name ["spi_mode"; "events_o"] then 3 else 1 in
  raise_if ((pin pins name <? 0) || (maximum <? pin pins name))
    (ValueError ("invalid PULP SPI pin observation: " +:+ name)).

(** The loop over the two event bits. *)
Definition changed_bits (old levels tick : Z) (phase : string) : list SpiEvent :=
  omap (λ bit, if Z.lxor levels old &&& (1 ≪ bit) =? 0 then None
               else Some (mkSpiEvent bit tick phase ((levels ≫ bit) &&& 1))) [0; 1].

Definition position_le (a b : Z * Z) : bool := (a.1 <? b.1) || ((a.1 =? b.1) && (a.2 <=? b.2)).

(** [PulpSpiMode0Peer.observe] *)
Definition pulp_observe (pins : Pins) (tick : Z) (phase : string) : M PulpSpiMode0Peer () := λ p,
  (position ← reads (λ _, match phase_index phase with
     | Some i =>
         raise_if ((tick <? 1) || position_le (tick, i) (_last_position p))
           (ValueError "invalid PULP SPI receipt position") ;;
         mret (tick, i)
     | None => Err (ValueError "invalid PULP SPI receipt position")
     end);
   check (existsb (λ n, bool_decide (pins !! n = None)) required)
     (ValueError "missing PULP SPI pin observation") ;;
   reads (λ _, for_each (check_pin pins) required) ;;
   let selected_cs := filter (λ i, pin pins (csn_name i) = 0) [0; 1; 2; 3] in
   check (negb (bool_decide (selected_cs = [])) && negb (bool_decide (selected_cs = [chip_select p])))
     (ValueError "unsupported PULP SPI chip selection") ;;
   let selected := negb (bool_decide (selected_cs = [])) in
   let clk := pin pins "spi_clk" in
   let mode := pin pins "spi_mode" in
   let edge := selected && _last_selected p && negb (clk =? pulp_last_sck p) in
   let setup_transient := (mode =? 2) && (clk =? 0) && negb (_selected_has_edge p) && negb edge in
   check (selected && negb (mode =? 0) && negb setup_transient)
     (ValueError "PULP SPI peer supports selected single-line mode only") ;;
   check (selected && negb (_last_selected p) && negb (clk =? 0))
     (ValueError "PULP SPI selection requires idle-low SCK setup") ;;
   (λ p, let '(out, peer) := observe clk (if selected then 0 else 1) (pin pins "spi_sdo0") (_peer p) in
         (out, mkPulp (chip_select p) peer (_last_position p) (_last_selected p)
                 (_selected_has_edge p) (pulp_last_sck p) (_last_mode p) (_event_levels p)
                 (spi_events p))) ;;
   let levels := pin pins "events_o" in
   modify (λ p, mkPulp (chip_select p) (_peer p) position selected
     (if selected then _selected_has_edge p || edge else false) clk mode levels
     (spi_events p ++ changed_bits (_event_levels p) levels tick phase))) p.

(** *** What the checks establish *)

Definition selected_by (pins : Pins) : list Z := filter (λ i, pin pins (csn_name i) = 0) [0; 1; 2; 3].

Lemma check_pins_bit pins name :
  for_each (check_pin pins) required = Ok () → name ∈ ["spi_clk"; "spi_sdo0"] → is_bit (pin pins name).
Proof.
  intros Hall Hin. apply for_each_Ok in Hall. rewrite Forall_forall in Hall.
  assert (Hreq : name ∈ required) by (unfold required; set_solver).
  apply Hall in Hreq. unfold check_pin in Hreq.
  replace (has name ["spi_mode"; "events_o"]) with false in Hreq.
  - apply raise_if_Ok, orb_false_iff in Hreq as [? ?]. unfold is_bit. lia.
  - repeat (apply elem_of_cons in Hin as [->|Hin]; [reflexivity|]). by apply not_elem_of_nil in Hin.
Qed.

Lemma observe_binary sck csb mosi s :
  is_bit sck → is_bit csb → is_bit mosi → (observe sck csb mosi s).1 = Ok ().
Proof.
  intros H1 H2 H3. unfold observe, check, reads, modify, mbind, M_bind, mret, M_ret.
  rewrite !bit_in_list by done. cbn. by repeat case_match; simplify_eq.
Qed.

Lemma pulp_observe_cases pins tick phase p out p' :
  pulp_observe pins tick phase p = (out, p') →
  match out with
  | Err _ => p' = p
  | Ok _ =>
      ∃ i, phase_index phase = Some i ∧ _last_position p' = (tick, i) ∧
        position_le (_last_position p') (_last_position p) = false ∧
        (selected_by pins = [] ∨ selected_by pins = [chip_select p]) ∧
        observe (pin pins "spi_clk") (if bool_decide (selected_by pins = []) then 1 else 0)
          (pin pins "spi_sdo0") (_peer p) = (Ok (), _peer p') ∧
        spi_events p' = spi_events p ++ changed_bits (_event_levels p) (_event_levels p') tick phase ∧
        _event_levels p' = pin pins "events_o" ∧ 0 ≤ _event_levels p' < 4
  end.
Proof.
  intros H. unfold pulp_observe in H. fold (selected_by pins) in H. revert H.
  unfold check, reads, modify, mbind, M_bind, result_bind, mret, result_ret.
  destruct (phase_index phase) as [i|]; [|by intros [= <- <-]].
  destruct (raise_if _ _) as [[]|] eqn:Hpos; [|by intros [= <- <-]]. apply raise_if_Ok, orb_false_iff in Hpos as [_ Hpos].
  destruct (raise_if _ _) as [[]|] eqn:Hreq; [|by intros [= <- <-]].
  destruct (for_each _ _) as [[]|] eqn:Hpins; [|by intros [= <- <-]].
  case_raise Hsel; [|by intros [= <- <-]].
  case_raise Hmode; [|by intros [= <- <-]].
  case_raise Hclk; [|by intros [= <- <-]].
  replace (if negb (bool_decide (selected_by pins = [])) then 0 else 1)
    with (if bool_decide (selected_by pins = []) then 1 else 0) by (by case_bool_decide).
  set (csb := if bool_decide _ then 1 else 0).
  pose proof (observe_binary (pin pins "spi_clk") csb (pin pins "spi_sdo0") (_peer p)) as Hobs.
  destruct (observe _ csb _ _) as [o peer]. cbn in Hobs. rewrite Hobs.
  2: { eapply check_pins_bit; [done|set_solver]. }
  2: { unfold csb. case_bool_decide; [by right|by left]. }
  2: { eapply check_pins_bit; [done|set_solver]. }
  assert (Hev : 0 ≤ pin pins "events_o" < 4).
  { apply for_each_Ok in Hpins. rewrite Forall_forall in Hpins.
    specialize (Hpins "events_o" ltac:(unfold required; set_solver)). unfold check_pin in Hpins.
    change (has "events_o" _) with true in Hpins. apply raise_if_Ok, orb_false_iff in Hpins as [? ?]. lia. }
  intros [= <- <-]. exists i. cbn. split_and!; try done; [|lia|lia].
  apply raise_if_Ok, andb_false_iff in Hsel as [Hs|Hs];
    apply negb_false_iff, bool_decide_eq_true in Hs; auto.
Qed.

(** The PULP peer is the mode-0 peer behind checks.  A snapshot it refuses
    changes nothing, not even the position.  One it accepts is at a strictly
    later position, selects no chip or exactly this one, is one observation of
    the inner peer with the snapshot's clock and data and that selection, and
    appends exactly the changed event bits. *)
Lemma pulp_observation_is_one_spi_observation pins tick phase p out p' :
  pulp_observe pins tick phase p = (out, p') →
  match out with
  | Err _ => p' = p
  | Ok _ =>
      ∃ i, phase_index phase = Some i ∧ _last_position p' = (tick, i) ∧
        position_le (_last_position p') (_last_position p) = false ∧
        (selected_by pins = [] ∨ selected_by pins = [chip_select p]) ∧
        observe (pin pins "spi_clk") (if bool_decide (selected_by pins = []) then 1 else 0)
          (pin pins "spi_sdo0") (_peer p) = (Ok (), _peer p') ∧
        spi_events p' = spi_events p ++ changed_bits (_event_levels p) (_event_levels p') tick phase ∧
        _event_levels p' = pin pins "events_o"
  end.
Proof.
  intros H. pose proof (pulp_observe_cases _ _ _ _ _ _ H) as Hc. destruct out; [|done].
  destruct Hc as (i & ? & ? & ? & ? & ? & ? & ? & _). exists i. by split_and!.
Qed.

(** The levels recorded for one bit. *)
Definition bit_levels (bit : Z) (l : list SpiEvent) : list Z :=
  spi_event_level <$> filter (λ e, spi_event_bit e = bit) l.

(** The levels of a line that starts at [level] and ends at [final], each
    different from the one before. *)
Fixpoint alternates (level : Z) (l : list Z) (final : Z) : Prop :=
  match l with
  | [] => level = final
  | x :: l => x = 1 - level ∧ alternates x l final
  end.

Lemma alternates_app a l b c l' : alternates a l b → alternates b l' c → alternates a (l ++ l') c.
Proof.
  revert a. induction l as [|x l IH]; intros a; cbn; [by intros ->|].
  intros [-> H1] H2. split; [done|]. by apply IH.
Qed.

Lemma changed_bits_alternate old levels tick phase bit :
  bit = 0 ∨ bit = 1 → 0 ≤ old < 4 → 0 ≤ levels < 4 →
  alternates ((old ≫ bit) &&& 1) (bit_levels bit (changed_bits old levels tick phase)) ((levels ≫ bit) &&& 1).
Proof.
  intros Hbit Ho Hl.
  assert (old = 0 ∨ old = 1 ∨ old = 2 ∨ old = 3) as [->|[->|[->| ->]]] by lia;
  assert (levels = 0 ∨ levels = 1 ∨ levels = 2 ∨ levels = 3) as [->|[->|[->| ->]]] by lia;
  destruct Hbit as [->| ->]; vm_compute; auto.
Qed.

Definition observe_all (p : PulpSpiMode0Peer) (l : list (Pins * Z * string)) : PulpSpiMode0Peer :=
  foldl (λ p o, (pulp_observe o.1.1 o.1.2 o.2 p).2) p l.

Definition levels_ok (p : PulpSpiMode0Peer) : Prop :=
  0 ≤ _event_levels p < 4 ∧
  ∀ bit, bit = 0 ∨ bit = 1 →
    alternates 0 (bit_levels bit (spi_events p)) ((_event_levels p ≫ bit) &&& 1).

(** The recorded events are exactly the level changes.  From a new peer
    (or after a testcase reset), whatever snapshots are offered, the events of
    each bit of [events_o] start from a low line, each has the opposite level
    of the one before, and the last one is the present level of the line. *)
Lemma events_are_level_changes payload chip p l bit :
  new_pulp payload chip = Ok p → bit = 0 ∨ bit = 1 →
  let p' := observe_all p l in
  alternates 0 (bit_levels bit (spi_events p')) ((_event_levels p' ≫ bit) &&& 1).
Proof.
  intros Hnew Hbit. enough (Hok : levels_ok (observe_all p l)) by by apply Hok.
  assert (Hp : levels_ok p).
  { unfold new_pulp in Hnew. inv_Ok. split; [cbn; lia|]. by intros b [->| ->]. }
  clear Hnew. revert p Hp. induction l as [|[[pins tick] phase] l IH]; intros p [Hr Hp]; [done|].
  unfold observe_all. cbn [foldl fst snd]. apply IH.
  destruct (pulp_observe pins tick phase p) as [out p'] eqn:Hobs. cbn [snd].
  pose proof (pulp_observe_cases _ _ _ _ _ _ Hobs) as Hc.
  destruct out; [|by subst]. destruct Hc as (i & _ & _ & _ & _ & _ & Hev & _ & Hl).
  split; [done|]. intros b Hb. rewrite Hev. unfold bit_levels. rewrite filter_app, fmap_app.
  eapply alternates_app; [by apply Hp|]. by apply changed_bits_alternate.
Qed.

Module Example_spi.
Definition idle : SpiPeer := mkSpi [0xA5] 0 0 1 0 0 0 [] [] 0 0.

Lemma transfer_exchanges_bytes_witness :
  _completed_frames (transfer [0x3C; 0x81] idle).1 = [[0x3C; 0x81]] ∧
  (transfer [0x3C; 0x81] idle).2 = msb_bits 0xA5 ++ msb_bits 0.
Proof.
  pose proof (transfer_exchanges_bytes [0x3C; 0x81] idle) as H.
  destruct (transfer [0x3C; 0x81] idle) as [s' seen].
  destruct H as (Hseen & Hframes & _); [by repeat constructor|done|].
  split; [exact Hframes|exact Hseen].
Defined.

Definition snapshot (clk mode sdo events : Z) : Pins :=
  list_to_map [("spi_clk", clk); ("spi_csn0", 0); ("spi_csn1", 1); ("spi_csn2", 1); ("spi_csn3", 1);
               ("spi_mode", mode); ("spi_sdo0", sdo); ("events_o", events)].
Definition pulp : PulpSpiMode0Peer :=
  mkPulp 0 (reset_case None idle) (0, 1) false false 0 0 0 [].

Definition after : PulpSpiMode0Peer := (pulp_observe (snapshot 0 2 0 3) 1 "pre" pulp).2.

Lemma pulp_observation_is_one_spi_observation_witness :
  observe 0 0 0 (_peer pulp) = (Ok (), _peer after) ∧
  position_le (_last_position after) (_last_position pulp) = false.
Proof.
  destruct (pulp_observation_is_one_spi_observation (snapshot 0 2 0 3) 1 "pre" pulp (Ok ()) after)
    as (i & _ & _ & Hpos & _ & Hobs & _).
  - vm_compute. reflexivity.
  - split; [exact Hobs|exact Hpos].
Defined.

Lemma events_are_level_changes_witness :
  let p := observe_all pulp [(snapshot 0 2 0 3, 1, "pre"); (snapshot 0 0 0 1, 1, "post");
                             (snapshot 7 0 0 1, 2, "pre"); (snapshot 1 0 1 2, 2, "post")] in
  bit_levels 1 (spi_events p) = [1; 0; 1] ∧
  alternates 0 (bit_levels 1 (spi_events p)) ((_event_levels p ≫ 1) &&& 1).
Proof.
  split; [vm_compute; reflexivity|].
  apply (events_are_level_changes [0xA5] 0 pulp); [vm_compute; reflexivity|by right].
Defined.
End Example_spi.
