(* ===== verification/Dependency.v ===== *)
(** * AND/OR dependency paths

    Models [src/src/myfuzz/scenario/dependency.py]: fuzzable sources, the trusted
    bindings of their bits, dependency rules (each rule an AND of its
    prerequisites, the rules of one target alternatives), the enumeration of
    source sets that can drive a target ([paths_to]) and the check of a selected
    proof DAG ([path_identity]).  A [frozenset] of names is a [gset]; the stack
    machine of [path_identity] runs on fuel, which [dfs_fuel] bounds.

    The lazily generated [edge_paths_to] is modelled in [EdgePaths]; the parser
    [from_edge_document] is not modelled. *)

From S2P Require Import Prelude Json Isa Genome Ownership.

Local Open Scope Z_scope.

Definition _RULE_KINDS : list string :=
  ["DATA_BINDING"; "EVENT_ORDER"; "ENV_PRECONDITION"; "PERSISTENT_STATE_RULE";
   "BASELINE_GROUPING"; "DMA_MASTER_TRANSFER"].

Module Source.
Record FuzzableSource := mkSource {
  source_id : string;
  component : string;
  port : string;
  bit_offset : Z;
  width : Z;
  directions : list string;
  kind : string;
  image_address : option Z }.
End Source.
Export Source (FuzzableSource, mkSource).

#[export] Instance FuzzableSource_eq_dec : EqDecision FuzzableSource.
Proof. solve_decision. Defined.

(** [FuzzableSource.__post_init__] *)
Definition FuzzableSource_post_init (s : FuzzableSource) : result FuzzableSource :=
  raise_if (negb (has (Source.kind s) ["source"; "memory_image"]))
    (ValueError "only fuzzable source nodes may be mutation sources") ;;
  (if bool_decide (Source.kind s = "memory_image") then
     match Source.image_address s with
     | Some a => raise_if (a <? 0) (ValueError "memory image source address is invalid")
     | None => mret ()
     end
   else raise_if (bool_decide (is_Some (Source.image_address s)))
          (ValueError "physical input source cannot name an image address")) ;;
  raise_if (empty (Source.source_id s) || empty (Source.component s) || empty (Source.port s))
    (ValueError "source identity is required") ;;
  raise_if ((Source.bit_offset s <? 0) || (Source.width s <? 1)) (ValueError "source bit range is invalid") ;;
  raise_if (bool_decide (Source.directions s = [])
            || existsb (λ d, negb (has d DIRECTIONS)) (Source.directions s))
    (ValueError "source direction is invalid") ;;
  mret s.

Module Binding.
Record SourceBinding := mkBinding {
  source_id : string;
  kind : string;
  component : string;
  port : string;
  bit_offset : Z;
  width : Z;
  owner_ref : string;
  image_address : option Z }.
End Binding.
Export Binding (SourceBinding, mkBinding).

(** [SourceBinding.__post_init__] *)
Definition SourceBinding_post_init (b : SourceBinding) : result SourceBinding :=
  raise_if (empty (Binding.source_id b) || empty (Binding.component b) || empty (Binding.port b)
            || empty (Binding.owner_ref b)) (ValueError "source binding identity is required") ;;
  raise_if (negb (has (Binding.kind b) ["source"; "memory_image"]))
    (ValueError "source binding kind is invalid") ;;
  raise_if ((Binding.bit_offset b <? 0) || (Binding.width b <? 1))
    (ValueError "source binding range is invalid") ;;
  (if bool_decide (Binding.kind b = "memory_image") then
     raise_if (match Binding.image_address b with Some a => a <? 0 | None => true end)
       (ValueError "memory image binding address is required")
   else raise_if (bool_decide (is_Some (Binding.image_address b)))
          (ValueError "input source binding cannot name image address")) ;;
  mret b.

(** [SourceBindings.__post_init__] *)
Definition SourceBindings_post_init (entries : list SourceBinding) : result (list SourceBinding) :=
  raise_if (negb (unique (Binding.source_id <$> entries))) (ValueError "duplicate source binding") ;;
  mret entries.

Module Rule.
Record DependencyRule := mkRule {
  target : string;
  prerequisites : list string;
  kind : string }.
End Rule.
Export Rule (DependencyRule, mkRule).

#[export] Instance DependencyRule_eq_dec : EqDecision DependencyRule.
Proof. solve_decision. Defined.

(** [DependencyRule.__post_init__] *)
Definition DependencyRule_post_init (r : DependencyRule) : result DependencyRule :=
  raise_if (empty (Rule.target r) || bool_decide (Rule.prerequisites r = [])
            || existsb empty (Rule.prerequisites r))
    (ValueError "dependency rule needs a target and prerequisites") ;;
  raise_if (negb (has (Rule.kind r) _RULE_KINDS)) (ValueError "unknown dependency rule kind") ;;
  mret r.

Module Edge.
Record DependencyEdge := mkEdge {
  rule_index : Z;
  prerequisite_index : Z;
  prerequisite : string;
  target : string;
  kind : string }.
End Edge.
Export Edge (DependencyEdge, mkEdge).

#[export] Instance DependencyEdge_eq_dec : EqDecision DependencyEdge.
Proof. solve_decision. Defined.

(** [DependencyEdge.__post_init__] *)
Definition DependencyEdge_post_init (e : DependencyEdge) : result DependencyEdge :=
  raise_if ((Edge.rule_index e <? 0) || (Edge.prerequisite_index e <? 0) || empty (Edge.prerequisite e)
            || empty (Edge.target e) || negb (has (Edge.kind e) _RULE_KINDS))
    (ValueError "invalid dependency edge") ;;
  mret e.

(** [DependencyEdge.document] *)
Definition edge_json (e : DependencyEdge) : json :=
  JObj [("rule_index", JInt (Edge.rule_index e)); ("prerequisite_index", JInt (Edge.prerequisite_index e));
        ("prerequisite", JStr (Edge.prerequisite e)); ("target", JStr (Edge.target e));
        ("kind", JStr (Edge.kind e))].

Module Path.
Record DependencyPath := mkPath {
  target : string;
  source_ids : list string;
  edges : list DependencyEdge }.
End Path.
Export Path (DependencyPath, mkPath).

#[export] Instance DependencyPath_eq_dec : EqDecision DependencyPath.
Proof. solve_decision. Defined.

(** ** The graph *)

Record DependencyGraph := mkGraph {
  sources : list (string * FuzzableSource);
  rules : list (string * list DependencyRule);
  _ordered_rules : list DependencyRule;
  _indexed_rules : list (string * list nat) }.

(** [d.setdefault(key, []).append(value)] *)
Definition append_to {A} (d : list (string * list A)) (key : string) (value : A) : list (string * list A) :=
  od_set d key (default [] (od_get d key) ++ [value]).

Definition group_rules (rules : list DependencyRule) : list (string * list DependencyRule) :=
  foldl (λ d r, append_to d (Rule.target r) r) [] rules.

Definition source_dict (sources : list FuzzableSource) : list (string * FuzzableSource) :=
  foldl (λ d s, od_set d (Source.source_id s) s) [] sources.

(** [DependencyGraph.__init__] *)
Definition new_graph (sources : list FuzzableSource) (rules : list DependencyRule) : result DependencyGraph :=
  raise_if (negb (bool_decide (length (source_dict sources) = length sources)))
    (ValueError "duplicate source id") ;;
  mret (mkGraph (source_dict sources) (group_rules rules) rules
    (foldl (λ d ir, append_to d (Rule.target ir.2) ir.1) [] (imap pair rules))).

(** Equality of dictionaries does not regard their order. *)
Definition same_dict {A} `{EqDecision A} (d d' : list (string * A)) : bool :=
  bool_decide (list_to_map (M := gmap string A) d = list_to_map d').

Definition source_json (address_bound : bool) (s : FuzzableSource) : json :=
  JObj ([("source_id", JStr (Source.source_id s)); ("component", JStr (Source.component s));
         ("port", JStr (Source.port s)); ("bit_offset", JInt (Source.bit_offset s));
         ("width", JInt (Source.width s)); ("directions", JArr (JStr <$> Source.directions s));
         ("kind", JStr (Source.kind s))]
        ++ if address_bound
           then [("image_address", match Source.image_address s with Some a => JInt a | None => JNull end)]
           else []).

Definition source_identity_ok (key : string) (s : FuzzableSource) : bool :=
  bool_decide (key = Source.source_id s) && negb (empty key) && negb (empty (Source.component s))
  && negb (empty (Source.kind s)) && negb (Source.bit_offset s <? 0) && negb (Source.width s <? 1)
  && negb (bool_decide (Source.directions s = [])) && unique (Source.directions s)
  && forallb (λ d, has d DIRECTIONS) (Source.directions s).

Definition rule_edges (index : nat) (r : DependencyRule) : list DependencyEdge :=
  imap (λ child_index child,
          mkEdge (Z.of_nat index) (Z.of_nat child_index) child (Rule.target r) (Rule.kind r))
    (Rule.prerequisites r).

(** [edge_document] *)
Definition edge_document (g : DependencyGraph) : result json :=
  for_each (λ r, raise_if (empty (Rule.target r) || existsb empty (Rule.prerequisites r))
    (ValueError "invalid edge graph rule identity")) (_ordered_rules g) ;;
  raise_if (negb (same_dict (rules g) (group_rules (_ordered_rules g))))
    (ValueError "edge graph rules changed after construction") ;;
  let address_bound := existsb (λ ks, bool_decide (is_Some (Source.image_address ks.2))) (sources g) in
  for_each (λ ks, raise_if (negb (source_identity_ok ks.1 ks.2))
    (ValueError "invalid edge graph source identity")) (sources g) ;;
  mret (JObj
    [("schema_version", JStr (if address_bound then "dependency_edge_graph.v2" else "dependency_edge_graph.v1"));
     ("sources", JArr ((λ ks, source_json address_bound ks.2) <$> sources g));
     ("rules", JArr (imap (λ index r,
        JObj [("rule_index", JInt (Z.of_nat index)); ("target", JStr (Rule.target r));
              ("prerequisites", JArr (JStr <$> Rule.prerequisites r)); ("kind", JStr (Rule.kind r))])
        (_ordered_rules g)));
     ("edges", JArr (concat (imap (λ index r, edge_json <$> rule_edges index r) (_ordered_rules g))))]).

(** ** [SourceBindings.validate] *)

Section validate.
Context (g : DependencyGraph) (ownership : OwnershipMap) (genomes : list ScenarioGenome)
  (image_genomes : option (gmap string (list ScenarioGenome))).

Definition Occupied : Type := gmap (string * string * string) (list (Z * Z)).

Definition binding_matches (s : FuzzableSource) (e : SourceBinding) : bool :=
  bool_decide ((Binding.kind e, Binding.component e, Binding.port e, Binding.bit_offset e, Binding.width e)
    = (Source.kind s, Source.component s, Source.port s, Source.bit_offset s, Source.width s))
  && (bool_decide (Source.image_address s = None)
      || bool_decide (Binding.image_address e = Source.image_address s)).

Definition check_image (s : FuzzableSource) (e : SourceBinding) (genome : ScenarioGenome) : result () :=
  match filter (λ i, image_component i = Source.component s ∧ image_id i = Source.port s)
          (initial_images genome) with
  | [image] =>
      raise_if (negb (bool_decide (Some (address image) = Binding.image_address e)))
        (ValueError "memory image binding address differs") ;;
      raise_if (Z.of_nat (length (image_data image)) * 8 <? Source.bit_offset s + Source.width s)
        (ValueError "memory image binding exceeds initial image")
  | _ => Err (ValueError "memory image binding requires unique initial image")
  end.

(** The owner of one binding. *)
Definition check_owner (source_id : string) (s : FuzzableSource) (e : SourceBinding) : result () :=
  if bool_decide (Source.kind s = "source") then
    actual ← mutation_source (Source.component s) (Source.port s) (Source.bit_offset s) (Source.width s)
               (default EmptyString (head (Source.directions s))) ownership;
    raise_if (negb (bool_decide (actual = Binding.owner_ref e)))
      (ValueError "source binding owner does not match input owner")
  else
    raise_if (negb (bool_decide (Binding.owner_ref e =
                "initial_image:" +:+ Source.component s +:+ ":" +:+ Source.port s)))
      (ValueError "memory image binding owner is invalid") ;;
    let relevant := match image_genomes with
                    | None => genomes
                    | Some m => default genomes (m !! source_id)
                    end in
    raise_if (bool_decide (relevant = [])) (ValueError "memory image binding has no initial image") ;;
    for_each (check_image s e) relevant.

Definition source_key (s : FuzzableSource) : string * string * string :=
  (Source.kind s, Source.component s, Source.port s).

(** One turn of the loop over the graph's sources. *)
Definition validate_source (entries : list SourceBinding) (occupied : Occupied)
    (ks : string * FuzzableSource) : result Occupied :=
  let '(source_id, s) := ks in
  match find (λ e, bool_decide (Binding.source_id e = source_id)) entries with
  | None => Err (KeyError source_id)
  | Some e =>
      raise_if (negb (binding_matches s e)) (ValueError "graph source disagrees with trusted binding") ;;
      raise_if (8192 <? Source.width s) (ValueError "source binding width exceeds decoder bound") ;;
      check_owner source_id s e ;;
      let start := Source.bit_offset s in
      let stop := Source.bit_offset s + Source.width s in
      let taken := default [] (occupied !! source_key s) in
      raise_if (existsb (λ i, (start <? i.2) && (i.1 <? stop)) taken)
        (ValueError "multiple graph source bindings own one bit") ;;
      mret (<[source_key s := taken ++ [(start, stop)]]> occupied)
  end.

(** [validate]; the entries have distinct source ids. *)
Definition validate (entries : list SourceBinding) : result () :=
  raise_if (negb (bool_decide (list_to_set (C := gset string) (Binding.source_id <$> entries)
                               = list_to_set (od_keys (sources g)))))
    (ValueError "graph source lacks trusted binding") ;;
  fold_result (validate_source entries) ∅ (sources g) ;;
  mret ().
End validate.

(** ** [paths_to] *)

(** [tuple(sorted(names))] *)
Definition sorted_names (names : gset string) : list string := merge_sort String.le (elements names).

Fixpoint names_leb (a b : list string) : bool :=
  match a, b with
  | [], _ => true
  | _ :: _, [] => false
  | x :: a, y :: b => if bool_decide (x = y) then names_leb a b else String.leb x y
  end.

(** The sort key [(len(item), tuple(sorted(item)))]. *)
Definition set_le (a b : gset string) : Prop :=
  ((size a <? size b)%nat || (size a =? size b)%nat && names_leb (sorted_names a) (sorted_names b)) = true.
#[export] Instance set_le_dec : RelDecision set_le.
Proof. intros a b. unfold set_le. solve_decision. Defined.

(** [itertools.product] *)
Fixpoint product {A} (choices : list (list A)) : list (list A) :=
  match choices with
  | [] => [[]]
  | l :: choices => x ← l; rest ← product choices; [x :: rest]
  end.

(** The loop over the combinations of one rule; it stops, after an addition,
    at the cap. *)
Fixpoint add_until (cap : Z) (alternatives : list (gset string)) (combinations : list (list (gset string)))
    : list (gset string) :=
  match combinations with
  | [] => alternatives
  | c :: combinations =>
      let alternatives := alternatives ++ [⋃ c] in
      if cap <=? Z.of_nat (length alternatives) then alternatives
      else add_until cap alternatives combinations
  end.

Section paths.
Context (g : DependencyGraph) (direction : string).

Definition rules_of (node : string) : list DependencyRule := default [] (od_get (rules g) node).
Definition usable (s : FuzzableSource) : bool := has direction (Source.directions s).

(** [expand]; the fuel is [max_depth - depth]. *)
Fixpoint expand (cap : Z) (fuel : nat) (node : string) (seen : gset string) : list (gset string) :=
  match od_get (sources g) node with
  | Some s => if usable s then [{[node]}] else []
  | None =>
      match fuel with
      | O => []
      | S fuel =>
          if bool_decide (node ∈ seen) then [] else
          foldl (λ alternatives rule,
            let choices := (λ child, expand cap fuel child ({[node]} ∪ seen)) <$> Rule.prerequisites rule in
            if existsb (λ c, bool_decide (c = [])) choices then alternatives
            else add_until cap alternatives (product choices)) [] (rules_of node)
      end
  end.

(** [paths_to] *)
Definition paths_to (target : string) (max_depth max_paths : Z) : result (list DependencyPath) :=
  raise_if (negb (has direction DIRECTIONS) || empty target || (max_depth <? 1) || (max_paths <? 1))
    (ValueError "invalid dependency path request") ;;
  let sets := merge_sort set_le
    (remove_dups (expand (max_paths * 4) (Z.to_nat max_depth) target ∅)) in
  mret ((λ item, mkPath target (sorted_names item) []) <$> take (Z.to_nat max_paths) sets).
End paths.

(** ** [path_identity] *)

Section identity.
Context `{Hashlib} (g : DependencyGraph) (direction : string).

Definition edge_key (e : DependencyEdge) : Z * Z := (Edge.rule_index e, Edge.prerequisite_index e).
Definition edge_lt (a b : DependencyEdge) : Prop :=
  Edge.rule_index a < Edge.rule_index b ∨
  Edge.rule_index a = Edge.rule_index b ∧ Edge.prerequisite_index a < Edge.prerequisite_index b.
#[export] Instance edge_lt_dec : RelDecision edge_lt.
Proof. intros a b. unfold edge_lt. solve_decision. Defined.

(** [path.edges == tuple(sorted(set(path.edges), key=...))]: strictly
    increasing keys.  Of two different edges with one key, at least one differs
    from the graph and is refused below. *)
Fixpoint canonical (edges : list DependencyEdge) : bool :=
  match edges with
  | a :: (b :: _) as rest => bool_decide (edge_lt a b) && canonical rest
  | _ => true
  end.

(** [selected] and [by_key] *)
Record Selection := mkSelection {
  selected : gmap string Z;
  by_key : gmap (Z * Z) DependencyEdge }.

Definition select_edge (sel : Selection) (e : DependencyEdge) : result Selection :=
  match _ordered_rules g !! Z.to_nat (Edge.rule_index e) with
  | None => Err (ValueError "dependency edge rule not in graph")
  | Some rule =>
      raise_if (negb (bool_decide
        (rule_edges (Z.to_nat (Edge.rule_index e)) rule !! Z.to_nat (Edge.prerequisite_index e) = Some e)))
        (ValueError "dependency edge differs from graph") ;;
      let previous := default (Edge.rule_index e) (selected sel !! Edge.target e) in
      raise_if (negb (previous =? Edge.rule_index e))
        (ValueError "dependency path has inconsistent OR selections") ;;
      mret (mkSelection (<[Edge.target e := previous]> (selected sel)) (<[edge_key e := e]> (by_key sel)))
  end.

(** The walk; the head of [stack] is its top. *)
Record Walk := mkWalk {
  stack : list (string * bool);
  visited : gset string;
  active : gset string;
  used : gset (Z * Z);
  leaves : gset string }.

(** The prerequisites of the node's selected rule, each with its edge. *)
Definition used_edges (sel : Selection) (index : Z) (prerequisites : list string) : result (list (Z * Z)) :=
  foldr (λ ic acc,
    acc ← acc;
    match by_key sel !! (index, Z.of_nat ic.1) with
    | None => Err (ValueError "dependency path omits AND prerequisite edge")
    | Some e => mret (edge_key e :: acc)
    end) (mret []) (imap pair prerequisites).

(** One turn of the loop, on a stack that is not empty. *)
Definition walk_step (sel : Selection) (node : string) (exiting : bool) (rest : list (string * bool))
    (w : Walk) : result Walk :=
  if exiting : bool then
    mret (mkWalk rest ({[node]} ∪ visited w) (active w ∖ {[node]}) (used w) (leaves w))
  else if bool_decide (node ∈ active w) then Err (ValueError "dependency selected path contains cycle")
  else if bool_decide (node ∈ visited w) then
    mret (mkWalk rest (visited w) (active w) (used w) (leaves w))
  else
    match od_get (sources g) node with
    | Some s =>
        raise_if (negb (usable direction s)) (ValueError "dependency source direction differs") ;;
        mret (mkWalk rest ({[node]} ∪ visited w) (active w) (used w) ({[node]} ∪ leaves w))
    | None =>
        match selected sel !! node with
        | None => Err (ValueError "dependency path has unresolved prerequisite")
        | Some index =>
            match _ordered_rules g !! Z.to_nat index with
            | None => Err (IndexError "tuple index out of range")
            | Some rule =>
                keys ← used_edges sel index (Rule.prerequisites rule);
                mret (mkWalk (((λ child, (child, false)) <$> Rule.prerequisites rule) ++ (node, true) :: rest)
                  (visited w) ({[node]} ∪ active w) (list_to_set keys ∪ used w) (leaves w))
            end
        end
    end.

Fixpoint walk (sel : Selection) (fuel : nat) (w : Walk) : option (result Walk) :=
  match stack w with
  | [] => Some (Ok w)
  | (node, exiting) :: rest =>
      match fuel with
      | O => None
      | S fuel =>
          match walk_step sel node exiting rest w with
          | Ok w => walk sel fuel w
          | Err e => Some (Err e)
          end
      end
  end.

(** Every rule is expanded at most once: two turns and one per prerequisite. *)
Definition dfs_fuel : nat :=
  1 + sum_list_with (λ r, 1 + length (Rule.prerequisites r))%nat (_ordered_rules g).

Definition path_shape_ok (p : DependencyPath) : bool :=
  negb (empty (Path.target p)) && has direction DIRECTIONS
  && negb (bool_decide (Path.source_ids p = [])) && forallb (λ s, negb (empty s)) (Path.source_ids p)
  && bool_decide (Path.source_ids p = sorted_names (list_to_set (Path.source_ids p))).

(** [path_identity]; [None] if the fuel were not enough. *)
Definition path_identity (p : DependencyPath) : option (result string) :=
  match edge_document g with
  | Err e => Some (Err e)
  | Ok document =>
      if negb (path_shape_ok p) then Some (Err (ValueError "invalid dependency edge path identity"))
      else if negb (canonical (Path.edges p))
      then Some (Err (ValueError "dependency edge path is not canonical"))
      else
        match fold_result select_edge (mkSelection ∅ ∅) (Path.edges p) with
        | Err e => Some (Err e)
        | Ok sel =>
            match walk sel dfs_fuel (mkWalk [(Path.target p, false)] ∅ ∅ ∅ ∅) with
            | None => None
            | Some (Err e) => Some (Err e)
            | Some (Ok w) =>
                if negb (bool_decide (used w = list_to_set (edge_key <$> Path.edges p)))
                   || negb (bool_decide (sorted_names (leaves w) = Path.source_ids p))
                then Some (Err (ValueError "dependency path has disconnected edge or incorrect sources"))
                else Some (Ok (hexdigest (dumps (JObj
                  [("schema_version", JStr "dependency_edge_path_identity.v1"); ("graph", document);
                   ("target", JStr (Path.target p)); ("direction", JStr direction);
                   ("source_ids", JArr (JStr <$> Path.source_ids p));
                   ("edges", JArr (edge_json <$> Path.edges p))]))))
            end
        end
  end.
End identity.
