(* ===== verification/DependencySpec.v ===== *)
(** * What the dependency paths mean

    Theorems about [Dependency]: the walk of [path_identity] ends within its
    fuel and accepts exactly the acyclic AND/OR proofs; [paths_to] returns sets
    of sources each of which suffices for the target, and returns none exactly
    when no rule tree within the depth bound reaches the target. *)

From S2P Require Import Prelude Json Isa Genome Ownership Dependency.

Local Open Scope Z_scope.

Section identity.
Context `{Hashlib} (g : DependencyGraph) (direction : string).
Implicit Types (e : DependencyEdge) (p : DependencyPath) (w : Walk) (n c : string).

(** ** Proofs *)

Definition is_source n : Prop := is_Some (od_get (sources g) n).

(** The edge is one of the graph's. *)
Definition graph_edge e : Prop :=
  ∃ idx rule, _ordered_rules g !! idx = Some rule ∧ e ∈ rule_edges idx rule.

(** The path uses the rule [idx] for the node. *)
Definition selects (edges : list DependencyEdge) n idx rule : Prop :=
  _ordered_rules g !! idx = Some rule ∧ Rule.target rule = n ∧
  ∃ e, e ∈ edges ∧ e ∈ rule_edges idx rule.

Definition step (edges : list DependencyEdge) n c : Prop :=
  ¬ is_source n ∧ ∃ idx rule, selects edges n idx rule ∧ c ∈ Rule.prerequisites rule.

(** A finite, hence acyclic, AND/OR proof of the node. *)
Inductive proved (edges : list DependencyEdge) : string → Prop :=
  | proved_source n s : od_get (sources g) n = Some s → usable direction s = true → proved edges n
  | proved_rule n idx rule : ¬ is_source n → selects edges n idx rule →
      (∀ c, c ∈ Rule.prerequisites rule → proved edges c) → proved edges n.

(** What [path_identity] is meant to accept. *)
Record proof_dag p : Prop := {
  pd_edges e : e ∈ Path.edges p → graph_edge e;
  pd_consistent e e' : e ∈ Path.edges p → e' ∈ Path.edges p →
    Edge.target e = Edge.target e' → Edge.rule_index e = Edge.rule_index e';
  pd_proved : proved (Path.edges p) (Path.target p);
  pd_sources n : n ∈ Path.source_ids p ↔
    rtc (step (Path.edges p)) (Path.target p) n ∧ is_source n;
  pd_used e : e ∈ Path.edges p →
    rtc (step (Path.edges p)) (Path.target p) (Edge.target e) ∧ ¬ is_source (Edge.target e);
  pd_complete n idx rule : rtc (step (Path.edges p)) (Path.target p) n → ¬ is_source n →
    selects (Path.edges p) n idx rule → ∀ e, e ∈ rule_edges idx rule → e ∈ Path.edges p }.

Lemma rule_edges_elem idx rule e :
  e ∈ rule_edges idx rule ↔ ∃ ci c, Rule.prerequisites rule !! ci = Some c ∧
    e = mkEdge (Z.of_nat idx) (Z.of_nat ci) c (Rule.target rule) (Rule.kind rule).
Proof.
  unfold rule_edges. rewrite list_elem_of_lookup. setoid_rewrite list_lookup_imap_Some. naive_solver.
Qed.

Lemma rule_edges_lookup idx rule ci e :
  rule_edges idx rule !! ci = Some e ↔ ∃ c, Rule.prerequisites rule !! ci = Some c ∧
    e = mkEdge (Z.of_nat idx) (Z.of_nat ci) c (Rule.target rule) (Rule.kind rule).
Proof. unfold rule_edges. rewrite list_lookup_imap_Some. naive_solver. Qed.

Lemma graph_edge_key e e' : graph_edge e → graph_edge e' → edge_key e = edge_key e' → e = e'.
Proof.
  intros (idx & r & Hr & (ci & c & Hc & ->)%rule_edges_elem) (idx' & r' & Hr' & (ci' & c' & Hc' & ->)%rule_edges_elem).
  unfold edge_key; cbn. intros [= Hi Hci]. apply Nat2Z.inj in Hi, Hci. subst. simplify_eq. done.
Qed.

(** ** The selection *)

Record selection_ok (edges : list DependencyEdge) (sel : Selection) : Prop := {
  so_edges e : e ∈ edges → graph_edge e;
  so_consistent e e' : e ∈ edges → e' ∈ edges → Edge.target e = Edge.target e' → Edge.rule_index e = Edge.rule_index e';
  so_selected n i : selected sel !! n = Some i ↔ ∃ e, e ∈ edges ∧ Edge.target e = n ∧ Edge.rule_index e = i;
  so_by_key k e : by_key sel !! k = Some e ↔ e ∈ edges ∧ edge_key e = k }.

Lemma selection_empty : selection_ok [] (mkSelection ∅ ∅).
Proof.
  split.
  - by intros e ?%not_elem_of_nil.
  - by intros e e' ?%not_elem_of_nil.
  - intros n i. cbn. rewrite lookup_empty. split; [done|]. by intros (e & ?%not_elem_of_nil & _).
  - intros k e. cbn. rewrite lookup_empty. split; [done|]. by intros [?%not_elem_of_nil _].
Qed.

Lemma graph_edge_lookup e :
  graph_edge e ↔ ∃ rule, _ordered_rules g !! Z.to_nat (Edge.rule_index e) = Some rule ∧
    rule_edges (Z.to_nat (Edge.rule_index e)) rule !! Z.to_nat (Edge.prerequisite_index e) = Some e.
Proof.
  split.
  - intros (idx & rule & Hr & (ci & c & Hc & ->)%rule_edges_elem). exists rule. cbn. rewrite !Nat2Z.id.
    split; [done|]. apply rule_edges_lookup. by exists c.
  - intros (rule & Hr & He). exists (Z.to_nat (Edge.rule_index e)), rule. split; [exact Hr|]. by eapply list_elem_of_lookup_2.
Qed.

Definition edges_ok (edges : list DependencyEdge) : Prop :=
  (∀ e, e ∈ edges → graph_edge e) ∧
  (∀ e e', e ∈ edges → e' ∈ edges → Edge.target e = Edge.target e' → Edge.rule_index e = Edge.rule_index e').

Lemma select_edge_ok edges sel e :
  selection_ok edges sel → graph_edge e →
  (∀ e', e' ∈ edges → Edge.target e' = Edge.target e → Edge.rule_index e' = Edge.rule_index e) →
  selection_ok (edges ++ [e])
    (mkSelection (<[Edge.target e := Edge.rule_index e]> (selected sel)) (<[edge_key e := e]> (by_key sel))).
Proof.
  intros [H1 H2 H3 H4] He Hc. split; cbn.
  - intros e' [?| ->%list_elem_of_singleton]%elem_of_app; auto.
  - intros e1 e2 [?| ->%list_elem_of_singleton]%elem_of_app [?| ->%list_elem_of_singleton]%elem_of_app Ht; auto.
    symmetry. auto.
  - intros n i. rewrite lookup_insert. case_decide as Hn; [subst n|rewrite H3]; split.
    + intros [= <-]. exists e. split; [set_solver|done].
    + intros (e' & [Hin| ->%list_elem_of_singleton]%elem_of_app & Ht & <-); f_equal; symmetry; auto.
    + intros (e' & Hin & ?). exists e'. split; [set_solver|done].
    + intros (e' & [Hin| ->%list_elem_of_singleton]%elem_of_app & Ht & ?); [by exists e'|done].
  - intros k e'. rewrite lookup_insert. case_decide as Hk; [subst k|rewrite H4]; split.
    + intros [= <-]. split; [set_solver|done].
    + intros [[Hin| ->%list_elem_of_singleton]%elem_of_app Hk]; [|done].
      f_equal. apply graph_edge_key; auto.
    + intros [? ?]. split; [set_solver|done].
    + intros [[Hin| ->%list_elem_of_singleton]%elem_of_app ?]; done.
Qed.

Lemma select_edge_cases edges sel e :
  selection_ok edges sel →
  match select_edge g sel e with
  | Ok sel' => selection_ok (edges ++ [e]) sel'
  | Err _ => ¬ edges_ok (edges ++ [e])
  end.
Proof.
  intros Hok. assert (Hin : e ∈ edges ++ [e]) by set_solver. unfold select_edge.
  destruct (_ordered_rules g !! _) as [rule|] eqn:Hr.
  2: { intros [Hg _]. destruct (proj1 (graph_edge_lookup e) (Hg e Hin)) as (r & Hr' & _). congruence. }
  case_bool_decide as Hl; cbn [negb raise_if].
  2: { intros [Hg _]. destruct (proj1 (graph_edge_lookup e) (Hg e Hin)) as (r & Hr' & He). congruence. }
  assert (Hge : graph_edge e) by (apply graph_edge_lookup; by exists rule).
  destruct (Z.eqb_spec (default (Edge.rule_index e) (selected sel !! Edge.target e)) (Edge.rule_index e)) as [Heq|Hne].
  - cbn. rewrite Heq. apply select_edge_ok; [done|done|]. intros e' He' Ht.
    assert (Hs : selected sel !! Edge.target e = Some (Edge.rule_index e'))
      by (apply (so_selected _ _ Hok); by exists e').
    by rewrite Hs in Heq.
  - cbn. intros [_ Hc]. apply Hne. destruct (selected sel !! Edge.target e) as [i|] eqn:Hs; [|done]. cbn.
    apply (so_selected _ _ Hok) in Hs as (e' & He' & Ht & <-). apply Hc; [set_solver|done|done].
Qed.

Lemma select_edges todo : ∀ past sel,
  selection_ok past sel →
  match fold_result (select_edge g) sel todo with
  | Ok sel' => selection_ok (past ++ todo) sel'
  | Err _ => ¬ edges_ok (past ++ todo)
  end.
Proof.
  induction todo as [|e todo IH]; intros past sel Hok; cbn; [by rewrite app_nil_r|].
  pose proof (select_edge_cases past sel e Hok) as He.
  destruct (select_edge g sel e) as [sel1|]; cbn.
  - rewrite cons_middle, app_assoc. by apply IH.
  - intros [Hg Hc]. apply He. split; [intros e' He'|intros e' e'' He' He'']; [apply Hg|apply Hc]; set_solver.
Qed.

(** What the walk reads in the selection. *)
Section selection.
Context (edges : list DependencyEdge) (sel : Selection) (Hsel : selection_ok edges sel).

Lemma selected_rule n i : selected sel !! n = Some i →
  ∃ rule, selects edges n (Z.to_nat i) rule ∧ i = Z.of_nat (Z.to_nat i).
Proof.
  intros (e & He & Ht & <-)%(so_selected _ _ Hsel). destruct (so_edges _ _ Hsel e He) as (idx & rule & Hr & Hin).
  pose proof Hin as (ci & c & Hc & Heq)%rule_edges_elem. subst e. cbn in *. rewrite Nat2Z.id.
  exists rule. split; [|done]. split; [done|]. split; [done|]. by eexists.
Qed.

Lemma selects_selected n idx rule : selects edges n idx rule → selected sel !! n = Some (Z.of_nat idx).
Proof.
  intros (Hr & Ht & e & He & Hin). apply (so_selected _ _ Hsel). exists e. split; [done|].
  apply rule_edges_elem in Hin as (ci & c & Hc & ->). done.
Qed.

Lemma selects_unique n idx rule idx' rule' :
  selects edges n idx rule → selects edges n idx' rule' → idx = idx' ∧ rule = rule'.
Proof.
  intros Hs Hs'. pose proof (selects_selected _ _ _ Hs) as H1. rewrite (selects_selected _ _ _ Hs') in H1.
  injection H1 as H1. apply Nat2Z.inj in H1 as ->. split; [done|]. destruct Hs as [Hr _], Hs' as [Hr' _]. congruence.
Qed.

Lemma used_edges_pairs index l :
  match foldr (λ ic acc, acc ← acc;
      match by_key sel !! (index, Z.of_nat ic.1) with
      | None => Err (ValueError "dependency path omits AND prerequisite edge")
      | Some e => mret (edge_key e :: acc)
      end) (mret []) l with
  | Ok keys => (∀ ic : nat * string, ic ∈ l → is_Some (by_key sel !! (index, Z.of_nat ic.1))) ∧
      (∀ k, k ∈ keys ↔ ∃ ic, ic ∈ l ∧ k = (index, Z.of_nat ic.1))
  | Err _ => ∃ ic, ic ∈ l ∧ by_key sel !! (index, Z.of_nat ic.1) = None
  end.
Proof.
  induction l as [|[ci c] l IH]; cbn.
  { split; [by intros ? ?%not_elem_of_nil|]. intros k. split; [by intros ?%not_elem_of_nil|].
    by intros (? & ?%not_elem_of_nil & _). }
  destruct (foldr _ _ l) as [keys|ex]; cbn.
  2: { destruct IH as (ic & Hin & Hn). exists ic. split; [by right|done]. }
  destruct IH as [Hall Hkeys]. destruct (by_key sel !! (index, Z.of_nat ci)) as [e|] eqn:He; cbn.
  2: { exists (ci, c). split; [by left|done]. }
  split.
  - intros ic [->|Hin]%elem_of_cons; [by eexists|by eapply Hall].
  - intros k. rewrite elem_of_cons, Hkeys.
    apply (so_by_key _ _ Hsel) in He as [_ Hk]. rewrite Hk. split.
    + intros [->|(ic & Hin & ->)]; [exists (ci, c); split; [by left|done]|exists ic; split; [by right|done]].
    + intros (ic & [->|Hin]%elem_of_cons & ->); [by left|right; by exists ic].
Qed.

Lemma used_edges_keys index prerequisites :
  match used_edges sel index prerequisites with
  | Ok keys => (∀ ci c, prerequisites !! ci = Some c → is_Some (by_key sel !! (index, Z.of_nat ci))) ∧
      (∀ k, k ∈ keys ↔ ∃ ci c, prerequisites !! ci = Some c ∧ k = (index, Z.of_nat ci))
  | Err _ => ∃ ci c, prerequisites !! ci = Some c ∧ by_key sel !! (index, Z.of_nat ci) = None
  end.
Proof.
  assert (Hl : ∀ ci c, prerequisites !! ci = Some c ↔ (ci, c) ∈ imap pair prerequisites).
  { intros ci c. rewrite list_elem_of_lookup. setoid_rewrite list_lookup_imap_Some. naive_solver. }
  pose proof (used_edges_pairs index (imap pair prerequisites)) as Hp. fold (used_edges sel index prerequisites) in Hp.
  destruct (used_edges _ _ _) as [keys|ex].
  - destruct Hp as [Hall Hkeys]. split.
    + intros ci c Hc%Hl. by apply (Hall (ci, c)).
    + intros k. rewrite Hkeys. split.
      * intros ([ci c] & Hin%Hl & ->). by exists ci, c.
      * intros (ci & c & Hc%Hl & ->). by exists (ci, c).
  - destruct Hp as ([ci c] & Hin%Hl & Hn). by exists ci, c.
Qed.

(** Every prerequisite's edge is in the path, or not. *)
Lemma used_edges_spec idx rule : _ordered_rules g !! idx = Some rule →
  match used_edges sel (Z.of_nat idx) (Rule.prerequisites rule) with
  | Ok keys => (∀ e, e ∈ rule_edges idx rule → e ∈ edges) ∧
               (∀ k, k ∈ keys ↔ ∃ e, e ∈ rule_edges idx rule ∧ k = edge_key e)
  | Err _ => ∃ e, e ∈ rule_edges idx rule ∧ e ∉ edges
  end.
Proof.
  intros Hr. pose proof (used_edges_keys (Z.of_nat idx) (Rule.prerequisites rule)) as Hk.
  set (edge ci c := mkEdge (Z.of_nat idx) (Z.of_nat ci) c (Rule.target rule) (Rule.kind rule)) in *.
  assert (Hin : ∀ ci c, Rule.prerequisites rule !! ci = Some c → edge ci c ∈ rule_edges idx rule)
    by (intros ci c Hc; apply rule_edges_elem; by exists ci, c).
  destruct (used_edges _ _ _) as [keys|ex].
  - destruct Hk as [Hall Hkeys]. split.
    + intros e (ci & c & Hc & ->)%rule_edges_elem. destruct (Hall ci c Hc) as [e' He'].
      apply (so_by_key _ _ Hsel) in He' as [He' Hk'].
      change (edge ci c ∈ edges). rewrite (graph_edge_key (edge ci c) e'); [done| |by apply (so_edges _ _ Hsel)|by rewrite Hk'].
      exists idx, rule. auto.
    + intros k. rewrite Hkeys. split.
      * intros (ci & c & Hc & ->). exists (edge ci c). auto.
      * intros (e & (ci & c & Hc & ->)%rule_edges_elem & ->). by exists ci, c.
  - destruct Hk as (ci & c & Hc & Hn). exists (edge ci c). split; [auto|]. intros He.
    assert (Hk : by_key sel !! (Z.of_nat idx, Z.of_nat ci) = Some (edge ci c)) by by apply (so_by_key _ _ Hsel).
    congruence.
Qed.

(** ** The walk *)

Definition reach (root : string) : string → Prop := rtc (step edges) root.
Definition expanded w n : Prop := n ∈ active w ∨ n ∈ visited w.

Record walk_ok (root : string) w : Prop := {
  wk_stack n b : (n, b) ∈ stack w → reach root n;
  wk_visited n : n ∈ visited w → reach root n ∧ proved edges n ∧ (∀ c, step edges n c → c ∈ visited w);
  wk_active n : n ∈ active w ↔ (n, true) ∈ stack w;
  wk_leaves n : n ∈ leaves w ↔ n ∈ visited w ∧ is_source n;
  wk_used k : k ∈ used w ↔ ∃ n idx rule e, expanded w n ∧ ¬ is_source n ∧ selects edges n idx rule ∧
    e ∈ rule_edges idx rule ∧ k = edge_key e;
  wk_complete n idx rule e : expanded w n → ¬ is_source n → selects edges n idx rule →
    e ∈ rule_edges idx rule → e ∈ edges;
  wk_open above n rest : stack w = above ++ (n, true) :: rest →
    ¬ is_source n ∧ ((n, true) ∉ rest) ∧ (∃ idx rule, selects edges n idx rule) ∧
    (∀ c, step edges n c → (c ∈ visited w) ∨ (∃ b, (c, b) ∈ above)) ∧
    (∀ c b, (c, b) ∈ above → tc (step edges) n c);
  wk_root : (root ∈ visited w) ∨ (∃ b, (root, b) ∈ stack w) }.

Lemma step_selects n idx rule c :
  ¬ is_source n → selects edges n idx rule → step edges n c ↔ c ∈ Rule.prerequisites rule.
Proof.
  intros Hn Hs. split.
  - intros (_ & idx' & rule' & Hs' & Hc). by destruct (selects_unique _ _ _ _ _ Hs Hs') as [_ ->].
  - intros Hc. split; [done|]. by exists idx, rule.
Qed.

Lemma proved_step n c : proved edges n → step edges n c → proved edges c.
Proof.
  intros Hp (Hn & idx & rule & Hs & Hc). destruct Hp as [n s Hg _|n idx' rule' _ Hs' Hall].
  - destruct Hn. by eexists.
  - apply Hall. by destruct (selects_unique _ _ _ _ _ Hs Hs') as [_ <-].
Qed.

Lemma proved_reach root n : proved edges root → reach root n → proved edges n.
Proof. intros Hp Hr. induction Hr; eauto using proved_step. Qed.

Lemma tc_first {A} (R : relation A) x z : tc R x z → ∃ y, R x y ∧ rtc R y z.
Proof. intros Hc. destruct Hc as [x y|x y z Hxy Hyz]; exists y; [done|]. eauto using tc_rtc. Qed.

Lemma proved_acyclic n : proved edges n → ¬ tc (step edges) n n.
Proof.
  induction 1 as [n s Hg Hu|n idx rule Hn Hs Hall IH]; intros (c & Hnc & Hcn)%tc_first.
  - destruct Hnc as [Hn _]. apply Hn. by eexists.
  - apply (IH c); [by eapply step_selects|]. eapply tc_rtc_l; [exact Hcn|by apply tc_once].
Qed.

(** What the path must satisfy for the walk not to raise. *)
Definition good root : Prop :=
  proved edges root ∧ ∀ n idx rule, reach root n → ¬ is_source n → selects edges n idx rule →
    ∀ e, e ∈ rule_edges idx rule → e ∈ edges.

Lemma walk_exit root w n rest :
  walk_ok root w → stack w = (n, true) :: rest →
  walk_ok root (mkWalk rest ({[n]} ∪ visited w) (active w ∖ {[n]}) (used w) (leaves w)).
Proof.
  intros [H1 H2 H3 H4 H5 H6 H7 H8] Hst. destruct (H7 [] n rest Hst) as (Hn & Hnr & (idx & rule & Hs) & Hc & _).
  assert (Hv : ∀ c, step edges n c → c ∈ visited w).
  { intros c Hnc. destruct (Hc c Hnc) as [|[b ?%not_elem_of_nil]]; done. }
  assert (Hact : n ∈ active w) by (apply H3; rewrite Hst; by left).
  assert (Hexp : ∀ m, expanded (mkWalk rest ({[n]} ∪ visited w) (active w ∖ {[n]}) (used w) (leaves w)) m ↔ expanded w m).
  { intros m. unfold expanded; cbn. destruct (decide (m = n)) as [->|]; set_solver. }
  split; cbn.
  - intros m b Hm. apply (H1 m b). rewrite Hst. by right.
  - intros m [->%elem_of_singleton|Hm]%elem_of_union.
    + split_and!; [apply (H1 n true); rewrite Hst; by left| |set_solver].
      eapply proved_rule; [done|exact Hs|]. intros c Hcr. apply H2, Hv. by eapply step_selects.
    + destruct (H2 m Hm) as (? & ? & ?). split_and!; [done|done|set_solver].
  - intros m. rewrite elem_of_difference, H3, Hst, elem_of_cons, elem_of_singleton. naive_solver.
  - intros m. rewrite H4, elem_of_union, elem_of_singleton. naive_solver.
  - intros k. setoid_rewrite Hexp. apply H5.
  - intros m i r e Hm. apply H6. by apply Hexp.
  - intros above m rest' Heq. destruct (H7 ((n, true) :: above) m rest') as (Hm & Hmr & Hms & Hmc & Hmt); [by rewrite Hst, Heq|].
    split_and!; [done|done|done| |intros c b Hcb; apply (Hmt c b); by right].
    intros c Hcc. destruct (Hmc c Hcc) as [|[b [[= -> _]|Hin]%elem_of_cons]]; [left; set_solver|left; set_solver|].
    right. by exists b.
  - destruct H8 as [|[b Hb]]; [left; set_solver|]. rewrite Hst in Hb.
    apply elem_of_cons in Hb as [[= -> _]|Hb]; [left; set_solver|right; by exists b].
Qed.

(** The node on top is resolved already, or is a source. *)
Lemma walk_settle root w n rest vs ls :
  walk_ok root w → stack w = (n, false) :: rest →
  n ∈ vs → (∀ m, m ∈ vs ↔ m ∈ visited w ∨ m = n) → (∀ m, m ∈ ls ↔ m ∈ vs ∧ is_source m) →
  (n ∈ visited w ∨ is_source n ∧ proved edges n) →
  walk_ok root (mkWalk rest vs (active w) (used w) ls).
Proof.
  intros [H1 H2 H3 H4 H5 H6 H7 H8] Hst Hnv Hvs Hls Hcase.
  assert (Hexp : ∀ m, ¬ is_source m → expanded (mkWalk rest vs (active w) (used w) ls) m ↔ expanded w m).
  { intros m Hm. unfold expanded; cbn. rewrite Hvs. naive_solver. }
  split; cbn.
  - intros m b Hm. apply (H1 m b). rewrite Hst. by right.
  - intros m Hm. apply Hvs in Hm as [Hm| ->].
    + destruct (H2 m Hm) as (? & ? & Hc). split_and!; [done|done|]. intros c Hmc. apply Hvs. left. auto.
    + destruct Hcase as [Hm|[Hsrc Hp]].
      * destruct (H2 n Hm) as (? & ? & Hc). split_and!; [done|done|]. intros c Hmc. apply Hvs. left. auto.
      * split_and!; [apply (H1 n false); rewrite Hst; by left|done|]. by intros c [Hns _].
  - intros m. rewrite H3, Hst, elem_of_cons. naive_solver.
  - intros m. apply Hls.
  - intros k. rewrite H5. split; intros (m & idx & rule & e & Hm & Hns & Hr); exists m, idx, rule, e;
      (split; [by apply Hexp|done]).
  - intros m i r e Hm Hns. apply H6; [by apply Hexp|done].
  - intros above m rest' Heq. destruct (H7 ((n, false) :: above) m rest') as (Hm & Hmr & Hms & Hmc & Hmt); [by rewrite Hst, Heq|].
    split_and!; [done|done|done| |intros c b Hcb; apply (Hmt c b); by right].
    intros c Hcc. destruct (Hmc c Hcc) as [|[b [[= -> _]|Hin]%elem_of_cons]];
      [left; apply Hvs; by left|left; by apply Hvs; right|]. right. by exists b.
  - destruct H8 as [|[b Hb]]; [left; apply Hvs; by left|]. rewrite Hst in Hb.
    apply elem_of_cons in Hb as [[= -> _]|Hb]; [by left|right; by exists b].
Qed.

Lemma split_children (l : list string) n rest above m rest' :
  ((λ c, (c, false)) <$> l) ++ (n, true) :: rest = above ++ (m, true) :: rest' →
  (above = (λ c, (c, false)) <$> l ∧ m = n ∧ rest' = rest) ∨
  ∃ above', above = ((λ c, (c, false)) <$> l) ++ (n, true) :: above' ∧ rest = above' ++ (m, true) :: rest'.
Proof.
  revert above. induction l as [|x l IH]; intros [|y above]; cbn; intros Heq; simplify_eq.
  - by left.
  - right. by exists above.
  - destruct (IH above) as [(-> & -> & ->)|(above' & -> & ->)]; [done|by left|right; by exists above'].
Qed.

Lemma walk_expand root w n rest idx rule keys :
  walk_ok root w → stack w = (n, false) :: rest → n ∉ active w → n ∉ visited w → ¬ is_source n →
  selects edges n idx rule → used_edges sel (Z.of_nat idx) (Rule.prerequisites rule) = Ok keys →
  walk_ok root (mkWalk (((λ child, (child, false)) <$> Rule.prerequisites rule) ++ (n, true) :: rest)
    (visited w) ({[n]} ∪ active w) (list_to_set keys ∪ used w) (leaves w)).
Proof.
  intros [H1 H2 H3 H4 H5 H6 H7 H8] Hst Hna Hnv Hns Hs Hk.
  pose proof (used_edges_spec idx rule (proj1 Hs)) as Hspec. rewrite Hk in Hspec. destruct Hspec as [Hin Hkeys].
  assert (Hstep : ∀ c, step edges n c ↔ c ∈ Rule.prerequisites rule) by (intros c; by apply (step_selects n idx)).
  assert (Hreach : reach root n) by (apply (H1 n false); rewrite Hst; by left).
  assert (Hexp : ∀ m, expanded (mkWalk (((λ child, (child, false)) <$> Rule.prerequisites rule) ++ (n, true) :: rest)
    (visited w) ({[n]} ∪ active w) (list_to_set keys ∪ used w) (leaves w)) m ↔ m = n ∨ expanded w m)
    by (intros m; unfold expanded; cbn; set_solver).
  split; cbn.
  - intros m b [(c & [= -> ->] & Hc)%list_elem_of_fmap|[[= -> ->]|Hm]%elem_of_cons]%elem_of_app.
    + eapply rtc_r; [exact Hreach|by apply Hstep].
    + done.
    + apply (H1 m b). rewrite Hst. by right.
  - done.
  - intros m. rewrite elem_of_union, elem_of_singleton, H3, Hst, elem_of_app, !elem_of_cons, list_elem_of_fmap. naive_solver.
  - done.
  - intros k. rewrite elem_of_union, elem_of_list_to_set, Hkeys, H5. split.
    + intros [(e & He & ->)|(m & i & r & e & Hm & Hr)].
      * exists n, idx, rule, e. split; [apply Hexp; by left|done].
      * exists m, i, r, e. split; [apply Hexp; by right|done].
    + intros (m & i & r & e & [->|Hm]%Hexp & Hmns & Hmsel & He & ->).
      * destruct (selects_unique _ _ _ _ _ Hs Hmsel) as [<- <-]. left. by exists e.
      * right. by exists m, i, r, e.
  - intros m i r e [->|Hm]%Hexp Hmns Hmsel He; [|by eapply H6].
    destruct (selects_unique _ _ _ _ _ Hs Hmsel) as [<- <-]. auto.
  - intros above m rest' Heq. apply split_children in Heq as [(-> & -> & ->)|(above' & -> & ->)].
    + split_and!; [done| |by exists idx, rule| |].
      * intros Hin'. apply Hna, H3. rewrite Hst. by right.
      * intros c Hc%Hstep. right. exists false. apply list_elem_of_fmap. by exists c.
      * intros c b (c' & [= -> ->] & Hc)%list_elem_of_fmap. by apply tc_once, Hstep.
    + destruct (H7 ((n, false) :: above') m rest' Hst) as (Hm & Hmr & Hms & Hmc & Hmt).
      split_and!; [done|done|done| |].
      * intros c Hc. destruct (Hmc c Hc) as [|[b [[= -> ->]|Hb]%elem_of_cons]]; [by left|right|right]; eexists;
          apply elem_of_app; right; [by left|by right].
      * assert (Hmn : tc (step edges) m n) by (apply (Hmt n false); by left).
        intros c b [(c' & [= -> ->] & Hc)%list_elem_of_fmap|[[= -> ->]|Hb]%elem_of_cons]%elem_of_app; [|done|].
        -- eapply tc_r; [exact Hmn|by apply Hstep].
        -- apply (Hmt c b). by right.
  - destruct H8 as [|[b Hb]]; [by left|]. right. rewrite Hst in Hb.
    apply elem_of_cons in Hb as [[= -> ->]|Hb]; eexists; apply elem_of_app; right; [by left|by right].
Qed.

Lemma walk_step_cases root w n b rest :
  walk_ok root w → stack w = (n, b) :: rest →
  match walk_step g direction sel n b rest w with
  | Ok w' => walk_ok root w'
  | Err _ => ¬ good root
  end.
Proof.
  intros Hw Hst. assert (Hr : reach root n) by (apply (wk_stack _ _ Hw n b); rewrite Hst; by left).
  unfold walk_step. destruct b; [by apply walk_exit|].
  case_bool_decide as Ha.
  { intros [Hp _]. apply (proved_acyclic n); [by eapply proved_reach|].
    apply (wk_active _ _ Hw) in Ha. rewrite Hst in Ha. apply elem_of_cons in Ha as [[=]|Ha].
    apply list_elem_of_split in Ha as (above & rest' & ->).
    destruct (wk_open _ _ Hw ((n, false) :: above) n rest' Hst) as (_ & _ & _ & _ & Ht). apply (Ht n false). by left. }
  case_bool_decide as Hv.
  { apply (walk_settle root w n); [done|done|done|naive_solver|apply (wk_leaves _ _ Hw)|by left]. }
  destruct (od_get (sources g) n) as [s|] eqn:Hs.
  { destruct (usable direction s) eqn:Hu; cbn.
    - apply (walk_settle root w n rest); [done|done|set_solver|set_solver| |].
      + intros m. pose proof (wk_leaves _ _ Hw m) as Hl.
        assert (is_source n) by by eexists. set_solver.
      + right. split; [by eexists|by eapply proved_source].
    - intros [Hp _]. pose proof (proved_reach _ _ Hp Hr) as Hpn. destruct Hpn as [n s' Hs' Hu'|n ? ? Hns _ _].
      + simplify_eq. congruence.
      + apply Hns. by eexists. }
  assert (Hns : ¬ is_source n) by (intros [? ?]; congruence).
  destruct (selected sel !! n) as [i|] eqn:Hi.
  2: { intros [Hp _]. pose proof (proved_reach _ _ Hp Hr) as Hpn. destruct Hpn as [n s' Hs' _|n idx rule _ Hsel' _].
       - congruence.
       - rewrite (selects_selected _ _ _ Hsel') in Hi. done. }
  destruct (selected_rule n i Hi) as (rule & Hsl & Hz). rewrite (proj1 Hsl).
  pose proof (used_edges_spec _ _ (proj1 Hsl)) as Hspec. rewrite <- Hz in Hspec.
  destruct (used_edges sel i (Rule.prerequisites rule)) as [keys|ex] eqn:Hk; cbn.
  - apply (walk_expand root w n rest (Z.to_nat i) rule keys); try done. by rewrite <- Hz.
  - destruct Hspec as (e & He & Hne). intros [_ Hg]. by eapply Hne, Hg.
Qed.

Lemma walk_cases root fuel : ∀ w, walk_ok root w →
  match walk g direction sel fuel w with
  | Some (Ok w') => walk_ok root w' ∧ stack w' = []
  | Some (Err _) => ¬ good root
  | None => True
  end.
Proof.
  induction fuel as [|fuel IH]; intros w Hw; cbn; destruct (stack w) as [|[n b] rest] eqn:Hst; try done.
  pose proof (walk_step_cases root w n b rest Hw Hst) as Hs.
  destruct (walk_step _ _ _ _ _ _ _) as [w'|]; [by apply IH|done].
Qed.

Lemma walk_start root : walk_ok root (mkWalk [(root, false)] ∅ ∅ ∅ ∅).
Proof.
  split; cbn.
  - intros n b [[= -> ->]|?%not_elem_of_nil]%elem_of_cons; [apply rtc_refl|done].
  - set_solver.
  - intros n. split; [set_solver|]. by intros [[=]|?%not_elem_of_nil]%elem_of_cons.
  - set_solver.
  - intros k. split; [set_solver|]. unfold expanded; cbn. set_solver.
  - unfold expanded; cbn. set_solver.
  - intros above n rest Heq. destruct above as [|? [|]]; discriminate Heq.
  - right. eexists. by left.
Qed.

(** What a walk that ended has seen. *)
Lemma walk_end root w : walk_ok root w → stack w = [] →
  (∀ n, n ∈ visited w ↔ reach root n) ∧ good root ∧
  (∀ n, n ∈ leaves w ↔ reach root n ∧ is_source n) ∧
  (∀ k, k ∈ used w ↔ ∃ n idx rule e, reach root n ∧ ¬ is_source n ∧ selects edges n idx rule ∧
     e ∈ rule_edges idx rule ∧ k = edge_key e).
Proof.
  intros Hw Hst.
  assert (Hroot : root ∈ visited w) by (destruct (wk_root _ _ Hw) as [|[b Hb]]; [done|rewrite Hst in Hb; by apply not_elem_of_nil in Hb]).
  assert (Hvis : ∀ n, n ∈ visited w ↔ reach root n).
  { intros n. split; [by intros (? & _ & _)%(wk_visited _ _ Hw)|]. intros Hr.
    assert (Hcl : ∀ x y, x ∈ visited w → step edges x y → y ∈ visited w)
      by (intros x y Hx; by destruct (wk_visited _ _ Hw x Hx) as (_ & _ & ?); auto).
    revert Hroot. clear -Hr Hcl. induction Hr as [|x y z Hxy Hyz IH]; [done|]. intros Hx. by apply IH, (Hcl x). }
  assert (Hexp : ∀ n, expanded w n ↔ reach root n).
  { intros n. rewrite <- Hvis. unfold expanded. rewrite (wk_active _ _ Hw), Hst. split; [|by right].
    intros [Hm|Hm]; [by apply not_elem_of_nil in Hm|done]. }
  split; [done|]. split; [|split].
  - split; [by destruct (wk_visited _ _ Hw root Hroot) as (_ & ? & _)|]. intros n idx rule Hr Hns Hs e He.
    eapply (wk_complete _ _ Hw); [by apply Hexp|done|exact Hs|done].
  - intros n. by rewrite (wk_leaves _ _ Hw), Hvis.
  - intros k. rewrite (wk_used _ _ Hw). by setoid_rewrite Hexp.
Qed.

(** *** The fuel *)

Definition waiting (seen : gset string) (l : list DependencyRule) : nat :=
  sum_list_with (λ r, if bool_decide (Rule.target r ∈ seen) then 0 else 1 + length (Rule.prerequisites r))%nat l.

Lemma waiting_mono seen seen' l : seen ⊆ seen' → (waiting seen' l ≤ waiting seen l)%nat.
Proof.
  intros Hs. unfold waiting. induction l as [|r l IH]; cbn [sum_list_with]; [done|].
  repeat case_bool_decide; try lia. set_solver.
Qed.

Lemma waiting_expand seen l idx rule :
  l !! idx = Some rule → Rule.target rule ∉ seen →
  (waiting ({[Rule.target rule]} ∪ seen) l + (1 + length (Rule.prerequisites rule)) ≤ waiting seen l)%nat.
Proof.
  intros Hl Hn. rewrite <- (take_drop_middle l idx rule Hl). unfold waiting. rewrite !sum_list_with_app. cbn [sum_list_with].
  rewrite bool_decide_eq_true_2 by set_solver. rewrite (bool_decide_eq_false_2 (Rule.target rule ∈ seen)) by done.
  pose proof (waiting_mono seen ({[Rule.target rule]} ∪ seen) (take idx l) ltac:(set_solver)).
  pose proof (waiting_mono seen ({[Rule.target rule]} ∪ seen) (drop (S idx) l) ltac:(set_solver)).
  unfold waiting in *. lia.
Qed.

Definition cost w : nat := length (stack w) + waiting (active w ∪ visited w) (_ordered_rules g).

Lemma walk_step_cost n b rest w w' : stack w = (n, b) :: rest →
  walk_step g direction sel n b rest w = Ok w' → (b = true → n ∈ active w) → (S (cost w') ≤ cost w)%nat.
Proof.
  intros Hst Hs Hact. unfold cost. rewrite Hst. unfold walk_step in Hs. destruct b.
  { injection Hs as <-. cbn. replace (active w ∖ {[n]} ∪ ({[n]} ∪ visited w)) with (active w ∪ visited w); [lia|].
    apply set_eq. intros m. specialize (Hact eq_refl). destruct (decide (m = n)); set_solver. }
  case_bool_decide; [done|]. case_bool_decide; [injection Hs as <-; cbn; lia|].
  destruct (od_get (sources g) n) as [s|].
  { inv_Ok. cbn. pose proof (waiting_mono (active w ∪ visited w) (active w ∪ ({[n]} ∪ visited w))
      (_ordered_rules g) ltac:(set_solver)). lia. }
  destruct (selected sel !! n) as [i|] eqn:Hi; [|done].
  destruct (selected_rule n i Hi) as (rule & Hsl & _). rewrite (proj1 Hsl) in Hs. inv_Ok. cbn.
  destruct Hsl as (Hr & <- & _). rewrite length_app, length_fmap. cbn [length].
  pose proof (waiting_expand (active w ∪ visited w) _ _ _ Hr ltac:(set_solver)) as Hw.
  replace ({[Rule.target rule]} ∪ active w ∪ visited w) with ({[Rule.target rule]} ∪ (active w ∪ visited w)) by set_solver.
  lia.
Qed.

Lemma walk_fuel root fuel : ∀ w, walk_ok root w → (cost w ≤ fuel)%nat → walk g direction sel fuel w ≠ None.
Proof.
  induction fuel as [|fuel IH]; intros w Hw Hc; cbn; destruct (stack w) as [|[n b] rest] eqn:Hst; try done.
  { unfold cost in Hc. rewrite Hst in Hc. cbn in Hc. lia. }
  pose proof (walk_step_cases root w n b rest Hw Hst) as Hok.
  destruct (walk_step _ _ _ _ _ _ _) as [w'|] eqn:Hs; [|done]. apply IH; [done|].
  pose proof (walk_step_cost n b rest w w' Hst Hs) as Hle.
  assert (b = true → n ∈ active w) by (intros ->; apply (wk_active _ _ Hw); rewrite Hst; by left).
  specialize (Hle ltac:(done)). lia.
Qed.

Lemma walk_enough root : walk g direction sel (dfs_fuel g) (mkWalk [(root, false)] ∅ ∅ ∅ ∅) ≠ None.
Proof.
  apply (walk_fuel root); [apply walk_start|]. unfold cost, dfs_fuel, waiting; cbn.
  apply le_n_S. induction (_ordered_rules g) as [|r l IH]; cbn; [done|].
  rewrite bool_decide_eq_false_2 by set_solver. lia.
Qed.
End selection.

Lemma selects_target edges n idx rule e : selects edges n idx rule → e ∈ rule_edges idx rule → Edge.target e = n.
Proof. intros (_ & <- & _) (ci & c & _ & ->)%rule_edges_elem. done. Qed.

Lemma sorted_names_elem (X : gset string) n : n ∈ sorted_names X ↔ n ∈ X.
Proof. unfold sorted_names. by rewrite merge_sort_Permutation, elem_of_elements. Qed.


Lemma path_shape_sources p :
  path_shape_ok direction p = true → Path.source_ids p = sorted_names (list_to_set (Path.source_ids p)).
Proof. unfold path_shape_ok. intros Hs. by apply andb_true_iff in Hs as [_ ?%bool_decide_eq_true]. Qed.

(** The used keys are those of the path when no edge is disconnected. *)
Lemma used_exact (edges : list DependencyEdge) (sel : Selection) (root : string) (ks : gset (Z * Z)) :
  selection_ok edges sel → good edges root →
  (∀ k, k ∈ ks ↔ ∃ n idx rule e, reach edges root n ∧ ¬ is_source n ∧ selects edges n idx rule ∧
     e ∈ rule_edges idx rule ∧ k = edge_key e) →
  ks = list_to_set (edge_key <$> edges) ↔
  ∀ e, e ∈ edges → reach edges root (Edge.target e) ∧ ¬ is_source (Edge.target e).
Proof.
  intros Hsel [_ Hgood] Hks. split.
  - intros -> e He. destruct (proj1 (Hks (edge_key e))) as (n & idx & rule & e' & Hr & Hns & Hs & He' & Hk).
    { apply elem_of_list_to_set, list_elem_of_fmap. by exists e. }
    assert (e = e') as ->.
    { apply graph_edge_key; [by apply (so_edges _ _ Hsel)|exists idx, rule; split; [apply Hs|done]|done]. }
    by rewrite (selects_target _ _ _ _ _ Hs He').
  - intros Hall. apply set_eq. intros k. rewrite Hks, elem_of_list_to_set, list_elem_of_fmap. split.
    + intros (n & idx & rule & e & Hr & Hns & Hs & He & ->). exists e. split; [done|]. by eapply Hgood.
    + intros (e & -> & He). destruct (Hall e He) as [Hr Hns].
      destruct (so_edges _ _ Hsel e He) as (idx & rule & Hrule & Hin).
      exists (Edge.target e), idx, rule, e. split_and!; try done.
      apply rule_edges_elem in Hin as Hin'. destruct Hin' as (ci & c & _ & Heq).
      split; [done|]. split; [by rewrite Heq|by exists e].
Qed.

Lemma accepts_proofs p document :
  edge_document g = Ok document →
  (∃ h, path_identity g direction p = Some (Ok h)) ↔
  path_shape_ok direction p = true ∧ canonical (Path.edges p) = true ∧ proof_dag p.
Proof.
  intros Hdoc. unfold path_identity. rewrite Hdoc.
  destruct (path_shape_ok direction p) eqn:Hshape; cbn [negb]; [|by split; [intros [? ?]|intros (? & _)]].
  destruct (canonical (Path.edges p)) eqn:Hcan; cbn [negb]; [|by split; [intros [? ?]|intros (_ & ? & _)]].
  pose proof (select_edges (Path.edges p) [] _ selection_empty) as Hsel. rewrite app_nil_l in Hsel.
  destruct (fold_result _ _ _) as [sel|ex].
  2: { split; [by intros [? ?]|]. intros (_ & _ & Hp). destruct Hsel. split; apply Hp. }
  pose proof (walk_enough _ _ Hsel (Path.target p)) as Hen.
  pose proof (walk_cases _ _ Hsel (Path.target p) (dfs_fuel g) _ (walk_start _ _ Hsel _)) as Hw.
  destruct (walk _ _ _ _ _) as [[w|]|]; [|split; [by intros [? ?]|]|done].
  2: { intros (_ & _ & Hp). destruct Hw. split; [apply Hp|apply (pd_complete _ Hp)]. }
  destruct Hw as [Hw Hst]. destruct (walk_end _ _ _ Hw Hst) as (_ & Hgood & Hleaves & Hused). clear Hen Hw Hst.
  assert (Hse : sorted_names (leaves w) = Path.source_ids p ↔
    ∀ n, n ∈ Path.source_ids p ↔ reach (Path.edges p) (Path.target p) n ∧ is_source n).
  { apply path_shape_sources in Hshape. split.
    - intros <- n. by rewrite sorted_names_elem, Hleaves.
    - intros Hs. rewrite Hshape. f_equal. apply set_eq. intros n. rewrite elem_of_list_to_set, Hleaves. by rewrite Hs. }
  assert (Hue : used w = list_to_set (edge_key <$> Path.edges p) ↔
    ∀ e, e ∈ Path.edges p → reach (Path.edges p) (Path.target p) (Edge.target e) ∧ ¬ is_source (Edge.target e)).
  { by apply (used_exact _ sel). }
  destruct (bool_decide (used w = _)) eqn:Hu; cbn [negb orb].
  2: { apply bool_decide_eq_false in Hu. split; [by intros [? ?]|]. intros (_ & _ & Hp). destruct Hu.
       apply Hue. apply Hp. }
  apply bool_decide_eq_true in Hu.
  destruct (bool_decide (sorted_names _ = _)) eqn:Hs; cbn [negb].
  2: { apply bool_decide_eq_false in Hs. split; [by intros [? ?]|]. intros (_ & _ & Hp). destruct Hs.
       apply Hse. apply Hp. }
  apply bool_decide_eq_true in Hs. split; [|by eexists]. intros _. split_and!; [done|done|].
  destruct Hgood as [Hproved Hcomplete].
  split; [apply Hsel|apply Hsel|done|by apply Hse|by apply Hue|]. intros n idx rule Hr Hns Hsl. eauto.
Qed.

(** C38. [path_identity] accepts exactly the proofs: on a graph with a document,
    a path is given an identity if and only if its sources and edges are
    listed canonically, its edges are edges of the graph that choose one rule
    per target, the chosen rules prove the target without a cycle from usable
    sources, no edge of a chosen rule is missing and none is disconnected, and
    the listed sources are exactly those the proof reaches. *)
Theorem path_identity_accepts_proofs p document :
  edge_document g = Ok document →
  (∃ h, path_identity g direction p = Some (Ok h)) ↔
  path_shape_ok direction p = true ∧ canonical (Path.edges p) = true ∧ proof_dag p.
Proof. apply accepts_proofs. Qed.
End identity.

(** ** Enumerated paths *)

Section paths.
Context (g : DependencyGraph) (direction : string).
Implicit Types (n c : string) (X : gset string).

(** Driving the sources [X] determines the node: AND over a rule's
    prerequisites, OR over the rules. *)
Inductive suffices (X : gset string) : string → Prop :=
  | suff_source n : n ∈ X → is_source g n → suffices X n
  | suff_rule n rule : ¬ is_source g n → rule ∈ rules_of g n →
      (∀ c, c ∈ Rule.prerequisites rule → suffices X c) → suffices X n.

(** At most [k] rules deep, from sources usable in the direction. *)
Fixpoint reachable_in (k : nat) n : Prop :=
  match od_get (sources g) n with
  | Some s => usable direction s = true
  | None =>
      match k with
      | O => False
      | S k => ∃ rule, rule ∈ rules_of g n ∧ ∀ c, c ∈ Rule.prerequisites rule → reachable_in k c
      end
  end.

Lemma suffices_mono X Y n : X ⊆ Y → suffices X n → suffices Y n.
Proof.
  intros Hs. induction 1 as [n Hn Hsrc|n rule Hns Hr _ IH]; [apply suff_source; set_solver|by eapply suff_rule].
Qed.

Lemma reachable_in_mono k k' n : (k ≤ k')%nat → reachable_in k n → reachable_in k' n.
Proof.
  revert k' n. induction k as [|k IH]; intros [|k'] n Hk; cbn; destruct (od_get (sources g) n); try done || lia.
  intros (rule & Hr & Hall). exists rule. split; [done|]. intros c Hc. eapply IH; [lia|auto].
Qed.

Lemma product_elem {A} (choices : list (list A)) (l : list A) :
  l ∈ product choices ↔ Forall2 (λ x (options : list A), x ∈ options) l choices.
Proof.
  revert l. induction choices as [|options choices IH]; intros l; cbn.
  - rewrite list_elem_of_singleton. split; [intros ->; constructor|by inversion_clear 1].
  - rewrite list_elem_of_bind. setoid_rewrite list_elem_of_bind. setoid_rewrite list_elem_of_singleton.
    setoid_rewrite IH. split.
    + intros (x & (rest & -> & Hrest) & Hx). by constructor.
    + inversion_clear 1. eexists. split; [by eexists|done].
Qed.

Lemma add_until_elem cap alternatives combinations X :
  X ∈ add_until cap alternatives combinations → X ∈ alternatives ∨ ∃ combo, combo ∈ combinations ∧ X = ⋃ combo.
Proof.
  revert alternatives. induction combinations as [|c cs IH]; intros alternatives; cbn; [by left|].
  case_match.
  - intros [?| ->%list_elem_of_singleton]%elem_of_app; [by left|right; exists c; split; [by left|done]].
  - intros [[?| ->%list_elem_of_singleton]%elem_of_app|(c' & Hc & ->)]%IH;
      [by left|right; exists c; split; [by left|done]|right; exists c'; split; [by right|done]].
Qed.

Lemma add_until_nonempty cap alternatives combinations :
  alternatives ≠ [] ∨ combinations ≠ [] → add_until cap alternatives combinations ≠ [].
Proof.
  revert alternatives. induction combinations as [|c cs IH]; intros alternatives Hne; cbn; [naive_solver|].
  case_match; [by destruct alternatives|]. apply IH. left. by destruct alternatives.
Qed.

(** One rule of [expand]. *)
Definition expand_rule (cap : Z) (expand_child : string → list (gset string))
    (alternatives : list (gset string)) (rule : DependencyRule) : list (gset string) :=
  let choices := expand_child <$> Rule.prerequisites rule in
  if existsb (λ options, bool_decide (options = [])) choices then alternatives
  else add_until cap alternatives (product choices).

Lemma expand_unfold cap fuel n seen : od_get (sources g) n = None → n ∉ seen →
  expand g direction cap (S fuel) n seen =
    foldl (expand_rule cap (λ child, expand g direction cap fuel child ({[n]} ∪ seen))) [] (rules_of g n).
Proof. intros Hn Hs. cbn. rewrite Hn. by rewrite bool_decide_eq_false_2. Qed.

Lemma expand_rules_elem cap f X rs : ∀ alternatives,
  X ∈ foldl (expand_rule cap f) alternatives rs →
  X ∈ alternatives ∨ ∃ rule l, rule ∈ rs ∧ Forall2 (λ x c, x ∈ f c) l (Rule.prerequisites rule) ∧ X = ⋃ l.
Proof.
  induction rs as [|r rs IH]; intros alternatives; cbn; [by left|].
  intros [Hx|(rule & l & Hr & Hrest)]%IH; [|right; exists rule, l; split; [by right|done]].
  unfold expand_rule in Hx. case_match; [by left|].
  apply add_until_elem in Hx as [|(l & Hl & ->)]; [by left|]. right. exists r, l. split; [by left|]. split; [|done].
  apply product_elem in Hl. exact (proj1 (Forall2_fmap_r _ _ _ _) Hl).
Qed.

Lemma expand_rules_nonempty cap f rs : ∀ alternatives,
  (alternatives ≠ [] ∨ ∃ rule, rule ∈ rs ∧ ∀ c, c ∈ Rule.prerequisites rule → f c ≠ []) →
  foldl (expand_rule cap f) alternatives rs ≠ [].
Proof.
  assert (Hkeep : ∀ alts r, alts ≠ [] → expand_rule cap f alts r ≠ []).
  { intros alts r Hne. unfold expand_rule. case_match; [done|]. apply add_until_nonempty. by left. }
  induction rs as [|r rs IH]; intros alternatives; cbn.
  { intros [?|(? & ?%not_elem_of_nil & _)]; done. }
  intros [Hne|(rule & [->|Hr]%elem_of_cons & Hall)]; apply IH; [left; by apply Hkeep|left|right; by exists rule].
  unfold expand_rule. destruct (existsb _ _) eqn:He.
  - apply existsb_exists in He as (x & Hx%list_elem_of_In & Hb%bool_decide_eq_true).
    apply list_elem_of_fmap in Hx as (c & -> & Hc). by destruct (Hall c Hc).
  - apply add_until_nonempty. right. clear He.
    assert (∃ l, l ∈ product (f <$> Rule.prerequisites r)) as [l Hl].
    { setoid_rewrite product_elem. revert Hall. induction (Rule.prerequisites r) as [|c cs IHc]; intros Hall; cbn.
      - by exists [].
      - destruct (f c) as [|x fc] eqn:Hfc; [by destruct (Hall c ltac:(left))|].
        destruct IHc as [l Hl]; [intros c' Hc'; apply Hall; by right|]. exists (x :: l). constructor; [by left|done]. }
    by destruct (product _); [apply not_elem_of_nil in Hl|].
Qed.

Lemma expand_sound cap fuel : ∀ n seen X,
  X ∈ expand g direction cap fuel n seen →
  suffices X n ∧ (∀ x, x ∈ X → ∃ s, od_get (sources g) x = Some s ∧ usable direction s = true) ∧ reachable_in fuel n.
Proof.
  induction fuel as [|fuel IH]; intros n seen X Hx; destruct (od_get (sources g) n) as [s|] eqn:Hn.
  1, 3: cbn in Hx |- *; rewrite Hn in Hx |- *; destruct (usable direction s) eqn:Hu; [|by apply not_elem_of_nil in Hx];
    apply list_elem_of_singleton in Hx as ->; split_and!; [apply suff_source; [set_solver|by eexists]| |done];
    intros x ->%elem_of_singleton; by exists s.
  - cbn in Hx. rewrite Hn in Hx. by apply not_elem_of_nil in Hx.
  - destruct (decide (n ∈ seen)) as [Hs|Hs].
    { cbn in Hx. rewrite Hn, bool_decide_eq_true_2 in Hx by done. by apply not_elem_of_nil in Hx. }
    rewrite expand_unfold in Hx by done.
    apply expand_rules_elem in Hx as [?%not_elem_of_nil|(rule & l & Hr & Hl & ->)]; [done|].
    assert (Hc : ∀ c, c ∈ Rule.prerequisites rule → ∃ x, x ∈ l ∧ x ∈ expand g direction cap fuel c ({[n]} ∪ seen)).
    { intros c [i Hi]%list_elem_of_lookup. destruct (Forall2_lookup_r _ _ _ _ _ Hl Hi) as (x & Hx & Hin).
      exists x. split; [by eapply list_elem_of_lookup_2|done]. }
    split_and!.
    + apply (suff_rule _ n rule); [by intros [? ?]; congruence|done|]. intros c Hcin.
      destruct (Hc c Hcin) as (x & Hxl & Hx). eapply suffices_mono; [|by eapply IH].
      intros y Hy. apply elem_of_union_list. by exists x.
    + intros y (x & Hxl & Hy)%elem_of_union_list. apply list_elem_of_lookup in Hxl as [i Hi].
      destruct (Forall2_lookup_l _ _ _ _ _ Hl Hi) as (c & _ & Hin). by apply (IH c _ x Hin).
    + cbn. rewrite Hn. exists rule. split; [done|]. intros c Hcin. destruct (Hc c Hcin) as (x & _ & Hx). by eapply IH.
Qed.

#[local] Instance reachable_in_dec k n : Decision (reachable_in k n).
Proof.
  revert n. induction k as [|k IH]; intros n; cbn; destruct (od_get (sources g) n); try solve_decision.
  destruct (decide (Exists (λ rule, Forall (reachable_in k) (Rule.prerequisites rule)) (rules_of g n))) as [He|He].
  - left. apply Exists_exists in He as (rule & Hr & Hf). exists rule. by rewrite Forall_forall in Hf.
  - right. intros (rule & Hr & Hall). apply He, Exists_exists. exists rule. by rewrite Forall_forall.
Defined.

(** A branch that strictly decreases the depth at which its nodes become
    reachable repeats no node, so the cycle check cuts nothing that is needed. *)
Lemma expand_complete cap k : ∀ fuel n seen, (k ≤ fuel)%nat → reachable_in k n →
  (∀ m, m ∈ seen → ¬ reachable_in k m) → expand g direction cap fuel n seen ≠ [].
Proof.
  induction k as [|k IH]; intros fuel n seen Hf Hr Hseen.
  { cbn in Hr. destruct fuel; cbn; destruct (od_get (sources g) n); try done; by rewrite Hr. }
  destruct (decide (reachable_in k n)) as [Hlow|Hmin].
  { apply IH; [lia|done|]. intros m Hm Hk. apply (Hseen m Hm). eapply reachable_in_mono; [|done]. lia. }
  destruct (od_get (sources g) n) as [s|] eqn:Hn.
  { cbn in Hr. rewrite Hn in Hr. destruct fuel; cbn; rewrite Hn; by rewrite Hr. }
  destruct fuel as [|fuel]; [lia|]. assert (Hns : n ∉ seen) by (intros Hin; by apply (Hseen n Hin)).
  rewrite expand_unfold by done. apply expand_rules_nonempty. right.
  cbn in Hr. rewrite Hn in Hr. destruct Hr as (rule & Hrule & Hall). exists rule. split; [done|].
  intros c Hc. apply IH; [lia|auto|]. intros m [->%elem_of_singleton|Hm]%elem_of_union; [done|].
  intros Hk. apply (Hseen m Hm). eapply reachable_in_mono; [|done]. lia.
Qed.

Lemma sorted_names_inj X Y : sorted_names X = sorted_names Y → X = Y.
Proof. intros Heq. apply set_eq. intros n. by rewrite <- !sorted_names_elem, Heq. Qed.

Lemma sorted_names_set X : list_to_set (sorted_names X) = X.
Proof. apply set_eq. intros n. by rewrite elem_of_list_to_set, sorted_names_elem. Qed.

(** [paths_to] enumerates sufficient source sets.  Each returned path lists,
    sorted and without repetition, sources usable in the direction that suffice
    for the target by the rules; no path is returned twice and no more than
    asked for; and none is returned exactly when no tree of rules within the
    depth bound derives the target from usable sources: neither the cycle check
    nor the caps hide a reachable target. *)
Lemma paths_to_exact target max_depth max_paths ps :
  paths_to g direction target max_depth max_paths = Ok ps →
  (∀ p, p ∈ ps → Path.target p = target ∧ Path.edges p = [] ∧
     Path.source_ids p = sorted_names (list_to_set (Path.source_ids p)) ∧
     suffices (list_to_set (Path.source_ids p)) target ∧
     ∀ x, x ∈ Path.source_ids p → ∃ s, od_get (sources g) x = Some s ∧ usable direction s = true) ∧
  NoDup ps ∧ Z.of_nat (length ps) ≤ max_paths ∧
  (ps = [] ↔ ¬ reachable_in (Z.to_nat max_depth) target).
Proof.
  unfold paths_to. intros Hp. inv_Ok. set (all := expand g direction _ _ target ∅).
  assert (Hsub : ∀ X, X ∈ take (Z.to_nat max_paths) (merge_sort set_le (remove_dups all)) → X ∈ all).
  { intros X Hx. apply elem_of_take in Hx as (i & Hx & _). apply list_elem_of_lookup_2 in Hx.
    rewrite merge_sort_Permutation in Hx. by rewrite elem_of_remove_dups in Hx. }
  split_and!.
  - intros p (X & -> & Hx%Hsub)%list_elem_of_fmap. cbn. rewrite sorted_names_set.
    destruct (expand_sound _ _ _ _ _ Hx) as (Hsuf & Huse & _). split_and!; try done.
    intros x Hxin%sorted_names_elem. auto.
  - apply NoDup_fmap_2_strong; [intros X Y _ _ Heq; injection Heq as Heq; by apply sorted_names_inj|].
    eapply sublist_NoDup; [|apply sublist_take]. rewrite merge_sort_Permutation. apply NoDup_remove_dups.
  - rewrite length_fmap, length_take. lia.
  - split.
    + intros Hnil Hr. apply fmap_nil_inv in Hnil.
      assert (Hne : all ≠ []) by (apply (expand_complete _ (Z.to_nat max_depth)); [done|done|set_solver]).
      destruct all as [|X l] eqn:Hall; [done|].
      assert (Hlen : (0 < length (merge_sort set_le (remove_dups (X :: l))))%nat).
      { rewrite merge_sort_Permutation. destruct (remove_dups (X :: l)) eqn:Hd; [|cbn; lia].
        assert (Hx : X ∈ remove_dups (X :: l)) by (apply elem_of_remove_dups; by left).
        rewrite Hd in Hx. by apply not_elem_of_nil in Hx. }
      apply (f_equal length) in Hnil. rewrite length_take in Hnil. cbn [length] in Hnil. lia.
    + intros Hno. destruct (take _ _) as [|X l] eqn:Ht; [done|]. destruct Hno.
      apply (expand_sound (max_paths * 4) _ target ∅ X), Hsub. rewrite ?Ht. by left.
Qed.
End paths.

(** *** The hypotheses are satisfiable *)

Module Example_dependency.
#[local] Existing Instance checksum_hashlib.

Definition pin name : FuzzableSource := mkSource name "cpu" name 0 8 ["CPU_TO_IP"] "source" None.
Definition graph_rules : list DependencyRule :=
  [mkRule "target" ["a"; "middle"; "a"] "DATA_BINDING"; mkRule "middle" ["b"] "EVENT_ORDER";
   mkRule "middle" ["target"] "EVENT_ORDER"; mkRule "target" ["b"] "EVENT_ORDER"].
Definition graph : DependencyGraph :=
  match new_graph [pin "a"; pin "b"] graph_rules with Ok g => g | Err _ => mkGraph [] [] [] [] end.
Definition document : json := match edge_document graph with Ok d => d | Err _ => JNull end.
Definition path : DependencyPath :=
  mkPath "target" ["a"; "b"]
    (concat (imap (λ i r, if (i <? 2)%nat then rule_edges i r else []) graph_rules)).

Lemma path_identity_accepts_proofs_witness :
  (∃ h, path_identity graph "CPU_TO_IP" path = Some (Ok h)) ∧ proof_dag graph "CPU_TO_IP" path.
Proof.
  assert (Hacc : ∃ h, path_identity graph "CPU_TO_IP" path = Some (Ok h)).
  { destruct (path_identity graph "CPU_TO_IP" path) as [[h|e]|] eqn:He; [exists h; reflexivity| |];
      vm_compute in He; discriminate He. }
  split; [exact Hacc|].
  apply (path_identity_accepts_proofs graph "CPU_TO_IP" path document); [vm_compute; reflexivity|exact Hacc].
Defined.

Lemma paths_to_exact_witness :
  ∃ ps, paths_to graph "CPU_TO_IP" "target" 16 64 = Ok ps ∧ Path.source_ids <$> ps = [["b"]; ["a"; "b"]] ∧
    (ps = [] ↔ ¬ reachable_in graph "CPU_TO_IP" 16 "target").
Proof.
  destruct (paths_to graph "CPU_TO_IP" "target" 16 64) as [ps|e] eqn:He; [|vm_compute in He; discriminate He].
  exists ps. split; [reflexivity|]. split; [vm_compute in He; injection He as <-; reflexivity|].
  apply (paths_to_exact graph "CPU_TO_IP" "target" 16 64 ps He).
Defined.
End Example_dependency.
