(* ===== verification/EdgePaths.v ===== *)
(** * Lazily enumerated proof paths

    Models [DependencyGraph.edge_paths_to] of
    [src/src/myfuzz/scenario/dependency.py]: the enumeration of the proof DAGs of
    a target, with one rule for each node, under a budget of work.

    The nested generators are written in continuation-passing style: [edge_walk]
    calls [emit] where the generator yields, and stops when [emit] answers that
    the consumer left its loop ([true]).  Every resumption of a generator is at
    the place where its consumer asks for the next value, so the work is counted
    in the order of the source.  A [frozenset] is a [gset]; the order in which
    [deque(viable)] lists its set does not matter to the result, the model takes
    the order of the dictionary.  The recursion is bounded by [max_depth] as in
    the source; the reachability loop has fuel for every unit of work left, and
    uses one unit in each turn. *)

From S2P Require Import Prelude Json Isa Genome Ownership Dependency.

Local Open Scope Z_scope.

Definition _EDGE_WORK_LIMIT : Z := 1000000.

#[export] Instance DependencyEdge_countable : Countable DependencyEdge.
Proof.
  refine (inj_countable'
    (λ e, (Edge.rule_index e, Edge.prerequisite_index e, Edge.prerequisite e, Edge.target e, Edge.kind e))
    (λ '(i, c, p, t, k), mkEdge i c p t k) _).
  by intros [].
Defined.

(** What the enumeration keeps: the work left and the paths found. *)
Record Search := mkSearch {
  remaining : Z;
  found : list DependencyPath }.

(** One run of a loop body: whether the loop is left, and the state. *)
Definition Turn : Type := result (bool * Search).

(** [a; b], where [b] is skipped when [a] leaves the loop. *)
Definition followed_by (a : Search → Turn) (b : Search → Turn) (s : Search) : Turn :=
  match a s with
  | Ok (false, s) => b s
  | r => r
  end.

(** [spend] *)
Definition spend_work (amount : Z) (work : Z) : result Z :=
  raise_if (work - amount <? 0) (ValueError "dependency edge path work limit exceeded") ;;
  mret (work - amount).
Definition spend (s : Search) : Turn :=
  work ← spend_work 1 (remaining s);
  mret (false, mkSearch work (found s)).

(** ** Reachability *)

Record Reach := mkReach {
  viable : gset string;
  pending : gmap nat Z;
  queue : list string }.

(** The loop that builds [pending] and [reverse]. *)
Definition index_rule (g : DependencyGraph) (state : Z * gmap nat Z * list (string * list nat))
    (ir : nat * DependencyRule) : result (Z * gmap nat Z * list (string * list nat)) :=
  let '(work, pending, reverse) := state in
  let '(index, rule) := ir in
  work ← spend_work 1 work;
  if bool_decide (is_Some (od_get (sources g) (Rule.target rule))) then mret (work, pending, reverse)
  else
    work ← fold_result (λ work _, spend_work 1 work) work (Rule.prerequisites rule);
    mret (work, <[index := Z.of_nat (length (Rule.prerequisites rule))]> pending,
      foldl (λ reverse child, append_to reverse child index) reverse (Rule.prerequisites rule)).

(** One rule that waits for the node. *)
Definition settle (g : DependencyGraph) (state : Z * Reach) (index : nat) : result (Z * Reach) :=
  let '(work, r) := state in
  work ← spend_work 1 work;
  match pending r !! index, _ordered_rules g !! index with
  | Some n, Some rule =>
      let pending := <[index := n - 1]> (pending r) in
      if (n - 1 =? 0) && negb (bool_decide (Rule.target rule ∈ viable r))
      then mret (work, mkReach ({[Rule.target rule]} ∪ viable r) pending (queue r ++ [Rule.target rule]))
      else mret (work, mkReach (viable r) pending (queue r))
  | _, _ => Err (KeyError (pretty index))
  end.

Fixpoint reach_loop (g : DependencyGraph) (reverse : list (string * list nat)) (fuel : nat) (work : Z)
    (r : Reach) : result (Z * Reach) :=
  match queue r with
  | [] => mret (work, r)
  | node :: queue =>
      match fuel with
      | O => Err (OtherError "out of fuel")
      | S fuel =>
          work ← spend_work 1 work;
          state ← fold_result (settle g) (work, mkReach (viable r) (pending r) queue)
                    (default [] (od_get reverse node));
          reach_loop g reverse fuel state.1 state.2
      end
  end.

(** The nodes the direction's sources reach, and the work left. *)
Definition find_viable (g : DependencyGraph) (direction : string) (work : Z) : result (Z * gset string) :=
  state ← fold_result (index_rule g) (work, ∅, []) (imap pair (_ordered_rules g));
  let '(work, pending, reverse) := state in
  let start := (filter (λ ks, usable direction ks.2 = true) (sources g)).*1 in
  state ← reach_loop g reverse (S (Z.to_nat work)) work (mkReach (list_to_set start) pending start);
  mret (state.1, viable state.2).

(** ** The generators *)

(** What [walk] yields: sources, edges and the rules chosen. *)
Definition Yield : Type := gset string * gset DependencyEdge * gmap string nat.

Definition indices_of (g : DependencyGraph) (node : string) : list nat :=
  default [] (od_get (_indexed_rules g) node).

(** The loop [while stack] of one rule: [frame] asks for the yields of one
    prerequisite and opens a frame for the next one. *)
Fixpoint frame (child_walk : string → gmap string nat → (Yield → Search → Turn) → Search → Turn)
    (index : nat) (rule : DependencyRule) (emit : Yield → Search → Turn)
    (children : list (nat * string)) (y : Yield) : Search → Turn :=
  match children with
  | [] => emit y
  | (child_index, child) :: children =>
      let '(sources, edges, choices) := y in
      followed_by spend
        (child_walk child choices (λ '(child_sources, child_edges, child_choices),
          followed_by
            (frame child_walk index rule emit children
              (sources ∪ child_sources,
               edges ∪ child_edges ∪
                 {[mkEdge (Z.of_nat index) (Z.of_nat child_index) child (Rule.target rule) (Rule.kind rule)]},
               child_choices))
            spend))
  end.

(** [for index in ...], left when a body leaves it. *)
Fixpoint for_turns {A} (body : A → Search → Turn) (l : list A) (s : Search) : Turn :=
  match l with
  | [] => mret (false, s)
  | x :: l => followed_by (body x) (for_turns body l) s
  end.

Section walk.
Context (g : DependencyGraph) (viable : gset string).

(** Does the loop skip the rule? *)
Definition skipped (node : string) (choices : gmap string nat) (index : nat) (rule : DependencyRule) : bool :=
  bool_decide (is_Some (choices !! node) ∧ choices !! node ≠ Some index)
  || existsb (λ child, negb (bool_decide (child ∈ viable))) (Rule.prerequisites rule).

(** [walk]; the fuel is [max_depth - depth]. *)
Fixpoint edge_walk (fuel : nat) (node : string) (seen : gset string) (choices : gmap string nat)
    (emit : Yield → Search → Turn) : Search → Turn :=
  followed_by spend
    (if negb (bool_decide (node ∈ viable)) then λ s, mret (false, s)
     else if bool_decide (is_Some (od_get (sources g) node)) then emit ({[node]}, ∅, choices)
     else
       match fuel with
       | O => λ s, mret (false, s)
       | S fuel =>
           if bool_decide (node ∈ seen) then λ s, mret (false, s)
           else
             for_turns (λ index,
               followed_by spend
                 match _ordered_rules g !! index with
                 | None => λ _, Err (IndexError "tuple index out of range")
                 | Some rule =>
                     if skipped node choices index rule then λ s, mret (false, s)
                     else
                       match Rule.prerequisites rule with
                       | [] => λ _, Err (IndexError "tuple index out of range")
                       | prerequisites =>
                           frame (λ child choices emit, edge_walk fuel child ({[node]} ∪ seen) choices emit)
                             index rule emit (imap pair prerequisites) (∅, ∅, <[node := index]> choices)
                       end
                 end) (indices_of g node)
       end).
End walk.

Definition edge_key_le (a b : DependencyEdge) : Prop := ¬ edge_lt b a.
#[export] Instance edge_key_le_dec : RelDecision edge_key_le.
Proof. intros a b. unfold edge_key_le. apply _. Defined.

(** [tuple(sorted(edges, key=...))] *)
Definition sorted_edges (edges : gset DependencyEdge) : list DependencyEdge :=
  merge_sort edge_key_le (elements edges).

(** The body of the loop over the yields. *)
Definition collect (target : string) (max_paths : Z) (y : Yield) (s : Search) : Turn :=
  let '(sources, edges, _) := y in
  let path := mkPath target (sorted_names sources) (sorted_edges edges) in
  if bool_decide (path ∈ found s) then mret (false, s)
  else
    let found := found s ++ [path] in
    mret (Z.of_nat (length found) =? max_paths, mkSearch (remaining s) found).

(** [edge_paths_to] *)
Definition edge_paths_to (g : DependencyGraph) (direction target : string) (max_depth max_paths : Z)
    : result (list DependencyPath) :=
  raise_if (empty target || negb (has direction DIRECTIONS)
            || negb ((1 <=? max_depth) && (max_depth <=? 128))
            || negb ((1 <=? max_paths) && (max_paths <=? 4096)))
    (ValueError "invalid dependency edge path request") ;;
  work ← spend_work (Z.of_nat (length (sources g)))
           (Z.min _EDGE_WORK_LIMIT (Z.max 4096 (max_paths * max_depth * 128)));
  work ← fold_result (λ work rule, spend_work (1 + Z.of_nat (length (Rule.prerequisites rule))) work) work
           (_ordered_rules g);
  edge_document g ;;
  wv ← find_viable g direction work;
  let '(work, viable) := wv in
  turn ← edge_walk g viable (Z.to_nat max_depth) target ∅ ∅ (collect target max_paths) (mkSearch work []);
  mret (found turn.2).
