(* ===== verification/EdgePathsSpec.v ===== *)
(** * What the enumeration of proof paths finds

    Theorems about [EdgePaths]: the generators visit a list of yields
    ([enumerate]) whatever the work budget, until the consumer leaves; what is
    yielded is what [path_identity] authenticates. *)

From S2P Require Import Prelude Json Isa Genome Ownership Dependency DependencySpec EdgePaths.

Local Open Scope Z_scope.

(** ** The generators as lists *)

Fixpoint fold_until {A} (f : A → list DependencyPath → bool * list DependencyPath) (l : list A)
    (ps : list DependencyPath) : bool * list DependencyPath :=
  match l with
  | [] => (false, ps)
  | x :: l => match f x ps with (false, ps) => fold_until f l ps | r => r end
  end.

Lemma fold_until_app {A} f (l l' : list A) ps :
  fold_until f (l ++ l') ps = match fold_until f l ps with (false, ps) => fold_until f l' ps | r => r end.
Proof. revert ps. induction l as [|x l IH]; intros ps; cbn; [done|]. destruct (f x ps) as [[] ?]; auto. Qed.

Lemma fold_until_bind {A B} f (h : B → list A) l ps :
  fold_until f (l ≫= h) ps = fold_until (λ x, fold_until f (h x)) l ps.
Proof.
  revert ps. induction l as [|x l IH]; intros ps; [done|].
  change ((x :: l) ≫= h) with (h x ++ (l ≫= h)). rewrite fold_until_app. cbn.
  destruct (fold_until f (h x) ps) as [[] ?]; auto.
Qed.

Lemma fold_until_ext {A} (f f' : A → list DependencyPath → bool * list DependencyPath) l ps :
  (∀ x ps, f x ps = f' x ps) → fold_until f l ps = fold_until f' l ps.
Proof.
  intros Hf. revert ps. induction l as [|x l IH]; intros ps; cbn; [done|]. rewrite Hf.
  destruct (f' x ps) as [[] ?]; auto.
Qed.

(** A run that does not raise does this to the paths found. *)
Definition refines (m : Search → Turn) (f : list DependencyPath → bool * list DependencyPath) : Prop :=
  ∀ s b s', m s = Ok (b, s') → f (found s) = (b, found s').

Lemma refines_followed a b fa fb : refines a fa → refines b fb →
  refines (followed_by a b) (λ ps, match fa ps with (false, ps) => fb ps | r => r end).
Proof.
  intros Ha Hb s c s' Hr. unfold followed_by in Hr. destruct (a s) as [[[] s1]|] eqn:Has; [| |done].
  - injection Hr as <- <-. by rewrite (Ha _ _ _ Has).
  - rewrite (Ha _ _ _ Has). by apply Hb.
Qed.

Lemma refines_spend : refines spend (λ ps, (false, ps)).
Proof. intros s b s' Hr. unfold spend, spend_work in Hr. inv_Ok. done. Qed.

Lemma refines_done : refines (λ s, mret (false, s)) (λ ps, (false, ps)).
Proof. by intros s b s' [= <- <-]. Qed.

Lemma refines_raise e f : refines (λ _, Err e) f.
Proof. done. Qed.

Lemma refines_after b fb : refines b fb → refines (followed_by spend b) fb.
Proof. intros Hb. exact (refines_followed _ _ _ _ refines_spend Hb). Qed.

Lemma refines_before b fb : refines b fb → refines (followed_by b spend) fb.
Proof.
  intros Hb s c s' Hr. apply (refines_followed _ _ _ _ Hb refines_spend) in Hr.
  by destruct (fb (found s)) as [[] ?].
Qed.

Lemma refines_for {A B} (body : A → Search → Turn) f (h : A → list B) l :
  (∀ x, refines (body x) (fold_until f (h x))) → refines (for_turns body l) (fold_until f (l ≫= h)).
Proof.
  intros Hb. induction l as [|x l IH]; [exact refines_done|].
  intros s b s' Hr. apply (refines_followed _ _ _ _ (Hb x) IH) in Hr.
  change ((x :: l) ≫= h) with (h x ++ (l ≫= h)). by rewrite fold_until_app.
Qed.

(** The yields of the prerequisites of one rule. *)
Fixpoint enumerate_children (walk : string → gmap string nat → list Yield) (index : nat)
    (rule : DependencyRule) (children : list (nat * string)) (y : Yield) : list Yield :=
  match children with
  | [] => [y]
  | (child_index, child) :: children =>
      let '(sources, edges, choices) := y in
      walk child choices ≫= λ '(child_sources, child_edges, child_choices),
        enumerate_children walk index rule children
          (sources ∪ child_sources,
           edges ∪ child_edges ∪
             {[mkEdge (Z.of_nat index) (Z.of_nat child_index) child (Rule.target rule) (Rule.kind rule)]},
           child_choices)
  end.

Section enumerate.
Context (g : DependencyGraph) (viable : gset string).

Fixpoint enumerate (fuel : nat) (node : string) (seen : gset string) (choices : gmap string nat) : list Yield :=
  if negb (bool_decide (node ∈ viable)) then []
  else if bool_decide (is_Some (od_get (sources g) node)) then [({[node]}, ∅, choices)]
  else
    match fuel with
    | O => []
    | S fuel =>
        if bool_decide (node ∈ seen) then []
        else
          indices_of g node ≫= λ index,
            match _ordered_rules g !! index with
            | None => []
            | Some rule =>
                if skipped viable node choices index rule || bool_decide (Rule.prerequisites rule = []) then []
                else enumerate_children (λ child, enumerate fuel child ({[node]} ∪ seen)) index rule
                       (imap pair (Rule.prerequisites rule)) (∅, ∅, <[node := index]> choices)
            end
    end.

Lemma refines_frame child_walk walk index rule emit femit children :
  (∀ c ch emit femit, (∀ y, refines (emit y) (femit y)) →
     refines (child_walk c ch emit) (fold_until femit (walk c ch))) →
  (∀ y, refines (emit y) (femit y)) →
  ∀ y, refines (frame child_walk index rule emit children y)
         (fold_until femit (enumerate_children walk index rule children y)).
Proof.
  intros Hw He. induction children as [|[ci c] children IH]; intros [[X E] ch]; cbn.
  - intros s b s' Hr. apply He in Hr. rewrite Hr. by destruct b.
  - apply refines_after. intros s b s' Hr. rewrite fold_until_bind.
    eapply (Hw c ch _ (λ y, fold_until femit _)); [|exact Hr].
    intros [[cX cE] cch]. apply refines_before, IH.
Qed.

Lemma refines_walk fuel : ∀ node seen choices emit femit,
  (∀ y, refines (emit y) (femit y)) →
  refines (edge_walk g viable fuel node seen choices emit) (fold_until femit (enumerate fuel node seen choices)).
Proof.
  induction fuel as [|fuel IH]; intros node seen choices emit femit He;
    cbn -[frame imap enumerate_children]; apply refines_after;
    (destruct (negb (bool_decide (node ∈ viable))); [exact refines_done|]);
    (destruct (bool_decide (is_Some _));
      [intros s b s' Hr; apply He in Hr; cbn; rewrite Hr; by destruct b|]); [exact refines_done|].
  destruct (bool_decide (node ∈ seen)); [exact refines_done|].
  apply refines_for. intros index. apply refines_after.
  destruct (_ordered_rules g !! index) as [rule|]; [|apply refines_raise].
  destruct (skipped _ _ _ _ _); [exact refines_done|]. cbn [orb].
  destruct (Rule.prerequisites rule) as [|c cs] eqn:Hp; [apply refines_raise|].
  rewrite bool_decide_eq_false_2 by done.
  apply (refines_frame (λ c ch emit, edge_walk g viable fuel c ({[node]} ∪ seen) ch emit)
    (λ c, enumerate fuel c ({[node]} ∪ seen))); [|done].
  intros c' ch emit' femit' He'. by apply IH.
Qed.
End enumerate.

(** ** What is collected *)

Definition path_of (target : string) (y : Yield) : DependencyPath :=
  mkPath target (sorted_names y.1.1) (sorted_edges y.1.2).

Definition collected (target : string) (max_paths : Z) (y : Yield) (ps : list DependencyPath)
    : bool * list DependencyPath :=
  if bool_decide (path_of target y ∈ ps) then (false, ps)
  else (Z.of_nat (length (ps ++ [path_of target y])) =? max_paths, ps ++ [path_of target y]).

Lemma refines_collect target max_paths y : refines (collect target max_paths y) (collected target max_paths y).
Proof.
  destruct y as [[X E] ch]. intros s b s'. unfold collect, collected, path_of. cbn [fst snd].
  case_bool_decide; by intros [= <- <-].
Qed.

Lemma collected_all target max_paths l : ∀ ps b ps',
  NoDup ps → Z.of_nat (length ps) < max_paths → fold_until (collected target max_paths) l ps = (b, ps') →
  NoDup ps' ∧ Z.of_nat (length ps') ≤ max_paths ∧ (∀ p, p ∈ ps → p ∈ ps') ∧
  (∀ p, p ∈ ps' → p ∈ ps ∨ ∃ y, y ∈ l ∧ p = path_of target y) ∧
  (Z.of_nat (length ps') < max_paths → ∀ y, y ∈ l → path_of target y ∈ ps').
Proof.
  induction l as [|y l IH]; intros ps b ps' Hnd Hlt Hf; cbn in Hf.
  { injection Hf as <- <-. split; [done|]. split; [lia|]. split; [done|]. split; [by left|].
    by intros _ y ?%not_elem_of_nil. }
  unfold collected at 1 in Hf. case_bool_decide as Hin.
  { destruct (IH _ _ _ Hnd Hlt Hf) as (? & ? & Hold & Hnew & Hall). split; [done|]. split; [done|].
    split; [done|]. split.
    - intros p [?|(y' & ? & ->)]%Hnew; [by left|]. right. exists y'. split; [by right|done].
    - intros Hl y' [->|?]%elem_of_cons; auto. }
  assert (Hnd' : NoDup (ps ++ [path_of target y])).
  { apply NoDup_app. split_and!; [done| |apply NoDup_singleton]. by intros x Hx ->%list_elem_of_singleton. }
  destruct (Z.eqb_spec (Z.of_nat (length (ps ++ [path_of target y]))) max_paths) as [Heq|Hne].
  - injection Hf as <- <-. split; [done|]. split; [lia|]. split; [set_solver|]. split; [|lia].
    intros p [?| ->%list_elem_of_singleton]%elem_of_app; [by left|]. right. exists y. split; [by left|done].
  - rewrite length_app in Hne. cbn in Hne.
    destruct (IH _ _ _ Hnd' ltac:(rewrite length_app; cbn; lia) Hf) as (? & ? & Hold & Hnew & Hall).
    split; [done|]. split; [done|]. split; [intros p Hp; apply Hold; set_solver|]. split.
    + intros p [[?| ->%list_elem_of_singleton]%elem_of_app|(y' & ? & ->)]%Hnew; [by left| |].
      * right. exists y. split; [by left|done].
      * right. exists y'. split; [by right|done].
    + intros Hl y' [->|?]%elem_of_cons; [apply Hold; set_solver|auto].
Qed.

(** ** Reachability *)

Lemma fold_result_raises {A B} (P : exn → Prop) (f : A → B → result A) l :
  (∀ a x e, f a x = Err e → P e) → ∀ a e, fold_result f a l = Err e → P e.
Proof.
  intros Hf. induction l as [|x l IH]; intros a e; cbn; [done|].
  intros [?|(a' & _ & ?)]%bind_Err; [by eapply Hf|by eapply IH].
Qed.

Definition occurrences {A} `{EqDecision A} (x : A) (l : list A) : nat := length (filter (λ y, y = x) l).
Definition missing (done : gset string) (l : list string) : nat := length (filter (λ c, c ∉ done) l).

Lemma occurrences_app {A} `{EqDecision A} (x : A) l l' :
  occurrences x (l ++ l') = (occurrences x l + occurrences x l')%nat.
Proof. unfold occurrences. by rewrite filter_app, length_app. Qed.

Lemma occurrences_cons {A} `{EqDecision A} (x y : A) l :
  occurrences x (y :: l) = ((if decide (y = x) then 1 else 0) + occurrences x l)%nat.
Proof. unfold occurrences. rewrite filter_cons. by destruct (decide (y = x)). Qed.

Lemma occurrences_replicate {A} `{EqDecision A} (x y : A) n :
  occurrences x (replicate n y) = if decide (y = x) then n else 0%nat.
Proof.
  induction n as [|n IH]; [by destruct (decide _)|].
  change (replicate (S n) y) with (y :: replicate n y). rewrite occurrences_cons, IH.
  by destruct (decide (y = x)).
Qed.

Lemma occurrences_elem {A} `{EqDecision A} (x : A) l : x ∈ l → (0 < occurrences x l)%nat.
Proof.
  intros Hx. unfold occurrences. destruct (filter (λ y, y = x) l) eqn:Hf; [|cbn; lia].
  assert (Hin : x ∈ filter (λ y, y = x) l) by by apply list_elem_of_filter. rewrite Hf in Hin. set_solver.
Qed.

Lemma missing_step done n l : n ∉ done → missing done l = (missing ({[n]} ∪ done) l + occurrences n l)%nat.
Proof.
  intros Hn. unfold missing. induction l as [|c l IH]; [done|].
  rewrite occurrences_cons, !filter_cons. destruct (decide (c = n)) as [->|Hc].
  - rewrite decide_True, decide_False by set_solver. cbn. lia.
  - destruct (decide (c ∉ done)).
    + rewrite decide_True by set_solver. cbn. lia.
    + rewrite decide_False by set_solver. lia.
Qed.

Lemma missing_zero done l : missing done l = 0%nat ↔ ∀ c, c ∈ l → c ∈ done.
Proof.
  unfold missing. rewrite length_zero_iff_nil. split.
  - intros Hf c Hc. destruct (decide (c ∈ done)) as [?|Hn]; [done|].
    assert (Hin : c ∈ filter (λ c, c ∉ done) l) by by apply list_elem_of_filter. rewrite Hf in Hin. set_solver.
  - intros Hall. destruct (filter _ l) as [|c l'] eqn:Hf; [done|].
    assert (Hin : c ∈ filter (λ c, c ∉ done) l) by (rewrite Hf; left). apply list_elem_of_filter in Hin as [Hn Hc].
    by destruct Hn; apply Hall.
Qed.

Lemma od_get_append {A} (d : list (string * list A)) k v k' :
  default [] (od_get (append_to d k v) k') = default [] (od_get d k') ++ (if decide (k = k') then [v] else []).
Proof.
  unfold append_to. rewrite od_get_set. destruct (decide (k = k')) as [->|]; [done|by rewrite app_nil_r].
Qed.

Lemma od_get_append_all {A} (v : A) l : ∀ d k,
  default [] (od_get (foldl (λ d c, append_to d c v) d l) k) = default [] (od_get d k) ++ replicate (occurrences k l) v.
Proof.
  induction l as [|c l IH]; intros d k; [cbn; by rewrite app_nil_r|].
  cbn [foldl]. rewrite IH, od_get_append, occurrences_cons, <- app_assoc. f_equal. by destruct (decide (c = k)).
Qed.

Section reach.
Context (g : DependencyGraph) (direction : string).
Implicit Types (n c : string) (r : Reach).

Definition waiting_rule (idx : nat) (rule : DependencyRule) : Prop :=
  _ordered_rules g !! idx = Some rule ∧ ¬ is_source g (Rule.target rule).

(** The two tables, after the rules [done]. *)
Record tables_ok (done : list DependencyRule) (pending : gmap nat Z) (reverse : list (string * list nat)) : Prop := {
  tb_pending idx rule : done !! idx = Some rule → ¬ is_source g (Rule.target rule) →
    pending !! idx = Some (Z.of_nat (length (Rule.prerequisites rule)));
  tb_reverse n idx : occurrences idx (default [] (od_get reverse n)) =
    match done !! idx with
    | Some rule => if decide (is_source g (Rule.target rule)) then 0%nat else occurrences n (Rule.prerequisites rule)
    | None => 0%nat
    end }.

Lemma spend_work_Ok a w w' : spend_work a w = Ok w' ↔ a ≤ w ∧ w' = w - a.
Proof.
  unfold spend_work. destruct (Z.ltb_spec (w - a) 0); cbn; split; try done || lia.
  - intros [= <-]. lia.
  - intros [_ ->]. done.
Qed.

Lemma spend_all_Ok {A} (l : list A) w w' :
  fold_result (λ work _, spend_work 1 work) w l = Ok w' → 0 ≤ w → 0 ≤ w' ≤ w.
Proof.
  revert w. induction l as [|x l IH]; intros w; cbn; [intros [= <-]; lia|].
  intros (w1 & [? ->]%spend_work_Ok & Hf)%bind_Ok Hw. apply IH in Hf; lia.
Qed.

Lemma index_rule_ok done rule w p rv w' p' rv' :
  tables_ok done p rv → index_rule g (w, p, rv) (length done, rule) = Ok (w', p', rv') →
  tables_ok (done ++ [rule]) p' rv'.
Proof.
  intros [Hp Hr] Hi. unfold index_rule in Hi. inv_Ok.
  assert (Hlook : ∀ idx, (done ++ [rule]) !! idx = if decide (idx = length done) then Some rule else done !! idx).
  { intros idx. destruct (decide (idx = length done)) as [->|Hne]; [by apply list_lookup_middle|].
    destruct (decide (idx < length done)%nat); [by apply lookup_app_l|].
    rewrite lookup_app_r by lia. rewrite (lookup_ge_None_2 done) by lia. apply lookup_ge_None_2. cbn. lia. }
  case_bool_decide as Hs; inv_Ok; split; intros *; rewrite Hlook; destruct (decide (idx = length done)) as [->|Hne].
  - intros [= <-] Hns. done.
  - apply Hp.
  - rewrite decide_True by done. rewrite Hr, lookup_ge_None_2; [done|lia].
  - apply Hr.
  - intros [= <-] _. apply lookup_insert_eq.
  - rewrite lookup_insert_ne by done. apply Hp.
  - rewrite decide_False by done. rewrite od_get_append_all, occurrences_app, Hr, occurrences_replicate.
    rewrite lookup_ge_None_2 by lia. by rewrite decide_True.
  - rewrite od_get_append_all, occurrences_app, Hr, occurrences_replicate, (decide_False (P := length done = idx)) by done.
    lia.
Qed.

Lemma tables_empty : tables_ok [] ∅ [].
Proof. split; [by intros idx rule ?|done]. Qed.

Lemma index_rules_ok rules w w' p' rv' :
  fold_result (index_rule g) (w, ∅, []) (imap pair rules) = Ok (w', p', rv') → tables_ok rules p' rv'.
Proof.
  revert w' p' rv'. induction rules as [|rule rules IH] using rev_ind; intros w' p' rv'.
  { intros [= <- <- <-]. apply tables_empty. }
  rewrite imap_app, fold_result_app. intros ([[w1 p1] rv1] & H1 & H2)%bind_Ok.
  cbn in H2. rewrite Nat.add_0_r in H2. apply bind_Ok in H2 as ([[w2 p2] rv2] & H2 & [= <- <- <-]).
  by eapply index_rule_ok; [eapply IH|].
Qed.

(** The state of the loop: the nodes of [done] have been processed, and the
    indices [todo] of the present node are still to be settled. *)
Record reach_ok (done : gset string) (todo : list nat) r : Prop := {
  rc_viable n : n ∈ viable r ↔ n ∈ queue r ∨ n ∈ done;
  rc_queue : NoDup (queue r) ∧ ∀ n, n ∈ queue r → n ∉ done;
  rc_pending idx rule : waiting_rule idx rule →
    pending r !! idx = Some (Z.of_nat (missing done (Rule.prerequisites rule) + occurrences idx todo));
  rc_ready idx rule : waiting_rule idx rule → Rule.prerequisites rule ≠ [] →
    missing done (Rule.prerequisites rule) = 0%nat → occurrences idx todo = 0%nat → Rule.target rule ∈ viable r;
  rc_usable n s : n ∈ viable r → od_get (sources g) n = Some s → usable direction s = true;
  rc_start n s : od_get (sources g) n = Some s → usable direction s = true → n ∈ viable r }.

Lemma settle_ok done idx todo w r w' r' :
  (∃ rule, waiting_rule idx rule) → reach_ok done (idx :: todo) r →
  settle g (w, r) idx = Ok (w', r') → reach_ok done todo r' ∧ 1 ≤ w ∧ w' = w - 1.
Proof.
  intros (rule & Hw) [Hv [Hq Hd] Hp Hr Hu Hst] Hs. destruct (Hw) as [Hrule Hns]. unfold settle in Hs.
  apply bind_Ok in Hs as (w1 & [Hle ->]%spend_work_Ok & Hs). rewrite (Hp _ _ Hw), Hrule in Hs.
  rewrite occurrences_cons, decide_True in Hs by done.
  set (m := missing done (Rule.prerequisites rule)) in *.
  assert (Hpend : ∀ idx' rule', waiting_rule idx' rule' →
    (<[idx := Z.of_nat (m + (1 + occurrences idx todo)) - 1]> (pending r)) !! idx' =
    Some (Z.of_nat (missing done (Rule.prerequisites rule') + occurrences idx' todo))).
  { intros idx' rule' Hw'. destruct (decide (idx = idx')) as [<-|Hne].
    - rewrite lookup_insert_eq. f_equal. destruct Hw' as [Hr' _]. simplify_eq. fold m. lia.
    - rewrite lookup_insert_ne by done. rewrite (Hp _ _ Hw'). do 2 f_equal. rewrite occurrences_cons.
      by rewrite decide_False. }
  assert (Hother : ∀ idx' rule', waiting_rule idx' rule' → idx' ≠ idx → Rule.prerequisites rule' ≠ [] →
    missing done (Rule.prerequisites rule') = 0%nat → occurrences idx' todo = 0%nat → Rule.target rule' ∈ viable r).
  { intros idx' rule' Hw' Hne Hpre Hm Ho. apply (Hr _ _ Hw' Hpre Hm). rewrite occurrences_cons.
    by rewrite decide_False. }
  destruct (_ && _) eqn:Hadd; injection Hs as <- <-; (split; [|by split]).
  - apply andb_true_iff in Hadd as [Hz Hnew%negb_true_iff%bool_decide_eq_false].
    assert (Hnq : (Rule.target rule ∉ queue r) ∧ Rule.target rule ∉ done) by (rewrite Hv in Hnew; naive_solver).
    split; cbn [viable pending queue]; [| |done| | |].
    + intros n. rewrite elem_of_union, elem_of_singleton, elem_of_app, list_elem_of_singleton, Hv. tauto.
    + split; [|set_solver]. apply NoDup_app. split_and!; [done|set_solver|apply NoDup_singleton].
    + intros idx' rule' Hw' Hpre Hm Ho. destruct (decide (idx' = idx)) as [->|Hne].
      * destruct Hw' as [Hr' _]. simplify_eq. set_solver.
      * apply elem_of_union. right. by eapply Hother.
    + intros n s [->%elem_of_singleton|Hn]%elem_of_union Hn'; [|by eapply Hu].
      destruct Hns. by eexists.
    + intros n s Hn Hus. apply elem_of_union. right. by eapply Hst.
  - split; cbn [viable pending queue]; [done|done|done| |done|done].
    intros idx' rule' Hw' Hpre Hm Ho. destruct (decide (idx' = idx)) as [->|Hne]; [|by eapply Hother].
    destruct Hw' as [Hr' _]. simplify_eq. fold m in Hm.
    apply andb_false_iff in Hadd as [Hz%Z.eqb_neq|Hin]; [clearbody m; lia|].
    by apply negb_false_iff, bool_decide_eq_true in Hin.
Qed.

Lemma settles_ok done todo : ∀ w r w' r',
  (∀ idx, idx ∈ todo → ∃ rule, waiting_rule idx rule) → reach_ok done todo r →
  fold_result (settle g) (w, r) todo = Ok (w', r') → reach_ok done [] r' ∧ w' ≤ w ∧ (0 ≤ w → 0 ≤ w').
Proof.
  induction todo as [|idx todo IH]; intros w r w' r' Hall Hok; cbn; [intros [= <- <-]; split; [done|lia]|].
  intros ([w1 r1] & H1 & H2)%bind_Ok. destruct (settle_ok done idx todo w r w1 r1) as (H3 & Hle & ->); [|done|done|].
  { apply Hall. by left. }
  destruct (IH _ _ _ _ ltac:(intros; apply Hall; by right) H3 H2). split; [done|lia].
Qed.

Section loop.
Context (pending0 : gmap nat Z) (reverse : list (string * list nat))
  (Htables : tables_ok (_ordered_rules g) pending0 reverse).

Lemma listed_waits n idx : idx ∈ default [] (od_get reverse n) → ∃ rule, waiting_rule idx rule.
Proof.
  intros Hin%occurrences_elem. rewrite (tb_reverse _ _ _ Htables) in Hin.
  destruct (_ordered_rules g !! idx) as [rule|] eqn:Hr; [|lia].
  destruct (decide (is_source g (Rule.target rule))) as [|Hns]; [lia|]. by exists rule.
Qed.

Lemma take_node done r node rest : queue r = node :: rest → reach_ok done [] r →
  reach_ok ({[node]} ∪ done) (default [] (od_get reverse node)) (mkReach (viable r) (pending r) rest).
Proof.
  intros Hq [Hv [Hnd Hd] Hp Hr Hu Hst]. rewrite Hq in *. apply NoDup_cons in Hnd as [Hnew Hnd].
  assert (Hnode : node ∉ done) by (apply Hd; by left).
  assert (Hocc : ∀ idx rule, waiting_rule idx rule →
    occurrences idx (default [] (od_get reverse node)) = occurrences node (Rule.prerequisites rule)).
  { intros idx rule [Hrule Hns]. rewrite (tb_reverse _ _ _ Htables), Hrule. by rewrite decide_False. }
  assert (Hmiss : ∀ rule, missing done (Rule.prerequisites rule) =
    (missing ({[node]} ∪ done) (Rule.prerequisites rule) + occurrences node (Rule.prerequisites rule))%nat).
  { intros rule. by apply missing_step. }
  split; cbn [viable EdgePaths.pending queue].
  - intros n. rewrite Hv. set_solver.
  - split; [done|]. intros n Hn [->%elem_of_singleton|Hin]%elem_of_union; [done|]. by apply (Hd n); [right|].
  - intros idx rule Hw. rewrite (Hp _ _ Hw), (Hmiss rule), (Hocc _ _ Hw). do 2 f_equal. cbn. lia.
  - intros idx rule Hw Hpre Hm Ho. rewrite (Hocc _ _ Hw) in Ho. apply (Hr _ _ Hw Hpre); [|done].
    rewrite (Hmiss rule). lia.
  - done.
  - done.
Qed.

Lemma reach_loop_ok fuel : ∀ past w r w' r', reach_ok past [] r →
  reach_loop g reverse fuel w r = Ok (w', r') → ∃ past, reach_ok past [] r' ∧ queue r' = [].
Proof.
  induction fuel as [|fuel IH]; intros past w r w' r' Hok; cbn;
    (destruct (queue r) as [|node rest] eqn:Hq; [intros [= <- <-]; by exists past|]); [done|].
  intros (w1 & [_ ->]%spend_work_Ok & ([w2 r2] & Hf & Hl)%bind_Ok)%bind_Ok.
  pose proof (take_node past _ _ _ Hq Hok) as Hok1.
  destruct (settles_ok _ _ _ _ _ _ (listed_waits node) Hok1 Hf) as [Hok2 _]. by eapply IH.
Qed.

(** Every turn uses work, so the fuel is enough. *)
Lemma reach_loop_fuel fuel : ∀ past w r, 0 ≤ w → (Z.to_nat w < fuel)%nat → reach_ok past [] r →
  reach_loop g reverse fuel w r ≠ Err (OtherError "out of fuel").
Proof.
  induction fuel as [|fuel IH]; intros past w r H0 Hw Hok; [lia|]. cbn.
  destruct (queue r) as [|node rest] eqn:Hq; [done|].
  intros [Hs|(w1 & [Hle ->]%spend_work_Ok & Hl)]%bind_Err.
  { unfold spend_work in Hs. apply bind_Err in Hs as [[_ ?]%raise_if_Err|(? & _ & ?)]; done. }
  pose proof (take_node past _ _ _ Hq Hok) as Hok1.
  apply bind_Err in Hl as [Hs|([w2 r2] & Hf & Hl)].
  - revert Hs. generalize (w - 1) as w1, (mkReach (viable r) (pending r) rest) as r1. clear.
    induction (default [] _) as [|idx l IHl]; intros w1 r1; [done|]. cbn.
    intros [Hs|([? ?] & _ & Hs)]%bind_Err; [|by eapply IHl]. unfold settle in Hs.
    apply bind_Err in Hs as [Hs|(? & _ & Hs)].
    + unfold spend_work in Hs. apply bind_Err in Hs as [[_ ?]%raise_if_Err|(? & _ & ?)]; done.
    + repeat case_match; done.
  - destruct (settles_ok _ _ _ _ _ _ (listed_waits node) Hok1 Hf) as (Hok2 & Hle2 & Hpos).
    by eapply (IH _ w2); [lia|lia|done|].
Qed.
End loop.

(** The nodes some sources of the direction determine. *)
Inductive derivable : string → Prop :=
  | derivable_source n s : od_get (sources g) n = Some s → usable direction s = true → derivable n
  | derivable_rule idx rule : waiting_rule idx rule → Rule.prerequisites rule ≠ [] →
      (∀ c, c ∈ Rule.prerequisites rule → derivable c) → derivable (Rule.target rule).

Definition viable_ok (V : gset string) : Prop :=
  (∀ n, derivable n → n ∈ V) ∧ (∀ n s, n ∈ V → od_get (sources g) n = Some s → usable direction s = true).

Context (Hkeys : NoDup (od_keys (sources g))).

Definition start_nodes : list string := (filter (λ ks, usable direction ks.2 = true) (sources g)).*1.

Lemma start_nodes_elem n : n ∈ start_nodes ↔ ∃ s, od_get (sources g) n = Some s ∧ usable direction s = true.
Proof.
  unfold start_nodes. rewrite list_elem_of_fmap. setoid_rewrite list_elem_of_filter. split.
  - intros ([k s] & -> & Hu & Hin). exists s. split; [by apply od_elem_get|done].
  - intros (s & Hs%od_get_elem & Hu). by exists (n, s).
Qed.

Lemma start_nodes_NoDup : NoDup start_nodes.
Proof.
  unfold start_nodes, od_keys in *. revert Hkeys. induction (sources g) as [|[k s] l IH]; [done|].
  rewrite filter_cons. cbn. intros [Hk Hl]%NoDup_cons. case_decide; [|by apply IH]. cbn.
  apply NoDup_cons. split; [|by apply IH]. intros ([k' s'] & -> & [_ Hin]%list_elem_of_filter)%list_elem_of_fmap.
  apply Hk. by apply (list_elem_of_fmap_2 fst _ (k', s')).
Qed.

Lemma reach_start_ok pending0 reverse : tables_ok (_ordered_rules g) pending0 reverse →
  reach_ok ∅ [] (mkReach (list_to_set start_nodes) pending0 start_nodes).
Proof.
  intros Ht. split; cbn [viable pending queue].
  - intros n. rewrite elem_of_list_to_set. set_solver.
  - split; [apply start_nodes_NoDup|set_solver].
  - intros idx rule [Hr Hns]. rewrite (tb_pending _ _ _ Ht _ _ Hr Hns). do 2 f_equal. unfold missing.
    cbn. rewrite Nat.add_0_r. f_equal. symmetry. induction (Rule.prerequisites rule) as [|c l IH]; [done|].
    rewrite filter_cons, decide_True by set_solver. by rewrite IH.
  - intros idx rule _ Hpre Hm. destruct Hpre. destruct (Rule.prerequisites rule) as [|c l]; [done|].
    rewrite missing_zero in Hm. specialize (Hm c ltac:(by left)). set_solver.
  - intros n s (s' & Hs & Hu)%elem_of_list_to_set%start_nodes_elem Hs'. by simplify_eq.
  - intros n s Hs Hu. apply elem_of_list_to_set, start_nodes_elem. by exists s.
Qed.

Lemma reached_all past r : reach_ok past [] r → queue r = [] → ∀ n, derivable n → n ∈ viable r.
Proof.
  intros [Hv _ _ Hr _ Hs] Hq n Hd. induction Hd as [n s Hn Hu|idx rule Hw Hpre _ IH]; [by eapply Hs|].
  apply (Hr _ _ Hw Hpre); [|done]. apply missing_zero. intros c Hc. specialize (IH c Hc).
  rewrite Hv, Hq in IH. set_solver.
Qed.

Lemma find_viable_ok w w' V : find_viable g direction w = Ok (w', V) → viable_ok V.
Proof.
  unfold find_viable. intros ([[w1 p1] rv1] & Ht%index_rules_ok & ([w2 r2] & Hl & [= <- <-])%bind_Ok)%bind_Ok.
  destruct (reach_loop_ok _ _ Ht _ _ _ _ _ _ (reach_start_ok _ _ Ht) Hl) as (past & Hok & Hq).
  split; [by eapply reached_all|apply Hok].
Qed.

Lemma index_rules_work rules w w' p' rv' : 0 ≤ w →
  fold_result (index_rule g) (w, ∅, []) (imap pair rules) = Ok (w', p', rv') → 0 ≤ w'.
Proof.
  intros H0. revert w' p' rv'. induction rules as [|rule rules IH] using rev_ind; intros w' p' rv'.
  { by intros [= <- <- <-]. }
  rewrite imap_app, fold_result_app. intros ([[w1 p1] rv1] & H1%IH & H2)%bind_Ok. cbn in H2.
  apply bind_Ok in H2 as ([[w2 p2] rv2] & (w3 & [Hle ->]%spend_work_Ok & H2)%bind_Ok & [= <- <- <-]).
  case_bool_decide; [injection H2 as <- <- <-; lia|].
  apply bind_Ok in H2 as (w4 & H2%spend_all_Ok & [= <- <- <-]); lia.
Qed.

Lemma spend_work_Err a w e : spend_work a w = Err e → e = ValueError "dependency edge path work limit exceeded".
Proof. unfold spend_work. by intros [[_ ?]%raise_if_Err|(? & _ & ?)]%bind_Err. Qed.

(** The loop's fuel is enough. *)
Lemma find_viable_fuel w : 0 ≤ w → find_viable g direction w ≠ Err (OtherError "out of fuel").
Proof.
  intros Hw. unfold find_viable. intros [Hi|([[w1 p1] rv1] & Ht & Hl)]%bind_Err.
  - enough (OtherError "out of fuel" = ValueError "dependency edge path work limit exceeded") by done.
    eapply (fold_result_raises (λ e, e = _)); [|exact Hi]. intros [[w1 p1] rv1] [idx rule] e. unfold index_rule.
    intros [?%spend_work_Err|(w2 & _ & Hr)]%bind_Err; [done|]. case_bool_decide; [done|].
    apply bind_Err in Hr as [Hr|(? & _ & ?)]; [|done].
    eapply (fold_result_raises (λ e, e = _)); [|exact Hr]. by intros ? ? ? ?%spend_work_Err.
  - pose proof (index_rules_ok _ _ _ _ _ Ht) as Htb. pose proof (index_rules_work _ _ _ _ _ Hw Ht) as Hw1.
    apply bind_Err in Hl as [Hl|(? & _ & ?)]; [|done].
    by eapply (reach_loop_fuel _ _ Htb _ _ _ _ Hw1 _ (reach_start_ok _ _ Htb)).
  Unshelve. lia.
Qed.
End reach.

(** ** What is yielded *)

Section yields.
Context (g : DependencyGraph) (direction : string) (V : gset string).
Context (Hviable : viable_ok g direction V).
Context (Hindices : ∀ n idx, idx ∈ indices_of g n ↔
  ∃ rule, _ordered_rules g !! idx = Some rule ∧ Rule.target rule = n).
Implicit Types (n m c : string) (ch : gmap string nat).

(** One step down the rules chosen. *)
Definition chosen_step ch n c : Prop :=
  ¬ is_source g n ∧ ∃ idx rule, ch !! n = Some idx ∧ _ordered_rules g !! idx = Some rule ∧
    c ∈ Rule.prerequisites rule.

Inductive chosen_proof ch : string → Prop :=
  | chosen_source n s : od_get (sources g) n = Some s → usable direction s = true → chosen_proof ch n
  | chosen_rule n idx rule : ¬ is_source g n → ch !! n = Some idx → _ordered_rules g !! idx = Some rule →
      Rule.target rule = n → Rule.prerequisites rule ≠ [] →
      (∀ c, c ∈ Rule.prerequisites rule → chosen_proof ch c) → chosen_proof ch n.

(** The edge belongs to the rule chosen for a node below [n]. *)
Definition chosen_edge ch n (e : DependencyEdge) : Prop :=
  ∃ m idx rule, rtc (chosen_step ch) n m ∧ ¬ is_source g m ∧ ch !! m = Some idx ∧
    _ordered_rules g !! idx = Some rule ∧ e ∈ rule_edges idx rule.

Record yields ch n (X : gset string) (E : gset DependencyEdge) : Prop := {
  ys_proof : chosen_proof ch n;
  ys_sources m : m ∈ X ↔ rtc (chosen_step ch) n m ∧ is_source g m;
  ys_edges e : e ∈ E ↔ chosen_edge ch n e }.

Lemma chosen_proof_step ch n c : chosen_proof ch n → chosen_step ch n c → chosen_proof ch c.
Proof.
  intros [n' s Hs Hu|n' idx rule Hns Hc Hr Ht Hp Hall] [Hns' (idx' & rule' & Hc' & Hr' & Hin)].
  - destruct Hns'. by eexists.
  - simplify_eq. by apply Hall.
Qed.

Lemma chosen_proof_reach ch n m : chosen_proof ch n → rtc (chosen_step ch) n m → chosen_proof ch m.
Proof. intros Hp Hr. induction Hr; eauto using chosen_proof_step. Qed.

Lemma chosen_proof_choice ch n : chosen_proof ch n → ¬ is_source g n →
  ∃ idx rule, ch !! n = Some idx ∧ _ordered_rules g !! idx = Some rule ∧ Rule.target rule = n ∧
    Rule.prerequisites rule ≠ [].
Proof. intros [? s Hs ?|? idx rule ? ? ? ? ? _] Hns; [destruct Hns; by eexists|by exists idx, rule]. Qed.

Lemma chosen_proof_mono ch ch' n : ch ⊆ ch' → chosen_proof ch n → chosen_proof ch' n.
Proof.
  intros Hsub. induction 1 as [n s Hs Hu|n idx rule Hns Hc Hr Ht Hp _ IH]; [by eapply chosen_source|].
  eapply chosen_rule; try done. by eapply lookup_weaken.
Qed.

Lemma chosen_step_mono ch ch' n c : ch ⊆ ch' → chosen_proof ch n → chosen_step ch' n c ↔ chosen_step ch n c.
Proof.
  intros Hsub Hp. split; intros [Hns (idx & rule & Hc & Hr & Hin)]; (split; [done|]); exists idx, rule.
  - destruct (chosen_proof_choice _ _ Hp Hns) as (idx' & rule' & Hc' & _).
    rewrite (lookup_weaken _ _ _ _ Hc' Hsub) in Hc. by simplify_eq.
  - split; [by eapply lookup_weaken|done].
Qed.

Lemma chosen_reach_mono ch ch' n m : ch ⊆ ch' → chosen_proof ch n →
  rtc (chosen_step ch') n m ↔ rtc (chosen_step ch) n m.
Proof.
  intros Hsub Hp. split; intros Hr; revert Hp; induction Hr as [x|x y z Hxy _ IH]; intros Hp; [done| |done|].
  - rewrite (chosen_step_mono ch ch') in Hxy by done. eapply rtc_l; [done|]. apply IH.
    by eapply chosen_proof_step.
  - eapply rtc_l; [by apply (chosen_step_mono ch ch')|]. apply IH. by eapply chosen_proof_step.
Qed.

Lemma chosen_edge_mono ch ch' n e : ch ⊆ ch' → chosen_proof ch n → chosen_edge ch' n e ↔ chosen_edge ch n e.
Proof.
  intros Hsub Hp. unfold chosen_edge. split; intros (m & idx & rule & Hr & Hns & Hc & Hrest); exists m, idx, rule.
  - rewrite (chosen_reach_mono ch ch') in Hr by done. split; [done|]. split; [done|]. split; [|done].
    destruct (chosen_proof_choice ch m) as (idx' & rule' & Hc' & _); [by eapply chosen_proof_reach|done|].
    rewrite (lookup_weaken _ _ _ _ Hc' Hsub) in Hc. by simplify_eq.
  - rewrite (chosen_reach_mono ch ch') by done. split; [done|]. split; [done|]. split; [|done].
    by eapply lookup_weaken.
Qed.

Lemma yields_mono ch ch' n X E : ch ⊆ ch' → yields ch n X E → yields ch' n X E.
Proof.
  intros Hsub [Hp Hs He]. split; [by eapply chosen_proof_mono| |].
  - intros m. rewrite Hs, (chosen_reach_mono ch ch') by done. done.
  - intros e. rewrite He, (chosen_edge_mono ch ch') by done. done.
Qed.

Definition good_walk (walk : string → gmap string nat → list Yield) : Prop :=
  ∀ c ch y, y ∈ walk c ch → ch ⊆ y.2 ∧ yields y.2 c y.1.1 y.1.2.

Definition prerequisite_edge index rule (ci : nat) c : DependencyEdge :=
  mkEdge (Z.of_nat index) (Z.of_nat ci) c (Rule.target rule) (Rule.kind rule).

(** A yield of the rest of a rule's prerequisites. *)
Record rest_yields index rule (children : list (nat * string)) (y y' : Yield) : Prop := {
  ry_choices : y.2 ⊆ y'.2;
  ry_proof ci c : (ci, c) ∈ children → chosen_proof y'.2 c;
  ry_sources m : m ∈ y'.1.1 ↔ m ∈ y.1.1 ∨ ∃ ci c, (ci, c) ∈ children ∧ rtc (chosen_step y'.2) c m ∧ is_source g m;
  ry_edges e : e ∈ y'.1.2 ↔ e ∈ y.1.2 ∨ ∃ ci c, (ci, c) ∈ children ∧
    (e = prerequisite_edge index rule ci c ∨ chosen_edge y'.2 c e) }.

Lemma enumerate_children_yields walk index rule children : good_walk walk → ∀ y y',
  y' ∈ enumerate_children walk index rule children y → rest_yields index rule children y y'.
Proof.
  intros Hwalk. induction children as [|[ci c] children IH]; intros [[X E] ch] y' Hin; cbn in Hin.
  { apply list_elem_of_singleton in Hin as ->. split; [done|..]; set_solver. }
  apply list_elem_of_bind in Hin as ([[cX cE] cch] & Hin & Hc).
  destruct (Hwalk _ _ _ Hc) as [Hsub Hy]. cbn [fst snd] in Hsub, Hy.
  destruct (IH _ _ Hin) as [Hch Hproof Hs He]. cbn [fst snd] in Hch, Hs, He.
  destruct (yields_mono _ _ _ _ _ Hch Hy) as [Hp HX HE]. split; cbn [fst snd].
  - by etrans.
  - intros ci' c' [[= -> ->]|Hin']%elem_of_cons; [done|]. by eapply Hproof.
  - intros m. rewrite Hs, elem_of_union, HX. setoid_rewrite elem_of_cons. split.
    + intros [[?|?]|(ci' & c' & ? & ?)]; [by left|right; exists ci, c; by split; [left|]|].
      right. exists ci', c'. by split; [right|].
    + intros [?|(ci' & c' & [[= -> ->]|?] & ?)]; [by left; left|by left; right|]. right. by exists ci', c'.
  - intros e. rewrite He, !elem_of_union, elem_of_singleton, HE. setoid_rewrite elem_of_cons.
    fold (prerequisite_edge index rule ci c). split.
    + intros [[[?|?]| ->]|(ci' & c' & ? & ?)]; [by left|right; exists ci, c; split; [by left|by right]| |].
      * right. exists ci, c. split; [by left|by left].
      * right. exists ci', c'. by split; [right|].
    + intros [?|(ci' & c' & [[= -> ->]|?] & [->|?])]; [by left; left; left|by left; right|by left; left; right| |].
      * right. exists ci', c'. split; [done|by left].
      * right. exists ci', c'. split; [done|by right].
Qed.

Lemma prerequisites_pairs (l : list string) ci c : (ci, c) ∈ imap pair l ↔ l !! ci = Some c.
Proof.
  rewrite list_elem_of_lookup. setoid_rewrite list_lookup_imap_Some. split.
  - by intros (i & x & Hx & [= -> ->]).
  - intros Hl. by exists ci, c.
Qed.

(** Below a node is the node and what is below its prerequisites. *)
Lemma chosen_reach_unfold ch n idx rule m : ¬ is_source g n → ch !! n = Some idx →
  _ordered_rules g !! idx = Some rule →
  rtc (chosen_step ch) n m ↔ m = n ∨ ∃ c, c ∈ Rule.prerequisites rule ∧ rtc (chosen_step ch) c m.
Proof.
  intros Hns Hc Hr. split.
  - intros [->|(c & (_ & idx' & rule' & Hc' & Hr' & Hin) & Hreach)]%rtc_inv; [by left|]. simplify_eq.
    right. by exists c.
  - intros [->|(c & Hin & Hreach)]; [done|]. eapply rtc_l; [|done]. split; [done|]. by exists idx, rule.
Qed.

Lemma rule_yields ch n idx rule y : ¬ is_source g n → _ordered_rules g !! idx = Some rule →
  Rule.target rule = n → Rule.prerequisites rule ≠ [] → ch !! n = Some idx →
  rest_yields idx rule (imap pair (Rule.prerequisites rule)) (∅, ∅, ch) y → yields y.2 n y.1.1 y.1.2.
Proof.
  intros Hns Hr Ht Hp Hc [Hch Hproof Hs He]. cbn [fst snd] in *.
  assert (Hc' : y.2 !! n = Some idx) by by eapply lookup_weaken.
  assert (Hpairs : ∀ c, c ∈ Rule.prerequisites rule ↔ ∃ ci, (ci, c) ∈ imap pair (Rule.prerequisites rule)).
  { intros c. rewrite list_elem_of_lookup. by setoid_rewrite prerequisites_pairs. }
  split.
  - eapply chosen_rule; try done. intros c (ci & Hin)%Hpairs. by eapply Hproof.
  - intros m. rewrite Hs, (chosen_reach_unfold _ _ _ _ m Hns Hc' Hr). setoid_rewrite Hpairs. split.
    + intros [?%elem_of_empty|(ci & c & Hin & Hm & Hsrc)]; [done|]. split; [|done]. right. eauto.
    + intros [[->|(c & [ci Hin] & Hm)] Hsrc]; [by destruct Hns|]. right. by exists ci, c.
  - intros e. rewrite He. split.
    + intros [?%elem_of_empty|(ci & c & Hin & [->|(m & idx' & rule' & Hm & Hrest)])]; [done| |].
      * exists n, idx, rule. split; [done|]. split; [done|]. split; [done|]. split; [done|].
        apply rule_edges_elem. exists ci, c. split; [by apply prerequisites_pairs|done].
      * exists m, idx', rule'. split; [|done]. apply (chosen_reach_unfold _ _ _ _ m Hns Hc' Hr). right.
        exists c. split; [apply Hpairs; by exists ci|done].
    + intros (m & idx' & rule' & Hm & Hns' & Hc2 & Hr2 & Hin). right.
      apply (chosen_reach_unfold _ _ _ _ m Hns Hc' Hr) in Hm as [->|(c & [ci Hci]%Hpairs & Hm)].
      * simplify_eq. apply rule_edges_elem in Hin as (ci & c & Hl & ->). exists ci, c.
        split; [by apply prerequisites_pairs|by left].
      * exists ci, c. split; [done|]. right. by exists m, idx', rule'.
Qed.

Lemma source_reach ch n m : is_source g n → rtc (chosen_step ch) n m ↔ m = n.
Proof. intros Hs. split; [|by intros ->]. by intros [->|(c & [Hns _] & _)]%rtc_inv. Qed.

Lemma source_yields ch n s : od_get (sources g) n = Some s → usable direction s = true → yields ch n {[n]} ∅.
Proof.
  intros Hs Hu. assert (Hsrc : is_source g n) by by exists s. split.
  - by eapply chosen_source.
  - intros m. rewrite (source_reach _ _ _ Hsrc), elem_of_singleton. split; [by intros ->|by intros [? _]].
  - intros e. split; [by intros ?%elem_of_empty|].
    by intros (m & idx & rule & ->%(source_reach _ _ _ Hsrc) & Hns & _).
Qed.

Lemma choice_extends ch n idx rule : skipped V n ch idx rule = false → ch ⊆ <[n := idx]> ch.
Proof.
  unfold skipped. intros [Hsk%bool_decide_eq_false _]%orb_false_iff. apply map_subseteq_spec. intros m i Hm.
  rewrite lookup_insert. case_decide as Hn; [|done]. subst m. f_equal.
  destruct (decide (idx = i)) as [|Hne]; [done|]. destruct Hsk. rewrite Hm. split; [by eexists|congruence].
Qed.

Lemma enumerate_yields fuel : ∀ n seen ch y,
  y ∈ enumerate g V fuel n seen ch → ch ⊆ y.2 ∧ yields y.2 n y.1.1 y.1.2.
Proof.
  induction fuel as [|fuel IH]; intros n seen ch y; cbn -[imap enumerate_children];
    (case_bool_decide as Hv; cbn [negb]; [|by intros ?%not_elem_of_nil]);
    (case_bool_decide as Hs;
      [destruct Hs as [s Hs]; intros ->%list_elem_of_singleton; split;
        [done|eapply source_yields; [done|by eapply Hviable]]|]); [by intros ?%not_elem_of_nil|].
  case_bool_decide; [by intros ?%not_elem_of_nil|].
  intros (idx & Hy & (rule & Hr & Ht)%Hindices)%list_elem_of_bind. rewrite Hr in Hy.
  destruct (skipped _ _ _ _ _) eqn:Hsk; [by apply not_elem_of_nil in Hy|]. cbn [orb] in Hy.
  case_bool_decide as Hp; [by apply not_elem_of_nil in Hy|].
  apply enumerate_children_yields in Hy; [|intros c ch' y'; apply IH].
  split; [etrans; [by eapply choice_extends|apply Hy]|].
  eapply rule_yields; try done. by rewrite lookup_insert_eq.
Qed.

(** *** A yield is a proof *)

Lemma sorted_edges_elem E e : e ∈ sorted_edges E ↔ e ∈ E.
Proof. unfold sorted_edges. by rewrite merge_sort_Permutation, elem_of_elements. Qed.

Section yielded.
Context (ch : gmap string nat) (target : string) (X : gset string) (E : gset DependencyEdge).
Context (Hy : yields ch target X E).

Lemma below_proved n : rtc (chosen_step ch) target n → chosen_proof ch n.
Proof. apply chosen_proof_reach, (ys_proof _ _ _ _ Hy). Qed.

Lemma yielded_selects n idx rule : selects g (sorted_edges E) n idx rule ↔
  rtc (chosen_step ch) target n ∧ ¬ is_source g n ∧ ch !! n = Some idx ∧ _ordered_rules g !! idx = Some rule.
Proof.
  split.
  - intros (Hr & <- & e & (m & idx' & rule' & Hm & Hns & Hc & Hr' & He')%sorted_edges_elem%(ys_edges _ _ _ _ Hy) & He).
    apply rule_edges_elem in He as (ci & c & _ & ->). apply rule_edges_elem in He' as (ci' & c' & _ & [= Hi _ _ _ _]).
    apply Nat2Z.inj in Hi as ->. simplify_eq.
    destruct (chosen_proof_choice _ _ (below_proved _ Hm) Hns) as (i2 & r2 & Hc2 & Hr2 & Ht & _).
    by simplify_eq.
  - intros (Hm & Hns & Hc & Hr).
    destruct (chosen_proof_choice _ _ (below_proved _ Hm) Hns) as (idx' & rule' & Hc' & Hr' & Ht & Hp).
    assert (idx' = idx) as -> by congruence. assert (rule' = rule) as -> by congruence. clear Hc' Hr'.
    split; [done|]. split; [done|]. destruct (Rule.prerequisites rule) as [|c l] eqn:Hpre; [done|].
    assert (He : prerequisite_edge idx rule 0 c ∈ rule_edges idx rule).
    { apply rule_edges_elem. exists 0%nat, c. by rewrite Hpre. }
    exists (prerequisite_edge idx rule 0 c). split; [|done]. apply sorted_edges_elem, (ys_edges _ _ _ _ Hy).
    by exists n, idx, rule.
Qed.

Lemma yielded_step n c : step g (sorted_edges E) n c ↔ rtc (chosen_step ch) target n ∧ chosen_step ch n c.
Proof.
  unfold step. setoid_rewrite yielded_selects. split.
  - intros (Hns & idx & rule & (Hm & _ & Hc & Hr) & Hin). split; [done|]. split; [done|]. by exists idx, rule.
  - intros (Hm & Hns & idx & rule & Hc & Hr & Hin). split; [done|]. by exists idx, rule.
Qed.

Lemma yielded_reach m : rtc (step g (sorted_edges E)) target m ↔ rtc (chosen_step ch) target m.
Proof.
  split; revert m; apply rtc_ind_r; try done.
  - intros y z _ [_ Hyz]%yielded_step IH. by eapply rtc_r.
  - intros y z Hy' Hyz IH. eapply rtc_r; [exact IH|]. by apply yielded_step.
Qed.

Lemma yielded_proved n : rtc (chosen_step ch) target n → proved g direction (sorted_edges E) n.
Proof.
  intros Hm. pose proof (below_proved n Hm) as Hp.
  induction Hp as [n s Hs Hu|n idx rule Hns Hc Hr Ht Hp _ IH]; [by eapply proved_source|].
  eapply proved_rule; [done|by apply yielded_selects|]. intros c Hin. apply IH; [done|].
  eapply rtc_r; [done|]. split; [done|]. by exists idx, rule.
Qed.

Lemma yielded_edges e : e ∈ sorted_edges E → ∃ idx rule,
  rtc (chosen_step ch) target (Edge.target e) ∧ ¬ is_source g (Edge.target e) ∧ ch !! Edge.target e = Some idx ∧
  _ordered_rules g !! idx = Some rule ∧ e ∈ rule_edges idx rule.
Proof.
  intros (m & idx & rule & Hm & Hns & Hc & Hr & He)%sorted_edges_elem%(ys_edges _ _ _ _ Hy).
  destruct (chosen_proof_choice _ _ (below_proved _ Hm) Hns) as (idx' & rule' & Hc' & Hr' & Ht & _).
  assert (idx' = idx) as -> by congruence. assert (rule' = rule) as -> by congruence.
  exists idx, rule. assert (Edge.target e = m) as ->; [|done].
  apply rule_edges_elem in He as (ci & c & _ & ->). exact Ht.
Qed.

Lemma rule_edges_index idx rule e : e ∈ rule_edges idx rule → Edge.rule_index e = Z.of_nat idx.
Proof. by intros (ci & c & _ & ->)%rule_edges_elem. Qed.

Lemma yielded_proof_dag : proof_dag g direction (mkPath target (sorted_names X) (sorted_edges E)).
Proof.
  split; cbn [Path.edges Path.target Path.source_ids].
  - intros e (idx & rule & _ & _ & _ & Hr & He)%yielded_edges. by exists idx, rule.
  - intros e e' (idx & rule & _ & _ & Hc & _ & He)%yielded_edges (idx' & rule' & _ & _ & Hc' & _ & He')%yielded_edges Ht.
    rewrite (rule_edges_index _ _ _ He), (rule_edges_index _ _ _ He'). rewrite Ht in Hc. by simplify_eq.
  - by apply yielded_proved.
  - intros n. by rewrite sorted_names_elem, (ys_sources _ _ _ _ Hy), yielded_reach.
  - intros e (idx & rule & Hm & Hns & _)%yielded_edges. by rewrite yielded_reach.
  - intros n idx rule Hm Hns (_ & _ & Hc & Hr)%yielded_selects e He. rewrite yielded_reach in Hm.
    apply sorted_edges_elem, (ys_edges _ _ _ _ Hy). by exists n, idx, rule.
Qed.
End yielded.

(** *** Every proof within the depth is yielded *)

(** A proof of at most [k] rules one below the other. *)
Fixpoint proved_in (k : nat) (edges : list DependencyEdge) n : Prop :=
  (∃ s, od_get (sources g) n = Some s ∧ usable direction s = true) ∨
  match k with
  | O => False
  | S k => ¬ is_source g n ∧ ∃ idx rule, selects g edges n idx rule ∧
      ∀ c, c ∈ Rule.prerequisites rule → proved_in k edges c
  end.

Lemma selects_nonempty edges n idx rule : selects g edges n idx rule → Rule.prerequisites rule ≠ [].
Proof.
  intros (_ & _ & e & _ & (ci & c & Hl & _)%rule_edges_elem) Hnil. by rewrite Hnil in Hl.
Qed.

Lemma proved_in_derivable k edges n : proved_in k edges n → derivable g direction n.
Proof.
  revert n. induction k as [|k IH]; intros n; cbn; (intros [(s & Hs & Hu)|Hp]; [by eapply derivable_source|]); [done|].
  destruct Hp as (Hns & idx & rule & Hsel & Hall). destruct (Hsel) as (Hr & <- & _).
  apply (derivable_rule g direction idx rule); [by split|by eapply selects_nonempty|auto].
Qed.

Section complete.
Context (edges : list DependencyEdge) (sel : Selection) (target : string).
Context (Hsel : selection_ok g edges sel) (Hproved : proved g direction edges target).

Definition follows ch : Prop := ∀ n i, ch !! n = Some i → ∃ rule, selects g edges n i rule.

Lemma enumerate_children_complete walk idx rule children : (∀ ci c, (ci, c) ∈ children →
    ∀ ch, follows ch → ∃ y, y ∈ walk c ch ∧ follows y.2) →
  ∀ y, follows y.2 → ∃ y', y' ∈ enumerate_children walk idx rule children y ∧ follows y'.2.
Proof.
  induction children as [|[ci c] children IH]; intros Hwalk [[X E] ch] Hch; cbn.
  { eexists. split; [by left|done]. }
  destruct (Hwalk ci c ltac:(by left) ch Hch) as ([[cX cE] cch] & Hy & Hf).
  assert (Hrest : ∀ ci c, (ci, c) ∈ children → ∀ ch, follows ch → ∃ y, y ∈ walk c ch ∧ follows y.2)
    by (intros ci' c' Hin; apply (Hwalk ci' c'); by right).
  set (e := mkEdge (Z.of_nat idx) (Z.of_nat ci) c (Rule.target rule) (Rule.kind rule)).
  set (sources := (X ∪ cX : gset string)). set (found := (E ∪ cE ∪ {[e]} : gset DependencyEdge)).
  destruct (IH Hrest (sources, found, cch) Hf) as (y' & Hy' & Hf').
  exists y'. split; [|done]. apply list_elem_of_bind. exists (cX, cE, cch). split; [exact Hy'|exact Hy].
Qed.

Lemma enumerate_complete k : ∀ fuel n seen ch, (k ≤ fuel)%nat → proved_in k edges n →
  rtc (step g edges) target n → follows ch → (∀ m, m ∈ seen → tc (step g edges) m n) →
  ∃ y, y ∈ enumerate g V fuel n seen ch ∧ follows y.2.
Proof.
  induction k as [|k IH]; intros fuel n seen ch Hk Hp Hreach Hch Hseen;
    assert (Hv : n ∈ V) by (by eapply Hviable, proved_in_derivable).
  all: assert (Hleaf : is_source g n → ∃ y, y ∈ enumerate g V fuel n seen ch ∧ follows y.2)
    by (intros Hs; exists ({[n]}, ∅, ch); split; [|done];
        destruct fuel; cbn -[imap enumerate_children]; rewrite !bool_decide_eq_true_2 by done; cbn; by left).
  { destruct Hp as [(s & Hs & _)|[]]. apply Hleaf. by exists s. }
  destruct (decide (is_source g n)) as [Hs|Hns]; [by apply Hleaf|]. clear Hleaf.
  destruct Hp as [(s & Hs & _)|(_ & idx & rule & Hrule & Hall)]; [destruct Hns; by exists s|].
  destruct fuel as [|fuel]; [lia|]. cbn -[imap enumerate_children].
  rewrite (bool_decide_eq_true_2 (n ∈ V)), (bool_decide_eq_false_2 (is_Some _)) by done. cbn [negb].
  rewrite bool_decide_eq_false_2.
  2: { intros Hin. apply (proved_acyclic g direction edges sel Hsel n); [|by apply Hseen].
       by eapply proved_reach. }
  assert (Hstep : ∀ c, c ∈ Rule.prerequisites rule → step g edges n c) by (split; [done|by exists idx, rule]).
  destruct (Hrule) as (Hr & Ht & _).
  destruct (enumerate_children_complete (λ c, enumerate g V fuel c ({[n]} ∪ seen)) idx rule
    (imap pair (Rule.prerequisites rule))) with (y := (∅ : gset string, ∅ : gset DependencyEdge, <[n := idx]> ch))
    as (y & Hy & Hf).
  { intros ci c Hin%prerequisites_pairs%list_elem_of_lookup_2 ch' Hch'.
    apply IH; [lia|by apply Hall|eapply rtc_r; [done|by apply Hstep]|done|].
    intros m [->%elem_of_singleton|Hm]%elem_of_union; [by apply tc_once, Hstep|].
    eapply tc_r; [by apply Hseen|by apply Hstep]. }
  { intros m i. cbn. rewrite lookup_insert. case_decide as Hn; [subst m|apply Hch].
    intros [= <-]. by exists rule. }
  exists y. split; [|done]. apply list_elem_of_bind. exists idx. split.
  2: { apply Hindices. by exists rule. }
  rewrite Hr. rewrite (bool_decide_eq_false_2 (_ = [])) by by eapply selects_nonempty.
  destruct (skipped V n ch idx rule) eqn:Hsk; [|done]. exfalso. unfold skipped in Hsk.
  apply orb_true_iff in Hsk as [Hsk%bool_decide_eq_true|Hsk].
  - destruct Hsk as [[i Hi] Hne]. destruct (Hch _ _ Hi) as [rule' Hrule'].
    destruct (selects_unique g edges sel Hsel _ _ _ _ _ Hrule Hrule') as [-> _]. by rewrite Hi in Hne.
  - apply existsb_exists in Hsk as (c & Hc & Hn). apply negb_true_iff, bool_decide_eq_false in Hn.
    apply list_elem_of_In in Hc. destruct Hn. by eapply Hviable, proved_in_derivable, Hall.
Qed.
End complete.

(** *** Canonical order *)

Lemma edge_lt_key e e' : edge_key_le e e' → edge_key e ≠ edge_key e' → edge_lt e e'.
Proof.
  unfold edge_key_le, edge_lt, edge_key. intros Hle Hne.
  destruct (Z.lt_trichotomy (Edge.rule_index e) (Edge.rule_index e')) as [?|[Hi|?]]; [by left| |tauto].
  destruct (Z.lt_trichotomy (Edge.prerequisite_index e) (Edge.prerequisite_index e')) as [?|[Hp|?]];
    [by right| |exfalso; apply Hle; by right].
  by rewrite Hi, Hp in Hne.
Qed.

#[local] Instance edge_key_le_total : Total edge_key_le.
Proof. intros a b. unfold edge_key_le, edge_lt. lia. Qed.
#[local] Instance edge_key_le_trans : Transitive edge_key_le.
Proof. intros a b c. unfold edge_key_le, edge_lt. lia. Qed.
#[local] Instance edge_lt_trans : Transitive edge_lt.
Proof. intros a b c. unfold edge_lt. lia. Qed.

Lemma edge_lt_le e e' : edge_lt e e' → edge_key_le e e' ∧ e ≠ e'.
Proof. unfold edge_key_le, edge_lt. intros Hl. split; [lia|]. intros ->. lia. Qed.

Lemma canonical_sorted l : canonical l = true ↔ Sorted edge_lt l.
Proof.
  induction l as [|a [|b l] IH]; [by split; [constructor|]|by split; [repeat constructor|]|].
  change (canonical (a :: b :: l)) with (bool_decide (edge_lt a b) && canonical (b :: l)).
  rewrite andb_true_iff, bool_decide_eq_true, IH. split.
  - intros [? ?]. constructor; [done|by constructor].
  - inversion_clear 1 as [|? ? Hs Hh]. by inversion_clear Hh.
Qed.

Lemma strictly_sorted l : StronglySorted edge_key_le l → NoDup l →
  (∀ e e', e ∈ l → e' ∈ l → edge_key e = edge_key e' → e = e') → StronglySorted edge_lt l.
Proof.
  induction 1 as [|a l Hs IH Ha]; intros Hnd Hinj; [constructor|]. apply NoDup_cons in Hnd as [Hnew Hnd].
  constructor; [apply IH; [done|]; intros; apply Hinj; by try right|].
  rewrite Forall_forall in Ha |- *. intros e He. apply edge_lt_key; [by apply Ha|].
  intros Hk. apply Hnew. by rewrite (Hinj a e ltac:(by left) ltac:(by right) Hk).
Qed.

Lemma sorted_edges_canonical E : (∀ e, e ∈ E → graph_edge g e) → canonical (sorted_edges E) = true.
Proof.
  intros HE. apply canonical_sorted, StronglySorted_Sorted, strictly_sorted.
  - unfold sorted_edges. apply StronglySorted_merge_sort; apply _.
  - unfold sorted_edges. rewrite merge_sort_Permutation. apply NoDup_elements.
  - intros e e' He%sorted_edges_elem He'%sorted_edges_elem. apply (graph_edge_key g); by apply HE.
Qed.

Lemma canonical_set l : (∀ e, e ∈ l → graph_edge g e) → canonical l = true → sorted_edges (list_to_set l) = l.
Proof.
  intros Hl Hc%canonical_sorted%Sorted_StronglySorted; [|apply _].
  assert (Hnd : NoDup l).
  { clear Hl. induction Hc as [|a l Hs IH Ha]; constructor; [|done]. intros Hin.
    rewrite Forall_forall in Ha. by destruct (edge_lt_le _ _ (Ha a Hin)) as [_ ?]. }
  apply (StronglySorted_unique_strong edge_key_le).
  - intros e e' He He' H1 H2. apply (graph_edge_key g); [|by apply Hl|].
    + apply sorted_edges_elem, elem_of_list_to_set in He. by apply Hl.
    + destruct (decide (edge_key e = edge_key e')) as [|Hne]; [done|].
      pose proof (edge_lt_key _ _ H1 Hne) as H3. by destruct H2.
  - unfold sorted_edges. apply StronglySorted_merge_sort; apply _.
  - clear Hl Hnd. induction Hc as [|a l Hs IH Ha]; constructor; [done|].
    eapply Forall_impl; [exact Ha|]. intros e. apply edge_lt_le.
  - unfold sorted_edges. rewrite merge_sort_Permutation. by apply elements_list_to_set.
Qed.

(** *** A yield that follows a proof is that proof *)

Section same.
Context (p : DependencyPath) (Hdag : proof_dag g direction p) (sel : Selection)
  (Hsel : selection_ok g (Path.edges p) sel) (y : Yield)
  (Hy : yields y.2 (Path.target p) y.1.1 y.1.2) (Hf : follows (Path.edges p) y.2).

Lemma followed_choice n idx rule : rtc (chosen_step y.2) (Path.target p) n → ¬ is_source g n →
  selects g (Path.edges p) n idx rule ↔ y.2 !! n = Some idx ∧ _ordered_rules g !! idx = Some rule.
Proof.
  intros Hm Hns.
  destruct (chosen_proof_choice _ _ (below_proved _ _ _ _ Hy _ Hm) Hns) as (i & r & Hc & Hr & _ & _).
  destruct (Hf _ _ Hc) as [r' Hs']. split.
  - intros Hs. destruct (selects_unique _ _ _ Hsel _ _ _ _ _ Hs Hs') as [-> ->]. by destruct Hs as [? _].
  - intros [Hc' Hr']. simplify_eq. destruct (Hs') as [Hr2 _]. by simplify_eq.
Qed.

Lemma followed_step n c : rtc (chosen_step y.2) (Path.target p) n →
  step g (Path.edges p) n c ↔ chosen_step y.2 n c.
Proof.
  intros Hm. split.
  - intros [Hns (idx & rule & Hs & Hin)]. apply followed_choice in Hs as [? ?]; [|done|done].
    split; [done|]. by exists idx, rule.
  - intros [Hns (idx & rule & ? & ? & Hin)]. split; [done|]. exists idx, rule.
    split; [by apply followed_choice|done].
Qed.

Lemma followed_reach m : rtc (step g (Path.edges p)) (Path.target p) m ↔ rtc (chosen_step y.2) (Path.target p) m.
Proof.
  split; revert m; apply rtc_ind_r; try done.
  - intros n m _ Hnm IH. eapply rtc_r; [exact IH|]. by apply followed_step.
  - intros n m Hn Hnm IH. eapply rtc_r; [exact IH|]. by apply followed_step.
Qed.

Lemma followed_edges e : e ∈ y.1.2 ↔ e ∈ Path.edges p.
Proof.
  rewrite (ys_edges _ _ _ _ Hy). split.
  - intros (m & idx & rule & Hm & Hns & Hc & Hr & He). apply (pd_complete _ _ _ Hdag m idx rule); [|done| |done].
    + by apply followed_reach.
    + by apply followed_choice.
  - intros He. destruct (pd_used _ _ _ Hdag e He) as [Hm%followed_reach Hns].
    destruct (pd_edges _ _ _ Hdag e He) as (idx & rule & Hr & Hin).
    assert (Ht : Rule.target rule = Edge.target e).
    { by apply rule_edges_elem in Hin as (ci & c & _ & ->). }
    assert (Hs : selects g (Path.edges p) (Edge.target e) idx rule).
    { split; [done|]. split; [done|]. by exists e. }
    apply followed_choice in Hs as [Hc _]; [|done|done]. by exists (Edge.target e), idx, rule.
Qed.

Lemma followed_path : path_shape_ok direction p = true → canonical (Path.edges p) = true →
  path_of (Path.target p) y = p.
Proof.
  intros Hshape Hcan.
  assert (Hids : sorted_names y.1.1 = Path.source_ids p).
  { rewrite (path_shape_sources _ _ Hshape). f_equal. apply set_eq. intros n.
    rewrite elem_of_list_to_set, (ys_sources _ _ _ _ Hy), (pd_sources _ _ _ Hdag n). by rewrite followed_reach. }
  assert (Hedges : sorted_edges y.1.2 = Path.edges p).
  { rewrite <- (canonical_set (Path.edges p)) by (done || apply (pd_edges _ _ _ Hdag)). f_equal. apply set_eq.
    intros e. rewrite elem_of_list_to_set. apply followed_edges. }
  unfold path_of. rewrite Hids, Hedges. by destruct p.
Qed.
End same.
End yields.

(** ** The constructed graph *)

Section graph.
Context (g : DependencyGraph).

Lemma source_dict_keys l : ∀ d, NoDup (od_keys d) →
  NoDup (od_keys (foldl (λ d s, od_set d (Source.source_id s) s) d l)).
Proof. induction l as [|s l IH]; intros d Hd; cbn; [done|]. by apply IH, od_set_NoDup. Qed.

Lemma indices_fold (rules : list DependencyRule) n idx :
  idx ∈ default [] (od_get (foldl (λ d ir, append_to d (Rule.target ir.2) ir.1) [] (imap pair rules)) n) ↔
  ∃ rule, rules !! idx = Some rule ∧ Rule.target rule = n.
Proof.
  induction rules as [|rule rules IH] using rev_ind; cbn.
  { split; [by intros ?%not_elem_of_nil|]. by intros (? & ? & _). }
  rewrite imap_app, foldl_app. cbn. rewrite Nat.add_0_r, od_get_append, elem_of_app, IH. split.
  - intros [(r & Hr & Ht)|Hin].
    + exists r. split; [by apply lookup_app_l_Some|done].
    + case_decide as Ht; [apply list_elem_of_singleton in Hin as ->|by apply not_elem_of_nil in Hin].
      exists rule. split; [by apply list_lookup_middle|done].
  - intros (r & [Hr|[Hle Hr]]%lookup_app_Some & Ht); [by left; exists r|]. right.
    apply list_lookup_singleton_Some in Hr as [Hi <-]. rewrite decide_True by done.
    apply list_elem_of_singleton. lia.
Qed.

Lemma new_graph_indexed sources rules : new_graph sources rules = Ok g →
  NoDup (od_keys (Dependency.sources g)) ∧ ∀ n idx, idx ∈ indices_of g n ↔
    ∃ rule, _ordered_rules g !! idx = Some rule ∧ Rule.target rule = n.
Proof.
  unfold new_graph. intros Hg. inv_Ok. split; [apply source_dict_keys; constructor|].
  intros n idx. apply indices_fold.
Qed.
End graph.

(** ** Errors *)

Definition raises (P : exn → Prop) (m : Search → Turn) : Prop := ∀ s e, m s = Err e → P e.

Lemma raises_followed P a b : raises P a → raises P b → raises P (followed_by a b).
Proof.
  intros Ha Hb s e Hr. unfold followed_by in Hr. destruct (a s) as [[[] s1]|e'] eqn:Has; [done|by eapply Hb|].
  eapply Ha. by rewrite Has, Hr.
Qed.

Lemma raises_for {A} P (body : A → Search → Turn) l : (∀ x, raises P (body x)) → raises P (for_turns body l).
Proof. intros Hb. induction l as [|x l IH]; [done|]. by apply raises_followed. Qed.

Lemma raises_spend (P : exn → Prop) : P (ValueError "dependency edge path work limit exceeded") → raises P spend.
Proof. intros HP s e. unfold spend. by intros [->%spend_work_Err|(? & _ & ?)]%bind_Err. Qed.

Section errors.
Context (P : exn → Prop) (HP : ∀ e, e = ValueError "dependency edge path work limit exceeded" ∨
  e = IndexError "tuple index out of range" → P e).

Lemma raises_work : raises P spend.
Proof. apply raises_spend, HP. by left. Qed.

Lemma raises_frame walk index rule emit children :
  (∀ c ch emit, (∀ y, raises P (emit y)) → raises P (walk c ch emit)) → (∀ y, raises P (emit y)) →
  ∀ y, raises P (frame walk index rule emit children y).
Proof.
  intros Hw He. induction children as [|[ci c] children IH]; intros [[X E] ch]; [apply He|].
  cbn. apply raises_followed; [apply raises_work|]. apply Hw. intros [[cX cE] cch].
  apply raises_followed; [apply IH|apply raises_work].
Qed.

Lemma raises_walk g V fuel : ∀ n seen ch emit, (∀ y, raises P (emit y)) →
  raises P (edge_walk g V fuel n seen ch emit).
Proof.
  assert (Hindex : raises P (λ _, Err (IndexError "tuple index out of range"))).
  { intros s e [= <-]. apply HP. by right. }
  induction fuel as [|fuel IH]; intros n seen ch emit He; cbn -[frame imap];
    (apply raises_followed; [apply raises_work|]);
    (destruct (negb (bool_decide (n ∈ V))); [done|]); (destruct (bool_decide (is_Some _)); [apply He|]); [done|].
  destruct (bool_decide (n ∈ seen)); [done|]. apply raises_for. intros index.
  apply raises_followed; [apply raises_work|].
  destruct (_ordered_rules g !! index) as [rule|]; [|done]. destruct (skipped _ _ _ _ _); [done|].
  destruct (Rule.prerequisites rule) as [|c cs]; [done|]. apply raises_frame; [|done]. auto.
Qed.
End errors.

(** ** The enumeration *)

Lemma for_each_raises {A} (P : exn → Prop) (f : A → result ()) l :
  (∀ x e, f x = Err e → P e) → ∀ e, for_each f l = Err e → P e.
Proof.
  intros Hf. induction l as [|x l IH]; intros e; cbn; [done|].
  intros [?|(_ & _ & ?)]%bind_Err; [by eapply Hf|by apply IH].
Qed.

Definition not_fuel (e : exn) : Prop := e ≠ OtherError "out of fuel".

Lemma edge_document_raises g e : edge_document g = Err e → not_fuel e.
Proof.
  unfold edge_document.
  intros [Hr|(_ & _ & [Hr|(_ & _ & [Hr|(_ & _ & Hr)]%bind_Err)]%bind_Err)]%bind_Err.
  1,3: eapply for_each_raises; [|exact Hr]; intros ? ?; by intros [_ ->]%raise_if_Err.
  - by apply raise_if_Err in Hr as [_ ->].
  - done.
Qed.

Lemma spend_rules_Ok (rules : list DependencyRule) w w' :
  fold_result (λ work rule, spend_work (1 + Z.of_nat (length (Rule.prerequisites rule))) work) w rules = Ok w' →
  0 ≤ w → 0 ≤ w'.
Proof.
  revert w. induction rules as [|r rules IH]; intros w; cbn; [by intros [= <-]|].
  intros (w1 & [? ->]%spend_work_Ok & Hf)%bind_Ok ?. apply IH in Hf; lia.
Qed.

(** An identity needs a document, whose source names are not empty. *)
Lemma document_sources g document n : edge_document g = Ok document → is_source g n → empty n = false.
Proof.
  unfold edge_document.
  intros ([] & _ & ([] & _ & ([] & Hs & _)%bind_Ok)%bind_Ok)%bind_Ok [s Hn%od_get_elem].
  rewrite for_each_Ok, Forall_forall in Hs. specialize (Hs _ Hn). cbn [fst snd] in Hs.
  apply raise_if_Ok, negb_false_iff in Hs. unfold source_identity_ok in Hs.
  by destruct (bool_decide (n = _)), (empty n).
Qed.

Lemma chosen_proof_source g direction ch n : chosen_proof g direction ch n →
  ∃ m, rtc (chosen_step g ch) n m ∧ is_source g m.
Proof.
  induction 1 as [n s Hs _|n idx rule Hns Hc Hr Ht Hp _ IH]; [exists n; split; [done|by exists s]|].
  destruct (Rule.prerequisites rule) as [|c l] eqn:Hpre; [done|]. destruct (IH c ltac:(by left)) as (m & Hm & Hs).
  exists m. split; [|done]. eapply rtc_l; [|exact Hm]. split; [done|]. exists idx, rule. rewrite Hpre.
  split; [done|]. split; [done|by left].
Qed.

Lemma yield_shape g direction document target y : edge_document g = Ok document →
  empty target = false → has direction DIRECTIONS = true → yields g direction y.2 target y.1.1 y.1.2 →
  path_shape_ok direction (path_of target y) = true.
Proof.
  intros Hdoc Ht Hd Hy. unfold path_shape_ok, path_of. cbn [Path.target Path.source_ids]. rewrite Ht, Hd. cbn [negb andb].
  apply andb_true_iff; split; [apply andb_true_iff; split|].
  - apply negb_true_iff, bool_decide_eq_false. intros Hnil.
    destruct (chosen_proof_source _ _ _ _ (ys_proof _ _ _ _ _ _ Hy)) as (m & Hm).
    apply (ys_sources _ _ _ _ _ _ Hy), sorted_names_elem in Hm. rewrite Hnil in Hm. by apply not_elem_of_nil in Hm.
  - apply forallb_forall. intros n Hn%list_elem_of_In. rewrite sorted_names_elem, (ys_sources _ _ _ _ _ _ Hy) in Hn.
    by rewrite (document_sources _ _ _ Hdoc (proj2 Hn)).
  - apply bool_decide_eq_true. by rewrite sorted_names_set.
Qed.

Lemma proof_selection g direction p : proof_dag g direction p → ∃ sel, selection_ok g (Path.edges p) sel.
Proof.
  intros Hp. pose proof (select_edges g (Path.edges p) [] _ (selection_empty g)) as Hs. rewrite app_nil_l in Hs.
  destruct (fold_result _ _ _) as [sel|]; [by exists sel|]. destruct Hs. split; apply Hp.
Qed.

Section exact.
Context `{Hashlib} (g : DependencyGraph) (direction target : string) (max_depth max_paths : Z).
Context (Hkeys : NoDup (od_keys (sources g))).
Context (Hindices : ∀ n idx, idx ∈ indices_of g n ↔
  ∃ rule, _ordered_rules g !! idx = Some rule ∧ Rule.target rule = n).

(** What a call that returned has done. *)
Lemma edge_paths_to_Ok ps : edge_paths_to g direction target max_depth max_paths = Ok ps →
  empty target = false ∧ has direction DIRECTIONS = true ∧ 1 ≤ max_paths ∧
  (∃ document, edge_document g = Ok document) ∧
  ∃ V b, viable_ok g direction V ∧
    fold_until (collected target max_paths) (enumerate g V (Z.to_nat max_depth) target ∅ ∅) [] = (b, ps).
Proof.
  unfold edge_paths_to.
  intros ([] & Hreq%raise_if_Ok & (w & Hw & (w1 & Hw1 & (doc & Hdoc & ([w2 V] & Hv & ([b s] & Hr & [= <-])%bind_Ok)
    %bind_Ok)%bind_Ok)%bind_Ok)%bind_Ok)%bind_Ok.
  apply orb_false_iff in Hreq as [Hreq Hmp]. apply orb_false_iff in Hreq as [Hreq _].
  apply orb_false_iff in Hreq as [Ht Hd%negb_false_iff]. apply negb_false_iff in Hmp.
  split; [done|]. split; [done|]. split; [lia|]. split; [by exists doc|]. exists V, b.
  split; [by eapply find_viable_ok|].
  exact (refines_walk g V _ _ _ _ _ _ (refines_collect target max_paths) _ _ _ Hr).
Qed.

Lemma edge_paths_to_Err e : edge_paths_to g direction target max_depth max_paths = Err e → not_fuel e.
Proof.
  assert (Hspend : not_fuel (ValueError "dependency edge path work limit exceeded")) by done.
  unfold edge_paths_to. intros [[_ ->]%raise_if_Err|([] & _ & Hr)]%bind_Err; [done|].
  apply bind_Err in Hr as [->%spend_work_Err|(w & [Hw ->]%spend_work_Ok & Hr)]; [done|].
  apply bind_Err in Hr as [Hr|(w1 & Hw1%spend_rules_Ok & Hr)]; [|..|lia].
  { eapply fold_result_raises; [|exact Hr]. by intros ? ? ? ->%spend_work_Err. }
  apply bind_Err in Hr as [?|(doc & _ & Hr)]; [by eapply edge_document_raises|].
  apply bind_Err in Hr as [Hr|([w2 V] & _ & Hr)].
  { intros ->. by eapply find_viable_fuel. }
  apply bind_Err in Hr as [Hr|(? & _ & ?)]; [|done].
  eapply (raises_walk not_fuel); [|..|exact Hr].
  - by intros ? [->| ->].
  - intros [[X E] ch] s e'. unfold collect. by case_bool_decide.
Qed.

Lemma found_accepted document V y : edge_document g = Ok document → empty target = false →
  has direction DIRECTIONS = true → viable_ok g direction V →
  y ∈ enumerate g V (Z.to_nat max_depth) target ∅ ∅ →
  ∃ h, path_identity g direction (path_of target y) = Some (Ok h).
Proof.
  intros Hdoc Ht Hd HV Hy. apply (enumerate_yields g direction V HV Hindices) in Hy as [_ Hy].
  apply (accepts_proofs g direction _ document Hdoc).
  pose proof (yielded_proof_dag _ _ _ _ _ _ Hy) as Hdag.
  split; [by eapply yield_shape|]. split; [|exact Hdag]. apply (sorted_edges_canonical g).
  intros e He%sorted_edges_elem. by apply (pd_edges _ _ _ Hdag).
Qed.

Lemma proof_found document V p h : edge_document g = Ok document → viable_ok g direction V →
  path_identity g direction p = Some (Ok h) →
  proved_in g direction (Z.to_nat max_depth) (Path.edges p) (Path.target p) →
  ∃ y, y ∈ enumerate g V (Z.to_nat max_depth) (Path.target p) ∅ ∅ ∧ path_of (Path.target p) y = p.
Proof.
  intros Hdoc HV Hid Hin.
  destruct (proj1 (accepts_proofs g direction p document Hdoc)) as (Hshape & Hcan & Hdag); [by exists h|].
  destruct (proof_selection _ _ _ Hdag) as [sel Hsel].
  destruct (enumerate_complete g direction V HV Hindices (Path.edges p) sel (Path.target p) Hsel
    (pd_proved _ _ _ Hdag) (Z.to_nat max_depth) (Z.to_nat max_depth) (Path.target p) ∅ ∅) as (y & Hy & Hf);
    [done|done|done|by intros ? ? ?%lookup_empty_Some|by intros ? ?%elem_of_empty|].
  exists y. split; [done|]. apply (enumerate_yields g direction V HV Hindices) in Hy as [_ Hy].
  by eapply followed_path.
Qed.
End exact.

(** C37. [edge_paths_to] enumerates exactly the proofs that [path_identity]
    authenticates.  On a constructed graph, a call that returns lists different
    proofs of the target, at most [max_paths], each of which has an identity;
    when it lists fewer than [max_paths], every path of the target that has an
    identity and chains at most [max_depth] rules is among them: the reachability
    pass, the consistent choice of rules and the work budget hide no proof.  A
    call that raises does so for a bad request, graph or budget: the fuel of the
    model is always enough. *)
Theorem edge_paths_to_exact `{Hashlib} all_sources rules g direction target max_depth max_paths :
  new_graph all_sources rules = Ok g →
  match edge_paths_to g direction target max_depth max_paths with
  | Ok ps =>
      NoDup ps ∧ Z.of_nat (length ps) ≤ max_paths ∧
      (∀ p, p ∈ ps → Path.target p = target ∧ ∃ h, path_identity g direction p = Some (Ok h)) ∧
      (Z.of_nat (length ps) < max_paths → ∀ p h, Path.target p = target →
         path_identity g direction p = Some (Ok h) →
         proved_in g direction (Z.to_nat max_depth) (Path.edges p) target → p ∈ ps)
  | Err e => e ≠ OtherError "out of fuel"
  end.
Proof.
  intros [Hkeys Hindices]%new_graph_indexed.
  destruct (edge_paths_to _ _ _ _ _) as [ps|e] eqn:Hps; [|by eapply edge_paths_to_Err].
  apply edge_paths_to_Ok in Hps as (Ht & Hd & Hmp & [document Hdoc] & V & b & HV & Hf); [|done].
  destruct (collected_all target max_paths _ [] b ps NoDup_nil_2 ltac:(cbn; lia) Hf)
    as (Hnd & Hle & _ & Hsound & Hcomplete).
  split; [done|]. split; [done|]. split.
  - intros p [?%not_elem_of_nil|(y & Hy & ->)]%Hsound; [done|]. split; [done|]. by eapply found_accepted.
  - intros Hlt p h <- Hid Hin.
    destruct (proof_found g direction max_depth Hindices document V p h) as (y & Hy & <-); [done..|].
    by apply Hcomplete.
Qed.

Module Example_edge_paths.
#[local] Existing Instance checksum_hashlib.
Import DependencySpec.Example_dependency.

Definition rule_of idx : DependencyRule := default (mkRule "" [] "") (graph_rules !! idx).
Definition long_path : DependencyPath := mkPath "target" ["a"; "b"] (rule_edges 0 (rule_of 0) ++ rule_edges 1 (rule_of 1)).
Definition short_path : DependencyPath := mkPath "target" ["b"] (rule_edges 3 (rule_of 3)).

Lemma edge_paths_to_exact_witness :
  edge_paths_to graph "CPU_TO_IP" "target" 16 64 = Ok [long_path; short_path] ∧
  (∃ h, path_identity graph "CPU_TO_IP" long_path = Some (Ok h)) ∧
  ∃ h, path_identity graph "CPU_TO_IP" short_path = Some (Ok h).
Proof.
  assert (Hps : edge_paths_to graph "CPU_TO_IP" "target" 16 64 = Ok [long_path; short_path])
    by (vm_compute; reflexivity).
  split; [exact Hps|].
  pose proof (edge_paths_to_exact [pin "a"; pin "b"] graph_rules graph "CPU_TO_IP" "target" 16 64
    ltac:(vm_compute; reflexivity)) as Hall.
  rewrite Hps in Hall. destruct Hall as (_ & _ & Hall & _).
  split; apply Hall; [left|right; left].
Defined.
End Example_edge_paths.
