(* ===== verification/Mutation.v ===== *)
(** * Selecting and mutating an upstream source

    Models [src/src/myfuzz/scenario/mutation.py]: the choice of a dependency path
    and of a source on it from feedback weights, and the mutation that flips one
    bit of the genome's action or initial image that declares the source.
    [dataclasses.replace] runs the constructor's checks again.

    The compiled authorization is checked by object identity: the model keeps
    whether the authorization's graph and ownership are the ones passed.  The
    decoder's path proofs and the immutability of the two dictionaries, which
    the compiler of paths establishes, are arguments.

    The theorems: an accepted mutation changes exactly one bit, of the first
    image with the identity of a source of the plan's path or of the first
    action that declares the source's bit and has the requested identifier, and
    never a runtime fact; the same mutation again restores the genome. *)

From S2P Require Import Prelude Json Isa Genome Ownership Dependency.

Local Open Scope Z_scope.

Module Plan.
Record MutationPlan := mkPlan {
  direction : string;
  target : string;
  path : DependencyPath;
  focus_source : string }.
End Plan.
Export Plan (MutationPlan, mkPlan).

#[export] Instance MutationPlan_eq_dec : EqDecision MutationPlan.
Proof. solve_decision. Defined.

(** [_MutationAuthorization.__post_init__] *)
Definition overlapping_source (source candidate : FuzzableSource) : bool :=
  negb (bool_decide (Source.source_id candidate = Source.source_id source))
  && bool_decide (source_key candidate = source_key source)
  && (Source.bit_offset candidate <? Source.bit_offset source + Source.width source)
  && (Source.bit_offset source <? Source.bit_offset candidate + Source.width candidate).

Definition MutationAuthorization_post_init (frozen : bool) (proofs : list (string * DependencyPath))
    (plan : MutationPlan) (g : DependencyGraph) (ownership : OwnershipMap) : result () :=
  raise_if (negb frozen || negb (bool_decide ((Plan.direction plan, Plan.path plan) ∈ proofs)))
    (ValueError "compiled mutation requires immutable verified decoder paths") ;;
  match od_get (sources g) (Plan.focus_source plan) with
  | None => Err (ValueError "invalid compiled mutation source")
  | Some source =>
      raise_if (negb (has (Plan.focus_source plan) (Path.source_ids (Plan.path plan)))
                || negb (bool_decide (Plan.target plan = Path.target (Plan.path plan))))
        (ValueError "invalid compiled mutation source") ;;
      (if bool_decide (Source.kind source = "source") then
         mutation_source (Source.component source) (Source.port source) (Source.bit_offset source)
           (Source.width source) (Plan.direction plan) ownership ;;
         mret ()
       else mret ()) ;;
      raise_if (existsb (overlapping_source source) (sources g).*2)
        (ValueError "graph source ownership overlap")
  end.

Record Authorization := mkAuthorization {
  auth_plan : MutationPlan;
  auth_graph_is : bool;
  auth_ownership_is : bool }.

Definition _GENOME_TARGET_KINDS : list string := ["genome_action"; "initial_image"].
Definition _RUNTIME_TARGET_KINDS : list string :=
  ["committed_ram"; "read_snapshot"; "real_response"; "ip_output"].

Record MutationTarget := mkTarget {
  target_kind : string;
  identifier : string }.

(** [MutationTarget.__post_init__] *)
Definition MutationTarget_post_init (t : MutationTarget) : result MutationTarget :=
  raise_if (negb (has (target_kind t) (_GENOME_TARGET_KINDS ++ _RUNTIME_TARGET_KINDS)))
    (ValueError "unknown mutation target kind") ;;
  raise_if (has (target_kind t) _RUNTIME_TARGET_KINDS && empty (identifier t))
    (ValueError "runtime mutation target needs an identifier") ;;
  mret t.

(** ** [choose_mutation] *)

Fixpoint names_ltb (a b : list string) : bool :=
  match a, b with
  | _, [] => false
  | [], _ :: _ => true
  | x :: a, y :: b => if bool_decide (x = y) then names_ltb a b else String.ltb x y
  end.

(** The candidates' key [(-weight, len(source_ids), target, source_ids)]. *)
Definition candidate_ltb (a b : Z * DependencyPath) : bool :=
  if negb (a.1 =? b.1) then b.1 <? a.1
  else if negb (length (Path.source_ids a.2) =? length (Path.source_ids b.2))%nat
  then (length (Path.source_ids a.2) <? length (Path.source_ids b.2))%nat
  else if negb (bool_decide (Path.target a.2 = Path.target b.2))
  then String.ltb (Path.target a.2) (Path.target b.2)
  else names_ltb (Path.source_ids a.2) (Path.source_ids b.2).

(** The sources' key [(-weight, source_id)]. *)
Definition source_ltb (weights : gmap string Z) (a b : string) : bool :=
  let wa := default 0 (weights !! a) in let wb := default 0 (weights !! b) in
  if negb (wa =? wb) then wb <? wa else String.ltb a b.

(** [min(l, key=...)]: the first of the least. *)
Definition min_by {A} (ltb : A → A → bool) (x : A) (l : list A) : A :=
  foldl (λ best y, if ltb y best then y else best) x l.

Definition collect_candidates (g : DependencyGraph) (direction : string)
    (candidates : list (Z * DependencyPath)) (tw : string * Z) : result (list (Z * DependencyPath)) :=
  let '(target, weight) := tw in
  raise_if (weight <? 0) (ValueError "target weight must be nonnegative integer") ;;
  paths ← paths_to g direction target 16 64;
  mret (candidates ++ ((weight,.) <$> paths)).

(** [choose_mutation]; no [source_weights] is the empty map. *)
Definition choose_mutation (g : DependencyGraph) (target_weights : list (string * Z))
    (direction : string) (source_weights : gmap string Z) : result MutationPlan :=
  candidates ← fold_result (collect_candidates g direction) [] target_weights;
  match candidates with
  | [] => Err (ValueError "no reachable target has a fuzzable upstream source")
  | c :: candidates =>
      let path := (min_by candidate_ltb c candidates).2 in
      raise_if (negb (bool_decide (map_Forall (λ _ v, 0 ≤ v) source_weights)))
        (ValueError "source weight must be nonnegative integer") ;;
      match Path.source_ids path with
      | [] => Err (ValueError "min() iterable argument is empty")
      | s :: ids => mret (mkPlan direction (Path.target path) path (min_by (source_ltb source_weights) s ids))
      end
  end.

(** ** [mutate_genome] *)

Definition with_images (images : list MemoryImage) (g : ScenarioGenome) : ScenarioGenome :=
  mkGenome (testcase_id g) (genome_direction g) (path_id g) (schedule_order g) (max_steps g) (actions g)
    images (encoding_version g) (reset_actions g) (quiesce_steps g).
Definition with_actions (l : list Action) (g : ScenarioGenome) : ScenarioGenome :=
  mkGenome (testcase_id g) (genome_direction g) (path_id g) (schedule_order g) (max_steps g) l
    (initial_images g) (encoding_version g) (reset_actions g) (quiesce_steps g).
Definition with_data (data : list Z) (i : MemoryImage) : MemoryImage :=
  mkImage (image_id i) (image_component i) (address i) (hex_bytes data).
Definition with_value (v : Z) (a : Action) : Action :=
  mkAction (action_id a) (component a) (port a) v (direction a) (trigger a) (delay_component a)
    (delay_ticks a) (bit_offset a) (action_width a).

(** [data[bit // 8] ^= 1 << (bit % 8)] *)
Definition flip_bit (data : list Z) (bit : Z) : list Z :=
  alter (λ b, Z.lxor b (1 ≪ (bit `mod` 8))) (Z.to_nat (bit `div` 8)) data.

(** The loop over the images. *)
Fixpoint mutate_images (s : FuzzableSource) (bit : Z) (images : list MemoryImage)
    : result (list MemoryImage) :=
  match images with
  | [] => Err (ValueError "genome has no image for selected upstream source")
  | i :: images =>
      if negb (bool_decide (image_id i = Source.port s)) || negb (bool_decide (image_component i = Source.component s))
      then images ← mutate_images s bit images; mret (i :: images)
      else
        raise_if (Z.of_nat (length (image_data i)) * 8 <? Source.bit_offset s + Source.width s)
          (ValueError "mutation bit is outside memory image") ;;
        i' ← MemoryImage_post_init (with_data (flip_bit (image_data i) bit) i);
        mret (i' :: images)
  end.

(** The loop over the actions. *)
Fixpoint mutate_actions (s : FuzzableSource) (mutation_direction : string) (ownership : OwnershipMap)
    (only : option string) (bit : Z) (l : list Action) : result (list Action) :=
  match l with
  | [] => Err (ValueError "genome has no matching action for selected upstream source")
  | a :: l =>
      if bool_decide (is_Some only ∧ only ≠ Some (action_id a))
      then l ← mutate_actions s mutation_direction ownership only bit l; mret (a :: l)
      else
        w ← match action_width a with
            | Some w => mret w
            | None => field_width (component a) (port a) ownership
            end;
        if bool_decide (component a = Source.component s) && bool_decide (port a = Source.port s)
           && bool_decide (direction a = mutation_direction)
           && (bit_offset a <=? bit) && (bit <? bit_offset a + w)
        then
          a' ← Action_post_init (with_value (Z.lxor (action_value a) (1 ≪ (bit - bit_offset a))) a);
          mret (a' :: l)
        else l ← mutate_actions s mutation_direction ownership only bit l; mret (a :: l)
  end.

(** The sources that declare one bit. *)
Definition declares (s : FuzzableSource) (bit : Z) (candidate : FuzzableSource) : bool :=
  bool_decide (source_key candidate = source_key s)
  && (Source.bit_offset candidate <=? bit)
  && (bit <? Source.bit_offset candidate + Source.width candidate).
Definition bit_owners (g : DependencyGraph) (s : FuzzableSource) (bit : Z) : nat :=
  length (filter (λ c, declares s bit c = true) (sources g).*2).

Section mutate.
Context `{Hashlib} (plan : MutationPlan) (g : DependencyGraph) (ownership : OwnershipMap).

(** The plan's path is one of the graph's. *)
Definition check_path (genome : ScenarioGenome) (compiled : bool) : result () :=
  (if negb compiled && negb (bool_decide (Path.edges (Plan.path plan) = [])) then
     match path_identity g (Plan.direction plan) (Plan.path plan) with
     | Some (Ok _) => mret ()
     | Some (Err e) => Err e
     | None => Err (OtherError "not enough fuel")
     end
   else mret ()) ;;
  raise_if (negb (bool_decide (genome_direction genome = Plan.direction plan))
            || negb (bool_decide (Plan.target plan = Path.target (Plan.path plan))))
    (ValueError "mutation plan disagrees with genome path") ;;
  (if negb compiled && bool_decide (Path.edges (Plan.path plan) = []) then
     paths ← paths_to g (Plan.direction plan) (Plan.target plan) 16 64;
     raise_if (negb (bool_decide (Plan.path plan ∈ paths)))
       (ValueError "mutation plan disagrees with genome path")
   else mret ()) ;;
  raise_if (negb (has (Plan.focus_source plan) (Path.source_ids (Plan.path plan))))
    (ValueError "mutation plan disagrees with genome path").

(** The write target agrees with the source; the action identifier to use. *)
Definition check_target (s : FuzzableSource) (action : option string) (target : option MutationTarget)
    : result (option string) :=
  let t := match target with
           | Some t => t
           | None => if bool_decide (Source.kind s = "memory_image")
                     then mkTarget "initial_image" (Source.port s)
                     else mkTarget "genome_action" (default EmptyString action)
           end in
  raise_if
    (if bool_decide (Source.kind s = "memory_image") then
       negb (bool_decide (target_kind t = "initial_image")) || negb (bool_decide (identifier t = Source.port s))
     else negb (bool_decide (target_kind t = "genome_action"))
          || (negb (empty (identifier t)) && bool_decide (is_Some action ∧ Some (identifier t) ≠ action)))
    (ValueError "mutation target does not match upstream source") ;;
  mret (if bool_decide (target_kind t = "genome_action") && negb (empty (identifier t))
        then Some (identifier t) else action).

(** [mutate_genome] *)
Definition mutate_genome (genome : ScenarioGenome) (bit_index : Z) (action : option string)
    (target : option MutationTarget) (authorization : option Authorization) : result ScenarioGenome :=
  raise_if (match target with Some t => has (target_kind t) _RUNTIME_TARGET_KINDS | None => false end)
    (ValueError "runtime mutation target is immutable") ;;
  let compiled := bool_decide (is_Some authorization) in
  raise_if (match authorization with
            | Some a => negb (bool_decide (auth_plan a = plan)) || negb (auth_graph_is a)
                        || negb (auth_ownership_is a)
            | None => false
            end) (ValueError "compiled mutation authorization differs") ;;
  check_path genome compiled ;;
  match od_get (sources g) (Plan.focus_source plan) with
  | None => Err (ValueError "mutation focus is not a declared source")
  | Some s =>
      only ← check_target s action target;
      raise_if (negb ((0 <=? bit_index) && (bit_index <? Source.width s)))
        (ValueError "mutation bit is outside source width") ;;
      let bit := Source.bit_offset s + bit_index in
      raise_if (negb (compiled || (bit_owners g s bit =? 1)%nat))
        (ValueError "graph source ownership overlap") ;;
      if bool_decide (Source.kind s = "memory_image") then
        images ← mutate_images s bit (initial_images genome);
        ScenarioGenome_post_init (with_images images genome)
      else
        (if compiled then mret ()
         else mutation_source (Source.component s) (Source.port s) (Source.bit_offset s) (Source.width s)
                (Plan.direction plan) ownership ;; mret ()) ;;
        l ← mutate_actions s (Plan.direction plan) ownership only bit (actions genome);
        ScenarioGenome_post_init (with_actions l genome)
  end.
End mutate.

(** ** Hexadecimal images *)

Lemma hex_digit_value h : 0 ≤ h < 16 →
  ∃ c, hex_digit h = String c EmptyString ∧ hex_value c = Some h ∧ is_space c = false.
Proof.
  intros Hh. assert (Hc : h ∈ seqZ 0 16) by (apply elem_of_seqZ; lia).
  cbn in Hc. repeat (apply elem_of_cons in Hc as [->|Hc]; [eexists; split_and!; reflexivity|]).
  by apply not_elem_of_nil in Hc.
Qed.

Lemma fromhex_hex_bytes l : Forall is_byte l → fromhex (hex_bytes l) = Some l.
Proof.
  induction 1 as [|b l Hb Hl IH]; [done|]. unfold is_byte in Hb.
  destruct (hex_digit_value (b `div` 16)) as (c & Hc & Hv & Hs); [Z.div_mod_to_equations; lia|].
  destruct (hex_digit_value (b `mod` 16)) as (d & Hd & Hw & _); [Z.div_mod_to_equations; lia|].
  cbn [hex_bytes]. unfold hex_byte. rewrite Hc, Hd.
  change (fromhex (String c (String d (hex_bytes l))) = Some (b :: l)).
  cbn [fromhex]. rewrite Hs, Hv, Hw, IH. do 2 f_equal. Z.div_mod_to_equations. lia.
Qed.

Lemma hex_value_range c v : hex_value c = Some v → 0 ≤ v < 16.
Proof. unfold hex_value. repeat case_match; intros; simplify_eq; lia. Qed.

Lemma fromhex_cases n : ∀ s l, (String.length s ≤ n)%nat → fromhex s = Some l → Forall is_byte l.
Proof.
  induction n as [|n IH]; intros [|c s] l Hn Hl; cbn in Hn; try (injection Hl as <-; constructor); try lia.
  cbn in Hl. destruct (is_space c); [apply (IH s); [lia|done]|].
  destruct s as [|d s]; [done|]. cbn in Hn.
  destruct (hex_value c) as [h|] eqn:Hh; [|done]. destruct (hex_value d) as [v|] eqn:Hv; [|done].
  destruct (fromhex s) as [r|] eqn:Hr; [|done]. injection Hl as <-.
  apply hex_value_range in Hh, Hv. constructor; [unfold is_byte; lia|]. apply (IH s); [lia|done].
Qed.

Lemma image_data_bytes i : Forall is_byte (image_data i).
Proof.
  unfold image_data. destruct (fromhex (data_hex i)) as [l|] eqn:Hl; [|constructor]. by eapply fromhex_cases.
Qed.

(** ** One bit *)

Definition bit_of (data : list Z) (n : Z) : bool := Z.testbit (nth (Z.to_nat (n `div` 8)) data 0) (n `mod` 8).

Lemma testbit_flip v k n : 0 ≤ k → 0 ≤ n → Z.testbit (Z.lxor v (1 ≪ k)) n = xorb (Z.testbit v n) (n =? k).
Proof.
  intros Hk Hn. rewrite Z.lxor_spec, Z.shiftl_1_l, Z.pow2_bits_eqb by done. f_equal.
  by rewrite Z.eqb_sym.
Qed.

Lemma flip_bit_length data bit : length (flip_bit data bit) = length data.
Proof. apply length_alter. Qed.

Lemma flip_byte b k : is_byte b → 0 ≤ k < 8 → is_byte (Z.lxor b (1 ≪ k)).
Proof.
  intros Hb Hk.
  assert (Hall : forallb (λ b, forallb (λ k, (0 <=? Z.lxor b (1 ≪ k)) && (Z.lxor b (1 ≪ k) <? 256)) (seqZ 0 8))
    (seqZ 0 256) = true) by (vm_compute; reflexivity).
  rewrite forallb_forall in Hall. specialize (Hall b). rewrite <- list_elem_of_In, elem_of_seqZ in Hall.
  unfold is_byte in *. specialize (Hall ltac:(lia)). rewrite forallb_forall in Hall. specialize (Hall k).
  rewrite <- list_elem_of_In, elem_of_seqZ in Hall. specialize (Hall ltac:(lia)). lia.
Qed.

Lemma flip_bit_bytes data bit : Forall is_byte data → Forall is_byte (flip_bit data bit).
Proof.
  intros Hd. apply Forall_alter; [done|]. intros b _ Hb. apply flip_byte; [done|]. apply Z.mod_pos_bound. lia.
Qed.

Lemma flip_bit_bit data bit n : 0 ≤ bit < 8 * Z.of_nat (length data) → 0 ≤ n →
  bit_of (flip_bit data bit) n = xorb (bit_of data n) (n =? bit).
Proof.
  intros Hbit Hn. unfold bit_of, flip_bit.
  assert (Hm : ∀ x, 0 ≤ x `mod` 8 < 8) by (intros x; apply Z.mod_pos_bound; lia).
  assert (Hlt : (Z.to_nat (bit `div` 8) < length data)%nat) by (Z.div_mod_to_equations; lia).
  destruct (lookup_lt_is_Some_2 data (Z.to_nat (bit `div` 8)) Hlt) as [b Hb].
  destruct (Z.eq_dec (n `div` 8) (bit `div` 8)) as [Heq|Hne].
  - rewrite Heq, (nth_lookup_Some data _ _ _ Hb).
    rewrite (nth_lookup_Some _ _ _ (Z.lxor b (1 ≪ (bit `mod` 8)))) by (rewrite list_lookup_alter_eq, Hb; done).
    rewrite testbit_flip by apply Hm. f_equal. apply eq_true_iff_eq. rewrite !Z.eqb_eq.
    split; intros ?; [|by subst]. Z.div_mod_to_equations. lia.
  - rewrite (proj2 (Z.eqb_neq n bit)) by congruence. rewrite xorb_false_r. f_equal.
    rewrite !nth_lookup, list_lookup_alter_ne; [done|]. intros Hz. apply Hne.
    apply Z2Nat.inj in Hz; [done| |]; apply Z.div_pos; lia.
Qed.

Lemma alter_twice {A} (f : A → A) i (l : list A) : (∀ x, f (f x) = x) → alter f i (alter f i l) = l.
Proof.
  intros Hf. revert i. induction l as [|x l IH]; intros [|i]; try done; cbn.
  - by rewrite Hf.
  - f_equal. apply IH.
Qed.

Lemma lxor_twice v m : Z.lxor (Z.lxor v m) m = v.
Proof. by rewrite Z.lxor_assoc, Z.lxor_nilpotent, Z.lxor_0_r. Qed.

Lemma flip_bit_twice data bit : flip_bit (flip_bit data bit) bit = data.
Proof. apply alter_twice. intros b. apply lxor_twice. Qed.

Lemma image_data_with l i : Forall is_byte l → image_data (with_data l i) = l.
Proof. intros Hl. unfold image_data. cbn. by rewrite fromhex_hex_bytes. Qed.

(** ** The two loops *)

Lemma image_post_init_Ok i i' : MemoryImage_post_init i = Ok i' → i' = i ∧ hex_bytes (image_data i) = data_hex i.
Proof.
  unfold MemoryImage_post_init, image_data. intros H. inv_Ok. destruct (fromhex (data_hex i)) as [l|]; [|done].
  inv_Ok. done.
Qed.

Lemma action_post_init_Ok a a' : Action_post_init a = Ok a' → a' = a.
Proof. unfold Action_post_init. intros H. inv_Ok. done. Qed.

Lemma genome_post_init_Ok g g' : ScenarioGenome_post_init g = Ok g' → g' = g.
Proof. unfold ScenarioGenome_post_init. intros H. inv_Ok. done. Qed.

Definition image_matches (s : FuzzableSource) (i : MemoryImage) : Prop :=
  image_id i = Source.port s ∧ image_component i = Source.component s.

(** The first matching image, flipped. *)
Definition images_mutated (s : FuzzableSource) (bit : Z) (images images' : list MemoryImage) : Prop :=
  ∃ pre i post, images = pre ++ i :: post ∧ Forall (λ j, ¬ image_matches s j) pre ∧ image_matches s i ∧
    Source.bit_offset s + Source.width s ≤ 8 * Z.of_nat (length (image_data i)) ∧
    is_Ok (MemoryImage_post_init (with_data (flip_bit (image_data i) bit) i)) = true ∧
    images' = pre ++ with_data (flip_bit (image_data i) bit) i :: post.

Lemma mutate_images_Ok s bit images images' :
  mutate_images s bit images = Ok images' ↔ images_mutated s bit images images'.
Proof.
  revert images'. induction images as [|i images IH]; intros images'; cbn.
  { split; [done|]. by intros ([] & ? & ? & [=] & _). }
  destruct (decide (image_matches s i)) as [Hm|Hm].
  - rewrite (bool_decide_eq_true_2 (image_id i = _)), (bool_decide_eq_true_2 (image_component i = _)) by apply Hm.
    cbn [negb orb]. split.
    + intros (u & Hw%raise_if_Ok & (i' & Hi & [= <-])%bind_Ok)%bind_Ok.
      pose proof (image_post_init_Ok _ _ Hi) as [-> _].
      exists [], i, images. split; [done|]. split; [by apply Forall_nil_2|]. split; [done|]. split; [lia|]. by rewrite Hi.
    + intros ([|j pre] & i' & post & Heq & Hpre & _ & Hw & Hok & ->); cbn in Heq; simplify_eq.
      2: { inversion_clear Hpre. done. }
      rewrite (proj2 (Z.ltb_ge _ _)) by lia. cbn [raise_if mbind result_bind].
      destruct (MemoryImage_post_init _) as [i''|] eqn:Hi; [|done]. by apply image_post_init_Ok in Hi as [-> _].
  - assert (Hb : negb (bool_decide (image_id i = Source.port s)) || negb (bool_decide (image_component i = Source.component s)) = true).
    { unfold image_matches in Hm. do 2 case_bool_decide; cbn; try done. naive_solver. }
    rewrite Hb. split.
    + intros (l & (pre & i' & post & -> & Hpre & Hi' & Hw & Hok & ->)%IH & [= <-])%bind_Ok.
      exists (i :: pre), i', post. split; [done|]. split; [by constructor|done].
    + intros ([|j pre] & i' & post & Heq & Hpre & Hm' & Hw & Hok & ->); cbn in Heq; simplify_eq; [done|].
      inversion_clear Hpre. rewrite (proj2 (IH (pre ++ with_data (flip_bit (image_data i') bit) i' :: post))); [done|].
      by exists pre, i', post.
Qed.

(** What the loop finds at an action: it passes, or takes it. *)
Definition width_of (ownership : OwnershipMap) (a : Action) : result Z :=
  match action_width a with
  | Some w => mret w
  | None => field_width (component a) (port a) ownership
  end.

Definition declares_bit (s : FuzzableSource) (mutation_direction : string) (bit : Z) (a : Action) (w : Z) : Prop :=
  component a = Source.component s ∧ port a = Source.port s ∧ direction a = mutation_direction ∧
  bit_offset a ≤ bit < bit_offset a + w.

Definition excluded (only : option string) (a : Action) : Prop := is_Some only ∧ only ≠ Some (action_id a).

Definition passed (s : FuzzableSource) d ownership only bit (a : Action) : Prop :=
  excluded only a ∨ ∃ w, width_of ownership a = Ok w ∧ ¬ declares_bit s d bit a w.
Definition taken (s : FuzzableSource) d ownership only bit (a : Action) : Prop :=
  ¬ excluded only a ∧ ∃ w, width_of ownership a = Ok w ∧ declares_bit s d bit a w.

Definition flip_value (bit : Z) (a : Action) : Action :=
  with_value (Z.lxor (action_value a) (1 ≪ (bit - bit_offset a))) a.

(** The first matching action, flipped. *)
Definition actions_mutated (s : FuzzableSource) d ownership only (bit : Z) (l l' : list Action) : Prop :=
  ∃ pre a post, l = pre ++ a :: post ∧ Forall (passed s d ownership only bit) pre ∧
    taken s d ownership only bit a ∧ is_Ok (Action_post_init (flip_value bit a)) = true ∧
    l' = pre ++ flip_value bit a :: post.

Lemma mutate_actions_Ok s d ownership only bit l l' :
  mutate_actions s d ownership only bit l = Ok l' ↔ actions_mutated s d ownership only bit l l'.
Proof.
  revert l'. induction l as [|a l IH]; intros l'; cbn.
  { split; [done|]. by intros ([] & ? & ? & [=] & _). }
  fold (width_of ownership a).
  assert (Hskip : passed s d ownership only bit a →
    (l' ← mutate_actions s d ownership only bit l; mret (a :: l')) = Ok l' ↔
    actions_mutated s d ownership only bit (a :: l) l').
  { intros Ha. split.
    - intros (l1 & (pre & b & post & -> & Hpre & Hb & Hok & ->)%IH & [= <-])%bind_Ok.
      exists (a :: pre), b, post. split; [done|]. split; [by constructor|done].
    - intros ([|j pre] & b & post & Heq & Hpre & Hb & Hok & ->); cbn in Heq; simplify_eq.
      + exfalso. destruct Ha as [Hex|(w & Hw & Hd)], Hb as [Hnex (w' & Hw' & Hd')]; [done|].
        rewrite Hw in Hw'. by injection Hw' as ->.
      + inversion_clear Hpre. rewrite (proj2 (IH (pre ++ flip_value bit b :: post))); [done|].
        by exists pre, b, post. }
  destruct (decide (is_Some only ∧ only ≠ Some (action_id a))) as [Hex|Hex].
  { rewrite bool_decide_eq_true_2 by done. apply Hskip. by left. }
  rewrite bool_decide_eq_false_2 by done.
  destruct (width_of ownership a) as [w|e] eqn:Hw; cbn [mbind result_bind].
  2: { split; [done|]. intros ([|j pre] & b & post & Heq & Hpre & Hb & _); cbn in Heq; simplify_eq.
       - destruct Hb as [_ (w & Hw' & _)]. congruence.
       - inversion_clear Hpre as [|? ? Hp _]. destruct Hp as [?|(w & Hw' & _)]; [done|congruence]. }
  destruct (bool_decide (component a = _) && _ && _ && _ && _) eqn:Hb.
  - assert (Hd : declares_bit s d bit a w).
    { repeat (apply andb_true_iff in Hb as [Hb ?]). repeat match goal with H : bool_decide _ = true |- _ => apply bool_decide_eq_true in H end.
      unfold declares_bit. split_and!; done || lia. }
    split.
    + intros (a' & Ha & [= <-])%bind_Ok. pose proof (action_post_init_Ok _ _ Ha) as ->.
      exists [], a, l. split; [done|]. split; [by apply Forall_nil_2|]. split; [split; [done|by exists w]|].
      split; [by unfold flip_value; rewrite Ha|done].
    + intros ([|j pre] & b & post & Heq & Hpre & Hb' & Hok & ->); cbn in Heq; simplify_eq.
      2: { inversion_clear Hpre as [|? ? Hp _]. destruct Hp as [?|(w' & Hw' & Hnd)]; [done|].
           rewrite Hw in Hw'. by injection Hw' as ->. }
      fold (flip_value bit b). destruct (Action_post_init (flip_value bit b)) as [a'|] eqn:Ha; [|done].
      by apply action_post_init_Ok in Ha as ->.
  - apply Hskip. right. exists w. split; [done|]. intros (H1 & H2 & H3 & H4).
    rewrite !bool_decide_eq_true_2 in Hb by done. cbn in Hb. lia.
Qed.

Lemma images_mutated_back s bit images images' :
  Forall (λ i, MemoryImage_post_init i = Ok i) images →
  images_mutated s bit images images' → images_mutated s bit images' images.
Proof.
  intros Hall (pre & i & post & -> & Hpre & Hm & Hw & Hok & ->).
  apply Forall_app in Hall as [_ Hall]. inversion_clear Hall as [|? ? Hi _].
  pose proof (image_post_init_Ok _ _ Hi) as [_ Hhex].
  assert (Hdata : image_data (with_data (flip_bit (image_data i) bit) i) = flip_bit (image_data i) bit)
    by apply image_data_with, flip_bit_bytes, image_data_bytes.
  assert (Hback : with_data (flip_bit (image_data (with_data (flip_bit (image_data i) bit) i)) bit)
    (with_data (flip_bit (image_data i) bit) i) = i).
  { rewrite Hdata, flip_bit_twice. unfold with_data; cbn. rewrite Hhex. by destruct i. }
  exists pre, (with_data (flip_bit (image_data i) bit) i), post. rewrite Hback, Hdata, flip_bit_length.
  split; [done|]. split; [done|]. split; [done|]. split; [done|]. by rewrite Hi.
Qed.

Lemma flip_value_twice bit a : flip_value bit (flip_value bit a) = a.
Proof. unfold flip_value, with_value; cbn. rewrite lxor_twice. by destruct a. Qed.

Lemma actions_mutated_back s d ownership only bit l l' :
  Forall (λ a, Action_post_init a = Ok a) l →
  actions_mutated s d ownership only bit l l' → actions_mutated s d ownership only bit l' l.
Proof.
  intros Hall (pre & a & post & -> & Hpre & Ht & Hok & ->).
  apply Forall_app in Hall as [_ Hall]. inversion_clear Hall as [|? ? Ha _].
  exists pre, (flip_value bit a), post. rewrite flip_value_twice.
  split; [done|]. split; [done|]. split; [done|]. by rewrite Ha.
Qed.

(** ** The properties *)

Section properties.
Context `{Hashlib} (plan : MutationPlan) (g : DependencyGraph) (ownership : OwnershipMap)
  (bit_index : Z) (action : option string) (target : option MutationTarget)
  (authorization : option Authorization).

(** Everything the call checks before it reads the genome's contents. *)
Definition admitted (genome : ScenarioGenome) s only : Prop :=
  (∀ t, target = Some t → has (target_kind t) _RUNTIME_TARGET_KINDS = false) ∧
  (∀ a, authorization = Some a → auth_plan a = plan ∧ auth_graph_is a = true ∧ auth_ownership_is a = true) ∧
  check_path plan g genome (bool_decide (is_Some authorization)) = Ok () ∧
  od_get (sources g) (Plan.focus_source plan) = Some s ∧ check_target s action target = Ok only ∧
  0 ≤ bit_index < Source.width s ∧
  (authorization = None → bit_owners g s (Source.bit_offset s + bit_index) = 1%nat).

(** The change of the genome's contents. *)
Definition changed (genome genome' : ScenarioGenome) s only : Prop :=
  let bit := Source.bit_offset s + bit_index in
  if decide (Source.kind s = "memory_image") then
    ∃ images, images_mutated s bit (initial_images genome) images ∧ genome' = with_images images genome
  else
    (authorization = None → ∃ producer, mutation_source (Source.component s) (Source.port s)
       (Source.bit_offset s) (Source.width s) (Plan.direction plan) ownership = Ok producer) ∧
    ∃ l, actions_mutated s (Plan.direction plan) ownership only bit (actions genome) l ∧
      genome' = with_actions l genome.

Lemma auth_checked :
  raise_if (match authorization with
            | Some a => negb (bool_decide (auth_plan a = plan)) || negb (auth_graph_is a)
                        || negb (auth_ownership_is a)
            | None => false
            end) (ValueError "compiled mutation authorization differs") = Ok () ↔
  (∀ a, authorization = Some a → auth_plan a = plan ∧ auth_graph_is a = true ∧ auth_ownership_is a = true).
Proof.
  rewrite raise_if_Ok. destruct authorization as [a|]; [|by split].
  rewrite !orb_false_iff, !negb_false_iff, bool_decide_eq_true. naive_solver.
Qed.

Lemma target_checked :
  raise_if (match target with Some t => has (target_kind t) _RUNTIME_TARGET_KINDS | None => false end)
    (ValueError "runtime mutation target is immutable") = Ok () ↔
  (∀ t, target = Some t → has (target_kind t) _RUNTIME_TARGET_KINDS = false).
Proof. rewrite raise_if_Ok. destruct target; naive_solver. Qed.

Lemma owners_checked s :
  raise_if (negb (bool_decide (is_Some authorization)
                  || (bit_owners g s (Source.bit_offset s + bit_index) =? 1)%nat))
    (ValueError "graph source ownership overlap") = Ok () ↔
  (authorization = None → bit_owners g s (Source.bit_offset s + bit_index) = 1%nat).
Proof.
  rewrite raise_if_Ok, negb_false_iff, orb_true_iff, Nat.eqb_eq, bool_decide_eq_true.
  destruct authorization; unfold is_Some; naive_solver.
Qed.

Lemma range_checked s :
  raise_if (negb ((0 <=? bit_index) && (bit_index <? Source.width s)))
    (ValueError "mutation bit is outside source width") = Ok () ↔ 0 ≤ bit_index < Source.width s.
Proof. rewrite raise_if_Ok, negb_false_iff. lia. Qed.

Lemma replaced x y : ScenarioGenome_post_init x = Ok y ↔ y = x ∧ ScenarioGenome_post_init y = Ok y.
Proof. split; [|by intros [-> ?]]. intros Hx. by pose proof (genome_post_init_Ok _ _ Hx) as ->. Qed.

Lemma producer_checked s :
  (if bool_decide (is_Some authorization) then mret ()
   else mutation_source (Source.component s) (Source.port s) (Source.bit_offset s) (Source.width s)
          (Plan.direction plan) ownership ;; mret ()) = Ok () ↔
  (authorization = None → ∃ producer, mutation_source (Source.component s) (Source.port s)
     (Source.bit_offset s) (Source.width s) (Plan.direction plan) ownership = Ok producer).
Proof.
  case_bool_decide as Ha.
  - split; [|done]. intros _ ->. by destruct Ha.
  - destruct authorization; [by destruct Ha|]. rewrite bind_Ok. naive_solver.
Qed.

Lemma mutate_genome_Ok genome genome' :
  mutate_genome plan g ownership genome bit_index action target authorization = Ok genome' ↔
  ∃ s only, admitted genome s only ∧ changed genome genome' s only ∧
    ScenarioGenome_post_init genome' = Ok genome'.
Proof.
  unfold mutate_genome, admitted, changed. split.
  - intros ([] & Ht & ([] & Ha & ([] & Hp & H1)%bind_Ok)%bind_Ok)%bind_Ok.
    rewrite target_checked in Ht. rewrite auth_checked in Ha.
    destruct (od_get (sources g) (Plan.focus_source plan)) as [s|]; [|done].
    apply bind_Ok in H1 as (only & Hc & ([] & Hr & ([] & Ho & H1)%bind_Ok)%bind_Ok).
    rewrite range_checked in Hr. rewrite owners_checked in Ho.
    exists s, only. split; [done|]. destruct (decide (Source.kind s = "memory_image")) as [Hk|Hk].
    + rewrite bool_decide_eq_true_2 in H1 by done. apply bind_Ok in H1 as (images & Hi & H1).
      rewrite mutate_images_Ok in Hi. rewrite replaced in H1. naive_solver.
    + rewrite bool_decide_eq_false_2 in H1 by done. apply bind_Ok in H1 as ([] & Hs & (l & Hl & H1)%bind_Ok).
      rewrite producer_checked in Hs. rewrite mutate_actions_Ok in Hl. rewrite replaced in H1. naive_solver.
  - intros (s & only & (Ht & Ha & Hp & Hs & Hc & Hr & Ho) & Hch & Hg).
    rewrite (proj2 target_checked Ht), (proj2 auth_checked Ha). cbn [mbind result_bind]. rewrite Hp. cbn [mbind result_bind]. rewrite Hs. cbn [mbind result_bind].
    rewrite Hc. cbn [mbind result_bind]. rewrite (proj2 (range_checked s) Hr), (proj2 (owners_checked s) Ho).
    cbn [mbind result_bind]. destruct (decide (Source.kind s = "memory_image")) as [Hk|Hk].
    + destruct Hch as (images & Hi & ->). rewrite <- mutate_images_Ok in Hi. rewrite bool_decide_eq_true_2 by done. by rewrite Hi.
    + destruct Hch as (Hs' & l & Hl & ->). rewrite <- mutate_actions_Ok in Hl. rewrite bool_decide_eq_false_2 by done.
      rewrite (proj2 (producer_checked s) Hs'). cbn [mbind result_bind]. by rewrite Hl.
Qed.

(** One bit [bit] of the image differs, and nothing else. *)
Definition image_bit_flipped (bit : Z) (i i' : MemoryImage) : Prop :=
  image_id i' = image_id i ∧ image_component i' = image_component i ∧ address i' = address i ∧
  length (image_data i') = length (image_data i) ∧
  ∀ n, 0 ≤ n → bit_of (image_data i') n = xorb (bit_of (image_data i) n) (n =? bit).

(** One bit of the action's value differs: [bit] of its field. *)
Definition action_bit_flipped (bit : Z) (a a' : Action) : Prop :=
  a' = with_value (action_value a') a ∧
  ∀ n, 0 ≤ n → Z.testbit (action_value a') n = xorb (Z.testbit (action_value a) n) (n =? bit - bit_offset a).

Lemma image_flipped s bit i : 0 ≤ bit → bit < Source.bit_offset s + Source.width s →
  Source.bit_offset s + Source.width s ≤ 8 * Z.of_nat (length (image_data i)) →
  image_bit_flipped bit i (with_data (flip_bit (image_data i) bit) i).
Proof.
  intros H0 Hlt Hw. unfold image_bit_flipped.
  rewrite image_data_with by apply flip_bit_bytes, image_data_bytes.
  split; [done|]. split; [done|]. split; [done|]. split; [apply flip_bit_length|].
  intros n Hn. apply flip_bit_bit; lia.
Qed.

Lemma action_flipped bit a : bit_offset a ≤ bit → action_bit_flipped bit a (flip_value bit a).
Proof. intros Hb. split; [done|]. intros n Hn. apply testbit_flip; lia. Qed.

Lemma changed_back genome genome' s only :
  Forall (λ i, MemoryImage_post_init i = Ok i) (initial_images genome) →
  Forall (λ a, Action_post_init a = Ok a) (actions genome) →
  changed genome genome' s only → changed genome' genome s only.
Proof.
  intros Hi Ha. unfold changed. destruct (decide (Source.kind s = "memory_image")).
  - intros (images & Hm & ->). exists (initial_images genome).
    split; [by apply images_mutated_back|by destruct genome].
  - intros (Hs & l & Hm & ->). split; [done|]. exists (actions genome).
    split; [by apply actions_mutated_back|by destruct genome].
Qed.

Lemma changed_direction genome genome' s only :
  changed genome genome' s only → genome_direction genome' = genome_direction genome.
Proof.
  unfold changed. destruct (decide _); [by intros (? & _ & ->)|by intros (_ & ? & _ & ->)].
Qed.

Lemma admitted_back genome genome' s only :
  genome_direction genome' = genome_direction genome → admitted genome s only → admitted genome' s only.
Proof. unfold admitted, check_path. by intros ->. Qed.

(** The action the call asks for, by its target or by [action_id]; none: any. *)
Definition requested : option string :=
  match target with
  | Some t => if empty (identifier t) then action else Some (identifier t)
  | None => action
  end.
(** The action has the requested identifier, if one is requested. *)
Definition is_requested (a : Action) : Prop := ∀ i, requested = Some i → action_id a = i.
(** The action declares the bit on the source's endpoint, in the plan's direction. *)
Definition holds_bit (s : FuzzableSource) (bit : Z) (a : Action) : Prop :=
  ∃ w, width_of ownership a = Ok w ∧ declares_bit s (Plan.direction plan) bit a w.
(** What an explicit target of the call has to be for the source. *)
Definition target_fits (s : FuzzableSource) (t : MutationTarget) : Prop :=
  if decide (Source.kind s = "memory_image") then
    target_kind t = "initial_image" ∧ identifier t = Source.port s
  else
    target_kind t = "genome_action" ∧
    (identifier t ≠ EmptyString → ∀ i, action = Some i → i = identifier t).

Lemma check_target_fits s only t :
  check_target s action target = Ok only → target = Some t → target_fits s t.
Proof.
  unfold check_target, target_fits. intros (_ & Hr%raise_if_Ok & _)%bind_Ok ->.
  destruct (decide (Source.kind s = "memory_image")) as [Hk|Hk];
    [rewrite bool_decide_eq_true_2 in Hr by done|rewrite bool_decide_eq_false_2 in Hr by done].
  - apply orb_false_iff in Hr as [H1 H2]. rewrite negb_false_iff, bool_decide_eq_true in H1, H2. done.
  - apply orb_false_iff in Hr as [H1 H2]. rewrite negb_false_iff, bool_decide_eq_true in H1.
    split; [done|]. intros Hne i ->. unfold empty in H2. rewrite (bool_decide_eq_false_2 _ Hne) in H2.
    apply bool_decide_eq_false in H2. destruct (decide (identifier t = i)); [done|].
    destruct H2. split; [by eexists|congruence].
Qed.

Lemma check_target_requested s only :
  Source.kind s ≠ "memory_image" → check_target s action target = Ok only → only = requested.
Proof.
  unfold check_target, requested. intros Hk (_ & Hr%raise_if_Ok & Hm)%bind_Ok.
  injection Hm as <-. rewrite (bool_decide_eq_false_2 _ Hk) in *. destruct target as [t|].
  - apply orb_false_iff in Hr as [H1 _]. rewrite negb_false_iff in H1. rewrite H1.
    by destruct (empty (identifier t)).
  - destruct action as [x|]; [|done]. cbn. by destruct (empty x).
Qed.

Lemma excluded_requested a : is_requested a ↔ ¬ excluded requested a.
Proof.
  unfold is_requested, excluded. destruct requested as [i|]; [|split; [by intros _ [[? [=]] _]|by intros _ j [=]]]. split.
  - intros Ha [_ Hne]. by rewrite (Ha i) in Hne.
  - intros Hne j [= <-]. destruct (decide (action_id a = i)); [done|].
    destruct Hne. split; [by eexists|congruence].
Qed.

(** C40. An accepted mutation changes one bit of the genome and nothing else:
    bit [bit_index] of the plan's focus source, which is declared, lies on the
    plan's path, and (unless an authorization was compiled) is the only source
    that declares the bit; no runtime target is written, and an explicit target
    is the source's image, or an action that [action_id] does not contradict.
    For an image source it is that bit of the first image with the source's
    identity.  For a pin source it is that bit of the first action that declares
    it on the source's endpoint, in the plan's direction, and that has the
    requested identifier, if the target or [action_id] requests one: actions
    before it with another identifier may declare the bit too, those with the
    requested one do not.  Unless an authorization was compiled, the pin
    source's bits have one fuzzable producer. *)
Theorem mutation_flips_one_bit genome genome' :
  Forall (λ kv, FuzzableSource_post_init kv.2 = Ok kv.2) (sources g) →
  mutate_genome plan g ownership genome bit_index action target authorization = Ok genome' →
  ∃ s, od_get (sources g) (Plan.focus_source plan) = Some s ∧
    Plan.focus_source plan ∈ Path.source_ids (Plan.path plan) ∧ 0 ≤ bit_index < Source.width s ∧
    (∀ t, target = Some t → (target_kind t ∉ _RUNTIME_TARGET_KINDS) ∧ target_fits s t) ∧
    (authorization = None → bit_owners g s (Source.bit_offset s + bit_index) = 1%nat) ∧
    let bit := Source.bit_offset s + bit_index in
    if decide (Source.kind s = "memory_image") then
      ∃ pre i i' post, initial_images genome = pre ++ i :: post ∧
        genome' = with_images (pre ++ i' :: post) genome ∧
        Forall (λ j, ¬ image_matches s j) pre ∧ image_matches s i ∧ image_bit_flipped bit i i'
    else
      (authorization = None → ∃ producer, mutation_source (Source.component s) (Source.port s)
         (Source.bit_offset s) (Source.width s) (Plan.direction plan) ownership = Ok producer) ∧
      ∃ pre a a' post, actions genome = pre ++ a :: post ∧ genome' = with_actions (pre ++ a' :: post) genome ∧
        Forall (λ b, is_requested b → ¬ holds_bit s bit b) pre ∧
        is_requested a ∧ holds_bit s bit a ∧ action_bit_flipped bit a a'.
Proof.
  intros Hsrc (s & only & (Ht & _ & Hp & Hs & Hc & Hr & Ho) & Hch & _)%mutate_genome_Ok.
  exists s. split; [done|]. split.
  { unfold check_path in Hp. apply bind_Ok in Hp as (_ & _ & (_ & _ & (_ & _ & Hp)%bind_Ok)%bind_Ok).
    apply raise_if_Ok, negb_false_iff, has_elem in Hp. done. }
  split; [done|]. split.
  { intros t Hteq. split; [by apply has_false, Ht|by eapply check_target_fits]. }
  split; [done|].
  assert (H0 : 0 ≤ Source.bit_offset s).
  { assert (Hin : (Plan.focus_source plan, s) ∈ sources g) by by apply od_get_elem.
    rewrite Forall_forall in Hsrc. specialize (Hsrc _ Hin). cbn in Hsrc.
    unfold FuzzableSource_post_init in Hsrc. inv_Ok. lia. }
  cbn zeta. unfold changed in Hch. destruct (decide (Source.kind s = "memory_image")) as [Hk|Hk].
  - destruct Hch as (images & (pre & i & post & Hi & Hpre & Hm & Hw & _ & ->) & ->).
    exists pre, i, (with_data (flip_bit (image_data i) (Source.bit_offset s + bit_index)) i), post.
    do 4 (split; [done|]). apply (image_flipped s); lia.
  - apply check_target_requested in Hc as ->; [|done].
    destruct Hch as (Hown & l & (pre & a & post & Ha & Hpre & [Hex Hb] & _ & ->) & ->). split; [done|].
    exists pre, a, (flip_value (Source.bit_offset s + bit_index) a), post. do 2 (split; [done|]).
    split; [|split; [by apply excluded_requested|split; [done|]]].
    + eapply Forall_impl; [exact Hpre|]. intros b [Hx|(w & Hw & Hn)] Hreq%excluded_requested; [done|].
      intros (w' & Hw' & Hd). congruence.
    + apply action_flipped. destruct Hb as (w & _ & _ & _ & _ & Hb). lia.
Qed.

(** The same mutation applied again restores the genome: a genome accepted
    by its constructors and mutated with some arguments is again accepted with
    the same arguments, and the result is the genome before the mutation. *)
Lemma mutation_is_an_involution genome genome' :
  ScenarioGenome_post_init genome = Ok genome →
  Forall (λ i, MemoryImage_post_init i = Ok i) (initial_images genome) →
  Forall (λ a, Action_post_init a = Ok a) (actions genome) →
  mutate_genome plan g ownership genome bit_index action target authorization = Ok genome' →
  mutate_genome plan g ownership genome' bit_index action target authorization = Ok genome.
Proof.
  intros Hg Hi Ha (s & only & Hadm & Hch & _)%mutate_genome_Ok. apply mutate_genome_Ok. exists s, only.
  split; [|split; [by apply changed_back|done]].
  eapply admitted_back; [|done]. by eapply changed_direction.
Qed.
End properties.

(** ** Examples *)
Module Example_mutation.
#[local] Existing Instance checksum_hashlib.

Definition start : Trigger := mkTrigger "START" EmptyString EmptyString 0 0 1.
Definition pin : FuzzableSource := mkSource "pin" "uart" "rx" 4 4 ["IP_TO_CPU"] "source" None.
Definition ram : FuzzableSource := mkSource "ram" "mem" "boot" 0 16 ["IP_TO_CPU"] "memory_image" (Some 0).
Definition graph : DependencyGraph :=
  match new_graph [pin; ram] [mkRule "irq" ["pin"; "ram"] "DATA_BINDING"] with
  | Ok g => g
  | Err _ => mkGraph [] [] [] []
  end.
Definition ownership : OwnershipMap :=
  match compile_ownership [mkField "uart" "rx" 8] [mkOwner "uart" "rx" 0 4 "fixed" "tie"; mkOwner "uart" "rx" 4 4 "source" "fuzz"] with
  | Ok m => m
  | Err _ => mkOwnership ∅
  end.
Definition path : DependencyPath := mkPath "irq" ["pin"; "ram"] [].
Definition genome : ScenarioGenome :=
  mkGenome "t" "IP_TO_CPU" "p" ["uart"; "mem"] 8
    [mkAction "a0" "uart" "rx" 1 "IP_TO_CPU" start EmptyString 0 0 (Some 4);
     mkAction "a1" "uart" "rx" 5 "IP_TO_CPU" start EmptyString 0 4 (Some 4)]
    [mkImage "boot" "mem" 0 "00ff"] 2 [] 0.

Definition plan focus : MutationPlan := mkPlan "IP_TO_CPU" "irq" path focus.

Definition pin_mutated : ScenarioGenome :=
  with_actions [mkAction "a0" "uart" "rx" 1 "IP_TO_CPU" start EmptyString 0 0 (Some 4);
     mkAction "a1" "uart" "rx" 7 "IP_TO_CPU" start EmptyString 0 4 (Some 4)] genome.
Definition ram_mutated : ScenarioGenome := with_images [mkImage "boot" "mem" 0 "00fd"] genome.

Lemma sources_ok : Forall (λ kv, FuzzableSource_post_init kv.2 = Ok kv.2) (sources graph).
Proof.
  change (sources graph) with [("pin", pin); ("ram", ram)]. repeat constructor.
Qed.

(** Two actions that declare the same bit: the requested one is flipped. *)
Definition twice : ScenarioGenome :=
  with_actions (actions genome ++ [mkAction "a2" "uart" "rx" 5 "IP_TO_CPU" start EmptyString 0 4 (Some 4)]) genome.
Definition twice_mutated : ScenarioGenome :=
  with_actions (actions genome ++ [mkAction "a2" "uart" "rx" 7 "IP_TO_CPU" start EmptyString 0 4 (Some 4)]) genome.

Lemma mutation_flips_one_bit_witness :
  mutate_genome (plan "pin") graph ownership twice 1 (Some "a2") None None = Ok twice_mutated ∧
  ∃ s, od_get (sources graph) "pin" = Some s ∧
    "pin" ∈ Path.source_ids (Plan.path (plan "pin")) ∧ 0 ≤ 1 < Source.width s ∧
    (∀ t, None = Some t → (target_kind t ∉ _RUNTIME_TARGET_KINDS) ∧ target_fits (Some "a2") s t) ∧
    ((None : option Authorization) = None → bit_owners graph s (Source.bit_offset s + 1) = 1%nat) ∧
    if decide (Source.kind s = "memory_image") then
      ∃ pre i i' post, initial_images twice = pre ++ i :: post ∧
        twice_mutated = with_images (pre ++ i' :: post) twice ∧
        Forall (λ j, ¬ image_matches s j) pre ∧ image_matches s i ∧
        image_bit_flipped (Source.bit_offset s + 1) i i'
    else
      ((None : option Authorization) = None → ∃ producer, mutation_source (Source.component s) (Source.port s)
         (Source.bit_offset s) (Source.width s) "IP_TO_CPU" ownership = Ok producer) ∧
      ∃ pre a a' post, actions twice = pre ++ a :: post ∧ twice_mutated = with_actions (pre ++ a' :: post) twice ∧
        Forall (λ b, is_requested (Some "a2") None b →
                     ¬ holds_bit (plan "pin") ownership s (Source.bit_offset s + 1) b) pre ∧
        is_requested (Some "a2") None a ∧
        holds_bit (plan "pin") ownership s (Source.bit_offset s + 1) a ∧
        action_bit_flipped (Source.bit_offset s + 1) a a'.
Proof.
  assert (Hm : mutate_genome (plan "pin") graph ownership twice 1 (Some "a2") None None = Ok twice_mutated) by (vm_compute; reflexivity).
  assert (Hs : Forall (λ kv, FuzzableSource_post_init kv.2 = Ok kv.2) (sources graph)) by (apply sources_ok).
  split; [exact Hm|].
  apply (mutation_flips_one_bit (plan "pin") graph ownership 1 (Some "a2") None None
    twice twice_mutated); [exact Hs|exact Hm].
Defined.

Lemma mutation_is_an_involution_witness :
  mutate_genome (plan "ram") graph ownership genome 9 None None None = Ok ram_mutated ∧ mutate_genome (plan "ram") graph ownership ram_mutated 9 None None None = Ok genome.
Proof.
  assert (Hm : mutate_genome (plan "ram") graph ownership genome 9 None None None = Ok ram_mutated) by (vm_compute; reflexivity).
  split; [exact Hm|].
  apply (mutation_is_an_involution (plan "ram") graph ownership 9 None None None
    genome ram_mutated); [vm_compute; reflexivity|repeat constructor|repeat constructor|exact Hm].
Defined.
End Example_mutation.
