(* ===== verification/Uart.v ===== *)
(** * The external serial peer

    Models [src/src/myfuzz/scenario/uart_peer.py] ([Uart8N1Peer]): a source of
    8N1 frames on the line it drives, and a receiver of the frames on the line
    it observes.  The two bisections are the library's loops, with the length
    of the list as fuel.

    The theorems: any legal 8N1 waveform sampled at every tick is received
    without error, and what a peer drives is such a waveform, so a peer wired to
    another receives exactly the bytes that were scheduled. *)

From S2P Require Import Prelude Isa.

Local Open Scope Z_scope.

(** ** [bisect_left], [bisect_right] *)

Section bisect.
Context (below : Z → bool) (a : list Z).

Fixpoint bisect_loop (fuel lo hi : nat) : nat :=
  match fuel with
  | O => lo
  | S fuel =>
      if (lo <? hi)%nat then
        let mid := ((lo + hi) `div` 2)%nat in
        if below (nth mid a 0) then bisect_loop fuel (S mid) hi else bisect_loop fuel lo mid
      else lo
  end.

Lemma bisect_loop_spec fuel : ∀ lo hi,
  (hi - lo ≤ fuel)%nat → (lo ≤ hi ≤ length a)%nat →
  (∀ i j, (i ≤ j < length a)%nat → below (nth j a 0) = true → below (nth i a 0) = true) →
  (∀ i, (i < lo)%nat → below (nth i a 0) = true) →
  (∀ i, (hi ≤ i < length a)%nat → below (nth i a 0) = false) →
  let r := bisect_loop fuel lo hi in
  (r ≤ length a)%nat ∧ (∀ i, (i < r)%nat → below (nth i a 0) = true) ∧
  (∀ i, (r ≤ i < length a)%nat → below (nth i a 0) = false).
Proof.
  induction fuel as [|fuel IH]; intros lo hi Hf Hr Hmono Hlo Hhi; cbn [bisect_loop]; cbv zeta.
  { split_and!; [lia|done|]. intros i Hi. apply Hhi. lia. }
  destruct (Nat.ltb_spec lo hi).
  2: { split_and!; [lia|done|]. intros i Hi. apply Hhi. lia. }
  assert (Hmid : (lo ≤ (lo + hi) `div` 2 < hi)%nat).
  { split; [apply Nat.div_le_lower_bound; lia|apply Nat.Div0.div_lt_upper_bound; lia]. }
  set (mid := ((lo + hi) `div` 2)%nat) in *.
  destruct (below (nth mid a 0)) eqn:Hb; apply IH; try done; try lia.
  - intros i Hi. apply (Hmono i mid); [lia|done].
  - intros i Hi. destruct (below (nth i a 0)) eqn:Hbi; [|done].
    rewrite (Hmono mid i) in Hb; [done|lia|done].
Qed.
End bisect.

Definition bisect_right (a : list Z) (x : Z) : nat :=
  bisect_loop (λ v, negb (x <? v)) a (length a) 0 (length a).
Definition bisect_left (a : list Z) (x : Z) : nat :=
  bisect_loop (λ v, v <? x) a (length a) 0 (length a).

(** ** The peer *)

Record Uart8N1Peer := mkUart {
  source : list Z;
  clocks_per_bit : Z;
  source_start_tick : option Z;
  _source_starts : list Z;
  _source_segments : list (list Z);
  last_line : Z;
  start_tick : option Z;
  next_sample : Z;
  bits : list Z;
  captured : list Z;
  last_observed_tick : Z }.

(** [reset_case] *)
Definition reset_case (u : Uart8N1Peer) : Uart8N1Peer :=
  mkUart (source u) (clocks_per_bit u) None [] [] 1 None 0 [] [] (-1).

(** [__init__] *)
Definition new_uart (source : list Z) (clocks_per_bit : Z) : result Uart8N1Peer :=
  raise_if ((64 <? Z.of_nat (length source))
            || negb ((16 <=? clocks_per_bit) && (clocks_per_bit <=? 4096)))
    (ValueError "invalid UART serial source") ;;
  mret (reset_case (mkUart source clocks_per_bit None [] [] 1 None 0 [] [] (-1))).

Definition schedule (tick : Z) (segment : list Z) (u : Uart8N1Peer) : Uart8N1Peer :=
  mkUart (source u) (clocks_per_bit u) (source_start_tick u) (_source_starts u ++ [tick])
    (_source_segments u ++ [segment]) (last_line u) (start_tick u) (next_sample u) (bits u)
    (captured u) (last_observed_tick u).
Definition set_source_start (tick : Z) (u : Uart8N1Peer) : Uart8N1Peer :=
  mkUart (source u) (clocks_per_bit u) (Some tick) (_source_starts u) (_source_segments u)
    (last_line u) (start_tick u) (next_sample u) (bits u) (captured u) (last_observed_tick u).

(** [start_source] *)
Definition start_source (tick : Z) : M Uart8N1Peer () := λ u,
  (check (bool_decide (is_Some (source_start_tick u)) || (tick <? 0))
     (ValueError "UART source already scheduled") ;;
   modify (set_source_start tick) ;;
   modify (schedule tick (source u))) u.

(** Ticks a segment takes. *)
Definition segment_ticks (cpb : Z) (segment : list Z) : Z := 10 * cpb * Z.of_nat (length segment).

(** [source_end_tick] *)
Definition source_end_tick (u : Uart8N1Peer) : Z :=
  match last (_source_starts u), last (_source_segments u) with
  | Some start, Some segment => start + segment_ticks (clocks_per_bit u) segment
  | _, _ => 0
  end.

(** [append_source] *)
Definition append_source (segment : list Z) (tick : Z) : M Uart8N1Peer () := λ u,
  (check (bool_decide (source_start_tick u = None)
          || negb (bool_decide (1 ≤ length segment ≤ 64)%nat)
          || (tick <? source_end_tick u + clocks_per_bit u))
     (ValueError "invalid or overlapping UART source frame") ;;
   modify (schedule tick segment)) u.

(** [self._source_starts[index]] and [self._source_segments[index]]. *)
Definition segment_at (u : Uart8N1Peer) (index : nat) : Z * list Z :=
  (nth index (_source_starts u) 0, nth index (_source_segments u) []).

(** [source_active] *)
Definition source_active (u : Uart8N1Peer) (tick : Z) : bool :=
  match bisect_right (_source_starts u) tick with
  | O => false
  | S index =>
      let '(start, segment) := segment_at u index in
      tick <? start + segment_ticks (clocks_per_bit u) segment
  end.

(** [source_overlaps] *)
Definition source_overlaps (u : Uart8N1Peer) (start end_ : Z) : bool :=
  if end_ <=? start then false
  else match bisect_left (_source_starts u) end_ with
       | O => false
       | S index =>
           let '(first, segment) := segment_at u index in
           start <? first + segment_ticks (clocks_per_bit u) segment
       end.

(** Slot 0 is the start bit, 9 the stop bit. *)
Definition frame_bit (byte slot : Z) : Z :=
  if slot =? 0 then 0 else if slot =? 9 then 1 else (byte ≫ (slot - 1)) &&& 1.

(** [drive_rx] *)
Definition drive_rx (u : Uart8N1Peer) (tick : Z) : Z :=
  match bisect_right (_source_starts u) tick with
  | O => 1
  | S index =>
      let '(start, segment) := segment_at u index in
      let slot := (tick - start) `div` clocks_per_bit u in
      if 10 * Z.of_nat (length segment) <=? slot then 1
      else frame_bit (nth (Z.to_nat (slot `div` 10)) segment 0) (slot `mod` 10)
  end.

(** *** The receiver *)

Definition set_receiver (line : Z) (start : option Z) (n : Z) (bs cs : list Z) (tick : Z)
    (u : Uart8N1Peer) : Uart8N1Peer :=
  mkUart (source u) (clocks_per_bit u) (source_start_tick u) (_source_starts u) (_source_segments u)
    line start n bs cs tick.

(** The loop that samples: [n] is [self.next_sample], at most ten. *)
Fixpoint sample_loop (fuel : nat) (first cpb tick line : Z) (n : Z) (bs : list Z) : Z * list Z :=
  match fuel with
  | O => (n, bs)
  | S fuel =>
      if n <? 10 then
        if tick <? first + cpb `div` 2 + n * cpb then (n, bs)
        else sample_loop fuel first cpb tick line (n + 1) (bs ++ [line])
      else (n, bs)
  end.

(** [sum(bit << index for index, bit in enumerate(bits[1:9]))] *)
Definition from_bits (l : list Z) : Z :=
  foldr Z.add 0 (imap (λ index bit, bit ≪ Z.of_nat index) l).

(** [observe_tx] *)
Definition observe_tx (tick line : Z) : M Uart8N1Peer () := λ u,
  if (tick <=? last_observed_tick u) || negb (in_list line [0; 1]) then
    (Err (ValueError "invalid UART TX observation"), u)
  else
    let '(start, n, bs) :=
      if bool_decide (start_tick u = None) && (last_line u =? 1) && (line =? 0)
      then (Some tick, 0, []) else (start_tick u, next_sample u, bits u) in
    match start with
    | None => (Ok (), set_receiver line None n bs (captured u) tick u)
    | Some first =>
        let '(n, bs) := sample_loop 10 first (clocks_per_bit u) tick line n bs in
        if n =? 10 then
          if negb (nth 0 bs 0 =? 0) || negb (nth 9 bs 0 =? 1) then
            (Err (ValueError "invalid observed UART 8N1 frame"),
             set_receiver (last_line u) (Some first) n bs (captured u) tick u)
          else
            (Ok (), set_receiver line None n bs
               (captured u ++ [from_bits (take 8 (drop 1 bs))]) tick u)
        else (Ok (), set_receiver line (Some first) n bs (captured u) tick u)
    end.

(** ** What a legal waveform is *)

(** The frames start in order, none before the previous one has ended; the line
    carries each slot for a bit time, and is high when there is no frame. *)
Record legal (cpb : Z) (frames : list (Z * Z)) (line : Z → Z) : Prop := {
  lg_bytes : Forall (λ f, is_byte f.2) frames;
  lg_order : StronglySorted (λ f g, f.1 + 10 * cpb ≤ g.1) frames;
  lg_on f slot t : f ∈ frames → 0 ≤ slot < 10 →
    f.1 + slot * cpb ≤ t < f.1 + (slot + 1) * cpb → line t = frame_bit f.2 slot;
  lg_off t : Forall (λ f, ¬ (f.1 ≤ t < f.1 + 10 * cpb)) frames → line t = 1 }.

(** The ticks from [lo] on, one observation each. *)
Definition observe_ticks (line : Z → Z) (lo n : Z) : M Uart8N1Peer () :=
  for_eachM (λ t, observe_tx t (line t)) (seqZ lo n).

Lemma frame_bit_binary b slot : in_list (frame_bit b slot) [0; 1] = true.
Proof.
  unfold frame_bit. case_match; [done|]. case_match; [done|].
  unfold in_list. apply bool_decide_eq_true. change 1 with (Z.ones 1) at 2.
  rewrite Z.land_ones by lia. pose proof (Z.mod_pos_bound (b ≫ (slot - 1)) (2 ^ 1)).
  assert (Hc : (b ≫ (slot - 1)) `mod` 2 ^ 1 = 0 ∨ (b ≫ (slot - 1)) `mod` 2 ^ 1 = 1) by lia.
  destruct Hc as [-> | ->]; set_solver.
Qed.

Definition frame_bits (b n : Z) : list Z := frame_bit b <$> seqZ 0 n.

Lemma frame_bits_snoc b n : 0 ≤ n → frame_bits b (n + 1) = frame_bits b n ++ [frame_bit b n].
Proof. intros Hn. unfold frame_bits. rewrite seqZ_app, fmap_app by lia. done. Qed.

Lemma frame_bits_byte b : is_byte b → from_bits (take 8 (drop 1 (frame_bits b 10))) = b.
Proof.
  intros Hb. assert (Hall : Forall (λ b, from_bits (take 8 (drop 1 (frame_bits b 10))) = b) (seqZ 0 256)).
  { apply Forall_forall. intros x Hx.
    assert (Hd : forallb (λ b, from_bits (take 8 (drop 1 (frame_bits b 10))) =? b) (seqZ 0 256) = true)
      by (vm_compute; reflexivity).
    rewrite forallb_forall in Hd. apply Z.eqb_eq, Hd. by apply list_elem_of_In. }
  eapply Forall_forall in Hall; [exact Hall|]. apply elem_of_seqZ. unfold is_byte in Hb. lia.
Qed.

Section receive.
Context (cpb : Z) (frames : list (Z * Z)) (line : Z → Z).
Context (Hcpb : 16 ≤ cpb) (Hlegal : legal cpb frames line).

(** Between frames, or after [n] samples of the frame [f]. *)
Inductive receiving (t : Z) (todo : list (Z * Z)) (u : Uart8N1Peer) : Prop :=
  | rx_idle : start_tick u = None → last_line u = 1 →
      (∀ f, head todo = Some f → t ≤ f.1) → receiving t todo u
  | rx_busy f rest n : todo = f :: rest → start_tick u = Some f.1 → f.1 < t → 0 ≤ n < 10 →
      t ≤ f.1 + cpb `div` 2 + n * cpb → next_sample u = n → bits u = frame_bits f.2 n →
      receiving t todo u.

Record rx_at (t : Z) (u : Uart8N1Peer) : Prop := {
  rx_clock : clocks_per_bit u = cpb;
  rx_tick : last_observed_tick u < t;
  rx_state : ∃ past todo, frames = past ++ todo ∧ captured u = past.*2 ∧
    Forall (λ f, f.1 + 9 * cpb ≤ t) past ∧ receiving t todo u }.

(** No frame starts: the line is in a stop bit, or idle. *)
Lemma line_idle past todo t :
  frames = past ++ todo → Forall (λ f, f.1 + 9 * cpb ≤ t) past →
  (∀ f, head todo = Some f → t < f.1) → line t = 1.
Proof.
  intros Hf Hpast Hhead. destruct (decide (Exists (λ f, f.1 ≤ t < f.1 + 10 * cpb) frames)) as [Hex|Hno].
  2: { apply (lg_off _ _ _ Hlegal), Forall_Exists_neg, Hno. }
  apply Exists_exists in Hex as (f & Hin & Ht). pose proof Hin as Hin'. rewrite Hf in Hin'.
  apply elem_of_app in Hin' as [Hp|Hn].
  - eapply Forall_forall in Hpast; [|exact Hp]. cbn in Hpast.
    rewrite (lg_on _ _ _ Hlegal f 9) by (done || lia). done.
  - exfalso. pose proof (lg_order _ _ _ Hlegal) as Ho. rewrite Hf in Ho.
    apply StronglySorted_app_1_r in Ho. destruct todo as [|g todo]; [by apply not_elem_of_nil in Hn|].
    specialize (Hhead g eq_refl). apply StronglySorted_cons in Ho as [Hg _].
    apply elem_of_cons in Hn as [->|Hn]; [lia|]. eapply Forall_forall in Hg; [|exact Hn]. cbn in Hg. lia.
Qed.

Lemma line_binary t : in_list (line t) [0; 1] = true.
Proof.
  destruct (decide (Exists (λ f, f.1 ≤ t < f.1 + 10 * cpb) frames)) as [Hex|Hno].
  2: { rewrite (lg_off _ _ _ Hlegal); [done|by apply Forall_Exists_neg]. }
  apply Exists_exists in Hex as (f & Hin & Ht).
  rewrite (lg_on _ _ _ Hlegal f ((t - f.1) `div` cpb)); [apply frame_bit_binary|done| |];
    Z.div_mod_to_equations; nia.
Qed.

Lemma sample_loop_wait fuel first t b n bs :
  0 ≤ n < 10 → t < first + cpb `div` 2 + n * cpb → sample_loop (S fuel) first cpb t b n bs = (n, bs).
Proof.
  intros Hn Ht. cbn [sample_loop]. rewrite (proj2 (Z.ltb_lt n 10)) by lia.
  by rewrite (proj2 (Z.ltb_lt _ _) Ht).
Qed.

Lemma sample_loop_one first t b n bs :
  0 ≤ n < 10 → t = first + cpb `div` 2 + n * cpb → sample_loop 10 first cpb t b n bs = (n + 1, bs ++ [b]).
Proof.
  intros Hn Ht. cbn [sample_loop]. rewrite (proj2 (Z.ltb_lt n 10)) by lia.
  rewrite (proj2 (Z.ltb_ge _ _)) by lia.
  destruct (Z.ltb_spec (n + 1) 10); [|done].
  by rewrite (proj2 (Z.ltb_lt t (first + cpb `div` 2 + (n + 1) * cpb))) by lia.
Qed.

(** One tick with the state of the receiver spelled out. *)
Definition steps (t : Z) (u : Uart8N1Peer) : Prop :=
  ∃ u', observe_tx t (line t) u = (Ok (), u') ∧ rx_at (t + 1) u'.

Lemma half_bit : 8 ≤ cpb `div` 2 ∧ cpb `div` 2 < cpb.
Proof. split; [apply Z.div_le_lower_bound; lia|apply Z.div_lt_upper_bound; lia]. Qed.

(** Between frames: the line falls exactly where the next one starts. *)
Lemma observe_idle t u past todo :
  clocks_per_bit u = cpb → last_observed_tick u < t → frames = past ++ todo → captured u = past.*2 →
  Forall (λ f, f.1 + 9 * cpb ≤ t) past →
  start_tick u = None → last_line u = 1 → (∀ f, head todo = Some f → t ≤ f.1) → steps t u.
Proof.
  intros Hck Htick Hf Hcap Hpast Hs Hl Hhead. pose proof half_bit.
  assert (Hpast' : Forall (λ f, f.1 + 9 * cpb ≤ t + 1) past) by (eapply Forall_impl; [exact Hpast|cbn; lia]).
  unfold steps, observe_tx. rewrite (proj2 (Z.leb_gt t (last_observed_tick u))) by lia. cbn [orb].
  rewrite Hs, Hl. rewrite bool_decide_eq_true_2 by done. cbn [andb Z.eqb Pos.eqb].
  assert (Hcase : (∃ f rest, todo = f :: rest ∧ t = f.1) ∨ (∀ f, head todo = Some f → t < f.1)).
  { destruct todo as [|f rest]; [by right|]. specialize (Hhead f eq_refl).
    destruct (Z.eq_dec t f.1); [left; by eauto|right; intros ? [= <-]; lia]. }
  destruct Hcase as [(f & rest & -> & ->)|Hlate].
  - rewrite (lg_on _ _ _ Hlegal f 0) by (rewrite ?Hf; set_solver || lia).
    change (frame_bit f.2 0) with 0. cbn [Z.eqb]. change (in_list 0 [0; 1]) with true. cbn [negb].
    rewrite Hck, sample_loop_wait by lia. cbn [Z.eqb]. eexists. split; [reflexivity|].
    split; [done|cbn; lia|]. exists past, (f :: rest). split_and!; [done|done|done|].
    by apply (rx_busy _ _ _ f rest 0); try done; cbn; lia.
  - rewrite (line_idle past todo t) by done. cbn [Z.eqb andb]. change (in_list 1 [0; 1]) with true. cbn [negb].
    eexists. split; [reflexivity|]. split; [done|cbn; lia|]. exists past, todo.
    split_and!; [done|done|done|]. apply rx_idle; [done|done|]. intros f Hh. specialize (Hlate f Hh). lia.
Qed.

(** Inside a frame: a bit is sampled in its middle, the tenth ends the frame. *)
Lemma observe_busy t u past f rest n :
  clocks_per_bit u = cpb → last_observed_tick u < t → frames = past ++ f :: rest →
  captured u = past.*2 → Forall (λ f, f.1 + 9 * cpb ≤ t) past →
  start_tick u = Some f.1 → f.1 < t → 0 ≤ n < 10 → t ≤ f.1 + cpb `div` 2 + n * cpb →
  next_sample u = n → bits u = frame_bits f.2 n → steps t u.
Proof.
  intros Hck Htick Hf Hcap Hpast Hs Hft Hn Htn Hns Hbits. pose proof half_bit.
  assert (Hpast' : Forall (λ f, f.1 + 9 * cpb ≤ t + 1) past) by (eapply Forall_impl; [exact Hpast|cbn; lia]).
  unfold steps, observe_tx. rewrite (proj2 (Z.leb_gt t (last_observed_tick u))) by lia. cbn [orb].
  rewrite Hs, line_binary. rewrite bool_decide_eq_false_2 by done. cbn [andb negb].
  destruct (Z.eq_dec t (f.1 + cpb `div` 2 + n * cpb)) as [Heq|Hne].
  2: { rewrite Hck, Hns, sample_loop_wait by lia. rewrite (proj2 (Z.eqb_neq n 10)) by lia.
    eexists. split; [reflexivity|]. split; [done|cbn; lia|]. exists past, (f :: rest).
    split_and!; [done|done|done|]. apply (rx_busy _ _ _ f rest n); try done; lia. }
  assert (Hin : f ∈ frames) by (rewrite Hf; set_solver).
  assert (Hline : line t = frame_bit f.2 n) by (apply (lg_on _ _ _ Hlegal); [done|lia|nia]).
  rewrite Hck, Hns, sample_loop_one, Hbits, Hline, <- frame_bits_snoc by lia.
  destruct (Z.eqb_spec (n + 1) 10) as [Hend|Hmore].
  - replace n with 9 in * by lia. change (9 + 1) with 10. cbn [orb negb Z.eqb Pos.eqb].
    change (nth 0 (frame_bits f.2 10) 0) with 0. change (nth 9 (frame_bits f.2 10) 0) with 1. cbn [orb negb Z.eqb Pos.eqb].
    pose proof (lg_bytes _ _ _ Hlegal) as Hb. eapply Forall_forall in Hb; [|exact Hin].
    rewrite frame_bits_byte by done.
    eexists. split; [reflexivity|]. split; [done|cbn; lia|]. exists (past ++ [f]), rest.
    split_and!; [by rewrite <- app_assoc|cbn; by rewrite Hcap, fmap_app| |].
    + apply Forall_app. split; [done|]. apply Forall_singleton. lia.
    + apply rx_idle; [done|done|]. intros g Hg. pose proof (lg_order _ _ _ Hlegal) as Ho. rewrite Hf in Ho.
      apply StronglySorted_app_1_r, StronglySorted_cons in Ho as [Ho _].
      destruct rest as [|g' rest]; [done|]. cbn in Hg. simplify_eq. inversion_clear Ho. lia.
  - eexists. split; [reflexivity|]. split; [done|cbn; lia|]. exists past, (f :: rest).
    split_and!; [done|done|done|]. apply (rx_busy _ _ _ f rest (n + 1)); try done; cbn; lia.
Qed.

Lemma observe_step t u : rx_at t u → steps t u.
Proof.
  intros [Hck Htick (past & todo & Hf & Hcap & Hpast & Hr)].
  destruct Hr as [Hs Hl Hhead|f rest n -> Hs Hft Hn Htn Hns Hbits].
  - by apply (observe_idle t u past todo).
  - by apply (observe_busy t u past f rest n).
Qed.

Lemma observe_ticks_ok n : ∀ lo u,
  rx_at lo u → ∃ u', observe_ticks line lo (Z.of_nat n) u = (Ok (), u') ∧ rx_at (lo + Z.of_nat n) u'.
Proof.
  unfold observe_ticks. induction n as [|n IH]; intros lo u Hu.
  { exists u. split; [done|]. by rewrite Z.add_0_r. }
  rewrite seqZ_cons by lia. cbn [for_eachM]. destruct (observe_step _ _ Hu) as (u1 & Hu1 & Hrx).
  unfold mbind, M_bind. rewrite Hu1.
  destruct (IH _ _ Hrx) as (u2 & Hu2 & Hrx2). exists u2.
  replace (Z.pred (Z.of_nat (S n))) with (Z.of_nat n) by lia. rewrite <- Z.add_1_r. split; [exact Hu2|].
  by replace (lo + Z.of_nat (S n)) with (lo + 1 + Z.of_nat n) by lia.
Qed.

(** A peer listening from tick 0 on has all the frames once they have ended. *)
Lemma receives_legal u n :
  clocks_per_bit u = cpb → last_observed_tick u < 0 → start_tick u = None → last_line u = 1 →
  captured u = [] → Forall (λ f, 0 ≤ f.1 ∧ f.1 + 10 * cpb ≤ n) frames → 0 ≤ n →
  ∃ u', observe_ticks line 0 n u = (Ok (), u') ∧ captured u' = frames.*2.
Proof.
  intros Hck Hlo Hst Hll Hcap Hfr Hn.
  destruct (observe_ticks_ok (Z.to_nat n) 0 u) as (u' & Hrun & [_ _ (past & todo & Hf & Hc & _ & Hr)]).
  { split; [done|done|]. exists [], frames. split_and!; [done|done|by constructor|]. apply rx_idle; [done|done|].
    intros f Hf. destruct frames as [|g gs]; [done|]. cbn in Hf. simplify_eq. inversion_clear Hfr. lia. }
  rewrite Z2Nat.id in Hrun, Hr by lia. exists u'. split; [done|]. rewrite Hc, Hf.
  assert (todo = []) as ->; [|by rewrite app_nil_r].
  destruct Hr as [_ _ Hhead|f rest m -> _ Hlt ? Hle _ _].
  - destruct todo as [|f rest]; [done|]. specialize (Hhead f eq_refl).
    rewrite Hf in Hfr. apply Forall_app in Hfr as [_ Hfr]. inversion_clear Hfr. lia.
  - rewrite Hf in Hfr. apply Forall_app in Hfr as [_ Hfr]. inversion_clear Hfr.
    assert (cpb `div` 2 < cpb) by (apply Z.div_lt_upper_bound; lia). nia.
Qed.
End receive.

(** ** What a peer drives *)

(** The frames of one segment, and of all that are scheduled. *)
Definition segment_frames (cpb start : Z) (segment : list Z) : list (Z * Z) :=
  imap (λ j b, (start + 10 * cpb * Z.of_nat j, b)) segment.
Definition frames_of (cpb : Z) (ss : list (Z * list Z)) : list (Z * Z) :=
  ss ≫= λ s, segment_frames cpb s.1 s.2.

Record scheduled (cpb : Z) (ss : list (Z * list Z)) (u : Uart8N1Peer) : Prop := {
  sc_clock : clocks_per_bit u = cpb;
  sc_start : is_Some (source_start_tick u) ∧ ss ≠ [];
  sc_starts : _source_starts u = ss.*1;
  sc_segments : _source_segments u = ss.*2;
  sc_bytes : Forall (λ s, 0 ≤ s.1 ∧ Forall is_byte s.2) ss;
  sc_order : StronglySorted (λ s s', s.1 + segment_ticks cpb s.2 + cpb ≤ s'.1) ss }.

Section transmit.
Context (cpb : Z) (Hcpb : 16 ≤ cpb).

Lemma segment_ticks_nonneg segment : 0 ≤ segment_ticks cpb segment.
Proof. unfold segment_ticks. nia. Qed.

Lemma segment_frames_elem start segment f :
  f ∈ segment_frames cpb start segment ↔
  ∃ j b, segment !! j = Some b ∧ f = (start + 10 * cpb * Z.of_nat j, b).
Proof.
  unfold segment_frames. rewrite list_elem_of_lookup. setoid_rewrite list_lookup_imap_Some. naive_solver.
Qed.

Lemma segment_frames_range start segment f :
  f ∈ segment_frames cpb start segment → start ≤ f.1 ∧ f.1 + 10 * cpb ≤ start + segment_ticks cpb segment.
Proof.
  intros (j & b & Hj & ->)%segment_frames_elem. apply lookup_lt_Some in Hj. unfold segment_ticks. cbn. nia.
Qed.

Lemma segment_frames_cons start b segment :
  segment_frames cpb start (b :: segment) = (start, b) :: segment_frames cpb (start + 10 * cpb) segment.
Proof.
  unfold segment_frames. rewrite imap_cons. f_equal; [f_equal; lia|]. apply imap_ext. intros j x _. cbn. f_equal. lia.
Qed.

Lemma segment_frames_sorted start segment :
  StronglySorted (λ f g, f.1 + 10 * cpb ≤ g.1) (segment_frames cpb start segment).
Proof.
  revert start. induction segment as [|b segment IH]; intros start; [constructor|].
  rewrite segment_frames_cons. constructor; [apply IH|]. apply Forall_forall. intros g Hg.
  apply segment_frames_range in Hg. cbn. lia.
Qed.

Lemma segment_frames_snd start segment : (segment_frames cpb start segment).*2 = segment.
Proof.
  revert start. induction segment as [|b segment IH]; intros start; [done|].
  rewrite segment_frames_cons. cbn. by rewrite IH.
Qed.

Lemma frames_of_elem ss f :
  f ∈ frames_of cpb ss ↔ ∃ s, s ∈ ss ∧ f ∈ segment_frames cpb s.1 s.2.
Proof. unfold frames_of. rewrite list_elem_of_bind. naive_solver. Qed.

Lemma frames_of_sorted ss :
  StronglySorted (λ s s', s.1 + segment_ticks cpb s.2 + cpb ≤ s'.1) ss →
  StronglySorted (λ f g, f.1 + 10 * cpb ≤ g.1) (frames_of cpb ss).
Proof.
  induction 1 as [|s ss Hss IH Hs]; [constructor|]. unfold frames_of; cbn. apply StronglySorted_app.
  split_and!; [|apply segment_frames_sorted|exact IH].
  intros f g Hf (s' & Hs' & Hg)%frames_of_elem. eapply Forall_forall in Hs; [|exact Hs']. cbn in Hs.
  apply segment_frames_range in Hf, Hg. lia.
Qed.

Lemma frames_of_snd ss : (frames_of cpb ss).*2 = concat ss.*2.
Proof.
  induction ss as [|s ss IH]; [done|]. unfold frames_of; cbn. rewrite fmap_app, segment_frames_snd. f_equal. exact IH.
Qed.

(** The segment a tick falls in is the last that started. *)
Lemma bisect_right_sorted (ss : list (Z * list Z)) t :
  StronglySorted (λ s s', s.1 + segment_ticks cpb s.2 + cpb ≤ s'.1) ss →
  (bisect_right ss.*1 t ≤ length ss)%nat ∧
  (∀ i s, ss !! i = Some s → s.1 ≤ t ↔ (i < bisect_right ss.*1 t)%nat).
Proof.
  intros Hss. pose proof (bisect_loop_spec (λ v, negb (t <? v)) ss.*1 (length ss.*1) 0 (length ss.*1)) as Hb.
  cbv zeta in Hb. fold (bisect_right ss.*1 t) in Hb.
  assert (Hlt : ∀ i j s s', (i < j)%nat → ss !! i = Some s → ss !! j = Some s' → s.1 ≤ s'.1).
  { intros i j s s' Hij Hi Hj. pose proof (sorted_lookup _ _ _ _ _ _ Hss Hi Hj Hij) as Hs. cbn in Hs.
    pose proof (segment_ticks_nonneg s.2). lia. }
  assert (Hnth : ∀ i s, ss !! i = Some s → nth i ss.*1 0 = s.1).
  { intros i s Hi. apply nth_lookup_Some. by rewrite list_lookup_fmap, Hi. }
  destruct Hb as (Hle & Hlo & Hhi); [lia|lia| |lia|lia|].
  { intros i j Hij Hbj. rewrite length_fmap in Hij.
    destruct (lookup_lt_is_Some_2 ss i ltac:(lia)) as [s Hs]. destruct (lookup_lt_is_Some_2 ss j ltac:(lia)) as [s' Hs'].
    rewrite (Hnth _ _ Hs), (Hnth _ _ Hs') in *. destruct (Nat.eq_dec i j) as [->|]; [congruence|].
    pose proof (Hlt i j s s' ltac:(lia) Hs Hs'). lia. }
  rewrite length_fmap in Hle, Hhi. split; [done|].
  intros i s Hi. split.
  - intros Hst. destruct (Nat.ltb_spec i (bisect_right ss.*1 t)); [done|].
    pose proof (lookup_lt_Some _ _ _ Hi). specialize (Hhi i ltac:(lia)). rewrite (Hnth _ _ Hi) in Hhi. lia.
  - intros Hlt'. specialize (Hlo i Hlt'). rewrite (Hnth _ _ Hi) in Hlo. lia.
Qed.

Lemma segment_at_lookup ss u i s :
  scheduled cpb ss u → ss !! i = Some s → segment_at u i = s.
Proof.
  intros Hu Hi. unfold segment_at. rewrite (sc_starts _ _ _ Hu), (sc_segments _ _ _ Hu).
  rewrite (nth_lookup_Some ss.*1 i 0 s.1) by (by rewrite list_lookup_fmap, Hi).
  rewrite (nth_lookup_Some ss.*2 i [] s.2) by (by rewrite list_lookup_fmap, Hi). by destruct s.
Qed.

(** While a segment is on the line, it is the one the bisection finds. *)
Lemma segment_found ss u i s t :
  scheduled cpb ss u → ss !! i = Some s → s.1 ≤ t < s.1 + segment_ticks cpb s.2 →
  bisect_right (_source_starts u) t = S i.
Proof.
  intros Hu Hi Ht. rewrite (sc_starts _ _ _ Hu).
  destruct (bisect_right_sorted ss t (sc_order _ _ _ Hu)) as [Hle Hb].
  pose proof (proj1 (Hb i s Hi) (proj1 Ht)) as Hlt.
  destruct (Nat.eq_dec (bisect_right ss.*1 t) (S i)) as [|Hne]; [done|]. exfalso.
  destruct (lookup_lt_is_Some_2 ss (S i) ltac:(lia)) as [s' Hs'].
  pose proof (proj2 (Hb (S i) s' Hs') ltac:(lia)).
  pose proof (sorted_lookup _ _ _ _ _ _ (sc_order _ _ _ Hu) Hi Hs' (Nat.lt_succ_diag_r i)) as Ho.
  cbn in Ho. lia.
Qed.

Lemma drive_on ss u s f slot t :
  scheduled cpb ss u → s ∈ ss → f ∈ segment_frames cpb s.1 s.2 → 0 ≤ slot < 10 →
  f.1 + slot * cpb ≤ t < f.1 + (slot + 1) * cpb → drive_rx u t = frame_bit f.2 slot.
Proof.
  intros Hu [i Hi]%list_elem_of_lookup Hf Hslot Ht. pose proof (segment_frames_range _ _ _ Hf) as Hr.
  unfold drive_rx. rewrite (segment_found ss u i s t) by (done || nia).
  rewrite (segment_at_lookup ss u i s) by done. destruct s as [start segment]. cbn [fst snd] in *.
  apply segment_frames_elem in Hf as (j & b & Hj & ->). cbn [fst snd] in *.
  rewrite (sc_clock _ _ _ Hu). pose proof (lookup_lt_Some _ _ _ Hj) as Hlt.
  assert (Hq : (t - start) `div` cpb = slot + Z.of_nat j * 10).
  { symmetry. apply (Z.div_unique _ _ _ (t - start - cpb * (slot + Z.of_nat j * 10))); [left; lia|lia]. }
  rewrite Hq. rewrite (proj2 (Z.leb_gt _ _)) by lia.
  rewrite Z.div_add, Z.mod_add, Z.div_small, Z.mod_small, Z.add_0_l, Nat2Z.id by lia.
  by rewrite (nth_lookup_Some _ _ _ _ Hj).
Qed.

Lemma drive_off ss u t :
  scheduled cpb ss u → Forall (λ f, ¬ (f.1 ≤ t < f.1 + 10 * cpb)) (frames_of cpb ss) → drive_rx u t = 1.
Proof.
  intros Hu Hno. unfold drive_rx. destruct (bisect_right (_source_starts u) t) as [|i] eqn:Hb; [done|].
  rewrite (sc_starts _ _ _ Hu) in Hb.
  destruct (bisect_right_sorted ss t (sc_order _ _ _ Hu)) as [Hle Hsp]. rewrite Hb in Hle, Hsp.
  destruct (lookup_lt_is_Some_2 ss i ltac:(lia)) as [s Hs].
  rewrite (segment_at_lookup ss u i s) by done. destruct s as [start segment].
  pose proof (proj2 (Hsp i _ Hs) ltac:(lia)) as Hst. cbn in Hst. rewrite (sc_clock _ _ _ Hu).
  destruct (Z.leb_spec (10 * Z.of_nat (length segment)) ((t - start) `div` cpb)) as [|Hslot]; [done|]. exfalso.
  assert (Hq : 0 ≤ (t - start) `div` cpb) by (apply Z.div_pos; lia).
  set (slot := (t - start) `div` cpb) in *.
  assert (Hdm : start + cpb * slot ≤ t < start + cpb * slot + cpb) by (subst slot; Z.div_mod_to_equations; nia).
  destruct (lookup_lt_is_Some_2 segment (Z.to_nat (slot `div` 10))) as [b Hb'].
  { Z.div_mod_to_equations. lia. }
  eapply Forall_forall in Hno.
  2: { apply frames_of_elem. exists (start, segment). split; [by eapply list_elem_of_lookup_2|].
       apply segment_frames_elem. exists (Z.to_nat (slot `div` 10)), b. split; [exact Hb'|reflexivity]. }
  apply Hno. cbn. rewrite Z2Nat.id by (Z.div_mod_to_equations; lia).
  assert (10 * (slot `div` 10) ≤ slot < 10 * (slot `div` 10) + 10) by (Z.div_mod_to_equations; lia). nia.
Qed.

Lemma drives_legal ss u : scheduled cpb ss u → legal cpb (frames_of cpb ss) (drive_rx u).
Proof.
  intros Hu. split.
  - apply Forall_forall. intros f (s & Hs & (j & b & Hj & ->)%segment_frames_elem)%frames_of_elem.
    pose proof (sc_bytes _ _ _ Hu) as Hb. eapply Forall_forall in Hb; [|exact Hs]. cbn.
    eapply Forall_lookup_1; [apply Hb|exact Hj].
  - apply frames_of_sorted, Hu.
  - intros f slot t (s & Hs & Hf)%frames_of_elem. by apply (drive_on ss u s).
  - intros t. by apply (drive_off ss).
Qed.
End transmit.

(** ** Scheduling *)

Lemma new_uart_state src cpb u : new_uart src cpb = Ok u →
  u = mkUart src cpb None [] [] 1 None 0 [] [] (-1) ∧ 16 ≤ cpb.
Proof. unfold new_uart. intros H. inv_Ok. split; [done|]. apply negb_false_iff in H1. lia. Qed.

Lemma start_source_scheduled src cpb u tick u' :
  new_uart src cpb = Ok u → start_source tick u = (Ok (), u') → Forall is_byte src →
  scheduled cpb [(tick, src)] u'.
Proof.
  intros [-> _]%new_uart_state Hs Hb. unfold start_source in Hs. inv_M. inv_Ok.
  injection Hs as <-.
  split; cbn; [done|by split; [eexists|]|done|done|repeat constructor; cbn; [lia|done]|repeat constructor].
Qed.

Section scheduling.
Context (cpb : Z) (Hcpb : 16 ≤ cpb).

Lemma append_scheduled ss segment tick u u' :
  scheduled cpb ss u → append_source segment tick u = (Ok (), u') → Forall is_byte segment →
  scheduled cpb (ss ++ [(tick, segment)]) u'.
Proof.
  intros Hu Ha Hb. unfold append_source in Ha. inv_M. inv_Ok. injection Ha as <-. destruct Hu as [Hck [Hst Hne] Hs Hg Hby Ho].
  destruct (exists_last Hne) as (ss0 & [s seg] & ->).
  assert (Hend : s + segment_ticks cpb seg + cpb ≤ tick).
  { match goal with H : (tick <? _) = false |- _ => revert H end.
    unfold source_end_tick. rewrite Hs, Hg, !fmap_app, !list_fmap_singleton, !last_snoc, Hck. intros Hlt%Z.ltb_ge. exact Hlt. }
  apply StronglySorted_app in Ho as (Hx & Ho & Ho').
  apply Forall_app in Hby as [Hby0 Hby1]. pose proof (proj1 (Forall_singleton _ _) Hby1) as [Hpos _]. cbn in Hpos.
  pose proof (segment_ticks_nonneg cpb Hcpb seg).
  split; cbn.
  - done.
  - split; [done|]. by destruct ss0.
  - by rewrite Hs, !fmap_app.
  - by rewrite Hg, !fmap_app.
  - apply Forall_app. split; [by apply Forall_app|]. repeat constructor; cbn; [lia|done].
  - apply StronglySorted_app. split_and!; [|apply StronglySorted_app; split_and!; done|repeat constructor].
    intros x y Hxin ->%list_elem_of_singleton. cbn. apply elem_of_app in Hxin as [Hxin| ->%list_elem_of_singleton].
    + specialize (Hx x (s, seg) Hxin ltac:(by left)). cbn in Hx. lia.
    + cbn. lia.
Qed.

Lemma appends_scheduled sends : ∀ ss u u',
  scheduled cpb ss u → for_eachM (λ s, append_source s.1 s.2) sends u = (Ok (), u') →
  Forall (λ s, Forall is_byte s.1) sends →
  scheduled cpb (ss ++ ((λ s, (s.2, s.1)) <$> sends)) u'.
Proof.
  induction sends as [|[seg t] sends IH]; intros ss u u' Hu Hr Hb; cbn in Hr.
  { injection Hr as <-. by rewrite app_nil_r. }
  inv_M. inversion_clear Hb. pose proof (append_scheduled _ _ _ _ _ Hu ltac:(eassumption) ltac:(done)) as Hu1.
  rewrite fmap_cons. rewrite cons_middle, app_assoc. by eapply IH.
Qed.

Lemma source_end_spec ss u f :
  scheduled cpb ss u → f ∈ frames_of cpb ss → 0 ≤ f.1 ∧ f.1 + 10 * cpb ≤ source_end_tick u.
Proof.
  intros Hu (s & Hs & Hf)%frames_of_elem. pose proof (segment_frames_range cpb Hcpb _ _ _ Hf) as Hr.
  destruct (exists_last (proj2 (sc_start _ _ _ Hu))) as (ss0 & [s1 seg1] & ->).
  unfold source_end_tick. rewrite (sc_starts _ _ _ Hu), (sc_segments _ _ _ Hu), (sc_clock _ _ _ Hu), !fmap_app, !list_fmap_singleton, !last_snoc. cbn [fst snd].
  pose proof (sc_bytes _ _ _ Hu) as Hb. eapply Forall_forall in Hb; [|exact Hs]. cbn in Hb. split; [lia|].
  pose proof (sc_order _ _ _ Hu) as Ho. apply elem_of_app in Hs as [Hs| ->%list_elem_of_singleton]; [|cbn in *; lia].
  pose proof (StronglySorted_app_1_elem_of _ _ _ s (s1, seg1) Ho Hs ltac:(by left)) as Hx. cbn in Hx.
  pose proof (segment_ticks_nonneg cpb Hcpb seg1). lia.
Qed.
End scheduling.

(** C35. Loopback.  A peer that scheduled its source bytes and any further
    segments drives a waveform which a second peer of the same bit time,
    sampling every tick from 0 until the source has ended, receives without
    error as exactly the scheduled bytes, in order. *)
Theorem loopback_receives_what_was_sent src src' cpb tick sends a0 a1 a b n :
  new_uart src cpb = Ok a0 → start_source tick a0 = (Ok (), a1) →
  for_eachM (λ s, append_source s.1 s.2) sends a1 = (Ok (), a) →
  new_uart src' cpb = Ok b →
  Forall is_byte src → Forall (λ s, Forall is_byte s.1) sends → source_end_tick a ≤ n → 0 ≤ n →
  ∃ b', observe_ticks (drive_rx a) 0 n b = (Ok (), b') ∧ captured b' = src ++ concat sends.*1.
Proof.
  intros Ha0 Hstart Hsends [-> Hcpb]%new_uart_state Hb Hbs Hend Hn.
  pose proof (start_source_scheduled _ _ _ _ _ Ha0 Hstart Hb) as Hu.
  pose proof (appends_scheduled _ Hcpb _ _ _ _ Hu Hsends Hbs) as Hua.
  set (ss := [(tick, src)] ++ ((λ s, (s.2, s.1)) <$> sends)) in *.
  destruct (receives_legal cpb (frames_of cpb ss) (drive_rx a) Hcpb (drives_legal cpb Hcpb ss a Hua)
    (mkUart src' cpb None [] [] 1 None 0 [] [] (-1)) n) as (b' & Hrun & Hcap);
    [done|cbn; lia|done|done|done| |done|].
  { apply Forall_forall. intros f Hf. destruct (source_end_spec cpb Hcpb ss a f Hua Hf). lia. }
  exists b'. split; [done|]. rewrite Hcap, frames_of_snd. unfold ss. cbn. f_equal.
  f_equal. rewrite <- list_fmap_compose. done.
Qed.

(** *** The hypotheses are satisfiable *)

Module Example_uart.
Definition blank : Uart8N1Peer := mkUart [] 16 None [] [] 1 None 0 [] [] (-1).
Definition sender : Uart8N1Peer := match new_uart [0x55; 0x80] 16 with Ok u => u | Err _ => blank end.
Definition started : Uart8N1Peer := (start_source 5 sender).2.
Definition sends : list (list Z * Z) := [([0xff; 0], 400); ([7], 800)].
Definition sent : Uart8N1Peer := (for_eachM (λ s, append_source s.1 s.2) sends started).2.

Lemma loopback_receives_what_was_sent_witness :
  ∃ b', observe_ticks (drive_rx sent) 0 960 blank = (Ok (), b') ∧ captured b' = [0x55; 0x80; 0xff; 0; 7].
Proof.
  apply (loopback_receives_what_was_sent [0x55; 0x80] [] 16 5 sends sender started sent blank 960);
    try (vm_compute; reflexivity); repeat constructor; discriminate.
Defined.
End Example_uart.
