(* ===== verification/I2c.v ===== *)
(** * The external I2C target

    Models [src/src/myfuzz/scenario/i2c_peer.py] ([I2cPeer]): a seven-bit
    target on open-drain lines, fed with the pull-down enables of the host after
    every tick.  The state strings are the constructors of [Phase]; the fields
    of the object are grouped in three records (lines, protocol, what was
    recorded).

    The theorems: the peer answers whole transactions of a host that follows the
    protocol, with or without clock stretching: a written frame is recorded byte
    for byte and acknowledged, a foreign address is neither acknowledged nor
    recorded as a write, and a read returns the queued bytes in order. *)

From S2P Require Import Prelude Isa.

Local Open Scope Z_scope.

Inductive Phase :=
  | idle | address_ | write_ | target_ack_wait | target_ack | target_ack_done
  | read_ | master_ack_wait | master_ack | master_ack_done.

#[export] Instance Phase_eq_dec : EqDecision Phase.
Proof. solve_decision. Defined.

Record Lines := mkLines {
  _host_scl_low : bool;
  _host_sda_low : bool;
  _peer_scl_low : bool;
  _peer_sda_low : bool;
  _stretch_left : Z }.

Record Protocol := mkProtocol {
  _state : Phase;
  _bit_index : Z;
  _rx_byte : Z;
  _read_byte : Z;
  _ack_pending : bool;
  _after_ack : Phase;
  _master_acked : bool;
  _current_write : list Z;
  _payload_index : Z }.

Record Recorded := mkRecorded {
  _completed_writes : list (list Z);
  _sampled_bytes : list Z;
  start_count : Z;
  stop_count : Z;
  ack_count : Z }.

Record I2cPeer := mkI2c {
  address : Z;
  stretch_cycles : Z;
  _payload : list Z;
  lines : Lines;
  proto : Protocol;
  recorded : Recorded }.

Definition set_lines (l : Lines) (s : I2cPeer) : I2cPeer :=
  mkI2c (address s) (stretch_cycles s) (_payload s) l (proto s) (recorded s).
Definition set_proto (p : Protocol) (s : I2cPeer) : I2cPeer :=
  mkI2c (address s) (stretch_cycles s) (_payload s) (lines s) p (recorded s).
Definition set_recorded (r : Recorded) (s : I2cPeer) : I2cPeer :=
  mkI2c (address s) (stretch_cycles s) (_payload s) (lines s) (proto s) r.

Definition drive_sda (low : bool) (s : I2cPeer) : I2cPeer :=
  set_lines (mkLines (_host_scl_low (lines s)) (_host_sda_low (lines s)) (_peer_scl_low (lines s))
    low (_stretch_left (lines s))) s.

(** Assignments of [_state] and [_bit_index]. *)
Definition go (phase : Phase) (bit : Z) (s : I2cPeer) : I2cPeer :=
  let p := proto s in
  set_proto (mkProtocol phase bit (_rx_byte p) (_read_byte p) (_ack_pending p) (_after_ack p)
    (_master_acked p) (_current_write p) (_payload_index p)) s.

(** [reset_case] *)
Definition reset_case (payload : option (list Z)) (s : I2cPeer) : I2cPeer :=
  mkI2c (address s) (stretch_cycles s) (default (_payload s) payload)
    (mkLines false false false false 0)
    (mkProtocol idle 0 0 0 false idle false [] 0) (mkRecorded [] [] 0 0 0).

(** [__init__] *)
Definition new_i2c (payload : list Z) (address stretch_cycles : Z) : result I2cPeer :=
  raise_if (negb ((0 <=? address) && (address <=? 0x7f)))
    (ValueError "I2C target address must be seven bits") ;;
  raise_if (stretch_cycles <? 0) (ValueError "stretch_cycles must be nonnegative") ;;
  mret (reset_case None (mkI2c address stretch_cycles payload
    (mkLines false false false false 0) (mkProtocol idle 0 0 0 false idle false [] 0)
    (mkRecorded [] [] 0 0 0))).

(** [queue_payload] *)
Definition queue_payload (payload : list Z) (s : I2cPeer) : I2cPeer :=
  mkI2c (address s) (stretch_cycles s) (_payload s ++ payload) (lines s) (proto s) (recorded s).

(** [scl_i], [sda_i]: the resolved, pulled-up levels. *)
Definition scl_i (s : I2cPeer) : Z := if _host_scl_low (lines s) || _peer_scl_low (lines s) then 0 else 1.
Definition sda_i (s : I2cPeer) : Z := if _host_sda_low (lines s) || _peer_sda_low (lines s) then 0 else 1.

(** [_close_write] *)
Definition _close_write (s : I2cPeer) : I2cPeer :=
  let p := proto s in let r := recorded s in
  if bool_decide (_current_write p = []) then s
  else set_recorded (mkRecorded (_completed_writes r ++ [_current_write p]) (_sampled_bytes r)
         (start_count r) (stop_count r) (ack_count r))
         (set_proto (mkProtocol (_state p) (_bit_index p) (_rx_byte p) (_read_byte p) (_ack_pending p)
           (_after_ack p) (_master_acked p) [] (_payload_index p)) s).

(** [_start] *)
Definition _start (s : I2cPeer) : I2cPeer :=
  let s := _close_write s in
  let p := proto s in let r := recorded s in
  drive_sda false
    (set_proto (mkProtocol address_ 0 0 (_read_byte p) (_ack_pending p) (_after_ack p)
       (_master_acked p) (_current_write p) (_payload_index p))
    (set_recorded (mkRecorded (_completed_writes r) (_sampled_bytes r) (start_count r + 1)
       (stop_count r) (ack_count r)) s)).

(** [_stop] *)
Definition _stop (s : I2cPeer) : I2cPeer :=
  let s := _close_write s in
  let r := recorded s in
  go idle 0 (drive_sda false
    (set_recorded (mkRecorded (_completed_writes r) (_sampled_bytes r) (start_count r)
       (stop_count r + 1) (ack_count r)) s)).

(** A complete byte was sampled: [_rising] from [value = self._rx_byte] on. *)
Definition byte_received (value : Z) (s : I2cPeer) : I2cPeer :=
  let p := proto s in let r := recorded s in
  let s := set_recorded (mkRecorded (_completed_writes r) (_sampled_bytes r ++ [value]) (start_count r)
             (stop_count r) (ack_count r)) s in
  if bool_decide (_state p = address_) then
    let matched := value ≫ 1 =? address s in
    let is_read := negb (value &&& 1 =? 0) in
    let ack := matched && (negb is_read || (_payload_index p <? Z.of_nat (length (_payload s)))) in
    set_proto (mkProtocol target_ack_wait 0 0 (_read_byte p) ack
      (if ack then if is_read then read_ else write_ else idle)
      (_master_acked p) (_current_write p) (_payload_index p)) s
  else
    set_proto (mkProtocol target_ack_wait 0 0 (_read_byte p) true write_
      (_master_acked p) (_current_write p ++ [value]) (_payload_index p)) s.

(** [_rising] *)
Definition _rising (s : I2cPeer) : I2cPeer :=
  let p := proto s in let r := recorded s in
  match _state p with
  | address_ | write_ =>
      let rx := (_rx_byte p ≪ 1) ||| sda_i s in
      let bit := _bit_index p + 1 in
      let s := set_proto (mkProtocol (_state p) bit rx (_read_byte p) (_ack_pending p) (_after_ack p)
                 (_master_acked p) (_current_write p) (_payload_index p)) s in
      if bit =? 8 then byte_received rx s else s
  | target_ack =>
      let s := if _ack_pending p then
        set_recorded (mkRecorded (_completed_writes r) (_sampled_bytes r) (start_count r)
          (stop_count r) (ack_count r + 1)) s else s in
      go target_ack_done (_bit_index p) s
  | read_ =>
      if _bit_index p + 1 =? 8 then
        set_proto (mkProtocol master_ack_wait 0 (_rx_byte p) (_read_byte p) (_ack_pending p) (_after_ack p)
          (_master_acked p) (_current_write p)
          (if _payload_index p <? Z.of_nat (length (_payload s)) then _payload_index p + 1
           else _payload_index p)) s
      else go read_ (_bit_index p + 1) s
  | master_ack =>
      set_proto (mkProtocol master_ack_done (_bit_index p) (_rx_byte p) (_read_byte p) (_ack_pending p)
        (_after_ack p) (sda_i s =? 0) (_current_write p) (_payload_index p)) s
  | _ => s
  end.

(** [_set_read_bit] *)
Definition _set_read_bit (s : I2cPeer) : I2cPeer :=
  let p := proto s in
  let byte := if _payload_index p <? Z.of_nat (length (_payload s))
              then nth (Z.to_nat (_payload_index p)) (_payload s) 0 else 0xff in
  drive_sda ((byte ≫ (7 - _bit_index p)) &&& 1 =? 0)
    (set_proto (mkProtocol (_state p) (_bit_index p) (_rx_byte p) byte (_ack_pending p) (_after_ack p)
      (_master_acked p) (_current_write p) (_payload_index p)) s).

(** [_falling] *)
Definition _falling (s : I2cPeer) : I2cPeer :=
  let p := proto s in
  match _state p with
  | target_ack_wait => go target_ack (_bit_index p) (drive_sda (_ack_pending p) s)
  | target_ack_done =>
      let s := go (_after_ack p) (_bit_index p) (drive_sda false s) in
      if bool_decide (_after_ack p = read_) then _set_read_bit s else s
  | read_ => _set_read_bit s
  | master_ack_wait => go master_ack (_bit_index p) (drive_sda false s)
  | master_ack_done =>
      let s := go (if _master_acked p then read_ else idle) (_bit_index p) s in
      if _master_acked p then _set_read_bit s else s
  | _ => s
  end.

(** The first half of [observe]: host enables and clock stretching. *)
Definition take_enables (scl_low sda_low : bool) (s : I2cPeer) : I2cPeer :=
  let l := lines s in
  let '(peer_low, remaining) :=
    if scl_low then (false, 0)
    else if _host_scl_low l && negb (stretch_cycles s =? 0) && negb (bool_decide (_state (proto s) = idle))
    then (true, stretch_cycles s)
    else if _peer_scl_low l then
      (negb (_stretch_left l - 1 =? 0), _stretch_left l - 1)
    else (_peer_scl_low l, _stretch_left l) in
  set_lines (mkLines scl_low sda_low peer_low (_peer_sda_low l) remaining) s.

(** The second half: what the resolved lines did between [s] and [s']. *)
Definition bus_event (s s' : I2cPeer) : I2cPeer :=
  if (scl_i s =? scl_i s') && (scl_i s' =? 1) && negb (sda_i s =? sda_i s') then
    if sda_i s' =? 0 then _start s' else _stop s'
  else if (scl_i s =? 0) && (scl_i s' =? 1) then _rising s'
  else if (scl_i s =? 1) && (scl_i s' =? 0) then _falling s'
  else s'.

(** [observe] *)
Definition observe (scl_en sda_en : Z) : M I2cPeer () := λ s,
  if negb (in_list scl_en [0; 1]) || negb (in_list sda_en [0; 1])
  then (Err (ValueError "I2C output enables must be binary"), s)
  else (Ok (), bus_event s (take_enables (negb (scl_en =? 0)) (negb (sda_en =? 0)) s)).

(** ** A host *)

(** [n] times the same enables. *)
Fixpoint hold (n : nat) (scl_en sda_en : Z) (s : I2cPeer) : I2cPeer :=
  match n with
  | O => s
  | S n => hold n scl_en sda_en (observe scl_en sda_en s).2
  end.

(** One clock: the line goes low with the host's [sda_en], is released, and
    the host waits while the target stretches; the level it then samples. *)
Definition clock (sda_en : Z) (s : I2cPeer) : I2cPeer * Z :=
  let s' := hold (S (Z.to_nat (stretch_cycles s))) 0 sda_en (observe 1 sda_en s).2 in (s', sda_i s').

Fixpoint clocks (l : list Z) (s : I2cPeer) : I2cPeer * list Z :=
  match l with
  | [] => (s, [])
  | b :: l =>
      let '(s, level) := clock b s in
      let '(s, levels) := clocks l s in (s, level :: levels)
  end.

(** A byte, most significant bit first: a 0 pulls the line low. *)
Definition enables_of (byte : Z) : list Z := (λ i, 1 - ((byte ≫ (7 - i)) &&& 1)) <$> seqZ 0 8.
Definition from_levels (l : list Z) : Z := foldl (λ acc b, (acc ≪ 1) ||| b) 0 l.

(** Send a byte and sample the target's acknowledge (0 is an acknowledge). *)
Definition send (byte : Z) (s : I2cPeer) : I2cPeer * Z :=
  let '(s, _) := clocks (enables_of byte) s in clock 0 s.

Fixpoint send_all (bytes : list Z) (s : I2cPeer) : I2cPeer * list Z :=
  match bytes with
  | [] => (s, [])
  | b :: bytes =>
      let '(s, ack) := send b s in
      let '(s, acks) := send_all bytes s in (s, ack :: acks)
  end.

(** Release the data line for a byte, then acknowledge (or not). *)
Definition receive (ack : bool) (s : I2cPeer) : I2cPeer * Z :=
  let '(s, levels) := clocks (replicate 8 0) s in
  ((clock (if ack then 1 else 0) s).1, from_levels levels).

Fixpoint receive_all (n : nat) (s : I2cPeer) : I2cPeer * list Z :=
  match n with
  | O => (s, [])
  | S n =>
      let '(s, b) := receive (negb (bool_decide (n = O))) s in
      let '(s, bs) := receive_all n s in (s, b :: bs)
  end.

Definition start_condition (s : I2cPeer) : I2cPeer := (observe 0 1 s).2.
Definition stop_condition (s : I2cPeer) : I2cPeer := (observe 0 0 (clock 1 s).1).2.

Definition write_transaction (addr : Z) (bytes : list Z) (s : I2cPeer) : I2cPeer * list Z :=
  let '(s, acks) := send_all (2 * addr :: bytes) (start_condition s) in (stop_condition s, acks).
Definition read_transaction (addr : Z) (n : nat) (s : I2cPeer) : I2cPeer * list Z :=
  let '(s, _) := send (2 * addr + 1) (start_condition s) in
  let '(s, bytes) := receive_all n s in (stop_condition s, bytes).


(** ** One clock is a falling and a rising edge *)

Definition pins (scl sda : bool) (s : I2cPeer) : I2cPeer :=
  set_lines (mkLines scl sda false (_peer_sda_low (lines s)) 0) s.
Definition cycle (sda : bool) (s : I2cPeer) : I2cPeer := _rising (pins false sda (_falling (pins true sda s))).

(** Nobody holds the clock. *)
Definition quiet (s : I2cPeer) : Prop :=
  _host_scl_low (lines s) = false ∧ _peer_scl_low (lines s) = false ∧ _stretch_left (lines s) = 0.

Definition is_enable (e : Z) : Prop := e = 0 ∨ e = 1.

Lemma enable_in_list e : is_enable e → in_list e [0; 1] = true.
Proof. intros [-> | ->]; reflexivity. Qed.

Lemma rising_lines s : lines (_rising s) = lines s.
Proof.
  unfold _rising, byte_received, go. repeat (case_match; try reflexivity).
Qed.

Lemma close_write_lines s : lines (_close_write s) = lines s.
Proof. unfold _close_write. by case_match. Qed.

Lemma falling_lines s : lines (_falling s) =
  mkLines (_host_scl_low (lines s)) (_host_sda_low (lines s)) (_peer_scl_low (lines s))
    (_peer_sda_low (lines (_falling s))) (_stretch_left (lines s)).
Proof.
  unfold _falling, _set_read_bit, go, drive_sda.
  repeat (case_match; try reflexivity); cbn; by destruct (lines s).
Qed.

Lemma falling_stretch s : stretch_cycles (_falling s) = stretch_cycles s.
Proof. unfold _falling, _set_read_bit, go. repeat (case_match; try reflexivity). Qed.

Lemma observe_enable scl e s : is_enable scl → is_enable e →
  (observe scl e s).2 = bus_event s (take_enables (negb (scl =? 0)) (negb (e =? 0)) s).
Proof. intros Hs He. unfold observe. by rewrite !enable_in_list. Qed.

Lemma no_event s s' : scl_i s = scl_i s' → scl_i s' = 0 ∨ sda_i s = sda_i s' → bus_event s s' = s'.
Proof.
  intros Hc Hd. unfold bus_event. rewrite Hc, Z.eqb_refl. cbn [andb].
  destruct Hd as [-> | ->]; cbn; [done|]. rewrite Z.eqb_refl, andb_false_r.
  by destruct (Z.eqb_spec (scl_i s') 0), (Z.eqb_spec (scl_i s') 1); try lia.
Qed.

Lemma set_lines_id l s : lines s = l → set_lines l s = s.
Proof. intros <-. by destruct s. Qed.

Lemma hold_S n scl e s : hold (S n) scl e s = hold n scl e (observe scl e s).2.
Proof. done. Qed.

Lemma hold_quiet n e s p : is_enable e → lines s = mkLines false (negb (e =? 0)) false p 0 → hold n 0 e s = s.
Proof.
  intros He Hl. induction n as [|n IH]; cbn [hold]; [done|].
  rewrite observe_enable by (done || by left).
  assert (Ht : take_enables (negb (0 =? 0)) (negb (e =? 0)) s = s).
  { unfold take_enables. rewrite Hl. cbn. by apply set_lines_id. }
  rewrite Ht, no_event by (done || by right). exact IH.
Qed.

(** The target stretches for [n] more ticks. *)
Lemma hold_stretch n e s p : is_enable e →
  lines s = mkLines false (negb (e =? 0)) true p (Z.of_nat (S n)) →
  hold (S n) 0 e s = _rising (set_lines (mkLines false (negb (e =? 0)) false p 0) s).
Proof.
  intros He. revert s. induction n as [|n IH]; intros s Hl.
  - cbn [hold]. rewrite observe_enable by (done || by left). unfold take_enables, bus_event, scl_i.
    rewrite Hl. done.
  - rewrite hold_S, observe_enable by (done || by left). unfold take_enables. rewrite Hl.
    cbn [_host_scl_low _peer_scl_low _stretch_left _peer_sda_low andb Z.eqb negb].
    replace (Z.of_nat (S (S n)) - 1) with (Z.of_nat (S n)) by lia.
    rewrite (proj2 (Z.eqb_neq (Z.of_nat (S n)) 0)) by lia. cbn [negb].
    rewrite no_event by (unfold scl_i; rewrite ?Hl; cbn; auto).
    by apply (IH (set_lines _ s)).
Qed.

Lemma clock_cycle e s : is_enable e → quiet s → 0 ≤ stretch_cycles s →
  clock e s = (cycle (negb (e =? 0)) s, sda_i (cycle (negb (e =? 0)) s)).
Proof.
  intros He (Hh & Hp & Hl) Hn. unfold clock.
  assert (Hfall : (observe 1 e s).2 = _falling (pins true (negb (e =? 0)) s)).
  { rewrite observe_enable by (done || by right). unfold take_enables. cbn [Z.eqb negb].
    unfold bus_event, scl_i, pins. cbn. by rewrite Hh, Hp. }
  rewrite Hfall. set (f := _falling (pins true (negb (e =? 0)) s)).
  assert (∃ p, lines f = mkLines true (negb (e =? 0)) false p 0) as [p Hlf]
    by (eexists; subst f; rewrite falling_lines; done).
  assert (Hsf : stretch_cycles f = stretch_cycles s) by (subst f; by rewrite falling_stretch).
  assert (Hc : cycle (negb (e =? 0)) s = _rising (pins false (negb (e =? 0)) f)) by done.
  clearbody f. rewrite Hc. set (r := _rising (pins false (negb (e =? 0)) f)).
  assert (Hhold : hold (S (Z.to_nat (stretch_cycles s))) 0 e f = r); [|by rewrite Hhold].
  rewrite hold_S, observe_enable by (done || by left). unfold take_enables. rewrite Hlf, Hsf.
  cbn [Z.eqb negb _host_scl_low _peer_scl_low _stretch_left _peer_sda_low andb].
  assert (Hr : lines r = mkLines false (negb (e =? 0)) false p 0)
    by (unfold r; rewrite rising_lines; unfold pins; cbn; by rewrite Hlf).
  destruct (negb (stretch_cycles s =? 0) && negb (bool_decide (_state (proto f) = idle))) eqn:Hstretch.
  - apply andb_true_iff in Hstretch as [Hz _].
    rewrite no_event by (unfold scl_i; cbn; rewrite ?Hlf; by auto).
    destruct (Z.to_nat (stretch_cycles s)) as [|n] eqn:Hto; [lia|].
    rewrite (hold_stretch n e _ p); [|done|cbn; f_equal; lia]. unfold r, pins. by rewrite Hlf.
  - assert (Hev : bus_event f (set_lines (mkLines false (negb (e =? 0)) false p 0) f) = r).
    { unfold bus_event, scl_i. rewrite Hlf. cbn. unfold r, pins. by rewrite Hlf. }
    rewrite Hev. by apply (hold_quiet _ e r p).
Qed.

(** ** The phases of a transaction *)

Definition pulls (e : Z) : bool := negb (e =? 0).
Definition shift_in (rx e : Z) : Z := (rx ≪ 1) ||| (1 - e).

Lemma cycle_lines b s : lines (cycle b s) = mkLines false b false (_peer_sda_low (lines (cycle b s))) 0.
Proof. unfold cycle. by rewrite rising_lines. Qed.

Section phases.
Context (a n : Z) (pay : list Z) (Hn : 0 ≤ n).

(** A state between clocks: [h] is the host's data line, [pl] the target's. *)
Definition st (h pl : bool) (p : Protocol) (r : Recorded) : I2cPeer :=
  mkI2c a n pay (mkLines false h false pl 0) p r.

Lemma clock_st e h pl p r : is_enable e →
  clock e (st h pl p r) = (cycle (pulls e) (st h pl p r), sda_i (cycle (pulls e) (st h pl p r))).
Proof. intros He. by apply clock_cycle. Qed.

Definition acked (ap : bool) (r : Recorded) : Recorded :=
  mkRecorded (_completed_writes r) (_sampled_bytes r) (start_count r) (stop_count r)
    (ack_count r + if ap then 1 else 0).
Definition sampled (value : Z) (r : Recorded) : Recorded :=
  mkRecorded (_completed_writes r) (_sampled_bytes r ++ [value]) (start_count r) (stop_count r) (ack_count r).

(** *** Bytes from the host *)

Lemma cycle_bit ph e h k rx rd ap aa ma cw pi r :
  ph = address_ ∨ ph = write_ → is_enable e → 0 ≤ k < 7 →
  cycle (pulls e) (st h false (mkProtocol ph k rx rd ap aa ma cw pi) r) =
    st (pulls e) false (mkProtocol ph (k + 1) (shift_in rx e) rd ap aa ma cw pi) r.
Proof.
  intros Hph He Hk. destruct Hph as [-> | ->], He as [-> | ->]; unfold cycle, _falling, _rising, byte_received; cbn;
    (rewrite (proj2 (Z.eqb_neq (k + 1) 8)) by lia); reflexivity.
Qed.

Lemma cycle_last_bit ph e h rx rd ap aa ma cw pi r :
  ph = address_ ∨ ph = write_ → is_enable e →
  cycle (pulls e) (st h false (mkProtocol ph 7 rx rd ap aa ma cw pi) r) =
    byte_received (shift_in rx e) (st (pulls e) false (mkProtocol ph 8 (shift_in rx e) rd ap aa ma cw pi) r).
Proof. intros [-> | ->] [-> | ->]; reflexivity. Qed.

Lemma clocks_cons e l s : clocks (e :: l) s =
  ((clocks l (clock e s).1).1, (clock e s).2 :: (clocks l (clock e s).1).2).
Proof. cbn [clocks]. destruct (clock e s) as [s1 v]. cbn. by destruct (clocks l s1). Qed.

Lemma clocks_bits ph rd ap aa ma cw pi r l : ph = address_ ∨ ph = write_ → Forall is_enable l → ∀ k rx h,
  0 ≤ k → k + Z.of_nat (length l) ≤ 7 → ∃ h',
  (clocks l (st h false (mkProtocol ph k rx rd ap aa ma cw pi) r)).1 =
    st h' false (mkProtocol ph (k + Z.of_nat (length l)) (foldl shift_in rx l) rd ap aa ma cw pi) r.
Proof.
  intros Hph Hall. induction Hall as [|e l He Hl IH]; intros k rx h Hk Hlen; cbn [length] in *.
  { exists h. cbn. by rewrite Z.add_0_r. }
  rewrite clocks_cons, clock_st by done. cbn [fst]. rewrite cycle_bit by (done || lia).
  destruct (IH (k + 1) (shift_in rx e) (pulls e) ltac:(lia) ltac:(lia)) as [h' ->]. exists h'.
  cbn [foldl]. by replace (k + Z.of_nat (S (length l))) with (k + 1 + Z.of_nat (length l)) by lia.
Qed.

Lemma clocks_app l1 l2 s : (clocks (l1 ++ l2) s).1 = (clocks l2 (clocks l1 s).1).1.
Proof.
  revert s. induction l1 as [|e l1 IH]; intros s; [done|]. cbn [app]. rewrite !clocks_cons. cbn [fst]. apply IH.
Qed.

Lemma enable_of_bit x i : is_enable (1 - ((x ≫ i) &&& 1)).
Proof.
  change 1 with (Z.ones 1) at 2. rewrite Z.land_ones by lia. unfold is_enable.
  pose proof (Z.mod_pos_bound (x ≫ i) (2 ^ 1)). lia.
Qed.

Lemma enables_value b : is_byte b → foldl shift_in 0 (enables_of b) = b.
Proof.
  intros Hb. assert (Hd : forallb (λ b, foldl shift_in 0 (enables_of b) =? b) (seqZ 0 256) = true)
    by (vm_compute; reflexivity).
  rewrite forallb_forall in Hd. apply Z.eqb_eq, Hd, list_elem_of_In, elem_of_seqZ. unfold is_byte in Hb. lia.
Qed.

Lemma send_byte ph b h rd ap aa ma cw pi r : ph = address_ ∨ ph = write_ → is_byte b → ∃ h',
  send b (st h false (mkProtocol ph 0 0 rd ap aa ma cw pi) r) =
    clock 0 (byte_received b (st h' false (mkProtocol ph 8 b rd ap aa ma cw pi) r)).
Proof.
  intros Hph Hb. unfold send.
  assert (He : enables_of b = ((λ i, 1 - ((b ≫ (7 - i)) &&& 1)) <$> seqZ 0 7) ++ [1 - ((b ≫ 0) &&& 1)]) by done.
  set (l := (λ i, 1 - ((b ≫ (7 - i)) &&& 1)) <$> seqZ 0 7) in *. set (e := 1 - ((b ≫ 0) &&& 1)) in *.
  assert (Hl : Forall is_enable l) by (apply Forall_fmap, Forall_forall; intros; apply enable_of_bit).
  assert (Hle : is_enable e) by apply enable_of_bit.
  destruct (clocks_bits ph rd ap aa ma cw pi r l Hph Hl 0 0 h) as [h1 Hc]; [lia|done|].
  exists (pulls e). assert (Hv := enables_value b Hb). rewrite He, foldl_snoc in Hv.
  destruct (clocks (enables_of b) _) as [s1 vs] eqn:Hs. f_equal.
  change s1 with (s1, vs).1. rewrite <- Hs, He, clocks_app, Hc. cbn [clocks].
  rewrite clock_st by done. cbn [fst]. change (0 + Z.of_nat (length l)) with 7.
  by rewrite cycle_last_bit, Hv.
Qed.

(** *** Acknowledge and what follows *)

Lemma shiftr1_double x : (2 * x) ≫ 1 = x.
Proof. rewrite Z.shiftr_div_pow2 by lia. change (2 ^ 1) with 2. rewrite Z.mul_comm. by apply Z.div_mul. Qed.
Lemma shiftr1_double1 x : (2 * x + 1) ≫ 1 = x.
Proof. rewrite Z.shiftr_div_pow2 by lia. change (2 ^ 1) with 2. symmetry. apply (Z.div_unique _ _ _ 1); lia. Qed.
Lemma land1_double x : (2 * x) &&& 1 = 0.
Proof. change 1 with (Z.ones 1). rewrite Z.land_ones by lia. change (2 ^ 1) with 2. rewrite Z.mul_comm. by apply Z.mod_mul. Qed.
Lemma land1_double1 x : (2 * x + 1) &&& 1 = 1.
Proof. change 1 with (Z.ones 1) at 2. rewrite Z.land_ones by lia. change (2 ^ 1) with 2. symmetry. apply (Z.mod_unique _ _ x); lia. Qed.

Lemma received_write_address addr h rd ap aa ma cw pi r :
  byte_received (2 * addr) (st h false (mkProtocol address_ 8 (2 * addr) rd ap aa ma cw pi) r) =
    st h false (mkProtocol target_ack_wait 0 0 rd (addr =? a) (if addr =? a then write_ else idle) ma cw pi)
      (sampled (2 * addr) r).
Proof. unfold byte_received. rewrite shiftr1_double, land1_double. cbn. by rewrite andb_true_r. Qed.

Lemma received_read_address h rd ap aa ma cw pi r : pi < Z.of_nat (length pay) →
  byte_received (2 * a + 1) (st h false (mkProtocol address_ 8 (2 * a + 1) rd ap aa ma cw pi) r) =
    st h false (mkProtocol target_ack_wait 0 0 rd true read_ ma cw pi) (sampled (2 * a + 1) r).
Proof.
  intros Hpi. unfold byte_received. rewrite shiftr1_double1, land1_double1. cbn.
  by rewrite Z.eqb_refl, (proj2 (Z.ltb_lt _ _) Hpi).
Qed.

Lemma received_data b h rd ap aa ma cw pi r :
  byte_received b (st h false (mkProtocol write_ 8 b rd ap aa ma cw pi) r) =
    st h false (mkProtocol target_ack_wait 0 0 rd true write_ ma (cw ++ [b]) pi) (sampled b r).
Proof. done. Qed.

Lemma clock_ack h rd ap aa ma cw pi r :
  clock 0 (st h false (mkProtocol target_ack_wait 0 0 rd ap aa ma cw pi) r) =
    (st false ap (mkProtocol target_ack_done 0 0 rd ap aa ma cw pi) (acked ap r), if ap then 0 else 1).
Proof.
  rewrite clock_st by by left. destruct ap; [done|]. unfold cycle, acked. cbn. rewrite Z.add_0_r. by destruct r.
Qed.

Lemma send_clocks b s : send b s = clock 0 (clocks (enables_of b) s).1.
Proof. unfold send. by destruct (clocks _ _). Qed.

Lemma enables_cons b : ∃ e l, enables_of b = e :: l ∧ is_enable e ∧ Forall is_enable l.
Proof.
  eexists _, _. split; [reflexivity|].
  split; [apply enable_of_bit|repeat (constructor; [apply enable_of_bit|]); constructor].
Qed.

(** The first clock after an acknowledge enters the phase it announced. *)
Lemma send_enters b h pl rd ap ma cw pi r :
  send b (st h pl (mkProtocol target_ack_done 0 0 rd ap write_ ma cw pi) r) =
    send b (st h false (mkProtocol write_ 0 0 rd ap write_ ma cw pi) r).
Proof.
  destruct (enables_cons b) as (e & l & He & Hbit & _). rewrite !send_clocks, He, !clocks_cons. cbn [fst].
  by rewrite !clock_st.
Qed.

(** *** The data bytes of a write *)

Lemma send_all_data bytes rd ma pi : Forall is_byte bytes → ∀ pl cw r,
  send_all bytes (st false pl (mkProtocol target_ack_done 0 0 rd true write_ ma cw pi) r) =
    (st false (if bool_decide (bytes = []) then pl else true)
       (mkProtocol target_ack_done 0 0 rd true write_ ma (cw ++ bytes) pi)
       (mkRecorded (_completed_writes r) (_sampled_bytes r ++ bytes) (start_count r) (stop_count r)
          (ack_count r + Z.of_nat (length bytes))), replicate (length bytes) 0).
Proof.
  induction 1 as [|b bytes Hb Hall IH]; intros pl cw r; cbn [send_all].
  { rewrite !app_nil_r. cbn. rewrite Z.add_0_r. by destruct r. }
  rewrite send_enters. destruct (send_byte write_ b false rd true write_ ma cw pi r) as [h ->]; [by right|done|].
  rewrite received_data, clock_ack. cbn iota beta. rewrite IH. unfold acked, sampled. cbn.
  rewrite <- !app_assoc. cbn.
  replace (ack_count r + 1 + Z.of_nat (length bytes)) with (ack_count r + Z.of_nat (S (length bytes))) by lia.
  by case_bool_decide.
Qed.

(** *** After a negative acknowledge the target does not take part *)

Definition outside (h : bool) (ph : Phase) rd ma cw pi r : I2cPeer :=
  st h false (mkProtocol ph 0 0 rd false idle ma cw pi) r.

Lemma cycle_outside e h ph rd ma cw pi r : ph = target_ack_done ∨ ph = idle → is_enable e →
  cycle (pulls e) (outside h ph rd ma cw pi r) = outside (pulls e) idle rd ma cw pi r.
Proof. intros [-> | ->] [-> | ->]; done. Qed.

Lemma clocks_outside l : Forall is_enable l → ∀ h ph rd ma cw pi r, ph = target_ack_done ∨ ph = idle → l ≠ [] →
  ∃ h', (clocks l (outside h ph rd ma cw pi r)).1 = outside h' idle rd ma cw pi r.
Proof.
  induction 1 as [|e l He Hl IH]; intros h ph rd ma cw pi r Hph Hne; [done|].
  rewrite clocks_cons. unfold outside at 1. rewrite clock_st by done. cbn [fst].
  fold (outside h ph rd ma cw pi r). rewrite cycle_outside by done.
  destruct l as [|e' l]; [by eexists|]. by apply IH; [right|].
Qed.

Lemma send_outside b h ph rd ma cw pi r : ph = target_ack_done ∨ ph = idle →
  send b (outside h ph rd ma cw pi r) = (outside false idle rd ma cw pi r, 1).
Proof.
  intros Hph. destruct (enables_cons b) as (e & l & He & Hbit & Hl).
  destruct (clocks_outside (e :: l) ltac:(by constructor) h ph rd ma cw pi r Hph) as [h' Hc]; [done|].
  rewrite send_clocks, He, Hc. unfold outside at 1. by rewrite clock_st by by left.
Qed.

Lemma send_all_outside bytes rd ma cw pi r : ∀ h ph, ph = target_ack_done ∨ ph = idle → ∃ h' ph',
  (ph' = target_ack_done ∨ ph' = idle) ∧ (h = false → h' = false) ∧
  send_all bytes (outside h ph rd ma cw pi r) = (outside h' ph' rd ma cw pi r, replicate (length bytes) 1).
Proof.
  induction bytes as [|b bytes IH]; intros h ph Hph; cbn [send_all length replicate].
  { by exists h, ph. }
  rewrite send_outside by done. destruct (IH false idle) as (h' & ph' & Hp & Hh & ->); [by right|].
  exists h', ph'. split_and!; [done|intros _; by apply Hh|done].
Qed.

(** *** Bytes from the target *)

Definition read_at (pi : Z) : Z := if pi <? Z.of_nat (length pay) then nth (Z.to_nat pi) pay 0 else 0xff.
Definition next_read (pi : Z) : Z := if pi <? Z.of_nat (length pay) then pi + 1 else pi.
Definition level_of (b i : Z) : Z := (b ≫ (7 - i)) &&& 1.

Lemma level_sda b i : (if (level_of b i =? 0) then 0 else 1) = level_of b i.
Proof.
  unfold level_of. pose proof (enable_of_bit b (7 - i)) as He. unfold is_enable in He.
  destruct (Z.eqb_spec ((b ≫ (7 - i)) &&& 1) 0); lia.
Qed.

(** Protocol states whose next falling edge begins a byte. *)
Definition begins (p : Protocol) : Prop :=
  (_state p = target_ack_done ∧ _after_ack p = read_ ∨ _state p = master_ack_done ∧ _master_acked p = true) ∧
  _bit_index p = 0.

Definition reading (k : Z) (p : Protocol) : Protocol :=
  mkProtocol read_ k (_rx_byte p) (read_at (_payload_index p)) (_ack_pending p) (_after_ack p)
    (_master_acked p) (_current_write p) (_payload_index p).

Lemma clock_begins h pl p r : begins p →
  clock 0 (st h pl p r) =
    (st false (level_of (read_at (_payload_index p)) 0 =? 0) (reading 1 p) r,
     level_of (read_at (_payload_index p)) 0).
Proof.
  intros [Hp Hk]. rewrite clock_st by by left.
  assert (Hc : cycle (pulls 0) (st h pl p r) =
    st false (level_of (read_at (_payload_index p)) 0 =? 0) (reading 1 p) r).
  { destruct p; cbn in *. subst. destruct Hp as [[-> ->]|[-> ->]]; reflexivity. }
  rewrite Hc. f_equal. apply level_sda.
Qed.

Lemma clock_reading k h pl p r : 1 ≤ k < 7 →
  clock 0 (st h pl (reading k p) r) =
    (st false (level_of (read_at (_payload_index p)) k =? 0) (reading (k + 1) p) r,
     level_of (read_at (_payload_index p)) k).
Proof.
  intros Hk. rewrite clock_st by by left.
  assert (Hc : cycle (pulls 0) (st h pl (reading k p) r) =
    st false (level_of (read_at (_payload_index p)) k =? 0) (reading (k + 1) p) r).
  { unfold cycle, _rising, _falling, _set_read_bit, reading; cbn.
    by rewrite (proj2 (Z.eqb_neq (k + 1) 8)) by lia. }
  rewrite Hc. f_equal. apply level_sda.
Qed.

Definition byte_sent (p : Protocol) : Protocol :=
  mkProtocol master_ack_wait 0 (_rx_byte p) (read_at (_payload_index p)) (_ack_pending p) (_after_ack p)
    (_master_acked p) (_current_write p) (next_read (_payload_index p)).

Lemma clock_last h pl p r :
  clock 0 (st h pl (reading 7 p) r) =
    (st false (level_of (read_at (_payload_index p)) 7 =? 0) (byte_sent p) r,
     level_of (read_at (_payload_index p)) 7).
Proof.
  rewrite clock_st by by left.
  assert (Hc : cycle (pulls 0) (st h pl (reading 7 p) r) =
    st false (level_of (read_at (_payload_index p)) 7 =? 0) (byte_sent p) r) by done.
  rewrite Hc. f_equal. apply level_sda.
Qed.

Definition byte_done (ack : bool) (p : Protocol) : Protocol :=
  mkProtocol master_ack_done 0 (_rx_byte p) (read_at (_payload_index p)) (_ack_pending p) (_after_ack p)
    ack (_current_write p) (next_read (_payload_index p)).

Lemma levels_value b : is_byte b → from_levels (level_of b <$> seqZ 0 8) = b.
Proof.
  intros Hb. assert (Hd : forallb (λ b, from_levels (level_of b <$> seqZ 0 8) =? b) (seqZ 0 256) = true)
    by (vm_compute; reflexivity).
  rewrite forallb_forall in Hd. apply Z.eqb_eq, Hd, list_elem_of_In, elem_of_seqZ. unfold is_byte in Hb. lia.
Qed.

Lemma read_at_byte pi : Forall is_byte pay → is_byte (read_at pi).
Proof.
  intros Hp. unfold read_at. case_match eqn:Hlt; [|unfold is_byte; lia].
  destruct (nth_in_or_default (Z.to_nat pi) pay 0) as [Hin| ->]; [|unfold is_byte; lia].
  eapply Forall_forall in Hp; [exact Hp|]. by apply list_elem_of_In.
Qed.

Lemma receive_byte ack h pl p r : Forall is_byte pay → begins p →
  receive ack (st h pl p r) = (st ack false (byte_done ack p) r, read_at (_payload_index p)).
Proof.
  intros Hpay Hp. unfold receive. cbn [replicate clocks].
  rewrite clock_begins by done.
  repeat (rewrite clock_reading by lia; try match goal with |- context [reading (?k + 1) p] =>
    let v := eval cbv in (k + 1) in change (reading (k + 1) p) with (reading v p) end).
  rewrite clock_last. cbn iota beta.
  rewrite clock_st by (destruct ack; [by right|by left]). cbn [fst].
  pose proof (levels_value _ (read_at_byte (_payload_index p) Hpay)) as Hv.
  change (level_of (read_at (_payload_index p)) <$> seqZ 0 8) with
    [level_of (read_at (_payload_index p)) 0; level_of (read_at (_payload_index p)) 1;
     level_of (read_at (_payload_index p)) 2; level_of (read_at (_payload_index p)) 3;
     level_of (read_at (_payload_index p)) 4; level_of (read_at (_payload_index p)) 5;
     level_of (read_at (_payload_index p)) 6; level_of (read_at (_payload_index p)) 7] in Hv.
  rewrite Hv. f_equal. by destruct ack.
Qed.

Fixpoint reads (pi : Z) (m : nat) : list Z :=
  match m with O => [] | S m => read_at pi :: reads (next_read pi) m end.

Lemma reads_resize m : ∀ pi, 0 ≤ pi → reads pi m = resize m 0xff (drop (Z.to_nat pi) pay).
Proof.
  induction m as [|m IH]; intros pi Hpi; cbn [reads]; [by rewrite resize_0|].
  unfold next_read, read_at. destruct (Z.ltb_spec pi (Z.of_nat (length pay))) as [Hlt|Hge].
  - rewrite IH by lia. destruct (lookup_lt_is_Some_2 pay (Z.to_nat pi) ltac:(lia)) as [x Hx].
    rewrite (drop_S _ x (Z.to_nat pi)) by done. rewrite (nth_lookup_Some _ _ _ _ Hx).
    cbn [resize]. by replace (Z.to_nat (pi + 1)) with (S (Z.to_nat pi)) by lia.
  - rewrite IH by lia. rewrite drop_ge by lia. by rewrite !resize_nil.
Qed.

Lemma receive_all_bytes m : Forall is_byte pay → ∀ h pl p r, begins p → _payload_index p ≤ Z.of_nat (length pay) →
  ∃ p', receive_all (S m) (st h pl p r) = (st false false p' r, reads (_payload_index p) (S m)) ∧
    _state p' = master_ack_done ∧ _master_acked p' = false ∧ _bit_index p' = 0 ∧ _current_write p' = _current_write p ∧
    _payload_index p' = Z.min (_payload_index p + Z.of_nat (S m)) (Z.of_nat (length pay)).
Proof.
  intros Hpay. induction m as [|m IH]; intros h pl p r Hp Hpi.
  - cbn [receive_all]. rewrite bool_decide_eq_true_2 by done. rewrite receive_byte by done.
    exists (byte_done false p). split_and!; try done. cbn. unfold next_read. case_match; lia.
  - cbn [receive_all]. rewrite bool_decide_eq_false_2 by done. rewrite receive_byte by done. cbn [negb].
    assert (Hb : begins (byte_done true p)) by (split; [right|]; done).
    assert (Hle : _payload_index (byte_done true p) ≤ Z.of_nat (length pay))
      by (cbn; unfold next_read; case_match; lia).
    destruct (IH true false (byte_done true p) r Hb Hle) as (p' & Hrun & H1 & H2 & H3 & H4 & H5).
    cbn [receive_all] in Hrun. rewrite Hrun. exists p'. split_and!; try done.
    rewrite H5. change (_payload_index (byte_done true p)) with (next_read (_payload_index p)).
    unfold next_read. destruct (Z.ltb_spec (_payload_index p) (Z.of_nat (length pay))); lia.
Qed.

(** *** Start and stop *)

Definition closed (p : Protocol) (r : Recorded) : Recorded :=
  mkRecorded (if bool_decide (_current_write p = []) then _completed_writes r
              else _completed_writes r ++ [_current_write p])
    (_sampled_bytes r) (start_count r) (stop_count r + 1) (ack_count r).

Lemma stop_st s p r v : clock 1 s = (st true false p r, v) →
  stop_condition s = st false false (mkProtocol idle 0 (_rx_byte p) (_read_byte p) (_ack_pending p)
    (_after_ack p) (_master_acked p) [] (_payload_index p)) (closed p r).
Proof.
  intros Hc. unfold stop_condition. rewrite Hc. cbn [fst].
  rewrite observe_enable by by left. unfold bus_event, take_enables, _stop, _close_write, closed; cbn.
  destruct p as [ph k rx rd ap aa ma cw pi]; cbn. by case_bool_decide as Hcw; rewrite ?Hcw.
Qed.

Lemma start_st p r : _state p = idle → _current_write p = [] →
  start_condition (st false false p r) =
    st true false (mkProtocol address_ 0 0 (_read_byte p) (_ack_pending p) (_after_ack p) (_master_acked p) []
      (_payload_index p))
      (mkRecorded (_completed_writes r) (_sampled_bytes r) (start_count r + 1) (stop_count r) (ack_count r)).
Proof.
  intros Hp Hcw. unfold start_condition. rewrite observe_enable by (by left) || (by right).
  destruct p as [ph k rx rd ap aa ma cw pi]; cbn in *. subst. by destruct r.
Qed.

(** The clock before a stop condition. *)
Lemma clock_write h pl rd ma cw pi r :
  clock 1 (st h pl (mkProtocol target_ack_done 0 0 rd true write_ ma cw pi) r) =
    (st true false (mkProtocol write_ 1 0 rd true write_ ma cw pi) r, 0).
Proof. by rewrite clock_st by by right. Qed.

Lemma clock_outside h ph rd ma cw pi r : ph = target_ack_done ∨ ph = idle →
  clock 1 (outside h ph rd ma cw pi r) =
    (st true false (mkProtocol idle 0 0 rd false idle ma cw pi) r, 0).
Proof. intros [-> | ->]; unfold outside; by rewrite clock_st by by right. Qed.

Lemma clock_read h k rx rd ap aa cw pi r :
  clock 1 (st h false (mkProtocol master_ack_done k rx rd ap aa false cw pi) r) =
    (st true false (mkProtocol idle k rx rd ap aa false cw pi) r, 0).
Proof. by rewrite clock_st by by right. Qed.
End phases.

(** ** The properties *)

(** The bus is released and no transaction is open. *)
Record bus_free (s : I2cPeer) : Prop := {
  bf_lines : lines s = mkLines false false false false 0;
  bf_state : _state (proto s) = idle;
  bf_write : _current_write (proto s) = [] }.

Lemma bus_free_st s : bus_free s →
  s = st (address s) (stretch_cycles s) (_payload s) false false (proto s) (recorded s).
Proof. intros [Hl _ _]. unfold st. rewrite <- Hl. by destruct s. Qed.

Lemma start_free s : bus_free s →
  start_condition s =
    st (address s) (stretch_cycles s) (_payload s) true false
      (mkProtocol address_ 0 0 (_read_byte (proto s)) (_ack_pending (proto s)) (_after_ack (proto s))
        (_master_acked (proto s)) [] (_payload_index (proto s)))
      (mkRecorded (_completed_writes (recorded s)) (_sampled_bytes (recorded s)) (start_count (recorded s) + 1)
        (stop_count (recorded s)) (ack_count (recorded s))).
Proof. intros Hf. rewrite (bus_free_st s Hf) at 1. destruct Hf. by apply start_st. Qed.

Lemma send_all_cons b bytes s : send_all (b :: bytes) s =
  ((send_all bytes (send b s).1).1, (send b s).2 :: (send_all bytes (send b s).1).2).
Proof. cbn [send_all]. destruct (send b s) as [s1 v]. cbn. by destruct (send_all bytes s1). Qed.

(** A write transaction.  On a free bus, whatever the target stretches, a
    host that sends an address and data bytes gets every byte acknowledged and
    the frame recorded exactly once when the address is the target's; otherwise
    no byte is acknowledged and nothing but the address was sampled.  The bus
    is free afterwards. *)
Lemma write_transaction_recorded s addr bytes :
  bus_free s → 0 ≤ stretch_cycles s → 0 ≤ addr < 128 → Forall is_byte bytes → bytes ≠ [] →
  let '(s', acks) := write_transaction addr bytes s in
  let hit := addr =? address s in
  bus_free s' ∧ acks = replicate (S (length bytes)) (if hit then 0 else 1) ∧
  recorded s' = mkRecorded (_completed_writes (recorded s) ++ if hit then [bytes] else [])
    (_sampled_bytes (recorded s) ++ 2 * addr :: if hit then bytes else [])
    (start_count (recorded s) + 1) (stop_count (recorded s) + 1)
    (ack_count (recorded s) + if hit then 1 + Z.of_nat (length bytes) else 0) ∧
  _payload_index (proto s') = _payload_index (proto s).
Proof.
  intros Hfree Hn Haddr Hbytes Hne. unfold write_transaction.
  rewrite (start_free s Hfree). set (a := address s). set (n := stretch_cycles s) in *. set (pay := _payload s).
  set (r := mkRecorded _ _ (start_count (recorded s) + 1) _ _). rewrite send_all_cons.
  destruct (send_byte a n pay Hn address_ (2 * addr) true (_read_byte (proto s)) (_ack_pending (proto s))
    (_after_ack (proto s)) (_master_acked (proto s)) [] (_payload_index (proto s)) r) as [h Hs];
    [by left|unfold is_byte; lia|].
  rewrite Hs, received_write_address, clock_ack by done. cbn [fst snd]. destruct (addr =? a).
  - rewrite send_all_data by done. rewrite bool_decide_eq_false_2 by done. cbn [fst snd app].
    erewrite stop_st by (by apply clock_write).
    split_and!; [done|done| |done]. unfold closed; cbn. rewrite bool_decide_eq_false_2 by done.
    unfold r; cbn. rewrite <- !app_assoc. f_equal. lia.
  - destruct (send_all_outside a n pay Hn bytes (_read_byte (proto s)) (_master_acked (proto s)) []
      (_payload_index (proto s)) (acked false (sampled (2 * addr) r)) false target_ack_done) as (h' & ph' & Hp & Hh & Ho);
      [by left|]. unfold outside in Ho at 1. rewrite Ho. cbn [fst snd].
    erewrite stop_st by (by apply clock_outside).
    split_and!; [done|done| |done]. unfold closed; cbn. by rewrite app_nil_r.
Qed.

(** C36. A read transaction.  On a free bus, while the target has queued bytes,
    a host that addresses it, reads [m] bytes and refuses the last one gets the
    next [m] queued bytes in order, ones when the queue is exhausted; the
    target moves on by the bytes it had, records no write, and the bus is free
    afterwards. *)
Theorem read_transaction_returns_payload s m :
  bus_free s → 0 ≤ stretch_cycles s → 0 ≤ address s < 128 → Forall is_byte (_payload s) →
  0 ≤ _payload_index (proto s) < Z.of_nat (length (_payload s)) →
  let '(s', bytes) := read_transaction (address s) (S m) s in
  bus_free s' ∧
  bytes = resize (S m) 0xff (drop (Z.to_nat (_payload_index (proto s))) (_payload s)) ∧
  _payload_index (proto s') =
    Z.min (_payload_index (proto s) + Z.of_nat (S m)) (Z.of_nat (length (_payload s))) ∧
  recorded s' = mkRecorded (_completed_writes (recorded s))
    (_sampled_bytes (recorded s) ++ [2 * address s + 1])
    (start_count (recorded s) + 1) (stop_count (recorded s) + 1) (ack_count (recorded s) + 1).
Proof.
  intros Hfree Hn Haddr Hpay Hpi. unfold read_transaction.
  rewrite (start_free s Hfree). set (a := address s) in *. set (n := stretch_cycles s) in *. set (pay := _payload s) in *.
  set (r := mkRecorded _ _ (start_count (recorded s) + 1) _ _).
  destruct (send_byte a n pay Hn address_ (2 * a + 1) true (_read_byte (proto s)) (_ack_pending (proto s))
    (_after_ack (proto s)) (_master_acked (proto s)) [] (_payload_index (proto s)) r) as [h Hs];
    [by left|unfold is_byte; lia|].
  rewrite Hs, received_read_address, clock_ack by (done || lia). cbn iota beta.
  edestruct (receive_all_bytes a n pay Hn m Hpay) as (p' & Hrun & H1 & H2 & H3 & H4 & H5);
    [| |rewrite Hrun].
  { split; [left|]; done. }
  { cbn. lia. }
  cbn iota beta. clear Hrun. destruct p' as [ph k rx rd ap aa ma cw pi']. cbn in H1, H2, H3, H4, H5. subst.
  erewrite stop_st by (by apply clock_read).
  split_and!; [done|apply (reads_resize pay (S m)); lia|done|done].
Qed.

(** *** The hypotheses are satisfiable *)

Module Example_i2c.
Definition peer : I2cPeer :=
  match new_i2c [7; 200; 255] 0x50 3 with
  | Ok s => s
  | Err _ => mkI2c 0 0 [] (mkLines false false false false 0) (mkProtocol idle 0 0 0 false idle false [] 0)
               (mkRecorded [] [] 0 0 0)
  end.

Lemma write_transaction_recorded_witness :
  let '(s', acks) := write_transaction 0x50 [0x12; 0xff; 0] peer in
  bus_free s' ∧ acks = [0; 0; 0; 0] ∧ _completed_writes (recorded s') = [[0x12; 0xff; 0]].
Proof.
  pose proof (write_transaction_recorded peer 0x50 [0x12; 0xff; 0]) as H.
  destruct (write_transaction 0x50 [0x12; 0xff; 0] peer) as [s' acks].
  destruct H as (Hf & Ha & Hr & _); [split; reflexivity|discriminate|split; [discriminate|reflexivity]
    |repeat constructor; discriminate|discriminate|].
  rewrite Ha, Hr. split; [exact Hf|]. split; reflexivity.
Defined.

Lemma read_transaction_returns_payload_witness :
  let '(s', bytes) := read_transaction 0x50 5 peer in
  bus_free s' ∧ bytes = [7; 200; 255; 255; 255] ∧ _payload_index (proto s') = 3.
Proof.
  pose proof (read_transaction_returns_payload peer 4) as H. change (address peer) with 0x50 in H.
  destruct (read_transaction 0x50 5 peer) as [s' bytes].
  destruct H as (Hf & Hb & Hp & _); [split; reflexivity|discriminate|split; [discriminate|reflexivity]
    |repeat constructor; discriminate|split; [discriminate|reflexivity]|].
  rewrite Hb, Hp. split; [exact Hf|]. split; reflexivity.
Defined.
End Example_i2c.
