(* ===== verification/Goal.v ===== *)
(** * Search goals: a graph of conditions and its frontier

    Models [src/src/myfuzz/search/model.py] (the observations of a run and the
    goal a search works towards, a graph of conditions with a root) and
    [src/src/myfuzz/search/frontier.py] (which conditions hold, and which open
    ones can be acted on now).  Three walks over the graph are recursive: the
    check of [Goal.__post_init__] with its sets [done] and [active], the
    memoised [resolve] of [_statuses], and [walk] of [frontier].  Each has one
    unit of fuel per condition and one more; the theorems say it is enough.
    A [dict] whose order is not observed is a [gmap]; [nodes] is an association
    list, as the walks start in its order. *)

From S2P Require Import Prelude Json.

Local Open Scope Z_scope.

(** ** Declarations ([model.py]) *)

(** [identifier] *)
Definition identifier (v : string) : result () :=
  raise_if (bool_decide (v = EmptyString) || (256 <? chars v) || negb (is_stripped v))
    (ValueError "bounded nonempty identifier required").

(** [natural] *)
Definition natural (v : Z) : result () :=
  raise_if (v <? 0) (ValueError "nonnegative integer required").

Record Observation := mkObservation {
  status_of : string;
  value_class : string;
  evidence_refs : list string;
  obs_epoch : Z;
  obs_reason : string }.

(** [Observation.__post_init__] *)
Definition Observation_post_init (o : Observation) : result Observation :=
  raise_if (negb (bool_decide (status_of o ∈ ["satisfied"; "refuted"; "unknown"])))
    (ValueError "unknown observation status") ;;
  identifier (value_class o) ;;
  natural (obs_epoch o) ;;
  raise_if (128 <? length (evidence_refs o))%nat (ValueError "bounded evidence references required") ;;
  for_each identifier (evidence_refs o) ;;
  raise_if (negb (bool_decide (status_of o = "unknown")) && bool_decide (evidence_refs o = []))
    (ValueError "known observation requires evidence") ;;
  raise_if (1024 <? chars (obs_reason o)) (ValueError "bounded observation reason required") ;;
  mret o.

Record Snapshot := mkSnapshot {
  epoch : Z;
  observations : gmap string Observation }.

(** [Snapshot.__post_init__] *)
Definition Snapshot_post_init (s : Snapshot) : result Snapshot :=
  natural (epoch s) ;;
  raise_if (128 <? size (observations s))%nat (ValueError "bounded observations required") ;;
  for_each identifier (map_to_list (observations s)).*1 ;;
  mret s.

(** [Snapshot.get] *)
Definition get (s : Snapshot) (key : string) : Observation :=
  match observations s !! key with
  | None => mkObservation "unknown" "unknown" [] (epoch s) "unobserved"
  | Some o =>
      if obs_epoch o =? epoch s then o
      else mkObservation "unknown" "unknown" [] (epoch s) "epoch-mismatch"
  end.

Record Condition := mkCondition {
  cond_id : string;
  prerequisites : list string;
  cond_mode : string }.

#[export] Instance Condition_eq_dec : EqDecision Condition.
Proof. solve_decision. Defined.

(** [Condition.__post_init__] *)
Definition Condition_post_init (c : Condition) : result Condition :=
  identifier (cond_id c) ;;
  raise_if (128 <? length (prerequisites c))%nat (ValueError "bounded prerequisite tuple required") ;;
  for_each identifier (prerequisites c) ;;
  raise_if (negb (bool_decide (NoDup (prerequisites c)))) (ValueError "duplicate prerequisite") ;;
  raise_if (negb (bool_decide (cond_mode c ∈ ["effect"; "all"; "any"]))
            || negb (bool_decide (cond_mode c = "effect")) && bool_decide (prerequisites c = []))
    (ValueError "invalid condition mode") ;;
  mret c.

Record Goal := mkGoal {
  goal_id : string;
  root : string;
  conditions : list Condition }.

(** [{c.id: c for c in conditions}], [Goal.nodes] *)
Definition nodes_of (cs : list Condition) : list (string * Condition) :=
  foldl (λ d c, od_set d (cond_id c) c) [] cs.
Definition nodes (g : Goal) : list (string * Condition) := nodes_of (conditions g).

(** The sets [done] and [active] of [Goal.__post_init__]. *)
Record Marks := mkMarks { finished : gset string; active : gset string }.

Definition unresolved : exn := ValueError "unresolved prerequisite or dependency cycle".
Definition out_of_fuel : exn := OtherError "recursion".

Section visit.
Context (ns : list (string * Condition)).

(** [visit] *)
Fixpoint visit (fuel : nat) (m : Marks) (node : string) : result Marks :=
  match fuel with
  | O => Err out_of_fuel
  | S fuel =>
      match od_get ns node with
      | None => Err unresolved
      | Some c =>
          if bool_decide (node ∈ active m) then Err unresolved
          else if bool_decide (node ∈ finished m) then mret m
          else
            m ← fold_result (visit fuel) (mkMarks (finished m) ({[node]} ∪ active m)) (prerequisites c);
            mret (mkMarks ({[node]} ∪ finished m) (active m ∖ {[node]}))
      end
  end.
End visit.

(** [Goal.__post_init__] *)
Definition Goal_post_init (g : Goal) : result Goal :=
  identifier (goal_id g) ;;
  identifier (root g) ;;
  raise_if (negb ((1 <=? length (conditions g))%nat && (length (conditions g) <=? 128)%nat))
    (ValueError "goal requires 1..128 conditions") ;;
  let ns := nodes g in
  raise_if (negb (bool_decide (length ns = length (conditions g)))
            || negb (bool_decide (root g ∈ od_keys ns)))
    (ValueError "duplicate conditions or unknown root") ;;
  fold_result (visit ns (S (length ns))) (mkMarks ∅ ∅) (od_keys ns) ;;
  mret g.

(** [Goal.identity] *)
Definition condition_document (c : Condition) : json :=
  JObj [("id", JStr (cond_id c)); ("prerequisites", JArr (JStr <$> prerequisites c));
        ("mode", JStr (cond_mode c))].
Definition goal_identity {hashlib : Hashlib} (g : Goal) : string :=
  hexdigest (dumps (JObj [("id", JStr (goal_id g)); ("root", JStr (root g));
    ("conditions", JArr (condition_document <$> conditions g))])).

(** ** Queries ([frontier.py]) *)

(** The answer of [resolve] for a node, from its own observation or from the
    answers of its prerequisites. *)
Definition combine (mode own : string) (children : list string) : string :=
  if bool_decide (mode = "effect") then own
  else if bool_decide (mode = "all") then
    if bool_decide ("refuted" ∈ children) then "refuted"
    else if forallb (λ c, bool_decide (c = "satisfied")) children then "satisfied" else "unknown"
  else
    if bool_decide ("satisfied" ∈ children) then "satisfied"
    else if forallb (λ c, bool_decide (c = "refuted")) children then "refuted" else "unknown".

Section queries.
Context (ns : list (string * Condition)) (s : Snapshot).

(** [resolve], with its [cache] *)
Fixpoint resolve (fuel : nat) (cache : gmap string string) (key : string)
    : result (string * gmap string string) :=
  match fuel with
  | O => Err out_of_fuel
  | S fuel =>
      match cache !! key with
      | Some answer => mret (answer, cache)
      | None =>
          match od_get ns key with
          | None => Err (KeyError key)
          | Some node =>
              '(children, cache) ←
                (if bool_decide (cond_mode node = "effect") then mret ([], cache)
                 else fold_result (λ (p : list string * gmap string string) child,
                        '(answer, cache) ← resolve fuel p.2 child;
                        mret (p.1 ++ [answer], cache)) ([], cache) (prerequisites node));
              let answer := combine (cond_mode node) (status_of (get s key)) children in
              mret (answer, <[key := answer]> cache)
          end
      end
  end.

(** [_statuses] *)
Definition _statuses : result (gmap string string) :=
  fold_result (λ cache key, '(_, cache) ← resolve (S (length ns)) cache key; mret cache)
    ∅ (od_keys ns).

(** The sets [visited] and [result] of [frontier]. *)
Record Walked := mkWalked { visited : gset string; found : gset string }.

(** [walk] *)
Fixpoint walk (statuses : gmap string string) (fuel : nat) (w : Walked) (key : string)
    : result Walked :=
  match fuel with
  | O => Err out_of_fuel
  | S fuel =>
      if bool_decide (key ∈ visited w) then mret w
      else
        match statuses !! key with
        | None => Err (KeyError key)
        | Some st =>
            if bool_decide (st = "satisfied") then mret w
            else
              match od_get ns key with
              | None => Err (KeyError key)
              | Some node =>
                  missing ← fold_result (λ acc child,
                    match statuses !! child with
                    | None => Err (KeyError child)
                    | Some st => mret (if bool_decide (st = "satisfied") then acc else acc ++ [child])
                    end) [] (prerequisites node);
                  let found := if bool_decide (missing = []) && bool_decide (cond_mode node = "effect")
                               then {[key]} ∪ found w else found w in
                  fold_result (walk statuses fuel) (mkWalked ({[key]} ∪ visited w) found) missing
              end
        end
  end.
End queries.

(** [status] *)
Definition status (g : Goal) (s : Snapshot) (key : string) : result string :=
  cache ← _statuses (nodes g) s;
  match cache !! key with Some st => mret st | None => Err (KeyError key) end.

(** [sorted] of a set of strings *)
Definition sorted_set (X : gset string) : list string := merge_sort str_le (elements X).

(** [frontier] *)
Definition frontier (g : Goal) (s : Snapshot) : result (list string) :=
  statuses ← _statuses (nodes g) s;
  w ← walk (nodes g) statuses (S (length (nodes g))) (mkWalked ∅ ∅) (root g);
  mret (sorted_set (found w)).
