(* ===== verification/GoalSpec.v ===== *)
(** * What the search graph guarantees

    [Goal_accepts_exactly_acyclic]: the constructor accepts exactly the closed
    and acyclic graphs, and its walk ends on every graph.  [status_exact]: the
    three-valued answers are exact, a condition is called satisfied (refuted)
    when it holds (fails) under every outcome of the effects that are still
    unknown, and only then.  [frontier_exact]: the frontier lists the open
    effects that can be acted on now, and is empty only when the root holds. *)

From S2P Require Import Prelude Json Goal.

Local Open Scope Z_scope.

(** ** Walks over an acyclic graph end *)

Section depth.
Context (E : string → string → Prop) (l : list string).

(** Every chain from [x] has fewer than [n] edges. *)
Fixpoint deep (n : nat) (x : string) : Prop :=
  match n with O => False | S n => ∀ y, E x y → deep n y end.

Lemma deep_path n path x :
  (∀ x, ¬ tc E x x) → (∀ x y, E x y → y ∈ l) →
  NoDup path → (∀ a, a ∈ path → a ∈ l ∧ tc E a x) → x ∈ l →
  (n + length path = S (length l))%nat → deep n x.
Proof.
  intros Hac Hcl. revert path x. induction n as [|n IH]; intros path x Hnd Hp Hx Hn.
  - assert (path ⊆+ l) as Hs%submseteq_length by (apply NoDup_submseteq; [done|]; naive_solver). lia.
  - intros y Hy. apply (IH (x :: path)).
    + apply NoDup_cons. split; [|done]. intros Hin. apply (Hac x). by apply Hp.
    + intros a [->|Ha]%elem_of_cons; [split; [done|by apply tc_once]|].
      destruct (Hp a Ha) as [Hal Hax]. split; [done|]. by eapply tc_r.
    + by eapply Hcl.
    + cbn. lia.
Qed.

Lemma deep_enough x :
  (∀ x, ¬ tc E x x) → (∀ x y, E x y → y ∈ l) → x ∈ l → deep (S (length l)) x.
Proof.
  intros Hac Hcl Hx. apply (deep_path _ []); [done|done|constructor|by intros ? ?%not_elem_of_nil|done|].
  cbn. lia.
Qed.

(** Well-founded nodes are on no cycle. *)
Lemma Acc_acyclic x : Acc (λ a b, E b a) x → ¬ tc E x x.
Proof.
  intros Hx. assert (Htc : ∀ y, tc E x y → Acc (λ a b, E b a) y).
  { intros y Hy. revert Hx. induction Hy as [a b Hab|a b c Hab Hbc IH]; intros Ha.
    - by apply Ha.
    - apply IH. by apply Ha. }
  clear Htc. induction Hx as [x _ IH]. intros Hc.
  assert (∃ y, E x y ∧ tc E y y) as (y & Hxy & Hy); [|by apply (IH y)].
  inversion Hc as [? ? Hxx|? y ? Hxy Hyx]; subst; [by exists x|].
  exists y. split; [done|]. by eapply tc_r.
Qed.
End depth.

(** ** The check of [Goal.__post_init__] *)

Section goal_graph.
Context (ns : list (string * Condition)).

(** [y] is a prerequisite of [x]. *)
Definition edge (x y : string) : Prop := ∃ c, od_get ns x = Some c ∧ y ∈ prerequisites c.
Definition closed_graph : Prop := ∀ x y, edge x y → y ∈ od_keys ns.
Definition acyclic : Prop := ∀ x, ¬ tc edge x x.

Lemma node_present x : x ∈ od_keys ns → ∃ c, od_get ns x = Some c.
Proof.
  intros Hx. destruct (od_get ns x) as [c|] eqn:Hc; [by eauto|]. by apply od_get_None in Hc.
Qed.

Lemma visit_active fuel m x m' : visit ns fuel m x = Ok m' → active m' = active m.
Proof.
  revert m x m'. induction fuel as [|fuel IH]; intros m x m'; [done|]. cbn.
  destruct (od_get ns x) as [c|]; [|done]. case_bool_decide as Ha; [done|].
  case_bool_decide; [by intros; inv_Ok|]. intros (m1 & Hf & Hm)%bind_Ok. inv_Ok.
  assert (Hact : active m1 = {[x]} ∪ active m).
  { refine (fold_result_inv (λ m1, active m1 = {[x]} ∪ active m) _ _ _ _ _ _ Hf); [|done].
    intros m2 y m3 _ Hm2 Hy. by rewrite (IH _ _ _ Hy). }
  cbn. rewrite Hact. set_solver.
Qed.

Lemma visits_active fuel m xs m' : fold_result (visit ns fuel) m xs = Ok m' → active m' = active m.
Proof.
  apply (fold_result_inv (λ m', active m' = active m)); [|done].
  intros m2 y m3 _ Hm2 Hy. by rewrite (visit_active _ _ _ _ Hy).
Qed.

(** What is finished is closed and well founded. *)
Definition sound_marks (m : Marks) : Prop :=
  ∀ x, x ∈ finished m →
    x ∈ od_keys ns ∧ (∀ y, edge x y → y ∈ finished m) ∧ Acc (λ a b, edge b a) x.

Lemma visits_sound fuel
    (IH : ∀ m x m', visit ns fuel m x = Ok m' → sound_marks m →
       sound_marks m' ∧ x ∈ finished m' ∧ finished m ⊆ finished m') xs m m' :
  fold_result (visit ns fuel) m xs = Ok m' → sound_marks m →
  sound_marks m' ∧ (∀ x, x ∈ xs → x ∈ finished m') ∧ finished m ⊆ finished m'.
Proof.
  revert m. induction xs as [|x xs IHxs]; intros m; cbn.
  { intros [= <-] Hm. split_and!; [done|by intros ? ?%not_elem_of_nil|done]. }
  intros (m1 & H1 & H2)%bind_Ok Hm. destruct (IH _ _ _ H1 Hm) as (Hm1 & Hx & Hs1).
  destruct (IHxs _ H2 Hm1) as (Hm' & Hxs & Hs2).
  clear IH IHxs. split_and!; [done| |set_solver]. intros y [->|Hy]%elem_of_cons; [by apply Hs2|by apply Hxs].
Qed.

Lemma visit_sound fuel m x m' :
  visit ns fuel m x = Ok m' → sound_marks m →
  sound_marks m' ∧ x ∈ finished m' ∧ finished m ⊆ finished m'.
Proof.
  revert m x m'. induction fuel as [|fuel IH]; intros m x m'; [done|]. cbn.
  destruct (od_get ns x) as [c|] eqn:Hc; [|done]. case_bool_decide as Ha; [done|].
  case_bool_decide as Hf; [by intros [= <-]|].
  intros (m1 & Hf1 & [= <-])%bind_Ok Hm.
  destruct (visits_sound fuel IH _ _ _ Hf1 Hm) as (Hm1 & Hch & Hsub). cbn in *.
  assert (Hkids : ∀ y, edge x y → y ∈ finished m1) by (intros y (c' & ? & Hy); simplify_eq; auto).
  clear IH. split_and!; [|set_solver|set_solver].
  intros y [->%elem_of_singleton|Hy]%elem_of_union.
  - split_and!; [by eapply od_get_Some_key|set_solver|].
    constructor. intros z Hz. by apply Hm1, Hkids.
  - destruct (Hm1 y Hy) as (? & Hcl & ?). split_and!; [done|set_solver|done].
Qed.

(** On a closed acyclic graph every visit returns. *)
Lemma visit_total fuel m x :
  closed_graph → acyclic → x ∈ od_keys ns → deep edge fuel x →
  (∀ a, a ∈ active m → tc edge a x) → ∃ m', visit ns fuel m x = Ok m'.
Proof.
  intros Hcl Hac. revert m x. induction fuel as [|fuel IH]; intros m x Hx Hd Ha; [done|]. cbn.
  destruct (node_present x Hx) as [c Hc]. rewrite Hc.
  rewrite bool_decide_false by (intros Hin; by apply (Hac x), Ha).
  case_bool_decide; [by eauto|].
  assert (∃ m', fold_result (visit ns fuel) (mkMarks (finished m) ({[x]} ∪ active m))
                  (prerequisites c) = Ok m') as [m' ->]; [|by cbn; eauto].
  assert (Hk : ∀ y, y ∈ prerequisites c → edge x y) by (intros y Hy; by exists c).
  remember (mkMarks (finished m) ({[x]} ∪ active m)) as m1 eqn:Hm1.
  apply (f_equal active) in Hm1. cbn in Hm1. revert m1 Hm1 Hk.
  induction (prerequisites c) as [|y ys IHys]; intros m1 Hm1 Hk; [by cbn; eauto|]. cbn.
  assert (Hxy : edge x y) by (apply Hk; left).
  destruct (IH m1 y) as [m2 Hm2].
  - by eapply Hcl.
  - by apply Hd.
  - rewrite Hm1. intros a [->%elem_of_singleton|Hin]%elem_of_union; [by apply tc_once|].
    eapply tc_r; [by apply Ha|done].
  - rewrite Hm2. cbn. apply IHys; [by rewrite (visit_active _ _ _ _ Hm2)|].
    intros z Hz. apply Hk. by right.
Qed.

(** The fuel is never the reason for a refusal. *)
Lemma visit_refuses fuel m x e :
  active m ⊆ list_to_set (od_keys ns) → (S (length ns) ≤ fuel + size (active m))%nat →
  visit ns fuel m x = Err e → e = unresolved.
Proof.
  revert m x. induction fuel as [|fuel IH]; intros m x Hsub Hn.
  { exfalso. apply subseteq_size in Hsub.
    assert (size (list_to_set (od_keys ns) : gset string) ≤ length ns)%nat; [|lia].
    rewrite <- (length_fmap fst ns). unfold od_keys.
    induction ns.*1 as [|k ks IHk]; cbn; [by rewrite size_empty|].
    pose proof (size_union_alt {[k]} (list_to_set ks : gset string)) as Hu.
    rewrite size_singleton in Hu.
    pose proof (subseteq_size (list_to_set ks ∖ {[k]}) (list_to_set ks : gset string) ltac:(set_solver)).
    rewrite Hu. lia. }
  cbn. destruct (od_get ns x) as [c|] eqn:Hc; [|by intros [= <-]].
  case_bool_decide as Ha; [by intros [= <-]|]. case_bool_decide; [done|].
  intros [Hf|(? & _ & ?)]%bind_Err; [|done]. revert Hf.
  assert (Hsub' : {[x]} ∪ active m ⊆ list_to_set (od_keys ns)).
  { apply od_get_Some_key in Hc. set_solver. }
  assert (Hn' : (S (length ns) ≤ fuel + size ({[x]} ∪ active m))%nat).
  { rewrite size_union by set_solver. rewrite size_singleton. lia. }
  remember (mkMarks (finished m) ({[x]} ∪ active m)) as m1 eqn:Hm1.
  apply (f_equal active) in Hm1. cbn in Hm1. revert m1 Hm1.
  induction (prerequisites c) as [|y ys IHys]; intros m1 Hm1; [done|]. cbn.
  intros [Hy|(m2 & Hm2 & Hys)]%bind_Err.
  - eapply IH; [..|exact Hy]; rewrite Hm1; done.
  - eapply IHys; [|exact Hys]. by rewrite (visit_active _ _ _ _ Hm2).
Qed.
End goal_graph.

(** ** The nodes of a goal *)

(** [y] is a prerequisite of the condition [x]. *)
Definition needs (g : Goal) (x y : string) : Prop :=
  ∃ c, c ∈ conditions g ∧ cond_id c = x ∧ y ∈ prerequisites c.

Lemma foldl_nodes d cs :
  NoDup (od_keys d ++ (cond_id <$> cs)) →
  foldl (λ d c, od_set d (cond_id c) c) d cs = d ++ ((λ c, (cond_id c, c)) <$> cs).
Proof.
  revert d. induction cs as [|c cs IH]; intros d Hnd; cbn; [by rewrite app_nil_r|].
  assert (Hc : cond_id c ∉ od_keys d) by (apply NoDup_app in Hnd as (_ & Hd & _); set_solver).
  rewrite od_set_absent by done. rewrite IH; [by rewrite <- app_assoc|].
  unfold od_keys in *. rewrite fmap_app. cbn. by rewrite <- app_assoc.
Qed.

Lemma foldl_nodes_length d cs :
  (length (foldl (λ d c, od_set d (cond_id c) c) d cs) ≤ length d + length cs)%nat.
Proof.
  revert d. induction cs as [|c cs IH]; intros d; cbn; [lia|].
  specialize (IH (od_set d (cond_id c) c)). pose proof (od_set_length d (cond_id c) c). lia.
Qed.

Lemma foldl_nodes_NoDup d cs :
  NoDup (od_keys d) →
  length (foldl (λ d c, od_set d (cond_id c) c) d cs) = (length d + length cs)%nat →
  NoDup (od_keys d ++ (cond_id <$> cs)).
Proof.
  revert d. induction cs as [|c cs IH]; intros d Hnd Hl; cbn in *; [by rewrite app_nil_r|].
  pose proof (foldl_nodes_length (od_set d (cond_id c) c) cs).
  destruct (decide (cond_id c ∈ od_keys d)) as [Hin|Hin].
  { exfalso. assert (length (od_set d (cond_id c) c) = length d); [|lia].
    rewrite <- !(length_fmap fst). f_equal. by apply (od_keys_set_present d). }
  rewrite od_set_absent in Hl by done. specialize (IH (d ++ [(cond_id c, c)])).
  unfold od_keys in *. rewrite fmap_app, <- app_assoc in IH. cbn in IH. apply IH.
  - apply NoDup_app. split_and!; [done|set_solver|apply NoDup_singleton].
  - rewrite Hl, length_app. cbn. lia.
Qed.

Lemma nodes_NoDup g :
  length (nodes g) = length (conditions g) ↔ NoDup (cond_id <$> conditions g).
Proof.
  unfold nodes, nodes_of. split.
  - intros Hl. apply (foldl_nodes_NoDup []); [constructor|done].
  - intros Hnd. by rewrite foldl_nodes, length_app, length_fmap.
Qed.

Lemma nodes_eq g : NoDup (cond_id <$> conditions g) → nodes g = (λ c, (cond_id c, c)) <$> conditions g.
Proof. intros Hnd. unfold nodes, nodes_of. by rewrite foldl_nodes. Qed.

Lemma nodes_keys g : NoDup (cond_id <$> conditions g) → od_keys (nodes g) = cond_id <$> conditions g.
Proof. intros Hnd. rewrite nodes_eq by done. unfold od_keys. by rewrite <- list_fmap_compose. Qed.

Lemma nodes_get g k c :
  NoDup (cond_id <$> conditions g) →
  od_get (nodes g) k = Some c ↔ c ∈ conditions g ∧ cond_id c = k.
Proof.
  intros Hnd. split.
  - intros Hk%od_get_elem. rewrite nodes_eq in Hk by done.
    apply list_elem_of_fmap in Hk as (c' & ? & ?). by simplify_eq.
  - intros [Hc <-]. apply od_elem_get; [by rewrite nodes_keys|]. rewrite nodes_eq by done.
    apply list_elem_of_fmap. by exists c.
Qed.

Lemma nodes_edge g x y :
  NoDup (cond_id <$> conditions g) → edge (nodes g) x y ↔ needs g x y.
Proof.
  intros Hnd. unfold edge, needs. split.
  - intros (c & [Hc Hx]%nodes_get & Hy); [|done]. by exists c.
  - intros (c & Hc & Hx & Hy). exists c. by rewrite nodes_get.
Qed.

(** What the guards before the walk ask of a goal. *)
Definition goal_fields (g : Goal) : Prop :=
  identifier (goal_id g) = Ok () ∧ identifier (root g) = Ok () ∧
  (1 ≤ length (conditions g) ≤ 128)%nat ∧ NoDup (cond_id <$> conditions g) ∧
  root g ∈ cond_id <$> conditions g.
(** Every prerequisite is a condition of the goal, and none needs itself. *)
Definition goal_graph_ok (g : Goal) : Prop :=
  (∀ x y, needs g x y → y ∈ cond_id <$> conditions g) ∧ (∀ x, ¬ tc (needs g) x x).
Definition goal_ok (g : Goal) : Prop := goal_fields g ∧ goal_graph_ok g.

Lemma tc_iff (R R' : relation string) x y : (∀ a b, R a b ↔ R' a b) → tc R x y → tc R' x y.
Proof.
  intros HR. induction 1 as [a b Hab|a b c Hab Hbc IH]; [by apply tc_once, HR|].
  eapply tc_l; [by apply HR|done].
Qed.

Lemma goal_graph_nodes g :
  NoDup (cond_id <$> conditions g) →
  goal_graph_ok g ↔ closed_graph (nodes g) ∧ acyclic (nodes g).
Proof.
  intros Hnd. unfold goal_graph_ok, closed_graph, acyclic. rewrite nodes_keys by done.
  pose proof (nodes_edge g) as He. split; intros [H1 H2]; split.
  - intros x y Hxy. apply (H1 x). by apply He.
  - intros x Hx. apply (H2 x). eapply tc_iff; [|exact Hx]. intros. by apply He.
  - intros x y Hxy. apply (H1 x). by apply He.
  - intros x Hx. apply (H2 x). eapply tc_iff; [|exact Hx]. intros. by rewrite He.
Qed.

(** The loop [for node in nodes: visit(node)]. *)
Lemma all_visits ns xs m :
  closed_graph ns → acyclic ns → active m = ∅ → (∀ x, x ∈ xs → x ∈ od_keys ns) →
  ∃ m', fold_result (visit ns (S (length ns))) m xs = Ok m'.
Proof.
  intros Hcl Hac. revert m. induction xs as [|x xs IH]; intros m Hm Hxs; [by cbn; eauto|]. cbn [fold_result].
  destruct (visit_total ns (S (length ns)) m x Hcl Hac) as [m1 Hm1].
  - apply Hxs. left.
  - rewrite <- (length_fmap fst ns). apply deep_enough; [done|by apply Hcl|apply Hxs; left].
  - rewrite Hm. set_solver.
  - rewrite Hm1. cbn. apply IH; [by rewrite (visit_active _ _ _ _ _ Hm1)|].
    intros y Hy. apply Hxs. by right.
Qed.

Lemma all_visits_sound ns m' :
  fold_result (visit ns (S (length ns))) (mkMarks ∅ ∅) (od_keys ns) = Ok m' →
  closed_graph ns ∧ acyclic ns.
Proof.
  intros Hf. destruct (visits_sound ns _ (visit_sound ns _) _ _ _ Hf) as (Hm & Hall & _).
  { intros x Hx. cbn in Hx. set_solver. }
  split.
  - intros x y Hxy. assert (Hx : x ∈ od_keys ns) by (destruct Hxy as (c & ?%od_get_Some_key & _); done).
    destruct (Hm x (Hall x Hx)) as (_ & Hcl & _). by apply Hm, Hcl.
  - intros x Hx. assert (x ∈ od_keys ns).
    { by inversion Hx as [? ? (c & ?%od_get_Some_key & _)|? ? ? (c & ?%od_get_Some_key & _)]; subst. }
    destruct (Hm x) as (_ & _ & Hacc); [by apply Hall|]. by apply (Acc_acyclic _ _ Hacc).
Qed.

Lemma visits_refuse ns xs m e :
  active m = ∅ → fold_result (visit ns (S (length ns))) m xs = Err e → e = unresolved.
Proof.
  revert m. induction xs as [|x xs IH]; intros m Hm; [done|]. cbn [fold_result].
  intros [Hx|(m1 & Hm1 & Hxs)]%bind_Err.
  - eapply visit_refuses; [| |exact Hx]; rewrite Hm; [set_solver|lia].
  - eapply IH; [|exact Hxs]. by rewrite (visit_active _ _ _ _ _ Hm1).
Qed.

Lemma Goal_post_init_cases g :
  match Goal_post_init g with
  | Ok g' => g' = g ∧ goal_ok g
  | Err e => (∃ msg, e = ValueError msg) ∧ ¬ goal_ok g
  end.
Proof.
  unfold Goal_post_init, goal_ok, goal_fields.
  destruct (identifier (goal_id g)) as [[]|e] eqn:H1; cbn -[Nat.leb visit].
  2: { unfold identifier in H1. inv_Ok. subst. split; [by eauto|naive_solver]. }
  destruct (identifier (root g)) as [[]|e] eqn:H2; cbn -[Nat.leb visit].
  2: { unfold identifier in H2. inv_Ok. subst. split; [by eauto|naive_solver]. }
  destruct (1 <=? length (conditions g))%nat eqn:H3; [|cbn -[Nat.leb visit]; split; [by eauto|apply Nat.leb_gt in H3; intros [(_ & _ & ? & _) _]; lia]].
  destruct (length (conditions g) <=? 128)%nat eqn:H4; [|cbn -[Nat.leb visit]; split; [by eauto|apply Nat.leb_gt in H4; intros [(_ & _ & ? & _) _]; lia]].
  apply Nat.leb_le in H3, H4. cbn -[Nat.leb visit].
  case_bool_decide as H5; cbn -[Nat.leb visit]; [|rewrite nodes_NoDup in H5; naive_solver].
  apply nodes_NoDup in H5. rewrite nodes_keys by done.
  case_bool_decide as H6; cbn -[Nat.leb visit]; [|naive_solver].
  rewrite <- nodes_keys by done. destruct (fold_result _ _ _) as [m|e] eqn:Hf; cbn -[visit].
  - apply all_visits_sound in Hf as [Hcl Hac].
    rewrite nodes_keys, goal_graph_nodes by done. by split_and!.
  - split; [exists "unresolved prerequisite or dependency cycle"; by eapply (visits_refuse _ _ (mkMarks ∅ ∅))|].
    rewrite goal_graph_nodes by done. intros [_ [Hcl Hac]].
    destruct (all_visits (nodes g) (od_keys (nodes g)) (mkMarks ∅ ∅)) as [m Hm]; [done..|].
    congruence.
Qed.

(** C23. [Goal.__post_init__] accepts a goal exactly when its identifiers and
    counts are in bounds, its conditions have distinct names, its root and
    every prerequisite are among them, and no condition needs itself, directly
    or through others; otherwise it raises ValueError.  Its recursive walk ends
    on every graph, cyclic ones included. *)
Theorem Goal_accepts_exactly_acyclic (g : Goal) :
  match Goal_post_init g with
  | Ok g' => g' = g ∧ goal_fields g ∧ goal_graph_ok g
  | Err e => (∃ msg, e = ValueError msg) ∧ ¬ (goal_fields g ∧ goal_graph_ok g)
  end.
Proof. exact (Goal_post_init_cases g). Qed.

(** ** The three-valued answers *)

Lemma goal_ok_nodes g :
  goal_ok g → NoDup (cond_id <$> conditions g) ∧ closed_graph (nodes g) ∧ acyclic (nodes g).
Proof. intros [(_ & _ & _ & Hnd & _) Hg]. split; [done|]. by apply goal_graph_nodes. Qed.

Lemma deep_node ns x :
  closed_graph ns → acyclic ns → x ∈ od_keys ns → deep (edge ns) (S (length ns)) x.
Proof.
  intros Hcl Hac Hx. rewrite <- (length_fmap fst ns). apply deep_enough; [done|by apply Hcl|done].
Qed.

Section answers.
Context (ns : list (string * Condition)) (s : Snapshot).
Context (ns_closed : closed_graph ns) (ns_acyclic : acyclic ns).

(** Every cached answer follows from cached answers. *)
Definition cache_ok (cache : gmap string string) : Prop :=
  ∀ k a, cache !! k = Some a → ∃ c children,
    od_get ns k = Some c ∧ a = combine (cond_mode c) (status_of (get s k)) children ∧
    (cond_mode c ≠ "effect" → Forall2 (λ p b, cache !! p = Some b) (prerequisites c) children).

(** What a walk from [keys] adds to the cache. *)
Definition extends (keys : list string) (cache cache' : gmap string string) : Prop :=
  cache ⊆ cache' ∧ cache_ok cache' ∧
  ∀ k, is_Some (cache' !! k) → is_Some (cache !! k) ∨ ∃ x, x ∈ keys ∧ rtc (edge ns) x k.

Lemma resolve_children fuel keys acc cache
    (IH : ∀ cache key, key ∈ keys → cache_ok cache →
      ∃ a cache', resolve ns s fuel cache key = Ok (a, cache') ∧ cache' !! key = Some a ∧
        extends [key] cache cache') :
  cache_ok cache →
  ∃ answers cache',
    fold_result (λ (p : list string * gmap string string) child,
      '(answer, cache) ← resolve ns s fuel p.2 child; mret (p.1 ++ [answer], cache)) (acc, cache) keys
    = Ok (acc ++ answers, cache') ∧
    Forall2 (λ p b, cache' !! p = Some b) keys answers ∧ extends keys cache cache'.
Proof.
  revert acc cache. induction keys as [|key keys IHk]; intros acc cache Hok; cbn [fold_result].
  { exists [], cache. rewrite app_nil_r. split_and!; [done|by apply Forall2_nil|]. split_and!; [done..|by left]. }
  destruct (IH cache key ltac:(left) Hok) as (a & c1 & Hr & Ha & Hs1 & Hok1 & Hn1).
  cbn [fst snd]. rewrite Hr. cbn -[resolve].
  destruct (IHk ltac:(intros; apply IH; [by right|done]) (acc ++ [a]) c1 Hok1)
    as (answers & c2 & -> & Hf & Hs2 & Hok2 & Hn2).
  exists (a :: answers), c2. rewrite <- app_assoc. split_and!; [done| |split_and!; [by etrans|done|]].
  - apply Forall2_cons. split; [by eapply lookup_weaken|done].
  - intros k Hk. destruct (Hn2 k Hk) as [Hk1|(x & Hx & Hxk)].
    + destruct (Hn1 k Hk1) as [|(x & ->%list_elem_of_singleton & Hxk)]; [by left|].
      right. exists key. split; [left|done].
    + right. exists x. split; [by right|done].
Qed.

(** Adding the answer of a node whose children are cached. *)
Lemma extends_insert key c cache cache' answers :
  od_get ns key = Some c → cache !! key = None →
  extends (prerequisites c) cache cache' →
  (cond_mode c ≠ "effect" → Forall2 (λ p b, cache' !! p = Some b) (prerequisites c) answers) →
  extends [key] cache (<[key := combine (cond_mode c) (status_of (get s key)) answers]> cache').
Proof.
  intros Hc Hkey (Hs & Hok & Hn) Hf.
  assert (Hfresh : cache' !! key = None).
  { apply eq_None_not_Some. intros [[b Hb]|(x & Hx & Hxk)]%Hn; [congruence|].
    apply (ns_acyclic key). eapply tc_rtc_r; [apply tc_once; by exists c|done]. }
  split_and!.
  - by apply insert_subseteq_r.
  - intros k a. rewrite lookup_insert_Some. intros [[<- <-]|[Hne Hk]].
    + exists c, answers. split_and!; [done..|]. intros Hm. eapply Forall2_impl; [by apply Hf|].
      intros p b Hp. rewrite lookup_insert_ne; [done|]. intros ->. congruence.
    + destruct (Hok k a Hk) as (c' & children & ? & ? & Hf'). exists c', children.
      split_and!; [done..|]. intros Hm. eapply Forall2_impl; [by apply Hf'|].
      intros p b Hp. rewrite lookup_insert_ne; [done|]. intros ->. congruence.
  - intros k. rewrite lookup_insert_is_Some. intros [<-|[_ Hk]].
    + right. exists key. by split; [left|].
    + destruct (Hn k Hk) as [|(x & Hx & Hxk)]; [by left|]. right. exists key.
      split; [left|]. eapply rtc_l; [by exists c|done].
Qed.

Lemma resolve_total fuel cache key :
  deep (edge ns) fuel key → key ∈ od_keys ns → cache_ok cache →
  ∃ a cache', resolve ns s fuel cache key = Ok (a, cache') ∧ cache' !! key = Some a ∧
    extends [key] cache cache'.
Proof.
  revert cache key. induction fuel as [|fuel IH]; intros cache key Hd Hkey Hok; [done|].
  cbn [resolve]. destruct (cache !! key) as [a|] eqn:Hc.
  { exists a, cache. split_and!; [done..|]. split_and!; [done..|by left]. }
  destruct (node_present ns key Hkey) as [c Hnode]. rewrite Hnode. case_bool_decide as Hm.
  - cbn -[combine]. do 2 eexists. split_and!; [done|by rewrite lookup_insert_eq|].
    eapply extends_insert; [done..| |done]. split_and!; [done..|by left].
  - destruct (resolve_children fuel (prerequisites c) [] cache) as (answers & c1 & -> & Hf & Hx).
    + intros c1 child Hch. apply IH; [apply Hd; by exists c|]. eapply ns_closed. by exists c.
    + done.
    + cbn -[combine]. do 2 eexists. split_and!; [done|by rewrite lookup_insert_eq|].
      by eapply extends_insert.
Qed.

Lemma statuses_total :
  ∃ cache, _statuses ns s = Ok cache ∧ cache_ok cache ∧
    (∀ k, is_Some (cache !! k) ↔ k ∈ od_keys ns).
Proof.
  unfold _statuses. assert (H0 : cache_ok ∅) by (intros k a Hk; by rewrite lookup_empty in Hk).
  assert (Hdom : ∀ k, is_Some ((∅ : gmap string string) !! k) → k ∈ od_keys ns)
    by (intros k [a Hk]; by rewrite lookup_empty in Hk).
  assert (Hgo : ∀ keys cache, (∀ k, k ∈ keys → k ∈ od_keys ns) → cache_ok cache →
    (∀ k, is_Some (cache !! k) → k ∈ od_keys ns) →
    ∃ cache', fold_result (λ cache key,
       '(_, cache) ← resolve ns s (S (length ns)) cache key; mret cache) cache keys = Ok cache' ∧
      cache_ok cache' ∧ cache ⊆ cache' ∧ (∀ k, k ∈ keys → is_Some (cache' !! k)) ∧
      (∀ k, is_Some (cache' !! k) → k ∈ od_keys ns)).
  { clear H0 Hdom. induction keys as [|key keys IH]; intros cache Hkeys Hok Hdom; cbn [fold_result].
    { exists cache. split_and!; [done..|by intros ? ?%not_elem_of_nil|done]. }
    assert (Hkey : key ∈ od_keys ns) by (apply Hkeys; left).
    destruct (resolve_total _ cache key (deep_node ns key ns_closed ns_acyclic Hkey) Hkey Hok)
      as (a & c1 & -> & Ha & Hs1 & Hok1 & Hn1). cbn -[resolve].
    destruct (IH c1) as (c2 & -> & Hok2 & Hs2 & Hall & Hdom2); [set_solver|done| |].
    { intros k [Hk|(x & ->%list_elem_of_singleton & Hxk)]%Hn1; [by apply Hdom|].
      apply rtc_tc in Hxk as [<-|Hxk]; [done|]. clear -Hxk ns_closed.
      induction Hxk as [x y Hxy|]; [by eapply ns_closed|done]. }
    exists c2. split_and!; [done..|by etrans| |done].
    intros k [->|Hk]%elem_of_cons; [|by apply Hall]. exists a. by eapply lookup_weaken. }
  destruct (Hgo (od_keys ns) ∅) as (cache & Hc & Hok & _ & Hall & Hd); [done..|].
  exists cache. split_and!; [done..|]. intros k. split; auto.
Qed.
End answers.

(** The answer of a condition, as a function of its name. *)
Definition answer_in (cache : gmap string string) (k : string) : string := default "unknown" (cache !! k).

(** [_statuses] solves the equations of the graph. *)
Lemma statuses_equations g s :
  goal_ok g → ∃ cache, _statuses (nodes g) s = Ok cache ∧
    (∀ k, is_Some (cache !! k) ↔ k ∈ cond_id <$> conditions g) ∧
    ∀ c, c ∈ conditions g →
      cache !! cond_id c = Some (combine (cond_mode c) (status_of (get s (cond_id c)))
                                   (answer_in cache <$> prerequisites c)).
Proof.
  intros (Hnd & Hcl & Hac)%goal_ok_nodes.
  destruct (statuses_total (nodes g) s Hcl Hac) as (cache & Hc & Hok & Hdom).
  rewrite nodes_keys in Hdom by done. exists cache. split_and!; [done..|].
  intros c Hin. assert (is_Some (cache !! cond_id c)) as [a Ha] by (apply Hdom; set_solver).
  destruct (Hok _ _ Ha) as (c' & children & Hc' & Ha' & Hf). rewrite Ha, Ha'. f_equal.
  apply nodes_get in Hc' as [Hc' Hid]; [|done].
  assert (c' = c) as -> by (by eapply (NoDup_fmap_elem cond_id)).
  unfold combine. case_bool_decide as Hm; [done|]. specialize (Hf Hm).
  assert (answer_in cache <$> prerequisites c = children) as ->; [|done].
  clear -Hf. induction Hf as [|p b ps bs Hp Hps IH]; [done|]. cbn. rewrite IH. unfold answer_in.
  by rewrite Hp.
Qed.

(** A completion: the effects the run has not settled get some outcome, and
    the outcomes of the other conditions follow from their modes. *)
Definition outcome (g : Goal) (s : Snapshot) (v : string → bool) : Prop :=
  ∀ c, c ∈ conditions g →
    if decide (cond_mode c = "effect") then
      (status_of (get s (cond_id c)) = "satisfied" → v (cond_id c) = true) ∧
      (status_of (get s (cond_id c)) = "refuted" → v (cond_id c) = false)
    else if decide (cond_mode c = "all") then v (cond_id c) = forallb v (prerequisites c)
    else v (cond_id c) = existsb v (prerequisites c).

Lemma forallb_eq (x : string) l : forallb (λ c, bool_decide (c = x)) l = true ↔ Forall (λ c, c = x) l.
Proof.
  induction l as [|c l IH]; cbn; [by split|]. rewrite andb_true_iff, bool_decide_eq_true, IH.
  by rewrite Forall_cons.
Qed.

Lemma combine_effect mode own l : mode = "effect" → combine mode own l = own.
Proof. intros Hm. unfold combine. by rewrite bool_decide_true. Qed.

(** Both modes of [combine]: one decisive answer, else unanimity. *)
Lemma combine_decisive mode own l :
  mode ≠ "effect" →
  if decide (mode = "all") then
    (combine mode own l = "refuted" ↔ "refuted" ∈ l) ∧
    (combine mode own l = "satisfied" ↔ Forall (λ c, c = "satisfied") l)
  else
    (combine mode own l = "satisfied" ↔ "satisfied" ∈ l) ∧
    (combine mode own l = "refuted" ↔ Forall (λ c, c = "refuted") l).
Proof.
  intros Hm. unfold combine. rewrite (bool_decide_false (mode = "effect")) by done.
  assert (Hno : ∀ x y : string, x ≠ y → x ∈ l → ¬ Forall (λ c, c = y) l).
  { intros x y Hxy Hx Hall. rewrite Forall_forall in Hall. apply Hxy. by apply Hall. }
  case_decide as Ha; [rewrite bool_decide_true by done|rewrite bool_decide_false by done].
  all: case_bool_decide as Hin;
    [split; [done|]; split; [done|intros Hall; exfalso; eapply Hno; [|exact Hin|exact Hall]; discriminate]|].
  all: match goal with |- context [forallb ?f ?k] => destruct (forallb f k) eqn:Hf end.
  - apply forallb_eq in Hf. by repeat split.
  - repeat split; try done. intros Hall%forallb_eq. congruence.
  - apply forallb_eq in Hf. by repeat split.
  - repeat split; try done. intros Hall%forallb_eq. congruence.
Qed.

Lemma forallb_elem {A} (v : A → bool) l :
  (forallb v l = true ↔ ∀ p, p ∈ l → v p = true) ∧ (forallb v l = false ↔ ∃ p, p ∈ l ∧ v p = false).
Proof.
  induction l as [|x l [IH1 IH2]]; cbn; [set_solver|]. setoid_rewrite elem_of_cons.
  rewrite andb_true_iff, andb_false_iff, IH1, IH2. naive_solver.
Qed.
Lemma existsb_elem {A} (v : A → bool) l :
  (existsb v l = true ↔ ∃ p, p ∈ l ∧ v p = true) ∧ (existsb v l = false ↔ ∀ p, p ∈ l → v p = false).
Proof.
  induction l as [|x l [IH1 IH2]]; cbn; [set_solver|]. setoid_rewrite elem_of_cons.
  rewrite orb_true_iff, orb_false_iff, IH1, IH2. naive_solver.
Qed.

Section exact.
Context (g : Goal) (s : Snapshot) (st : string → string).
Context (st_eq : ∀ c, c ∈ conditions g →
  st (cond_id c) = combine (cond_mode c) (status_of (get s (cond_id c))) (st <$> prerequisites c)).

(** No completion contradicts an answer. *)
Lemma answers_sound v n k :
  goal_ok g → outcome g s v → deep (needs g) n k → k ∈ cond_id <$> conditions g →
  (st k = "satisfied" → v k = true) ∧ (st k = "refuted" → v k = false).
Proof.
  intros [_ [Hcl _]] Hv. revert k. induction n as [|n IH]; intros k Hd Hk; [done|].
  apply list_elem_of_fmap in Hk as (c & -> & Hc). rewrite st_eq by done. specialize (Hv c Hc).
  assert (Hch : ∀ p, p ∈ prerequisites c →
    (st p = "satisfied" → v p = true) ∧ (st p = "refuted" → v p = false)).
  { intros p Hp. assert (needs g (cond_id c) p) as Hn by (by exists c).
    apply IH; [by apply Hd|by eapply Hcl]. }
  case_decide as Hm; [by rewrite combine_effect|].
  pose proof (combine_decisive (cond_mode c) (status_of (get s (cond_id c))) (st <$> prerequisites c) Hm) as Hdec.
  case_decide as Ha; destruct Hdec as [-> ->]; rewrite Hv, Forall_fmap, Forall_forall, list_elem_of_fmap.
  - rewrite !(proj1 (forallb_elem _ _)), (proj2 (forallb_elem _ _)). cbn. naive_solver.
  - rewrite !(proj1 (existsb_elem _ _)), (proj2 (existsb_elem _ _)). cbn. naive_solver.
Qed.

(** The two extreme completions: unknown effects all hold, or all fail. *)
Lemma outcome_high : outcome g s (λ k, bool_decide (st k ≠ "refuted")).
Proof.
  intros c Hc. rewrite st_eq by done. case_decide as Hm.
  { rewrite combine_effect by done. by split; intros ->. }
  pose proof (combine_decisive (cond_mode c) (status_of (get s (cond_id c))) (st <$> prerequisites c) Hm) as Hdec.
  case_decide as Ha; destruct Hdec as [H1 H2]; apply eq_iff_eq_true; rewrite bool_decide_eq_true.
  - rewrite H1, (proj1 (forallb_elem _ _)), list_elem_of_fmap. setoid_rewrite bool_decide_eq_true.
    naive_solver.
  - rewrite H2, (proj1 (existsb_elem _ _)), Forall_fmap. setoid_rewrite bool_decide_eq_true.
    rewrite <- Exists_exists. split; [|by intros He Hall; apply Exists_not_Forall in He].
    intros Hn. by apply (not_Forall_Exists _ (dec := λ x, decide (st x = "refuted"))) in Hn.
Qed.

Lemma outcome_low : outcome g s (λ k, bool_decide (st k = "satisfied")).
Proof.
  intros c Hc. rewrite st_eq by done. case_decide as Hm.
  { rewrite combine_effect by done. by split; intros ->. }
  pose proof (combine_decisive (cond_mode c) (status_of (get s (cond_id c))) (st <$> prerequisites c) Hm) as Hdec.
  case_decide as Ha; destruct Hdec as [H1 H2]; apply eq_iff_eq_true; rewrite bool_decide_eq_true.
  - rewrite H2, (proj1 (forallb_elem _ _)), Forall_fmap, Forall_forall.
    by setoid_rewrite bool_decide_eq_true.
  - rewrite H1, (proj1 (existsb_elem _ _)), list_elem_of_fmap. setoid_rewrite bool_decide_eq_true.
    naive_solver.
Qed.
End exact.

Lemma goal_deep g k :
  goal_ok g → k ∈ cond_id <$> conditions g → deep (needs g) (S (length (conditions g))) k.
Proof.
  intros [_ [Hcl Hac]] Hk. rewrite <- (length_fmap cond_id).
  apply deep_enough; [done|by apply Hcl|done].
Qed.

(** What [_statuses] computes, stated of [status]. *)
Lemma status_equations g s :
  goal_ok g → ∃ st, (∀ k, k ∈ cond_id <$> conditions g → status g s k = Ok (st k)) ∧
    (∃ cache, _statuses (nodes g) s = Ok cache ∧
      ∀ k, cache !! k = if decide (k ∈ cond_id <$> conditions g) then Some (st k) else None) ∧
    ∀ c, c ∈ conditions g →
      st (cond_id c) = combine (cond_mode c) (status_of (get s (cond_id c))) (st <$> prerequisites c).
Proof.
  intros Hg. destruct (statuses_equations g s Hg) as (cache & Hc & Hdom & Heq).
  exists (answer_in cache). split_and!.
  - intros k Hk. unfold status, answer_in. rewrite Hc. cbn.
    apply Hdom in Hk as [a Ha]. by rewrite Ha.
  - exists cache. split; [done|]. intros k. unfold answer_in. case_decide as Hk.
    + apply Hdom in Hk as [a Ha]. by rewrite Ha.
    + rewrite <- Hdom in Hk. by apply eq_None_not_Some.
  - intros c Hin. unfold answer_in at 1. by rewrite (Heq c Hin).
Qed.

(** C21. The three-valued answers are exact.  For every condition of an accepted
    goal [status] answers; it answers "satisfied" exactly when the condition
    holds under every outcome of the effects that agrees with what was observed
    in this epoch, "refuted" exactly when it fails under every such outcome. *)
Theorem status_exact (g : Goal) (s : Snapshot) (c : Condition) :
  Goal_post_init g = Ok g → c ∈ conditions g →
  ∃ st, status g s (cond_id c) = Ok st ∧
    (st = "satisfied" ↔ ∀ v, outcome g s v → v (cond_id c) = true) ∧
    (st = "refuted" ↔ ∀ v, outcome g s v → v (cond_id c) = false).
Proof.
  intros Hg Hc. pose proof (Goal_post_init_cases g) as Hok. rewrite Hg in Hok.
  destruct Hok as [_ Hok]. destruct (status_equations g s Hok) as (st & Hst & _ & Heq).
  assert (Hk : cond_id c ∈ cond_id <$> conditions g) by set_solver.
  pose proof (λ v Hv, answers_sound g s st Heq v _ _ Hok Hv (goal_deep _ _ Hok Hk) Hk) as Hs.
  exists (st (cond_id c)). split_and!; [by apply Hst| |]; split.
  - intros Hsat v Hv. by apply (Hs v Hv).
  - intros Hall. specialize (Hall _ (outcome_low g s st Heq)). by rewrite bool_decide_eq_true in Hall.
  - intros Href v Hv. by apply (Hs v Hv).
  - intros Hall. specialize (Hall _ (outcome_high g s st Heq)). rewrite bool_decide_eq_false in Hall.
    destruct (decide (st (cond_id c) = "refuted")); [done|]. by destruct Hall.
Qed.

(** ** The frontier *)

Section frontier.
Context (g : Goal) (s : Snapshot).

(** The condition is not known to hold. *)
Definition open (k : string) : Prop := status g s k ≠ Ok "satisfied".
(** An effect that is open and whose prerequisites all hold. *)
Definition actionable (k : string) : Prop :=
  ∃ c, c ∈ conditions g ∧ cond_id c = k ∧ cond_mode c = "effect" ∧ open k ∧
    ∀ p, p ∈ prerequisites c → ¬ open p.
(** From an open condition to an open prerequisite of it. *)
Definition blocked_by (x y : string) : Prop := needs g x y ∧ open x ∧ open y.

(** What one call of [walk] adds. *)
Definition walks_to (keys : list string) (w w' : Walked) : Prop :=
  visited w ⊆ visited w' ∧
  (∀ k, k ∈ keys → open k → k ∈ visited w') ∧
  (∀ k, k ∈ visited w' → k ∈ visited w ∨
     ((∃ x, x ∈ keys ∧ open x ∧ rtc blocked_by x k) ∧ (∀ y, blocked_by k y → y ∈ visited w'))) ∧
  (∀ k, k ∈ found w' ↔ k ∈ found w ∨ (k ∈ visited w' ∧ (k ∉ visited w) ∧ actionable k)).

Lemma walks_none w : walks_to [] w w.
Proof. split_and!; [done|set_solver|by left|]. intros k. naive_solver. Qed.

Lemma walks_app k ks w w1 w2 :
  walks_to [k] w w1 → walks_to ks w1 w2 → walks_to (k :: ks) w w2.
Proof.
  intros (Hs1 & Ho1 & Hn1 & Hf1) (Hs2 & Ho2 & Hn2 & Hf2). split_and!.
  - set_solver.
  - intros x [->|Hx]%elem_of_cons Hop; [apply Hs2, Ho1; [left|done]|by apply Ho2].
  - intros x [Hx|[(y & Hy & Hop & Hyx) Hcl]]%Hn2.
    + destruct (Hn1 x Hx) as [|[(y & ->%list_elem_of_singleton & Hop & Hyx) Hcl]]; [by left|].
      right. split; [exists k; split_and!; [left|done..]|]. intros z Hz. by apply Hs2, Hcl.
    + right. split; [exists y; split_and!; [by right|done..]|done].
  - intros x. rewrite Hf2, Hf1. destruct (decide (x ∈ visited w1)); [|set_solver].
    assert (x ∈ visited w2) by set_solver. naive_solver.
Qed.

Context (cache : gmap string string) (Hok : goal_ok g) (st : string → string).
Context (Hst : ∀ k, k ∈ cond_id <$> conditions g → status g s k = Ok (st k)).
Context (Hcache : ∀ k, cache !! k = if decide (k ∈ cond_id <$> conditions g) then Some (st k) else None).

Lemma open_answer k : k ∈ cond_id <$> conditions g → open k ↔ st k ≠ "satisfied".
Proof. intros Hk. unfold open. rewrite Hst by done. split; intros H1 H2; apply H1; congruence. Qed.

Lemma cached k : k ∈ cond_id <$> conditions g → cache !! k = Some (st k).
Proof. intros Hk. rewrite Hcache. by rewrite decide_True. Qed.

(** The comprehension [missing]. *)
Lemma missing_eq ps acc :
  (∀ p, p ∈ ps → p ∈ cond_id <$> conditions g) →
  ∃ l, fold_result (λ acc child,
      match cache !! child with
      | None => Err (KeyError child)
      | Some st => mret (if bool_decide (st = "satisfied") then acc else acc ++ [child])
      end) acc ps = Ok (acc ++ l) ∧ ∀ p, p ∈ l ↔ p ∈ ps ∧ open p.
Proof.
  revert acc. induction ps as [|p ps IH]; intros acc Hps; cbn [fold_result].
  { exists []. rewrite app_nil_r. split; [done|]. set_solver. }
  assert (Hp : p ∈ cond_id <$> conditions g) by (apply Hps; left). rewrite (cached p Hp). cbn.
  pose proof (open_answer p Hp) as Ho. case_bool_decide as Hs.
  - destruct (IH acc) as (l & -> & Hl); [set_solver|]. exists l. split; [done|]. intros q.
    rewrite Hl, elem_of_cons. naive_solver.
  - destruct (IH (acc ++ [p])) as (l & -> & Hl); [set_solver|]. exists (p :: l).
    rewrite <- app_assoc. split; [done|]. intros q. rewrite !elem_of_cons, Hl. naive_solver.
Qed.

Lemma actionable_node c l :
  c ∈ conditions g → open (cond_id c) → (∀ p, p ∈ l ↔ p ∈ prerequisites c ∧ open p) →
  actionable (cond_id c) ↔ l = [] ∧ cond_mode c = "effect".
Proof.
  intros Hc Ho Hl. destruct (goal_ok_nodes g Hok) as (Hnd & _). split.
  - intros (c' & Hc' & Hid & Hm & _ & Hps).
    assert (c' = c) as -> by (by eapply (NoDup_fmap_elem cond_id)).
    split; [|done]. apply elem_of_nil_inv. intros p [Hp Hop]%Hl. by apply (Hps p).
  - intros [-> Hm]. exists c. split_and!; [done..|]. intros p Hp Hop.
    assert (p ∈ []) as []%not_elem_of_nil. by apply Hl.
Qed.

(** An open condition, after its open prerequisites. *)
Lemma walk_node c l w w' :
  c ∈ conditions g → cond_id c ∉ visited w → open (cond_id c) →
  (∀ p, p ∈ l ↔ p ∈ prerequisites c ∧ open p) →
  walks_to l (mkWalked ({[cond_id c]} ∪ visited w)
    (if bool_decide (l = []) && bool_decide (cond_mode c = "effect")
     then {[cond_id c]} ∪ found w else found w)) w' →
  walks_to [cond_id c] w w'.
Proof.
  intros Hc Hv Ho Hl (Hs & Hopen & Hnew & Hfound). cbn [visited found] in *.
  assert (Hkid : ∀ p, p ∈ l → blocked_by (cond_id c) p).
  { intros p [Hp Hop]%Hl. split_and!; [by exists c|done..]. }
  destruct (goal_ok_nodes g Hok) as (Hnd & _).
  assert (Hid : cond_id c ∈ visited w') by set_solver.
  split_and!.
  - set_solver.
  - by intros k ->%list_elem_of_singleton _.
  - intros k [[->%elem_of_singleton|Hk]%elem_of_union|[(x & Hx & Hox & Hxk) Hcl]]%Hnew; [|by left|].
    + right. split; [exists (cond_id c); by split_and!; [left|..]|].
      intros y ((c' & Hc' & Hid' & Hy) & _ & Hoy).
      assert (c' = c) as -> by (by eapply (NoDup_fmap_elem cond_id)). apply Hopen; [by apply Hl|done].
    + right. split; [|done]. exists (cond_id c). split_and!; [left|done|].
      eapply rtc_l; [by apply Hkid|done].
  - intros k. rewrite Hfound. pose proof (actionable_node c l Hc Ho Hl) as Hact.
    destruct (decide (k = cond_id c)) as [->|Hne].
    + rewrite Hact. repeat case_bool_decide; cbn; set_solver.
    + rewrite elem_of_union, elem_of_singleton.
      assert (k ∈ (if bool_decide (l = []) && bool_decide (cond_mode c = "effect")
                   then {[cond_id c]} ∪ found w else found w) ↔ k ∈ found w) as ->; [|naive_solver].
      clear -Hne. destruct (_ && _); [|done]. rewrite elem_of_union, elem_of_singleton. naive_solver.
Qed.

Lemma walk_total fuel w key :
  deep (needs g) fuel key → key ∈ cond_id <$> conditions g →
  ∃ w', walk (nodes g) cache fuel w key = Ok w' ∧ walks_to [key] w w'.
Proof.
  destruct (goal_ok_nodes g Hok) as (Hnd & _). destruct Hok as [_ [Hcl Hac]].
  revert w key. induction fuel as [|fuel IH]; intros w key Hd Hkey; [done|]. cbn [walk].
  case_bool_decide as Hv.
  { exists w. split; [done|]. split_and!; [done|set_solver|by left|]. intros k. naive_solver. }
  rewrite (cached key Hkey). pose proof (open_answer key Hkey) as Hopen.
  case_bool_decide as Hs.
  { exists w. split; [done|]. split_and!; [done|set_solver|by left|]. intros k. naive_solver. }
  apply list_elem_of_fmap in Hkey as (c & -> & Hc).
  rewrite (proj2 (nodes_get g (cond_id c) c Hnd)) by done.
  assert (Hps : ∀ p, p ∈ prerequisites c → p ∈ cond_id <$> conditions g ∧ needs g (cond_id c) p).
  { intros p Hp. assert (needs g (cond_id c) p) by (by exists c). split; [by eapply Hcl|done]. }
  destruct (missing_eq (prerequisites c) []) as (l & -> & Hl); [naive_solver|]. cbn -[walk].
  set (w1 := mkWalked _ _).
  assert (∃ w', fold_result (walk (nodes g) cache fuel) w1 l = Ok w' ∧ walks_to l w1 w')
    as (w' & -> & Hw').
  { assert (Hl' : ∀ p, p ∈ l → deep (needs g) fuel p ∧ p ∈ cond_id <$> conditions g).
    { intros p [Hp _]%Hl. split; [by apply Hd, Hps|by apply Hps]. }
    clear -IH Hl'. clearbody w1. revert w1. induction l as [|p l IHl]; intros w1; cbn [fold_result].
    { exists w1. split; [done|apply walks_none]. }
    destruct (IH w1 p) as (w2 & -> & Hw2); [by apply Hl'; left..|]. cbn -[walk].
    destruct (IHl ltac:(intros; apply Hl'; by right) w2) as (w3 & -> & Hw3).
    exists w3. split; [done|]. by eapply walks_app. }
  exists w'. split; [done|]. apply (walk_node c l); [done|done|by apply Hopen|done|done].
Qed.
End frontier.

Lemma sorted_set_elem X k : k ∈ sorted_set X ↔ k ∈ X.
Proof. unfold sorted_set. by rewrite merge_sort_Permutation, elem_of_elements. Qed.
Lemma sorted_set_NoDup X : NoDup (sorted_set X).
Proof. unfold sorted_set. rewrite merge_sort_Permutation. apply NoDup_elements. Qed.

(** An open condition leads to an actionable effect. *)
Lemma open_leads g s st n k :
  goal_ok g → Forall (λ c, Condition_post_init c = Ok c) (conditions g) →
  (∀ k, k ∈ cond_id <$> conditions g → status g s k = Ok (st k)) →
  (∀ c, c ∈ conditions g →
    st (cond_id c) = combine (cond_mode c) (status_of (get s (cond_id c))) (st <$> prerequisites c)) →
  deep (needs g) n k → k ∈ cond_id <$> conditions g → open g s k →
  ∃ e, actionable g s e ∧ rtc (blocked_by g s) k e.
Proof.
  intros Hok Hcs Hst Heq. destruct (Hok) as [_ [Hcl _]]. revert k.
  induction n as [|n IH]; intros k Hd Hk Ho; [done|].
  pose proof Hk as (c & -> & Hc)%list_elem_of_fmap.
  destruct (decide (Exists (λ p, st p ≠ "satisfied") (prerequisites c))) as [Hex|Hall].
  - apply Exists_exists in Hex as (p & Hp & Hne). assert (Hn : needs g (cond_id c) p) by (by exists c).
    assert (Hpk : p ∈ cond_id <$> conditions g) by (by eapply Hcl).
    assert (Hop : open g s p) by (by apply (open_answer g s st Hst)).
    destruct (IH p) as (e & He & Hpe); [by apply Hd|done..|].
    exists e. split; [done|]. by eapply rtc_l.
  - apply not_Exists_Forall in Hall; [|solve_decision].
    assert (Hsat : Forall (λ p, st p = "satisfied") (prerequisites c)).
    { eapply Forall_impl; [exact Hall|]. intros p Hp. by destruct (decide (st p = "satisfied")). }
    rewrite Forall_forall in Hsat. destruct (decide (cond_mode c = "effect")) as [Hm|Hm].
    + exists (cond_id c). split; [|done]. exists c. split_and!; [done..|]. intros p Hp.
      assert (needs g (cond_id c) p) by (by exists c).
      rewrite (open_answer g s st Hst) by (by eapply Hcl). intros Hne. apply Hne. by apply Hsat.
    + exfalso. apply (open_answer g s st Hst) in Ho; [|done]. apply Ho. rewrite Heq by done.
      rewrite Forall_forall in Hcs. specialize (Hcs c Hc). unfold Condition_post_init in Hcs. inv_Ok.
      pose proof (combine_decisive (cond_mode c) (status_of (get s (cond_id c))) (st <$> prerequisites c) Hm) as Hdec.
      case_decide; destruct Hdec as [Hd1 Hd2].
      * apply Hd2. by rewrite Forall_fmap, Forall_forall.
      * apply Hd1. destruct (prerequisites c) as [|p ps] eqn:Hps; [|].
        { exfalso. rewrite bool_decide_false in * by done. done. }
        apply list_elem_of_fmap. exists p. split; [|left]. symmetry. apply Hsat. left.
Qed.

Lemma frontier_run g s :
  goal_ok g → ∃ f, frontier g s = Ok f ∧ Sorted str_le f ∧ NoDup f ∧
    ∀ k, k ∈ f ↔ actionable g s k ∧ open g s (root g) ∧ rtc (blocked_by g s) (root g) k.
Proof.
  intros Hok. destruct (status_equations g s Hok) as (st & Hst & (cache & Hc & Hcache) & Heq).
  assert (Hroot : root g ∈ cond_id <$> conditions g) by apply Hok.
  unfold frontier. rewrite Hc. cbn -[walk].
  destruct (walk_total g s cache Hok st Hst Hcache (S (length (nodes g))) (mkWalked ∅ ∅) (root g))
    as (w & -> & Hs & Ho & Hn & Hf).
  { destruct (goal_ok_nodes g Hok) as [Hnd _]. rewrite (proj2 (nodes_NoDup g) Hnd). by apply goal_deep. }
  { done. }
  cbn in Hs, Ho, Hn, Hf |- *. exists (sorted_set (found w)).
  split_and!; [done|apply Sorted_merge_sort, _|apply sorted_set_NoDup|].
  intros k. rewrite sorted_set_elem, Hf. split.
  - intros [[]%not_elem_of_empty|(Hk & _ & Hact)]. split; [done|].
    destruct (Hn k Hk) as [[]%not_elem_of_empty|[(x & ->%list_elem_of_singleton & ? & ?) _]]. done.
  - intros (Hact & Hop & Hr). right. split_and!; [|set_solver|done].
    assert (Hv : root g ∈ visited w) by (apply Ho; [left|done]).
    assert (Hcl : ∀ x y, x ∈ visited w → blocked_by g s x y → y ∈ visited w).
    { intros x y Hx. destruct (Hn x Hx) as [[]%not_elem_of_empty|[_ Hcl]]. apply Hcl. }
    clear -Hr Hv Hcl. induction Hr as [|x y z Hxy _ IH]; [done|]. by eapply IH, Hcl.
Qed.

(** C22. For an accepted goal [frontier] answers, with a sorted list without
    repetition.  It names exactly the effects that are not known to hold, whose
    prerequisites all hold, and that block the root through conditions that do
    not hold; it is empty only when the root holds.  So a search with an open
    goal always has something to aim at. *)
Theorem frontier_exact (g : Goal) (s : Snapshot) :
  Goal_post_init g = Ok g → Forall (λ c, Condition_post_init c = Ok c) (conditions g) →
  ∃ f, frontier g s = Ok f ∧ Sorted str_le f ∧ NoDup f ∧
    (∀ k, k ∈ f ↔ actionable g s k ∧ open g s (root g) ∧ rtc (blocked_by g s) (root g) k) ∧
    (f = [] ↔ status g s (root g) = Ok "satisfied").
Proof.
  intros Hg Hcs. pose proof (Goal_post_init_cases g) as Hok. rewrite Hg in Hok.
  destruct Hok as [_ Hok]. destruct (frontier_run g s Hok) as (f & Hf & Hsorted & Hnd & Helem).
  destruct (status_equations g s Hok) as (st & Hst & _ & Heq).
  assert (Hroot : root g ∈ cond_id <$> conditions g) by apply Hok.
  exists f. split_and!; [done..|]. split.
  - intros Hnil. destruct (decide (status g s (root g) = Ok "satisfied")) as [|Hop]; [done|].
    destruct (open_leads g s st _ (root g) Hok Hcs Hst Heq (goal_deep g _ Hok Hroot) Hroot Hop)
      as (e & He & Hre).
    assert (e ∈ f) as Hin by (by apply Helem). rewrite Hnil in Hin. set_solver.
  - intros Hsat. apply elem_of_nil_inv. intros k (_ & Hop & _)%Helem. by apply Hop.
Qed.

(** ** Example: an interrupt that needs a booted core, or a polled flag *)

Module GoalExample.

Definition boot : Condition := mkCondition "boot" [] "effect".
Definition irq : Condition := mkCondition "irq" ["boot"] "effect".
Definition poll : Condition := mkCondition "poll" ["boot"] "effect".
Definition seen : Condition := mkCondition "seen" ["irq"; "poll"] "any".
Definition goal : Goal := mkGoal "wake" "seen" [seen; irq; poll; boot].
Definition booted : Snapshot :=
  mkSnapshot 3 {["boot" := mkObservation "satisfied" "one" ["trace:7"] 3 "";
                 "irq" := mkObservation "satisfied" "one" ["trace:2"] 2 ""]}.
Definition cyclic : Goal := mkGoal "loop" "a" [mkCondition "a" ["b"] "effect"; mkCondition "b" ["a"] "effect"].

Example goal_accepted : Goal_post_init goal = Ok goal.
Proof. vm_compute. reflexivity. Qed.
Example cyclic_refused : Goal_post_init cyclic = Err unresolved.
Proof. vm_compute. reflexivity. Qed.
(** The observation of [irq] is from an older epoch. *)
Example booted_frontier : frontier goal booted = Ok ["irq"; "poll"].
Proof. vm_compute. reflexivity. Qed.

Lemma status_exact_witness :
  Goal_post_init goal = Ok goal ∧ seen ∈ conditions goal ∧
  ∃ st, status goal booted (cond_id seen) = Ok st ∧
    (st = "satisfied" ↔ ∀ v, outcome goal booted v → v (cond_id seen) = true) ∧
    (st = "refuted" ↔ ∀ v, outcome goal booted v → v (cond_id seen) = false).
Proof.
  split; [vm_compute; reflexivity|]. split; [left|].
  apply (status_exact goal booted seen); [vm_compute; reflexivity|left].
Defined.

Lemma frontier_exact_witness :
  Goal_post_init goal = Ok goal ∧ Forall (λ c, Condition_post_init c = Ok c) (conditions goal) ∧
  ∃ f, frontier goal booted = Ok f ∧ Sorted str_le f ∧ NoDup f ∧
    (∀ k, k ∈ f ↔ actionable goal booted k ∧ open goal booted (root goal) ∧
                   rtc (blocked_by goal booted) (root goal) k) ∧
    (f = [] ↔ status goal booted (root goal) = Ok "satisfied").
Proof.
  split; [vm_compute; reflexivity|]. split.
  { repeat (apply Forall_cons_2; [vm_compute; reflexivity|]). apply Forall_nil_2. }
  apply (frontier_exact goal booted); [vm_compute; reflexivity|].
  repeat (apply Forall_cons_2; [vm_compute; reflexivity|]). apply Forall_nil_2.
Defined.

End GoalExample.
