(* ===== verification/Policy.v ===== *)
(** * The action catalog and the scheduling policy of a search

    Models [src/src/myfuzz/search/actions.py] (the declared actions, the key of
    a search context, decisions) and [src/src/myfuzz/search/policy.py] (which
    action is tried next, and how the reward of a trial is shared among the
    decisions that took part in it).  [random.Random] is outside the model: the
    128 bits [choose] draws are its argument.  A [fractions.Fraction] is a [Qc].
    The three places that use floats use IEEE doubles, computed with the
    Standard Library's [SpecFloat].  The [type(x) is ...] tests hold by typing;
    a Python [dict] passed by a caller is an association list. *)

From S2P Require Import Prelude Json Goal.
From Stdlib Require Import Floats.SpecFloat.
From Stdlib Require Import QArith Qcanon.

Local Open Scope Z_scope.

(** ** Doubles *)

(** [float(n)] and the true division [n / d] of two integers, [0 < d] *)
Definition int_float (n : Z) : spec_float := binary_normalize 53 1024 n 0 false.
Definition quot_float (n d : Z) : spec_float :=
  if n =? 0 then S754_zero false
  else let '(m, e, l) := SFdiv_core_binary 53 1024 (Z.abs n) 0 d 0 in
       binary_round_aux 53 1024 (n <? 0) m e l.
(** [float(q)] of a [Fraction] *)
Definition float_of (q : Qc) : spec_float := quot_float (Qnum (this q)) (Zpos (Qden (this q))).
(** [round(x)]: to the nearest integer, ties to even *)
Definition round_float (x : spec_float) : Z :=
  match x with
  | S754_finite s m e =>
      let v :=
        if 0 <=? e then Zpos m * 2 ^ e
        else
          let d := 2 ^ (- e) in
          let q := Zpos m `div` d in
          match 2 * (Zpos m `mod` d) ?= d with
          | Lt => q
          | Gt => q + 1
          | Eq => if Z.even q then q else q + 1
          end in
      if s then - v else v
  | _ => 0
  end.

(** [Fraction(n, d)] *)
Definition Fraction (n d : Z) : Qc := (Qc_of_Z n / Qc_of_Z d)%Qc.

(** ** Actions ([actions.py]) *)

Record Action := mkAction {
  action_id : string;
  source_id : string;
  operator : string;
  produces : list string;
  requires : list string;
  values : list Z;
  ownership : string }.

#[export] Instance Action_eq_dec : EqDecision Action.
Proof. solve_decision. Defined.

(** [Action.__post_init__] *)
Definition Action_post_init (a : Action) : result Action :=
  for_each identifier [action_id a; source_id a; operator a] ;;
  raise_if (negb (bool_decide (ownership a = "source")))
    (ValueError "only declared source actions may be proposed") ;;
  for_each (λ group,
    raise_if ((128 <? length group)%nat || negb (bool_decide (NoDup group)))
      (ValueError "bounded unique condition IDs required") ;;
    for_each identifier group) [produces a; requires a] ;;
  raise_if (bool_decide (produces a = [])) (ValueError "an intended effect must be declared") ;;
  raise_if (negb ((1 <=? length (values a))%nat && (length (values a) <=? 64)%nat)
            || existsb (λ v, negb ((0 <=? v) && (v <? 1 ≪ 32))) (values a)
            || negb (bool_decide (NoDup (values a))))
    (ValueError "finite unique uint32 parameter domain required") ;;
  mret a.

(** [Catalog], its field [actions] *)
Definition Catalog : Type := list Action.

(** [Catalog.__post_init__] *)
Definition Catalog_post_init (c : Catalog) : result Catalog :=
  raise_if (negb ((1 <=? length c)%nat && (length c <=? 64)%nat)
            || negb (bool_decide (NoDup (action_id <$> c))))
    (ValueError "1..64 distinct Action descriptions required") ;;
  mret c.

(** [Catalog.eligible] *)
Definition eligible (c : Catalog) (s : Snapshot) : list Action :=
  filter (λ a, Forall (λ key, status_of (get s key) = "satisfied") (requires a)) c.

Definition Action_asdict (a : Action) : json :=
  JObj [("id", JStr (action_id a)); ("source_id", JStr (source_id a));
        ("operator", JStr (operator a)); ("produces", JArr (JStr <$> produces a));
        ("requires", JArr (JStr <$> requires a)); ("values", JArr (JInt <$> values a));
        ("ownership", JStr (ownership a))].
(** [Catalog.identity] *)
Definition catalog_identity {hashlib : Hashlib} (c : Catalog) : string :=
  hexdigest (dumps (JArr (Action_asdict <$> c))).
(** [Catalog.get] *)
Definition catalog_get (c : Catalog) (key : string) : result Action :=
  match list_find (λ a, action_id a = key) c with
  | Some (_, a) => mret a
  | None => Err (ValueError "undeclared action")
  end.

(** [visit] of [context_key]: the conditions below [key] *)
Fixpoint relevant (ns : list (string * Condition)) (fuel : nat) (seen : gset string) (key : string)
    : result (gset string) :=
  match fuel with
  | O => Err out_of_fuel
  | S fuel =>
      if bool_decide (key ∈ seen) then mret seen
      else
        match od_get ns key with
        | None => Err (KeyError key)
        | Some c => fold_result (relevant ns fuel) ({[key]} ∪ seen) (prerequisites c)
        end
  end.

Definition sorted_strings (l : list string) : list string := merge_sort str_le l.

(** [context_key] *)
Definition context_key {hashlib : Hashlib} (g : Goal) (s : Snapshot)
    (frontier_ids available_ids : list string) : result string :=
  relevant ← relevant (nodes g) (S (length (nodes g))) ∅ (root g);
  mret (hexdigest (dumps (JObj [("goal", JStr (goal_identity g));
    ("frontier", JArr (JStr <$> sorted_strings frontier_ids));
    ("available", JArr (JStr <$> sorted_strings available_ids));
    ("observations", JArr ((λ key, JArr [JStr key; JStr (status_of (get s key));
       JStr (value_class (get s key))]) <$> sorted_set relevant))]))).

Record Decision := mkDecision {
  dec_sequence : Z;
  dec_goal_id : string;
  dec_context : string;
  dec_action_id : string;
  dec_value : Z;
  dec_reason : string;
  dec_entropy : Z }.

(** [Decision.__post_init__] *)
Definition Decision_post_init (d : Decision) : result Decision :=
  natural (dec_sequence d) ;;
  for_each identifier [dec_goal_id d; dec_context d; dec_action_id d; dec_reason d] ;;
  raise_if (negb ((0 <=? dec_value d) && (dec_value d <? 1 ≪ 32)))
    (ValueError "uint32 decision value required") ;;
  raise_if (negb ((0 <=? dec_entropy d) && (dec_entropy d <? 1 ≪ 128)))
    (ValueError "128-bit entropy required") ;;
  mret d.

(** [Decision.id] *)
Definition decision_id {hashlib : Hashlib} (d : Decision) : string :=
  hexdigest (dumps (JObj [("sequence", JInt (dec_sequence d)); ("goal_id", JStr (dec_goal_id d));
    ("context", JStr (dec_context d)); ("action_id", JStr (dec_action_id d));
    ("value", JInt (dec_value d)); ("reason", JStr (dec_reason d));
    ("entropy", JInt (dec_entropy d))])).

(** ** The state of [Policy] ([policy.py]) *)

(** A key of [_arms]: goal identity, bucket, action *)
Definition Arm : Type := (string * string * string)%type.
(** A semantic feature: its kind and its value *)
Definition Feature : Type := (string * string)%type.

(** A row of an arm's window *)
Record Row := mkRow { row_id : string; row_reward : Qc; row_cost : Z }.

(** The document [settle_group] returns for one participant, and the
    incremental record of [settle_relation_group] with [retained_trial]; their
    constant members are left out. *)
Record Answer := mkAnswer {
  answer_id : string;
  participants : list string;
  reward : option spec_float;
  reward_numerator : option Z;
  reward_denominator : option Z;
  cost_ns : Z;
  censored : bool;
  novel_features : list Feature }.
Record Credit := mkCredit { credit_answer : Answer; retained_trial : bool }.

(** [policy.seed] only seeds the generator. *)
Record Config := mkConfig {
  epsilon : spec_float;
  max_contexts : Z;
  max_decisions : Z;
  max_features : Z;
  policy_mode : string }.

Record Policy := mkPolicy {
  config : Config;
  contexts : gset string;
  arms : gmap Arm (list Row);
  pending : gmap string (Arm * string);
  settled : gmap string (string * Answer);
  seen : gset Feature;
  final_costs : gmap string Z;
  completed : gmap string (Arm * string);
  late_relations : gmap string (list Credit);
  sequence : Z;
  saturated : bool;
  features_saturated : bool;
  catalog_seen : option string;
  source_uses : gmap string Z;
  source_gains : gmap string Qc;
  source_hits : gmap string (gset string) }.

Definition set_contexts (v : gset string) (p : Policy) : Policy :=
  mkPolicy (config p) v (arms p) (pending p) (settled p) (seen p) (final_costs p) (completed p)
    (late_relations p) (sequence p) (saturated p) (features_saturated p) (catalog_seen p)
    (source_uses p) (source_gains p) (source_hits p).
Definition set_arms (v : gmap Arm (list Row)) (p : Policy) : Policy :=
  mkPolicy (config p) (contexts p) v (pending p) (settled p) (seen p) (final_costs p)
    (completed p) (late_relations p) (sequence p) (saturated p) (features_saturated p)
    (catalog_seen p) (source_uses p) (source_gains p) (source_hits p).
Definition set_pending (v : gmap string (Arm * string)) (p : Policy) : Policy :=
  mkPolicy (config p) (contexts p) (arms p) v (settled p) (seen p) (final_costs p) (completed p)
    (late_relations p) (sequence p) (saturated p) (features_saturated p) (catalog_seen p)
    (source_uses p) (source_gains p) (source_hits p).
Definition set_settled (v : gmap string (string * Answer)) (p : Policy) : Policy :=
  mkPolicy (config p) (contexts p) (arms p) (pending p) v (seen p) (final_costs p) (completed p)
    (late_relations p) (sequence p) (saturated p) (features_saturated p) (catalog_seen p)
    (source_uses p) (source_gains p) (source_hits p).
Definition set_seen (v : gset Feature) (p : Policy) : Policy :=
  mkPolicy (config p) (contexts p) (arms p) (pending p) (settled p) v (final_costs p)
    (completed p) (late_relations p) (sequence p) (saturated p) (features_saturated p)
    (catalog_seen p) (source_uses p) (source_gains p) (source_hits p).
Definition set_final_costs (v : gmap string Z) (p : Policy) : Policy :=
  mkPolicy (config p) (contexts p) (arms p) (pending p) (settled p) (seen p) v (completed p)
    (late_relations p) (sequence p) (saturated p) (features_saturated p) (catalog_seen p)
    (source_uses p) (source_gains p) (source_hits p).
Definition set_completed (v : gmap string (Arm * string)) (p : Policy) : Policy :=
  mkPolicy (config p) (contexts p) (arms p) (pending p) (settled p) (seen p) (final_costs p) v
    (late_relations p) (sequence p) (saturated p) (features_saturated p) (catalog_seen p)
    (source_uses p) (source_gains p) (source_hits p).
Definition set_late_relations (v : gmap string (list Credit)) (p : Policy) : Policy :=
  mkPolicy (config p) (contexts p) (arms p) (pending p) (settled p) (seen p) (final_costs p)
    (completed p) v (sequence p) (saturated p) (features_saturated p) (catalog_seen p)
    (source_uses p) (source_gains p) (source_hits p).
Definition set_sequence (v : Z) (p : Policy) : Policy :=
  mkPolicy (config p) (contexts p) (arms p) (pending p) (settled p) (seen p) (final_costs p)
    (completed p) (late_relations p) v (saturated p) (features_saturated p) (catalog_seen p)
    (source_uses p) (source_gains p) (source_hits p).
Definition set_saturated (v : bool) (p : Policy) : Policy :=
  mkPolicy (config p) (contexts p) (arms p) (pending p) (settled p) (seen p) (final_costs p)
    (completed p) (late_relations p) (sequence p) v (features_saturated p) (catalog_seen p)
    (source_uses p) (source_gains p) (source_hits p).
Definition set_features_saturated (v : bool) (p : Policy) : Policy :=
  mkPolicy (config p) (contexts p) (arms p) (pending p) (settled p) (seen p) (final_costs p)
    (completed p) (late_relations p) (sequence p) (saturated p) v (catalog_seen p)
    (source_uses p) (source_gains p) (source_hits p).
Definition set_catalog_seen (v : option string) (p : Policy) : Policy :=
  mkPolicy (config p) (contexts p) (arms p) (pending p) (settled p) (seen p) (final_costs p)
    (completed p) (late_relations p) (sequence p) (saturated p) (features_saturated p) v
    (source_uses p) (source_gains p) (source_hits p).
Definition set_source_uses (v : gmap string Z) (p : Policy) : Policy :=
  mkPolicy (config p) (contexts p) (arms p) (pending p) (settled p) (seen p) (final_costs p)
    (completed p) (late_relations p) (sequence p) (saturated p) (features_saturated p)
    (catalog_seen p) v (source_gains p) (source_hits p).
Definition set_source_gains (v : gmap string Qc) (p : Policy) : Policy :=
  mkPolicy (config p) (contexts p) (arms p) (pending p) (settled p) (seen p) (final_costs p)
    (completed p) (late_relations p) (sequence p) (saturated p) (features_saturated p)
    (catalog_seen p) (source_uses p) v (source_hits p).
Definition set_source_hits (v : gmap string (gset string)) (p : Policy) : Policy :=
  mkPolicy (config p) (contexts p) (arms p) (pending p) (settled p) (seen p) (final_costs p)
    (completed p) (late_relations p) (sequence p) (saturated p) (features_saturated p)
    (catalog_seen p) (source_uses p) (source_gains p) v.

(** [Policy.__init__] *)
Definition new_policy (c : Config) : result Policy :=
  raise_if (negb (SFleb (int_float 0) (epsilon c) && SFleb (epsilon c) (int_float 1))
            || negb ((1 <=? max_contexts c) && (max_contexts c <=? 4096))
            || negb ((1 <=? max_decisions c) && (max_decisions c <=? 65536))
            || negb ((1 <=? max_features c) && (max_features c <=? 65536))
            || negb (bool_decide (policy_mode c ∈ ["state"; "uniform"; "legacy"])))
    (ValueError "invalid bounded policy configuration") ;;
  mret (mkPolicy c ∅ ∅ ∅ ∅ ∅ ∅ ∅ ∅ 0 false false None ∅ ∅ ∅).

(** ** Choosing an action *)

(** [l[i]] of an index that is not negative *)
Definition item {A} (l : list A) (i : Z) : result A :=
  match l !! Z.to_nat i with Some a => mret a | None => Err (IndexError "tuple index out of range") end.

Definition action_le (a b : Action) : Prop := str_le (action_id a) (action_id b).
#[export] Instance action_le_dec : RelDecision action_le.
Proof. intros a b. unfold action_le. apply _. Defined.
(** [sorted(..., key=lambda a: a.id)] *)
Definition by_id : list Action → list Action := merge_sort action_le.

Definition low_bits (entropy : Z) : Z := entropy &&& (1 ≪ 64 - 1).
Definition high_bits (entropy : Z) : Z := entropy ≫ 64.

(** [rate]: exact reward per cost over the arm's window.  [arm] is present
    when it is called, as no action of the pool is untried. *)
Definition rate (arms : gmap Arm (list Row)) (arm : Arm) : Qc :=
  let rows := default [] (arms !! arm) in
  (foldr Qcplus 0 (row_reward <$> rows) / Qc_of_Z (Z.max 1 (foldr Z.add 0%Z (row_cost <$> rows))))%Qc.

(** Whether the key [k'] is greater than [k], as Python orders pairs *)
Definition key_greater (k' k : Qc * Z) : bool :=
  match (k'.1 ?= k.1)%Qc with Gt => true | Eq => k.2 <? k'.2 | Lt => false end.

(** [max(best :: l, key=key)]: the first of the greatest *)
Definition max_by {A} (key : A → Qc * Z) (best : A) (l : list A) : A :=
  foldl (λ best a, if key_greater (key a) (key best) then a else best) best l.

(** [pool.index(a)] *)
Definition index_of {A} `{EqDecision A} (l : list A) (a : A) : Z :=
  match list_find (λ b, b = a) l with Some (i, _) => Z.of_nat i | None => Z.of_nat (length l) end.

(** The weight of one source in [legacy] mode *)
Definition legacy_weight (p : Policy) (c : Catalog) (source : string) : Z :=
  let uses := default 0 (source_uses p !! source) in
  let gains := default (Qc_of_Z 0) (source_gains p !! source) in
  let targets := concat (produces <$> filter (λ a, source_id a = source) c) in
  let hits := default ∅ (source_hits p !! source) in
  let gap := existsb (λ t, bool_decide (t ∉ hits)) targets in
  Z.max 1 (Z.min 65536 (round_float
    (SFadd 53 1024
       (SFadd 53 1024 (int_float (8 + (if gap then 64 else 0))) (quot_float 32 (uses + 1)))
       (float_of (Qc_of_Z 16 * gains / Qc_of_Z (uses + 1))%Qc)))).

(** [for source in sources: if draw < weights[source]: break; draw -= ...]:
    the source the loop stops at, the last if it does not break *)
Fixpoint draw_source (weights : list (string * Z)) (draw : Z) (last : string) : string :=
  match weights with
  | [] => last
  | (source, w) :: weights => if draw <? w then source else draw_source weights (draw - w) source
  end.

(** [sorted({a.source_id for a in eligible})] *)
Definition source_ids (l : list Action) : list string := sorted_set (list_to_set (source_id <$> l)).

Definition choose_legacy (p : Policy) (c : Catalog) (eligible : list Action) (entropy : Z) : result Action :=
  let weights := (λ source, (source, legacy_weight p c source)) <$> source_ids eligible in
  let draw := low_bits entropy `mod` foldr Z.add 0 weights.*2 in
  let source := draw_source weights draw "" in
  let choices := filter (λ a, source_id a = source) eligible in
  item choices (high_bits entropy `mod` Z.of_nat (length choices)).

(** The last branch of [choose]: the first untried action, else the best rate *)
Definition choose_state (p : Policy) (goal bucket : string) (pool : list Action) : result Action :=
  match filter (λ a, arms p !! (goal, bucket, action_id a) = None) pool with
  | a :: _ => mret a
  | [] =>
      match pool with
      | [] => Err (ValueError "max() iterable argument is empty")
      | a :: rest => mret (max_by (λ a, (rate (arms p) (goal, bucket, action_id a), - index_of pool a)) a rest)
      end
  end.

(** The branches of [choose] *)
Definition select (p : Policy) (c : Catalog) (goal bucket : string) (eligible : list Action)
    (front : list string) (entropy : Z) : result (Action * string) :=
  let focused := filter (λ a, Exists (λ effect, effect ∈ front) (produces a)) eligible in
  let pool := match focused with [] => eligible | _ => focused end in
  if bool_decide (policy_mode (config p) = "uniform") then
    a ← item eligible (high_bits entropy `mod` Z.of_nat (length eligible)); mret (a, "uniform")
  else if bool_decide (policy_mode (config p) = "legacy") then
    a ← choose_legacy p c eligible entropy; mret (a, "legacy-weight-adaptation")
  else if SFltb (quot_float (low_bits entropy) (1 ≪ 64)) (epsilon (config p)) then
    a ← item eligible (high_bits entropy `mod` Z.of_nat (length eligible)); mret (a, "explore")
  else
    a ← choose_state p goal bucket pool;
    mret (a, match focused with [] => "fallback" | _ => "frontier" end).

(** The bucket of a context: itself while there is room for it *)
Definition enter_context (context : string) : M Policy string := λ p,
  if bool_decide (context ∈ contexts p) then (Ok context, p)
  else if max_contexts (config p) <=? Z.of_nat (size (contexts p)) then (Ok "overflow", set_saturated true p)
  else (Ok context, set_contexts ({[context]} ∪ contexts p) p).

(** The assignments at the end of [choose] *)
Definition issue (id : string) (arm : Arm) (source catalog : string) (p : Policy) : Policy :=
  set_sequence (sequence p + 1)
    (set_catalog_seen (Some catalog)
      (set_source_uses (<[source := default 0 (source_uses p !! source) + 1]> (source_uses p))
        (set_arms (match arms p !! arm with Some _ => arms p | None => <[arm := []]> (arms p) end)
          (set_pending (<[id := (arm, source)]> (pending p)) p)))).

(** [Policy.choose] *)
Definition choose {hashlib : Hashlib} (g : Goal) (s : Snapshot) (c : Catalog) (entropy : Z)
    : M Policy Decision :=
  p ← gets id;
  check ((max_decisions (config p) <=? sequence p) || (128 <=? size (pending p))%nat)
    (ValueError "decision or outstanding action capacity exhausted") ;;
  check (match catalog_seen p with Some i => negb (bool_decide (i = catalog_identity c)) | None => false end)
    (ValueError "action catalog drift") ;;
  let eligible := by_id (eligible c s) in
  check (bool_decide (eligible = []))
    (ValueError "no eligible action; state remains unknown or unavailable") ;;
  front ← reads (λ _, frontier g s);
  context ← reads (λ _, context_key g s front (action_id <$> eligible));
  bucket ← enter_context context;
  '(selected, reason) ← reads (λ p, select p c (goal_identity g) bucket eligible front entropy);
  value ← reads (λ _, item (values selected) ((entropy ≫ 32) `mod` Z.of_nat (length (values selected))));
  decision ← reads (λ p, Decision_post_init
    (mkDecision (sequence p) (goal_id g) context (action_id selected) value reason entropy));
  modify (issue (decision_id decision) (goal_identity g, bucket, action_id selected)
            (source_id selected) (catalog_identity c)) ;;
  mret decision.

(** ** Settling *)

Definition KINDS : list string := ["relation"; "frontier"; "coverage"].
(** [set(d) == set(keys)] of a [dict] *)
Definition same_keys {V} (d : list (string * V)) (keys : list string) : bool :=
  bool_decide (list_to_set (od_keys d) = (list_to_set keys : gset string)).
(** [any(key in self._final_costs and costs_ns[key] != self._final_costs[key] ...)] *)
Definition final_cost_conflict (p : Policy) (costs : list (string * Z)) (ids : list string) : bool :=
  existsb (λ key, match final_costs p !! key with
    | Some c => negb (bool_decide (od_get costs key = Some c))
    | None => false
    end) ids.

(** One turn of the loop that builds [normalized] *)
Definition normalize (kv : string * list string) : result (string * list string) :=
  raise_if ((128 <? length kv.2)%nat
            || existsb (λ v, bool_decide (v = EmptyString) || (1024 <? chars v)) kv.2
            || negb (bool_decide (NoDup kv.2)))
    (ValueError "bounded unique semantic features required") ;;
  mret (kv.1, sorted_strings kv.2).

Definition features_json (f : list (string * list string)) : json :=
  JObj ((λ kv, (kv.1, JArr (JStr <$> kv.2))) <$> f).
Definition costs_json (c : list (string * Z)) : json := JObj ((λ kv, (kv.1, JInt kv.2)) <$> c).

(** [[(kind, value) for kind, values in sorted(normalized.items()) for value in
    values if (kind, value) not in self._seen]] *)
Definition novel (seen : gset Feature) (normalized : list (string * list string)) : list Feature :=
  filter (λ item, item ∉ seen)
    (concat ((λ kv : string * list string, (λ value, (kv.1, value) : Feature) <$> kv.2)
             <$> merge_sort key_le normalized)).

(** What the loop over [novel] has seen, accepted and scored *)
Record Consumed := mkConsumed {
  now_seen : gset Feature;
  hit_limit : bool;
  accepted : list Feature;
  score : Z }.

Definition consume_item (limit : Z) (c : Consumed) (item : Feature) : Consumed :=
  if limit <=? Z.of_nat (size (now_seen c)) then mkConsumed (now_seen c) true (accepted c) (score c)
  else mkConsumed ({[item]} ∪ now_seen c) (hit_limit c) (accepted c ++ [item])
         (score c + (if bool_decide (item.1 = "relation") then 2 else 1)).

(** The reward of the group and the features it consumed *)
Definition consume (cens : bool) (items : list Feature) : M Policy (list Feature * Z) := λ p,
  if cens then (Ok ([], 0), p)
  else
    let c := foldl (consume_item (max_features (config p)))
               (mkConsumed (seen p) (features_saturated p) [] 0) items in
    (Ok (accepted c, Z.min 4 (score c)), set_seen (now_seen c) (set_features_saturated (hit_limit c) p)).

(** [deque(maxlen=128).append] *)
Definition WINDOW : nat := 128.
Definition append_row (rows : list Row) (r : Row) : list Row :=
  (if (WINDOW <=? length rows)%nat then drop 1 rows else rows) ++ [r].

Definition lookup_arm (arm : Arm) : M Policy (list Row) :=
  reads (λ p, match arms p !! arm with Some rows => mret rows | None => Err (KeyError arm.2) end).
Definition add_gain (source : string) (q : Qc) (p : Policy) : Policy :=
  set_source_gains
    (<[source := (default (Qc_of_Z 0) (source_gains p !! source) + q)%Qc]> (source_gains p)) p.
Definition add_hits (source : string) (effects : list string) (p : Policy) : Policy :=
  set_source_hits
    (<[source := list_to_set effects ∪ default ∅ (source_hits p !! source)]> (source_hits p)) p.

(** One turn of the loop over the participants *)
Definition settle_one (fingerprint : string) (ids : list string) (costs : list (string * Z))
    (cens : bool) (accepted : list Feature) (share : Qc) (id : string) : M Policy Answer :=
  '(arm, source) ← reads (λ p, match pending p !! id with Some a => mret a | None => Err (KeyError id) end);
  modify (λ p, set_pending (delete id (pending p)) p) ;;
  modify (λ p, set_completed (<[id := (arm, source)]> (completed p)) p) ;;
  cost ← reads (λ _, match od_get costs id with Some c => mret c | None => Err (KeyError id) end);
  (if cens then mret ()
   else
     rows ← lookup_arm arm;
     modify (λ p, set_arms (<[arm := append_row rows (mkRow id share cost)]> (arms p)) p) ;;
     modify (add_gain source (Fraction (Z.of_nat (length accepted)) (Z.of_nat (length ids)))) ;;
     modify (add_hits source (snd <$> filter (λ f, f.1 = "frontier") accepted))) ;;
  let known {A} (x : A) := if cens then None else Some x in
  let answer := mkAnswer id ids (known (float_of share)) (known (Qnum (this share)))
                  (known (Zpos (Qden (this share)))) cost cens accepted in
  modify (λ p, set_settled (<[id := (fingerprint, answer)]> (settled p)) p) ;;
  mret answer.

(** The guards of [settle_group] that need no state *)
Definition settlement_valid (ids : list string) (features : list (string * list string))
    (costs : list (string * Z)) : bool :=
  forallb (λ kv, bool_decide (kv.1 ∈ KINDS)) features
  && (1 <=? length ids)%nat && (length ids <=? 128)%nat && bool_decide (NoDup ids)
  && same_keys costs ids && forallb (λ kv, 0 <? kv.2) costs.

(** [Policy.settle_group] *)
Definition settle_group {hashlib : Hashlib} (ids : list string) (features : list (string * list string))
    (costs : list (string * Z)) (cens : bool) : M Policy (list Answer) :=
  p ← gets id;
  check (negb (settlement_valid ids features costs)) (ValueError "invalid settlement") ;;
  check (final_cost_conflict p costs ids) (ValueError "settlement conflicts with final cost") ;;
  let ids := sorted_strings ids in
  normalized ← reads (λ _, map_result normalize features);
  let fingerprint := hexdigest (dumps (JArr [JArr (JStr <$> ids); features_json normalized;
                                             costs_json costs; JBool cens])) in
  if existsb (λ key, bool_decide (is_Some (settled p !! key))) ids then
    check (existsb (λ key, negb (bool_decide (fst <$> settled p !! key = Some fingerprint))) ids)
      (ValueError "conflicting settlement for existing decision") ;;
    mret (omap (λ key, snd <$> settled p !! key) ids)
  else
    check (existsb (λ key, bool_decide (pending p !! key = None)) ids)
      (ValueError "unknown or expired decision") ;;
    '(accepted, reward) ← consume cens (novel (seen p) normalized);
    map_M (settle_one fingerprint ids costs cens accepted (Fraction reward (Z.of_nat (length ids)))) ids.

(** [Policy.settle] *)
Definition settle {hashlib : Hashlib} (id : string) (features : list (string * list string)) (cost : Z)
    (cens : bool) : M Policy Answer :=
  answers ← settle_group [id] features [(id, cost)] cens;
  reads (λ _, item answers 0).

(** ** Incremental credit for a relation *)

(** What [settle_relation_group] returns: the answers of a plain settlement,
    credit records, or [None] *)
Inductive Outcome : Type :=
  | Settlement (answers : list Answer)
  | Credits (records : list Credit)
  | NotRetained.

(** Assignment to the first row of a decision; [None] when there is none *)
Fixpoint update_row (id : string) (f : Row → Row) (rows : list Row) : option (list Row) :=
  match rows with
  | [] => None
  | r :: rows =>
      if bool_decide (row_id r = id) then Some (f r :: rows) else cons r <$> update_row id f rows
  end.

(** The loop that builds [retained]; [None] is [return None] *)
Fixpoint retain (p : Policy) (costs : list (string * Z)) (consumer : string) (ids : list string)
    : result (option (list (string * (Arm * string)))) :=
  match ids with
  | [] => mret (Some [])
  | key :: ids =>
      if bool_decide (key = consumer) then retain p costs consumer ids
      else
        match settled p !! key with
        | None => mret None
        | Some (_, previous) =>
            if censored previous then mret None
            else
              '(arm, source) ← match completed p !! key with Some a => mret a | None => Err (KeyError key) end;
              rows ← match arms p !! arm with Some r => mret r | None => Err (KeyError arm.2) end;
              match list_find (λ r, row_id r = key) rows with
              | None => mret None
              | Some (i, r) =>
                  raise_if (negb (bool_decide (od_get costs key = Some (row_cost r))))
                    (ValueError "incremental credit conflicts with retained cost") ;;
                  '(consumer_arm, _) ←
                    match pending p !! consumer with Some a => mret a | None => Err (KeyError consumer) end;
                  if bool_decide (arm = consumer_arm) && (length rows =? WINDOW)%nat && (i =? 0)%nat
                  then mret None
                  else
                    rest ← retain p costs consumer ids;
                    mret (cons (key, (arm, source)) <$> rest)
              end
        end
  end.

Definition add_reward (share : Qc) (r : Row) : Row := mkRow (row_id r) (row_reward r + share)%Qc (row_cost r).
Definition set_reward (share : Qc) (r : Row) : Row := mkRow (row_id r) share (row_cost r).

(** One turn of the loop that credits the participants *)
Definition credit_one (answer : Answer) (ids : list string) (costs : list (string * Z)) (consumer : string)
    (retained : list (string * (Arm * string))) (share : Qc) (key : string) : M Policy Credit :=
  match od_get retained key with
  | None => mret ()
  | Some (arm, source) =>
      rows ← lookup_arm arm;
      rows ← reads (λ _, match update_row key (add_reward share) rows with
        | Some rows => mret rows
        | None => Err (OtherError "StopIteration")
        end);
      modify (λ p, set_arms (<[arm := rows]> (arms p)) p) ;;
      modify (add_gain source
        (Fraction (Z.of_nat (length (novel_features answer))) (Z.of_nat (length ids))))
  end ;;
  cost ← reads (λ _, match od_get costs key with Some c => mret c | None => Err (KeyError key) end);
  mret (mkCredit (mkAnswer key ids (Some (float_of share)) (Some (Qnum (this share)))
                    (Some (Zpos (Qden (this share)))) cost (censored answer) (novel_features answer))
          (negb (bool_decide (key = consumer)))).

(** [settle_relation_group], after the consumer is settled *)
Definition redistribute (fingerprint : string) (ids : list string) (costs : list (string * Z))
    (consumer : string) (retained : list (string * (Arm * string))) (answer : Answer)
    : M Policy (list Credit) :=
  total ← reads (λ _, match reward_numerator answer, reward_denominator answer with
    | Some n, Some d => mret (Fraction n d)
    | _, _ => Err (OtherError "TypeError")
    end);
  let n := Z.of_nat (length ids) in
  let share := (total / Qc_of_Z n)%Qc in
  let accepted_count := Z.of_nat (length (novel_features answer)) in
  '(arm, source) ← reads (λ p, match completed p !! consumer with
    | Some a => mret a | None => Err (KeyError consumer) end);
  rows ← lookup_arm arm;
  modify (λ p, set_arms (<[arm := default rows (update_row consumer (set_reward share) rows)]> (arms p)) p) ;;
  check_gain ← reads (λ p, match source_gains p !! source with
    | Some q => mret q | None => Err (KeyError source) end);
  modify (add_gain source (- Fraction (accepted_count * (n - 1)) n)%Qc) ;;
  records ← map_M (credit_one answer ids costs consumer retained share) ids;
  '(old_fingerprint, _) ← reads (λ p, match settled p !! consumer with
    | Some a => mret a | None => Err (KeyError consumer) end);
  modify (λ p, set_settled (<[consumer := (old_fingerprint,
    mkAnswer (answer_id answer) (participants answer) (Some (float_of share)) (Some (Qnum (this share)))
      (Some (Zpos (Qden (this share)))) (cost_ns answer) (censored answer) (novel_features answer))]>
    (settled p)) p) ;;
  modify (λ p, set_late_relations (<[fingerprint := records]> (late_relations p)) p) ;;
  mret records.

(** The guards of [settle_relation_group] that need no state *)
Definition relation_valid (ids : list string) (features : list (string * list string))
    (costs : list (string * Z)) : bool :=
  (2 <=? length ids)%nat && (length ids <=? 128)%nat && bool_decide (NoDup ids)
  && same_keys features ["relation"] && same_keys costs ids && forallb (λ kv, 0 <? kv.2) costs.

(** [Policy.settle_relation_group] *)
Definition settle_relation_group {hashlib : Hashlib} (ids : list string)
    (features : list (string * list string)) (costs : list (string * Z)) : M Policy Outcome :=
  p ← gets id;
  check (negb (relation_valid ids features costs)) (ValueError "invalid incremental relation settlement") ;;
  let ids := sorted_strings ids in
  check (final_cost_conflict p costs ids) (ValueError "incremental settlement conflicts with final cost") ;;
  let fingerprint := hexdigest (dumps (JArr [JArr (JStr <$> ids); features_json features;
                                             costs_json costs])) in
  match late_relations p !! fingerprint with
  | Some records => mret (Credits records)
  | None =>
      let waiting := filter (λ key, is_Some (pending p !! key)) ids in
      if (length waiting =? length ids)%nat then answers ← settle_group ids features costs false; mret (Settlement answers)
      else
        match waiting with
        | [consumer] =>
            retained ← reads (λ p, retain p costs consumer ids);
            match retained with
            | None => mret NotRetained
            | Some retained =>
                cost ← reads (λ _, match od_get costs consumer with
                  | Some c => mret c | None => Err (KeyError consumer) end);
                answers ← settle_group [consumer] features [(consumer, cost)] false;
                answer ← reads (λ _, item answers 0);
                records ← redistribute fingerprint ids costs consumer retained answer;
                mret (Credits records)
            end
        | _ => mret NotRetained
        end
  end.

Definition set_cost (id : string) (cost : Z) (rows : list Row) : list Row :=
  (λ r, if bool_decide (row_id r = id) then mkRow (row_id r) (row_reward r) cost else r) <$> rows.

(** [Policy.finalize_cost] *)
Definition finalize_cost (id : string) (cost : Z) : M Policy () :=
  p ← gets (λ p, p);
  check ((cost <=? 0) || bool_decide (is_Some (final_costs p !! id))
         || bool_decide (pending p !! id = None) && bool_decide (settled p !! id = None))
    (ValueError "invalid or repeated final cost") ;;
  match settled p !! id with
  | None => mret ()
  | Some (fingerprint, answer) =>
      check (cost <? cost_ns answer) (ValueError "final cost precedes execution cost") ;;
      modify (λ p, set_settled (<[id := (fingerprint,
        mkAnswer (answer_id answer) (participants answer) (reward answer) (reward_numerator answer)
          (reward_denominator answer) cost (censored answer) (novel_features answer))]> (settled p)) p) ;;
      modify (λ p, set_arms (set_cost id cost <$> arms p) p)
  end ;;
  modify (λ p, set_final_costs (<[id := cost]> (final_costs p)) p).

(** [Policy.statistics] *)
Definition statistics (p : Policy) : json :=
  JObj [("mode", JStr (policy_mode (config p))); ("contexts", JInt (Z.of_nat (size (contexts p))));
    ("context_saturated", JBool (saturated p)); ("features", JInt (Z.of_nat (size (seen p))));
    ("features_saturated", JBool (features_saturated p)); ("decisions", JInt (sequence p));
    ("pending", JInt (Z.of_nat (size (pending p))));
    ("settled_trials", JInt (foldr Z.add 0 ((λ kv, Z.of_nat (length kv.2)) <$> map_to_list (arms p))));
    ("arms", JInt (Z.of_nat (size (arms p)))); ("native_authority", JBool false)].
