(* ===== verification/PolicySpec.v ===== *)
(** * What the search policy guarantees

    For every policy reached from a new one by choices, settlements, late
    credit and final costs: [policy_stays_bounded] (the bounds of the
    configuration hold), [gains_are_features] (the gains of the sources add up to
    the features seen: a feature is rewarded once, and sharing loses and invents
    nothing) and [settlement_is_atomic] (a settlement that raises, or is
    declined, changes nothing).  [settlement_shares_reward]: what a settlement
    does; [settlement_replays]: settling again returns the same answers. *)

From S2P Require Import Prelude Json Goal GoalSpec Policy.
From Stdlib Require Import Floats.SpecFloat.
From Stdlib Require Import QArith Qcanon.

Local Open Scope Z_scope.

(** ** Sums over a dictionary *)

Section map_sum.
Context {K A : Type} `{Countable K} (f : A → Qc).

Definition qsum (l : list Qc) : Qc := foldr Qcplus 0%Qc l.
Definition map_sum (m : gmap K A) : Qc := qsum ((λ kv, f kv.2) <$> map_to_list m).

Lemma qsum_cons x l : qsum (x :: l) = (x + qsum l)%Qc.
Proof. done. Qed.

Lemma qsum_perm l l' : l ≡ₚ l' → qsum l = qsum l'.
Proof.
  induction 1 as [|x l l' _ IH|x y l|l1 l2 l3 _ IH1 _ IH2]; rewrite ?qsum_cons; [done| | |congruence].
  - by rewrite IH.
  - ring.
Qed.

Lemma qsum_app l l' : qsum (l ++ l') = (qsum l + qsum l')%Qc.
Proof.
  induction l as [|x l IH].
  - change (qsum l' = 0 + qsum l')%Qc. ring.
  - change ((x :: l) ++ l') with (x :: (l ++ l')). rewrite !qsum_cons, IH. ring.
Qed.

Lemma map_sum_fresh m k v : m !! k = None → map_sum (<[k := v]> m) = (f v + map_sum m)%Qc.
Proof.
  intros Hk. unfold map_sum.
  rewrite (qsum_perm _ ((λ kv : K * A, f kv.2) <$> (k, v) :: map_to_list m)); [done|].
  apply fmap_Permutation. by apply map_to_list_insert.
Qed.

Lemma map_sum_insert m k v w :
  m !! k = Some v → map_sum (<[k := w]> m) = (map_sum m - f v + f w)%Qc.
Proof.
  intros Hk. rewrite <- (insert_delete_id m k v Hk) at 2.
  rewrite <- insert_delete_eq, !map_sum_fresh by apply lookup_delete_eq. ring.
Qed.

Lemma map_sum_same m k w (v : A) (d : A) :
  f d = 0%Qc → v = default d (m !! k) → map_sum (<[k := w]> m) = (map_sum m - f v + f w)%Qc.
Proof.
  intros Hd ->. destruct (m !! k) as [v|] eqn:Hk; cbn; [by apply map_sum_insert|].
  rewrite map_sum_fresh, Hd by done. ring.
Qed.
End map_sum.

(** ** The effect of one settlement *)

(** The document of one participant *)
Definition answer_for (ids : list string) (cens : bool) (accepted : list Feature) (share : Qc)
    (id : string) (cost : Z) : Answer :=
  let known {A} (x : A) := if cens then None else Some x in
  mkAnswer id ids (known (float_of share)) (known (Qnum (this share)))
    (known (Zpos (Qden (this share)))) cost cens accepted.

(** The state after one participant of a settlement *)
Definition settled_one (fingerprint : string) (ids : list string) (cens : bool)
    (accepted : list Feature) (share : Qc) (id : string) (arm : Arm) (source : string) (cost : Z)
    (rows : list Row) (p : Policy) : Answer * Policy :=
  let answer := answer_for ids cens accepted share id cost in
  let p := set_completed (<[id := (arm, source)]> (completed p)) (set_pending (delete id (pending p)) p) in
  let p := if cens then p else
    add_hits source (snd <$> filter (λ f, f.1 = "frontier") accepted)
      (add_gain source (Fraction (Z.of_nat (length accepted)) (Z.of_nat (length ids)))
        (set_arms (<[arm := append_row rows (mkRow id share cost)]> (arms p)) p)) in
  (answer, set_settled (<[id := (fingerprint, answer)]> (settled p)) p).

Lemma settle_one_run fingerprint ids costs cens accepted share id arm source cost rows p :
  pending p !! id = Some (arm, source) → od_get costs id = Some cost → arms p !! arm = Some rows →
  settle_one fingerprint ids costs cens accepted share id p =
    (Ok (settled_one fingerprint ids cens accepted share id arm source cost rows p).1,
     (settled_one fingerprint ids cens accepted share id arm source cost rows p).2).
Proof.
  intros Hp Hc Ha. unfold settle_one, lookup_arm, reads, modify, mbind, M_bind. rewrite Hp. cbn.
  rewrite Hc. cbn. destruct cens; [done|]. unfold mbind, M_bind. cbn. rewrite Ha. done.
Qed.

(** ** The invariant *)

Definition config_ok (c : Config) : Prop :=
  1 ≤ max_contexts c ≤ 4096 ∧ 1 ≤ max_decisions c ≤ 65536 ∧ 1 ≤ max_features c ≤ 65536.

(** All the gains, over the sources *)
Definition total_gains (p : Policy) : Qc := map_sum (λ q, q) (source_gains p).

(** The part of the invariant a settlement keeps at every step *)
Record policy_links (p : Policy) : Prop := {
  ok_window : map_Forall (λ _ rows, (length rows ≤ WINDOW)%nat) (arms p);
  ok_pending_arm : ∀ id arm source, pending p !! id = Some (arm, source) → is_Some (arms p !! arm);
  ok_settled : ∀ id, is_Some (settled p !! id) →
    ∃ arm source, completed p !! id = Some (arm, source) ∧ is_Some (arms p !! arm);
  ok_disjoint : ∀ id, is_Some (pending p !! id) → settled p !! id = None }.

Record policy_ok (p : Policy) : Prop := {
  ok_config : config_ok (config p);
  ok_contexts : Z.of_nat (size (contexts p)) ≤ max_contexts (config p);
  ok_seen : Z.of_nat (size (seen p)) ≤ max_features (config p);
  ok_pending : (size (pending p) ≤ 128)%nat;
  ok_sequence : 0 ≤ sequence p ≤ max_decisions (config p);
  ok_links : policy_links p;
  ok_gains : total_gains p = Qc_of_Z (Z.of_nat (size (seen p))) }.

Lemma append_row_length rows r : (length rows ≤ WINDOW)%nat → (length (append_row rows r) ≤ WINDOW)%nat.
Proof.
  intros Hl. unfold append_row. rewrite length_app. cbn [length].
  destruct (WINDOW <=? length rows)%nat eqn:Hw; [rewrite length_drop; apply Nat.leb_le in Hw|apply Nat.leb_gt in Hw];
    unfold WINDOW in *; lia.
Qed.

Lemma add_gain_total source q p : total_gains (add_gain source q p) = (total_gains p + q)%Qc.
Proof.
  unfold total_gains, add_gain. cbn [source_gains set_source_gains].
  rewrite (map_sum_same _ _ source _ (default 0%Qc (source_gains p !! source)) 0%Qc); [|done|done].
  rewrite Z2Qc_inj_0. ring.
Qed.

Section settled_one.
Context (fingerprint : string) (ids : list string) (cens : bool) (accepted : list Feature) (share : Qc)
  (id : string) (arm : Arm) (source : string) (cost : Z) (rows : list Row) (p : Policy).
Context (Ha : arms p !! arm = Some rows).

#[local] Notation "'after'" := (settled_one fingerprint ids cens accepted share id arm source cost rows p).2.

Lemma settled_one_arms :
  arms after = if cens then arms p else <[arm := append_row rows (mkRow id share cost)]> (arms p).
Proof using Type. by destruct cens. Qed.

Lemma settled_one_same :
  config after = config p ∧ contexts after = contexts p ∧ seen after = seen p ∧ sequence after = sequence p ∧
  final_costs after = final_costs p ∧ late_relations after = late_relations p ∧ source_uses after = source_uses p ∧
  pending after = delete id (pending p) ∧ completed after = <[id := (arm, source)]> (completed p) ∧
  settled after = <[id := (fingerprint, (settled_one fingerprint ids cens accepted share id arm source cost rows p).1)]> (settled p).
Proof using Type. by destruct cens. Qed.

Lemma settled_one_has_arm k : is_Some (arms p !! k) → is_Some (arms after !! k).
Proof using Type.
  rewrite settled_one_arms. destruct cens; [done|]. intros Hk. rewrite lookup_insert_is_Some'. by right.
Qed.

Lemma settled_one_links : policy_links p → policy_links after.
Proof.
  destruct settled_one_same as (_ & _ & _ & _ & _ & _ & _ & Hpend & Hcomp & Hset).
  intros [Hw Hpa Hs Hd]. split.
  - rewrite settled_one_arms. destruct cens; [done|]. apply map_Forall_insert_2; [|done].
    apply append_row_length. by apply (Hw arm).
  - intros k arm' source'. rewrite Hpend, lookup_delete_Some. intros [_ Hk].
    by eapply settled_one_has_arm, Hpa.
  - intros k. rewrite Hset, Hcomp, lookup_insert_is_Some. intros [<-|[Hne Hk]].
    + exists arm, source. rewrite lookup_insert_eq. split; [done|]. by apply settled_one_has_arm.
    + rewrite lookup_insert_ne by done. destruct (Hs k Hk) as (a & s & ? & ?). exists a, s.
      split; [done|]. by apply settled_one_has_arm.
  - intros k. rewrite Hpend, Hset. intros [x [Hne Hk]%lookup_delete_Some].
    rewrite lookup_insert_ne by done. apply Hd. by exists x.
Qed.

Lemma settled_one_gains :
  total_gains after = (total_gains p + (if cens then 0 else
    Fraction (Z.of_nat (length accepted)) (Z.of_nat (length ids))))%Qc.
Proof using Type.
  destruct cens; [change (total_gains p = total_gains p + 0)%Qc; ring|].
  rewrite <- (add_gain_total source). reflexivity.
Qed.
End settled_one.

(** What a settlement leaves alone *)
Definition untouched (p p' : Policy) : Prop :=
  config p' = config p ∧ contexts p' = contexts p ∧ seen p' = seen p ∧ sequence p' = sequence p ∧
  final_costs p' = final_costs p ∧ late_relations p' = late_relations p ∧ source_uses p' = source_uses p.

Lemma untouched_trans p1 p2 p3 : untouched p1 p2 → untouched p2 p3 → untouched p1 p3.
Proof. unfold untouched. intuition congruence. Qed.

(** One turn of the loop, on each dictionary *)
Definition completes (p : Policy) (m : gmap string (Arm * string)) (id : string) : gmap string (Arm * string) :=
  match pending p !! id with Some a => <[id := a]> m | None => m end.
Definition windows (p : Policy) (costs : list (string * Z)) (share : Qc)
    (m : gmap Arm (list Row)) (id : string) : gmap Arm (list Row) :=
  match pending p !! id with
  | Some (arm, _) =>
      <[arm := append_row (default [] (m !! arm)) (mkRow id share (default 0 (od_get costs id)))]> m
  | None => m
  end.
Definition gains (p : Policy) (q : Qc) (m : gmap string Qc) (id : string) : gmap string Qc :=
  match pending p !! id with
  | Some (_, source) => <[source := (default (Qc_of_Z 0) (m !! source) + q)%Qc]> m
  | None => m
  end.

Lemma foldl_ext_elem {A B} (f g : A → B → A) a l :
  (∀ a b, b ∈ l → f a b = g a b) → foldl f a l = foldl g a l.
Proof.
  revert a. induction l as [|b l IH]; intros a Hfg; [done|]. cbn.
  rewrite Hfg by left. apply IH. intros a' b' Hb. apply Hfg. by right.
Qed.

(** The loop over the participants returns and keeps the links. *)
Lemma participants_run fingerprint ids costs cens accepted share todo p :
  policy_links p → NoDup todo →
  (∀ id, id ∈ todo → is_Some (pending p !! id) ∧ is_Some (od_get costs id)) →
  ∃ answers p',
    map_M (settle_one fingerprint ids costs cens accepted share) todo p = (Ok answers, p') ∧
    policy_links p' ∧ untouched p p' ∧
    total_gains p' = (total_gains p + Qc_of_Z (Z.of_nat (length todo)) * (if cens then 0 else
      Fraction (Z.of_nat (length accepted)) (Z.of_nat (length ids))))%Qc ∧
    (∀ k, pending p' !! k = if decide (k ∈ todo) then None else pending p !! k) ∧
    (∀ k, k ∉ todo → settled p' !! k = settled p !! k) ∧
    completed p' = foldl (completes p) (completed p) todo ∧
    (cens = false → arms p' = foldl (windows p costs share) (arms p) todo ∧
      source_gains p' = foldl (gains p (Fraction (Z.of_nat (length accepted)) (Z.of_nat (length ids))))
                          (source_gains p) todo) ∧
    Forall2 (λ id a, settled p' !! id = Some (fingerprint, a) ∧
      a = answer_for ids cens accepted share id (default 0 (od_get costs id))) todo answers.
Proof.
  revert p. induction todo as [|id todo IH]; intros p Hl Hnd Hin; cbn [map_M].
  { exists [], p. split_and!; try done.
    change (Z.of_nat (length [])) with 0. rewrite Z2Qc_inj_0. ring. }
  apply NoDup_cons in Hnd as [Hid Hnd].
  destruct (Hin id ltac:(left)) as [[[arm source] Hp] [cost Hc]].
  destruct (ok_pending_arm _ Hl _ _ _ Hp) as [rows Ha].
  set (S1 := settled_one fingerprint ids cens accepted share id arm source cost rows p).
  assert (Hrun : settle_one fingerprint ids costs cens accepted share id p = (Ok S1.1, S1.2))
    by (by apply settle_one_run).
  pose proof (settled_one_links fingerprint ids cens accepted share id arm source cost rows p Ha Hl) as Hl1.
  pose proof (settled_one_gains fingerprint ids cens accepted share id arm source cost rows p) as Hg1.
  destruct (settled_one_same fingerprint ids cens accepted share id arm source cost rows p)
    as (U1 & U2 & U3 & U4 & U5 & U6 & U7 & Hpend & Hcomp1 & Hset).
  fold S1 in Hl1, Hg1, Hpend, Hset, Hcomp1, U1, U2, U3, U4, U5, U6, U7.
  destruct (IH S1.2 Hl1 Hnd) as (answers & p' & Hm & Hl' & Hu & Hg & Hpend' & Hset' & Hcompl & Hdicts & Hf).
  { intros k Hk. rewrite Hpend. rewrite lookup_delete_ne by (by intros ->).
    apply Hin. by right. }
  assert (Hsame : ∀ k, k ∈ todo → pending S1.2 !! k = pending p !! k).
  { intros k Hk. rewrite Hpend. apply lookup_delete_ne. by intros ->. }
  exists (S1.1 :: answers), p'. unfold mbind, M_bind, mret, M_ret. rewrite Hrun, Hm. split_and!.
  - done.
  - done.
  - by eapply untouched_trans.
  - rewrite Hg, Hg1. cbn [length]. rewrite Nat2Z.inj_succ, <- Z.add_1_l, Z2Qc_inj_add, Z2Qc_inj_1. ring.
  - intros k. rewrite Hpend', Hpend. destruct (decide (k = id)) as [->|Hne].
    + rewrite lookup_delete_eq, (decide_True (P := id ∈ id :: todo)) by left. by case_decide.
    + rewrite lookup_delete_ne by done. case_decide as Hk; [by rewrite decide_True by (by right)|].
      rewrite decide_False; [done|]. by intros [?|?]%elem_of_cons.
  - intros k [Hne Hk]%not_elem_of_cons. rewrite Hset' by done. rewrite Hset. by apply lookup_insert_ne.
  - rewrite Hcompl, Hcomp1. cbn [foldl]. unfold completes at 3. rewrite Hp.
    apply foldl_ext_elem. intros m k Hk. unfold completes. by rewrite Hsame.
  - intros ->. destruct (Hdicts eq_refl) as [-> ->]. cbn [foldl].
    unfold windows at 3, gains at 3. rewrite Hp, Ha, Hc. split.
    + apply foldl_ext_elem. intros m k Hk. unfold windows. by rewrite Hsame.
    + apply foldl_ext_elem. intros m k Hk. unfold gains. by rewrite Hsame.
  - apply Forall2_cons. split; [|done]. rewrite Hset' by done. rewrite Hset, lookup_insert_eq, Hc. done.
Qed.

(** ** The features a settlement consumes *)

(** What one new feature is worth *)
Definition worth (x : Feature) : Z := if bool_decide (x.1 = "relation") then 2 else 1.

Lemma elem_of_take_in {A} (x : A) n l : x ∈ take n l → x ∈ l.
Proof. intros Hx. rewrite <- (take_drop n l). apply elem_of_app. by left. Qed.

Lemma consume_items limit items c :
  NoDup items → (∀ x, x ∈ items → x ∉ now_seen c) →
  Z.of_nat (size (now_seen c)) ≤ limit →
  ∃ l c', foldl (consume_item limit) c items = c' ∧ accepted c' = accepted c ++ l ∧
    l = take (Z.to_nat (limit - Z.of_nat (size (now_seen c)))) items ∧ NoDup l ∧
    now_seen c' = list_to_set l ∪ now_seen c ∧
    size (now_seen c') = (size (now_seen c) + length l)%nat ∧
    Z.of_nat (size (now_seen c')) ≤ limit ∧
    score c' = score c + foldr Z.add 0 (worth <$> l).
Proof.
  revert c. induction items as [|x items IH]; intros c Hnd Hout Hsz; cbn [foldl].
  { exists [], c. rewrite app_nil_r. cbn. split_and!; [done|done|by rewrite take_nil|constructor|set_solver|lia|done|lia]. }
  apply NoDup_cons in Hnd as [Hx Hnd]. unfold consume_item at 2.
  destruct (limit <=? Z.of_nat (size (now_seen c))) eqn:Hlim.
  - destruct (IH (mkConsumed (now_seen c) true (accepted c) (score c)) Hnd)
      as (l & c' & -> & H1 & H2 & Hrest); [set_solver|done|].
    exists l, c'. split_and!; [done|done| |apply Hrest..]. rewrite H2. cbn [now_seen].
    apply Z.leb_le in Hlim. by replace (Z.to_nat (limit - Z.of_nat (size (now_seen c)))) with 0%nat by lia.
  - apply Z.leb_gt in Hlim.
    assert (Hnew : size ({[x]} ∪ now_seen c) = S (size (now_seen c))).
    { rewrite size_union by (specialize (Hout x); set_solver). by rewrite size_singleton. }
    destruct (IH (mkConsumed ({[x]} ∪ now_seen c) (hit_limit c) (accepted c ++ [x])
      (score c + (if bool_decide (x.1 = "relation") then 2 else 1))) Hnd)
      as (l & c' & -> & H1 & H2 & H3 & H4 & H5 & H6 & H7).
    + cbn. clear IH. set_solver.
    + cbn. lia.
    + clear IH. cbn in *. exists (x :: l), c'. rewrite H1, <- app_assoc, H7. split_and!.
      * done.
      * done.
      * replace (Z.to_nat (limit - Z.of_nat (size (now_seen c))))
          with (S (Z.to_nat (limit - Z.of_nat (size ({[x]} ∪ now_seen c))))) by lia.
        cbn. by rewrite <- H2.
      * apply NoDup_cons. split; [|done]. rewrite H2. by intros ?%elem_of_take_in.
      * rewrite H4. set_solver.
      * rewrite H5, Hnew. cbn. lia.
      * done.
      * cbn. unfold worth at 2. lia.
Qed.

(** The distinct kinds of a [dict] keep the features distinct. *)
Lemma novel_NoDup seen normalized :
  NoDup (od_keys normalized) → Forall (λ kv, NoDup kv.2) normalized → NoDup (novel seen normalized).
Proof.
  intros Hk Hv. unfold novel. apply NoDup_filter.
  assert (Hp : merge_sort key_le normalized ≡ₚ normalized) by apply merge_sort_Permutation.
  assert (Hk' : NoDup (od_keys (merge_sort key_le normalized))) by (unfold od_keys; by rewrite Hp).
  assert (Hv' : Forall (λ kv, NoDup kv.2) (merge_sort key_le normalized)) by (by rewrite Hp).
  clear Hp Hk Hv. induction (merge_sort key_le normalized) as [|[k vs] l IH]; [constructor|].
  apply NoDup_cons in Hk' as [Hk Hk']. apply Forall_cons in Hv' as [Hvs Hv'].
  cbn [fmap list_fmap concat]. apply NoDup_app. split_and!.
  - apply NoDup_fmap_2; [|done]. by intros x y [= ->].
  - intros x (v & -> & Hin)%list_elem_of_fmap (vs' & Hvs' & Hx)%list_elem_of_In%in_concat.
    apply list_elem_of_In in Hvs', Hx. apply list_elem_of_fmap in Hvs' as ([k' w] & -> & Hkv).
    apply list_elem_of_fmap in Hx as (v' & [= -> ->] & _).
    apply Hk. by apply (list_elem_of_fmap_2 fst) in Hkv.
  - by apply IH.
Qed.

Lemma normalized_ok f n :
  map_result normalize f = Ok n →
  od_keys n = od_keys f ∧ Forall (λ kv, NoDup kv.2) n ∧
  Forall2 (λ kv kv', kv'.1 = kv.1 ∧ kv'.2 ≡ₚ kv.2) f n.
Proof.
  intros Hf%map_result_Ok. induction Hf as [|[k vs] [k' vs'] f n Hkv _ (IH1 & IH2 & IH3)]; [done|].
  unfold normalize in Hkv. cbn in Hkv. inv_Ok. unfold od_keys in *. cbn. rewrite IH1.
  assert (Hp : sorted_strings vs ≡ₚ vs) by apply merge_sort_Permutation.
  split_and!; [done| |]; constructor; cbn; [by rewrite Hp|done|done|done].
Qed.

(** A settlement of pending decisions that goes through *)
Record settles (ids : list string) (costs : list (string * Z)) (accepted : list Feature) (cens : bool)
    (share : Qc) (fingerprint : string) (answers : list Answer) (p p' : Policy) : Prop := {
  st_ids : NoDup ids ∧ ids ≠ [];
  st_pending : ∀ id, id ∈ ids → is_Some (pending p !! id);
  st_accepted : NoDup accepted ∧ (∀ x, x ∈ accepted → x ∉ seen p) ∧ (cens = true → accepted = []);
  st_seen : seen p' = list_to_set accepted ∪ seen p ∧ size (seen p') = (size (seen p) + length accepted)%nat ∧
    Z.of_nat (size (seen p')) ≤ max_features (config p);
  st_links : policy_links p';
  st_same : config p' = config p ∧ contexts p' = contexts p ∧ sequence p' = sequence p ∧
    final_costs p' = final_costs p ∧ late_relations p' = late_relations p;
  st_gains : total_gains p' = (total_gains p + Qc_of_Z (Z.of_nat (length accepted)))%Qc;
  st_left : ∀ k, pending p' !! k = if decide (k ∈ ids) then None else pending p !! k;
  st_settled : ∀ k, k ∉ ids → settled p' !! k = settled p !! k;
  st_share : cens = false → share = Fraction (Z.min 4 (foldr Z.add 0 (worth <$> accepted))) (Z.of_nat (length ids));
  st_completed : completed p' = foldl (completes p) (completed p) ids;
  st_dicts : cens = false → arms p' = foldl (windows p costs share) (arms p) ids ∧
    source_gains p' = foldl (gains p (Fraction (Z.of_nat (length accepted)) (Z.of_nat (length ids))))
                        (source_gains p) ids;
  st_answers : Forall2 (λ id a, settled p' !! id = Some (fingerprint, a) ∧
    a = answer_for ids cens accepted share id (default 0 (od_get costs id))) ids answers }.

(** The fingerprint of a settlement *)
Definition fingerprint_of {hashlib : Hashlib} (ids : list string) (normalized : list (string * list string))
    (costs : list (string * Z)) (cens : bool) : string :=
  hexdigest (dumps (JArr [JArr (JStr <$> sorted_strings ids); features_json normalized;
                          costs_json costs; JBool cens])).

Lemma sorted_strings_elem l x : x ∈ sorted_strings l ↔ x ∈ l.
Proof. unfold sorted_strings. by rewrite merge_sort_Permutation. Qed.
Lemma sorted_strings_NoDup l : NoDup (sorted_strings l) ↔ NoDup l.
Proof. unfold sorted_strings. by rewrite merge_sort_Permutation. Qed.

(** The novel features there is still room for, in order *)
Definition first_fit (p : Policy) (normalized : list (string * list string)) : list Feature :=
  take (Z.to_nat (max_features (config p) - Z.of_nat (size (seen p)))) (novel (seen p) normalized).

(** The participants all get the share, the features are consumed once. *)
Lemma settle_fresh fingerprint ids f n costs cens p :
  policy_links p → Z.of_nat (size (seen p)) ≤ max_features (config p) →
  NoDup (od_keys f) → map_result normalize f = Ok n →
  NoDup ids → ids ≠ [] → (∀ id, id ∈ ids → is_Some (od_get costs id)) →
  (∀ id, id ∈ ids → is_Some (pending p !! id)) →
  ∃ accepted share answers p',
    ('(accepted, reward) ← consume cens (novel (seen p) n);
     map_M (settle_one fingerprint ids costs cens accepted (Fraction reward (Z.of_nat (length ids)))) ids) p
      = (Ok answers, p') ∧
    settles ids costs accepted cens share fingerprint answers p p' ∧
    (cens = false → accepted = first_fit p n).
Proof.
  intros Hl Hsz Hf Hn Hnd Hne Hc Hp. destruct (normalized_ok f n Hn) as (Hkeys & Hvals & _).
  assert (Hitems : NoDup (novel (seen p) n)) by (apply novel_NoDup; [by rewrite Hkeys|done]).
  assert (∃ acc r p1, consume cens (novel (seen p) n) p = (Ok (acc, r), p1) ∧ NoDup acc ∧
    (∀ x, x ∈ acc → x ∉ seen p) ∧ (cens = true → acc = []) ∧
    seen p1 = list_to_set acc ∪ seen p ∧ size (seen p1) = (size (seen p) + length acc)%nat ∧
    Z.of_nat (size (seen p1)) ≤ max_features (config p) ∧
    (∃ hit, p1 = set_seen (seen p1) (set_features_saturated hit p)) ∧
    (cens = false → r = Z.min 4 (foldr Z.add 0 (worth <$> acc)) ∧ acc = first_fit p n))
    as (acc & r & p1 & Hcons & Ha1 & Ha2 & Ha3 & Hs1 & Hs2 & Hs3 & (hit & Hp1) & Hr).
  { unfold consume. destruct cens.
    { exists [], 0, p. split_and!; try done; [apply NoDup_nil_2|set_solver|set_solver|].
      exists (features_saturated p). by destruct p. }
    destruct (consume_items (max_features (config p)) (novel (seen p) n)
      (mkConsumed (seen p) (features_saturated p) [] 0)) as (l & c' & -> & Hacc & Hsub & Hndl & Hseen & Hsize & Hlim & Hscore);
      [done| |done|].
    { intros x [Hx _]%list_elem_of_filter. done. }
    cbn in *. exists (accepted c'), (Z.min 4 (score c')).
    exists (set_seen (now_seen c') (set_features_saturated (hit_limit c') p)). cbn. rewrite Hacc. cbn.
    split_and!; [done|done| |done|done|done|done|by exists (hit_limit c')|by rewrite Hscore, Hsub].
    intros x Hx. rewrite Hsub in Hx. apply elem_of_take_in in Hx. by apply list_elem_of_filter in Hx as [? _]. }
  rewrite Hp1 in Hcons. unfold mbind at 1, M_bind at 1. rewrite Hcons.
  assert (Hl1 : policy_links (set_seen (seen p1) (set_features_saturated hit p))) by (by destruct Hl).
  destruct (participants_run fingerprint ids costs cens acc (Fraction r (Z.of_nat (length ids))) ids _ Hl1 Hnd)
    as (answers & p' & Hrun & Hl' & (U1 & U2 & U3 & U4 & U5 & U6 & U7) & Hg & Hleft & Hset & Hcompl & Hdicts & Hans).
  { intros id Hid. split; [by apply Hp|by apply Hc]. }
  assert (U3' : seen p' = seen p1) by exact U3.
  exists acc, (Fraction r (Z.of_nat (length ids))), answers, p'. split; [exact Hrun|].
  split; [|intros Hf'; apply (Hr Hf')].
  split; [done|done|done|by rewrite U3'|done|by split_and!| |exact Hleft|exact Hset
        |by intros Hf'; destruct (Hr Hf') as [-> _]|exact Hcompl|exact Hdicts|done].
  rewrite Hg. change (total_gains (set_seen _ _)) with (total_gains p). f_equal.
  destruct cens; [rewrite (Ha3 eq_refl); change (Z.of_nat (length [])) with 0; rewrite Z2Qc_inj_0; ring|].
  unfold Fraction. rewrite Qcmult_comm. unfold Qcdiv.
  rewrite <- Qcmult_assoc, Qcmult_inv_l, Qcmult_1_r; [done|].
  rewrite <- Z2Qc_inj_0. intros Heq%Z2Qc_inj. destruct ids; [done|]. cbn in Heq. lia.
Qed.

Lemma same_keys_elem {V} (d : list (string * V)) keys k :
  same_keys d keys = true → k ∈ keys → is_Some (od_get d k).
Proof.
  unfold same_keys. intros Hd%bool_decide_eq_true_1 Hk.
  assert (Hin : k ∈ od_keys d) by (apply (elem_of_list_to_set (C := gset string)); rewrite Hd; set_solver).
  destruct (od_get d k) eqn:Hg; [by eauto|]. by apply od_get_None in Hg.
Qed.

Lemma existsb_false {A} (f : A → bool) l : existsb f l = false → ∀ x, x ∈ l → f x = false.
Proof. intros Hf. by apply existsb_elem. Qed.

(** The three ways [settle_group] ends *)
Lemma settle_group_cases {hashlib : Hashlib} ids f costs cens p :
  policy_links p → Z.of_nat (size (seen p)) ≤ max_features (config p) → NoDup (od_keys f) →
  match settle_group ids f costs cens p with
  | (Err _, p') => p' = p
  | (Ok answers, p') =>
      settlement_valid ids f costs = true ∧ final_cost_conflict p costs ids = false ∧
      ∃ n, map_result normalize f = Ok n ∧
        ((p' = p ∧ (∀ id, id ∈ ids → ∃ a, settled p !! id = Some (fingerprint_of ids n costs cens, a)) ∧
          answers = omap (λ key, snd <$> settled p !! key) (sorted_strings ids)) ∨
         ((∀ id, id ∈ ids → settled p !! id = None) ∧
          ∃ accepted share, settles (sorted_strings ids) costs accepted cens share
                              (fingerprint_of ids n costs cens) answers p p' ∧
            (cens = false → accepted = first_fit p n)))
  end.
Proof.
  intros Hl Hsz Hf. unfold settle_group. unfold_M. cbv zeta. change (id p) with p.
  destruct (settlement_valid ids f costs) eqn:Hv; [|exact eq_refl]. cbn [negb raise_if].
  destruct (final_cost_conflict p costs ids) eqn:Hfc; [exact eq_refl|]. cbn [raise_if].
  destruct (map_result normalize f) as [n|e] eqn:Hn; [|exact eq_refl].
  fold (fingerprint_of ids n costs cens).
  destruct (existsb (λ key, bool_decide (is_Some (settled p !! key))) (sorted_strings ids)) eqn:Hex.
  - destruct (existsb _ (sorted_strings ids)) eqn:Hall in |- *; [exact eq_refl|]. cbn [raise_if].
    split_and!; [done..|]. exists n. split; [done|]. left. split_and!; [done| |done].
    intros id Hid. apply (existsb_false _ _) with (x := id) in Hall; [|by apply sorted_strings_elem].
    rewrite negb_false_iff, bool_decide_eq_true in Hall.
    destruct (settled p !! id) as [[fp a]|]; [|done]. injection Hall as ->. by exists a.
  - destruct (existsb _ (sorted_strings ids)) eqn:Hall in |- *; [exact eq_refl|]. cbn [raise_if].
    assert (Hvalid : NoDup ids ∧ ids ≠ [] ∧ ∀ id, id ∈ ids → is_Some (od_get costs id)).
    { unfold settlement_valid in Hv. inv_Ok. split_and!; [done|by intros ->|].
      intros id Hid. by eapply same_keys_elem. }
    destruct Hvalid as (Hnd & Hne & Hc).
    destruct (settle_fresh (fingerprint_of ids n costs cens) (sorted_strings ids) f n costs cens p)
      as (acc & share & answers & p' & Hrun & Hst & Hfit); try done.
    + by apply sorted_strings_NoDup.
    + intros Hnil. apply Hne. apply elem_of_nil_inv. intros x.
      rewrite <- sorted_strings_elem, Hnil. set_solver.
    + intros id. rewrite sorted_strings_elem. apply Hc.
    + intros id Hid. apply (existsb_false _ _) with (x := id) in Hall; [|done].
      apply bool_decide_eq_false in Hall. by apply not_eq_None_Some.
    + unfold mbind, M_bind in Hrun. rewrite Hrun. split_and!; [done..|]. exists n. split; [done|]. right.
      split; [|by exists acc, share]. intros id Hid. apply (existsb_false _ _) with (x := id) in Hex; [|by apply sorted_strings_elem].
      apply bool_decide_eq_false in Hex. by apply eq_None_not_Some.
Qed.

(** ** Late credit *)

(** The decisions in every window: what late credit does not move *)
Definition row_ids (p : Policy) : gmap Arm (list string) :=
  (λ rows : list Row, row_id <$> rows) <$> arms p.

Lemma row_ids_lookup p arm l :
  row_ids p !! arm = Some l ↔ ∃ rows, arms p !! arm = Some rows ∧ l = row_id <$> rows.
Proof. unfold row_ids. rewrite lookup_fmap_Some. naive_solver. Qed.

Lemma row_ids_is_Some p arm : is_Some (row_ids p !! arm) ↔ is_Some (arms p !! arm).
Proof. unfold row_ids. by rewrite lookup_fmap, fmap_is_Some. Qed.

Lemma links_same p p' :
  row_ids p' = row_ids p → pending p' = pending p → completed p' = completed p →
  (∀ k, is_Some (settled p' !! k) → is_Some (settled p !! k)) →
  policy_links p → policy_links p'.
Proof.
  intros Hr Hp Hc Hs [Hw Hpa Hse Hd].
  assert (Hsome : ∀ arm, is_Some (arms p !! arm) → is_Some (arms p' !! arm)).
  { intros arm. by rewrite <- !row_ids_is_Some, Hr. }
  split.
  - intros arm rows Ha. assert (row_ids p' !! arm = Some (row_id <$> rows)) as Hi by (apply row_ids_lookup; eauto).
    rewrite Hr in Hi. apply row_ids_lookup in Hi as (rows0 & Ha0 & Heq).
    rewrite <- (length_fmap row_id rows), Heq, length_fmap. by apply (Hw arm).
  - intros id arm source. rewrite Hp. intros Hk. by eapply Hsome, Hpa.
  - intros k Hk. rewrite Hc. destruct (Hse k (Hs k Hk)) as (a & s & ? & ?). exists a, s. auto.
  - intros k. rewrite Hp. intros Hk. apply eq_None_not_Some. intros Hk'%Hs.
    rewrite (Hd k Hk) in Hk'. by destruct Hk'.
Qed.

Lemma update_row_ids key f rows rows' :
  (∀ r, row_id (f r) = row_id r) → update_row key f rows = Some rows' → row_id <$> rows' = row_id <$> rows.
Proof.
  intros Hf. revert rows'. induction rows as [|r rows IH]; intros rows'; [done|]. cbn [update_row].
  case_bool_decide; [intros [= <-]; cbn; by rewrite Hf|].
  intros (l & Hl & ->)%fmap_Some. cbn. by rewrite (IH l Hl).
Qed.

Lemma update_row_present key f rows : key ∈ row_id <$> rows → is_Some (update_row key f rows).
Proof.
  induction rows as [|r rows IH]; cbn; [by intros ?%not_elem_of_nil|].
  intros Hk. case_bool_decide; [by eauto|]. rewrite fmap_is_Some. apply IH.
  apply elem_of_cons in Hk as [->|]; done.
Qed.

(** A row assignment that keeps the decisions *)
Lemma row_ids_insert p arm rows rows' :
  arms p !! arm = Some rows → row_id <$> rows' = row_id <$> rows →
  row_ids (set_arms (<[arm := rows']> (arms p)) p) = row_ids p.
Proof.
  intros Ha Heq. unfold row_ids. cbn [arms set_arms]. rewrite fmap_insert, Heq.
  apply insert_id. by rewrite lookup_fmap, Ha.
Qed.

(** What late credit leaves alone *)
Definition unmoved (p p' : Policy) : Prop :=
  row_ids p' = row_ids p ∧ pending p' = pending p ∧ completed p' = completed p ∧
  settled p' = settled p ∧ seen p' = seen p ∧ config p' = config p ∧ contexts p' = contexts p ∧
  sequence p' = sequence p ∧ late_relations p' = late_relations p.

Lemma unmoved_trans p1 p2 p3 : unmoved p1 p2 → unmoved p2 p3 → unmoved p1 p3.
Proof. unfold unmoved. intuition congruence. Qed.

(** The loop over the participants returns: the consumer's row is already
    set, the others' are present. *)
Lemma credits_run answer ids costs consumer retained share todo p :
  (∀ key, key ∈ todo → is_Some (od_get costs key)) →
  (∀ key arm source, od_get retained key = Some (arm, source) →
     ∃ l, row_ids p !! arm = Some l ∧ key ∈ l) →
  ∃ records p',
    map_M (credit_one answer ids costs consumer retained share) todo p = (Ok records, p') ∧
    unmoved p p' ∧
    total_gains p' = (total_gains p + Qc_of_Z (Z.of_nat (length (filter (λ key, is_Some (od_get retained key)) todo)))
      * Fraction (Z.of_nat (length (novel_features answer))) (Z.of_nat (length ids)))%Qc.
Proof.
  revert p. induction todo as [|key todo IH]; intros p Hc Hr; cbn [map_M].
  { exists [], p. split_and!; [done|by repeat split|].
    change (Z.of_nat (length (filter _ []))) with 0. rewrite Z2Qc_inj_0. ring. }
  destruct (Hc key ltac:(left)) as [cost Hcost].
  set (F := Fraction (Z.of_nat (length (novel_features answer))) (Z.of_nat (length ids))) in *.
  assert (∃ rec p1, credit_one answer ids costs consumer retained share key p = (Ok rec, p1) ∧ unmoved p p1 ∧
    total_gains p1 = (total_gains p + (if decide (is_Some (od_get retained key)) then F else 0))%Qc)
    as (rec & p1 & Hrun & Hu & Hg).
  { unfold credit_one. destruct (od_get retained key) as [[arm source]|] eqn:Hret.
    - destruct (Hr key arm source Hret) as (l & Hl & Hkey).
      apply row_ids_lookup in Hl as (rows & Ha & ->).
      destruct (update_row_present key (add_reward share) rows Hkey) as [rows' Hrows'].
      pose proof (update_row_ids key (add_reward share) rows rows' ltac:(done) Hrows') as Hids.
      eexists _, (add_gain source F (set_arms (<[arm := rows']> (arms p)) p)).
      unfold lookup_arm. unfold_M. rewrite Ha. cbn. rewrite Hrows'. cbn. rewrite Hcost. split_and!; [done| |].
      + split; [exact (row_ids_insert p arm rows rows' Ha Hids)|by repeat split].
      + rewrite decide_True by eauto. by rewrite add_gain_total.
    - eexists _, p. unfold_M. rewrite Hcost. split_and!; [done|by repeat split|].
      rewrite decide_False by (by intros []). ring. }
  destruct (IH p1) as (records & p' & Hm & Hu' & Hg').
  { intros k Hk. apply Hc. by right. }
  { intros k arm source Hk. destruct Hu as (-> & _). by eapply Hr. }
  exists (rec :: records), p'. unfold mbind, M_bind, mret, M_ret. rewrite Hrun, Hm.
  split_and!; [done|by eapply unmoved_trans|]. rewrite Hg', Hg, filter_cons.
  case_decide; [|ring]. cbn [length]. rewrite Nat2Z.inj_succ, <- Z.add_1_l, Z2Qc_inj_add, Z2Qc_inj_1. ring.
Qed.

Lemma set_reward_ids key share rows :
  row_id <$> default rows (update_row key (set_reward share) rows) = row_id <$> rows.
Proof.
  destruct (update_row key (set_reward share) rows) as [rows'|] eqn:Hr; [|done].
  exact (update_row_ids key (set_reward share) rows rows' ltac:(done) Hr).
Qed.

(** Redistributing the consumer's reward returns and moves no gain in or out. *)
Lemma redistribute_run fingerprint ids costs consumer retained answer p carm csrc num den :
  completed p !! consumer = Some (carm, csrc) → is_Some (arms p !! carm) →
  is_Some (source_gains p !! csrc) → is_Some (settled p !! consumer) →
  reward_numerator answer = Some num → reward_denominator answer = Some den →
  (∀ key, key ∈ ids → is_Some (od_get costs key)) →
  (∀ key arm source, od_get retained key = Some (arm, source) →
     ∃ l, row_ids p !! arm = Some l ∧ key ∈ l) →
  S (length (filter (λ key, is_Some (od_get retained key)) ids)) = length ids →
  ∃ records p',
    redistribute fingerprint ids costs consumer retained answer p = (Ok records, p') ∧
    row_ids p' = row_ids p ∧ pending p' = pending p ∧ completed p' = completed p ∧
    seen p' = seen p ∧ config p' = config p ∧ contexts p' = contexts p ∧ sequence p' = sequence p ∧
    (∀ k, is_Some (settled p' !! k) → is_Some (settled p !! k)) ∧ total_gains p' = total_gains p.
Proof.
  intros Hcomp [rows Ha] [gain Hgain] [[old ans] Hset] Hnum Hden Hc Hr Hn.
  unfold redistribute, lookup_arm. unfold_M. rewrite Hnum, Hden. unfold result_ret. rewrite Hcomp.
  cbn beta iota. rewrite Ha. cbn beta iota. cbn [source_gains set_arms]. rewrite Hgain. cbv zeta.
  set (share := (Fraction num den / Qc_of_Z (Z.of_nat (length ids)))%Qc).
  set (q := Fraction (Z.of_nat (length (novel_features answer)) * (Z.of_nat (length ids) - 1))
              (Z.of_nat (length ids))).
  set (p1 := set_arms (<[carm := default rows (update_row consumer (set_reward share) rows)]> (arms p)) p).
  assert (Hrows : row_ids p1 = row_ids p) by (apply (row_ids_insert p carm rows); [done|apply set_reward_ids]).
  destruct (credits_run answer ids costs consumer retained share ids (add_gain csrc (- q)%Qc p1))
    as (records & p2 & Hrun & (U1 & U2 & U3 & U4 & U5 & U6 & U7 & U8 & U9) & Hg); [done| |].
  { intros key arm source Hkey. change (row_ids (add_gain _ _ p1)) with (row_ids p1). rewrite Hrows.
    by eapply Hr. }
  rewrite Hrun. cbn beta iota. rewrite U4. cbn [settled add_gain set_source_gains set_arms p1]. rewrite Hset.
  do 2 eexists. split; [reflexivity|]. cbn.
  split_and!; [by rewrite <- Hrows|done..| |].
  - intros k. rewrite U4. cbn. rewrite lookup_insert_is_Some. intros [<-|[_ Hk]]; [by eauto|done].
  - change (total_gains p2 = total_gains p). rewrite Hg, add_gain_total. change (total_gains p1) with (total_gains p).
    rewrite <- Hn. subst q. rewrite <- Hn. unfold Fraction, Qcdiv.
    set (m := length (filter _ ids)). replace (Z.of_nat (S m) - 1) with (Z.of_nat m) by lia.
    rewrite Z2Qc_inj_mul. ring.
Qed.

(** A contributor [retain] keeps: its row is in its window, and the consumer's
    row will not push it out. *)
Definition kept (p : Policy) (carm : Arm) (key : string) (e : Arm * string) : Prop :=
  ∃ rows i r, completed p !! key = Some e ∧ arms p !! e.1 = Some rows ∧
    list_find (λ r, row_id r = key) rows = Some (i, r) ∧ ¬ (e.1 = carm ∧ length rows = WINDOW ∧ i = 0%nat).

Lemma retain_Ok p costs consumer carm csrc ids ret :
  pending p !! consumer = Some (carm, csrc) → retain p costs consumer ids = Ok (Some ret) →
  od_keys ret = filter (λ key, key ≠ consumer) ids ∧ Forall (λ kv, kept p carm kv.1 kv.2) ret.
Proof.
  intros Hp. revert ret. induction ids as [|key ids IH]; intros ret; cbn [retain].
  { intros [= <-]. by split; [|constructor]. }
  case_bool_decide as Hk.
  { intros (Hkeys & Hall)%IH. rewrite filter_cons_False by (by intros []). done. }
  destruct (settled p !! key) as [[fp previous]|]; [|done].
  destruct (censored previous); [done|].
  destruct (completed p !! key) as [[arm source]|] eqn:Hc; [|done]. cbn [mbind result_bind mret result_ret].
  destruct (arms p !! arm) as [rows|] eqn:Ha; [|done]. cbn [mbind result_bind mret result_ret].
  destruct (list_find (λ r, row_id r = key) rows) as [[i r]|] eqn:Hf; [|done].
  destruct (raise_if _ _) as [[]|]; [|done]. cbn [mbind result_bind]. unfold Arm in *. rewrite Hp.
  cbn [mbind result_bind mret result_ret].
  destruct (bool_decide (arm = carm) && (length rows =? WINDOW)%nat && (i =? 0)%nat) eqn:Hev; [done|].
  destruct (retain p costs consumer ids) as [[rest|]|] eqn:Hrest;
    cbn [mbind result_bind mret result_ret fmap option_fmap option_map]; [|done..]. intros [= <-].
  destruct (IH rest eq_refl) as [Hkeys Hall]. rewrite filter_cons_True by done. split.
  - unfold od_keys in *. cbn. by rewrite Hkeys.
  - constructor; [|done]. exists rows, i, r. cbn. split_and!; [done..|]. intros (-> & Hlen & ->).
    rewrite bool_decide_true, Hlen in Hev by done. done.
Qed.

(** Appending the consumer's row keeps the rows [retain] found. *)
Lemma kept_after p carm key e rowsC r0 m :
  kept p carm key e → arms p !! carm = Some rowsC → (length rowsC ≤ WINDOW)%nat →
  m = <[carm := append_row rowsC r0]> (arms p) →
  ∃ rows, m !! e.1 = Some rows ∧ key ∈ row_id <$> rows.
Proof.
  intros (rows & i & r & _ & Ha & Hf & Hev) HC Hlen ->.
  apply list_find_Some in Hf as (Hi & <- & _).
  destruct (decide (e.1 = carm)) as [He|He].
  - rewrite He in *. assert (rowsC = rows) as -> by congruence. exists (append_row rows r0).
    rewrite lookup_insert_eq. split; [done|]. apply list_elem_of_fmap. exists r. split; [done|].
    unfold append_row. apply elem_of_app. left.
    destruct (WINDOW <=? length rows)%nat eqn:Hw; [|by eapply list_elem_of_lookup_2].
    apply list_elem_of_lookup. destruct i as [|i].
    + destruct rows as [|r1 rows]; [done|]. exfalso.
      apply Nat.leb_le in Hw. apply Hev. split_and!; [done|lia|done].
    + exists i. by rewrite lookup_drop.
  - exists rows. rewrite lookup_insert_ne by done. split; [done|]. apply list_elem_of_fmap.
    exists r. split; [done|]. by eapply list_elem_of_lookup_2.
Qed.

Lemma others_length (c : string) ids :
  NoDup ids → c ∈ ids → S (length (filter (λ key, key ≠ c) ids)) = length ids.
Proof.
  induction ids as [|k ids IH]; [by intros _ ?%not_elem_of_nil|].
  intros [Hk Hnd]%NoDup_cons Hc. destruct (decide (k = c)) as [->|Hne].
  - rewrite filter_cons_False by (by intros []). cbn. f_equal. f_equal. apply filter_all.
    by intros x Hx ->.
  - rewrite filter_cons_True by done. cbn. f_equal. apply IH; [done|].
    by apply elem_of_cons in Hc as [->|].
Qed.

(** The consumer settles, then its reward is shared. *)
Definition shared (consumer : string) (accepted : list Feature) (p p' : Policy) : Prop :=
  policy_links p' ∧ (∀ k, pending p' !! k = if decide (k = consumer) then None else pending p !! k) ∧
  seen p' = list_to_set accepted ∪ seen p ∧ size (seen p') = (size (seen p) + length accepted)%nat ∧
  Z.of_nat (size (seen p')) ≤ max_features (config p) ∧
  config p' = config p ∧ contexts p' = contexts p ∧ sequence p' = sequence p ∧
  total_gains p' = (total_gains p + Qc_of_Z (Z.of_nat (length accepted)))%Qc.

Lemma shared_credit fingerprint ids costs consumer carm csrc retained accepted share fp answers answer p p1 :
  policy_links p → NoDup ids → consumer ∈ ids → (∀ key, key ∈ ids → is_Some (od_get costs key)) →
  pending p !! consumer = Some (carm, csrc) →
  retain p costs consumer ids = Ok (Some retained) →
  settles [consumer] [(consumer, default 0 (od_get costs consumer))] accepted false share fp answers p p1 →
  item answers 0 = Ok answer →
  ∃ records p', redistribute fingerprint ids costs consumer retained answer p1 = (Ok records, p') ∧
    shared consumer accepted p p'.
Proof.
  intros Hl Hnd Hcin Hc Hp Hret Hst Hitem.
  destruct (retain_Ok _ _ _ _ _ _ _ Hp Hret) as [Hkeys Hkept].
  destruct (st_dicts _ _ _ _ _ _ _ _ _ Hst eq_refl) as [Harms Hgains]. cbn [foldl] in Harms, Hgains.
  pose proof (st_completed _ _ _ _ _ _ _ _ _ Hst) as Hcomp. cbn [foldl] in Hcomp.
  unfold windows in Harms. unfold gains in Hgains. unfold completes in Hcomp.
  rewrite Hp in Harms, Hgains, Hcomp.
  destruct (ok_pending_arm _ Hl _ _ _ Hp) as [rows Ha]. rewrite Ha in Harms.
  change (default [] (Some rows)) with rows in Harms.
  pose proof (st_answers _ _ _ _ _ _ _ _ _ Hst) as Hans.
  apply Forall2_cons_inv_l in Hans as (a & rest & [Hset Hans] & _ & ->). injection Hitem as <-.
  rewrite Hans in Hset. rewrite Hans.
  edestruct (redistribute_run fingerprint ids costs consumer retained
    (answer_for [consumer] false accepted share consumer
       (default 0 (od_get [(consumer, default 0 (od_get costs consumer))] consumer)))
    p1 carm csrc (Qnum (this share)) (Zpos (Qden (this share)))) as
    (records & p' & Hrun & Hids & Hpend & Hcomp' & Hseen & Hcfg & Hctx & Hseq & Hsub & Htot);
    [..|exists records, p'; split; [exact Hrun|]].
  - rewrite Hcomp. by rewrite lookup_insert_eq.
  - rewrite Harms. by rewrite lookup_insert_eq.
  - rewrite Hgains. by rewrite lookup_insert_eq.
  - by rewrite Hset.
  - reflexivity.
  - reflexivity.
  - done.
  - intros key arm source Hkey%od_get_elem. rewrite Forall_forall in Hkept. specialize (Hkept _ Hkey).
    destruct (kept_after p carm key (arm, source) rows _ (arms p1) Hkept Ha ltac:(by apply (ok_window _ Hl carm)) Harms)
      as (rows' & Hrows' & Hin). exists (row_id <$> rows'). split; [|done]. apply row_ids_lookup. by exists rows'.
  - rewrite <- (others_length consumer ids) by done. do 2 f_equal. apply filter_iff. intros key Hkey.
    split.
    + intros [e He%od_get_Some_key] ->. rewrite Hkeys in He. by apply list_elem_of_filter in He as [? _].
    + intros Hne. destruct (od_get retained key) eqn:Hg; [by eauto|]. apply od_get_None in Hg.
      exfalso. apply Hg. rewrite Hkeys. by apply list_elem_of_filter.
  - destruct (st_seen _ _ _ _ _ _ _ _ _ Hst) as (S1 & S2 & S3).
    destruct (st_same _ _ _ _ _ _ _ _ _ Hst) as (C1 & C2 & C3 & _).
    split_and!.
    + eapply links_same; [exact Hids|done..|]. by apply (st_links _ _ _ _ _ _ _ _ _ Hst).
    + intros k. rewrite Hpend, (st_left _ _ _ _ _ _ _ _ _ Hst).
      destruct (decide (k = consumer)) as [->|Hne]; [by rewrite decide_True by left|].
      rewrite decide_False; [done|]. by intros ->%list_elem_of_singleton.
    + by rewrite Hseen.
    + by rewrite Hseen.
    + by rewrite Hseen.
    + by rewrite Hcfg.
    + by rewrite Hctx.
    + by rewrite Hseq.
    + rewrite Htot. apply (st_gains _ _ _ _ _ _ _ _ _ Hst).
Qed.

(** The ways [settle_relation_group] ends *)
Lemma relation_cases {hashlib : Hashlib} ids f costs p :
  policy_links p → Z.of_nat (size (seen p)) ≤ max_features (config p) → NoDup (od_keys f) →
  match settle_relation_group ids f costs p with
  | (Err _, p') | (Ok NotRetained, p') => p' = p
  | (Ok (Settlement answers), p') =>
      settle_group (sorted_strings ids) f costs false p = (Ok answers, p')
  | (Ok (Credits _), p') => p' = p ∨ ∃ consumer accepted, is_Some (pending p !! consumer) ∧
      shared consumer accepted p p'
  end.
Proof.
  intros Hl Hsz Hf. unfold settle_relation_group. unfold_M. cbv zeta. change (id p) with p.
  destruct (relation_valid ids f costs) eqn:Hv; [|exact eq_refl]. cbn [negb raise_if].
  destruct (final_cost_conflict p costs (sorted_strings ids)); [exact eq_refl|]. cbn [raise_if].
  destruct (late_relations p !! _) as [records|]; [by left|].
  destruct (length (filter _ (sorted_strings ids)) =? length (sorted_strings ids))%nat.
  { pose proof (settle_group_cases (sorted_strings ids) f costs false p Hl Hsz Hf) as Hg.
    by destruct (settle_group (sorted_strings ids) f costs false p) as [[answers|e] p']. }
  destruct (filter _ (sorted_strings ids)) as [|consumer [|? ?]] eqn:Hw; [exact eq_refl| |exact eq_refl].
  destruct (retain p costs consumer (sorted_strings ids)) as [[retained|]|] eqn:Hret; [|exact eq_refl..].
  assert (Hin : consumer ∈ filter (λ key, is_Some (pending p !! key)) (sorted_strings ids)) by (rewrite Hw; left).
  apply list_elem_of_filter in Hin as [Hp Hin].
  assert (Hvalid : NoDup (sorted_strings ids) ∧ ∀ key, key ∈ sorted_strings ids → is_Some (od_get costs key)).
  { unfold relation_valid in Hv. inv_Ok. rewrite sorted_strings_NoDup. split; [done|].
    intros key. rewrite sorted_strings_elem. by apply same_keys_elem. }
  destruct Hvalid as [Hnd Hc]. destruct (Hc consumer Hin) as [cost Hcost]. rewrite Hcost.
  cbn [mret result_ret]. pose proof (settle_group_cases [consumer] f [(consumer, cost)] false p Hl Hsz Hf) as Hg.
  destruct (settle_group [consumer] f [(consumer, cost)] false p) as [[answers|e] p1]; [|exact Hg].
  destruct Hg as (_ & _ & n & Hn & [(_ & Hdone & _)|(_ & accepted & share & Hst & _)]).
  { exfalso. destruct (Hdone consumer ltac:(left)) as [a Ha]. rewrite (ok_disjoint _ Hl _ Hp) in Ha. done. }
  change (sorted_strings [consumer]) with [consumer] in Hst.
  destruct (item answers 0) as [answer|e] eqn:Hi.
  2: { pose proof (st_answers _ _ _ _ _ _ _ _ _ Hst) as Hans.
       by apply Forall2_cons_inv_l in Hans as (a & rest & _ & _ & ->). }
  destruct Hp as [[carm csrc] Hp].
  destruct (shared_credit (hexdigest (dumps (JArr [JArr (JStr <$> sorted_strings ids); features_json f;
      costs_json costs]))) (sorted_strings ids) costs consumer carm csrc retained accepted share
      (fingerprint_of [consumer] n [(consumer, cost)] false) answers answer p p1)
    as (records & p' & Hrun & Hsh); [done..|by rewrite Hcost|done|].
  rewrite Hrun. right. exists consumer, accepted. split; [by eauto|done].
Qed.

(** ** Policies reached from a new one *)

Inductive Op : Type :=
  | OpChoose (g : Goal) (s : Snapshot) (c : Catalog) (entropy : Z)
  | OpSettle (ids : list string) (f : list (string * list string)) (costs : list (string * Z)) (cens : bool)
  | OpRelate (ids : list string) (f : list (string * list string)) (costs : list (string * Z))
  | OpFinalize (id : string) (cost : Z).

Definition exec {hashlib : Hashlib} (o : Op) (p : Policy) : Policy :=
  match o with
  | OpChoose g s c entropy => (choose g s c entropy p).2
  | OpSettle ids f costs cens => (settle_group ids f costs cens p).2
  | OpRelate ids f costs => (settle_relation_group ids f costs p).2
  | OpFinalize id cost => (finalize_cost id cost p).2
  end.

(** The features are a [dict], and the digest of a new decision is not that of
    an earlier one. *)
Definition op_ok {hashlib : Hashlib} (p : Policy) (o : Op) : Prop :=
  match o with
  | OpChoose g s c entropy =>
      ∀ d, (choose g s c entropy p).1 = Ok d →
        pending p !! decision_id d = None ∧ settled p !! decision_id d = None
  | OpSettle _ f _ _ | OpRelate _ f _ => NoDup (od_keys f)
  | OpFinalize _ _ => True
  end.

Inductive reached {hashlib : Hashlib} (c : Config) : Policy → Prop :=
  | reached_new p : new_policy c = Ok p → reached c p
  | reached_step p o : reached c p → op_ok p o → reached c (exec o p).

(** The ways [choose] ends *)
Lemma choose_cases {hashlib : Hashlib} g s c entropy p :
  match choose g s c entropy p with
  | (Err _, p') => p' = p ∨ ∃ context, p' = (enter_context context p).2
  | (Ok d, p') => ∃ front context bucket p1 a reason,
      sequence p < max_decisions (config p) ∧ (size (pending p) < 128)%nat ∧
      frontier g s = Ok front ∧
      enter_context context p = (Ok bucket, p1) ∧
      select p1 c (goal_identity g) bucket (by_id (eligible c s)) front entropy = Ok (a, reason) ∧
      item (values a) ((entropy ≫ 32) `mod` Z.of_nat (length (values a))) = Ok (dec_value d) ∧
      d = mkDecision (sequence p) (goal_id g) context (action_id a) (dec_value d) reason entropy ∧
      p' = issue (decision_id d) (goal_identity g, bucket, action_id a) (source_id a) (catalog_identity c) p1
  end.
Proof.
  unfold choose. unfold_M. cbv zeta. change (id p) with p.
  destruct (max_decisions (config p) <=? sequence p) eqn:H1; [by left|].
  destruct (128 <=? size (pending p))%nat eqn:H2; [by left|]. cbn [orb raise_if].
  destruct (match catalog_seen p with Some i => _ | None => _ end); [by left|]. cbn [raise_if].
  destruct (bool_decide (by_id (eligible c s) = [])); [by left|]. cbn [raise_if].
  destruct (frontier g s) as [front|e] eqn:Hf; [|by left].
  destruct (context_key g s front _) as [context|e]; [|by left].
  destruct (enter_context context p) as [[bucket|e] p1] eqn:Hctx; [|right; exists context; by rewrite Hctx].
  destruct (select p1 c (goal_identity g) bucket _ front entropy) as [[a reason]|e] eqn:Hsel;
    [|right; exists context; by rewrite Hctx].
  destruct (item (values a) _) as [value|e] eqn:Hi; [|right; exists context; by rewrite Hctx].
  destruct (Decision_post_init _) as [d|e] eqn:Hd; [|right; exists context; by rewrite Hctx].
  apply Z.leb_gt in H1. apply Nat.leb_gt in H2.
  unfold Decision_post_init in Hd. inv_Ok.
  exists front, context, bucket, p1, a, reason. cbn. split_and!; [done..| |done].
  f_equal. unfold enter_context in Hctx. repeat case_match; by inv_Ok; simplify_eq.
Qed.

Lemma enter_context_ok context p : policy_ok p → policy_ok (enter_context context p).2.
Proof.
  intros Hok. unfold enter_context. case_bool_decide as Hin; [done|].
  destruct (max_contexts (config p) <=? Z.of_nat (size (contexts p))) eqn:Hm;
    destruct Hok as [? ? ? ? ? [] ?]; [by do 2 (split; try done)|].
  apply Z.leb_gt in Hm. split; cbn [snd config contexts set_contexts seen pending sequence]; try done.
  rewrite size_union by set_solver. rewrite size_singleton. lia.
Qed.

Lemma enter_context_same context p bucket p1 :
  enter_context context p = (Ok bucket, p1) →
  p1 = (enter_context context p).2 ∧ pending p1 = pending p ∧ settled p1 = settled p ∧
  sequence p1 = sequence p ∧ config p1 = config p.
Proof. intros Hc. rewrite Hc. unfold enter_context in Hc. repeat case_match; by simplify_eq. Qed.

Lemma issue_ok id arm source catalog p :
  policy_ok p → sequence p < max_decisions (config p) → (size (pending p) < 128)%nat →
  pending p !! id = None → settled p !! id = None →
  policy_ok (issue id arm source catalog p).
Proof.
  intros [Hcfg Hctx Hseen Hpend Hseq [Hw Hpa Hs Hd] Hg] Hlt Hsz Hp Hst. unfold issue.
  assert (Harms : ∀ k, is_Some (arms p !! k) → is_Some ((match arms p !! arm with
      Some _ => arms p | None => <[arm := []]> (arms p) end) !! k)).
  { intros k Hk. destruct (arms p !! arm); [done|]. rewrite lookup_insert_is_Some'. by right. }
  split; cbn; [done|done|done| |lia| |done].
  - rewrite map_size_insert, Hp. lia.
  - split; cbn.
    + destruct (arms p !! arm); [done|]. apply map_Forall_insert_2; [cbn; unfold WINDOW; lia|done].
    + intros k arm' source'. rewrite lookup_insert_Some. intros [[<- [= <- <-]]|[_ Hk]].
      * destruct (arms p !! arm) eqn:Ha; [by eauto|]. rewrite lookup_insert_eq. by eauto.
      * by eapply Harms, Hpa.
    + intros k Hk. destruct (Hs k Hk) as (a & s & ? & ?). exists a, s. auto.
    + intros k. rewrite lookup_insert_is_Some. intros [<-|[_ Hk]]; [done|by apply Hd].
Qed.

(** Removing pending decisions keeps their number in bounds. *)
Lemma pending_smaller p p' (removed : string → Prop) `{∀ k, stdpp.base.Decision (removed k)} :
  (∀ k, pending p' !! k = if decide (removed k) then None else pending p !! k) →
  (size (pending p') ≤ size (pending p))%nat.
Proof.
  intros Hp. apply map_subseteq_size. apply map_subseteq_spec. intros k a. rewrite Hp. by case_decide.
Qed.

Lemma settles_policy_ok ids costs accepted cens share fp answers p p' :
  settles ids costs accepted cens share fp answers p p' → policy_ok p → policy_ok p'.
Proof.
  intros [_ _ _ (S1 & S2 & S3) Hl (C1 & C2 & C3 & _) Hg Hleft _ _ _ _ _] Hok. split.
  - rewrite C1. apply Hok.
  - rewrite C1, C2. apply Hok.
  - by rewrite C1.
  - etrans; [by apply (pending_smaller p p' (λ k, k ∈ ids))|apply Hok].
  - rewrite C1, C3. apply Hok.
  - done.
  - rewrite Hg, (ok_gains _ Hok), <- Z2Qc_inj_add, S2. f_equal. lia.
Qed.

Lemma shared_ok consumer accepted p p' : shared consumer accepted p p' → policy_ok p → policy_ok p'.
Proof.
  intros (Hl & Hleft & S1 & S2 & S3 & C1 & C2 & C3 & Hg) Hok. split.
  - rewrite C1. apply Hok.
  - rewrite C1, C2. apply Hok.
  - by rewrite C1.
  - etrans; [by apply (pending_smaller p p' (λ k, k = consumer))|apply Hok].
  - rewrite C1, C3. apply Hok.
  - done.
  - rewrite Hg, (ok_gains _ Hok), <- Z2Qc_inj_add, S2. f_equal. lia.
Qed.

Lemma set_cost_length id cost rows : length (set_cost id cost rows) = length rows.
Proof. unfold set_cost. by rewrite length_fmap. Qed.

(** Only the cost changes. *)
Lemma finalize_ok id cost p : policy_ok p → policy_ok (finalize_cost id cost p).2.
Proof.
  intros Hok. unfold finalize_cost. unfold_M. destruct (raise_if _ _) as [[]|]; [|done].
  destruct (settled p !! id) as [[fp a]|] eqn:Hs; unfold_M;
    [|destruct Hok as [? ? ? ? ? [] ?]; by do 2 (split; try done)].
  destruct (raise_if _ _) as [[]|]; [|done]. unfold_M.
  destruct Hok as [Hcfg Hctx Hseen Hpend Hseq [Hw Hpa Hset Hd] Hg].
  split; cbn; [done..| |done]. split; cbn.
  - intros arm rows. rewrite lookup_fmap_Some. intros (rows0 & <- & Ha). rewrite set_cost_length. by apply (Hw arm).
  - intros k arm source Hk. rewrite lookup_fmap, fmap_is_Some. by eapply Hpa.
  - intros k. rewrite lookup_insert_is_Some. intros Hk.
    assert (is_Some (settled p !! k)) as Hk' by (destruct Hk as [<-|[_ Hk]]; [by rewrite Hs|done]).
    destruct (Hset k Hk') as (arm & source & ? & ?). exists arm, source. split; [done|].
    by rewrite lookup_fmap, fmap_is_Some.
  - intros k Hk. rewrite lookup_insert_ne; [by apply Hd|]. intros <-. rewrite (Hd _ Hk) in Hs. done.
Qed.

Lemma policy_exec_ok {hashlib : Hashlib} p o : op_ok p o → policy_ok p → policy_ok (exec o p).
Proof.
  intros Hop Hok. destruct o as [g s c entropy|ids f costs cens|ids f costs|id cost]; cbn [exec op_ok] in *.
  - pose proof (choose_cases g s c entropy p) as Hc.
    destruct (choose g s c entropy p) as [[d|e] p'] eqn:Hch; cbn.
    + destruct Hc as (front & context & bucket & p1 & a & reason & Hlt & Hsz & _ & Hctx & _ & _ & _ & ->).
      destruct (enter_context_same _ _ _ _ Hctx) as (E1 & E2 & E3 & E4 & E5).
      destruct (Hop d eq_refl) as [Hp Hs].
      apply issue_ok; rewrite ?E2, ?E3, ?E4, ?E5; try done. rewrite E1. by apply enter_context_ok.
    + destruct Hc as [->|[context ->]]; [done|by apply enter_context_ok].
  - pose proof (settle_group_cases ids f costs cens p (ok_links _ Hok) (ok_seen _ Hok) Hop) as Hc.
    destruct (settle_group ids f costs cens p) as [[answers|e] p']; cbn; [|by rewrite Hc].
    destruct Hc as (_ & _ & n & _ & [(-> & _)|(_ & accepted & share & Hst & _)]); [done|]. by eapply settles_policy_ok.
  - pose proof (relation_cases ids f costs p (ok_links _ Hok) (ok_seen _ Hok) Hop) as Hc.
    destruct (settle_relation_group ids f costs p) as [[[answers|records|]|e] p']; cbn; [| |by rewrite Hc..].
    + pose proof (settle_group_cases (sorted_strings ids) f costs false p (ok_links _ Hok) (ok_seen _ Hok) Hop) as Hg.
      rewrite Hc in Hg. destruct Hg as (_ & _ & n & _ & [(-> & _)|(_ & accepted & share & Hst & _)]); [done|].
      by eapply settles_policy_ok.
    + destruct Hc as [->|(consumer & accepted & _ & Hsh)]; [done|]. by eapply shared_ok.
  - by apply finalize_ok.
Qed.

Lemma reached_ok {hashlib : Hashlib} c p : reached c p → policy_ok p.
Proof.
  induction 1 as [p Hn|p o _ IH Hop]; [|by apply policy_exec_ok].
  unfold new_policy in Hn. inv_Ok.
  repeat match goal with H : (_ <=? _) = true |- _ => apply Z.leb_le in H end.
  split; cbn; try done; rewrite ?size_empty, ?map_size_empty; [unfold config_ok; lia|lia..| |].
  - split; cbn; [apply map_Forall_empty|..]; intros ?; by rewrite ?lookup_empty; intros [].
  - by apply Qc_is_canon.
Qed.

(** ** Invariants of every reached policy *)

Lemma exec_config {hashlib : Hashlib} p o : op_ok p o → policy_ok p → config (exec o p) = config p.
Proof.
  intros Hop Hok. destruct o as [g s c entropy|ids f costs cens|ids f costs|id cost]; cbn [exec op_ok] in *.
  - pose proof (choose_cases g s c entropy p) as Hc.
    assert (Hctx : ∀ context, config (enter_context context p).2 = config p)
      by (intros context; unfold enter_context; by repeat case_match).
    destruct (choose g s c entropy p) as [[d|e] p']; cbn; [|by destruct Hc as [->|[context ->]]].
    destruct Hc as (front & context & bucket & p1 & a & reason & _ & _ & _ & Hp1 & _ & _ & _ & ->).
    cbn. by destruct (enter_context_same _ _ _ _ Hp1) as (_ & _ & _ & _ & ?).
  - pose proof (settle_group_cases ids f costs cens p (ok_links _ Hok) (ok_seen _ Hok) Hop) as Hc.
    destruct (settle_group ids f costs cens p) as [[answers|e] p']; cbn; [|by rewrite Hc].
    destruct Hc as (_ & _ & n & _ & [(-> & _)|(_ & accepted & share & Hst & _)]); [done|]. apply Hst.
  - pose proof (relation_cases ids f costs p (ok_links _ Hok) (ok_seen _ Hok) Hop) as Hc.
    destruct (settle_relation_group ids f costs p) as [[[answers|records|]|e] p']; cbn; [| |by rewrite Hc..].
    + pose proof (settle_group_cases (sorted_strings ids) f costs false p (ok_links _ Hok) (ok_seen _ Hok) Hop) as Hg.
      rewrite Hc in Hg. destruct Hg as (_ & _ & n & _ & [(-> & _)|(_ & accepted & share & Hst & _)]); [done|].
      apply Hst.
    + destruct Hc as [->|(consumer & accepted & _ & Hsh)]; [done|]. apply Hsh.
  - unfold finalize_cost. unfold_M. destruct (raise_if _ _) as [[]|]; [|done].
    destruct (settled p !! id) as [[fp a]|]; unfold_M; [|done]. by destruct (raise_if _ _) as [[]|].
Qed.

Lemma reached_config {hashlib : Hashlib} c p : reached c p → config p = c.
Proof.
  induction 1 as [p Hn|p o Hr IH Hop]; [unfold new_policy in Hn; by inv_Ok|].
  rewrite exec_config; [done..|]. by eapply reached_ok.
Qed.

(** Whatever is chosen, settled, credited late or finalised, a policy stays
    in the bounds of its configuration: contexts, features and decisions within
    the configured limits (which the constructor caps), at most 128 decisions
    outstanding and at most 128 trials in the window of an arm. *)
Lemma policy_stays_bounded {hashlib : Hashlib} (c : Config) (p : Policy) :
  reached c p →
  Z.of_nat (size (contexts p)) ≤ max_contexts c ≤ 4096 ∧
  Z.of_nat (size (seen p)) ≤ max_features c ≤ 65536 ∧
  0 ≤ sequence p ≤ max_decisions c ∧ (size (pending p) ≤ 128)%nat ∧
  ∀ arm rows, arms p !! arm = Some rows → (length rows ≤ 128)%nat.
Proof.
  intros Hr. pose proof (reached_ok c p Hr) as [(H1 & H2 & H3) Hctx Hseen Hpend Hseq Hl _].
  rewrite (reached_config c p Hr) in *. split_and!; try lia. intros arm rows Ha. by apply (ok_window _ Hl arm).
Qed.

(** C25. The gains credited to the sources always add up to the number of
    features seen: a feature counts once however often it is reported, however
    many decisions share it, and when late credit moves part of it to another
    source. *)
Theorem gains_are_features {hashlib : Hashlib} (c : Config) (p : Policy) :
  reached c p → total_gains p = Qc_of_Z (Z.of_nat (size (seen p))).
Proof. intros Hr. apply ok_gains. by eapply reached_ok. Qed.

(** C26. A settlement that raises changes nothing, and neither does a relation
    settlement that raises or is declined: no feature is consumed, no decision
    leaves the pending ones, no row or gain is written.  In particular no
    internal lookup fails half-way. *)
Theorem settlement_is_atomic {hashlib : Hashlib} (c : Config) (p : Policy)
    (ids : list string) (f : list (string * list string)) (costs : list (string * Z)) (cens : bool) :
  reached c p → NoDup (od_keys f) →
  (∀ e p', settle_group ids f costs cens p = (Err e, p') → p' = p) ∧
  (∀ e p', settle_relation_group ids f costs p = (Err e, p') → p' = p) ∧
  (∀ p', settle_relation_group ids f costs p = (Ok NotRetained, p') → p' = p).
Proof.
  intros Hr Hf. pose proof (reached_ok c p Hr) as Hok.
  pose proof (settle_group_cases ids f costs cens p (ok_links _ Hok) (ok_seen _ Hok) Hf) as Hg.
  pose proof (relation_cases ids f costs p (ok_links _ Hok) (ok_seen _ Hok) Hf) as Hrel.
  split_and!.
  - intros e p' He. by rewrite He in Hg.
  - intros e p' He. by rewrite He in Hrel.
  - intros p' He. by rewrite He in Hrel.
Qed.

Lemma Forall2_sorted_answers (P : string → Answer → Prop) (m : gmap string (string * Answer)) fp ids answers :
  Forall2 (λ id a, m !! id = Some (fp, a) ∧ P id a) ids answers →
  omap (λ key, snd <$> m !! key) ids = answers ∧ ∀ id, id ∈ ids → fst <$> m !! id = Some fp.
Proof.
  induction 1 as [|id a ids answers [Hm _] _ [IH1 IH2]]; [split; [done|set_solver]|].
  split; [cbn; by rewrite Hm, <- IH1|].
  intros k [->|Hk]%elem_of_cons; [by rewrite Hm|by apply IH2].
Qed.

(** Settling is idempotent: after a settlement has been answered, the same
    request gets the same answers and changes nothing. *)
Lemma settlement_replays {hashlib : Hashlib} (c : Config) (p p' : Policy)
    (ids : list string) (f : list (string * list string)) (costs : list (string * Z)) (cens : bool)
    (answers : list Answer) :
  reached c p → NoDup (od_keys f) → settle_group ids f costs cens p = (Ok answers, p') →
  settle_group ids f costs cens p' = (Ok answers, p').
Proof.
  intros Hr Hf Hrun. pose proof (reached_ok c p Hr) as Hok.
  pose proof (settle_group_cases ids f costs cens p (ok_links _ Hok) (ok_seen _ Hok) Hf) as Hg.
  rewrite Hrun in Hg. destruct Hg as (Hv & Hc & n & Hn & [(-> & _)|(_ & accepted & share & Hst & _)]); [done|].
  destruct (Forall2_sorted_answers _ _ _ _ _ (st_answers _ _ _ _ _ _ _ _ _ Hst)) as [Hans Hall].
  destruct (st_same _ _ _ _ _ _ _ _ _ Hst) as (_ & _ & _ & Hfin & _).
  assert (Hc' : final_cost_conflict p' costs ids = false).
  { rewrite <- Hc. unfold final_cost_conflict. by rewrite Hfin. }
  unfold settle_group. unfold_M. cbv zeta. change (id p') with p'.
  rewrite Hv, Hc', Hn. cbn [negb raise_if]. fold (fingerprint_of ids n costs cens).
  destruct (st_ids _ _ _ _ _ _ _ _ _ Hst) as [_ Hne].
  destruct (existsb (λ key, bool_decide (is_Some (settled p' !! key))) (sorted_strings ids)) eqn:Hex.
  2: { exfalso. destruct (sorted_strings ids) as [|k ks]; [done|]. cbn in Hex.
       apply orb_false_iff in Hex as [Hk _]. apply bool_decide_eq_false in Hk. apply Hk.
       specialize (Hall k ltac:(left)). destruct (settled p' !! k); [by eauto|done]. }
  match goal with |- context [existsb ?h (sorted_strings ids)] =>
    assert (existsb h (sorted_strings ids) = false) as -> end.
  { apply existsb_elem. intros k Hk. apply negb_false_iff, bool_decide_eq_true. by apply Hall. }
  cbn [raise_if]. by rewrite Hans.
Qed.


(** ** Example: two sources, three actions *)

Module PolicyExample.
#[local] Existing Instance checksum_hashlib.

Definition goal : Goal :=
  mkGoal "wake" "seen" [mkCondition "seen" ["irq"; "poll"] "any"; mkCondition "irq" ["boot"] "effect";
                        mkCondition "poll" ["boot"] "effect"; mkCondition "boot" [] "effect"].
Definition booted : Snapshot := mkSnapshot 3 {["boot" := mkObservation "satisfied" "one" ["trace:7"] 3 ""]}.
Definition catalog : Catalog :=
  [mkAction "raise" "core" "write" ["irq"] ["boot"] [1; 2] "source";
   mkAction "load" "uart" "byte" ["poll"] [] [5] "source";
   mkAction "start" "uart" "byte" ["boot"] [] [7] "source"].
(** An epsilon of one tenth; room for two features. *)
Definition config : Config := mkConfig (quot_float 1 10) 16 64 3 "state".
Definition fresh : Policy :=
  match new_policy config with Ok p => p | Err _ => mkPolicy config ∅ ∅ ∅ ∅ ∅ ∅ ∅ ∅ 0 false false None ∅ ∅ ∅ end.
Definition entropy : Z := 2 ^ 127 + 2 ^ 63 + 5.

Definition chosen (p : Policy) : Policy := exec (OpChoose goal booted catalog entropy) p.
Definition id_of (p : Policy) : string :=
  match (choose goal booted catalog entropy p).1 with Ok d => decision_id d | Err _ => EmptyString end.

Definition two : Policy := chosen (chosen fresh).
Definition first_id : string := id_of fresh.
Definition second_id : string := id_of (chosen fresh).

Definition op_okb (p : Policy) (o : Op) : bool :=
  match o with
  | OpChoose g s c e =>
      match (choose g s c e p).1 with
      | Ok d => bool_decide (pending p !! decision_id d = None) && bool_decide (settled p !! decision_id d = None)
      | Err _ => true
      end
  | OpSettle _ f _ _ | OpRelate _ f _ => bool_decide (NoDup (od_keys f))
  | OpFinalize _ _ => true
  end.

Lemma op_okb_ok p o : op_okb p o = true → op_ok p o.
Proof.
  destruct o as [g s c e|? f ? ?|? f ?|]; cbn [op_okb op_ok]; [|by intros ?%bool_decide_eq_true_1..|done].
  intros Hb d Hd. rewrite Hd in Hb. by apply andb_true_iff in Hb as [?%bool_decide_eq_true_1 ?%bool_decide_eq_true_1].
Qed.

Lemma two_reached : reached config two.
Proof.
  apply reached_step; [apply reached_step; [apply reached_new; vm_compute; reflexivity|]|];
    apply op_okb_ok; vm_compute; reflexivity.
Qed.

(** The first decision settles; then a relation joins it with the second. *)
Definition features : list (string * list string) := [("coverage", ["x"]); ("relation", ["r"])].
Definition settled_first : Policy := exec (OpSettle [first_id] features [(first_id, 10)] false) two.
Definition related : Policy :=
  exec (OpRelate [first_id; second_id] [("relation", ["q"; "z"])] [(first_id, 10); (second_id, 7)]) settled_first.

Lemma related_reached : reached config related.
Proof.
  apply reached_step; [apply reached_step; [apply two_reached|]|]; apply op_okb_ok; vm_compute; reflexivity.
Qed.

(** The third feature fills the policy, the fourth is not consumed. *)
Example related_features : (size (seen related), features_saturated related) = (3%nat, true).
Proof. vm_compute. reflexivity. Qed.
Example related_gains :
  (source_gains related !! "core", source_gains related !! "uart") = (Some (Fraction 1 2), Some (Fraction 5 2)).
Proof. vm_compute. f_equal; f_equal; by apply Qc_is_canon. Qed.

Definition answers_of (r : result (list Answer) * Policy) : list Answer :=
  match r.1 with Ok l => l | Err _ => [] end.
Definition settling : result (list Answer) * Policy :=
  settle_group [first_id; second_id] features [(first_id, 10); (second_id, 7)] false two.

Lemma answered (r : result (list Answer) * Policy) : is_Ok r.1 = true → r = (Ok (answers_of r), r.2).
Proof. by destruct r as [[l|e] p]. Qed.
Lemma settling_answered : settling = (Ok (answers_of settling), settling.2).
Proof. apply answered. vm_compute. reflexivity. Qed.
Lemma features_dict : NoDup (od_keys features).
Proof. apply (bool_decide_unpack _). vm_compute. reflexivity. Qed.

Lemma policy_stays_bounded_witness :
  reached config related ∧
  Z.of_nat (size (contexts related)) ≤ max_contexts config ≤ 4096 ∧
  Z.of_nat (size (seen related)) ≤ max_features config ≤ 65536 ∧
  0 ≤ sequence related ≤ max_decisions config ∧ (size (pending related) ≤ 128)%nat ∧
  ∀ arm rows, arms related !! arm = Some rows → (length rows ≤ 128)%nat.
Proof. split; [apply related_reached|]. apply policy_stays_bounded. apply related_reached. Defined.

Lemma gains_are_features_witness :
  reached config related ∧ total_gains related = Qc_of_Z (Z.of_nat (size (seen related))).
Proof. split; [apply related_reached|]. apply (gains_are_features config). apply related_reached. Defined.

Lemma settlement_is_atomic_witness :
  reached config related ∧ NoDup (od_keys features) ∧
  (∀ e p', settle_group [first_id] features [(first_id, 11)] true related = (Err e, p') → p' = related) ∧
  (∀ e p', settle_relation_group [first_id] features [(first_id, 11)] related = (Err e, p') → p' = related) ∧
  (∀ p', settle_relation_group [first_id] features [(first_id, 11)] related = (Ok NotRetained, p') → p' = related).
Proof.
  split; [apply related_reached|]. split; [apply features_dict|].
  apply (settlement_is_atomic config); [apply related_reached|apply features_dict].
Defined.

Lemma settlement_replays_witness :
  reached config two ∧ NoDup (od_keys features) ∧ settling = (Ok (answers_of settling), settling.2) ∧
  settle_group [first_id; second_id] features [(first_id, 10); (second_id, 7)] false settling.2 =
    (Ok (answers_of settling), settling.2).
Proof.
  split; [apply two_reached|]. split; [apply features_dict|]. split; [apply settling_answered|].
  apply (settlement_replays config two); [apply two_reached|apply features_dict|apply settling_answered].
Defined.


End PolicyExample.
