(* ===== verification/PolicyChoice.v ===== *)
(** * What a choice of the search policy guarantees

    [choose_is_greedy]: in state mode a decision records its context and bucket,
    explores exactly when the draw of its entropy is below epsilon, and otherwise
    aims at the frontier, taking an untried action first and the best rate
    next.  [choose_answers]: with
    room for a decision and an eligible action there is always a decision, in
    every mode. *)

From S2P Require Import Prelude Json Genome GenomeCodec Goal GoalSpec Policy PolicySpec.
From Stdlib Require Import Floats.SpecFloat.
From Stdlib Require Import QArith Qcanon.

Local Open Scope Z_scope.

(** ** The choice *)

Lemma Qccompare_spec (a b : Qc) : CompareSpec (a = b) (a < b)%Qc (b < a)%Qc (a ?= b)%Qc.
Proof.
  destruct (a ?= b)%Qc eqn:H; constructor; [by apply Qceq_alt|by apply Qclt_alt|by apply Qcgt_alt].
Qed.
Lemma Qclt_irrefl (a : Qc) : ¬ (a < a)%Qc.
Proof. intros H. by apply Qclt_not_eq in H. Qed.

Lemma key_greater_spec k' k :
  if key_greater k' k then (k.1 < k'.1)%Qc ∨ (k.1 = k'.1 ∧ k.2 < k'.2)
  else (k'.1 < k.1)%Qc ∨ (k'.1 = k.1 ∧ k'.2 ≤ k.2).
Proof.
  unfold key_greater. destruct (Qccompare_spec k'.1 k.1) as [Heq|Hlt|Hlt]; [|by left..].
  destruct (k.2 <? k'.2) eqn:Hz; [apply Z.ltb_lt in Hz|apply Z.ltb_ge in Hz]; by right.
Qed.

Lemma key_greater_false k' k :
  key_greater k' k = false ↔ (k'.1 < k.1)%Qc ∨ (k'.1 = k.1 ∧ k'.2 ≤ k.2).
Proof.
  pose proof (key_greater_spec k' k) as Hs. split; [by intros Hf; rewrite Hf in Hs|].
  destruct (key_greater k' k); [|done]. intros Hf. exfalso.
  destruct Hs as [Hs|[Hs ?]], Hf as [Hf|[Hf ?]]; [|rewrite Hf in Hs|rewrite Hs in Hf|lia];
    [|by apply Qclt_irrefl in Hs|by apply Qclt_irrefl in Hf].
  eapply (Qclt_irrefl k.1). by eapply Qclt_trans.
Qed.

Lemma key_greater_trans k1 k2 k3 :
  key_greater k2 k1 = false → key_greater k3 k2 = false → key_greater k3 k1 = false.
Proof.
  rewrite !key_greater_false. intros [H1|[H1 ?]] [H2|[H2 ?]].
  - left. by eapply Qclt_trans.
  - left. by rewrite H2.
  - left. by rewrite <- H1.
  - right. split; [congruence|lia].
Qed.

Lemma key_greater_irrefl k : key_greater k k = false.
Proof. apply key_greater_false. right. split; [done|lia]. Qed.

Lemma key_greater_asym k k' : key_greater k' k = true → key_greater k k' = false.
Proof.
  intros Hk. pose proof (key_greater_spec k' k) as Hs. rewrite Hk in Hs. apply key_greater_false.
  destruct Hs as [|[? ?]]; [by left|right; split; [done|lia]].
Qed.

(** [max] returns an element whose key no other exceeds. *)
Lemma max_by_spec {A} (key : A → Qc * Z) best l :
  max_by key best l ∈ best :: l ∧
  ∀ x, x ∈ best :: l → key_greater (key x) (key (max_by key best l)) = false.
Proof.
  unfold max_by. revert best. induction l as [|a l IH]; intros best; cbn [foldl].
  { split; [left|]. intros x ->%list_elem_of_singleton. apply key_greater_irrefl. }
  destruct (key_greater (key a) (key best)) eqn:Hk.
  - destruct (IH a) as [Hin Hall]. split; [by right|]. intros x [->|Hx]%elem_of_cons; [|by apply Hall].
    eapply (key_greater_trans _ (key a)); [apply Hall; left|by apply key_greater_asym].
  - destruct (IH best) as [Hin Hall]. split.
    + apply elem_of_cons in Hin as [->|]; [left|by do 2 right].
    + intros x [->|[->|Hx]%elem_of_cons]%elem_of_cons; [apply Hall; left| |apply Hall; by right].
      eapply (key_greater_trans _ (key best)); [apply Hall; left|done].
Qed.

#[local] Instance action_le_total : Total action_le.
Proof. intros a b. unfold action_le. apply (stdpp.base.total str_le). Qed.
#[local] Instance action_le_trans : Transitive action_le.
Proof. intros a b c. unfold action_le. apply transitivity. Qed.

Lemma by_id_elem l a : a ∈ by_id l ↔ a ∈ l.
Proof. unfold by_id. by rewrite merge_sort_Permutation. Qed.

Lemma StronglySorted_filter {A} (R : relation A) (P : A → Prop) `{∀ x, stdpp.base.Decision (P x)} (l : list A) :
  StronglySorted R l → StronglySorted R (filter P l).
Proof.
  induction 1 as [|x l Hl IH Hx]; [constructor|]. rewrite filter_cons. case_decide; [|done].
  constructor; [done|]. apply Forall_forall. intros y [_ Hy]%list_elem_of_filter.
  rewrite Forall_forall in Hx. by apply Hx.
Qed.

Lemma StronglySorted_before {A} (R : relation A) `{!Reflexive R} l i j (x y : A) :
  StronglySorted R l → l !! i = Some x → l !! j = Some y → (i ≤ j)%nat → R x y.
Proof.
  intros Hl Hi Hj Hij. destruct (decide (i = j)) as [->|Hne]; [by simplify_eq|].
  eapply sorted_lookup; [done..|lia].
Qed.

Lemma index_of_lookup {A} `{EqDecision A} (l : list A) a :
  a ∈ l → ∃ i, index_of l a = Z.of_nat i ∧ l !! i = Some a.
Proof.
  intros Ha. unfold index_of. destruct (list_find (λ b, b = a) l) as [[i b]|] eqn:Hf.
  - apply list_find_Some in Hf as (Hi & -> & _). by exists i.
  - exfalso. eapply list_find_None in Hf. rewrite Forall_forall in Hf. by apply (Hf a).
Qed.

(** The last branch of [choose], over a pool in the order of the names *)
Lemma choose_state_spec p goal bucket pool a :
  StronglySorted action_le pool → choose_state p goal bucket pool = Ok a →
  a ∈ pool ∧
  let untried b := arms p !! (goal, bucket, action_id b) = None in
  let rate_of b := rate (arms p) (goal, bucket, action_id b) in
  (untried a ∧ ∀ b, b ∈ pool → untried b → str_le (action_id a) (action_id b)) ∨
  (∀ b, b ∈ pool → ¬ untried b ∧ (rate_of b ≤ rate_of a)%Qc ∧
     (rate_of b = rate_of a → str_le (action_id a) (action_id b))).
Proof.
  intros Hs. unfold choose_state.
  destruct (filter _ pool) as [|u us] eqn:Hf.
  - assert (Hall : ∀ b, b ∈ pool → arms p !! (goal, bucket, action_id b) ≠ None).
    { intros b Hb Hn. assert (b ∈ filter (λ a, arms p !! (goal, bucket, action_id a) = None) pool) as Hin
        by (by apply list_elem_of_filter). rewrite Hf in Hin. by apply not_elem_of_nil in Hin. }
    destruct pool as [|x rest] eqn:Hpool; [done|]. rewrite <- Hpool in *. intros [= <-].
    destruct (max_by_spec (λ a, (rate (arms p) (goal, bucket, action_id a), - index_of pool a)) x rest)
      as [Hin Hmax]. rewrite <- Hpool in Hin, Hmax.
    set (m := max_by _ x rest) in *. split; [done|]. right. intros b Hb. split; [by apply Hall|].
    specialize (Hmax b Hb). apply key_greater_false in Hmax. cbn [fst snd] in Hmax.
    destruct Hmax as [Hlt|[Heq Hmax]]; [split|].
    + by apply Qclt_le_weak.
    + intros Heq. rewrite Heq in Hlt. by apply Qclt_irrefl in Hlt.
    + split; [rewrite Heq; apply Qcle_refl|]. intros _.
      destruct (index_of_lookup pool m Hin) as (i & Hii & Hi).
      destruct (index_of_lookup pool b Hb) as (j & Hjj & Hj).
      assert (Reflexive action_le) by (intros y; by destruct (stdpp.base.total action_le y y)).
      by eapply (StronglySorted_before action_le pool i j); [..|lia].
  - intros [= <-].
    assert (Hu : u ∈ filter (λ a, arms p !! (goal, bucket, action_id a) = None) pool) by (rewrite Hf; left).
    pose proof (StronglySorted_filter action_le (λ a, arms p !! (goal, bucket, action_id a) = None) pool Hs) as Hsf.
    rewrite Hf in Hsf. apply list_elem_of_filter in Hu as [Hun Hu]. split; [done|]. left. split; [done|].
    intros b Hb Hbn. assert (b ∈ u :: us) as [->|Hbu]%elem_of_cons by (rewrite <- Hf; by apply list_elem_of_filter).
    + by destruct (stdpp.base.total str_le (action_id u) (action_id u)).
    + inversion Hsf as [|? ? _ Hhd]; subst. rewrite Forall_forall in Hhd. by apply Hhd.
Qed.

(** The action aims at the frontier. *)
Definition aims (front : list string) (a : Action) : Prop := ∃ effect, effect ∈ produces a ∧ effect ∈ front.
(** What [choose] picks from: the eligible actions, those that aim at the
    frontier if any does *)
Definition in_pool (c : Catalog) (s : Snapshot) (front : list string) (a : Action) : Prop :=
  a ∈ eligible c s ∧ ((∃ b, b ∈ eligible c s ∧ aims front b) → aims front a).

Definition focused_pool (front : list string) (l : list Action) : list Action :=
  let focused := filter (λ a, Exists (λ effect, effect ∈ front) (produces a)) l in
  match focused with [] => l | _ => focused end.

Lemma focused_pool_elem c s front a :
  a ∈ focused_pool front (by_id (eligible c s)) ↔ in_pool c s front a.
Proof.
  unfold focused_pool, in_pool. cbv zeta.
  assert (Hin : ∀ b, b ∈ filter (λ a, Exists (λ effect, effect ∈ front) (produces a)) (by_id (eligible c s)) ↔
    b ∈ eligible c s ∧ aims front b).
  { intros b. rewrite list_elem_of_filter, by_id_elem, Exists_exists. unfold aims. naive_solver. }
  destruct (filter _ (by_id (eligible c s))) as [|u us].
  - rewrite by_id_elem. split; [|by intros []]. intros Ha. split; [done|].
    intros (b & Hb). apply Hin in Hb. by apply not_elem_of_nil in Hb.
  - rewrite Hin. split; [naive_solver|]. intros [Ha Hf]. split; [done|]. apply Hf. exists u. apply Hin. left.
Qed.

Lemma focused_pool_sorted front l :
  StronglySorted action_le (focused_pool front (by_id l)).
Proof.
  assert (Hs : StronglySorted action_le (by_id l)) by (apply Sorted_StronglySorted; [apply _|apply Sorted_merge_sort, _]).
  unfold focused_pool. cbv zeta. pose proof (StronglySorted_filter action_le
    (λ a, Exists (λ effect, effect ∈ front) (produces a)) _ Hs) as Hf.
  by destruct (filter _ (by_id l)).
Qed.

Lemma item_elem {A} (l : list A) i x : item l i = Ok x → x ∈ l.
Proof.
  unfold item. destruct (l !! Z.to_nat i) as [y|] eqn:Hi; [|done]. intros [= <-]. by eapply list_elem_of_lookup_2.
Qed.

Lemma enter_context_arms context p bucket p1 :
  enter_context context p = (Ok bucket, p1) → arms p1 = arms p.
Proof. unfold enter_context. intros Hc. repeat case_match; by simplify_eq. Qed.

Lemma choose_context {hashlib : Hashlib} g s c entropy p d p' front :
  choose g s c entropy p = (Ok d, p') → frontier g s = Ok front →
  context_key g s front (action_id <$> by_id (eligible c s)) = Ok (dec_context d).
Proof.
  intros Hch Hf. unfold choose in Hch. revert Hch. unfold_M. cbv zeta. change (id p) with p. rewrite Hf.
  destruct (raise_if (_ || _) _); [|done]. destruct (raise_if (match catalog_seen p with Some i => _ | None => _ end) _); [|done].
  destruct (raise_if _ _); [|done].
  destruct (context_key g s front _) as [context|]; [|done].
  destruct (enter_context context p) as [[bucket|] p1]; [|done].
  destruct (select _ _ _ _ _ _ _) as [[x reason]|]; [|done]. destruct (item _ _) as [v|]; [|done].
  destruct (Decision_post_init _) as [d'|] eqn:Hd; [|done]. intros [= <- _]. unfold Decision_post_init in Hd. inv_Ok. done.
Qed.

(** The bucket of a context: the context itself if it is known or there is room
    for one more *)
Definition bucket_of (p : Policy) (context : string) : string :=
  if decide (context ∈ contexts p ∨ Z.of_nat (size (contexts p)) < max_contexts (config p))
  then context else "overflow".

Lemma enter_context_bucket context p bucket p1 :
  enter_context context p = (Ok bucket, p1) → bucket = bucket_of p context.
Proof.
  unfold enter_context, bucket_of. intros Hc. repeat case_bool_decide; [by rewrite decide_True by auto; simplify_eq|].
  destruct (Z.leb_spec (max_contexts (config p)) (Z.of_nat (size (contexts p)))).
  - rewrite decide_False by (intros [?|?]; [done|lia]). by simplify_eq.
  - rewrite decide_True by auto. by simplify_eq.
Qed.

(** The drawn bits ask for exploration: their low half, as a fraction of 2^64,
    is below epsilon. *)
Definition explores (p : Policy) (entropy : Z) : bool :=
  SFltb (quot_float (entropy `mod` 2 ^ 64) (2 ^ 64)) (epsilon (config p)).

(** [a] is the greedy choice from the pool: the first untried action by name, or
    one of the best rate, the first by name among equals. *)
Definition greedy (p : Policy) (pool : Action → Prop) (arm : Action → Arm) (a : Action) : Prop :=
  (arms p !! arm a = None ∧
   ∀ b, pool b → arms p !! arm b = None → str_le (action_id a) (action_id b)) ∨
  (∀ b, pool b → arms p !! arm b ≠ None ∧ (rate (arms p) (arm b) ≤ rate (arms p) (arm a))%Qc ∧
     (rate (arms p) (arm b) = rate (arms p) (arm a) → str_le (action_id a) (action_id b))).

#[export] Instance aims_dec front a : stdpp.base.Decision (aims front a).
Proof.
  refine (cast_if (decide (Exists (λ effect, effect ∈ front) (produces a)))); abstract (rewrite Exists_exists in *; naive_solver).
Defined.

Lemma focused_reason front l :
  match filter (λ a, Exists (λ effect, effect ∈ front) (produces a)) l with [] => "fallback" | _ => "frontier" end =
    if bool_decide (Exists (aims front) l) then "frontier" else "fallback".
Proof.
  destruct (filter _ l) as [|u us] eqn:Hf.
  - rewrite bool_decide_false; [done|]. intros (a & Ha & e & He & Hfr)%Exists_exists.
    assert (a ∈ filter (λ a, Exists (λ effect, effect ∈ front) (produces a)) l) as Hin
      by (apply list_elem_of_filter; split; [apply Exists_exists; by exists e|done]).
    rewrite Hf in Hin. by apply not_elem_of_nil in Hin.
  - rewrite bool_decide_true; [done|]. apply Exists_exists. exists u.
    assert (u ∈ filter (λ a, Exists (λ effect, effect ∈ front) (produces a)) l) as Hin by (rewrite Hf; left).
    apply list_elem_of_filter in Hin as [(e & He & Hfr)%Exists_exists ?]. split; [done|by exists e].
Qed.

Lemma item_lookup {A} (l : list A) i x : item l i = Ok x → l !! Z.to_nat i = Some x.
Proof. unfold item. destruct (l !! Z.to_nat i); [by intros [= <-]|done]. Qed.
Lemma eligible_inv c s a : a ∈ eligible c s → a ∈ c ∧ ∀ key, key ∈ requires a → status_of (get s key) = "satisfied".
Proof. intros [Hr Ha]%list_elem_of_filter. rewrite Forall_forall in Hr. done. Qed.
Lemma low_bits_mod entropy : low_bits entropy = entropy `mod` 2 ^ 64.
Proof. apply (Z.land_ones entropy 64). lia. Qed.

(** C27. What [choose] decides in state mode.  The action is declared, all it
    requires is observed to hold, and its value is the one of the action's that
    bits 32 and up of the entropy select; the decision carries the context of the
    goal, the observations, the frontier and the eligible actions.  If the low 64
    bits, as a fraction, are below epsilon, the action is the eligible one, in the
    order of the names, that the high bits select, and the reason is [explore].
    Otherwise the action is greedy in the context's bucket, which is the context
    itself if it is known or there is room for it and [overflow] if not: it aims at
    the frontier if any eligible action does (the reason says which), and among
    those it is the first untried one by name, or, once all have been tried in
    the bucket, one with the greatest reward per cost, the first by name among
    equals. *)
Theorem choose_is_greedy {hashlib : Hashlib} (g : Goal) (s : Snapshot) (c : Catalog) (entropy : Z)
    (p p' : Policy) (d : Decision) :
  policy_mode (config p) = "state" → choose g s c entropy p = (Ok d, p') →
  let actions := by_id (eligible c s) in
  ∃ front a, frontier g s = Ok front ∧
    a ∈ c ∧ (∀ key, key ∈ requires a → status_of (get s key) = "satisfied") ∧
    context_key g s front (action_id <$> actions) = Ok (dec_context d) ∧
    d = mkDecision (sequence p) (goal_id g) (dec_context d) (action_id a) (dec_value d) (dec_reason d) entropy ∧
    values a !! Z.to_nat ((entropy ≫ 32) `mod` Z.of_nat (length (values a))) = Some (dec_value d) ∧
    if explores p entropy then
      dec_reason d = "explore" ∧
      actions !! Z.to_nat ((entropy ≫ 64) `mod` Z.of_nat (length actions)) = Some a
    else
      dec_reason d = (if bool_decide (Exists (aims front) actions) then "frontier" else "fallback") ∧
      in_pool c s front a ∧
      greedy p (in_pool c s front) (λ b, (goal_identity g, bucket_of p (dec_context d), action_id b)) a.
Proof.
  intros Hmode Hch actions. pose proof (choose_cases g s c entropy p) as Hc. rewrite Hch in Hc.
  destruct Hc as (front & context & bucket & p1 & a & reason & _ & _ & Hf & Hctx & Hsel & Hv & Hd & _).
  destruct (enter_context_same _ _ _ _ Hctx) as (_ & _ & _ & _ & Hcfg).
  pose proof (enter_context_arms _ _ _ _ Hctx) as Harms. pose proof (enter_context_bucket _ _ _ _ Hctx) as ->.
  pose proof (choose_context _ _ _ _ _ _ _ _ Hch Hf) as Hkey.
  assert (Hdc : dec_context d = context) by (by rewrite Hd). assert (Hdr : dec_reason d = reason) by (by rewrite Hd).
  rewrite Hdc in Hkey |- *. rewrite Hdr. clear Hdr.
  exists front, a. split; [done|].
  apply item_lookup in Hv. unfold select in Hsel. rewrite Hcfg, Hmode in Hsel. cbn beta zeta in Hsel.
  rewrite !bool_decide_false in Hsel by discriminate. rewrite low_bits_mod in Hsel. change (1 ≪ 64) with (2 ^ 64) in Hsel. fold (explores p entropy) in Hsel.
  change (match filter _ (by_id (eligible c s)) with [] => by_id (eligible c s) | _ :: _ => _ end)
    with (focused_pool front (by_id (eligible c s))) in Hsel.
  assert (Hsame : d = mkDecision (sequence p) (goal_id g) context (action_id a) (dec_value d) reason entropy) by done.
  destruct (explores p entropy); apply bind_Ok in Hsel as (x & Hx & [= <- <-]).
  - pose proof (item_elem _ _ _ Hx) as Hin. rewrite by_id_elem in Hin. apply item_lookup in Hx.
    apply eligible_inv in Hin as [??]. by split_and!.
  - rewrite focused_reason. rewrite focused_reason in Hsame. apply choose_state_spec in Hx as [Hx Hspec]; [|apply focused_pool_sorted].
    rewrite Harms in Hspec. apply focused_pool_elem in Hx. pose proof (proj1 Hx) as [??]%eligible_inv.
    split_and!; try done. unfold greedy. setoid_rewrite <- focused_pool_elem. exact Hspec.
Qed.

(** ** A choice is always answered *)

Lemma relevant_total ns fuel seen key :
  closed_graph ns → deep (edge ns) fuel key → key ∈ od_keys ns → ∃ seen', relevant ns fuel seen key = Ok seen'.
Proof.
  intros Hcl. revert seen key. induction fuel as [|fuel IH]; intros seen key Hd Hk; [done|].
  cbn [relevant]. case_bool_decide; [by eexists|].
  destruct (node_present ns key Hk) as [c Hc]. rewrite Hc.
  assert (Hps : ∀ y, y ∈ prerequisites c → edge ns key y) by (intros y Hy; by exists c).
  generalize ({[key]} ∪ seen). clear Hc. revert Hps.
  induction (prerequisites c) as [|y ys IHy]; intros Hps seen1; cbn [fold_result]; [by eexists|].
  destruct (IH seen1 y) as [s2 ->]; [apply Hd, Hps; left|eapply Hcl, Hps; left|].
  cbn [mbind result_bind]. apply IHy. intros z Hz. apply Hps. by right.
Qed.

(** Digests are identifiers: nothing to strip, sixty-four characters. *)
Lemma prefix_head c w v : String.prefix (String c w) v = true → ∃ v', v = String c v'.
Proof.
  destruct v as [|c' v']; [done|]. cbn. destruct (Ascii.ascii_dec c c') as [->|]; [by eexists|done].
Qed.

Lemma all_chars_rev p s : all_chars p s = true → all_chars p (String.rev s) = true.
Proof.
  unfold String.rev. assert (Hgo : ∀ acc, all_chars p s = true → all_chars p acc = true →
    all_chars p (String.rev_app s acc) = true).
  { induction s as [|c s IH]; intros acc; [done|]. cbn [all_chars String.rev_app].
    intros [Hc Hs]%andb_true_iff Hacc. apply IH; [done|]. cbn [all_chars]. by rewrite Hc. }
  intros Hs. by apply Hgo.
Qed.

Definition hex_headed (w : string) : bool := match w with String c _ => lower_hex c | EmptyString => true end.

Lemma not_hex_headed w v : hex_headed w = false → all_chars lower_hex v = true → String.prefix w v = false.
Proof.
  intros Hw Hv. destruct w as [|c w]; [done|]. apply not_true_is_false.
  intros (v' & ->)%prefix_head. cbn in *. rewrite Hw in Hv. done.
Qed.

Lemma hex_stripped v : all_chars lower_hex v = true → is_stripped v = true.
Proof.
  intros Hv. unfold is_stripped. apply forallb_elem. intros w Hw.
  assert (Hh : forallb (λ w, negb (hex_headed w) && negb (hex_headed (String.rev w))) SPACES = true)
    by (vm_compute; reflexivity).
  rewrite (proj1 (forallb_elem _ _)) in Hh. specialize (Hh w Hw).
  apply andb_true_iff in Hh as [H1%negb_true_iff H2%negb_true_iff].
  rewrite (not_hex_headed w v), (not_hex_headed (String.rev w) (String.rev v)) by (try done; by apply all_chars_rev).
  done.
Qed.

Lemma chars_length v : chars v ≤ Z.of_nat (String.length v).
Proof. induction v as [|c v IH]; cbn -[Z.of_nat]; [lia|]. destruct (_ && _); lia. Qed.

Lemma hexdigest_identifier {hashlib : Hashlib} s : identifier (hexdigest s) = Ok ().
Proof.
  destruct (hexdigest_text s) as [Hl Hc]. unfold identifier, strlen in *.
  rewrite hex_stripped by done. pose proof (chars_length (hexdigest s)).
  rewrite bool_decide_false by (intros Hs; by rewrite Hs in Hl).
  rewrite (proj2 (Z.ltb_ge 256 (chars (hexdigest s)))) by lia. done.
Qed.

Lemma item_mod {A} (l : list A) n : l ≠ [] → ∃ x, item l (n `mod` Z.of_nat (length l)) = Ok x.
Proof.
  intros Hl. unfold item. assert (0 < Z.of_nat (length l)) by (destruct l; [done|cbn; lia]).
  pose proof (Z.mod_pos_bound n (Z.of_nat (length l))).
  destruct (lookup_lt_is_Some_2 l (Z.to_nat (n `mod` Z.of_nat (length l)))) as [x Hx]; [lia|].
  rewrite Hx. by exists x.
Qed.

Lemma draw_source_elem ws draw last :
  ws ≠ [] → draw_source ws draw last ∈ ws.*1.
Proof.
  revert draw last. induction ws as [|[src w] ws IH]; intros draw last Hne; [done|]. cbn [draw_source fmap list_fmap fst].
  destruct (draw <? w); [left|]. destruct ws as [|w2 ws]; [left|]. right. by apply IH.
Qed.

Lemma choose_legacy_total p c l entropy : l ≠ [] → ∃ a, choose_legacy p c l entropy = Ok a.
Proof.
  intros Hl. unfold choose_legacy. cbv zeta. apply item_mod.
  set (src := draw_source _ _ _). assert (Hs : src ∈ source_ids l).
  { assert (Hne : ((λ source, (source, legacy_weight p c source)) <$> source_ids l) ≠ []).
    { destruct l as [|a l]; [done|]. intros Hn%fmap_nil_inv.
      assert (source_id a ∈ source_ids (a :: l)) as Hin by (apply sorted_set_elem; set_solver).
      rewrite Hn in Hin. by apply not_elem_of_nil in Hin. }
    eapply draw_source_elem in Hne. fold src in Hne. rewrite <- list_fmap_compose in Hne.
    by rewrite list_fmap_id in Hne. }
  apply sorted_set_elem in Hs. apply elem_of_list_to_set, list_elem_of_fmap in Hs as (a & -> & Ha).
  intros Hn. assert (a ∈ filter (λ b, source_id b = source_id a) l) as Hin by (by apply list_elem_of_filter).
  rewrite Hn in Hin. by apply not_elem_of_nil in Hin.
Qed.

Lemma select_total p c goal bucket l front entropy :
  l ≠ [] → (∀ a, a ∈ l → identifier (action_id a) = Ok ()) →
  ∃ a reason, select p c goal bucket l front entropy = Ok (a, reason) ∧ a ∈ l ∧ identifier reason = Ok ().
Proof.
  intros Hl Hid. unfold select. cbv zeta.
  destruct (item_mod l (high_bits entropy) Hl) as [x Hx]. pose proof (item_elem _ _ _ Hx) as Hin.
  case_bool_decide; [rewrite Hx; cbn; eexists _, _; split_and!; [done|done|vm_compute; reflexivity]|].
  case_bool_decide.
  { destruct (choose_legacy_total p c l entropy Hl) as [a Ha]. rewrite Ha. cbn.
    eexists _, _. split_and!; [done| |vm_compute; reflexivity]. unfold choose_legacy in Ha.
    apply item_elem in Ha. by apply list_elem_of_filter in Ha as [_ ?]. }
  destruct (SFltb _ _); [rewrite Hx; cbn; eexists _, _; split_and!; [done|done|vm_compute; reflexivity]|].
  change (match filter _ l with [] => l | _ :: _ => _ end) with (focused_pool front l).
  assert (Hsub : ∀ b, b ∈ focused_pool front l → b ∈ l).
  { unfold focused_pool. cbv zeta. intros b. destruct (filter _ l) as [|u us] eqn:Hf; [done|].
    rewrite <- Hf. by intros [_ ?]%list_elem_of_filter. }
  assert (Hne : focused_pool front l ≠ []).
  { unfold focused_pool. cbv zeta. by destruct (filter _ l). }
  assert (∃ a, choose_state p goal bucket (focused_pool front l) = Ok a ∧ a ∈ focused_pool front l) as (a & -> & Ha).
  { unfold choose_state. destruct (filter _ (focused_pool front l)) as [|u us] eqn:Hf.
    - destruct (focused_pool front l) as [|y ys]; [done|]. eexists. split; [done|]. apply max_by_spec.
    - eexists. split; [done|]. assert (u ∈ filter (λ a, arms p !! (goal, bucket, action_id a) = None)
        (focused_pool front l)) as [_ ?]%list_elem_of_filter by (rewrite Hf; left). done. }
  cbn. eexists _, _. split_and!; [done|by apply Hsub|]. by destruct (filter _ l); vm_compute.
Qed.

Lemma action_fields a :
  Action_post_init a = Ok a →
  identifier (action_id a) = Ok () ∧ values a ≠ [] ∧ ∀ v, v ∈ values a → 0 ≤ v < 2 ^ 32.
Proof.
  intros Ha. unfold Action_post_init in Ha. cbn -[Nat.leb] in Ha. inv_Ok. split_and!; [done|by destruct (values a)|].
  intros v Hv. match goal with H : existsb _ (values a) = false |- _ => pose proof (existsb_false _ _ H v Hv) as Hr end.
  apply negb_false_iff, andb_true_iff in Hr as [?%Z.leb_le ?%Z.ltb_lt]. done.
Qed.

Lemma decision_accepted n goal context action v reason entropy :
  0 ≤ n → identifier goal = Ok () → identifier context = Ok () → identifier action = Ok () →
  identifier reason = Ok () → 0 ≤ v < 2 ^ 32 → 0 ≤ entropy < 2 ^ 128 →
  Decision_post_init (mkDecision n goal context action v reason entropy) =
    Ok (mkDecision n goal context action v reason entropy).
Proof.
  intros Hn Hg Hc Ha Hr Hv He. unfold Decision_post_init.
  change (1 ≪ 32) with (2 ^ 32). change (1 ≪ 128) with (2 ^ 128). unfold natural.
  cbn -[Z.pow Z.ltb Z.leb]. rewrite (proj2 (Z.ltb_ge n 0)) by lia.
  cbn -[Z.pow Z.ltb Z.leb]. rewrite Hg, Hc, Hr, Ha. cbn -[Z.pow Z.ltb Z.leb].
  rewrite (proj2 (Z.leb_le 0 v)), (proj2 (Z.ltb_lt v (2 ^ 32))) by lia.
  rewrite (proj2 (Z.leb_le 0 entropy)), (proj2 (Z.ltb_lt entropy (2 ^ 128))) by lia. done.
Qed.

(** A choice is always answered.  For an accepted goal, a catalog of
    accepted actions and 128 drawn bits, while the policy has room for a
    decision, has seen no other catalog, and some action is eligible, [choose]
    returns a decision, in every mode; it never indexes an empty choice. *)
Lemma choose_answers {hashlib : Hashlib} (g : Goal) (s : Snapshot) (c : Catalog) (entropy : Z) (p : Policy) :
  Goal_post_init g = Ok g → Forall (λ a, Action_post_init a = Ok a) c →
  0 ≤ entropy < 2 ^ 128 → 0 ≤ sequence p < max_decisions (config p) → (size (pending p) < 128)%nat →
  catalog_seen p = None ∨ catalog_seen p = Some (catalog_identity c) → eligible c s ≠ [] →
  ∃ d p', choose g s c entropy p = (Ok d, p').
Proof.
  intros Hg Hacts Hent Hseq Hpend Hcat Hel.
  pose proof (Goal_post_init_cases g) as Hok. rewrite Hg in Hok. destruct Hok as [_ Hok].
  pose proof Hok as [(Hgid & _ & _ & _ & Hroot) _].
  destruct (goal_ok_nodes g Hok) as (Hnd & Hcl & Hac).
  assert (Hby : by_id (eligible c s) ≠ []).
  { destruct (eligible c s) as [|a l] eqn:Hl; [done|]. intros Hn.
    assert (a ∈ by_id (a :: l)) as Hin by (apply by_id_elem; left). rewrite Hn in Hin.
    by apply not_elem_of_nil in Hin. }
  assert (Hin : ∀ a, a ∈ by_id (eligible c s) → Action_post_init a = Ok a).
  { intros a. rewrite by_id_elem. unfold eligible. intros [_ Ha]%list_elem_of_filter.
    rewrite Forall_forall in Hacts. by apply Hacts. }
  destruct (frontier_run g s Hok) as (front & Hfront & _).
  destruct (relevant_total (nodes g) (S (length (nodes g))) ∅ (root g)) as [rel Hrel];
    [done|by apply deep_node; rewrite ?nodes_keys|by rewrite nodes_keys|].
  unfold choose. unfold_M. cbv zeta. change (id p) with p.
  rewrite (proj2 (Z.leb_gt _ _)) by lia. rewrite (proj2 (Nat.leb_gt _ _)) by lia. cbn [orb raise_if].
  assert (match catalog_seen p with Some i => negb (bool_decide (i = catalog_identity c)) | None => false end
          = false) as ->.
  { destruct Hcat as [->| ->]; [done|]. by rewrite bool_decide_true. }
  cbn [raise_if]. rewrite (bool_decide_false (by_id (eligible c s) = [])) by done. cbn [raise_if].
  rewrite Hfront. unfold context_key. rewrite Hrel. cbn [mbind result_bind mret result_ret].
  match goal with |- context [enter_context ?x p] => set (context := x) end.
  assert (Hctx : identifier context = Ok ()) by apply hexdigest_identifier.
  destruct (enter_context context p) as [[bucket|e] p1] eqn:Hp1;
    [|unfold enter_context in Hp1; by repeat case_match].
  destruct (enter_context_same _ _ _ _ Hp1) as (_ & _ & _ & Hs1 & _).
  destruct (select_total p1 c (goal_identity g) bucket (by_id (eligible c s)) front entropy Hby)
    as (a & reason & -> & Ha & Hreason).
  { intros a Ha%Hin. by apply action_fields. }
  apply Hin in Ha. destruct (action_fields a Ha) as (Hname & Hvs & Hrange).
  destruct (item_mod (values a) (entropy ≫ 32) Hvs) as [v Hv]. rewrite Hv.
  apply item_elem in Hv. rewrite decision_accepted; [by do 2 eexists|lia|done|done|done|done|by apply Hrange|done].
Qed.

Module ChoiceExample.
Import PolicyExample.
#[local] Existing Instance checksum_hashlib.

Definition run : result Decision * Policy := choose goal booted catalog entropy related.
Definition no_decision : Policy.Decision := mkDecision 0 "" "" "" 0 "" 0.
Definition decided (r : result Policy.Decision) : Policy.Decision :=
  match r with Ok d => d | Err _ => no_decision end.
Definition decision : Policy.Decision := decided run.1.

Lemma run_decides : run = (Ok decision, run.2).
Proof.
  unfold decision, decided. assert (Hd : is_Ok run.1 = true) by (vm_compute; reflexivity).
  by destruct run as [[d|e] p'].
Qed.

(** Both actions that aim at the frontier are tried; [load] has earned seven
    halves in ten, [raise] one half in seven. *)
Example related_choice : (dec_action_id decision, dec_reason decision, dec_value decision) = ("load", "frontier", 5).
Proof. vm_compute. reflexivity. Qed.

Lemma choose_is_greedy_witness :
  explores related entropy = false ∧
  let actions := by_id (eligible catalog booted) in
  ∃ front a, frontier goal booted = Ok front ∧
    a ∈ catalog ∧ (∀ key, key ∈ requires a → status_of (get booted key) = "satisfied") ∧
    context_key goal booted front (action_id <$> actions) = Ok (dec_context decision) ∧
    decision = mkDecision (sequence related) (goal_id goal) (dec_context decision) (action_id a) (dec_value decision)
      (dec_reason decision) entropy ∧
    values a !! Z.to_nat ((entropy ≫ 32) `mod` Z.of_nat (length (values a))) = Some (dec_value decision) ∧
    if explores related entropy then
      dec_reason decision = "explore" ∧
      actions !! Z.to_nat ((entropy ≫ 64) `mod` Z.of_nat (length actions)) = Some a
    else
      dec_reason decision = (if bool_decide (Exists (aims front) actions) then "frontier" else "fallback") ∧
      in_pool catalog booted front a ∧
      greedy related (in_pool catalog booted front)
        (λ b, (goal_identity goal, bucket_of related (dec_context decision), action_id b)) a.
Proof.
  split; [vm_compute; reflexivity|].
  apply (choose_is_greedy goal booted catalog entropy related run.2); [vm_compute; reflexivity|apply run_decides].
Defined.

Lemma choose_answers_witness :
  Goal_post_init goal = Ok goal ∧ Forall (λ a, Action_post_init a = Ok a) catalog ∧
  0 ≤ entropy < 2 ^ 128 ∧ 0 ≤ sequence related < max_decisions (Policy.config related) ∧
  (size (pending related) < 128)%nat ∧
  (catalog_seen related = None ∨ catalog_seen related = Some (catalog_identity catalog)) ∧
  eligible catalog booted ≠ [] ∧
  ∃ d p', choose goal booted catalog entropy related = (Ok d, p').
Proof.
  assert (Hc : Forall (λ a, Action_post_init a = Ok a) catalog)
    by (repeat (apply Forall_cons_2; [vm_compute; reflexivity|]); apply Forall_nil_2).
  assert (Hs : (size (pending related) < 128)%nat) by (apply Nat.ltb_lt; vm_compute; reflexivity).
  assert (Hi : catalog_seen related = Some (catalog_identity catalog)) by (vm_compute; reflexivity).
  split; [vm_compute; reflexivity|]. split; [exact Hc|]. split; [vm_compute; split; done|].
  split; [vm_compute; split; done|]. split; [exact Hs|]. split; [by right|].
  split; [vm_compute; discriminate|].
  apply (choose_answers goal booted catalog entropy related);
    [vm_compute; reflexivity|exact Hc|vm_compute; split; done|vm_compute; split; done|exact Hs|by right
    |vm_compute; discriminate].
Defined.
End ChoiceExample.
