(* ===== verification/Corpus.v ===== *)
(** * The bounded corpus of the in-process fuzzer

    Models [src/src/myfuzz/fuzz/corpus.py]: entries keyed by flow and record
    text, the bound with its eviction, the draw from the least-picked quartile,
    and saving and loading.  The entries are a [gmap]: their order is only
    observed through sorts and a minimum whose keys are distinct.  The number
    [rng.randrange] draws is an argument of [choose], the text of the file one
    of [load].  Python's [repr] of a rejected value, at the end of a message, is
    left out, as is [JSONDecodeError.msg].  An entry the caller holds and the
    corpus changes later is read back from the corpus, by its key. *)

From S2P Require Import Prelude Json JsonText JsonIndent.
From Stdlib Require Import String.

Local Open Scope Z_scope.

(** ** Comparisons of tuples *)

Definition lex (c d : comparison) : comparison := match c with Eq => d | _ => c end.

(** [key(x) <= key(y)] *)
Definition le_by {A} (cmp : A → A → comparison) (x y : A) : Prop := cmp x y ≠ Gt.
#[export] Instance le_by_dec {A} (cmp : A → A → comparison) : RelDecision (le_by cmp).
Proof. intros x y. unfold le_by. apply _. Defined.

(** ** Entries *)

Definition CORPUS_SCHEMA : string := "inprocess_fuzz_corpus.v1".
Definition ORIGINS : list string := ["seed"; "fresh"; "mutation"].
Definition MIN_ENTRIES : Z := 1.
Definition MAX_ENTRIES : Z := 4096.
Definition _DEFAULT_MAX_ENTRIES : Z := 256.

Record CorpusEntry := mkEntry {
  entry_flow : string;
  fields : list Z;
  record_text : string;
  origin : string;
  parent : option string;
  picks : Z;
  discoveries : Z }.

#[export] Instance CorpusEntry_eq_dec : EqDecision CorpusEntry.
Proof. solve_decision. Defined.

(** [CorpusEntry.document] *)
Definition entry_document (e : CorpusEntry) : json :=
  JObj [("flow", JStr (entry_flow e)); ("fields", JArr (JInt <$> fields e));
        ("record_text", JStr (record_text e)); ("origin", JStr (origin e));
        ("parent", match parent e with Some p => JStr p | None => JNull end);
        ("picks", JInt (picks e)); ("discoveries", JInt (discoveries e))].

(** The key of an entry in [_entries] *)
Definition entry_key (e : CorpusEntry) : string * string := (entry_flow e, record_text e).

(** [_checked_limit], [_checked_flow], [_checked_record_text], [_checked_origin] *)
Definition _checked_limit (n : Z) : result Z :=
  raise_if (negb ((MIN_ENTRIES <=? n) && (n <=? MAX_ENTRIES)))
    (ValueError "corpus max_entries must be an integer in 1..4096: ") ;;
  mret n.
Definition _checked_flow (flow : string) : result string :=
  raise_if (bool_decide (flow = EmptyString)) (ValueError "corpus flow must be a non-empty string: ") ;;
  mret flow.
Definition _checked_record_text (text : string) : result string :=
  raise_if (bool_decide (text = EmptyString)) (ValueError "corpus record_text must be a non-empty string: ") ;;
  mret text.
Definition _checked_origin (origin : string) : result string :=
  raise_if (negb (bool_decide (origin ∈ ORIGINS))) (ValueError "unsupported corpus origin: ") ;;
  mret origin.

(** The orders of [_entry_order], of the key in [choose], of [_eviction_order] *)
Definition _entry_order (e f : CorpusEntry) : comparison :=
  lex (String.compare (entry_flow e) (entry_flow f)) (String.compare (record_text e) (record_text f)).
Definition pick_order (e f : CorpusEntry) : comparison := lex (picks e ?= picks f) (_entry_order e f).
Definition _eviction_order (e f : CorpusEntry) : comparison :=
  lex (- picks e ?= - picks f) (lex (discoveries e ?= discoveries f) (_entry_order e f)).

(** ** The corpus *)

Record Corpus := mkCorpus {
  _max_entries : Z;
  _entries : gmap (string * string) CorpusEntry;
  _evicted : Z }.

Definition new_corpus (max_entries : Z) : result Corpus :=
  n ← _checked_limit max_entries; mret (mkCorpus n ∅ 0).

Definition corpus_values (c : Corpus) : list CorpusEntry := (map_to_list (_entries c)).*2.

(** [min(values, key=...)] *)
Definition min_by {A} (cmp : A → A → comparison) (l : list A) : option A :=
  match l with
  | [] => None
  | x :: l => Some (foldl (λ best y, match cmp y best with Lt => y | _ => best end) x l)
  end.

(** [_evict_one] *)
Definition _evict_one (c : Corpus) : result Corpus :=
  match min_by _eviction_order (corpus_values c) with
  | None => Err (ValueError "min() iterable argument is empty")
  | Some victim => mret (mkCorpus (_max_entries c) (delete (entry_key victim) (_entries c)) (_evicted c + 1))
  end.

(** [_insert] *)
Definition _insert (c : Corpus) (e : CorpusEntry) : result Corpus :=
  c ← (if _max_entries c <=? Z.of_nat (size (_entries c)) then _evict_one c else mret c);
  mret (mkCorpus (_max_entries c) (<[entry_key e := e]> (_entries c)) (_evicted c)).

(** [add] *)
Definition add (flow : string) (fields : list Z) (record_text : string) (parent : option string)
    (origin : string) : M Corpus CorpusEntry := λ c,
  match
    (flow ← _checked_flow flow;
     text ← _checked_record_text record_text;
     origin ← _checked_origin origin;
     match _entries c !! (flow, text) with
     | Some existing => mret (existing, c)
     | None =>
         let entry := mkEntry flow fields text origin parent 0 0 in
         c ← _insert c entry; mret (entry, c)
     end)
  with
  | Ok (entry, c) => (Ok entry, c)
  | Err e => (Err e, c)
  end.

(** [seed] *)
Definition seed (flow : string) (fields : list Z) (record_text : string) : M Corpus CorpusEntry :=
  add flow fields record_text None "seed".

(** [choose], where [draw n] is [rng.randrange(n)] *)
Definition choose (draw : nat → nat) (c : Corpus) : result (option CorpusEntry) :=
  if bool_decide (corpus_values c = []) then mret None
  else
    let ordered := merge_sort (le_by pick_order) (corpus_values c) in
    match ordered !! ((List.length ordered - 1) `div` 4)%nat with
    | None => Err (IndexError "list index out of range")
    | Some b =>
        let candidates := filter (λ e, picks e ≤ picks b) ordered in
        match candidates !! draw (List.length candidates) with
        | None => Err (IndexError "list index out of range")
        | Some e => mret (Some e)
        end
    end.

(** [_stored] *)
Definition _stored (c : Corpus) (e : CorpusEntry) : result CorpusEntry :=
  match _entries c !! entry_key e with
  | None => Err (ValueError ("corpus entry is not in this corpus: " +:+ entry_flow e +:+ " " +:+ record_text e))
  | Some stored => mret stored
  end.

Definition set_entries (m : gmap (string * string) CorpusEntry) (c : Corpus) : Corpus :=
  mkCorpus (_max_entries c) m (_evicted c).

(** [mark_picked], [note_discovery] *)
Definition mark_picked (e : CorpusEntry) : M Corpus () :=
  s ← reads (λ c, _stored c e);
  modify (λ c, set_entries (<[entry_key e := mkEntry (entry_flow s) (fields s) (record_text s) (origin s)
    (parent s) (picks s + 1) (discoveries s)]> (_entries c)) c).
Definition note_discovery (e : CorpusEntry) : M Corpus () :=
  s ← reads (λ c, _stored c e);
  modify (λ c, set_entries (<[entry_key e := mkEntry (entry_flow s) (fields s) (record_text s) (origin s)
    (parent s) (picks s) (discoveries s + 1)]> (_entries c)) c).

(** [entries], [flow] *)
Definition entries (c : Corpus) : list CorpusEntry := merge_sort (le_by _entry_order) (corpus_values c).
Definition flow (c : Corpus) (name : string) : list CorpusEntry :=
  filter (λ e, entry_flow e = name) (entries c).

(** [document] *)
Definition count_flow (d : list (string * Z)) (e : CorpusEntry) : list (string * Z) :=
  od_set d (entry_flow e) (default 0 (od_get d (entry_flow e)) + 1).
Definition document (c : Corpus) : json :=
  let ordered := entries c in
  let by_flow := foldl count_flow [] ordered in
  JObj [("schema_version", JStr CORPUS_SCHEMA); ("entries", JArr (entry_document <$> ordered));
        ("by_flow", JObj ((λ kv, (kv.1, JInt kv.2)) <$> by_flow)); ("evicted", JInt (_evicted c))].

(** The text [save] writes *)
Definition save (c : Corpus) : string := dumps_indent 0 (document c) +:+ newline 0.

(** ** Loading *)

Definition non_empty_str (v : option value) (msg : string) : result string :=
  match v with
  | Some (VStr s) => raise_if (bool_decide (s = EmptyString)) (ValueError msg) ;; mret s
  | _ => Err (ValueError msg)
  end.
(** [type(value) is not int or value < 0], where the default is zero *)
Definition count_or_zero (v : option value) (msg : string) : result Z :=
  match v with
  | None => mret 0
  | Some (VInt z) => raise_if (z <? 0) (ValueError msg) ;; mret z
  | _ => Err (ValueError msg)
  end.
Definition int_item (msg : string) (v : value) : result Z :=
  match v with VInt z => mret z | _ => Err (ValueError msg) end.

(** [_load_entry] *)
Definition _load_entry (row : value) (position : nat) : result CorpusEntry :=
  let where_ := "malformed corpus entry at index " +:+ pretty position in
  match row with
  | VObj row =>
      flow ← non_empty_str (od_get row "flow") (where_ +:+ ": flow must be a non-empty string");
      text ← non_empty_str (od_get row "record_text") (where_ +:+ ": record_text must be a non-empty string");
      raw ← match od_get row "fields" with
            | Some (VArr l) => mret l
            | _ => Err (ValueError (where_ +:+ ": fields must be a list of integers"))
            end;
      fields ← map_result (int_item (where_ +:+ ": fields must be integers only")) raw;
      origin ← match od_get row "origin" with
               | Some (VStr o) =>
                   raise_if (negb (bool_decide (o ∈ ORIGINS))) (ValueError (where_ +:+ ": unsupported origin: ")) ;;
                   mret o
               | _ => Err (ValueError (where_ +:+ ": unsupported origin: "))
               end;
      parent ← match od_get row "parent" with
               | None | Some VNull => mret None
               | Some (VStr p) => mret (Some p)
               | _ => Err (ValueError (where_ +:+ ": parent must be a string or null"))
               end;
      picks ← count_or_zero (od_get row "picks") (where_ +:+ ": picks must be a non-negative integer");
      discoveries ← count_or_zero (od_get row "discoveries")
                      (where_ +:+ ": discoveries must be a non-negative integer");
      mret (mkEntry flow fields text origin parent picks discoveries)
  | _ => Err (ValueError (where_ +:+ ": expected a JSON object"))
  end.

(** The loop over the rows, with the set [seen] and the list [loaded] *)
Fixpoint load_rows (rows : list value) (position : nat) (seen : gset (string * string))
    : result (list CorpusEntry) :=
  match rows with
  | [] => mret []
  | row :: rows =>
      entry ← _load_entry row position;
      raise_if (bool_decide (entry_key entry ∈ seen))
        (ValueError ("malformed corpus entry at index " +:+ pretty position +:+ ": duplicate entry for "
                     +:+ entry_flow entry +:+ " " +:+ record_text entry)) ;;
      rest ← load_rows rows (S position) ({[entry_key entry]} ∪ seen);
      mret (entry :: rest)
  end.

(** [load], after the file is read *)
Definition load (max_entries : Z) (text : string) : result Corpus :=
  corpus ← new_corpus max_entries;
  match loads text with
  | None => Err (ValueError "malformed corpus document: not JSON: ")
  | Some (VObj payload) =>
      raise_if (negb match od_get payload "schema_version" with
                | Some (VStr v) => bool_decide (v = CORPUS_SCHEMA) | _ => false end)
        (ValueError "unsupported corpus schema version: ") ;;
      rows ← match od_get payload "entries" with
             | Some (VArr rows) => mret rows
             | _ => Err (ValueError "malformed corpus document: entries must be a list")
             end;
      evicted ← count_or_zero (od_get payload "evicted")
                  "malformed corpus document: evicted must be a non-negative integer";
      loaded ← load_rows rows 0 ∅;
      corpus ← fold_result _insert corpus loaded;
      mret (mkCorpus (_max_entries corpus) (_entries corpus) (_evicted corpus + evicted))
  | Some _ => Err (ValueError "malformed corpus document: expected a JSON object")
  end.
