(* ===== verification/CorpusSpec.v ===== *)
(** * What the corpus guarantees

    Every corpus reached from a new one, or loaded, keeps its invariant
    [corpus_ok] ([reached_corpus_ok], [loaded_corpus_is_ok]).  [add_keeps_the_new]:
    adding to a full corpus evicts exactly one older entry, the most picked, and
    among those the least productive.  [choose_is_quartile]: the draw is from
    exactly the entries with few enough less-picked ones.  [save_load]: what was
    saved is loaded back. *)

From S2P Require Import Prelude Json JsonText JsonIndent GoalSpec Corpus.

Local Open Scope Z_scope.

(** ** Comparisons that are total preorders *)

Record good_cmp {A} (cmp : A → A → comparison) : Prop := {
  cmp_opp x y : cmp y x = CompOpp (cmp x y);
  cmp_trans x y z : cmp x y ≠ Gt → cmp y z ≠ Gt → cmp x z ≠ Gt }.

Lemma cmp_lt_le_lt {A} (cmp : A → A → comparison) x y z :
  good_cmp cmp → cmp x y = Lt → cmp y z ≠ Gt → cmp x z = Lt.
Proof.
  intros [Hopp Htr] Hxy Hyz. destruct (cmp x z) eqn:Hxz; [|done|].
  - exfalso. assert (cmp y x ≠ Gt) as Hyx by (apply (Htr y z x); [done|by rewrite Hopp, Hxz]).
    by rewrite Hopp, Hxy in Hyx.
  - exfalso. apply (Htr x y z); [by rewrite Hxy|done..].
Qed.

Lemma cmp_le_lt_lt {A} (cmp : A → A → comparison) x y z :
  good_cmp cmp → cmp x y ≠ Gt → cmp y z = Lt → cmp x z = Lt.
Proof.
  intros [Hopp Htr] Hxy Hyz. destruct (cmp x z) eqn:Hxz; [|done|].
  - exfalso. assert (cmp z y ≠ Gt) as Hzy by (apply (Htr z x y); [by rewrite Hopp, Hxz|done]).
    by rewrite Hopp, Hyz in Hzy.
  - exfalso. apply (Htr x y z); [done|by rewrite Hyz|done].
Qed.

Lemma good_lex {A} (c d : A → A → comparison) :
  good_cmp c → good_cmp d → good_cmp (λ x y, lex (c x y) (d x y)).
Proof.
  intros Hc Hd. split.
  - intros x y. rewrite (cmp_opp _ Hc x y), (cmp_opp _ Hd x y). by destruct (c x y).
  - intros x y z. destruct (c x y) eqn:Hxy, (c y z) eqn:Hyz; cbn; try done; intros H1 H2.
    + assert (c x z = Eq) as ->; [|by eapply (cmp_trans _ Hd)].
      assert (c x z ≠ Gt) by (by apply (cmp_trans _ Hc x y z); rewrite ?Hxy, ?Hyz).
      assert (c z x ≠ Gt) as Hzx.
      { apply (cmp_trans _ Hc z y x); [by rewrite (cmp_opp _ Hc y z), Hyz|by rewrite (cmp_opp _ Hc x y), Hxy]. }
      rewrite (cmp_opp _ Hc x z) in Hzx. by destruct (c x z).
    + by rewrite (cmp_le_lt_lt c x y z) by (done || by rewrite Hxy).
    + by rewrite (cmp_lt_le_lt c x y z) by (done || by rewrite Hyz).
    + by rewrite (cmp_lt_le_lt c x y z) by (done || by rewrite Hyz).
Qed.

Lemma good_on {A B} (cmp : B → B → comparison) (f : A → B) :
  good_cmp cmp → good_cmp (λ x y, cmp (f x) (f y)).
Proof. intros [Ho Ht]. split; [intros x y; apply Ho|intros x y z; apply Ht]. Qed.

Lemma good_string : good_cmp String.compare.
Proof.
  split; [intros x y; apply String.compare_antisym|].
  assert (Hle : ∀ a b, String.compare a b ≠ Gt ↔ str_le a b).
  { intros a b. unfold str_le, String.leb. by destruct (String.compare a b). }
  intros x y z. rewrite !Hle. apply transitivity.
Qed.

Lemma good_Z : good_cmp Z.compare.
Proof. split; [intros x y; apply Z.compare_antisym|]. intros x y z H1 H2. apply (Z.le_trans x y z H1 H2). Qed.

Lemma good_entry : good_cmp _entry_order.
Proof. apply good_lex; apply good_on, good_string. Qed.
Lemma good_pick : good_cmp pick_order.
Proof. apply good_lex; [apply (good_on _ picks), good_Z|apply good_entry]. Qed.
Lemma good_eviction : good_cmp _eviction_order.
Proof.
  apply good_lex; [apply (good_on _ (λ e, - picks e)), good_Z|].
  apply good_lex; [apply (good_on _ discoveries), good_Z|apply good_entry].
Qed.

#[local] Instance le_by_total {A} (cmp : A → A → comparison) : good_cmp cmp → Total (le_by cmp).
Proof. intros Hg x y. unfold le_by. rewrite (cmp_opp _ Hg x y). destruct (cmp x y); auto. Qed.
#[local] Instance le_by_trans {A} (cmp : A → A → comparison) : good_cmp cmp → Transitive (le_by cmp).
Proof. intros Hg x y z. apply (cmp_trans _ Hg). Qed.

(** Two entries that compare equal have the same key. *)
Lemma entry_order_key e f : _entry_order e f = Eq → entry_key e = entry_key f.
Proof.
  unfold _entry_order, entry_key. destruct (String.compare (entry_flow e) (entry_flow f)) eqn:H1; cbn; [|done..].
  intros H2. apply String.compare_eq_iff in H1, H2. by rewrite H1, H2.
Qed.

(** [min] returns a least element. *)
Lemma min_by_spec {A} (cmp : A → A → comparison) l x :
  good_cmp cmp → min_by cmp l = Some x → x ∈ l ∧ ∀ y, y ∈ l → cmp x y ≠ Gt.
Proof.
  intros Hg. destruct l as [|a l]; [done|]. cbn. intros [= <-]. revert a.
  induction l as [|b l IH]; intros a; cbn [foldl].
  { split; [left|]. intros y ->%list_elem_of_singleton. pose proof (cmp_opp _ Hg a a).
    by destruct (cmp a a). }
  assert (Hrefl : ∀ y, cmp y y ≠ Gt).
  { intros y. pose proof (cmp_opp _ Hg y y). by destruct (cmp y y). }
  assert (∃ z, match cmp b a with Lt => b | _ => a end = z ∧ (z = a ∨ z = b) ∧ cmp z a ≠ Gt ∧ cmp z b ≠ Gt)
    as (z & -> & Hz & Hza & Hzb).
  { pose proof (cmp_opp _ Hg b a) as Ho. destruct (cmp b a) eqn:Hba; eexists; split_and!; try done;
      rewrite ?Hba, ?Ho; auto. }
  destruct (IH z) as [Hin Hmin]. split.
  - apply elem_of_cons in Hin as [->|Hin]; [destruct Hz as [-> | ->]; [left|right; left]|by do 2 right].
  - intros y [->|[->|Hy]%elem_of_cons]%elem_of_cons; [..|by apply Hmin; right];
      (eapply (cmp_trans _ Hg); [apply Hmin; left|done]).
Qed.

(** ** The invariant *)

Definition entry_ok (e : CorpusEntry) : Prop :=
  entry_flow e ≠ EmptyString ∧ record_text e ≠ EmptyString ∧ origin e ∈ ORIGINS ∧
  0 ≤ picks e ∧ 0 ≤ discoveries e.

Record corpus_ok (c : Corpus) : Prop := {
  ok_limit : MIN_ENTRIES ≤ _max_entries c ≤ MAX_ENTRIES;
  ok_size : Z.of_nat (size (_entries c)) ≤ _max_entries c;
  ok_entries : ∀ k e, _entries c !! k = Some e → k = entry_key e ∧ entry_ok e;
  ok_evicted : 0 ≤ _evicted c }.

Lemma corpus_values_elem c e : corpus_ok c → e ∈ corpus_values c ↔ _entries c !! entry_key e = Some e.
Proof.
  intros Hok. unfold corpus_values. rewrite list_elem_of_fmap. split.
  - intros ([k e'] & -> & Hin%elem_of_map_to_list). cbn.
    by destruct (ok_entries _ Hok k e' Hin) as [<- _].
  - intros He. exists (entry_key e, e). by rewrite elem_of_map_to_list.
Qed.

Lemma corpus_values_NoDup c : corpus_ok c → NoDup (entry_key <$> corpus_values c).
Proof.
  intros Hok. unfold corpus_values. rewrite <- list_fmap_compose.
  rewrite (list_fmap_ext _ fst); [apply NoDup_fst_map_to_list|].
  intros i [k e] Hi%list_elem_of_lookup_2%elem_of_map_to_list. cbn.
  by destruct (ok_entries _ Hok k e Hi) as [<- _].
Qed.

Lemma corpus_values_length c : length (corpus_values c) = size (_entries c).
Proof. unfold corpus_values. by rewrite length_fmap, length_map_to_list. Qed.

(** The entry that goes: the most picked, then the least productive *)
Definition most_worn (c : Corpus) (victim : CorpusEntry) : Prop :=
  _entries c !! entry_key victim = Some victim ∧
  ∀ e, _entries c !! entry_key e = Some e →
    picks e ≤ picks victim ∧ (picks e = picks victim → discoveries victim ≤ discoveries e).

Lemma evict_one_run c :
  corpus_ok c → _entries c ≠ ∅ →
  ∃ victim, most_worn c victim ∧
    _evict_one c = Ok (mkCorpus (_max_entries c) (delete (entry_key victim) (_entries c)) (_evicted c + 1)).
Proof.
  intros Hok Hne. unfold _evict_one.
  destruct (min_by _eviction_order (corpus_values c)) as [victim|] eqn:Hmin.
  - exists victim. split; [|done]. destruct (min_by_spec _ _ _ good_eviction Hmin) as [Hin Hall].
    apply corpus_values_elem in Hin; [|done]. split; [done|]. intros e He.
    apply corpus_values_elem in He; [|done]. specialize (Hall e He). unfold _eviction_order in Hall.
    destruct (Z.compare_spec (- picks victim) (- picks e)); cbn in Hall; [|split; lia|done].
    split; [lia|]. intros _. destruct (Z.compare_spec (discoveries victim) (discoveries e)); [lia..|done].
  - exfalso. apply Hne. apply map_to_list_empty_iff. unfold corpus_values in Hmin.
    by destruct (map_to_list (_entries c)).
Qed.

(** What [_insert] does with an entry that is not there *)
Lemma insert_run c e :
  corpus_ok c → entry_ok e → _entries c !! entry_key e = None →
  ∃ c', _insert c e = Ok c' ∧ corpus_ok c' ∧ _max_entries c' = _max_entries c ∧
    ((Z.of_nat (size (_entries c)) < _max_entries c ∧ _entries c' = <[entry_key e := e]> (_entries c) ∧
      _evicted c' = _evicted c) ∨
     (Z.of_nat (size (_entries c)) = _max_entries c ∧ ∃ victim, most_worn c victim ∧
      _entries c' = <[entry_key e := e]> (delete (entry_key victim) (_entries c)) ∧
      _evicted c' = _evicted c + 1)).
Proof.
  intros Hok He Hnew. unfold _insert. pose proof (ok_limit _ Hok) as Hlim. pose proof (ok_size _ Hok) as Hsz.
  unfold MIN_ENTRIES in Hlim.
  destruct (_max_entries c <=? Z.of_nat (size (_entries c))) eqn:Hfull.
  - apply Z.leb_le in Hfull. destruct (evict_one_run c Hok) as (victim & Hworn & ->).
    { intros Hem. rewrite Hem, map_size_empty in Hfull. lia. }
    cbn. eexists. split; [done|]. split; [|split; [done|right; split; [lia|]; by exists victim]].
    destruct Hworn as [Hv _]. split; cbn; [done| | |pose proof (ok_evicted _ Hok); lia].
    + rewrite map_size_insert_None by (rewrite lookup_delete_None; auto).
      rewrite map_size_delete, Hv. destruct (size (_entries c)); lia.
    + intros k e'. rewrite lookup_insert_Some, lookup_delete_Some.
      intros [[<- <-]|[_ [_ Hk]]]; [done|by apply (ok_entries _ Hok)].
  - apply Z.leb_gt in Hfull. cbn. eexists. split; [done|]. split; [|split; [done|by left]].
    split; cbn; [done| | |apply (ok_evicted _ Hok)].
    + rewrite map_size_insert_None by done. lia.
    + intros k e'. rewrite lookup_insert_Some. intros [[<- <-]|[_ Hk]]; [done|by apply (ok_entries _ Hok)].
Qed.

Lemma new_corpus_ok n c : new_corpus n = Ok c → corpus_ok c ∧ _max_entries c = n ∧ _entries c = ∅ ∧ _evicted c = 0.
Proof.
  unfold new_corpus, _checked_limit. intros Hn. cbn in Hn. inv_Ok. cbn in *. inv_Ok.
  split; [|done]. split; cbn; [|rewrite map_size_empty| |lia].
  - by split; apply Z.leb_le.
  - match goal with H : (MIN_ENTRIES <=? _) = true |- _ => apply Z.leb_le in H; unfold MIN_ENTRIES in H; lia end.
  - intros k e. by rewrite lookup_empty.
Qed.

(** ** Loading *)

Lemma non_empty_str_Ok v msg s : non_empty_str v msg = Ok s → s ≠ EmptyString.
Proof.
  destruct v as [[]|]; try done. cbn. intros ([] & Hs & [= <-])%bind_Ok.
  by apply raise_if_Ok, bool_decide_eq_false in Hs.
Qed.

Lemma count_or_zero_Ok v msg z : count_or_zero v msg = Ok z → 0 ≤ z.
Proof.
  destruct v as [[]|]; try done; cbn; [|by intros [= <-]]. intros ([] & Hs & [= <-])%bind_Ok.
  by apply raise_if_Ok, Z.ltb_ge in Hs.
Qed.

Lemma load_entry_ok row position e : _load_entry row position = Ok e → entry_ok e.
Proof.
  unfold _load_entry. destruct row as [| | | | | |row]; try done. cbv zeta.
  intros (flow & Hflow & H)%bind_Ok. apply bind_Ok in H as (text & Htext & H).
  apply bind_Ok in H as (raw & _ & H). apply bind_Ok in H as (fs & _ & H).
  apply bind_Ok in H as (orig & Horig & H). apply bind_Ok in H as (par & _ & H).
  apply bind_Ok in H as (pk & Hpk & H). apply bind_Ok in H as (disc & Hdisc & [= <-]).
  apply non_empty_str_Ok in Hflow, Htext. apply count_or_zero_Ok in Hpk, Hdisc.
  split_and!; cbn; try done. destruct (od_get row "origin") as [[]|]; try done.
  apply bind_Ok in Horig as ([] & Ho & [= <-]).
  by apply raise_if_Ok, negb_false_iff, bool_decide_eq_true in Ho.
Qed.

Lemma load_rows_ok rows position seen l :
  load_rows rows position seen = Ok l →
  Forall entry_ok l ∧ NoDup (entry_key <$> l) ∧ ∀ e, e ∈ l → entry_key e ∉ seen.
Proof.
  revert position seen l. induction rows as [|row rows IH]; intros position seen l; cbn [load_rows].
  { intros [= <-]. split_and!; [constructor|constructor|set_solver]. }
  intros (e & He & Hrest)%bind_Ok. apply bind_Ok in Hrest as ([] & Hnew & Hrest).
  apply bind_Ok in Hrest as (rest & Hl & [= <-]). apply raise_if_Ok, bool_decide_eq_false in Hnew.
  destruct (IH _ _ _ Hl) as (Hall & Hnd & Hseen).
  pose proof (load_entry_ok _ _ _ He) as Hok.
  split_and!; [by constructor| |].
  - cbn. apply NoDup_cons. split; [|done]. intros (x & Hx & Hin)%list_elem_of_fmap.
    apply (Hseen x Hin). rewrite <- Hx. set_solver.
  - intros x [->|Hx]%elem_of_cons; [done|]. specialize (Hseen x Hx). set_solver.
Qed.

(** Inserting entries that are not there yet, into a corpus with or without
    room for them *)
Lemma insert_all_ok l c :
  corpus_ok c → Forall entry_ok l → NoDup (entry_key <$> l) → (∀ e, e ∈ l → _entries c !! entry_key e = None) →
  ∃ c', fold_result _insert c l = Ok c' ∧ corpus_ok c' ∧ _max_entries c' = _max_entries c ∧
    _evicted c ≤ _evicted c'.
Proof.
  revert c. induction l as [|e l IH]; intros c Hok Hl Hnd Hnew; cbn [fold_result].
  { exists c. split_and!; [done..|lia]. }
  apply Forall_cons in Hl as [He Hl]. cbn in Hnd. apply NoDup_cons in Hnd as [Hek Hnd].
  destruct (insert_run c e Hok He) as (c1 & -> & Hok1 & Hm1 & Hcase); [apply Hnew; left|].
  cbn [mbind result_bind].
  assert (Hsub : ∀ k, k ≠ entry_key e → _entries c !! k = None → _entries c1 !! k = None).
  { intros k Hk Hn. destruct Hcase as [(_ & -> & _)|(_ & victim & _ & -> & _)];
      rewrite lookup_insert_ne by done; [done|]. rewrite lookup_delete_None. by right. }
  destruct (IH c1 Hok1 Hl Hnd) as (c' & Hf & Hok' & Hm' & Hev).
  { intros x Hx. apply Hsub; [|by apply Hnew; right]. intros Heq. apply Hek. rewrite <- Heq. set_solver. }
  exists c'. split_and!; [done..|by rewrite Hm'|]. destruct Hcase as [(_ & _ & <-)|(_ & ? & _ & _ & Hc1)]; lia.
Qed.

Lemma only_load n text : only_value_error (load n text).
Proof.
  assert (Hstr : ∀ v msg, only_value_error (non_empty_str v msg)) by (unfold non_empty_str; solve_only_with fail).
  assert (Hcount : ∀ v msg, only_value_error (count_or_zero v msg)) by (unfold count_or_zero; solve_only_with fail).
  assert (Hentry : ∀ row pos, only_value_error (_load_entry row pos)).
  { intros row pos. unfold _load_entry, int_item. cbv zeta.
    solve_only_with ltac:(first [apply Hstr|apply Hcount]). }
  assert (Hrows : ∀ rows pos seen, only_value_error (load_rows rows pos seen)).
  { induction rows as [|row rows IH]; intros pos seen; [apply only_ok|]. cbn [load_rows].
    solve_only_with ltac:(first [apply Hentry|apply IH]). }
  unfold load, new_corpus, _checked_limit, _insert, _evict_one.
  solve_only_with ltac:(first [apply Hcount|apply Hrows]).
Qed.

Lemma load_ok n text c : load n text = Ok c → corpus_ok c ∧ _max_entries c = n.
Proof.
  unfold load. intros (c0 & Hc0 & Hl)%bind_Ok. apply new_corpus_ok in Hc0 as (Hok0 & Hm0 & He0 & Hev0).
  destruct (loads text) as [[]|]; try done.
  apply bind_Ok in Hl as ([] & _ & Hl). apply bind_Ok in Hl as (rows & _ & Hl).
  apply bind_Ok in Hl as (ev & Hev & Hl). apply bind_Ok in Hl as (loaded & Hrows & Hl).
  apply bind_Ok in Hl as (c1 & Hc1 & [= <-]). apply count_or_zero_Ok in Hev.
  destruct (load_rows_ok _ _ _ _ Hrows) as (Hall & Hnd & _).
  destruct (insert_all_ok loaded c0 Hok0 Hall Hnd) as (c' & Hc' & [? ? ? ?] & Hm' & _).
  { intros e _. rewrite He0. apply lookup_empty. }
  rewrite Hc1 in Hc'. injection Hc' as <-. split; [split; cbn; try done; lia|cbn; congruence].
Qed.

(** ** Corpora in use *)

(** The corpora a caller can reach: from a new or a loaded one, by any calls *)
Inductive CorpusOp : Type :=
  | OpAdd (flow : string) (fields : list Z) (text : string) (parent : option string) (origin : string)
  | OpPicked (e : CorpusEntry)
  | OpDiscovery (e : CorpusEntry).

Definition exec_corpus (o : CorpusOp) (c : Corpus) : Corpus :=
  match o with
  | OpAdd flow fields text parent origin => (add flow fields text parent origin c).2
  | OpPicked e => (mark_picked e c).2
  | OpDiscovery e => (note_discovery e c).2
  end.

Inductive reached_corpus (n : Z) : Corpus → Prop :=
  | reached_corpus_new c : new_corpus n = Ok c → reached_corpus n c
  | reached_corpus_load c text : load n text = Ok c → reached_corpus n c
  | reached_corpus_step c o : reached_corpus n c → reached_corpus n (exec_corpus o c).

(** What [add] does: the ways it ends *)
Lemma add_cases flow fields text parent origin c :
  corpus_ok c →
  match add flow fields text parent origin c with
  | (Err e, c') => c' = c ∧ ∃ msg, e = ValueError msg
  | (Ok e, c') =>
      (_entries c !! (flow, text) = Some e ∧ c' = c) ∨
      (_entries c !! (flow, text) = None ∧ e = mkEntry flow fields text origin parent 0 0 ∧ entry_ok e ∧
       _insert c e = Ok c')
  end.
Proof.
  intros Hok. unfold add, _checked_flow, _checked_record_text, _checked_origin.
  destruct (bool_decide_reflect (flow = EmptyString)) as [_|H1]; [exact (conj eq_refl (ex_intro _ _ eq_refl))|].
  destruct (bool_decide_reflect (text = EmptyString)) as [_|H2]; [exact (conj eq_refl (ex_intro _ _ eq_refl))|].
  destruct (bool_decide_reflect (origin ∈ ORIGINS)) as [H3|_]; [|exact (conj eq_refl (ex_intro _ _ eq_refl))].
  cbn [negb raise_if mbind result_bind mret result_ret].
  destruct (_entries c !! (flow, text)) as [e|] eqn:He; [by left|].
  assert (Heok : entry_ok (mkEntry flow fields text origin parent 0 0)) by (by split_and!; cbn).
  destruct (insert_run c (mkEntry flow fields text origin parent 0 0) Hok Heok He) as (c' & Hi & _).
  rewrite Hi. by right.
Qed.

Lemma stored_update_ok c e s s' :
  corpus_ok c → _stored c e = Ok s → entry_key s' = entry_key s → entry_ok s' →
  corpus_ok (set_entries (<[entry_key e := s']> (_entries c)) c).
Proof.
  intros Hok Hs Hkey Hs'. unfold _stored in Hs. destruct (_entries c !! entry_key e) as [x|] eqn:He; [|done].
  injection Hs as ->. destruct (ok_entries _ Hok _ _ He) as [Hk _].
  split; cbn; [apply Hok| | |apply Hok].
  - rewrite map_size_insert_Some by eauto. apply Hok.
  - intros k e'. rewrite lookup_insert_Some. intros [[<- <-]|[_ Hk']]; [by rewrite Hkey|by apply (ok_entries _ Hok)].
Qed.

Lemma stored_ok c e s : corpus_ok c → _stored c e = Ok s → entry_ok s.
Proof.
  intros Hok. unfold _stored. destruct (_entries c !! entry_key e) as [x|] eqn:He; [|done].
  intros [= ->]. by apply (ok_entries _ Hok _ _ He).
Qed.

Lemma exec_corpus_ok o c : corpus_ok c → corpus_ok (exec_corpus o c).
Proof.
  intros Hok. destruct o as [flow fields text parent origin|e|e]; cbn [exec_corpus].
  - pose proof (add_cases flow fields text parent origin c Hok) as Ha.
    destruct (add flow fields text parent origin c) as [[e|e] c']; cbn; [|by destruct Ha as [-> _]].
    destruct Ha as [[_ ->]|(Hn & -> & He & Hi)]; [done|].
    destruct (insert_run c _ Hok He Hn) as (c'' & Hi' & Hok' & _). rewrite Hi in Hi'. by injection Hi' as ->.
  - unfold mark_picked. unfold_M. destruct (_stored c e) as [s|] eqn:Hs; [|done].
    pose proof (stored_ok c e s Hok Hs) as (? & ? & ? & ? & ?).
    eapply stored_update_ok; [done..|]. split_and!; cbn; try done; lia.
  - unfold note_discovery. unfold_M. destruct (_stored c e) as [s|] eqn:Hs; [|done].
    pose proof (stored_ok c e s Hok Hs) as (? & ? & ? & ? & ?).
    eapply stored_update_ok; [done..|]. split_and!; cbn; try done; lia.
Qed.

Lemma exec_corpus_limit o c : corpus_ok c → _max_entries (exec_corpus o c) = _max_entries c.
Proof.
  intros Hok. destruct o as [flow fields text parent origin|e|e]; cbn [exec_corpus].
  - pose proof (add_cases flow fields text parent origin c Hok) as Ha.
    destruct (add flow fields text parent origin c) as [[e|e] c']; cbn; [|by destruct Ha as [-> _]].
    destruct Ha as [[_ ->]|(Hn & -> & He & Hi)]; [done|].
    destruct (insert_run c _ Hok He Hn) as (c'' & Hi' & _ & Hm & _). rewrite Hi in Hi'. by injection Hi' as ->.
  - unfold mark_picked. unfold_M. by destruct (_stored c e).
  - unfold note_discovery. unfold_M. by destruct (_stored c e).
Qed.

Lemma reached_corpus_ok n c : reached_corpus n c → corpus_ok c ∧ _max_entries c = n.
Proof.
  induction 1 as [c Hn|c text Hl|c o _ [Hok Hm]];
    [by apply new_corpus_ok in Hn as (? & ? & _)|by apply (load_ok n text)|].
  split; [by apply exec_corpus_ok|by rewrite exec_corpus_limit].
Qed.

(** C29. What [add] does to a corpus in use.  The record is in the corpus
    afterwards, under its flow and text.  If it was there already nothing
    changes, its counts included.  Otherwise it enters with zero counts; a
    corpus with room keeps all its entries, and a full one loses exactly one,
    never the new one: one with the most picks, and among those the fewest
    discoveries.  The bound of the constructor holds throughout. *)
Theorem add_keeps_the_new (n : Z) (c c' : Corpus) (flow : string) (fs : list Z) (text : string)
    (par : option string) (orig : string) (e : CorpusEntry) :
  reached_corpus n c → add flow fs text par orig c = (Ok e, c') →
  _entries c' !! (flow, text) = Some e ∧ 1 ≤ Z.of_nat (size (_entries c')) ≤ n ≤ 4096 ∧
  ((_entries c !! (flow, text) = Some e ∧ c' = c) ∨
   (_entries c !! (flow, text) = None ∧ e = mkEntry flow fs text orig par 0 0 ∧
    ((Z.of_nat (size (_entries c)) < n ∧ _entries c' = <[(flow, text) := e]> (_entries c) ∧
      _evicted c' = _evicted c) ∨
     (Z.of_nat (size (_entries c)) = n ∧ ∃ victim, most_worn c victim ∧ entry_key victim ≠ (flow, text) ∧
      _entries c' = <[(flow, text) := e]> (delete (entry_key victim) (_entries c)) ∧
      _evicted c' = _evicted c + 1)))).
Proof.
  intros Hr Ha. destruct (reached_corpus_ok n c Hr) as [Hok Hm].
  pose proof (add_cases flow fs text par orig c Hok) as Hc. rewrite Ha in Hc.
  pose proof (exec_corpus_ok (OpAdd flow fs text par orig) c Hok) as Hok'.
  pose proof (exec_corpus_limit (OpAdd flow fs text par orig) c Hok) as Hm'. cbn [exec_corpus] in Hok', Hm'.
  rewrite Ha in Hok', Hm'. cbn in Hok', Hm'. rewrite Hm in Hm'.
  assert (Hin : _entries c' !! (flow, text) = Some e).
  { destruct Hc as [[? ->]|(Hn & -> & He & Hi)]; [done|].
    destruct (insert_run c _ Hok He Hn) as (c'' & Hi' & _ & _ & Hcase). rewrite Hi in Hi'. injection Hi' as <-.
    destruct Hcase as [(_ & -> & _)|(_ & victim & _ & -> & _)]; apply lookup_insert_eq. }
  split; [done|]. split.
  { pose proof (ok_size _ Hok') as Hs. pose proof (ok_limit _ Hok') as Hl. unfold MAX_ENTRIES in Hl. rewrite Hm' in *.
    assert (size (_entries c') ≠ 0%nat); [|lia]. intros Hz%map_size_empty_inv.
    by rewrite Hz, lookup_empty in Hin. }
  destruct Hc as [[? ->]|(Hn & -> & He & Hi)]; [by left|]. right. split_and!; [done..|].
  destruct (insert_run c _ Hok He Hn) as (c'' & Hi' & _ & _ & Hcase). rewrite Hi in Hi'. injection Hi' as <-.
  rewrite Hm in Hcase. destruct Hcase as [(? & ? & ?)|(? & victim & Hw & ? & ?)]; [by left|].
  right. split; [done|]. exists victim. split_and!; [done| |done..].
  intros Hv. destruct Hw as [Hw _]. rewrite Hv in Hw. cbn in *. congruence.
Qed.

(** ** The draw *)

Lemma filter_split {A} (P : A → Prop) `{∀ x, Decision (P x)} k (l : list A) :
  filter P l = filter P (take k l) ++ filter P (drop k l).
Proof. by rewrite <- filter_app, take_drop. Qed.

(** Being at most the entry of rank [k] is having at most [k] smaller ones. *)
Lemma rank_spec (l : list CorpusEntry) k b e :
  StronglySorted (λ x y, picks x ≤ picks y) l → l !! k = Some b → e ∈ l →
  picks e ≤ picks b ↔ (length (filter (λ x, (picks x < picks e)%Z) l) ≤ k)%nat.
Proof.
  intros Hs Hb He. split.
  - intros Hle. rewrite (filter_split _ k), length_app, (filter_none _ (drop k l)).
    + cbn. rewrite Nat.add_0_r. etrans; [apply length_filter|]. rewrite length_take. lia.
    + intros x [i Hi]%list_elem_of_lookup. rewrite lookup_drop in Hi.
      destruct (decide (i = 0)%nat) as [->|Hne].
      { rewrite Nat.add_0_r in Hi. assert (x = b) as -> by congruence. lia. }
      pose proof (sorted_lookup _ _ _ _ _ _ Hs Hb Hi ltac:(lia)). cbn in *. lia.
  - intros Hlen. destruct (Z.le_gt_cases (picks e) (picks b)) as [|Hgt]; [done|]. exfalso.
    rewrite (filter_split _ (S k)), (filter_all _ (take (S k) l)) in Hlen.
    + rewrite length_app, length_take in Hlen. apply lookup_lt_Some in Hb. lia.
    + intros x [i Hi]%list_elem_of_lookup. apply lookup_take_Some in Hi as [Hi Hik].
      destruct (decide (i = k)) as [->|Hne]; [assert (x = b) as -> by congruence; lia|].
      pose proof (sorted_lookup _ _ _ _ _ _ Hs Hi Hb ltac:(lia)). cbn in *. lia.
Qed.

Lemma pick_sorted c : StronglySorted (λ x y, picks x ≤ picks y) (merge_sort (le_by pick_order) (corpus_values c)).
Proof.
  pose proof (le_by_total _ good_pick). pose proof (le_by_trans _ good_pick).
  assert (Hs : StronglySorted (le_by pick_order) (merge_sort (le_by pick_order) (corpus_values c)))
    by (apply Sorted_StronglySorted; [apply _|apply Sorted_merge_sort, _]).
  induction Hs as [|x l _ IH Hx]; constructor; [done|]. eapply Forall_impl; [exact Hx|].
  intros y. unfold le_by, pick_order. destruct (Z.compare_spec (picks x) (picks y)); cbn; [lia..|done].
Qed.

(** C30. What [choose] draws from.  Of a corpus that is not empty, the
    candidates are exactly the entries for which at most a quarter of the others
    have been picked less often; there is at least one, each once, and the
    number drawn selects among them, so every candidate can come out and nothing
    else can. *)
Theorem choose_is_quartile (n : Z) (c : Corpus) :
  reached_corpus n c → _entries c ≠ ∅ →
  ∃ candidates, NoDup candidates ∧ candidates ≠ [] ∧
    (∀ e, e ∈ candidates ↔ _entries c !! entry_key e = Some e ∧
       (length (filter (λ x, (picks x < picks e)%Z) (corpus_values c)) ≤ (size (_entries c) - 1) `div` 4)%nat) ∧
    ∀ draw : nat → nat, (draw (length candidates) < length candidates)%nat →
      ∃ e, candidates !! draw (length candidates) = Some e ∧ choose draw c = Ok (Some e).
Proof.
  intros Hr Hne. destruct (reached_corpus_ok n c Hr) as [Hok _].
  assert (Hvals : corpus_values c ≠ []).
  { intros Hn. apply Hne, map_to_list_empty_iff. unfold corpus_values in Hn. by destruct (map_to_list (_entries c)). }
  set (ordered := merge_sort (le_by pick_order) (corpus_values c)).
  assert (Hperm : ordered ≡ₚ corpus_values c) by apply merge_sort_Permutation.
  assert (Hlen : length ordered = size (_entries c)) by (by rewrite Hperm, corpus_values_length).
  assert (Hpos : (0 < length ordered)%nat) by (rewrite Hperm; destruct (corpus_values c); [done|cbn; lia]).
  destruct (lookup_lt_is_Some_2 ordered ((length ordered - 1) `div` 4)) as [b Hb].
  { pose proof (Nat.Div0.div_le_upper_bound (length ordered - 1) 4 (length ordered - 1)). lia. }
  exists (filter (λ e, picks e ≤ picks b) ordered).
  assert (Hb' : b ∈ filter (λ e, picks e ≤ picks b) ordered).
  { apply list_elem_of_filter. split; [lia|]. by eapply list_elem_of_lookup_2. }
  split_and!.
  - apply NoDup_filter. rewrite Hperm. by apply (NoDup_fmap_1 entry_key), corpus_values_NoDup.
  - intros Hn. rewrite Hn in Hb'. by apply not_elem_of_nil in Hb'.
  - intros e. rewrite list_elem_of_filter, Hperm, <- Hlen, <- (corpus_values_elem c e Hok).
    assert (Hrank : e ∈ corpus_values c → picks e ≤ picks b ↔
      (length (filter (λ x, (picks x < picks e)%Z) (corpus_values c)) ≤ (length ordered - 1) `div` 4)%nat).
    { intros He. rewrite <- Hperm in He |- *. by apply (rank_spec ordered); [apply pick_sorted|..]. }
    naive_solver.
  - intros draw Hdraw. unfold choose. rewrite bool_decide_false by done. cbv zeta. fold ordered.
    change (List.length ordered) with (length ordered). rewrite Hb.
    destruct (lookup_lt_is_Some_2 _ _ Hdraw) as [e He]. exists e. split; [done|]. by rewrite He.
Qed.

(** [load] trusts nothing.  Whatever the text of the file is, it is either
    refused with ValueError or gives a corpus that satisfies every rule of a
    corpus in use: within the bound asked for, no duplicate, no empty flow or
    text, a known origin, no negative count. *)
Lemma loaded_corpus_is_ok (n : Z) (text : string) :
  match load n text with
  | Ok c => corpus_ok c ∧ _max_entries c = n
  | Err e => ∃ msg, e = ValueError msg
  end.
Proof.
  destruct (load n text) as [c|e] eqn:Hl; [by apply (load_ok n text)|]. revert e Hl. apply only_load.
Qed.

(** ** Saving and loading *)

Lemma ints_back msg l : map_result (int_item msg) (map value_of (JInt <$> l)) = Ok l.
Proof. induction l as [|z l IH]; [done|]. cbn in *. by rewrite IH. Qed.

(** A saved row is the entry again. *)
Lemma load_entry_document e position : entry_ok e → _load_entry (value_of (entry_document e)) position = Ok e.
Proof.
  intros (Hf & Ht & Ho & Hp & Hd).
  set (row := [("discoveries", VInt (discoveries e));
    ("fields", VArr (map value_of (JInt <$> fields e))); ("flow", VStr (entry_flow e)); ("origin", VStr (origin e));
    ("parent", match parent e with Some p => VStr p | None => VNull end); ("picks", VInt (picks e));
    ("record_text", VStr (record_text e))]).
  assert (value_of (entry_document e) = VObj row) as -> by (unfold entry_document, row; by destruct (parent e)).
  unfold _load_entry. cbv zeta.
  change (od_get row "flow") with (Some (VStr (entry_flow e))).
  change (od_get row "record_text") with (Some (VStr (record_text e))).
  change (od_get row "fields") with (Some (VArr (map value_of (JInt <$> fields e)))).
  change (od_get row "origin") with (Some (VStr (origin e))).
  change (od_get row "parent") with (Some (match parent e with Some p => VStr p | None => VNull end)).
  change (od_get row "picks") with (Some (VInt (picks e))).
  change (od_get row "discoveries") with (Some (VInt (discoveries e))).
  unfold non_empty_str, count_or_zero.
  rewrite (bool_decide_false (entry_flow e = _)), (bool_decide_false (record_text e = _)) by done. cbn [raise_if mbind result_bind mret result_ret].
  rewrite ints_back. cbn [mbind result_bind]. rewrite bool_decide_true by done.
  rewrite (proj2 (Z.ltb_ge (picks e) 0)), (proj2 (Z.ltb_ge (discoveries e) 0)) by done.
  destruct e as [? ? ? ? [p|] ? ?]; done.
Qed.

Lemma load_rows_document l position seen :
  Forall entry_ok l → NoDup (entry_key <$> l) → (∀ e, e ∈ l → entry_key e ∉ seen) →
  load_rows (map value_of (entry_document <$> l)) position seen = Ok l.
Proof.
  revert position seen. induction l as [|e l IH]; intros position seen Hl Hnd Hseen; [done|].
  apply Forall_cons in Hl as [He Hl]. cbn in Hnd. apply NoDup_cons in Hnd as [Hek Hnd].
  cbn [fmap list_fmap map load_rows]. rewrite load_entry_document by done. cbn [mbind result_bind].
  rewrite bool_decide_false by (apply Hseen; left). cbn [raise_if mbind result_bind].
  change (list_fmap _ _ entry_document l) with (entry_document <$> l).
  rewrite IH; [done|done|done|]. intros x Hx [Heq%elem_of_singleton|Hin]%elem_of_union.
  - apply Hek. rewrite <- Heq. by apply list_elem_of_fmap_2.
  - apply (Hseen x); [by right|done].
Qed.

(** With room for all of them, the inserted entries are the corpus. *)
Lemma insert_all_room l c :
  (Z.of_nat (size (_entries c)) + Z.of_nat (length l) ≤ _max_entries c) → NoDup (entry_key <$> l) →
  (∀ e, e ∈ l → _entries c !! entry_key e = None) →
  fold_result _insert c l =
    Ok (mkCorpus (_max_entries c) (foldl (λ m e, <[entry_key e := e]> m) (_entries c) l) (_evicted c)).
Proof.
  revert c. induction l as [|e l IH]; intros c Hsz Hnd Hnew; cbn [fold_result foldl]; [by destruct c|].
  cbn [length] in Hsz. cbn in Hnd. apply NoDup_cons in Hnd as [Hek Hnd].
  assert (_insert c e = Ok (mkCorpus (_max_entries c) (<[entry_key e := e]> (_entries c)) (_evicted c))) as ->.
  { unfold _insert. by rewrite (proj2 (Z.leb_gt _ _)) by lia. }
  cbn [mbind result_bind]. rewrite IH; cbn; [done| |done|].
  - rewrite map_size_insert_None by (apply Hnew; left). lia.
  - intros x Hx. rewrite lookup_insert_ne; [by apply Hnew; right|]. intros Heq. apply Hek. rewrite Heq.
    by apply list_elem_of_fmap_2.
Qed.

Lemma foldl_insert_lookup (l : list CorpusEntry) (m : gmap (string * string) CorpusEntry)
    (k : string * string) (e : CorpusEntry) :
  NoDup (entry_key <$> l) →
  (foldl (λ m e, <[entry_key e := e]> m) m l) !! k = Some e ↔
  (e ∈ l ∧ entry_key e = k) ∨ (m !! k = Some e ∧ k ∉ entry_key <$> l).
Proof.
  revert m. induction l as [|x l IH]; intros m Hnd; cbn [foldl]; [set_solver|].
  cbn in Hnd. apply NoDup_cons in Hnd as [Hx Hnd]. rewrite IH by done. cbn.
  rewrite lookup_insert_Some, elem_of_cons, not_elem_of_cons. split.
  - intros [[? ?]|[[[<- <-]|[? ?]] ?]]; [left; split; [by right|done]|left; split; [by left|done]|right; done].
  - intros [[[->|?] <-]|(? & ? & ?)]; [right; split; [by left|done]|by left|right; split; [right|]; by auto].
Qed.

(** The entries, sorted, with distinct keys *)
Lemma entries_perm c : entries c ≡ₚ corpus_values c.
Proof. apply merge_sort_Permutation. Qed.

Lemma saved_entries c :
  corpus_ok c → foldl (λ m e, <[entry_key e := e]> m) ∅ (entries c) = _entries c.
Proof.
  intros Hok. apply map_eq. intros k. apply option_eq. intros e.
  rewrite foldl_insert_lookup by (rewrite entries_perm; by apply corpus_values_NoDup).
  rewrite entries_perm, corpus_values_elem by done. rewrite lookup_empty. split.
  - by intros [[? <-]|[]].
  - intros He. left. by destruct (ok_entries _ Hok k e He) as [-> _].
Qed.

(** Any text that stands for the document of a corpus loads as the corpus. *)
Lemma load_document c text :
  corpus_ok c → loads text = Some (value_of (document c)) → load (_max_entries c) text = Ok c.
Proof.
  intros Hok Htext. unfold load, new_corpus, _checked_limit. destruct (ok_limit _ Hok) as [H1 H2].
  rewrite (proj2 (Z.leb_le MIN_ENTRIES (_max_entries c))), (proj2 (Z.leb_le (_max_entries c) MAX_ENTRIES)) by done.
  cbn [andb negb raise_if mbind result_bind mret result_ret]. rewrite Htext.
  set (rows := map value_of (entry_document <$> entries c)).
  assert (∃ by_flow, value_of (document c) = VObj [("by_flow", by_flow); ("entries", VArr rows);
    ("evicted", VInt (_evicted c)); ("schema_version", VStr CORPUS_SCHEMA)]) as [by_flow ->].
  { eexists. unfold document. cbv zeta. reflexivity. }
  set (payload := [_; _; _; _]).
  change (od_get payload "schema_version") with (Some (VStr CORPUS_SCHEMA)).
  change (od_get payload "entries") with (Some (VArr rows)).
  change (od_get payload "evicted") with (Some (VInt (_evicted c))).
  cbn beta iota. rewrite bool_decide_true by done. cbn [negb raise_if mbind result_bind].
  unfold count_or_zero. rewrite (proj2 (Z.ltb_ge (_evicted c) 0)) by (by apply ok_evicted).
  cbn [raise_if mbind result_bind mret result_ret].
  assert (Hnd : NoDup (entry_key <$> entries c)) by (rewrite entries_perm; by apply corpus_values_NoDup).
  unfold rows. rewrite load_rows_document; [|..|set_solver]; [|rewrite entries_perm|done].
  2: { apply Forall_forall. intros e He. apply corpus_values_elem in He; [|done]. by apply (ok_entries _ Hok _ _ He). }
  cbn [mbind result_bind]. rewrite insert_all_room; cbn; [|..|done|].
  - rewrite saved_entries by done. rewrite Z.add_0_l. by destruct c.
  - rewrite map_size_empty, entries_perm, corpus_values_length. apply (ok_size _ Hok).
  - intros e _. apply lookup_empty.
Qed.

(** The texts of an entry are strings Python can encode. *)
Definition entry_encodable (e : CorpusEntry) : Prop :=
  utf8_valid (entry_flow e) = true ∧ utf8_valid (record_text e) = true ∧
  match parent e with Some p => utf8_valid p = true | None => True end.

Lemma ints_fine l : forallb distinct_keys (JInt <$> l) = true ∧ forallb encodable (JInt <$> l) = true.
Proof. by induction l as [|z l IH]. Qed.

Lemma entry_document_fine e :
  entry_ok e → entry_encodable e →
  distinct_keys (entry_document e) = true ∧ encodable (entry_document e) = true.
Proof.
  intros (_ & _ & Ho & _) (Hf & Ht & Hp). unfold entry_document. cbn [distinct_keys encodable].
  destruct (ints_fine (fields e)) as [Hd He].
  assert (utf8_valid (origin e) = true) as Hor.
  { unfold ORIGINS in Ho. by repeat (apply elem_of_cons in Ho as [->|Ho]; [done|]); apply not_elem_of_nil in Ho. }
  split.
  - apply andb_true_iff. split; [by apply bool_decide_eq_true_2; vm_compute; repeat constructor; set_solver|].
    cbn [forallb snd]. cbn [distinct_keys]. rewrite Hd. by destruct (parent e).
  - cbn [forallb fst snd]. cbn [encodable]. rewrite He, Hf, Ht, Hor. destruct (parent e); cbn [encodable]; by rewrite ?Hp.
Qed.

Lemma count_flow_keys l d :
  NoDup (od_keys d) → (∀ k, k ∈ od_keys d → utf8_valid k = true) →
  Forall entry_encodable l →
  NoDup (od_keys (foldl count_flow d l)) ∧ ∀ k, k ∈ od_keys (foldl count_flow d l) → utf8_valid k = true.
Proof.
  revert d. induction l as [|e l IH]; intros d Hd Hk Hl; [done|]. apply Forall_cons in Hl as [[He _] Hl].
  cbn [foldl]. apply IH; [by apply od_set_NoDup| |done]. intros k. unfold count_flow. rewrite od_keys_set.
  case_decide; [apply Hk|]. rewrite elem_of_app, list_elem_of_singleton. intros [?| ->]; [by apply Hk|done].
Qed.

Lemma document_fine c :
  corpus_ok c → (∀ k e, _entries c !! k = Some e → entry_encodable e) →
  distinct_keys (document c) = true ∧ encodable (document c) = true.
Proof.
  intros Hok Henc.
  assert (Hin : ∀ e, e ∈ entries c → entry_ok e ∧ entry_encodable e).
  { intros e He. rewrite entries_perm in He. apply corpus_values_elem in He; [|done].
    split; [by apply (ok_entries _ Hok _ _ He)|by eapply Henc]. }
  destruct (count_flow_keys (entries c) []) as [Hnd Hkeys]; [constructor|by intros k ?%not_elem_of_nil| |].
  { apply Forall_forall. intros e He. by apply Hin. }
  assert (Hrows : forallb distinct_keys (entry_document <$> entries c) = true ∧
                  forallb encodable (entry_document <$> entries c) = true).
  { rewrite !forallb_forall. split; intros v (e & -> & He)%list_elem_of_In%list_elem_of_fmap;
      destruct (Hin e He); by apply entry_document_fine. }
  assert (Hcounts : ∀ d : list (string * Z), (∀ k, k ∈ od_keys d → utf8_valid k = true) →
    forallb (λ kv, distinct_keys kv.2) ((λ kv, (kv.1, JInt kv.2)) <$> d) = true ∧
    forallb (λ kv, utf8_valid kv.1 && encodable kv.2) ((λ kv, (kv.1, JInt kv.2)) <$> d) = true).
  { intros d. induction d as [|[k z] d IH]; intros Hd; [done|]. cbn in *. rewrite (Hd k) by left.
    destruct IH as [-> ->]; [intros k' ?; apply Hd; by right|done]. }
  destruct (Hcounts _ Hkeys) as [Hc1 Hc2]. destruct Hrows as [Hr1 Hr2].
  assert (Hk1 : ((λ kv : string * Z, (kv.1, JInt kv.2)) <$> foldl count_flow [] (entries c)).*1 =
    od_keys (foldl count_flow [] (entries c))) by (unfold od_keys; by rewrite <- list_fmap_compose).
  unfold document. cbv zeta. cbn [distinct_keys encodable forallb fst snd].
  rewrite Hk1, Hr1, Hr2, Hc1, Hc2, (bool_decide_true (NoDup (od_keys _))) by done. split; [|done].
  apply andb_true_iff. split; [|done]. by apply bool_decide_eq_true_2; vm_compute; repeat constructor; set_solver.
Qed.

(** C28. Saving and loading is the identity.  A corpus in use whose texts Python
    can encode, saved by [save] and read by [load] under the same bound, is the
    same corpus: every entry with its counts, and the count of evictions.
    Nothing is evicted by loading, whatever characters the texts hold. *)
Theorem save_load (n : Z) (c : Corpus) :
  reached_corpus n c → (∀ k e, _entries c !! k = Some e → entry_encodable e) → load n (save c) = Ok c.
Proof.
  intros Hr Henc. destruct (reached_corpus_ok n c Hr) as [Hok <-].
  destruct (document_fine c Hok Henc) as [Hd He]. apply load_document; [done|]. by apply loads_indent.
Qed.

#[local] Instance entry_encodable_dec e : Decision (entry_encodable e).
Proof. unfold entry_encodable. destruct (parent e); apply _. Defined.

(** ** A corpus of two entries *)
Module CorpusExample.

Definition out {A B} (r : result A * B) (d : A) : A := match r.1 with Ok x => x | Err _ => d end.
Definition nothing : CorpusEntry := mkEntry "f" [] "" "seed" None 0 0.
Lemma answered_entry (r : result CorpusEntry * Corpus) : is_Ok r.1 = true → r = (Ok (out r nothing), r.2).
Proof. by destruct r as [[l|e] p]. Qed.

Definition empty : Corpus := mkCorpus 2 ∅ 0.
Definition one : Corpus := exec_corpus (OpAdd "f2" [1; -2] "a b" None "seed") empty.
(** A text with an accented letter *)
Definition accented : string := utf8 [120; 195; 169]%nat.
Definition first : CorpusEntry := mkEntry "f1" [] accented "mutation" (Some "a b") 0 0.
Definition both : Corpus := exec_corpus (OpAdd "f1" [] accented (Some "a b") "mutation") one.
(** The accented entry is picked, so it is the one to go. *)
Definition worn : Corpus := exec_corpus (OpPicked first) both.
Definition adding := add "f1" [7] "y" None "fresh" worn.

Lemma worn_reached : reached_corpus 2 worn.
Proof. do 3 apply reached_corpus_step. apply reached_corpus_new. reflexivity. Qed.
Lemma worn_full : _entries worn ≠ ∅.
Proof. apply (bool_decide_unpack _). vm_compute. reflexivity. Qed.
Lemma adding_answered : adding = (Ok (out adding nothing), adding.2).
Proof. apply answered_entry. vm_compute. reflexivity. Qed.
Lemma worn_encodable : ∀ k e, _entries worn !! k = Some e → entry_encodable e.
Proof.
  apply (bool_decide_unpack (map_Forall (λ _ e, entry_encodable e) (_entries worn))). vm_compute. exact I.
Qed.
Example adding_evicts : map record_text (entries adding.2) = ["y"; "a b"].
Proof. vm_compute. reflexivity. Qed.

Lemma add_keeps_the_new_witness :
  reached_corpus 2 worn ∧ add "f1" [7] "y" None "fresh" worn = (Ok (out adding nothing), adding.2) ∧
  _entries adding.2 !! ("f1", "y") = Some (out adding nothing) ∧
  1 ≤ Z.of_nat (size (_entries adding.2)) ≤ 2 ≤ 4096 ∧
  ((_entries worn !! ("f1", "y") = Some (out adding nothing) ∧ adding.2 = worn) ∨
   (_entries worn !! ("f1", "y") = None ∧ out adding nothing = mkEntry "f1" [7] "y" "fresh" None 0 0 ∧
    ((Z.of_nat (size (_entries worn)) < 2 ∧
      _entries adding.2 = <[("f1", "y") := out adding nothing]> (_entries worn) ∧
      _evicted adding.2 = _evicted worn) ∨
     (Z.of_nat (size (_entries worn)) = 2 ∧ ∃ victim, most_worn worn victim ∧ entry_key victim ≠ ("f1", "y") ∧
      _entries adding.2 = <[("f1", "y") := out adding nothing]> (delete (entry_key victim) (_entries worn)) ∧
      _evicted adding.2 = _evicted worn + 1)))).
Proof.
  split; [apply worn_reached|]. split; [apply adding_answered|].
  apply (add_keeps_the_new 2 worn); [apply worn_reached|apply adding_answered].
Defined.

Lemma choose_is_quartile_witness :
  reached_corpus 2 worn ∧ _entries worn ≠ ∅ ∧
  ∃ candidates, NoDup candidates ∧ candidates ≠ [] ∧
    (∀ e, e ∈ candidates ↔ _entries worn !! entry_key e = Some e ∧
       (length (filter (λ x, (picks x < picks e)%Z) (corpus_values worn)) ≤
          (size (_entries worn) - 1) `div` 4)%nat) ∧
    ∀ draw : nat → nat, (draw (length candidates) < length candidates)%nat →
      ∃ e, candidates !! draw (length candidates) = Some e ∧ choose draw worn = Ok (Some e).
Proof.
  split; [apply worn_reached|]. split; [apply worn_full|].
  apply (choose_is_quartile 2 worn); [apply worn_reached|apply worn_full].
Defined.

Lemma save_load_witness :
  reached_corpus 2 worn ∧ (∀ k e, _entries worn !! k = Some e → entry_encodable e) ∧
  load 2 (save worn) = Ok worn.
Proof.
  split; [apply worn_reached|]. split; [apply worn_encodable|].
  apply (save_load 2 worn); [apply worn_reached|apply worn_encodable].
Defined.

End CorpusExample.
