(* ===== verification/RvProgram.v ===== *)
(** * Short RV32 programs: decoding, admission, static control flow, execution

    Models the validator and the reference model of
    [src/src/myfuzz/fuzz/rv32_program.py]: the decoder of the words a trampoline
    program may hold, the static provenance of register values, the analysis of
    branches, jumps and bounded loops, [validate_program_words] and
    [run_program].  Generation and mutation of programs, and the reports over a
    decoded program, are not modelled.  [base_reg] has its default [x18], which
    every caller uses.  The tests of Python types hold by typing; a rejected
    value printed with [repr] at the end of a message is left out, and the
    optional human-readable [steps] of a run.  The worklist of [_flow_states]
    recurses on its own [budget]. *)

From S2P Require Import Prelude Json.

Local Open Scope Z_scope.

(** ** Instructions *)

(** The names of the tables, and the compressed ones [_transfer_provenance]
    also knows *)
Inductive Name : Type :=
  | LUI | AUIPC | ADDI | SLTI | SLTIU | XORI | ORI | ANDI | SLLI | SRLI | SRAI
  | ADD | SUB | SLL | SLT | SLTU | XOR | SRL | SRA | OR | AND
  | MUL | MULH | MULHSU | MULHU | DIV | DIVU | REM | REMU
  | LW | SW | BEQ | BNE | BLT | BGE | BLTU | BGEU | JAL | JALR
  | C_LI | C_LUI | C_ADDI | C_ANDI | C_MV | C_ADD.
#[export] Instance Name_eq_dec : EqDecision Name.
Proof. solve_decision. Defined.

Definition name_text (n : Name) : string :=
  match n with
  | LUI => "LUI" | AUIPC => "AUIPC" | ADDI => "ADDI" | SLTI => "SLTI" | SLTIU => "SLTIU" | XORI => "XORI"
  | ORI => "ORI" | ANDI => "ANDI" | SLLI => "SLLI" | SRLI => "SRLI" | SRAI => "SRAI" | ADD => "ADD"
  | SUB => "SUB" | SLL => "SLL" | SLT => "SLT" | SLTU => "SLTU" | XOR => "XOR" | SRL => "SRL" | SRA => "SRA"
  | OR => "OR" | AND => "AND" | MUL => "MUL" | MULH => "MULH" | MULHSU => "MULHSU" | MULHU => "MULHU"
  | DIV => "DIV" | DIVU => "DIVU" | REM => "REM" | REMU => "REMU" | LW => "LW" | SW => "SW" | BEQ => "BEQ"
  | BNE => "BNE" | BLT => "BLT" | BGE => "BGE" | BLTU => "BLTU" | BGEU => "BGEU" | JAL => "JAL"
  | JALR => "JALR" | C_LI => "C.LI" | C_LUI => "C.LUI" | C_ADDI => "C.ADDI" | C_ANDI => "C.ANDI"
  | C_MV => "C.MV" | C_ADD => "C.ADD"
  end.

(** The [dict] of operands; a missing key is [None] *)
Record Operands := mkOperands {
  rd : option Z; rs1 : option Z; rs2 : option Z; imm : option Z; shamt : option Z }.
(** [operands[field]] of a field that the name has *)
Definition field (f : Operands → option Z) (o : Operands) : Z := default 0 (f o).

Definition _MASK32 : Z := 0xffffffff.
Definition _MEMORY_BASE : Z := 18.
Definition DEFAULT_RESERVED_REGISTERS : list Z := [8; 9; 18].

(** [f"{n:#0wx}"] of [0 <= n], with [w] digits behind the prefix *)
Fixpoint hex_digits (w : nat) (n : Z) : string :=
  match w with O => EmptyString | S w => hex_digits w (n `div` 16) +:+ hex_digit (n `mod` 16) end.
Definition hex (w : nat) (n : Z) : string := "0x" +:+ hex_digits w n.

Definition _sext (value bits : Z) : Z :=
  let sign := 1 ≪ (bits - 1) in (value &&& (sign - 1)) - (value &&& sign).

Definition _branch_immediate (word : Z) : Z :=
  _sext ((((word ≫ 31) &&& 1) ≪ 12) ||| (((word ≫ 7) &&& 1) ≪ 11)
         ||| (((word ≫ 25) &&& 0x3f) ≪ 5) ||| (((word ≫ 8) &&& 0xf) ≪ 1)) 13.
Definition _jal_immediate (word : Z) : Z :=
  _sext ((((word ≫ 31) &&& 1) ≪ 20) ||| (((word ≫ 12) &&& 0xff) ≪ 12)
         ||| (((word ≫ 20) &&& 1) ≪ 11) ||| (((word ≫ 21) &&& 0x3ff) ≪ 1)) 21.

(** [_R_FUNCT3], [_R_ALT], [_M_FUNCT3], [_I_FUNCT3], [_BRANCH_FUNCT3] *)
Definition _R_FUNCT3 : list Name := [ADD; SLL; SLT; SLTU; XOR; SRL; OR; AND].
Definition _R_ALT (funct3 : Z) : option Name :=
  if funct3 =? 0 then Some SUB else if funct3 =? 5 then Some SRA else None.
Definition _M_FUNCT3 : list Name := [MUL; MULH; MULHSU; MULHU; DIV; DIVU; REM; REMU].
Definition _I_FUNCT3 (funct3 : Z) : option Name :=
  if funct3 =? 0 then Some ADDI else if funct3 =? 2 then Some SLTI else if funct3 =? 3 then Some SLTIU
  else if funct3 =? 4 then Some XORI else if funct3 =? 6 then Some ORI else if funct3 =? 7 then Some ANDI
  else None.
Definition _BRANCH_FUNCT3 (funct3 : Z) : option Name :=
  if funct3 =? 0 then Some BEQ else if funct3 =? 1 then Some BNE else if funct3 =? 4 then Some BLT
  else if funct3 =? 5 then Some BGE else if funct3 =? 6 then Some BLTU else if funct3 =? 7 then Some BGEU
  else None.
Definition is_branch (n : Name) : bool :=
  match n with BEQ | BNE | BLT | BGE | BLTU | BGEU => true | _ => false end.
Definition is_jump (n : Name) : bool := match n with JAL | JALR => true | _ => false end.
Definition is_memory (n : Name) : bool := match n with LW | SW => true | _ => false end.

Definition _IllegalEncoding {A} (msg : string) : result A := Err (ValueError msg).

Definition _decode_branch (word : Z) : result (Name * Operands) :=
  let funct3 := (word ≫ 12) &&& 0x07 in
  match _BRANCH_FUNCT3 funct3 with
  | None => _IllegalEncoding ("opcode 0x63 funct3 " +:+ pretty funct3 +:+ " is not a B-type branch")
  | Some name =>
      mret (name, mkOperands None (Some ((word ≫ 15) &&& 0x1f)) (Some ((word ≫ 20) &&& 0x1f))
                    (Some (_branch_immediate word)) None)
  end.

Definition _decode_jump (word : Z) : result (Name * Operands) :=
  let opcode := word &&& 0x7f in
  let funct3 := (word ≫ 12) &&& 0x07 in
  let rd := (word ≫ 7) &&& 0x1f in
  if opcode =? 0x6f then mret (JAL, mkOperands (Some rd) None None (Some (_jal_immediate word)) None)
  else if opcode =? 0x67 then
    if negb (funct3 =? 0) then _IllegalEncoding ("opcode 0x67 funct3 " +:+ pretty funct3 +:+ " is not JALR")
    else mret (JALR, mkOperands (Some rd) (Some ((word ≫ 15) &&& 0x1f)) None (Some (_sext (word ≫ 20) 12)) None)
  else _IllegalEncoding ("opcode " +:+ hex 2 opcode +:+ " is not a jump").

(** The OP-IMM and OP rows of [_decode] *)
Definition decode_op_imm (word : Z) : result (Name * Operands) :=
  let funct3 := (word ≫ 12) &&& 0x07 in
  let rd := (word ≫ 7) &&& 0x1f in
  let rs1 := (word ≫ 15) &&& 0x1f in
  let shift := Some ((word ≫ 20) &&& 0x1f) in
  if funct3 =? 1 then
    if negb (word ≫ 25 =? 0) then _IllegalEncoding "SLLI may only carry a five-bit shift amount"
    else mret (SLLI, mkOperands (Some rd) (Some rs1) None None shift)
  else if funct3 =? 5 then
    let top := word ≫ 25 in
    if negb ((top =? 0) || (top =? 0x20)) then
      _IllegalEncoding ("SRLI/SRAI funct7 " +:+ hex 2 top +:+ " is not a base encoding")
    else mret (if top =? 0 then SRLI else SRAI, mkOperands (Some rd) (Some rs1) None None shift)
  else
    match _I_FUNCT3 funct3 with
    | None => _IllegalEncoding ("OP-IMM funct3 " +:+ pretty funct3 +:+ " is not emittable")
    | Some name => mret (name, mkOperands (Some rd) (Some rs1) None (Some (_sext (word ≫ 20) 12)) None)
    end.
Definition decode_op (word : Z) : result (Name * Operands) :=
  let funct3 := (word ≫ 12) &&& 0x07 in
  let top := word ≫ 25 in
  let name :=
    if top =? 0 then _R_FUNCT3 !! Z.to_nat funct3
    else if top =? 0x20 then _R_ALT funct3
    else if top =? 1 then _M_FUNCT3 !! Z.to_nat funct3
    else None in
  match name with
  | None => _IllegalEncoding ("OP funct7 " +:+ hex 2 top +:+ " funct3 " +:+ pretty funct3 +:+ " is not emittable")
  | Some name => mret (name, mkOperands (Some ((word ≫ 7) &&& 0x1f)) (Some ((word ≫ 15) &&& 0x1f))
                               (Some ((word ≫ 20) &&& 0x1f)) None None)
  end.

(** [_decode] *)
Definition _decode (allow_branch allow_jump : bool) (word : Z) : result (Name * Operands) :=
  let opcode := word &&& 0x7f in
  let funct3 := (word ≫ 12) &&& 0x07 in
  let rd := (word ≫ 7) &&& 0x1f in
  let rs1 := (word ≫ 15) &&& 0x1f in
  let rs2 := (word ≫ 20) &&& 0x1f in
  if opcode =? 0x37 then mret (LUI, mkOperands (Some rd) None None (Some (word ≫ 12)) None)
  else if opcode =? 0x17 then mret (AUIPC, mkOperands (Some rd) None None (Some (word ≫ 12)) None)
  else if opcode =? 0x13 then decode_op_imm word
  else if opcode =? 0x33 then decode_op word
  else if opcode =? 0x03 then
    if negb (funct3 =? 2) then
      _IllegalEncoding ("opcode 0x03 funct3 " +:+ pretty funct3 +:+ " is not LW; only LW is emittable as a load")
    else mret (LW, mkOperands (Some rd) (Some rs1) None (Some (_sext (word ≫ 20) 12)) None)
  else if opcode =? 0x23 then
    if negb (funct3 =? 2) then
      _IllegalEncoding ("opcode 0x23 funct3 " +:+ pretty funct3 +:+ " is not SW; only SW is emittable as a store")
    else
      let imm := ((word ≫ 25) ≪ 5) ||| ((word ≫ 7) &&& 0x1f) in
      mret (SW, mkOperands None (Some rs1) (Some rs2) (Some (_sext imm 12)) None)
  else if (opcode =? 0x63) && allow_branch then _decode_branch word
  else if ((opcode =? 0x6f) || (opcode =? 0x67)) && allow_jump then _decode_jump word
  else _IllegalEncoding ("opcode " +:+ hex 2 opcode +:+ " is outside the subset").

(** ** Static provenance of register values *)

(** [_UNKNOWN], [("const", value)], [("window", low, high)] *)
Inductive Provenance : Type :=
  | Unknown
  | Const (value : Z)
  | Window (low high : Z).
#[export] Instance Provenance_eq_dec : EqDecision Provenance.
Proof. solve_decision. Defined.

(** A 32-entry vector of provenance values *)
Abbreviation State := (list Provenance).
Definition prov_at (s : State) (r : Z) : Provenance := nth (Z.to_nat r) s Unknown.

(** The ADDI, ADD and ANDI rows of [_transfer_provenance] *)
Definition addi_provenance (source : Provenance) (immediate : Z) : Provenance :=
  match source with
  | Const v => Const ((v + immediate) &&& _MASK32)
  | Window low high => Window (low + immediate) (high + immediate)
  | Unknown => Unknown
  end.
Definition add_provenance (left right : Provenance) : Provenance :=
  match left, right with
  | Const a, Const b => Const ((a + b) &&& _MASK32)
  | Window low high, Const b => Window (low + b) (high + b)
  | Const a, Window low high => Window (low + a) (high + a)
  | _, _ => Unknown
  end.
Definition andi_provenance (source : Provenance) (immediate : Z) : Provenance :=
  match source with Const v => Const (v &&& (immediate &&& _MASK32)) | _ => Unknown end.

(** [_transfer_provenance] *)
Definition _transfer_provenance (name : Name) (o : Operands) (s : State) : Provenance :=
  match name with
  | LUI => Const ((field imm o ≪ 12) &&& _MASK32)
  | ADDI => addi_provenance (prov_at s (field rs1 o)) (field imm o)
  | ADD => add_provenance (prov_at s (field rs1 o)) (prov_at s (field rs2 o))
  | ANDI => andi_provenance (prov_at s (field rs1 o)) (field imm o)
  | C_LI => Const (field imm o &&& _MASK32)
  | C_LUI => Const ((field imm o ≪ 12) &&& _MASK32)
  | C_ADDI => addi_provenance (prov_at s (field rd o)) (field imm o)
  | C_ANDI => andi_provenance (prov_at s (field rd o)) (field imm o)
  | C_MV => prov_at s (field rs2 o)
  | C_ADD => add_provenance (prov_at s (field rd o)) (prov_at s (field rs2 o))
  | _ => Unknown
  end.

(** [_merge_provenance] *)
Definition _merge_provenance (left right : Provenance) : Provenance :=
  if bool_decide (left = right) then left
  else match left, right with
  | Window l1 h1, Window l2 h2 => Window (Z.min l1 l2) (Z.max h1 h2)
  | _, _ => Unknown
  end.
Definition merge_states : State → State → State := zip_with _merge_provenance.

Definition unknown_state : State := replicate 32 Unknown.
Definition initial_state : State :=
  <[Z.to_nat _MEMORY_BASE := Window 0 0]> (<[0%nat := Const 0]> unknown_state).

Definition enumerate {A} (l : list A) : list (Z * A) := imap (λ i x, (Z.of_nat i, x)) l.
Definition dict_fromkeys (l : list Z) : list Z :=
  foldl (λ acc x, if bool_decide (x ∈ acc) then acc else acc ++ [x]) [] l.

(** [_successor_indices] *)
Definition _successor_indices (name : Name) (o : Operands) (index length : Z) : list Z :=
  dict_fromkeys
    ((if index + 1 <=? length then [index + 1] else [])
     ++ (if is_branch name && (field imm o `mod` 4 =? 0) then
           let target := index + field imm o `div` 4 in
           if (index <? target) && (target <=? length) then [target] else []
         else [])).

Definition word_range (index word : Z) : result () :=
  raise_if (negb ((0 <=? word) && (word <=? _MASK32)))
    (ValueError ("instruction " +:+ pretty index +:+ " is not a 32-bit unsigned word: " +:+ pretty word)).

(** The state of one node, joined with what flows into it *)
Definition flow_into (outgoing : State) (existing : option State) : State :=
  match existing with None => outgoing | Some s => merge_states s outgoing end.

(** The write of one word in [_provenance_states] *)
Definition straight_state (name : Name) (o : Operands) (current : State) : State :=
  match rd o with
  | None => current
  | Some w =>
      if w =? 0 then current
      else if w =? _MEMORY_BASE then <[Z.to_nat w := Unknown]> current
      else <[Z.to_nat w := _transfer_provenance name o current]> current
  end.

(** [_provenance_states] *)
Definition _provenance_states (words : list Z) : result (list State * list (Name * Operands)) :=
  raise_if (bool_decide (words = [])) (ValueError "program has no instruction") ;;
  decoded ← map_result (λ iw, word_range iw.1 iw.2 ;; _decode true false iw.2) (enumerate words);
  let count := Z.of_nat (length decoded) in
  let states :=
    foldl (λ (states : list (option State)) (x : Z * (Name * Operands)),
      let current := default unknown_state (mjoin (states !! Z.to_nat x.1)) in
      let states := <[Z.to_nat x.1 := Some current]> states in
      let outgoing := straight_state x.2.1 x.2.2 current in
      foldl (λ states successor,
        if count <=? successor then states
        else alter (λ existing, Some (flow_into outgoing existing)) (Z.to_nat successor) states)
        states (_successor_indices x.2.1 x.2.2 x.1 count))
      (<[0%nat := Some initial_state]> (replicate (length decoded) None)) (enumerate decoded) in
  mret (default unknown_state <$> states, decoded).

(** [_check_window] *)
Definition _check_window (window_size : option Z) : result (option Z) :=
  match window_size with
  | None => mret None
  | Some w =>
      raise_if (w <? 4) (ValueError ("window_size " +:+ pretty w +:+ " must be at least 4 bytes")) ;;
      raise_if (negb (w `mod` 4 =? 0)) (ValueError ("window_size " +:+ pretty w +:+ " must be 4-byte aligned")) ;;
      mret (Some w)
  end.

(** [AddressUse], and the row of details *)
Record AddressUse := mkUse { use_index : Z; base_reg : Z; use_offset : Z; width : Z }.
Record UseDetail := mkDetail { detail_use : AddressUse; low : Z; high : Z }.

(** One memory word of [_memory_uses] *)
Definition memory_use (window_bytes : option Z) (index : Z) (o : Operands) (state : State)
    : result UseDetail :=
  let base := field rs1 o in
  match prov_at state base with
  | Window l h =>
      let l := l + field imm o in
      let h := h + field imm o in
      raise_if (negb (l `mod` 4 =? 0) || negb (h `mod` 4 =? 0))
        (ValueError ("instruction " +:+ pretty index +:+ " memory access address is not 4-byte aligned (offset range "
                     +:+ pretty l +:+ ".." +:+ pretty h +:+ ")")) ;;
      raise_if match window_bytes with Some w => (l <? 0) || (w - 4 <? h) | None => false end
        (ValueError ("instruction " +:+ pretty index +:+ " memory access leaves the declared data window (offset range "
                     +:+ pretty l +:+ ".." +:+ pretty h +:+ ", window " +:+ pretty (default 0 window_bytes) +:+ ")")) ;;
      mret (mkDetail (mkUse index base (field imm o) 4) l h)
  | _ =>
      Err (ValueError ("instruction " +:+ pretty index +:+ " memory access base x" +:+ pretty base
                       +:+ " is not a statically proven data-window address"))
  end.

(** [_memory_uses] *)
Definition _memory_uses (words : list Z) (window_bytes : option Z) : result (list UseDetail) :=
  '(states, decoded) ← _provenance_states words;
  fold_result (λ details (x : Z * (Name * Operands)),
    if is_memory x.2.1 then
      d ← memory_use window_bytes x.1 x.2.2 (default unknown_state (states !! Z.to_nat x.1));
      mret (details ++ [d])
    else mret details) [] (enumerate decoded).

(** [address_provenance], [address_provenance_details], [validate_address_program] *)
Definition address_provenance_details (words : list Z) (window_bytes : option Z) : result (list UseDetail) :=
  window ← _check_window window_bytes; _memory_uses words window.
Definition address_provenance (words : list Z) (window_bytes : option Z) : result (list AddressUse) :=
  details ← address_provenance_details words window_bytes; mret (map detail_use details).
Definition validate_address_program (words : list Z) (window_bytes : option Z) : result () :=
  window ← _check_window window_bytes;
  raise_if (bool_decide (window = None)) (ValueError "window_bytes must be an integer, not None") ;;
  _memory_uses words window ;;
  mret ().

(** ** Control flow *)

Record JumpTarget := mkJump { jump_index : Z; jump_name : Name; target_index : Z; link : Z }.
Record LoopInfo := mkLoop {
  init : Z; head : Z; step : Z; back_edge : Z; trip_count : Z; induction : Z }.
(** [LoopInfo.length] *)
Definition loop_length (l : LoopInfo) : Z := back_edge l - head l + 1.
Record ControlFlow := mkControl {
  decoded : list (Name * Operands);
  successors : list (list Z);
  jumps : list JumpTarget;
  loops : list LoopInfo;
  step_limit : Z }.

(** [_transfer_state] *)
Definition _transfer_state (name : Name) (o : Operands) (current : State) : State :=
  if is_jump name then
    match rd o with
    | None => current
    | Some w => if w =? 0 then current else <[Z.to_nat w := Unknown]> current
    end
  else straight_state name o current.

(** The loop over the successors of a node: the states and the worklist, the
    next node at its head *)
Definition flow_successor (count : Z) (outgoing : State) (sw : list (option State) * list nat) (successor : Z)
    : list (option State) * list nat :=
  if negb ((0 <=? successor) && (successor <? count)) then sw
  else
    let k := Z.to_nat successor in
    match mjoin (sw.1 !! k) with
    | None => (<[k := Some outgoing]> sw.1, k :: sw.2)
    | Some existing =>
        let merged := merge_states existing outgoing in
        if bool_decide (merged = existing) then sw else (<[k := Some merged]> sw.1, k :: sw.2)
    end.

Definition not_converged : exn := AssertionError "provenance fixpoint did not converge".

(** The [while work] loop of [_flow_states] *)
Fixpoint flow_loop (decoded : list (Name * Operands)) (successors : list (list Z)) (budget : nat)
    (states : list (option State)) (work : list nat) : result (list (option State)) :=
  match work with
  | [] => mret states
  | index :: work =>
      match budget with
      | O => Err not_converged
      | S budget =>
          match decoded !! index, mjoin (states !! index) with
          | Some (name, o), Some current =>
              let outgoing := _transfer_state name o current in
              let '(states, work) :=
                foldl (flow_successor (Z.of_nat (length decoded)) outgoing) (states, work)
                  (default [] (successors !! index)) in
              flow_loop decoded successors budget states work
          | _, _ => flow_loop decoded successors budget states work
          end
      end
  end.

Definition flow_budget (count : nat) : nat := ((count + 1) * 32 * (count + 1) + 64)%nat.

(** [_flow_states] *)
Definition _flow_states (decoded : list (Name * Operands)) (successors : list (list Z)) : result (list State) :=
  let count := length decoded in
  states ← flow_loop decoded successors (flow_budget count)
             (<[0%nat := Some initial_state]> (replicate count None)) (if (count =? 0)%nat then [] else [0%nat]);
  mret (map (default unknown_state) states).

(** The address a JALR computes, and [_transfer_target] *)
Definition jalr_address (base immediate : Z) : Z := Z.ldiff ((base + immediate) &&& _MASK32) 1.
Definition _transfer_target (name : Name) (o : Operands) (index : Z) (state : State) (image_base : option Z)
    : option Z :=
  match name with
  | JALR =>
      match prov_at state (field rs1 o), image_base with
      | Const v, Some base =>
          let offset := (jalr_address v (field imm o) - base) &&& _MASK32 in
          if negb (offset `mod` 4 =? 0) then None else Some (offset `div` 4)
      | _, _ => None
      end
  | _ =>
      if is_branch name || bool_decide (name = JAL) then
        if negb (field imm o `mod` 4 =? 0) then None else Some (index + field imm o `div` 4)
      else None
  end.

(** [_control_successors] *)
Definition node_successors (name : Name) (o : Operands) (index : Z) (state : State) (image_base : option Z)
    : list Z :=
  if is_branch name then
    dict_fromkeys (index + 1 :: match _transfer_target name o index state image_base with
                                | Some target => [target] | None => [] end)
  else if is_jump name then
    match _transfer_target name o index state image_base with Some target => [target] | None => [] end
  else [index + 1].
Definition _control_successors (decoded : list (Name * Operands)) (states : list State) (image_base : option Z)
    : list (list Z) :=
  (λ x : Z * (Name * Operands),
     node_successors x.2.1 x.2.2 x.1 (default unknown_state (states !! Z.to_nat x.1)) image_base)
  <$> enumerate decoded.

(** [_loop_induction], [_loop_init], [_is_induction_step] *)
Definition _loop_induction (o : Operands) : option Z :=
  let left := field rs1 o in
  let right := field rs2 o in
  if (right =? 0) && negb (left =? 0) then Some left
  else if (left =? 0) && negb (right =? 0) then Some right
  else None.
Definition _loop_init (name : Name) (o : Operands) (induction : Z) : option Z :=
  if negb (bool_decide (name = ADDI)) || negb (bool_decide (rd o = Some induction))
     || negb (bool_decide (rs1 o = Some 0)) then None
  else match imm o with
       | None => None
       | Some trip => if negb ((2 <=? trip) && (trip <=? 6)) then None else Some trip
       end.
Definition _is_induction_step (name : Name) (o : Operands) (induction : Z) : bool :=
  bool_decide (name = ADDI) && bool_decide (rd o = Some induction)
  && bool_decide (rs1 o = Some induction) && bool_decide (imm o = Some (-1)).

Definition instruction (index : Z) (text : string) : string := "instruction " +:+ pretty index +:+ " " +:+ text.

(** A backward jump, in [_recognize_loops] *)
Definition check_forward_jump (index : Z) (name : Name) (o : Operands) (state : State) (image_base : option Z)
    : result () :=
  let backward target := ValueError (instruction index (name_text name +:+ " target index " +:+ pretty target
    +:+ " is not strictly forward; a backward jump would be an unbounded loop, and the bounded loop back edge is the canonical BNE form")) in
  match name with
  | JAL => let target := index + field imm o `div` 4 in raise_if (target <=? index) (backward target)
  | JALR =>
      match _transfer_target name o index state image_base with
      | Some target => raise_if (target <=? index) (backward target)
      | None => mret ()
      end
  | _ => mret ()
  end.

(** A word of a loop's body, in [_recognize_loops] *)
Definition check_loop_body (index ind : Z) (body : Z * (Name * Operands)) : result () :=
  let transfer := is_branch body.2.1 || is_jump body.2.1 in
  raise_if (transfer || bool_decide (rd body.2.2 = Some ind))
    (ValueError ("instruction " +:+ pretty body.1 +:+ " is inside the loop at index " +:+ pretty index +:+ " but "
       +:+ (if transfer then "is a control transfer; a loop body may not branch"
            else "writes the induction register x" +:+ pretty ind))).

(** [decoded[i]] of an index that is in range *)
Definition at_index {A} (l : list A) (i : Z) : result A :=
  match l !! Z.to_nat i with Some a => mret a | None => Err (IndexError "list index out of range") end.
(** [decoded[low:high]], enumerated *)
Definition between {A} (l : list A) (low high : Z) : list (Z * A) :=
  filter (λ x, low ≤ x.1 < high) (enumerate l).

(** The loop a backward branch closes, in [_recognize_loops] *)
Definition recognize_loop (decoded : list (Name * Operands)) (reserved : list Z) (index target : Z)
    (name : Name) (o : Operands) : result LoopInfo :=
  raise_if (negb (bool_decide (name = BNE)))
    (ValueError (instruction index (name_text name +:+ " branches backward to index " +:+ pretty target
      +:+ "; a backward branch is a loop and only the canonical BNE back edge of a bounded loop is admitted"))) ;;
  match _loop_induction o with
  | None =>
      Err (ValueError (instruction index ("backward " +:+ name_text name
        +:+ " does not compare an induction register with x0; only `BNE xN, x0, head` is admitted")))
  | Some ind =>
      let head := target in
      let step := index - 1 in
      let init := head - 1 in
      raise_if ((init <? 0) || (step <? head))
        (ValueError (instruction index
          "backward branch has no room for the canonical loop shape (init, head, step, back edge)")) ;;
      '(init_name, init_operands) ← at_index decoded init;
      match _loop_init init_name init_operands ind with
      | None =>
          Err (ValueError (instruction init ("must be `addi x" +:+ pretty ind
            +:+ ", x0, K` with K in 2..6; the loop at index " +:+ pretty index
            +:+ " has no statically known trip count")))
      | Some trip =>
          '(step_name, step_operands) ← at_index decoded step;
          raise_if (negb (_is_induction_step step_name step_operands ind))
            (ValueError (instruction step ("must be `addi x" +:+ pretty ind +:+ ", x" +:+ pretty ind
              +:+ ", -1`; the loop at index " +:+ pretty index +:+ " has no statically known induction step"))) ;;
          raise_if (bool_decide (ind ∈ reserved) || (ind =? 0))
            (ValueError (instruction index ("loop induction register x" +:+ pretty ind
              +:+ " is x0 or a reserved register"))) ;;
          for_each (check_loop_body index ind) (between decoded head step) ;;
          mret (mkLoop init head step index trip ind)
      end
  end.

(** [_recognize_loops] *)
Definition _recognize_loops (decoded : list (Name * Operands)) (states : list State) (image_base : option Z)
    (reserved : list Z) : result (list LoopInfo) :=
  fold_result (λ loops (x : Z * (Name * Operands)),
    let '(index, (name, o)) := x in
    if negb (is_branch name) then
      check_forward_jump index name o (default unknown_state (states !! Z.to_nat index)) image_base ;;
      mret loops
    else
      let target := index + field imm o `div` 4 in
      if index <? target then mret loops
      else l ← recognize_loop decoded reserved index target name o; mret (loops ++ [l]))
    [] (enumerate decoded).

(** Two loops that overlap, in [_check_loop_targets] *)
Definition check_disjoint (loops : list LoopInfo) : result () :=
  for_each (λ left : Z * LoopInfo,
    for_each (λ right : Z * LoopInfo,
      raise_if ((init left.2 <=? back_edge right.2) && (init right.2 <=? back_edge left.2))
        (ValueError ("two bounded loops overlap at indices " +:+ pretty (Z.max (init left.2) (init right.2))
          +:+ ".." +:+ pretty (Z.min (back_edge left.2) (back_edge right.2))
          +:+ "; nested or interleaved loops are not admitted")))
      (filter (λ right, left.1 < right.1) (enumerate loops)))
    (enumerate loops).

(** A JALR without a target: the misaligned address is reported first *)
Definition unresolved_jalr (index : Z) (o : Operands) (state : State) (image_base : option Z) : result () :=
  match prov_at state (field rs1 o), image_base with
  | Const v, Some _ =>
      let address := jalr_address v (field imm o) in
      raise_if (negb (address `mod` 4 =? 0))
        (ValueError (instruction index ("JALR target address " +:+ hex 8 address +:+ " is not 4-byte aligned")))
  | _, _ => mret ()
  end.
(** The message reads [operands["rs1"]], which a JAL does not have. *)
Definition not_proven (index : Z) (o : Operands) : exn :=
  match rs1 o with
  | None => KeyError "rs1"
  | Some base => ValueError (instruction index ("JALR base x" +:+ pretty base
      +:+ " is not a statically proven constant address; an indirect jump is refused"))
  end.

(** One transfer of [_check_loop_targets] *)
Definition check_transfer (loops : list LoopInfo) (length : Z) (image_base : option Z) (index : Z) (name : Name)
    (o : Operands) (state : State) : result () :=
  match _transfer_target name o index state image_base with
  | None =>
      if bool_decide (name = JALR) then unresolved_jalr index o state image_base ;; Err (not_proven index o)
      else mret ()
  | Some target =>
      let text := name_text name +:+ " target index " +:+ pretty target in
      raise_if ((target <? 0) || (length <? target))
        (ValueError (instruction index (text +:+ " is outside the installed program (length "
           +:+ pretty length +:+ ")"))) ;;
      raise_if (target =? index)
        (ValueError (instruction index (name_text name
           +:+ " target is the instruction itself; an infinite self-loop is refused"))) ;;
      for_each (λ l,
        raise_if (negb ((index =? back_edge l) && (target =? head l))
                  && ((init l <=? target) && (target <=? back_edge l)))
          (ValueError (instruction index (text +:+ " is inside the bounded loop at index " +:+ pretty (back_edge l)
             +:+ " (" +:+ pretty (init l) +:+ ".." +:+ pretty (back_edge l)
             +:+ "); a loop is entered only through its own init and left only by falling through")))) loops ;;
      raise_if (is_jump name && (target <=? index))
        (ValueError (instruction index (text +:+ " is not strictly forward; a backward jump would be an unbounded loop, and the bounded loop back edge is the canonical BNE form")))
  end.

(** [_check_loop_targets] *)
Definition _check_loop_targets (decoded : list (Name * Operands)) (states : list State) (loops : list LoopInfo)
    (image_base : option Z) : result () :=
  check_disjoint loops ;;
  for_each (λ x : Z * (Name * Operands),
    let '(index, (name, o)) := x in
    if is_branch name || is_jump name then
      check_transfer loops (Z.of_nat (length decoded)) image_base index name o
        (default unknown_state (states !! Z.to_nat index))
    else mret ()) (enumerate decoded).

(** [dict.fromkeys(old + new)] of every node *)
Definition merge_edges (old new : list (list Z)) : list (list Z) :=
  zip_with (λ o n, dict_fromkeys (o ++ n)) old new.

(** The [for _ in range(count + 2)] loop of [control_flow_analysis] *)
Fixpoint grow_edges (rounds : nat) (decoded : list (Name * Operands)) (image_base : option Z)
    (successors : list (list Z)) (states : list State) : result (list (list Z)) :=
  match rounds with
  | O => mret successors
  | S rounds =>
      let merged := merge_edges successors (_control_successors decoded states image_base) in
      if bool_decide (merged = successors) then mret successors
      else
        states ← _flow_states decoded merged;
        grow_edges rounds decoded image_base merged states
  end.

(** One jump of the last loop of [control_flow_analysis] *)
Definition jump_target (allow_jumps : bool) (image_base : option Z) (index : Z) (name : Name) (o : Operands)
    (state : State) : result JumpTarget :=
  (if bool_decide (name = JALR) then unresolved_jalr index o state image_base else mret ()) ;;
  match _transfer_target name o index state image_base with
  | None => Err (not_proven index o)
  | Some target =>
      raise_if (bool_decide (name = JAL) && negb allow_jumps)
        (ValueError (instruction index "is a jump; the trampoline program is straight-line")) ;;
      mret (mkJump index name target (field rd o))
  end.

(** Branches that are not forward, where loops are not allowed *)
Definition refuse_backward (decoded : list (Name * Operands)) : result () :=
  for_each (λ x : Z * (Name * Operands),
    raise_if (is_branch x.2.1 && (field imm x.2.2 <? 0))
      (ValueError (instruction x.1 ("branch target is not strictly forward (offset "
         +:+ pretty (field imm x.2.2) +:+ "); loops are refused")))) (enumerate decoded).

(** [_reserved_set] *)
Definition _reserved_set (reserved : list Z) : result (list Z) :=
  for_each (λ reg, raise_if (negb ((0 <=? reg) && (reg <? 32)))
    (ValueError ("reserved register " +:+ pretty reg +:+ " is not an integer in [0, 31]"))) reserved ;;
  mret reserved.

(** A word of [control_flow_analysis] *)
Definition decode_word (iw : Z * Z) : result (Name * Operands) :=
  word_range iw.1 iw.2 ;;
  match _decode true true iw.2 with
  | Err (ValueError msg) =>
      Err (ValueError ("instruction " +:+ pretty iw.1 +:+ " is not a legal trampoline instruction: " +:+ msg))
  | r => r
  end.

Definition check_image_base (image_base : option Z) : result () :=
  raise_if match image_base with Some b => negb ((0 <=? b) && (b <=? _MASK32)) | None => false end
    (ValueError "image_base must be a 32-bit unsigned integer or None").

(** [control_flow_analysis] *)
Definition control_flow_analysis (allow_jumps allow_loops : bool) (image_base : option Z) (reserved : list Z)
    (words : list Z) : result ControlFlow :=
  raise_if (bool_decide (words = [])) (ValueError "program has no instruction") ;;
  decoded ← map_result decode_word (enumerate words);
  check_image_base image_base ;;
  let count := length decoded in
  let first := _control_successors decoded (replicate count unknown_state) None in
  states ← _flow_states decoded first;
  successors ← grow_edges (count + 2) decoded image_base first states;
  states ← _flow_states decoded successors;
  loops ← (if allow_loops then
             reserved ← _reserved_set reserved; _recognize_loops decoded states image_base reserved
           else mret []);
  (if allow_loops then mret () else refuse_backward decoded) ;;
  _check_loop_targets decoded states loops image_base ;;
  jumps ← fold_result (λ jumps (x : Z * (Name * Operands)),
    let '(index, (name, o)) := x in
    if is_jump name then
      j ← jump_target allow_jumps image_base index name o (default unknown_state (states !! Z.to_nat index));
      mret (jumps ++ [j])
    else mret jumps) [] (enumerate decoded);
  raise_if (negb (bool_decide (jumps = [])) && negb allow_jumps)
    (ValueError "the trampoline program is straight-line; jumps are refused") ;;
  let repeats := foldr Z.add 0 ((λ l, (trip_count l - 1) * loop_length l) <$> loops) in
  mret (mkControl decoded successors jumps loops (Z.of_nat count + repeats)).

(** ** Admission *)

(** [RiscvProfile], its fields that matter here *)
Record RiscvProfile := mkProfile { xlen : Z; extensions : gset string; register_count : Z }.
Definition has (p : RiscvProfile) (extension : string) : bool := bool_decide (extension ∈ extensions p).

(** [_check_profile] *)
Definition _check_profile (p : RiscvProfile) : result RiscvProfile :=
  raise_if (negb (xlen p =? 32)) (ValueError ("profile must be RV32 (xlen 32), not xlen " +:+ pretty (xlen p))) ;;
  raise_if (negb (has p "I" || has p "E"))
    (ValueError "profile must declare the I or E base extension, not ") ;;
  raise_if (negb ((register_count p =? 16) || (register_count p =? 32)))
    (ValueError ("profile register_count must be 16 or 32, not " +:+ pretty (register_count p))) ;;
  mret p.

(** [CATALOG[name].extension] of the names [_decode] gives *)
Definition extension_of (name : Name) : string :=
  match name with MUL | MULH | MULHSU | MULHU | DIV | DIVU | REM | REMU => "M" | _ => "I" end.
(** [_extension_available] *)
Definition _extension_available (p : RiscvProfile) (name : Name) : bool :=
  let extension := extension_of name in
  if bool_decide (extension = "I") then has p "I" || has p "E" else has p extension.

(** [_reserved_label] *)
Definition _reserved_label (reg : Z) : string :=
  if reg =? 8 then "mailbox register" else if reg =? 9 then "slot base register"
  else if reg =? 18 then "data-window base register" else "register".

(** [_validate_branch_target] *)
Definition _validate_branch_target (index offset length : Z) (allow_loops : bool) : result () :=
  raise_if (negb (offset `mod` 4 =? 0))
    (ValueError (instruction index ("branch offset " +:+ pretty offset +:+ " is not 4-byte aligned"))) ;;
  raise_if ((offset <=? 0) && negb allow_loops)
    (ValueError (instruction index ("branch target is not strictly forward (offset " +:+ pretty offset
       +:+ "); loops are refused"))) ;;
  raise_if (offset =? 0)
    (ValueError (instruction index "branch target is the branch itself (offset 0); an infinite self-loop is refused")) ;;
  let target := index + offset `div` 4 in
  raise_if (length <? target)
    (ValueError (instruction index ("branch target index " +:+ pretty target +:+ " is beyond the installed program (length "
       +:+ pretty length +:+ "); only a target up to the appended return jump is admitted"))) ;;
  raise_if (target <? 0)
    (ValueError (instruction index ("branch target index " +:+ pretty target +:+ " is before the installed program"))).

(** [_validate_jump_word] *)
Definition _validate_jump_word (index : Z) (name : Name) (o : Operands) (length : Z) : result () :=
  let rd := field rd o in
  raise_if (negb ((rd =? 0) || (rd =? 1)))
    (ValueError (instruction index (name_text name +:+ " link destination x" +:+ pretty rd
       +:+ " is not x0 or x1; only x0 and x1 are admitted"))) ;;
  if bool_decide (name = JAL) then
    let offset := field imm o in
    raise_if (negb (offset `mod` 4 =? 0))
      (ValueError (instruction index ("JAL offset " +:+ pretty offset +:+ " is not 4-byte aligned"))) ;;
    let target := index + offset `div` 4 in
    raise_if (length <? target)
      (ValueError (instruction index ("JAL target index " +:+ pretty target +:+ " is beyond the installed program (length "
         +:+ pretty length +:+ "); only a target up to the appended return jump is admitted"))) ;;
    raise_if (target <? 0)
      (ValueError (instruction index ("JAL target index " +:+ pretty target +:+ " is before the installed program")))
  else mret ().

(** The switches of [validate_program_words] *)
Record Flags := mkFlags {
  allow_branches : bool; allow_address_forms : bool; allow_jumps : bool; allow_loops : bool }.

(** [for field in ("rd", "rs1", "rs2")] in [_validate_word] *)
Definition check_registers (p : RiscvProfile) (index : Z) (o : Operands) : result () :=
  for_each (λ f : string * option Z,
    match f.2 with
    | None => mret ()
    | Some reg =>
        raise_if (register_count p <=? reg)
          (ValueError (instruction index ("is not legal for this profile: " +:+ f.1 +:+ " x" +:+ pretty reg
             +:+ " does not exist in a profile with " +:+ pretty (register_count p) +:+ " registers")))
    end) [("rd", rd o); ("rs1", rs1 o); ("rs2", rs2 o)].

(** The memory rule of [_validate_word] *)
Definition check_memory_word (flags : Flags) (window_size : option Z) (index : Z) (o : Operands) : result () :=
  let offset := field imm o in
  if negb (field rs1 o =? _MEMORY_BASE) then
    if allow_address_forms flags then
      raise_if (negb (offset =? 0))
        (ValueError (instruction index "memory access with a computed base must use immediate 0"))
    else Err (ValueError (instruction index ("memory access must use x18 as its base (rs1 = x"
                +:+ pretty (field rs1 o) +:+ ")")))
  else
    raise_if (negb (offset `mod` 4 =? 0))
      (ValueError (instruction index ("memory access offset " +:+ pretty offset +:+ " is not 4-byte aligned"))) ;;
    raise_if match window_size with Some w => negb ((0 <=? offset) && (offset <=? w - 4)) | None => false end
      (ValueError (instruction index ("memory access leaves the declared data window (offset "
         +:+ pretty offset +:+ ")"))).

(** [_validate_word] *)
Definition _validate_word (p : RiscvProfile) (flags : Flags) (window_size : option Z) (reserved : list Z)
    (length index word : Z) : result () :=
  word_range index word ;;
  raise_if (negb (word &&& 3 =? 3))
    (ValueError (instruction index "is compressed; a 32-bit word is required")) ;;
  let opcode := word &&& 0x7f in
  raise_if (((opcode =? 0x63) || (opcode =? 0x67) || (opcode =? 0x6f) || (opcode =? 0x73))
            && negb ((opcode =? 0x63) && allow_branches flags
                     || ((opcode =? 0x6f) || (opcode =? 0x67)) && allow_jumps flags))
    (ValueError (instruction index
       "is a control-flow or system instruction; the trampoline program is straight-line")) ;;
  '(name, o) ← match _decode (allow_branches flags) (allow_jumps flags) word with
               | Err (ValueError msg) =>
                   Err (ValueError (instruction index ("is not a legal trampoline instruction: " +:+ msg)))
               | r => r
               end;
  check_registers p index o ;;
  raise_if (negb (_extension_available p name))
    (ValueError (instruction index ("is not legal for this profile: " +:+ name_text name
       +:+ " requires extension " +:+ extension_of name +:+ ", profile declares "))) ;;
  if is_branch name then _validate_branch_target index (field imm o) length (allow_loops flags)
  else if is_jump name then _validate_jump_word index name o length
  else
    raise_if match rd o with Some r => negb (r =? 0) && bool_decide (r ∈ reserved) | None => false end
      (ValueError (instruction index ("writes the reserved " +:+ _reserved_label (field rd o)
         +:+ " x" +:+ pretty (field rd o)))) ;;
    if (opcode =? 0x03) || (opcode =? 0x23) then check_memory_word flags window_size index o else mret ().

(** [validate_program_words] *)
Definition validate_program_words (profile : RiscvProfile) (window_size : option Z) (reserved : list Z)
    (flags : Flags) (image_base : option Z) (words : list Z) : result () :=
  profile ← _check_profile profile;
  window ← _check_window window_size;
  reserved_set ← _reserved_set reserved;
  check_image_base image_base ;;
  raise_if (allow_loops flags && negb (allow_branches flags))
    (ValueError "allow_loops requires allow_branches: a bounded loop's back edge is a B-type branch") ;;
  raise_if (bool_decide (words = [])) (ValueError "program has no instruction") ;;
  for_each (λ iw, _validate_word profile flags window reserved_set (Z.of_nat (length words)) iw.1 iw.2)
    (enumerate words) ;;
  (if allow_address_forms flags then
     match window with
     | None => _memory_uses words None ;; mret ()
     | Some _ => validate_address_program words window
     end
   else mret ()) ;;
  if allow_jumps flags || allow_loops flags || allow_branches flags then
    control_flow_analysis (allow_jumps flags) (allow_loops flags) image_base reserved words ;; mret ()
  else mret ().

(** ** Execution *)

Definition _signed (value : Z) : Z := if value &&& 0x80000000 =? 0 then value else value - (1 ≪ 32).
Definition _trunc_div (dividend divisor : Z) : Z :=
  let quotient := Z.abs dividend `div` Z.abs divisor in
  if Bool.eqb (dividend <? 0) (divisor <? 0) then quotient else - quotient.
Definition int_of (b : bool) : Z := if b then 1 else 0.

(** [_alu_value] *)
Definition _alu_value (name : Name) (a b : Z) (o : Operands) : result Z :=
  let imm := field imm o in
  let shamt := field shamt o in
  match name with
  | ADDI => mret ((a + imm) &&& _MASK32)
  | SLTI => mret (int_of (_signed a <? imm))
  | SLTIU => mret (int_of (a <? (imm &&& _MASK32)))
  | XORI => mret (Z.lxor a (imm &&& _MASK32))
  | ORI => mret (a ||| (imm &&& _MASK32))
  | ANDI => mret (a &&& (imm &&& _MASK32))
  | SLLI => mret ((a ≪ shamt) &&& _MASK32)
  | SRLI => mret (a ≫ shamt)
  | SRAI => mret ((_signed a ≫ shamt) &&& _MASK32)
  | ADD => mret ((a + b) &&& _MASK32)
  | SUB => mret ((a - b) &&& _MASK32)
  | SLL => mret ((a ≪ (b &&& 31)) &&& _MASK32)
  | SLT => mret (int_of (_signed a <? _signed b))
  | SLTU => mret (int_of (a <? b))
  | XOR => mret (Z.lxor a b)
  | SRL => mret (a ≫ (b &&& 31))
  | SRA => mret ((_signed a ≫ (b &&& 31)) &&& _MASK32)
  | OR => mret (a ||| b)
  | AND => mret (a &&& b)
  | MUL => mret ((a * b) &&& _MASK32)
  | MULH => mret (((_signed a * _signed b) ≫ 32) &&& _MASK32)
  | MULHSU => mret (((_signed a * b) ≫ 32) &&& _MASK32)
  | MULHU => mret (((a * b) ≫ 32) &&& _MASK32)
  | DIV => mret (if b =? 0 then _MASK32 else _trunc_div (_signed a) (_signed b) &&& _MASK32)
  | DIVU => mret (if b =? 0 then _MASK32 else a `div` b)
  | REM =>
      mret (if b =? 0 then a
            else if (a =? 0x80000000) && (b =? _MASK32) then 0
            else
              let quotient := _trunc_div (_signed a) (_signed b) in
              (_signed a - quotient * _signed b) &&& _MASK32)
  | REMU => mret (if b =? 0 then a else a `mod` b)
  | _ => Err (AssertionError ("unhandled instruction " +:+ name_text name))
  end.

(** [_branch_taken] *)
Definition _branch_taken (name : Name) (left right : Z) : result bool :=
  match name with
  | BEQ => mret (left =? right)
  | BNE => mret (negb (left =? right))
  | BLT => mret (_signed left <? _signed right)
  | BGE => mret (_signed right <=? _signed left)
  | BLTU => mret (left <? right)
  | BGEU => mret (right <=? left)
  | _ => Err (AssertionError ("not a branch: " +:+ name_text name))
  end.

(** The register file and the sparse data window *)
Record Machine := mkMachine { registers : list Z; memory : gmap Z Z }.
Definition reg (m : Machine) (r : Z) : Z := nth (Z.to_nat r) (registers m) 0.
(** [if rd: state[rd] = value] *)
Definition write_reg (r value : Z) (m : Machine) : Machine :=
  if r =? 0 then m else mkMachine (<[Z.to_nat r := value]> (registers m)) (memory m).

(** [_Executed], the fields [run_program] reports *)
Record Executed := mkExecuted {
  ex_name : Name; ex_rd : option Z; ex_value : Z; next_pc : Z; address : option Z; store : bool; load : bool }.

Definition misaligned (index : Z) (name : Name) (address : Z) : exn :=
  ValueError (instruction index (name_text name +:+ " effective address " +:+ hex 8 address
    +:+ " is not 4-byte aligned")).

(** [_execute_word] *)
Definition _execute_word (allow_branches allow_jumps : bool) (word pc index : Z) (m : Machine)
    : result (Executed * Machine) :=
  '(name, o) ← _decode allow_branches allow_jumps word;
  let next := (pc + 4) &&& _MASK32 in
  let write value (m : Machine) :=
    mret (mkExecuted name (rd o) value next None false false,
          match rd o with Some r => write_reg r value m | None => m end) in
  match name with
  | JAL | JALR =>
      let target := if bool_decide (name = JAL) then (pc + field imm o) &&& _MASK32
                    else jalr_address (reg m (field rs1 o)) (field imm o) in
      let link := field rd o in
      mret (mkExecuted name (if link =? 0 then None else Some link) next target None false false,
            write_reg link next m)
  | LUI => write ((field imm o ≪ 12) &&& _MASK32) m
  | AUIPC => write ((pc + (field imm o ≪ 12)) &&& _MASK32) m
  | BEQ | BNE | BLT | BGE | BLTU | BGEU =>
      taken ← _branch_taken name (reg m (field rs1 o)) (reg m (field rs2 o));
      mret (mkExecuted name None 0 (if taken : bool then (pc + field imm o) &&& _MASK32 else next) None false false, m)
  | SW =>
      let address := (reg m (field rs1 o) + field imm o) &&& _MASK32 in
      raise_if (negb (address `mod` 4 =? 0)) (misaligned index name address) ;;
      let stored := reg m (field rs2 o) in
      mret (mkExecuted name None stored next (Some address) true false,
            mkMachine (registers m) (<[address := stored]> (memory m)))
  | LW =>
      let address := (reg m (field rs1 o) + field imm o) &&& _MASK32 in
      raise_if (negb (address `mod` 4 =? 0)) (misaligned index name address) ;;
      let value := default 0 (memory m !! address) in
      mret (mkExecuted name (rd o) value next (Some address) false true, write_reg (field rd o) value m)
  | _ =>
      let right := match rs2 o with Some r => reg m r | None => 0 end in
      value ← _alu_value name (reg m (field rs1 o)) right o;
      write value m
  end.

Record RetirementTrace := mkTrace { tr_pc : Z; tr_insn : Name; tr_rd : Z; tr_wdata : Z }.
(** One row of [register_writes] *)
Record Write := mkWrite { wr_index : Z; wr_pc : Z; wr_name : Name; wr_rd : Z; wr_value : Z }.

(** [_check_step_bound] *)
Definition _check_step_bound (max_steps : option Z) (length : Z) (control : option ControlFlow) : result Z :=
  match max_steps with
  | None => mret (match control with Some c => step_limit c + 1 | None => length + 1 end)
  | Some n =>
      raise_if (n <? 1) (ValueError "max_steps must be a positive integer or None") ;;
      mret n
  end.

(** [_check_register_state], [_check_memory_state] *)
Definition _check_register_state (regs : list (Z * Z)) : result (list Z) :=
  state ← fold_result (λ state kv,
    raise_if (negb ((0 <=? kv.1) && (kv.1 <? 32)))
      (ValueError ("register number " +:+ pretty kv.1 +:+ " is not an integer in [0, 31]")) ;;
    raise_if (negb ((0 <=? kv.2) && (kv.2 <=? _MASK32)))
      (ValueError ("register x" +:+ pretty kv.1 +:+ " value " +:+ pretty kv.2
         +:+ " is not a 32-bit unsigned integer")) ;;
    mret (<[Z.to_nat kv.1 := kv.2]> state)) (replicate 32 0) regs;
  mret (<[0%nat := 0]> state).
Definition _check_memory_state (mem : list (Z * Z)) : result (gmap Z Z) :=
  for_each (λ kv : Z * Z,
    raise_if (negb ((0 <=? kv.1) && (kv.1 <=? _MASK32)))
      (ValueError ("memory address " +:+ pretty kv.1 +:+ " is not a 32-bit unsigned integer")) ;;
    raise_if (negb ((0 <=? kv.2) && (kv.2 <=? _MASK32)))
      (ValueError ("memory value at " +:+ hex 8 kv.1 +:+ " is not a 32-bit unsigned integer"))) mem ;;
  mret (list_to_map mem).

(** What the loop of [run_program] has recorded *)
Record Log := mkLog { machine : Machine; writes : list Write; retirement : list RetirementTrace }.

Definition retire (index pc : Z) (e : Executed) (m : Machine) (log : Log) : Log :=
  let rd := default 0 (ex_rd e) in
  mkLog m
    (if rd =? 0 then writes log else writes log ++ [mkWrite index pc (ex_name e) rd (ex_value e)])
    (retirement log ++ [mkTrace pc (ex_name e) rd (if negb (rd =? 0) || store e then ex_value e else 0)]).

(** The [while] loop of [run_program]; [room] is how many steps the bound
    still allows. *)
Fixpoint run_loop (branching jumping : bool) (words : list Z) (pc_base cap : Z) (room : nat) (pc : Z) (log : Log)
    {struct room} : result Log :=
  let count := Z.of_nat (length words) in
  if pc =? (pc_base + 4 * count) &&& _MASK32 then mret log
  else
    let offset := (pc - pc_base) &&& _MASK32 in
    match (if offset `mod` 4 =? 0 then words !! Z.to_nat (offset `div` 4) else None) with
    | None =>
        Err (ValueError ("pc " +:+ hex 8 pc +:+ " is outside the installed program (" +:+ pretty count
               +:+ " word(s) at " +:+ hex 8 pc_base +:+ ")"))
    | Some word =>
        let index := offset `div` 4 in
        '(e, m) ← _execute_word branching jumping word pc index (machine log);
        match room with
        | O => Err (ValueError ("program exceeded the " +:+ pretty cap
                 +:+ "-step bound; the image is not a bounded straight-line or forward-branch program"))
        | S room => run_loop branching jumping words pc_base cap room (next_pc e) (retire index pc e m log)
        end
    end.

(** The result document of [run_program] *)
Record Run := mkRun {
  retires : Z; register_writes : list Write; final_registers : list (Z * Z);
  memory_changes : list (Z * Z); trace : list RetirementTrace; pc_order : list Z }.

#[export] Instance address_le_dec : RelDecision (λ a b : Z * Z, a.1 ≤ b.1).
Proof. intros a b. apply _. Defined.

Definition report (initial : gmap Z Z) (log : Log) : Run :=
  mkRun (Z.of_nat (length (retirement log))) (writes log)
    (filter (λ rv, rv.2 ≠ 0) (enumerate (registers (machine log))))
    (filter (λ av, default 0 (initial !! av.1) ≠ av.2)
       (merge_sort (λ a b, a.1 ≤ b.1) (map_to_list (memory (machine log)))))
    (retirement log) (tr_pc <$> retirement log).

Definition _REFERENCE_PROFILE : RiscvProfile := mkProfile 32 {["I"; "M"]} 32.

(** [run_program] *)
Definition run_program (regs mem : list (Z * Z)) (data_base window_size : option Z) (flags : Flags)
    (max_steps : option Z) (validate : bool) (words : list Z) : result Run :=
  raise_if (bool_decide (words = [])) (ValueError "program has no instruction") ;;
  raise_if match data_base with Some b => negb ((0 <=? b) && (b <=? _MASK32)) | None => false end
    (ValueError "data_base must be a 32-bit unsigned integer or None") ;;
  let pc_base := default 0 data_base in
  control ← (if validate then
               validate_program_words _REFERENCE_PROFILE window_size DEFAULT_RESERVED_REGISTERS flags
                 (Some pc_base) words ;;
               if allow_branches flags || allow_jumps flags || allow_loops flags then
                 c ← control_flow_analysis (allow_jumps flags) (allow_loops flags) (Some pc_base)
                       DEFAULT_RESERVED_REGISTERS words;
                 mret (Some c)
               else mret None
             else mret None);
  state ← _check_register_state regs;
  initial_memory ← _check_memory_state mem;
  cap ← _check_step_bound max_steps (Z.of_nat (length words)) control;
  log ← run_loop (allow_branches flags) (allow_jumps flags) words pc_base cap (Z.to_nat cap) pc_base
          (mkLog (mkMachine state initial_memory) [] []);
  mret (report initial_memory log).

(** [reference_run] *)
Definition reference_run (regs mem : list (Z * Z)) (data_base window_size : option Z) (flags : Flags)
    (max_steps : option Z) (words : list Z) : result Run :=
  run_program regs mem data_base window_size flags max_steps true words.
