(* ===== verification/RvFlowSpec.v ===== *)
(** * The static analysis of short programs is sound

    [_merge_provenance] joins the order [prov_le]; [flow_states_least] says that
    the worklist of [_flow_states], when it ends, has the least solution of the
    flow equations, and [cfa_sound] that a program [control_flow_analysis] accepts
    has a solution in which every edge is followed, computed jumps included. *)

From S2P Require Import Prelude Json RvProgram.

Local Open Scope Z_scope.

(** ** Words and fields *)

Lemma mask_mod x : x &&& _MASK32 = x `mod` 2 ^ 32.
Proof. exact (Z.land_ones x 32 ltac:(lia)). Qed.
Lemma mask_range x : 0 ≤ x &&& _MASK32 < 2 ^ 32.
Proof. rewrite mask_mod. apply Z.mod_pos_bound. lia. Qed.
Lemma mask_small x : 0 ≤ x < 2 ^ 32 → x &&& _MASK32 = x.
Proof. intros. rewrite mask_mod. by apply Z.mod_small. Qed.
Lemma mask_add_l x y : ((x &&& _MASK32) + y) &&& _MASK32 = (x + y) &&& _MASK32.
Proof. rewrite !mask_mod. by rewrite Zplus_mod_idemp_l. Qed.
Lemma mask_add_r x y : (x + (y &&& _MASK32)) &&& _MASK32 = (x + y) &&& _MASK32.
Proof. rewrite !mask_mod. by rewrite Zplus_mod_idemp_r. Qed.
Lemma mask_sub_l x y : ((x &&& _MASK32) - y) &&& _MASK32 = (x - y) &&& _MASK32.
Proof. rewrite !mask_mod. by rewrite Zminus_mod_idemp_l. Qed.

Lemma five_bits x : 0 ≤ x &&& 0x1f < 32.
Proof. change 0x1f with (Z.ones 5). rewrite Z.land_ones by lia. apply Z.mod_pos_bound. lia. Qed.

(** What [_decode] can give *)
Definition register_ok (r : option Z) : Prop := match r with Some r => 0 ≤ r < 32 | None => True end.
Definition plain (n : Name) : bool :=
  match n with C_LI | C_LUI | C_ADDI | C_ANDI | C_MV | C_ADD => false | _ => true end.
Definition writes_rd (n : Name) : bool := negb (is_branch n || bool_decide (n = SW)).

Record shaped (n : Name) (o : Operands) : Prop := {
  sh_plain : plain n = true;
  sh_rd : if writes_rd n then is_Some (rd o) else rd o = None;
  sh_rd_ok : register_ok (rd o);
  sh_rs1_ok : register_ok (rs1 o);
  sh_rs2_ok : register_ok (rs2 o);
  sh_add : n = ADD → is_Some (rs2 o) }.

Ltac shape := split; cbn; try done; try (by eexists); try apply five_bits.

Lemma decode_branch_shape w n o : _decode_branch w = Ok (n, o) → shaped n o ∧ is_branch n = true.
Proof.
  unfold _decode_branch, _BRANCH_FUNCT3. cbv zeta.
  repeat (destruct (_ =? _); [intros [= <- <-]; split; [shape|done]|]). done.
Qed.
Lemma decode_jump_shape w n o : _decode_jump w = Ok (n, o) → shaped n o ∧ is_jump n = true.
Proof.
  unfold _decode_jump. cbv zeta. destruct (_ =? 0x6f); [intros [= <- <-]; split; [shape|done]|].
  destruct (_ =? 0x67); [|done]. destruct (negb _); [done|]. intros [= <- <-]. split; [shape|done].
Qed.
Definition straight (n : Name) : bool := negb (is_branch n || is_jump n).
Lemma decode_op_imm_shape w n o : decode_op_imm w = Ok (n, o) → shaped n o ∧ straight n = true ∧ is_memory n = false.
Proof.
  unfold decode_op_imm, _I_FUNCT3. cbv zeta.
  destruct (_ =? 1); [destruct (negb _); [done|]; intros [= <- <-]; split; [shape|done]|].
  destruct (_ =? 5); [destruct (negb _); [done|]; destruct (_ ≫ 25 =? 0); intros [= <- <-]; split; by shape|].
  repeat (destruct (_ =? _); [intros [= <- <-]; split; [shape|done]|]). done.
Qed.
Lemma decode_op_shape w n o : decode_op w = Ok (n, o) → shaped n o ∧ straight n = true ∧ is_memory n = false.
Proof.
  unfold decode_op. cbv zeta.
  assert (Hok : ∀ name : option Name,
    (∀ k, name = Some k → plain k = true ∧ writes_rd k = true ∧ straight k = true ∧ is_memory k = false) →
    match name with
    | None => _IllegalEncoding ("OP funct7 " +:+ hex 2 (w ≫ 25) +:+ " funct3 " +:+ pretty ((w ≫ 12) &&& 0x07)
        +:+ " is not emittable")
    | Some name => mret (name, mkOperands (Some ((w ≫ 7) &&& 0x1f)) (Some ((w ≫ 15) &&& 0x1f))
                                 (Some ((w ≫ 20) &&& 0x1f)) None None)
    end = Ok (n, o) → shaped n o ∧ straight n = true ∧ is_memory n = false).
  { intros [k|] Hk; [|done]. destruct (Hk k eq_refl) as (Hp & Hw & Hs & Hm). intros [= <- <-].
    split; [|done]. split; cbn; rewrite ?Hw; [done|by eexists|apply five_bits..|by eexists]. }
  apply Hok. intros k. assert (∀ i, _R_FUNCT3 !! i = Some k ∨ _M_FUNCT3 !! i = Some k →
    plain k = true ∧ writes_rd k = true ∧ straight k = true ∧ is_memory k = false) as Htab.
  { intros i. do 9 (destruct i as [|i]; [by intros [[= <-]|[= <-]]|]). by intros [?|?]. }
  unfold _R_ALT. destruct (_ ≫ 25 =? 0); [intros ?; eapply Htab; by left|].
  destruct (_ ≫ 25 =? 0x20); [|destruct (_ ≫ 25 =? 1); [intros ?; eapply Htab; by right|done]].
  destruct (_ =? 0); [by intros [= <-]|]. destruct (_ =? 5); [by intros [= <-]|done].
Qed.

Lemma decode_shape ab aj w n o : _decode ab aj w = Ok (n, o) → shaped n o.
Proof.
  unfold _decode. cbv zeta.
  do 2 (destruct (_ =? _); [intros [= <- <-]; shape|]).
  destruct (_ =? 0x13); [by intros [? _]%decode_op_imm_shape|].
  destruct (_ =? 0x33); [by intros [? _]%decode_op_shape|].
  do 2 (destruct (_ =? _); [destruct (negb _); [done|]; intros [= <- <-]; shape|]).
  destruct (_ && ab); [by intros [? _]%decode_branch_shape|].
  destruct (_ && aj); [by intros [? _]%decode_jump_shape|done].
Qed.

(** What is decoded with some of the switches is decoded the same with all. *)
Lemma decode_more ab aj w r : _decode ab aj w = Ok r → _decode true true w = Ok r.
Proof.
  unfold _decode. cbv zeta. rewrite !andb_true_r.
  do 6 (destruct (_ =? _); [done|]).
  destruct (Z.eqb_spec (w &&& 0x7f) 0x63) as [->|_]; [by destruct ab|]. cbn [andb].
  destruct (_ || _); [by destruct aj|done].
Qed.

(** ** The order of provenance *)

Definition prov_le (p q : Provenance) : Prop :=
  match p, q with
  | _, Unknown => True
  | Const a, Const b => a = b
  | Window l h, Window l' h' => l' ≤ l ∧ h ≤ h'
  | _, _ => False
  end.

#[export] Instance prov_le_refl : Reflexive prov_le.
Proof. intros []; cbn; lia. Qed.
#[export] Instance prov_le_trans : Transitive prov_le.
Proof. intros [] [] []; cbn; try done; lia. Qed.

Lemma merge_left p q : prov_le p (_merge_provenance p q).
Proof. unfold _merge_provenance. case_bool_decide; [done|]. destruct p, q; cbn; try done; lia. Qed.
Lemma merge_right p q : prov_le q (_merge_provenance p q).
Proof. unfold _merge_provenance. case_bool_decide; [by subst|]. destruct p, q; cbn; try done; lia. Qed.
Lemma merge_least p q r : prov_le p r → prov_le q r → prov_le (_merge_provenance p q) r.
Proof.
  unfold _merge_provenance. case_bool_decide as H; [done|]. destruct p, q, r; cbn; try done; try lia.
  intros -> ->. by destruct H.
Qed.

Definition state_le (s t : State) : Prop := Forall2 prov_le s t.
#[export] Instance state_le_refl : Reflexive state_le.
Proof. intros s. change (Forall2 prov_le s s). reflexivity. Qed.
#[export] Instance state_le_trans : Transitive state_le.
Proof. intros s t u. change (Forall2 prov_le s t → Forall2 prov_le t u → Forall2 prov_le s u). apply transitivity. Qed.

Lemma merge_states_left s t : length s = length t → state_le s (merge_states s t).
Proof.
  revert t. induction s as [|x s IH]; intros [|y t] Hl; try done.
  constructor; [apply merge_left|]. apply IH. by injection Hl.
Qed.
Lemma merge_states_right s t : length s = length t → state_le t (merge_states s t).
Proof.
  revert t. induction s as [|x s IH]; intros [|y t] Hl; try done.
  constructor; [apply merge_right|]. apply IH. by injection Hl.
Qed.
Lemma merge_states_least s t u : state_le s u → state_le t u → state_le (merge_states s t) u.
Proof.
  intros Hs. revert t. induction Hs as [|x z s u Hx Hs IH]; intros t Ht; inversion Ht; subst; [constructor|].
  constructor; [by apply merge_least|by apply IH].
Qed.
Lemma merge_states_length s t : length s = length t → length (merge_states s t) = length s.
Proof. intros Hl. unfold merge_states. rewrite length_zip_with. lia. Qed.

Lemma prov_at_le s t r : state_le s t → prov_le (prov_at s r) (prov_at t r).
Proof.
  intros Hst. unfold prov_at. generalize (Z.to_nat r) as k. induction Hst as [|x y s t Hx _ IH]; intros [|k]; cbn; done.
Qed.
Lemma insert_le s t k p q : state_le s t → prov_le p q → state_le (<[k := p]> s) (<[k := q]> t).
Proof. intros Hs Hp. by apply Forall2_insert. Qed.

(** The transfer functions are monotone. *)
Lemma transfer_provenance_le n o s t :
  state_le s t → prov_le (_transfer_provenance n o s) (_transfer_provenance n o t).
Proof.
  intros Hst. pose proof (prov_at_le s t (field rs1 o) Hst) as H1.
  pose proof (prov_at_le s t (field rs2 o) Hst) as H2. pose proof (prov_at_le s t (field rd o) Hst) as Hd.
  assert (Haddi : ∀ p q k, prov_le p q → prov_le (addi_provenance p k) (addi_provenance q k)).
  { intros [] [] k; cbn; try done; try lia. by intros ->. }
  assert (Handi : ∀ p q k, prov_le p q → prov_le (andi_provenance p k) (andi_provenance q k)).
  { intros [] [] k; cbn; try done; try lia. by intros ->. }
  assert (Hadd : ∀ p q p' q', prov_le p q → prov_le p' q' → prov_le (add_provenance p p') (add_provenance q q')).
  { intros [] [] [] []; cbn; try done; intros; subst; try done; lia. }
  destruct n; cbn [_transfer_provenance]; try reflexivity; auto.
Qed.

Lemma straight_state_le n o s t : state_le s t → state_le (straight_state n o s) (straight_state n o t).
Proof.
  intros Hst. unfold straight_state. destruct (rd o) as [w|]; [|done]. destruct (w =? 0); [done|].
  destruct (w =? _MEMORY_BASE); apply insert_le; try done. by apply transfer_provenance_le.
Qed.
Lemma transfer_state_le n o s t : state_le s t → state_le (_transfer_state n o s) (_transfer_state n o t).
Proof.
  intros Hst. unfold _transfer_state. destruct (is_jump n); [|by apply straight_state_le].
  destruct (rd o) as [w|]; [|done]. destruct (w =? 0); [done|]. by apply insert_le.
Qed.
Lemma straight_state_length n o s : length (straight_state n o s) = length s.
Proof.
  unfold straight_state. destruct (rd o) as [w|]; [|done]. destruct (w =? 0); [done|].
  by destruct (w =? _MEMORY_BASE); rewrite length_insert.
Qed.
Lemma transfer_state_length n o s : length (_transfer_state n o s) = length s.
Proof.
  unfold _transfer_state. destruct (is_jump n); [|apply straight_state_length].
  destruct (rd o) as [w|]; [|done]. destruct (w =? 0); [done|]. by rewrite length_insert.
Qed.

(** ** The worklist *)

Section worklist.
Context (ds : list (Name * Operands)).
Implicit Types (sts : list (option State)) (T : nat → option State).

Definition node_at sts (i : nat) : option State := mjoin (sts !! i).
Definition targets (es : list (list Z)) (i : nat) : list Z := default [] (es !! i).
Definition in_range (j : Z) : Prop := 0 ≤ j < Z.of_nat (length ds).

(** A solution of the flow equations along the edges [es] *)
Record solution (es : list (list Z)) T : Prop := {
  sol_entry : ds ≠ [] → ∃ s, T 0%nat = Some s ∧ state_le initial_state s;
  sol_flow i n o cur j :
    ds !! i = Some (n, o) → T i = Some cur → j ∈ targets es i → in_range j →
    ∃ s, T (Z.to_nat j) = Some s ∧ state_le (_transfer_state n o cur) s }.

Definition below sts T : Prop := ∀ i s, node_at sts i = Some s → ∃ t, T i = Some t ∧ state_le s t.

(** What a visit does to states and worklist *)
Record grows sts work sts' work' : Prop := {
  gr_length : length sts' = length sts;
  gr_full : (∀ i s, node_at sts i = Some s → length s = 32%nat) → ∀ i s, node_at sts' i = Some s → length s = 32%nat;
  gr_old i s : node_at sts i = Some s → ∃ s', node_at sts' i = Some s' ∧ state_le s s';
  gr_new i s : node_at sts' i = Some s → node_at sts i = Some s ∨ i ∈ work';
  gr_work i : i ∈ (work : list nat) → i ∈ (work' : list nat) }.

Lemma grows_refl sts work : grows sts work sts work.
Proof. split; auto. intros i s Hs. exists s. split; [done|reflexivity]. Qed.
Lemma grows_trans sts work sts1 work1 sts2 work2 :
  grows sts work sts1 work1 → grows sts1 work1 sts2 work2 → grows sts work sts2 work2.
Proof.
  intros [L1 F1 O1 N1 W1] [L2 F2 O2 N2 W2]. split; [congruence|intros H; by apply F2, F1| | |auto].
  - intros i s Hs. destruct (O1 i s Hs) as (s1 & Hs1 & Hle1). destruct (O2 i s1 Hs1) as (s2 & Hs2 & Hle2).
    exists s2. split; [done|]. by transitivity s1.
  - intros i s Hs. destruct (N2 i s Hs) as [Hs1|?]; [|by right]. destruct (N1 i s Hs1); auto.
Qed.

Lemma node_at_insert sts k s i :
  (k < length sts)%nat → node_at (<[k := Some s]> sts) i = if decide (i = k) then Some s else node_at sts i.
Proof.
  intros Hk. unfold node_at. case_decide as Hi; [subst; by rewrite list_lookup_insert_eq|].
  by rewrite list_lookup_insert_ne.
Qed.

Lemma grows_insert sts work k s :
  (k < length sts)%nat → length s = 32%nat →
  (∀ old, node_at sts k = Some old → state_le old s) → grows sts work (<[k := Some s]> sts) (k :: work).
Proof.
  intros Hk Hs Hold. split.
  - by rewrite length_insert.
  - intros Hf i s'. rewrite node_at_insert by done. case_decide; [by intros [= <-]|apply Hf].
  - intros i s' Hi. rewrite node_at_insert by done. case_decide as He; [subst; exists s; auto|].
    exists s'. split; [done|reflexivity].
  - intros i s'. rewrite node_at_insert by done. case_decide as He; [subst; right; left|by left].
  - intros i Hi. by right.
Qed.

Lemma successor_grows outgoing sts work j sts' work' :
  length sts = length ds → length outgoing = 32%nat → (∀ i s, node_at sts i = Some s → length s = 32%nat) →
  flow_successor (Z.of_nat (length ds)) outgoing (sts, work) j = (sts', work') →
  grows sts work sts' work' ∧
  (in_range j → ∃ s, node_at sts' (Z.to_nat j) = Some s ∧ state_le outgoing s) ∧
  ∀ T, below sts T → (in_range j → ∃ t, T (Z.to_nat j) = Some t ∧ state_le outgoing t) → below sts' T.
Proof.
  intros Hl Ho Hf. unfold flow_successor. cbn [fst snd].
  destruct (negb ((0 <=? j) && (j <? Z.of_nat (length ds)))) eqn:Hj.
  { intros [= <- <-]. split; [apply grows_refl|]. split; [|done]. intros [H1 H2].
    apply negb_true_iff, andb_false_iff in Hj as [Hj|Hj]; [apply Z.leb_gt in Hj|apply Z.ltb_ge in Hj]; lia. }
  apply negb_false_iff, andb_true_iff in Hj as [H1%Z.leb_le H2%Z.ltb_lt].
  assert (Hk : (Z.to_nat j < length sts)%nat) by lia.
  fold (node_at sts (Z.to_nat j)). destruct (node_at sts (Z.to_nat j)) as [old|] eqn:Hold; cbn beta iota.
  - pose proof (Hf _ _ Hold) as Hlo. case_bool_decide as Hm.
    + intros [= <- <-]. split; [apply grows_refl|]. split; [|done]. intros _. exists old. split; [done|].
      rewrite <- Hm. apply merge_states_right. congruence.
    + intros [= <- <-]. split; [apply grows_insert; [done|rewrite merge_states_length; congruence|]|split].
      * intros s. rewrite Hold. intros [= <-]. apply merge_states_left. congruence.
      * intros _. exists (merge_states old outgoing). rewrite node_at_insert, decide_True by done.
        split; [done|]. apply merge_states_right. congruence.
      * intros T Hb Ht i s. rewrite node_at_insert by done. case_decide as Hi; [|apply Hb]. intros [= <-]. subst i.
        destruct (Hb _ _ Hold) as (t & Ht1 & Hle). destruct Ht as (t' & Ht2 & Hle'); [by split|].
        exists t. split; [done|]. apply merge_states_least; [done|congruence].
  - intros [= <- <-]. split; [apply grows_insert; [done..|by rewrite Hold]|split].
    + intros _. exists outgoing. rewrite node_at_insert, decide_True by done. split; [done|reflexivity].
    + intros T Hb Ht i s. rewrite node_at_insert by done. case_decide as Hi; [|apply Hb]. intros [= <-]. subst i.
      apply Ht. by split.
Qed.

Lemma successors_grow outgoing js sts work sts' work' :
  length sts = length ds → length outgoing = 32%nat → (∀ i s, node_at sts i = Some s → length s = 32%nat) →
  foldl (flow_successor (Z.of_nat (length ds)) outgoing) (sts, work) js = (sts', work') →
  grows sts work sts' work' ∧
  (∀ j, j ∈ js → in_range j → ∃ s, node_at sts' (Z.to_nat j) = Some s ∧ state_le outgoing s) ∧
  ∀ T, below sts T → (∀ j, j ∈ js → in_range j → ∃ t, T (Z.to_nat j) = Some t ∧ state_le outgoing t) → below sts' T.
Proof.
  intros Hl Ho. revert sts work Hl. induction js as [|j js IH]; intros sts work Hl Hf; cbn [foldl].
  { intros [= <- <-]. split; [apply grows_refl|]. split; [by intros j ?%not_elem_of_nil|done]. }
  destruct (flow_successor _ outgoing (sts, work) j) as [sts1 work1] eqn:H1.
  destruct (successor_grows outgoing sts work j sts1 work1 Hl Ho Hf H1) as (Hg1 & Hj1 & Hb1). intros H2.
  destruct (IH sts1 work1) as (Hg2 & Hj2 & Hb2); [rewrite (gr_length _ _ _ _ Hg1); done|by apply Hg1|done|].
  split; [by eapply grows_trans|]. split.
  - intros k [->|Hk]%elem_of_cons Hr; [|by apply Hj2]. destruct (Hj1 Hr) as (s & Hs & Hle).
    destruct (gr_old _ _ _ _ Hg2 _ _ Hs) as (s' & Hs' & Hle'). exists s'. split; [done|]. by transitivity s.
  - intros T Hb Ht. apply Hb2; [apply Hb1; [done|]; intros Hr; apply Ht; [left|done]|].
    intros k Hk Hr. apply Ht; [by right|done].
Qed.

(** The invariant of the loop *)
Record flowing (es : list (list Z)) sts (work : list nat) : Prop := {
  fl_length : length sts = length ds;
  fl_full i s : node_at sts i = Some s → length s = 32%nat;
  fl_entry : ds ≠ [] → ∃ s, node_at sts 0 = Some s ∧ state_le initial_state s;
  fl_closed i n o cur j :
    ds !! i = Some (n, o) → node_at sts i = Some cur → i ∉ work → j ∈ targets es i → in_range j →
    ∃ s, node_at sts (Z.to_nat j) = Some s ∧ state_le (_transfer_state n o cur) s;
  fl_least T : solution es T → below sts T }.

Lemma flowing_visit es sts index work n o cur sts' work' :
  flowing es sts (index :: work) → ds !! index = Some (n, o) → node_at sts index = Some cur →
  foldl (flow_successor (Z.of_nat (length ds)) (_transfer_state n o cur)) (sts, work) (targets es index) = (sts', work') →
  flowing es sts' work'.
Proof.
  intros [Hl Hf He Hc Hb] Hd Hcur Hfold.
  destruct (successors_grow (_transfer_state n o cur) (targets es index) sts work sts' work') as ([G1 G2 G3 G4 G5] & Hj & HT);
    [done|rewrite transfer_state_length; by eapply Hf|done|done|].
  split; [congruence|by apply G2| | |].
  - intros Hne. destruct (He Hne) as (s & Hs & Hle). destruct (G3 _ _ Hs) as (s' & Hs' & Hle').
    exists s'. split; [done|]. by transitivity s.
  - intros i n' o' cur' j Hi Hcur' Hw Hjt Hr.
    destruct (G4 i cur' Hcur') as [Hold|]; [|done].
    destruct (decide (i = index)) as [->|Hne].
    + assert (cur' = cur) as -> by congruence. assert ((n', o') = (n, o)) as [= -> ->] by congruence. by apply Hj.
    + destruct (Hc i n' o' cur' j) as (s & Hs & Hle); [done..| |done|done|].
      { intros [?|Hin]%elem_of_cons; [done|]. by apply Hw, G5. }
      destruct (G3 _ _ Hs) as (s' & Hs' & Hle'). exists s'. split; [done|]. by transitivity s.
  - intros T HS. apply HT; [by apply Hb|]. intros j Hjt Hr.
    destruct (Hb T HS index cur Hcur) as (t & Ht & Hle).
    destruct (sol_flow _ _ HS index n o t j) as (u & Hu & Hle'); [done..|]. exists u. split; [done|].
    transitivity (_transfer_state n o t); [|done]. by apply transfer_state_le.
Qed.

Lemma flow_loop_least es budget sts work sts' :
  flowing es sts work → flow_loop ds es budget sts work = Ok sts' → flowing es sts' [].
Proof.
  revert sts work. induction budget as [|budget IH]; intros sts [|index work] Hinv; cbn [flow_loop];
    try (by intros [= <-]).
  destruct (ds !! index) as [[n o]|] eqn:Hd; fold (node_at sts index).
  2: { intros Hrun. apply (IH sts work); [|done]. destruct Hinv as [Hl Hf He Hc Hb]. split; try done.
       intros i n o cur j Hi Hcur Hw. apply (Hc i n o cur j Hi Hcur). intros [->|?]%elem_of_cons; congruence. }
  destruct (node_at sts index) as [cur|] eqn:Hcur.
  2: { intros Hrun. apply (IH sts work); [|done]. destruct Hinv as [Hl Hf He Hc Hb]. split; try done.
       intros i n' o' cur j Hi Hcur' Hw. apply (Hc i n' o' cur j Hi Hcur'). intros [->|?]%elem_of_cons; congruence. }
  fold (targets es index). destruct (foldl _ _ _) as [sts1 work1] eqn:Hfold. intros Hrun.
  apply (IH sts1 work1); [|done]. by eapply flowing_visit.
Qed.

Lemma initial_length : length initial_state = 32%nat.
Proof. done. Qed.

Lemma flow_start es :
  flowing es (<[0%nat := Some initial_state]> (replicate (length ds) None)) (if (length ds =? 0)%nat then [] else [0%nat]).
Proof.
  assert (Hat : ∀ i s, node_at (<[0%nat := Some initial_state]> (replicate (length ds) None)) i = Some s →
    i = 0%nat ∧ s = initial_state ∧ ds ≠ []).
  { intros i s. unfold node_at. destruct (decide (0 < length ds)%nat) as [Hlt|Hz].
    - destruct (decide (i = 0%nat)) as [->|Hne].
      + rewrite list_lookup_insert_eq by (by rewrite length_replicate). intros [= <-]. split_and!; [done..|].
        intros ->. cbn in Hlt. lia.
      + rewrite list_lookup_insert_ne by done. destruct (_ !! i) as [x|] eqn:Hi; [|done].
        apply lookup_replicate in Hi as [-> _]. done.
    - rewrite list_insert_ge by (rewrite length_replicate; lia).
      destruct (_ !! i) as [x|] eqn:Hi; [|done]. apply lookup_replicate in Hi as [-> ?]. lia. }
  assert (H0 : ds ≠ [] → node_at (<[0%nat := Some initial_state]> (replicate (length ds) None)) 0 = Some initial_state).
  { intros Hne. unfold node_at. rewrite list_lookup_insert_eq; [done|]. rewrite length_replicate.
    destruct ds; [done|cbn; lia]. }
  split.
  - by rewrite length_insert, length_replicate.
  - intros i s Hs. by destruct (Hat i s Hs) as (_ & -> & _).
  - intros Hne. exists initial_state. split; [by apply H0|reflexivity].
  - intros i n o cur j _ Hs Hw. destruct (Hat i cur Hs) as (-> & _ & Hne). exfalso. apply Hw.
    destruct ds; [done|]. cbn. left.
  - intros T HS i s Hs. destruct (Hat i s Hs) as (-> & -> & Hne). by apply HS.
Qed.

(** What [_flow_states] returns is the least solution. *)
Lemma flow_states_least es out :
  _flow_states ds es = Ok out →
  ∃ S, solution es S ∧ (∀ T, solution es T → ∀ i s, S i = Some s → ∃ t, T i = Some t ∧ state_le s t) ∧
    (∀ i, S i = None → (length ds ≤ i)%nat ∨ out !! i = Some unknown_state) ∧
    (∀ i s, S i = Some s → out !! i = Some s ∧ length s = 32%nat).
Proof.
  unfold _flow_states. intros (sts & Hrun & Hout)%bind_Ok. injection Hout as <-.
  destruct (flow_loop_least es _ _ _ _ (flow_start es) Hrun) as [Hl Hf He Hc Hb].
  exists (node_at sts). split_and!.
  - split; [done|]. intros i n o cur j Hd Hcur. apply (Hc i n o cur j Hd Hcur). apply not_elem_of_nil.
  - intros T HT. by apply Hb.
  - intros i. unfold node_at. destruct (decide (length ds ≤ i)%nat) as [|Hlt]; [by left|].
    destruct (lookup_lt_is_Some_2 sts i ltac:(lia)) as [x Hx]. rewrite Hx. cbn. intros ->. right.
    by rewrite list_lookup_fmap, Hx.
  - intros i s Hs. split; [|by eapply Hf]. unfold node_at in Hs. destruct (sts !! i) as [x|] eqn:Hx; [|done].
    cbn in Hs. subst x. by rewrite list_lookup_fmap, Hx.
Qed.

(** ** Edges that grow *)

Lemma dict_fromkeys_go l acc :
  NoDup acc →
  let r := foldl (λ acc (x : Z), if bool_decide (x ∈ acc) then acc else acc ++ [x]) acc l in
  NoDup r ∧ ∀ x, x ∈ r ↔ x ∈ acc ∨ x ∈ l.
Proof.
  revert acc. induction l as [|y l IH]; intros acc Hacc; cbn zeta; cbn [foldl].
  { split; [done|]. intros x. rewrite elem_of_nil. tauto. }
  case_bool_decide as Hy.
  - destruct (IH acc Hacc) as [Hn Hi]. split; [done|]. intros x. rewrite Hi, elem_of_cons. naive_solver.
  - assert (NoDup (acc ++ [y])) as Hacc'.
    { apply NoDup_app. split_and!; [done| |apply NoDup_singleton]. by intros x Hx ->%list_elem_of_singleton. }
    destruct (IH _ Hacc') as [Hn Hi]. split; [done|]. intros x. rewrite Hi. set_solver.
Qed.
Lemma dict_fromkeys_elem l x : x ∈ dict_fromkeys l ↔ x ∈ l.
Proof.
  destruct (dict_fromkeys_go l [] (NoDup_nil_2)) as [_ Hi]. unfold dict_fromkeys. rewrite Hi, elem_of_nil. tauto.
Qed.
Lemma dict_fromkeys_absorb l l' acc :
  (∀ x, x ∈ l' → x ∈ acc ∨ x ∈ l) → NoDup (acc ++ l) →
  foldl (λ acc (x : Z), if bool_decide (x ∈ acc) then acc else acc ++ [x]) acc (l ++ l') = acc ++ l.
Proof.
  revert acc. induction l as [|y l IH]; intros acc Hin Hnd; cbn [app].
  - rewrite app_nil_r in *. induction l' as [|x l' IHl]; [done|]. cbn [foldl].
    rewrite bool_decide_true by (destruct (Hin x) as [?|[]%not_elem_of_nil]; [left|done]).
    apply IHl. intros z Hz. apply Hin. by right.
  - cbn [foldl]. rewrite bool_decide_false.
    2: { intros Hy. apply NoDup_app in Hnd as (_ & Hd & _). apply (Hd y Hy). left. }
    rewrite IH; [by rewrite <- app_assoc| |by rewrite <- app_assoc].
    intros x Hx. rewrite elem_of_app, list_elem_of_singleton. destruct (Hin x Hx) as [?|[->|?]%elem_of_cons]; auto.
Qed.
Lemma dict_fromkeys_same l l' : NoDup l → (∀ x, x ∈ l' → x ∈ l) → dict_fromkeys (l ++ l') = l.
Proof. intros Hn Hin. apply (dict_fromkeys_absorb l l' []); [by right; auto|done]. Qed.
Lemma dict_fromkeys_NoDup l : NoDup (dict_fromkeys l).
Proof. apply (dict_fromkeys_go l []). constructor. Qed.

Context (ib : option Z).

(** What a computed jump can reach, from what is known of its base *)
Definition jalr_targets (p : Provenance) (o : Operands) : list Z :=
  match p, ib with
  | Const v, Some base =>
      let offset := (jalr_address v (field imm o) - base) &&& _MASK32 in
      if negb (offset `mod` 4 =? 0) then [] else [offset `div` 4]
  | _, _ => []
  end.
Lemma jalr_successors o i s : node_successors JALR o i s ib = jalr_targets (prov_at s (field rs1 o)) o.
Proof.
  unfold node_successors, jalr_targets. cbn [is_branch is_jump _transfer_target].
  destruct (prov_at s (field rs1 o)), ib; try done. by destruct (negb _).
Qed.
Lemma static_successors n o i s s' ib' : n ≠ JALR → node_successors n o i s ib = node_successors n o i s' ib'.
Proof. intros Hn. by destruct n. Qed.
Lemma successors_NoDup n o i s ib' : NoDup (node_successors n o i s ib').
Proof.
  unfold node_successors. destruct (is_branch n); [apply dict_fromkeys_NoDup|].
  destruct (is_jump n); [|apply NoDup_singleton]. destruct (_transfer_target _ _ _ _ _); [apply NoDup_singleton|constructor].
Qed.

(** The target a jump was given stays the only one. *)
Definition stays (t : Z) (o : Operands) (p : Provenance) : Prop := jalr_targets p o = [t] ∨ jalr_targets p o = [].
Lemma stays_le t o p q : prov_le p q → stays t o p → stays t o q.
Proof.
  unfold stays. intros Hle Hp. destruct p, q; cbn in *; try done; subst; try done; by right.
Qed.

Lemma control_targets out i :
  targets (_control_successors ds out ib) i =
  match ds !! i with
  | Some (n, o) => node_successors n o (Z.of_nat i) (default unknown_state (out !! i)) ib
  | None => []
  end.
Proof.
  unfold targets, _control_successors, enumerate. rewrite list_lookup_fmap, list_lookup_imap.
  destruct (ds !! i) as [[n o]|]; cbn; [|done]. by rewrite Nat2Z.id.
Qed.

(** The result of [_flow_states] along edges, and its solution *)
Record flows (es : list (list Z)) (out : list State) (S : nat → option State) : Prop := {
  fw_run : _flow_states ds es = Ok out;
  fw_solution : solution es S;
  fw_least T : solution es T → ∀ i s, S i = Some s → ∃ t, T i = Some t ∧ state_le s t;
  fw_none i : S i = None → (length ds ≤ i)%nat ∨ out !! i = Some unknown_state;
  fw_some i s : S i = Some s → out !! i = Some s ∧ length s = 32%nat }.
Lemma flows_of es out : _flow_states ds es = Ok out → ∃ S, flows es out S.
Proof. intros Hr. destruct (flow_states_least es out Hr) as (S & ? & ? & ? & ?). by exists S. Qed.

Lemma unknown_at r : prov_at unknown_state r = Unknown.
Proof.
  unfold prov_at. rewrite nth_lookup. destruct (unknown_state !! Z.to_nat r) as [p|] eqn:Hp; [|done].
  by apply lookup_replicate in Hp as [-> _].
Qed.

(** Edges that are those of the words, except for jumps not resolved yet *)
Record growing (es : list (list Z)) (out : list State) (S : nat → option State) : Prop := {
  gw_flows : flows es out S;
  gw_length : length es = length ds;
  gw_static i n o :
    ds !! i = Some (n, o) → n ≠ JALR → targets es i = node_successors n o (Z.of_nat i) unknown_state ib;
  gw_jalr i o :
    ds !! i = Some (JALR, o) →
    targets es i = [] ∨
    ∃ t s, targets es i = [t] ∧ S i = Some s ∧ stays t o (prov_at s (field rs1 o)) }.

(** Reached or not, what the states say of a jump *)
Lemma grown_jalr es out S i o :
  flows es out S → ds !! i = Some (JALR, o) →
  targets (_control_successors ds out ib) i =
  match S i with Some s => jalr_targets (prov_at s (field rs1 o)) o | None => [] end.
Proof.
  intros Hf Hi. rewrite control_targets, Hi, jalr_successors. destruct (S i) as [s|] eqn:Hs.
  - by destruct (fw_some _ _ _ Hf i s Hs) as [-> _].
  - destruct (fw_none _ _ _ Hf i Hs) as [Hlt| ->]; [|change (default unknown_state (Some unknown_state)) with unknown_state; by rewrite unknown_at].
    apply lookup_lt_Some in Hi. lia.
Qed.

Lemma merged_targets es out i :
  length es = length ds → (i < length ds)%nat →
  targets (merge_edges es (_control_successors ds out ib)) i =
  dict_fromkeys (targets es i ++ targets (_control_successors ds out ib) i).
Proof.
  intros Hl Hi. unfold merge_edges, targets at 1. rewrite lookup_zip_with.
  destruct (lookup_lt_is_Some_2 es i ltac:(lia)) as [l Hes].
  assert (length (_control_successors ds out ib) = length ds) as Hc
    by (unfold _control_successors, enumerate; by rewrite length_fmap, length_imap).
  destruct (lookup_lt_is_Some_2 (_control_successors ds out ib) i ltac:(lia)) as [l' Hes'].
  unfold targets. by rewrite Hes, Hes'.
Qed.

(** Per node, a round adds at most the first edge of a jump. *)
Lemma round_step es out S i n o :
  growing es out S → ds !! i = Some (n, o) →
  let new := targets (merge_edges es (_control_successors ds out ib)) i in
  (new = targets es i ∧ ∀ j, j ∈ targets (_control_successors ds out ib) i → j ∈ targets es i) ∨
  (n = JALR ∧ targets es i = [] ∧ ∃ t s, new = [t] ∧ S i = Some s ∧ stays t o (prov_at s (field rs1 o))).
Proof.
  intros [Hf Hl Hst Hj] Hi. cbv zeta. pose proof (lookup_lt_Some _ _ _ Hi) as Hlt.
  rewrite merged_targets by done. destruct (decide (n = JALR)) as [->|Hn].
  - rewrite (grown_jalr _ _ _ _ _ Hf Hi). destruct (Hj i o Hi) as [Hes|(t & s & Hes & Hs & Hstay)]; rewrite Hes.
    + destruct (S i) as [s|] eqn:Hs; [|by left].
      destruct (jalr_targets (prov_at s (field rs1 o)) o) as [|t l] eqn:Ht; [by left|].
      right. assert (l = []) as ->.
      { unfold jalr_targets in Ht. destruct (prov_at s (field rs1 o)), ib; try done. by destruct (negb _); simplify_eq. }
      split_and!; [done..|]. exists t, s. split_and!; [done..|by left].
    + left. rewrite Hs. destruct Hstay as [-> | ->].
      * rewrite dict_fromkeys_same; [done|apply NoDup_singleton|done].
      * rewrite app_nil_r. split; [|by intros j ?%not_elem_of_nil].
        rewrite <- (app_nil_r [t]) at 1. by apply dict_fromkeys_same; [apply NoDup_singleton|intros x ?%not_elem_of_nil].
  - left. rewrite control_targets, Hi, (Hst i n o Hi Hn).
    rewrite (static_successors n o (Z.of_nat i) (default unknown_state (out !! i)) unknown_state ib Hn). split; [|done].
    apply dict_fromkeys_same; [apply successors_NoDup|done].
Qed.

Lemma subset_solution es es' T :
  (∀ i j, (i < length ds)%nat → j ∈ targets es i → j ∈ targets es' i) → solution es' T → solution es T.
Proof.
  intros Hsub [He Hf]. split; [done|]. intros i n o cur j Hi Hcur Hj Hr.
  apply (Hf i n o cur j Hi Hcur); [|done]. apply Hsub; [by eapply lookup_lt_Some|done].
Qed.

(** A round keeps the invariant. *)
Lemma round_growing es out S out' :
  growing es out S →
  let es' := merge_edges es (_control_successors ds out ib) in
  _flow_states ds es' = Ok out' → ∃ S', growing es' out' S'.
Proof.
  intros Hg. cbv zeta. intros Hrun. destruct (flows_of _ out' Hrun) as [S' Hf']. exists S'.
  assert (Hmono : ∀ i s, S i = Some s → ∃ s', S' i = Some s' ∧ state_le s s').
  { apply (fw_least _ _ _ (gw_flows _ _ _ Hg)), (subset_solution es (merge_edges es (_control_successors ds out ib))); [|apply Hf'].
    intros i j Hi Hj. destruct (lookup_lt_is_Some_2 ds i Hi) as [[n o] Hd].
    destruct (round_step es out S i n o Hg Hd) as [[-> _]|(_ & He & _)]; [done|].
    rewrite He in Hj. by apply not_elem_of_nil in Hj. }
  split; [done| | |].
  - unfold merge_edges, _control_successors, enumerate.
    rewrite length_zip_with, length_fmap, length_imap. rewrite (gw_length _ _ _ Hg). lia.
  - intros i n o Hi Hn. destruct (round_step es out S i n o Hg Hi) as [[-> _]|(-> & _)]; [|done].
    by apply (gw_static _ _ _ Hg).
  - intros i o Hi.
    assert (Hkeep : ∀ t s, S i = Some s → stays t o (prov_at s (field rs1 o)) →
      ∃ s', S' i = Some s' ∧ stays t o (prov_at s' (field rs1 o))).
    { intros t s Hs Hstay. destruct (Hmono i s Hs) as (s' & Hs' & Hle). exists s'. split; [done|].
      eapply stays_le; [|done]. by apply prov_at_le. }
    destruct (round_step es out S i JALR o Hg Hi) as [[-> _]|(_ & _ & t & s & -> & Hs & Hstay)].
    + destruct (gw_jalr _ _ _ Hg i o Hi) as [?|(t & s & Ht & Hs & Hstay)]; [by left|right].
      destruct (Hkeep t s Hs Hstay) as (s' & ? & ?). by exists t, s'.
    + right. destruct (Hkeep t s Hs Hstay) as (s' & ? & ?). by exists t, s'.
Qed.

(** The nodes without edges get fewer in every round but the last. *)
Definition empties (es : list (list Z)) : nat := length (filter (λ l, l = []) es).
Lemma empties_decrease es es' :
  Forall2 (λ a b : list Z, b = a ∨ (a = [] ∧ b ≠ [])) es es' → es' ≠ es → (empties es' < empties es)%nat.
Proof.
  intros H Hne. assert (Hle : (empties es' ≤ empties es)%nat ∧ (es' ≠ es → (empties es' < empties es)%nat)); [|by apply Hle].
  clear Hne. unfold empties. induction H as [|a b l l' Hab _ [IH1 IH2]]; [done|].
  destruct Hab as [->|[-> Hb]].
  - rewrite !filter_cons. destruct (decide (a = [])); cbn; (split; [lia|]); intros Hne;
      (assert (l' ≠ l) by congruence); specialize (IH2 ltac:(done)); lia.
  - rewrite !filter_cons. destruct (decide (b = [])) as [|_]; [done|].
    destruct (decide (@nil Z = [])) as [_|]; [|done]. cbn. split; lia.
Qed.

Lemma round_shrinks es out S :
  growing es out S → let es' := merge_edges es (_control_successors ds out ib) in
  es' ≠ es → (empties es' < empties es)%nat.
Proof.
  intros Hg. cbv zeta. apply empties_decrease. apply Forall2_same_length_lookup. split.
  { unfold merge_edges, _control_successors, enumerate. rewrite length_zip_with, length_fmap, length_imap, (gw_length _ _ _ Hg). lia. }
  intros i l l' Hl Hl'. pose proof (lookup_lt_Some _ _ _ Hl) as Hlt. rewrite (gw_length _ _ _ Hg) in Hlt.
  destruct (lookup_lt_is_Some_2 ds i Hlt) as [[n o] Hd]. pose proof (round_step es out S i n o Hg Hd) as Hr. cbv zeta in Hr.
  assert (targets es i = l) as Ht by (unfold targets; by rewrite Hl).
  assert (targets (merge_edges es (_control_successors ds out ib)) i = l') as Ht' by (unfold targets; by rewrite Hl').
  rewrite Ht, Ht' in Hr.
  destruct Hr as [[-> _]|(_ & -> & t & s & -> & _)]; [by left|by right].
Qed.

(** When the rounds are over every edge is there. *)
Lemma grow_edges_closed rounds es out S es' :
  growing es out S → (empties es < rounds)%nat → grow_edges rounds ds ib es out = Ok es' →
  ∃ out' S', growing es' out' S' ∧
    ∀ i n o, ds !! i = Some (n, o) → ∀ j, j ∈ targets (_control_successors ds out' ib) i → j ∈ targets es' i.
Proof.
  revert es out S. induction rounds as [|rounds IH]; intros es out S Hg Hlt; [lia|]. cbn [grow_edges].
  case_bool_decide as Hfix.
  - intros [= <-]. exists out, S. split; [done|]. intros i n o Hi j Hj.
    destruct (round_step es out S i n o Hg Hi) as [[_ Hin]|(_ & He & t & s & Hnew & _)]; [by apply Hin|].
    rewrite Hfix in Hnew. congruence.
  - intros (out1 & H1 & Hrun)%bind_Ok. destruct (round_growing es out S out1 Hg H1) as [S1 Hg1].
    apply (IH _ out1 S1 Hg1); [|done]. pose proof (round_shrinks es out S Hg Hfix). lia.
Qed.

Lemma first_growing out :
  _flow_states ds (_control_successors ds (replicate (length ds) unknown_state) None) = Ok out →
  ∃ S, growing (_control_successors ds (replicate (length ds) unknown_state) None) out S.
Proof.
  intros Hrun. destruct (flows_of _ out Hrun) as [S Hf]. exists S.
  assert (Ht : ∀ i n o, ds !! i = Some (n, o) →
    targets (_control_successors ds (replicate (length ds) unknown_state) None) i =
    node_successors n o (Z.of_nat i) unknown_state None).
  { intros i n o Hi. unfold targets, _control_successors, enumerate. rewrite list_lookup_fmap, list_lookup_imap, Hi.
    cbn -[unknown_state]. rewrite Nat2Z.id, lookup_replicate_2 by (by eapply lookup_lt_Some). done. }
  split; [done| | |].
  - unfold _control_successors, enumerate. by rewrite length_fmap, length_imap.
  - intros i n o Hi Hn. rewrite (Ht i n o Hi). by rewrite (static_successors n o _ unknown_state unknown_state None Hn).
  - intros i o Hi. left. rewrite (Ht i JALR o Hi). unfold node_successors. cbn [is_branch is_jump _transfer_target].
    by destruct (prov_at _ _).
Qed.

End worklist.

(** What a program accepted by [control_flow_analysis] has: states that every
    edge respects, and the checks on them *)
Record analysed (allow_loops : bool) (image_base : option Z) (reserved : list Z) (ds : list (Name * Operands))
    (cf : ControlFlow) (out : list State) (S : nat → option State) : Prop := {
  an_entry : ds ≠ [] → ∃ s, S 0%nat = Some s ∧ state_le initial_state s;
  an_flow i n o cur j :
    ds !! i = Some (n, o) → S i = Some cur → j ∈ node_successors n o (Z.of_nat i) cur image_base → in_range ds j →
    ∃ s, S (Z.to_nat j) = Some s ∧ state_le (_transfer_state n o cur) s;
  an_out i s : S i = Some s → out !! i = Some s ∧ length s = 32%nat;
  an_loops : if allow_loops then _recognize_loops ds out image_base reserved = Ok (loops cf)
             else loops cf = [] ∧ refuse_backward ds = Ok ();
  an_targets : _check_loop_targets ds out (loops cf) image_base = Ok ();
  an_limit : step_limit cf =
    Z.of_nat (length ds) + foldr Z.add 0 ((λ l, (trip_count l - 1) * loop_length l) <$> loops cf) }.

Lemma cfa_sound aj al ib reserved ws cf :
  control_flow_analysis aj al ib reserved ws = Ok cf →
  ∃ ds out S, map_result decode_word (enumerate ws) = Ok ds ∧ analysed al ib reserved ds cf out S.
Proof.
  unfold control_flow_analysis. intros ([] & _ & H)%bind_Ok. apply bind_Ok in H as (ds & Hds & H).
  apply bind_Ok in H as ([] & _ & H). cbv zeta in H. apply bind_Ok in H as (out0 & Hout0 & H).
  apply bind_Ok in H as (es & Hes & H). apply bind_Ok in H as (out & Hout & H).
  apply bind_Ok in H as (ls & Hls & H). apply bind_Ok in H as ([] & Hback & H).
  apply bind_Ok in H as ([] & Htargets & H). apply bind_Ok in H as (js & _ & H).
  apply bind_Ok in H as ([] & _ & [= <-]).
  destruct (first_growing ds ib out0 Hout0) as [S0 Hg0].
  assert (Hlt : (empties (_control_successors ds (replicate (length ds) unknown_state) None) < length ds + 2)%nat).
  { unfold empties. pose proof (length_filter (λ l : list Z, l = []) (_control_successors ds (replicate (length ds) unknown_state) None)) as Hl.
    assert (length (_control_successors ds (replicate (length ds) unknown_state) None) = length ds) as He
      by (unfold _control_successors, enumerate; by rewrite length_fmap, length_imap). lia. }
  destruct (grow_edges_closed ds ib _ _ _ _ _ Hg0 Hlt Hes) as (out' & S & Hg & Hclosed).
  assert (out' = out) as -> by (pose proof (fw_run _ _ _ _ (gw_flows _ _ _ _ _ Hg)); congruence).
  exists ds, out, S. split; [done|]. pose proof (gw_flows _ _ _ _ _ Hg) as Hf. split; cbn [loops step_limit].
  - apply (fw_solution _ _ _ _ Hf).
  - intros i n o cur j Hi Hcur Hj Hr. apply (sol_flow _ _ _ (fw_solution _ _ _ _ Hf) i n o cur j Hi Hcur); [|done].
    apply (Hclosed i n o Hi). rewrite control_targets, Hi.
    by destruct (fw_some _ _ _ _ Hf i cur Hcur) as [-> _].
  - apply (fw_some _ _ _ _ Hf).
  - destruct al; [|by injection Hls as <-]. apply bind_Ok in Hls as (r & Hr & Hls).
    unfold _reserved_set in Hr. by apply bind_Ok in Hr as (? & _ & [= <-]).
  - done.
  - done.
Qed.
