(* ===== verification/RvProgramSpec.v ===== *)
(** * Runs of analysed programs

    What one word does ([execute_word_cases]), what the gate has checked of the words
    and of the loops ([admitted], [loop_ok]), and the measure that every step of
    an analysed program decreases ([runs_step]).  The theorems about accepted
    programs are in RvAccepted. *)

From S2P Require Import Prelude Json RvProgram RvFlowSpec.

Local Open Scope Z_scope.

(** ** Registers *)

Lemma write_reg_length r v m : length (registers (write_reg r v m)) = length (registers m).
Proof. unfold write_reg. destruct (r =? 0); [done|]. cbn. by rewrite length_insert. Qed.

Lemma reg_write r v m q :
  length (registers m) = 32%nat → 0 ≤ r < 32 → 0 ≤ q < 32 →
  reg (write_reg r v m) q = if decide (q = r ∧ r ≠ 0) then v else reg m q.
Proof.
  intros Hl Hr Hq. unfold write_reg, reg. destruct (Z.eqb_spec r 0) as [->|Hne].
  { rewrite decide_False; [done|lia]. }
  cbn [registers]. rewrite !nth_lookup. case_decide as Hd.
  - destruct Hd as [-> _]. rewrite list_lookup_insert_eq by lia. done.
  - rewrite list_lookup_insert_ne; [done|]. intros He. apply Hd. split; [|done]. lia.
Qed.
Lemma write_reg_0 r v m : length (registers m) = 32%nat → 0 ≤ r < 32 → reg (write_reg r v m) 0 = reg m 0.
Proof. intros Hl Hr. rewrite reg_write by lia. by rewrite decide_False by lia. Qed.

(** What a provenance value says of a register, in a run whose x18 held [x18] *)
Definition holds (x18 : Z) (p : Provenance) (v : Z) : Prop :=
  match p with
  | Unknown => True
  | Const c => v = c
  | Window l h => ∃ d, l ≤ d ≤ h ∧ v = (x18 + d) &&& _MASK32
  end.
Definition covers (x18 : Z) (s : State) (m : Machine) : Prop := ∀ r, 0 ≤ r < 32 → holds x18 (prov_at s r) (reg m r).

Lemma holds_le x18 p q v : prov_le p q → holds x18 p v → holds x18 q v.
Proof.
  destruct p as [|a|l h], q as [|b|l' h']; cbn; try done; [by intros ->|]. intros Hle (d & Hd & ->).
  exists d. split; [lia|done].
Qed.
Lemma covers_le x18 s t m : state_le s t → covers x18 s m → covers x18 t m.
Proof. intros Hle Hc r Hr. eapply holds_le; [by apply prov_at_le|by apply Hc]. Qed.

Lemma prov_at_insert s r p q :
  length s = 32%nat → 0 ≤ r < 32 → 0 ≤ q < 32 → prov_at (<[Z.to_nat r := p]> s) q = if decide (q = r) then p else prov_at s q.
Proof.
  intros Hl Hr Hq. unfold prov_at. rewrite !nth_lookup. case_decide as Hd.
  - subst. rewrite list_lookup_insert_eq by lia. done.
  - rewrite list_lookup_insert_ne; [done|lia].
Qed.

Lemma addi_holds x18 p v k : holds x18 p v → holds x18 (addi_provenance p k) ((v + k) &&& _MASK32).
Proof.
  destruct p as [|c|l h]; cbn; [done|by intros ->|]. intros (d & Hd & ->). exists (d + k). split; [lia|].
  rewrite mask_add_l. f_equal. lia.
Qed.
Lemma add_holds x18 p q v w : holds x18 p v → holds x18 q w → holds x18 (add_provenance p q) ((v + w) &&& _MASK32).
Proof.
  destruct p as [|c|l h], q as [|c'|l' h']; cbn; try done; [by intros -> ->| |].
  - intros -> (d & Hd & ->). exists (d + c). split; [lia|]. rewrite mask_add_r. f_equal. lia.
  - intros (d & Hd & ->) ->. exists (d + c'). split; [lia|]. rewrite mask_add_l. f_equal. lia.
Qed.

(** ** One instruction *)

Definition goes (n : Name) (o : Operands) (pc : Z) (m : Machine) (next : Z) : Prop :=
  if is_branch n then
    ∃ taken, _branch_taken n (reg m (field rs1 o)) (reg m (field rs2 o)) = Ok taken ∧
      next = if taken : bool then (pc + field imm o) &&& _MASK32 else (pc + 4) &&& _MASK32
  else match n with
  | JAL => next = (pc + field imm o) &&& _MASK32
  | JALR => next = jalr_address (reg m (field rs1 o)) (field imm o)
  | _ => next = (pc + 4) &&& _MASK32
  end.
Definition effective (o : Operands) (m : Machine) : Z := (reg m (field rs1 o) + field imm o) &&& _MASK32.

Record executes (n : Name) (o : Operands) (pc : Z) (m : Machine) (e : Executed) (m' : Machine) (v : Z) : Prop := {
  ex_registers : registers m' = match rd o with Some r => registers (write_reg r v m) | None => registers m end;
  ex_memory : memory m' = if bool_decide (n = SW) then <[effective o m := reg m (field rs2 o)]> (memory m) else memory m;
  ex_aligned : is_memory n = true → effective o m `mod` 4 = 0;
  ex_goes : goes n o pc m (next_pc e);
  ex_addi : n = ADDI → v = (reg m (field rs1 o) + field imm o) &&& _MASK32;
  ex_holds x18 s : straight n = true → covers x18 s m → holds x18 (_transfer_provenance n o s) v }.

Lemma branch_total n a b : is_branch n = true → ∃ taken, _branch_taken n a b = Ok taken.
Proof. destruct n; try done; intros _; by eexists. Qed.

Lemma memory_write_reg r v m : memory (write_reg r v m) = memory m.
Proof. unfold write_reg. by destruct (r =? 0). Qed.

(** A word that writes [v] to its destination and falls through *)
Lemma executes_write n o pc m v :
  straight n = true → is_memory n = false → is_Some (rd o) →
  (n = ADDI → v = (reg m (field rs1 o) + field imm o) &&& _MASK32) →
  (∀ x18 s, covers x18 s m → holds x18 (_transfer_provenance n o s) v) →
  executes n o pc m (mkExecuted n (rd o) v ((pc + 4) &&& _MASK32) None false false)
    (match rd o with Some r => write_reg r v m | None => m end) v.
Proof.
  intros Hs Hm [r Hr] Ha Hh. apply negb_true_iff, orb_false_iff in Hs as [Hb Hj]. split; rewrite ?Hr; try done.
  - rewrite memory_write_reg. by destruct n.
  - by rewrite Hm.
  - unfold goes. rewrite Hb. by destruct n.
  - intros x18 s _. apply Hh.
Qed.

Lemma executes_branch n o pc m taken :
  is_branch n = true → rd o = None → _branch_taken n (reg m (field rs1 o)) (reg m (field rs2 o)) = Ok taken →
  executes n o pc m
    (mkExecuted n None 0 (if taken then (pc + field imm o) &&& _MASK32 else (pc + 4) &&& _MASK32) None false false) m 0.
Proof.
  intros Hb Hr Ht. split; try (by rewrite Hr); try (by destruct n).
  unfold goes. rewrite Hb. by exists taken.
Qed.

Lemma execute_word_cases ab aj w pc index m n o :
  _decode ab aj w = Ok (n, o) →
  match _execute_word ab aj w pc index m with
  | Ok (e, m') => ∃ v, executes n o pc m e m' v
  | Err ex => is_memory n = true ∧ effective o m `mod` 4 ≠ 0 ∧ ex = misaligned index n (effective o m)
  end.
Proof.
  intros Hd. pose proof (decode_shape _ _ _ _ _ Hd) as [Hp Hrd Hrd' H1 H2 Hadd].
  unfold _execute_word. rewrite Hd. cbn [mbind result_bind].
  assert (Hf1 : 0 ≤ field rs1 o < 32) by (unfold field; destruct (rs1 o); cbn in *; lia).
  assert (Hf2 : 0 ≤ field rs2 o < 32) by (unfold field; destruct (rs2 o); cbn in *; lia).
  destruct (is_branch n) eqn:Hb.
  { destruct (branch_total n (reg m (field rs1 o)) (reg m (field rs2 o)) Hb) as [taken Ht].
    unfold writes_rd in Hrd. rewrite Hb in Hrd. cbn in Hrd.
    destruct n; try done; rewrite Ht; exists 0; by apply executes_branch. }
  destruct n; cbn in Hp, Hrd, Hb; try done;
    cbn [is_branch is_jump _alu_value mbind result_bind mret result_ret];
    try (by eexists; apply executes_write).
  - eexists. apply executes_write; try done. intros x18 s Hc. apply addi_holds, Hc, Hf1.
  - eexists. apply executes_write; try done. intros x18 s Hc. cbn [_transfer_provenance andi_provenance].
    pose proof (Hc _ Hf1) as Hh. destruct (prov_at s (field rs1 o)); cbn in *; try done. by rewrite Hh.
  - eexists. apply executes_write; try done. intros x18 s Hc. destruct (Hadd eq_refl) as [r2 Hr2].
    rewrite Hr2. apply add_holds; [by apply Hc|]. pose proof (Hc _ Hf2) as Hh. unfold field in *. by rewrite Hr2 in *.
  - fold (effective o m). destruct (Z.eqb_spec (effective o m `mod` 4) 0) as [Ha|Ha]; [|done].
    cbn [negb raise_if mbind result_bind]. exists (default 0 (memory m !! effective o m)).
    destruct Hrd as [r Hr]. split; try done.
    + unfold field. by rewrite Hr.
    + by rewrite memory_write_reg.
  - fold (effective o m). destruct (Z.eqb_spec (effective o m `mod` 4) 0) as [Ha|Ha]; [|done].
    cbn [negb raise_if mbind result_bind]. exists 0. split; try done. by rewrite Hrd.
  - destruct Hrd as [r Hr]. exists ((pc + 4) &&& _MASK32). split; try done.
    + unfold field. by rewrite Hr.
    + by rewrite memory_write_reg.
  - destruct Hrd as [r Hr]. exists ((pc + 4) &&& _MASK32). split; try done.
    + unfold field. by rewrite Hr.
    + by rewrite memory_write_reg.
Qed.

(** The abstract transfer covers the concrete one. *)
Lemma reg_registers m m' r : registers m = registers m' → reg m r = reg m' r.
Proof. unfold reg. by intros ->. Qed.

Lemma executes_reg n o pc m e m' v q :
  executes n o pc m e m' v → register_ok (rd o) → length (registers m) = 32%nat → 0 ≤ q < 32 →
  reg m' q = if decide (rd o = Some q ∧ q ≠ 0) then v else reg m q.
Proof.
  intros Hx Hr Hl Hq. pose proof (ex_registers _ _ _ _ _ _ _ Hx) as Hm. destruct (rd o) as [r|].
  - rewrite (reg_registers m' (write_reg r v m)), reg_write by done. do 2 case_decide; try done; naive_solver.
  - rewrite (reg_registers m' m) by done. rewrite decide_False; [done|naive_solver].
Qed.
Lemma executes_length n o pc m e m' v :
  executes n o pc m e m' v → length (registers m') = length (registers m).
Proof.
  intros Hx. rewrite (ex_registers _ _ _ _ _ _ _ Hx). destruct (rd o); [apply write_reg_length|done].
Qed.

Lemma covers_step n o pc m e m' v s x18 :
  executes n o pc m e m' v → shaped n o → length (registers m) = 32%nat → length s = 32%nat →
  covers x18 s m → covers x18 (_transfer_state n o s) m'.
Proof.
  intros Hx Hsh Hl Hs Hc r Hr. rewrite (executes_reg _ _ _ _ _ _ _ _ Hx (sh_rd_ok _ _ Hsh) Hl Hr).
  pose proof (sh_rd_ok _ _ Hsh) as Hok. unfold _transfer_state, straight_state.
  destruct (rd o) as [w|] eqn:Hrd; [|rewrite decide_False by naive_solver; destruct (is_jump n); by apply Hc].
  cbn in Hok. destruct (Z.eqb_spec w 0) as [->|Hw].
  { rewrite decide_False by naive_solver. destruct (is_jump n); by apply Hc. }
  assert (Hkeep : ∀ p, (w = r → holds x18 p v) → holds x18 (prov_at (<[Z.to_nat w := p]> s) r)
    (if decide (Some w = Some r ∧ r ≠ 0) then v else reg m r)).
  { intros p Hp. rewrite prov_at_insert by done. destruct (decide (r = w)) as [->|Hne].
    - rewrite decide_True by done. by apply Hp.
    - rewrite decide_False by naive_solver. by apply Hc. }
  destruct (is_jump n) eqn:Hj; [by apply Hkeep|]. destruct (w =? _MEMORY_BASE); [by apply Hkeep|].
  apply Hkeep. intros _. apply (ex_holds _ _ _ _ _ _ _ Hx); [|done].
  unfold straight. rewrite Hj. pose proof (sh_rd _ _ Hsh) as Hsr. unfold writes_rd in Hsr.
  destruct (is_branch n); [|done]. cbn in Hsr. congruence.
Qed.

(** ** The run *)

Definition pc_at (base i : Z) : Z := (base + 4 * i) &&& _MASK32.

Lemma pc_at_offset base i : 0 ≤ 4 * i < 2 ^ 32 → (pc_at base i - base) &&& _MASK32 = 4 * i.
Proof. intros Hi. unfold pc_at. rewrite mask_sub_l, mask_small; lia. Qed.
Lemma pc_at_plus base i k : (pc_at base i + k) &&& _MASK32 = (base + (4 * i + k)) &&& _MASK32.
Proof. unfold pc_at. rewrite mask_add_l. f_equal. lia. Qed.
Lemma pc_at_inj base i j : 0 ≤ 4 * i < 2 ^ 32 → 0 ≤ 4 * j < 2 ^ 32 → pc_at base i = pc_at base j → i = j.
Proof. intros Hi Hj He. pose proof (pc_at_offset base i Hi). rewrite He, pc_at_offset in H by done. lia. Qed.

Section run.
Context (ab aj : bool) (words : list Z) (base cap : Z).
Let count := Z.of_nat (length words).
Context (Hcount : 4 * count < 2 ^ 32).

(** A run under a measure that every step decreases *)
Lemma run_loop_ends (Inv : Z → Machine → Prop) (Φ : Z → Machine → Z) (Bad : exn → Prop) :
  (∀ i m w, 0 ≤ i < count → words !! Z.to_nat i = Some w → Inv i m →
    match _execute_word ab aj w (pc_at base i) i m with
    | Ok (e, m') => ∃ j, next_pc e = pc_at base j ∧ 0 ≤ j ≤ count ∧ Inv j m' ∧ 0 ≤ Φ j m' < Φ i m
    | Err ex => Bad ex
    end) →
  ∀ room i log, 0 ≤ i ≤ count → Inv i (machine log) → 0 ≤ Φ i (machine log) ≤ Z.of_nat room →
  match run_loop ab aj words base cap room (pc_at base i) log with
  | Ok log' => Inv count (machine log') ∧
      Z.of_nat (length (retirement log')) ≤ Z.of_nat (length (retirement log)) + Φ i (machine log)
  | Err ex => Bad ex
  end.
Proof.
  intros Hstep. induction room as [|room IH]; intros i log Hi Hinv HΦ; cbn [run_loop]; fold count;
    change ((base + 4 * count) &&& _MASK32) with (pc_at base count);
    destruct (Z.eqb_spec (pc_at base i) (pc_at base count)) as [He|Hne].
  1, 3: apply pc_at_inj in He as ->; [split; [done|lia]|lia..].
  all: assert (i < count) as Hlt by (destruct (Z.eq_dec i count); [subst; done|lia]).
  all: rewrite pc_at_offset by lia; rewrite Z.mul_comm, Z_mod_mult, Z_div_mult by lia; cbn [Z.eqb].
  all: destruct (lookup_lt_is_Some_2 words (Z.to_nat i) ltac:(lia)) as [w Hw]; rewrite Hw.
  all: pose proof (Hstep i (machine log) w ltac:(lia) Hw Hinv) as Hs.
  all: destruct (_execute_word ab aj w (pc_at base i) i (machine log)) as [[e m']|ex]; cbn [mbind result_bind]; [|done].
  all: destruct Hs as (j & Hnext & Hj & Hinv' & HΦ').
  { lia. }
  rewrite Hnext. specialize (IH j (retire i (pc_at base i) e m' log) Hj Hinv' ltac:(cbn; lia)).
  destruct (run_loop _ _ _ _ _ _ _ _) as [log'|ex]; [|done]. destruct IH as [? IH]. split; [done|].
  cbn in IH. rewrite length_app in IH. cbn in IH. lia.
Qed.
End run.

(** ** Bounded loops *)

Definition at_node (ds : list (Name * Operands)) (i : Z) : option (Name * Operands) :=
  if 0 <=? i then ds !! Z.to_nat i else None.

(** What [_recognize_loops] has checked of a loop *)
Record loop_ok (ds : list (Name * Operands)) (l : LoopInfo) : Prop := {
  lo_init : 0 ≤ init l;
  lo_head : head l = init l + 1;
  lo_step : back_edge l = step l + 1;
  lo_room : head l ≤ step l;
  lo_trip : 2 ≤ trip_count l ≤ 6;
  lo_ind : induction l ≠ 0;
  lo_init_word : ∃ o, at_node ds (init l) = Some (ADDI, o) ∧ rd o = Some (induction l) ∧
    rs1 o = Some 0 ∧ imm o = Some (trip_count l);
  lo_step_word : ∃ o, at_node ds (step l) = Some (ADDI, o) ∧ rd o = Some (induction l) ∧
    rs1 o = Some (induction l) ∧ imm o = Some (-1);
  lo_edge_word : ∃ o, at_node ds (back_edge l) = Some (BNE, o) ∧ back_edge l + field imm o `div` 4 = head l ∧
    ((field rs1 o = induction l ∧ field rs2 o = 0) ∨ (field rs1 o = 0 ∧ field rs2 o = induction l));
  lo_body i n o : head l ≤ i < step l → at_node ds i = Some (n, o) → straight n = true ∧ rd o ≠ Some (induction l) }.

Lemma enumerate_elem {A} (l : list A) i x : (i, x) ∈ enumerate l ↔ 0 ≤ i ∧ l !! Z.to_nat i = Some x.
Proof.
  unfold enumerate. rewrite list_elem_of_lookup. split.
  - intros [k Hk]. rewrite list_lookup_imap in Hk. destruct (l !! k) as [y|] eqn:Hy; [|done].
    injection Hk as <- <-. split; [lia|]. by rewrite Nat2Z.id.
  - intros [Hi Hx]. exists (Z.to_nat i). rewrite list_lookup_imap, Hx. cbn. by rewrite Z2Nat.id.
Qed.
Lemma at_node_elem ds i x : at_node ds i = Some x ↔ (i, x) ∈ enumerate ds.
Proof.
  rewrite enumerate_elem. unfold at_node. destruct (Z.leb_spec 0 i); split; try done; try lia; naive_solver.
Qed.
Lemma at_index_node ds i x : 0 ≤ i → at_index ds i = Ok x → at_node ds i = Some x.
Proof.
  unfold at_index, at_node. intros Hi. rewrite (proj2 (Z.leb_le 0 i) Hi). destruct (ds !! Z.to_nat i); [|done].
  by intros [= <-].
Qed.

Lemma recognize_loop_ok ds reserved index target n o l :
  at_node ds index = Some (n, o) → target = index + field imm o `div` 4 →
  recognize_loop ds reserved index target n o = Ok l → loop_ok ds l ∧ back_edge l = index ∧ head l = target.
Proof.
  intros Hat Htarget. unfold recognize_loop. intros ([] & Hn%raise_if_Ok & H)%bind_Ok.
  apply negb_false_iff, bool_decide_eq_true in Hn as ->. unfold _loop_induction in H. cbv zeta in H.
  assert (Hind : ∃ ind, ind ≠ 0 ∧ _loop_induction o = Some ind ∧
    ((field rs1 o = ind ∧ field rs2 o = 0) ∨ (field rs1 o = 0 ∧ field rs2 o = ind)) ∨ _loop_induction o = None).
  { unfold _loop_induction. destruct (Z.eqb_spec (field rs2 o) 0), (Z.eqb_spec (field rs1 o) 0); cbn;
      try (exists 0; by right); eexists; left; split_and!; eauto. }
  fold (_loop_induction o) in H. destruct Hind as (ind & [(Hi0 & Hi & Hfields)|Hi]); rewrite Hi in H; [|done].
  apply bind_Ok in H as ([] & Hroom%raise_if_Ok & H). apply orb_false_iff in Hroom as [H0%Z.ltb_ge Hroom%Z.ltb_ge].
  apply bind_Ok in H as ([n1 o1] & Hinit & H).
  destruct (_loop_init n1 o1 ind) as [trip|] eqn:Htrip; [|done].
  apply bind_Ok in H as ([n2 o2] & Hstep & H). apply bind_Ok in H as ([] & Hst%raise_if_Ok & H).
  apply bind_Ok in H as ([] & _ & H). apply bind_Ok in H as ([] & Hbody & [= <-]).
  unfold _loop_init in Htrip. destruct (negb _ || _ || _) eqn:Hc; [done|].
  destruct (imm o1) as [k|] eqn:Hk; [|done]. destruct (negb ((2 <=? k) && (k <=? 6))) eqn:Hrange; [done|].
  apply negb_false_iff, andb_true_iff in Hrange as [?%Z.leb_le ?%Z.leb_le].
  injection Htrip as ->. inv_Ok. subst. unfold _is_induction_step in Hst.
  apply negb_false_iff in Hst. inv_Ok. subst.
  split; [|done]. split; cbn; try lia; try done.
  - exists o1. split_and!; [apply at_index_node; [lia|]|..]; done.
  - exists o2. split_and!; [apply at_index_node; [lia|]|..]; done.
  - by exists o.
  - intros i n' o' Hi' Hat'. apply for_each_Ok in Hbody. rewrite Forall_forall in Hbody.
    specialize (Hbody (i, (n', o'))). cbn [fst snd] in Hbody. unfold check_loop_body in Hbody. cbn [fst snd] in Hbody.
    apply raise_if_Ok in Hbody.
    + apply orb_false_iff in Hbody as [Ht Hw%bool_decide_eq_false]. unfold straight. by rewrite Ht.
    + unfold between. apply list_elem_of_filter. split; [cbn; lia|]. by apply at_node_elem.
Qed.

(** One word of [_recognize_loops] *)
Definition recognize_word (ds : list (Name * Operands)) (out : list State) (ib : option Z) (reserved : list Z)
    (ls : list LoopInfo) (x : Z * (Name * Operands)) : result (list LoopInfo) :=
  let '(index, (name, o)) := x in
  if negb (is_branch name) then
    check_forward_jump index name o (default unknown_state (out !! Z.to_nat index)) ib ;;
    mret ls
  else
    let target := index + field imm o `div` 4 in
    if index <? target then mret ls
    else l ← recognize_loop ds reserved index target name o; mret (ls ++ [l]).

Lemma recognize_fold ds out ib reserved xs acc ls :
  (∀ x, x ∈ xs → x ∈ enumerate ds) → fold_result (recognize_word ds out ib reserved) acc xs = Ok ls →
  (∀ l, l ∈ acc → l ∈ ls) ∧ (∀ l, l ∈ ls → l ∈ acc ∨ loop_ok ds l) ∧
  ∀ i n o, (i, (n, o)) ∈ xs → is_branch n = true → i + field imm o `div` 4 ≤ i →
    ∃ l, l ∈ ls ∧ back_edge l = i ∧ head l = i + field imm o `div` 4.
Proof.
  revert acc. induction xs as [|[i [n o]] xs IH]; intros acc Hxs; cbn [fold_result].
  { intros [= <-]. split_and!; [auto|auto|by intros i n o ?%not_elem_of_nil]. }
  intros (acc1 & H1 & Hrun)%bind_Ok.
  destruct (IH acc1) as (Hacc & Hok & Hfound); [by intros x Hx; apply Hxs; right|done|].
  unfold recognize_word in H1. destruct (is_branch n) eqn:Hb; cbn [negb] in H1.
  - destruct (Z.ltb_spec i (i + field imm o `div` 4)) as [Hlt|Hge].
    + injection H1 as ->. split_and!; [done..|].
      intros i' n' o' [[= -> -> ->]|Hin]%elem_of_cons; [lia|by apply Hfound].
    + apply bind_Ok in H1 as (l & Hl & [= <-]).
      apply recognize_loop_ok in Hl as (Hlo & Hbe & Hh); [|apply at_node_elem, Hxs; left|done].
      split_and!.
      * intros l' Hl'. apply Hacc, elem_of_app. by left.
      * intros l' Hl'. destruct (Hok l' Hl') as [[?| ->%list_elem_of_singleton]%elem_of_app|?]; auto.
      * intros i' n' o' [[= -> -> ->]|Hin]%elem_of_cons; [|by apply Hfound]. intros _ _. exists l.
        split_and!; [|done..]. apply Hacc, elem_of_app. right. left.
  - apply bind_Ok in H1 as ([] & _ & [= ->]). split_and!; [done..|].
    intros i' n' o' [[= -> -> ->]|Hin]%elem_of_cons; [congruence|by apply Hfound].
Qed.

Lemma recognized_loops ds out ib reserved ls :
  _recognize_loops ds out ib reserved = Ok ls →
  (∀ l, l ∈ ls → loop_ok ds l) ∧
  ∀ i n o, at_node ds i = Some (n, o) → is_branch n = true → i + field imm o `div` 4 ≤ i →
    ∃ l, l ∈ ls ∧ back_edge l = i ∧ head l = i + field imm o `div` 4.
Proof.
  intros Hr. destruct (recognize_fold ds out ib reserved (enumerate ds) [] ls) as (_ & Hok & Hf); [done|done|].
  split; [|intros i n o Hi%at_node_elem; by apply Hf]. intros l Hl. by destruct (Hok l Hl) as [?%not_elem_of_nil|].
Qed.

Definition apart (l l' : LoopInfo) : Prop := back_edge l < init l' ∨ back_edge l' < init l.

Lemma disjoint_loops ls l l' : check_disjoint ls = Ok () → l ∈ ls → l' ∈ ls → l = l' ∨ apart l l'.
Proof.
  intros Hc [i Hi]%list_elem_of_lookup [j Hj]%list_elem_of_lookup.
  assert (Hpair : ∀ a b x y, ls !! a = Some x → ls !! b = Some y → (a < b)%nat → apart x y).
  { intros a b x y Ha Hb Hab. unfold check_disjoint in Hc. apply for_each_Ok in Hc. rewrite Forall_forall in Hc.
    specialize (Hc (Z.of_nat a, x)). cbn [fst snd] in Hc. rewrite for_each_Ok, Forall_forall in Hc.
    specialize (Hc ltac:(apply enumerate_elem; rewrite Nat2Z.id; split; [lia|done]) (Z.of_nat b, y)). cbn [fst snd] in Hc.
    apply raise_if_Ok, andb_false_iff in Hc; [unfold apart; rewrite !Z.leb_gt in Hc; lia|].
    apply list_elem_of_filter. split; [cbn; lia|]. apply enumerate_elem. rewrite Nat2Z.id. split; [lia|done]. }
  destruct (Nat.lt_trichotomy i j) as [Hlt|[->|Hlt]].
  - right. by apply (Hpair i j).
  - left. congruence.
  - right. destruct (Hpair j i l' l) as [?|?]; [done..|by right|by left].
Qed.

Lemma checked_target ds out ls ib i n o :
  _check_loop_targets ds out ls ib = Ok () → at_node ds i = Some (n, o) → is_branch n || is_jump n = true →
  match _transfer_target n o i (default unknown_state (out !! Z.to_nat i)) ib with
  | None => n ≠ JALR
  | Some t => 0 ≤ t ≤ Z.of_nat (length ds) ∧ t ≠ i ∧
      (∀ l, l ∈ ls → (i = back_edge l ∧ t = head l) ∨ t < init l ∨ back_edge l < t) ∧ (is_jump n = true → i < t)
  end.
Proof.
  unfold _check_loop_targets. intros ([] & _ & Hc)%bind_Ok Hi Ht. apply for_each_Ok in Hc. rewrite Forall_forall in Hc.
  specialize (Hc (i, (n, o)) (proj1 (at_node_elem _ _ _) Hi)). cbn beta iota in Hc. rewrite Ht in Hc.
  unfold check_transfer in Hc. destruct (_transfer_target _ _ _ _ _) as [t|].
  - cbv zeta in Hc. apply bind_Ok in Hc as ([] & H1%raise_if_Ok & Hc). apply orb_false_iff in H1 as [H1%Z.ltb_ge H2%Z.ltb_ge].
    apply bind_Ok in Hc as ([] & H3%raise_if_Ok & Hc). apply Z.eqb_neq in H3.
    apply bind_Ok in Hc as ([] & H4 & H5). apply raise_if_Ok, andb_false_iff in H5.
    rewrite for_each_Ok, Forall_forall in H4. split_and!; [lia|lia|done| |].
    + intros l Hl. specialize (H4 l Hl). apply raise_if_Ok, andb_false_iff in H4.
      rewrite negb_false_iff, andb_true_iff, !Z.eqb_eq, andb_false_iff, !Z.leb_gt in H4. lia.
    + intros Hj. rewrite Hj, Z.leb_gt in H5. destruct H5; [done|lia].
  - case_bool_decide; [|done]. by apply bind_Ok in Hc as (? & _ & ?).
Qed.

(** ** The measure of a run *)

(** How often the body of a loop is still repeated, in words *)
Definition phi (l : LoopInfo) (i : Z) (m : Machine) : Z :=
  if i <=? init l then (trip_count l - 1) * loop_length l
  else if i <=? step l then (reg m (induction l) - 1) * loop_length l
  else if i =? back_edge l then reg m (induction l) * loop_length l
  else 0.
Definition loop_inv (l : LoopInfo) (i : Z) (m : Machine) : Prop :=
  (init l < i ≤ step l → 1 ≤ reg m (induction l) ≤ trip_count l) ∧
  (i = back_edge l → 0 ≤ reg m (induction l) < trip_count l).

Lemma loop_length_pos ds l : loop_ok ds l → 0 < loop_length l.
Proof. intros []. unfold loop_length. lia. Qed.
Lemma phi_nonneg ds l i m : loop_ok ds l → loop_inv l i m → 0 ≤ phi l i m.
Proof.
  intros Hlo [H1 H2]. pose proof (loop_length_pos ds l Hlo). destruct Hlo. unfold phi.
  destruct (Z.leb_spec i (init l)); [nia|]. destruct (Z.leb_spec i (step l)); [specialize (H1 ltac:(lia)); nia|].
  destruct (Z.eqb_spec i (back_edge l)); [specialize (H2 ltac:(done)); nia|lia].
Qed.

(** Where a step can lead *)
Record moves (n : Name) (o : Operands) (i : Z) (m : Machine) (j : Z) : Prop := {
  mv_straight : straight n = true → j = i + 1;
  mv_branch : is_branch n = true → ∃ taken, _branch_taken n (reg m (field rs1 o)) (reg m (field rs2 o)) = Ok taken ∧
    j = if taken : bool then i + field imm o `div` 4 else i + 1;
  mv_jump : is_jump n = true → i < j }.

Lemma executes_addi n o pc m e m' v r s :
  executes n o pc m e m' v → n = ADDI → rd o = Some r → rs1 o = Some s → register_ok (rd o) → r ≠ 0 →
  length (registers m) = 32%nat → reg m' r = (reg m s + field imm o) &&& _MASK32.
Proof.
  intros Hx Hn Hr Hs Hok Hr0 Hl. assert (0 ≤ r < 32) by (by rewrite Hr in Hok).
  rewrite (executes_reg _ _ _ _ _ _ _ r Hx Hok Hl), decide_True by done.
  rewrite (ex_addi _ _ _ _ _ _ _ Hx Hn). unfold field at 1. by rewrite Hs.
Qed.
Lemma executes_other n o pc m e m' v r :
  executes n o pc m e m' v → register_ok (rd o) → rd o ≠ Some r → length (registers m) = 32%nat → 0 ≤ r < 32 →
  reg m' r = reg m r.
Proof. intros Hx Hok Hne Hl Hr. rewrite (executes_reg _ _ _ _ _ _ _ r Hx Hok Hl Hr). apply decide_False. naive_solver. Qed.

(** The test of a back edge *)
Lemma back_edge_test ds l o m taken :
  loop_ok ds l → at_node ds (back_edge l) = Some (BNE, o) → reg m 0 = 0 →
  _branch_taken BNE (reg m (field rs1 o)) (reg m (field rs2 o)) = Ok taken → taken = negb (reg m (induction l) =? 0).
Proof.
  intros Hlo Hat H0. destruct (lo_edge_word _ _ Hlo) as (o' & Ho' & _ & Hf). rewrite Hat in Ho'. injection Ho' as <-.
  cbn. intros [= <-]. f_equal. destruct Hf as [[-> ->]|[-> ->]]; rewrite H0; [done|apply Z.eqb_sym].
Qed.

Section phi_step.
Context (ds : list (Name * Operands)) (l : LoopInfo) (Hlo : loop_ok ds l).
Context (i j : Z) (n : Name) (o : Operands) (pc : Z) (m : Machine) (e : Executed) (m' : Machine) (v : Z).
Context (Hat : at_node ds i = Some (n, o)) (Hx : executes n o pc m e m' v) (Hsh : shaped n o).
Context (Hl : length (registers m) = 32%nat) (H0 : reg m 0 = 0) (Hmv : moves n o i m j).
Context (Hind : 0 ≤ induction l < 32).

Lemma phi_init : i = init l → loop_inv l j m' ∧ phi l j m' = phi l i m.
Proof.
  intros ->. destruct (lo_init_word _ _ Hlo) as (o' & Ho' & Hr & Hs & Hk). rewrite Hat in Ho'. injection Ho' as -> <-.
  pose proof (executes_addi _ _ _ _ _ _ _ _ _ Hx eq_refl Hr Hs (sh_rd_ok _ _ Hsh) (lo_ind _ _ Hlo) Hl) as He.
  unfold field in He. rewrite Hk, H0 in He. cbn [default] in He. rewrite mask_small in He by (destruct Hlo; cbn; lia).
  pose proof (mv_straight _ _ _ _ _ Hmv eq_refl) as ->. destruct Hlo. unfold loop_inv, phi. rewrite He.
  rewrite (proj2 (Z.leb_le (init l) (init l))), (proj2 (Z.leb_gt (init l + 1) (init l))), (proj2 (Z.leb_le (init l + 1) (step l))) by lia.
  unfold id. split; [split|]; lia.
Qed.

Lemma phi_body : head l ≤ i < step l → loop_inv l i m → loop_inv l j m' ∧ phi l j m' = phi l i m.
Proof.
  intros Hi [Hinv _]. destruct (lo_body _ _ Hlo i n o Hi Hat) as [Hs Hr].
  pose proof (executes_other _ _ _ _ _ _ _ _ Hx (sh_rd_ok _ _ Hsh) Hr Hl Hind) as He.
  pose proof (mv_straight _ _ _ _ _ Hmv Hs) as ->. destruct Hlo. unfold loop_inv, phi. rewrite He.
  rewrite !(proj2 (Z.leb_gt _ (init l))), !(proj2 (Z.leb_le _ (step l))) by lia. split; [split|]; lia.
Qed.

Lemma phi_at_step : i = step l → loop_inv l i m → loop_inv l j m' ∧ phi l j m' = phi l i m.
Proof.
  intros Hi [Hinv _]. specialize (Hinv ltac:(destruct Hlo; lia)).
  destruct (lo_step_word _ _ Hlo) as (o' & Ho' & Hr & Hs & Hk). rewrite Hi in Hat. rewrite Hat in Ho'. injection Ho' as -> <-.
  pose proof (executes_addi _ _ _ _ _ _ _ _ _ Hx eq_refl Hr Hs (sh_rd_ok _ _ Hsh) (lo_ind _ _ Hlo) Hl) as He.
  unfold field in He. rewrite Hk in He. cbn in He. rewrite mask_small in He by (destruct Hlo; lia).
  pose proof (mv_straight _ _ _ _ _ Hmv eq_refl) as ->. destruct Hlo. unfold loop_inv, phi. rewrite He, Hi.
  rewrite !(proj2 (Z.leb_gt _ (init l))), (proj2 (Z.leb_le (step l) (step l))), (proj2 (Z.leb_gt (step l + 1) (step l))),
    (proj2 (Z.eqb_eq (step l + 1) (back_edge l))) by lia. split; [split|]; lia.
Qed.

Lemma phi_back : i = back_edge l → loop_inv l i m → loop_inv l j m' ∧
  phi l j m' ≤ phi l i m - (if bool_decide (j = head l) then loop_length l else 0).
Proof.
  intros Hi [_ Hinv]. specialize (Hinv Hi). destruct (lo_edge_word _ _ Hlo) as (o' & Ho' & Himm & Hf).
  rewrite Hi in Hat. pose proof Hat as Hat'. rewrite Hat in Ho'. injection Ho' as -> <-.
  destruct (mv_branch _ _ _ _ _ Hmv eq_refl) as (taken & Ht & Hj). pose proof (back_edge_test _ _ _ _ _ Hlo Hat H0 Ht) as ->.
  assert (Hr : rd o ≠ Some (induction l)) by (by rewrite (sh_rd _ _ Hsh : rd o = None)).
  pose proof (executes_other _ _ _ _ _ _ _ _ Hx (sh_rd_ok _ _ Hsh) Hr Hl Hind) as He.
  pose proof (loop_length_pos _ _ Hlo). unfold loop_inv, phi. rewrite He, Hi in *.
  destruct Hlo. rewrite !(proj2 (Z.leb_gt (back_edge l) _)), Z.eqb_refl by lia.
  destruct (Z.eqb_spec (reg m (induction l)) 0) as [Hz|Hz]; cbn [negb] in Hj; subst j.
  - rewrite bool_decide_false, !(proj2 (Z.leb_gt (back_edge l + 1) _)), (proj2 (Z.eqb_neq _ _)) by lia. split; [split|]; lia.
  - rewrite Himm, bool_decide_true, (proj2 (Z.leb_gt (head l) _)), (proj2 (Z.leb_le _ (step l))) by lia. split; [split|]; lia.
Qed.

(** The body is repeated no more often than before, and once less along the
    back edge. *)
Lemma phi_step :
  (straight n = false → j ≠ i + 1 → (i = back_edge l ∧ j = head l) ∨ j < init l ∨ back_edge l < j) →
  (back_edge l < i → back_edge l < j) → loop_inv l i m →
  loop_inv l j m' ∧ phi l j m' ≤ phi l i m - (if bool_decide (i = back_edge l ∧ j = head l) then loop_length l else 0).
Proof.
  intros Hout Hafter Hinv. pose proof Hlo as Hlo'. destruct Hlo'.
  destruct (decide (i = back_edge l)) as [Hi|Hi].
  { destruct (phi_back Hi Hinv) as [? Hp]. split; [done|]. rewrite (bool_decide_ext _ (j = head l)) by naive_solver. done. }
  rewrite bool_decide_false by naive_solver. rewrite Z.sub_0_r.
  destruct (decide (i = init l)) as [Hi1|Hi1]; [destruct (phi_init Hi1); split; [done|lia]|].
  destruct (decide (i = step l)) as [Hi2|Hi2]; [destruct (phi_at_step Hi2 Hinv); split; [done|lia]|].
  destruct (decide (head l ≤ i < step l)) as [Hi3|Hi3]; [destruct (phi_body Hi3 Hinv); split; [done|lia]|].
  assert (Hj : j ≤ init l ∨ back_edge l < j).
  { destruct (straight n) eqn:Hs; [pose proof (mv_straight _ _ _ _ _ Hmv Hs); lia|].
    destruct (decide (j = i + 1)); [lia|]. specialize (Hout eq_refl ltac:(done)). lia. }
  split; [split; intros; lia|]. pose proof (phi_nonneg ds l i m Hlo Hinv). unfold phi in *.
  destruct (Z.leb_spec j (init l)), (Z.leb_spec i (init l)); try lia.
  all: by rewrite (proj2 (Z.leb_gt j _)), (proj2 (Z.eqb_neq j _)) by lia.
Qed.
End phi_step.

(** ** Admitted words *)

(** What [_validate_word] has checked of a word *)
Record admitted (flags : Flags) (window : option Z) (reserved : list Z) (count i : Z) (n : Name) (o : Operands) : Prop := {
  ad_branch : is_branch n = true → field imm o `mod` 4 = 0 ∧ (allow_loops flags = false → 0 < field imm o) ∧
    0 ≤ i + field imm o `div` 4 ≤ count;
  ad_jal : n = JAL → field imm o `mod` 4 = 0;
  ad_link : is_jump n = true → field rd o = 0 ∨ field rd o = 1;
  ad_write r : straight n = true → rd o = Some r → r = 0 ∨ r ∉ reserved;
  ad_memory : is_memory n = true → check_memory_word flags window i o = Ok () }.

Lemma decode_memory ab aj w n o :
  _decode ab aj w = Ok (n, o) → is_memory n = true → (w &&& 0x7f =? 0x03) || (w &&& 0x7f =? 0x23) = true.
Proof.
  unfold _decode. cbv zeta. intros Hd Hm.
  do 2 (destruct (_ =? _); [injection Hd as <- <-; done|]).
  destruct (_ =? 0x13); [apply decode_op_imm_shape in Hd as (_ & _ & ?); congruence|].
  destruct (_ =? 0x33); [apply decode_op_shape in Hd as (_ & _ & ?); congruence|].
  destruct (_ =? 0x03); [done|]. destruct (_ =? 0x23); [done|]. destruct (_ && ab).
  { apply decode_branch_shape in Hd as [_ Hb]. by destruct n. }
  destruct (_ && aj); [|done]. apply decode_jump_shape in Hd as [_ Hj]. by destruct n.
Qed.

Lemma decode_straight w n o : _decode false false w = Ok (n, o) → straight n = true.
Proof.
  unfold _decode. cbv zeta. rewrite !andb_false_r.
  do 2 (destruct (_ =? _); [by intros [= <- <-]|]).
  destruct (_ =? 0x13); [by intros (_ & ? & _)%decode_op_imm_shape|].
  destruct (_ =? 0x33); [by intros (_ & ? & _)%decode_op_shape|].
  do 2 (destruct (_ =? _); [destruct (negb _); [done|]; by intros [= <- <-]|]). done.
Qed.

Lemma decode_not_jump ab w n o : _decode ab false w = Ok (n, o) → is_jump n = false.
Proof.
  unfold _decode. cbv zeta. rewrite !andb_false_r. intros Hd.
  do 2 (destruct (_ =? _); [by injection Hd as <- <-|]).
  destruct (_ =? 0x13); [apply decode_op_imm_shape in Hd as (_ & Hs & _); by destruct n|].
  destruct (_ =? 0x33); [apply decode_op_shape in Hd as (_ & Hs & _); by destruct n|].
  do 2 (destruct (_ =? _); [destruct (negb _); [done|]; by injection Hd as <- <-|]).
  destruct (_ && ab); [|done]. apply decode_branch_shape in Hd as [_ Hb]. by destruct n.
Qed.

Lemma validated_word p flags window reserved count i w :
  _validate_word p flags window reserved count i w = Ok () →
  ∃ n o, _decode (allow_branches flags) (allow_jumps flags) w = Ok (n, o) ∧ admitted flags window reserved count i n o.
Proof.
  unfold _validate_word. intros ([] & _ & H)%bind_Ok. apply bind_Ok in H as ([] & _ & H). cbv zeta in H.
  apply bind_Ok in H as ([] & _ & H). apply bind_Ok in H as ([n o] & Hd & H). exists n, o.
  assert (_decode (allow_branches flags) (allow_jumps flags) w = Ok (n, o)) as Hd'
    by (destruct (_decode _ _ w) as [|[]]; done).
  clear Hd. split; [done|]. apply bind_Ok in H as ([] & _ & H). apply bind_Ok in H as ([] & _ & H).
  destruct (is_branch n) eqn:Hb; [|destruct (is_jump n) eqn:Hj].
  - unfold _validate_branch_target in H. apply bind_Ok in H as ([] & H1%raise_if_Ok & H).
    apply bind_Ok in H as ([] & H2%raise_if_Ok & H). apply bind_Ok in H as ([] & _ & H). cbv zeta in H.
    apply bind_Ok in H as ([] & H3%raise_if_Ok & H4%raise_if_Ok). apply negb_false_iff, Z.eqb_eq in H1.
    apply Z.ltb_ge in H3, H4. split; try (intros; by destruct n). intros _. split_and!; [done| |lia..].
    intros Hal. rewrite Hal, andb_true_r in H2. by apply Z.leb_gt in H2.
  - unfold _validate_jump_word in H. cbv zeta in H. apply bind_Ok in H as ([] & H1%raise_if_Ok & H).
    apply negb_false_iff, orb_true_iff in H1. rewrite !Z.eqb_eq in H1.
    split; try (intros; by destruct n). intros ->. cbn in H.
    apply bind_Ok in H as ([] & H2%raise_if_Ok & _). by apply negb_false_iff, Z.eqb_eq in H2.
  - apply bind_Ok in H as ([] & H1%raise_if_Ok & H). split; try congruence; [intros ->; done|..].
    + intros r _ Hr. unfold field in H1. rewrite Hr in H1. apply andb_false_iff in H1 as [H1|H1].
      * apply negb_false_iff, Z.eqb_eq in H1. by left.
      * apply bool_decide_eq_false in H1. by right.
    + intros Hm. cbv zeta in H. by rewrite (decode_memory _ _ _ _ _ Hd' Hm) in H.
Qed.

(** ** One step of an analysed program *)

Lemma target_aligned k : k `mod` 4 = 0 → 4 * (k `div` 4) = k.
Proof. intros Hk. pose proof (Z.div_mod k 4 ltac:(lia)). lia. Qed.
Lemma next_at base i k : k `mod` 4 = 0 → (pc_at base i + k) &&& _MASK32 = pc_at base (i + k `div` 4).
Proof. intros Hk. rewrite pc_at_plus. unfold pc_at. do 2 f_equal. pose proof (target_aligned k Hk). lia. Qed.
Lemma jalr_address_range a k : 0 ≤ jalr_address a k < 2 ^ 32.
Proof.
  unfold jalr_address. pose proof (mask_range (a + k)) as Hr. change (Z.ldiff ?x 1) with (Z.ldiff x (Z.ones 1)).
  rewrite Z.ldiff_ones_r, Z.shiftl_mul_pow2, Z.shiftr_div_pow2 by lia. change (2 ^ 1) with 2.
  generalize dependent ((a + k) &&& _MASK32). intros x Hx. pose proof (Z.mul_div_le x 2). pose proof (Z.div_pos x 2). lia.
Qed.

Lemma sum_le {A} (f g : A → Z) ls :
  (∀ l, l ∈ ls → f l ≤ g l) → foldr Z.add 0 (f <$> ls) ≤ foldr Z.add 0 (g <$> ls).
Proof.
  induction ls as [|l ls IH]; intros Hle; [done|]. rewrite ?fmap_cons. cbn [foldr]. pose proof (Hle l ltac:(left)).
  specialize (IH ltac:(intros l' Hl'; apply Hle; by right)). lia.
Qed.
Lemma sum_lt {A} (f g : A → Z) ls l d :
  l ∈ ls → (∀ l, l ∈ ls → f l ≤ g l) → f l + d ≤ g l → foldr Z.add 0 (f <$> ls) + d ≤ foldr Z.add 0 (g <$> ls).
Proof.
  intros Hl. induction Hl as [l ls|l y ls Hl IH]; intros Hle Hd; rewrite !fmap_cons; cbn [foldr].
  - pose proof (sum_le f g ls ltac:(intros l' Hl'; apply Hle; by right)). lia.
  - pose proof (Hle y ltac:(left)). specialize (IH ltac:(intros l' Hl'; apply Hle; by right) Hd). lia.
Qed.
Lemma sum_nonneg {A} (f : A → Z) ls : (∀ l, l ∈ ls → 0 ≤ f l) → 0 ≤ foldr Z.add 0 (f <$> ls).
Proof.
  induction ls as [|l ls IH]; intros Hle; [done|]. rewrite ?fmap_cons. cbn [foldr]. pose proof (Hle l ltac:(left)).
  specialize (IH ltac:(intros l' Hl'; apply Hle; by right)). lia.
Qed.

Section analysed_run.
Context (flags : Flags) (window : option Z) (reserved : list Z) (base x18 : Z).
Context (ds : list (Name * Operands)) (cf : ControlFlow) (out : list State) (S : nat → option State).
Let count := Z.of_nat (length ds).
Context (Han : analysed (allow_loops flags) (Some base) reserved ds cf out S).
Context (Hbase : 0 ≤ base < 2 ^ 32) (Hcount : 4 * count < 2 ^ 32).
Context (Hsh : ∀ i n o, at_node ds i = Some (n, o) → shaped n o ∧ admitted flags window reserved count i n o).

Lemma at_node_range i x : at_node ds i = Some x → 0 ≤ i < count.
Proof.
  unfold at_node. destruct (Z.leb_spec 0 i); [|done]. intros Hi%lookup_lt_Some. unfold count. lia.
Qed.

(** Where a step leads: an edge of the analysis, past the checks of its target *)
Record leads (i : Z) (n : Name) (o : Operands) (cur : State) (m : Machine) (j : Z) : Prop := {
  ld_range : 0 ≤ j ≤ count;
  ld_moves : moves n o i m j;
  ld_edge : j ∈ node_successors n o i cur (Some base);
  ld_target : straight n = false → j ≠ i + 1 → j ≠ i ∧
    ∀ l, l ∈ loops cf → (i = back_edge l ∧ j = head l) ∨ j < init l ∨ back_edge l < j }.

Lemma static_target i n o cur :
  is_branch n = true ∨ n = JAL → field imm o `mod` 4 = 0 →
  _transfer_target n o i cur (Some base) = Some (i + field imm o `div` 4).
Proof.
  intros Hn Hk. unfold _transfer_target. destruct Hn as [Hb| ->]; [|by rewrite Hk]. by destruct n; try done; cbn; rewrite Hk.
Qed.

Lemma straight_leads i n o cur m :
  at_node ds i = Some (n, o) → straight n = true → leads i n o cur m (i + 1).
Proof.
  intros Hi%at_node_range Hs. pose proof Hs as [Hb Hj]%negb_true_iff%orb_false_iff. split; [lia| | |congruence].
  - split; [done|congruence..].
  - unfold node_successors. rewrite Hb, Hj. set_solver.
Qed.

Lemma node_out i n o cur :
  at_node ds i = Some (n, o) → S (Z.to_nat i) = Some cur → default unknown_state (out !! Z.to_nat i) = cur.
Proof. intros _ Hc. by destruct (an_out _ _ _ _ _ _ _ Han _ _ Hc) as [-> _]. Qed.

Lemma branch_leads i n o cur m taken :
  at_node ds i = Some (n, o) → S (Z.to_nat i) = Some cur → is_branch n = true →
  _branch_taken n (reg m (field rs1 o)) (reg m (field rs2 o)) = Ok taken →
  leads i n o cur m (if taken then i + field imm o `div` 4 else i + 1).
Proof.
  intros Hi Hcur Hb Ht. destruct (Hsh _ _ _ Hi) as [_ Had]. destruct (ad_branch _ _ _ _ _ _ _ Had Hb) as (Hk & _ & Hr).
  pose proof (at_node_range _ _ Hi) as Hir.
  pose proof (checked_target _ _ _ _ _ _ _ (an_targets _ _ _ _ _ _ _ Han) Hi ltac:(by rewrite Hb)) as Hc.
  rewrite (node_out _ _ _ _ Hi Hcur), static_target in Hc by auto. destruct Hc as (_ & Hne & Hl & _).
  split.
  - destruct taken; lia.
  - split; [unfold straight; by rewrite Hb|by exists taken|by destruct n].
  - unfold node_successors. rewrite Hb, static_target by auto. apply dict_fromkeys_elem. destruct taken; set_solver.
  - intros _ Hj. destruct taken; [|done]. done.
Qed.

Lemma jump_leads i n o cur m t :
  at_node ds i = Some (n, o) → S (Z.to_nat i) = Some cur → is_jump n = true →
  _transfer_target n o i cur (Some base) = Some t → leads i n o cur m t.
Proof.
  intros Hi Hcur Hj Ht. pose proof (at_node_range _ _ Hi) as Hir.
  assert (Hb : is_branch n = false) by (by destruct n).
  pose proof (checked_target _ _ _ _ _ _ _ (an_targets _ _ _ _ _ _ _ Han) Hi ltac:(by rewrite Hj, orb_true_r)) as Hc.
  rewrite (node_out _ _ _ _ Hi Hcur), Ht in Hc. destruct Hc as (Hr & Hne & Hl & Hfwd). split; [done| | |done].
  - split; [|congruence|by auto]. unfold straight. by rewrite Hj, orb_true_r.
  - unfold node_successors. rewrite Hb, Hj, Ht. set_solver.
Qed.

(** A JALR of an analysed program goes to the word its constant names. *)
Lemma jalr_goes i o cur m :
  at_node ds i = Some (JALR, o) → S (Z.to_nat i) = Some cur → covers x18 cur m →
  ∃ t, _transfer_target JALR o i cur (Some base) = Some t ∧ jalr_address (reg m (field rs1 o)) (field imm o) = pc_at base t.
Proof.
  intros Hi Hcur Hcov. destruct (Hsh _ _ _ Hi) as [Hshape _].
  pose proof (checked_target _ _ _ _ _ _ _ (an_targets _ _ _ _ _ _ _ Han) Hi eq_refl) as Hc.
  rewrite (node_out _ _ _ _ Hi Hcur) in Hc. destruct (_transfer_target _ _ _ _ _) as [t|] eqn:Ht; [|done].
  exists t. split; [done|]. clear Hc. unfold _transfer_target in Ht.
  assert (0 ≤ field rs1 o < 32) as Hf by (pose proof (sh_rs1_ok _ _ Hshape); unfold field; destruct (rs1 o); cbn in *; lia).
  pose proof (Hcov _ Hf) as Hh. destruct (prov_at cur (field rs1 o)) as [|c|]; try done. cbn in Hh. rewrite Hh.
  destruct (Z.eqb_spec (((jalr_address c (field imm o) - base) &&& _MASK32) `mod` 4) 0) as [Hk|]; [|done].
  cbn in Ht. injection Ht as <-. unfold pc_at. rewrite target_aligned by done. rewrite mask_add_r, mask_small; [lia|].
  pose proof (jalr_address_range c (field imm o)). lia.
Qed.

Lemma analysed_goes i n o cur m next :
  at_node ds i = Some (n, o) → S (Z.to_nat i) = Some cur → covers x18 cur m → goes n o (pc_at base i) m next →
  ∃ j, next = pc_at base j ∧ leads i n o cur m j.
Proof.
  intros Hi Hcur Hcov Hgo. destruct (Hsh _ _ _ Hi) as [_ Had]. unfold goes in Hgo.
  destruct (is_branch n) eqn:Hb.
  { destruct Hgo as (taken & Ht & ->). exists (if taken then i + field imm o `div` 4 else i + 1).
    split; [|by apply branch_leads]. destruct (ad_branch _ _ _ _ _ _ _ Had Hb) as (Hk & _).
    destruct taken; [by apply next_at|by apply (next_at base i 4)]. }
  destruct (is_jump n) eqn:Hj.
  - destruct n; try done.
    + exists (i + field imm o `div` 4). pose proof (ad_jal _ _ _ _ _ _ _ Had eq_refl) as Hk. rewrite Hgo.
      split; [by apply next_at|]. apply jump_leads; [done..|]. apply static_target; auto.
    + destruct (jalr_goes _ _ _ _ Hi Hcur Hcov) as (t & Ht & He). exists t. rewrite Hgo.
      split; [done|]. by apply jump_leads.
  - exists (i + 1). split; [|apply straight_leads; [done|unfold straight; by rewrite Hb, Hj]].
    assert (next = (pc_at base i + 4) &&& _MASK32) as -> by (by destruct n). by apply (next_at base i 4).
Qed.

Lemma analysed_loops :
  (∀ l, l ∈ loops cf → loop_ok ds l) ∧
  (∀ i n o, at_node ds i = Some (n, o) → is_branch n = true → i + field imm o `div` 4 ≤ i →
    ∃ l, l ∈ loops cf ∧ back_edge l = i ∧ head l = i + field imm o `div` 4).
Proof.
  pose proof (an_loops _ _ _ _ _ _ _ Han) as Hl. destruct (allow_loops flags) eqn:Hal.
  - by apply recognized_loops in Hl.
  - destruct Hl as [-> _]. split; [by intros l ?%not_elem_of_nil|]. intros i n o Hi Hb Hle.
    destruct (ad_branch _ _ _ _ _ _ _ (proj2 (Hsh _ _ _ Hi)) Hb) as (Hk & Hpos & _).
    specialize (Hpos Hal). pose proof (target_aligned _ Hk). lia.
Qed.
Lemma analysed_induction l : l ∈ loops cf → 0 ≤ induction l < 32.
Proof.
  intros Hl. destruct analysed_loops as [Hok _]. destruct (lo_init_word _ _ (Hok l Hl)) as (o & Ho & Hr & _).
  destruct (Hsh _ _ _ Ho) as [Hs _]. pose proof (sh_rd_ok _ _ Hs) as H. by rewrite Hr in H.
Qed.

(** A step back is the back edge of a loop. *)
Lemma backward_step i n o cur m j :
  at_node ds i = Some (n, o) → leads i n o cur m j → j ≤ i → ∃ l, l ∈ loops cf ∧ i = back_edge l ∧ j = head l.
Proof.
  intros Hi Hle Hji. pose proof (ld_moves _ _ _ _ _ _ Hle) as Hmv.
  destruct (straight n) eqn:Hs; [pose proof (mv_straight _ _ _ _ _ Hmv Hs); lia|].
  destruct (is_jump n) eqn:Hj; [pose proof (mv_jump _ _ _ _ _ Hmv Hj); lia|].
  assert (is_branch n = true) as Hb by (unfold straight in Hs; rewrite Hj in Hs; by destruct (is_branch n)).
  destruct (mv_branch _ _ _ _ _ Hmv Hb) as (taken & _ & ->). destruct taken; [|lia].
  destruct (proj2 analysed_loops i n o Hi Hb Hji) as (l & ? & <- & <-). by exists l.
Qed.

Definition total (i : Z) (m : Machine) : Z := foldr Z.add 0 ((λ l, phi l i m) <$> loops cf).
Definition measure (i : Z) (m : Machine) : Z := count - i + total i m.

Record runs (i : Z) (m : Machine) : Prop := {
  rn_state : i < count → ∃ s, S (Z.to_nat i) = Some s ∧ covers x18 s m;
  rn_loops l : l ∈ loops cf → loop_inv l i m;
  rn_length : length (registers m) = 32%nat;
  rn_zero : reg m 0 = 0 }.

Lemma measure_nonneg i m : i ≤ count → runs i m → 0 ≤ measure i m.
Proof.
  intros Hi Hr. unfold measure, total. pose proof (sum_nonneg (λ l, phi l i m) (loops cf)) as H.
  assert (∀ l, l ∈ loops cf → 0 ≤ phi l i m) as Hp; [|specialize (H Hp); lia].
  intros l Hl. apply (phi_nonneg ds); [by apply analysed_loops|by apply rn_loops].
Qed.

Lemma after_loop i n o cur m j l :
  at_node ds i = Some (n, o) → leads i n o cur m j → l ∈ loops cf → back_edge l < i → back_edge l < j.
Proof.
  intros Hi Hle Hl Hlt. destruct (Z.le_gt_cases j i) as [Hji|]; [|lia].
  destruct (backward_step _ _ _ _ _ _ Hi Hle Hji) as (l' & Hl' & -> & ->).
  pose proof (an_targets _ _ _ _ _ _ _ Han) as Hc. unfold _check_loop_targets in Hc. apply bind_Ok in Hc as ([] & Hc & _).
  pose proof (proj1 analysed_loops _ Hl'). pose proof (proj1 analysed_loops _ Hl).
  destruct (disjoint_loops _ l l' Hc Hl Hl') as [->|Hap]; [lia|]. destruct H, H0, Hap; lia.
Qed.

Lemma loop_step i n o cur pc m e m' v j l :
  at_node ds i = Some (n, o) → executes n o pc m e m' v → leads i n o cur m j → runs i m → l ∈ loops cf →
  loop_inv l j m' ∧ phi l j m' ≤ phi l i m - (if bool_decide (i = back_edge l ∧ j = head l) then loop_length l else 0).
Proof.
  intros Hi Hx Hle Hr Hl. destruct (Hsh _ _ _ Hi) as [Hs _].
  apply (phi_step ds l (proj1 analysed_loops l Hl) i j n o pc m e m' v); try done.
  - by apply rn_length in Hr.
  - by apply rn_zero in Hr.
  - by apply ld_moves in Hle.
  - by apply analysed_induction.
  - intros Hst Hne. by apply (ld_target _ _ _ _ _ _ Hle).
  - by apply (after_loop i n o cur m).
  - by apply rn_loops.
Qed.

Lemma measure_decreases i n o cur pc m e m' v j :
  at_node ds i = Some (n, o) → executes n o pc m e m' v → leads i n o cur m j → runs i m →
  measure j m' < measure i m.
Proof.
  intros Hi Hx Hle Hr. unfold measure, total.
  assert (Hmono : ∀ l, l ∈ loops cf → phi l j m' ≤ phi l i m).
  { intros l Hl. destruct (loop_step _ _ _ _ _ _ _ _ _ _ _ Hi Hx Hle Hr Hl) as [_ Hp].
    pose proof (loop_length_pos _ _ (proj1 analysed_loops l Hl)). case_bool_decide; lia. }
  destruct (Z.le_gt_cases j i) as [Hji|Hji].
  - destruct (backward_step _ _ _ _ _ _ Hi Hle Hji) as (l & Hl & Hb & Hh).
    destruct (loop_step _ _ _ _ _ _ _ _ _ _ _ Hi Hx Hle Hr Hl) as [_ Hp]. rewrite bool_decide_true in Hp by done.
    pose proof (sum_lt (λ l, phi l j m') (λ l, phi l i m) _ l (loop_length l) Hl Hmono ltac:(cbn beta; lia)) as Hsum.
    cbn beta in Hsum.
    unfold loop_length in *. lia.
  - pose proof (sum_le (λ l, phi l j m') (λ l, phi l i m) _ Hmono). lia.
Qed.

Lemma runs_step i n o m e m' v :
  at_node ds i = Some (n, o) → executes n o (pc_at base i) m e m' v → runs i m →
  ∃ j, next_pc e = pc_at base j ∧ 0 ≤ j ≤ count ∧ moves n o i m j ∧ runs j m' ∧ 0 ≤ measure j m' < measure i m.
Proof.
  intros Hi Hx Hr. destruct (Hsh _ _ _ Hi) as [Hs _]. pose proof (at_node_range _ _ Hi) as Hir.
  pose proof (rn_length _ _ Hr) as Hl.
  destruct (rn_state _ _ Hr (proj2 Hir)) as (cur & Hcur & Hcov).
  destruct (analysed_goes i n o cur m (next_pc e) Hi Hcur Hcov (ex_goes _ _ _ _ _ _ _ Hx)) as (j & Hnext & Hle).
  assert (runs j m') as Hr'.
  { split.
    - intros Hj. pose proof (ld_range _ _ _ _ _ _ Hle) as Hjr.
      assert (ds !! Z.to_nat i = Some (n, o)) as Hd by (by apply at_node_elem, enumerate_elem in Hi as [_ ?]).
      assert (j ∈ node_successors n o (Z.of_nat (Z.to_nat i)) cur (Some base)) as He
        by (rewrite Z2Nat.id by lia; apply Hle).
      destruct (an_flow _ _ _ _ _ _ _ Han _ n o cur j Hd Hcur He ltac:(split; [lia|done])) as (s & Hs' & Hsl).
      exists s. split; [done|]. eapply covers_le; [done|]. eapply covers_step; try done.
      by apply (an_out _ _ _ _ _ _ _ Han (Z.to_nat i)).
    - intros l Hll. by apply (loop_step _ _ _ _ _ _ _ _ _ _ _ Hi Hx Hle Hr Hll).
    - rewrite (executes_length _ _ _ _ _ _ _ Hx). done.
    - rewrite (executes_reg _ _ _ _ _ _ _ 0 Hx (sh_rd_ok _ _ Hs) Hl) by lia.
      rewrite decide_False by naive_solver. by apply rn_zero in Hr. }
  exists j. split_and!; try done; [apply Hle..| |].
  - apply measure_nonneg; [apply Hle|done].
  - by apply (measure_decreases i n o cur (pc_at base i) m e m' v).
Qed.
End analysed_run.
