(* ===== verification/RvForward.v ===== *)
(** * The forward pass of the address provenance

    [_provenance_states] visits each word once, in order: what it computes is a
    solution of the forward dataflow equations ([provenance_states_sound]), so a
    memory word that [_memory_uses] accepts reaches only the addresses it
    names. *)

From S2P Require Import Prelude Json RvProgram RvFlowSpec.

Local Open Scope Z_scope.

(** ** The successors of one word *)

Lemma Forall2_enumerate {A B} (P : Z → A → B → Prop) (l : list A) (k : list B) :
  Forall2 (λ x y, P x.1 x.2 y) (enumerate l) k →
  length l = length k ∧ ∀ i x, l !! i = Some x → ∃ y, k !! i = Some y ∧ P (Z.of_nat i) x y.
Proof.
  intros HF. split.
  - apply Forall2_length in HF. unfold enumerate in HF. by rewrite length_imap in HF.
  - intros i x Hx. destruct (Forall2_lookup_l _ _ _ i (Z.of_nat i, x) HF) as (y & Hy & HP).
    + unfold enumerate. by rewrite list_lookup_imap, Hx.
    + by exists y.
Qed.

Definition flow_to (count : Z) (outgoing : State) (states : list (option State)) (successor : Z) : list (option State) :=
  if count <=? successor then states
  else alter (λ existing, Some (flow_into outgoing existing)) (Z.to_nat successor) states.
Definition visit (count : Z) (states : list (option State)) (x : Z * (Name * Operands)) : list (option State) :=
  let current := default unknown_state (mjoin (states !! Z.to_nat x.1)) in
  foldl (flow_to count (straight_state x.2.1 x.2.2 current)) (<[Z.to_nat x.1 := Some current]> states)
    (_successor_indices x.2.1 x.2.2 x.1 count).

(** States of 32 entries that only go up *)
Record above (k : nat) (sts sts' : list (option State)) : Prop := {
  ab_length : length sts' = length sts;
  ab_below i : (i ≤ k)%nat → sts' !! i = sts !! i;
  ab_up i s : node_at sts i = Some s → ∃ s', node_at sts' i = Some s' ∧ state_le s s' }.
Definition sized (sts : list (option State)) : Prop := ∀ i s, node_at sts i = Some s → length s = 32%nat.

Lemma above_refl k sts : above k sts sts.
Proof. split; [done..|]. intros i s Hs. by exists s. Qed.
Lemma above_trans k sts1 sts2 sts3 : above k sts1 sts2 → above k sts2 sts3 → above k sts1 sts3.
Proof.
  intros [Hl1 Hb1 Hu1] [Hl2 Hb2 Hu2]. split; [congruence|intros i Hi; by rewrite Hb2, Hb1|].
  intros i s Hs. destruct (Hu1 i s Hs) as (s1 & Hs1 & ?). destruct (Hu2 i s1 Hs1) as (s2 & ? & ?).
  exists s2. split; [done|by etrans].
Qed.

Lemma node_at_alter f sts j i :
  node_at (alter (λ e : option State, Some (f e)) j sts) i =
    if decide (i = j ∧ (j < length sts)%nat) then Some (f (node_at sts i)) else node_at sts i.
Proof.
  unfold node_at. rewrite list_lookup_alter. destruct (decide (j = i)) as [->|Hne].
  - destruct (sts !! i) as [o|] eqn:Hi; cbn.
    + apply lookup_lt_Some in Hi. by rewrite decide_True.
    + apply lookup_ge_None in Hi. rewrite decide_False by lia. done.
  - by rewrite decide_False by naive_solver.
Qed.

Lemma flow_into_up out e s : length out = 32%nat → e = Some s → length s = 32%nat →
  state_le s (flow_into out e) ∧ state_le out (flow_into out e).
Proof. intros Ho -> Hs. cbn. split; [apply merge_states_left|apply merge_states_right]; congruence. Qed.
Lemma flow_into_sized out e : length out = 32%nat → (∀ s, e = Some s → length s = 32%nat) → length (flow_into out e) = 32%nat.
Proof. intros Ho He. destruct e as [s|]; [|done]. cbn. rewrite merge_states_length; rewrite (He s eq_refl); done. Qed.

Lemma flow_to_above count out sts k j :
  length out = 32%nat → sized sts → Z.of_nat k < j → count = Z.of_nat (length sts) →
  above k sts (flow_to count out sts j) ∧ sized (flow_to count out sts j) ∧
  (j < count → ∃ s, node_at (flow_to count out sts j) (Z.to_nat j) = Some s ∧ state_le out s).
Proof.
  intros Hout Hsz Hj Hc. unfold flow_to. destruct (Z.leb_spec count j); [split_and!; [apply above_refl|done|lia]|].
  assert (Hself : ∀ e, (∀ s, e = Some s → length s = 32%nat) → state_le out (flow_into out e)).
  { intros [s|] He; [apply (flow_into_up out (Some s) s); auto|done]. }
  split_and!.
  - split; [by rewrite length_alter|intros i Hi; rewrite list_lookup_alter_ne by lia; done|].
    intros i s Hs. rewrite node_at_alter. case_decide; [|by exists s]. eexists. split; [done|].
    rewrite Hs. by apply (flow_into_up out (Some s) s); [|done|apply (Hsz i)].
  - intros i s. rewrite node_at_alter. case_decide; [|apply Hsz]. intros [= <-]. apply flow_into_sized; [done|]. apply Hsz.
  - intros _. rewrite node_at_alter. rewrite decide_True by (split; [done|lia]). eexists. split; [done|]. apply Hself, Hsz.
Qed.

Lemma flow_all_above count out js k : ∀ sts,
  length out = 32%nat → sized sts → (∀ j, j ∈ js → Z.of_nat k < j) → count = Z.of_nat (length sts) →
  let sts' := foldl (flow_to count out) sts js in
  above k sts sts' ∧ sized sts' ∧
  ∀ j, j ∈ js → j < count → ∃ s, node_at sts' (Z.to_nat j) = Some s ∧ state_le out s.
Proof.
  induction js as [|j js IH]; intros sts Hout Hsz Hjs Hc; cbn [foldl].
  { split_and!; [apply above_refl|done|by intros j ?%not_elem_of_nil]. }
  destruct (flow_to_above count out sts k j Hout Hsz ltac:(apply Hjs; left) Hc) as (Ha & Hsz' & Hj).
  destruct (IH (flow_to count out sts j) Hout Hsz' ltac:(intros i Hi; apply Hjs; by right)
    ltac:(by rewrite (ab_length _ _ _ Ha))) as (Ha' & Hsz'' & Hjs').
  split_and!; [by eapply above_trans|done|]. intros i [->|Hi]%elem_of_cons Hlt; [|by apply Hjs'].
  destruct (Hj Hlt) as (s & Hs & Hle). destruct (ab_up _ _ _ Ha' _ _ Hs) as (s' & Hs' & Hle').
  exists s'. split; [done|by etrans].
Qed.

Lemma successor_indices_elem n o i count j :
  j ∈ _successor_indices n o i count ↔
  (j = i + 1 ∧ i + 1 ≤ count) ∨
  (is_branch n = true ∧ field imm o `mod` 4 = 0 ∧ j = i + field imm o `div` 4 ∧ i < j ≤ count).
Proof.
  unfold _successor_indices. rewrite dict_fromkeys_elem, elem_of_app. apply Morphisms_Prop.or_iff_morphism.
  - destruct (Z.leb_spec (i + 1) count); rewrite ?list_elem_of_singleton, ?elem_of_nil; naive_solver lia.
  - destruct (is_branch n) eqn:Hb; cbn; [|rewrite elem_of_nil; naive_solver].
    destruct (Z.eqb_spec (field imm o `mod` 4) 0); cbn; [|rewrite elem_of_nil; naive_solver].
    destruct (Z.ltb_spec i (i + field imm o `div` 4)), (Z.leb_spec (i + field imm o `div` 4) count); cbn;
      rewrite ?list_elem_of_singleton, ?elem_of_nil; naive_solver lia.
Qed.
Lemma successor_after n o i count j : j ∈ _successor_indices n o i count → i < j.
Proof. rewrite successor_indices_elem. lia. Qed.

(** ** The pass *)

Section pass.
Context (dec : list (Name * Operands)).
Let count := Z.of_nat (length dec).

(** What the first [k] visits have established *)
Record passed (k : nat) (sts : list (option State)) : Prop := {
  ps_length : length sts = length dec;
  ps_sized : sized sts;
  ps_entry : dec ≠ [] → ∃ s, node_at sts 0 = Some s ∧ state_le initial_state s;
  ps_flow i n o : (i < k)%nat → dec !! i = Some (n, o) → ∃ s, node_at sts i = Some s ∧
    ∀ j, j ∈ _successor_indices n o (Z.of_nat i) count → j < count →
      ∃ s', node_at sts (Z.to_nat j) = Some s' ∧ state_le (straight_state n o s) s' }.

Lemma unknown_length : length unknown_state = 32%nat.
Proof. done. Qed.

Lemma passed_visit k n o sts :
  passed k sts → dec !! k = Some (n, o) → passed (S k) (visit count sts (Z.of_nat k, (n, o))).
Proof.
  intros [Hl Hsz He Hf] Hk. unfold visit. cbn [fst snd]. rewrite Nat2Z.id. fold (node_at sts k).
  pose proof (lookup_lt_Some _ _ _ Hk) as Hlt.
  set (cur := default unknown_state (node_at sts k)). set (sts1 := <[k := Some cur]> sts).
  assert (Hcur : length cur = 32%nat) by (unfold cur; destruct (node_at sts k) eqn:Hn; [by apply (Hsz k)|done]).
  assert (H1 : ∀ i, node_at sts1 i = if decide (i = k) then Some cur else node_at sts i).
  { intros i. unfold node_at, sts1. case_decide as Hd; [subst; by rewrite list_lookup_insert_eq by lia|].
    by rewrite list_lookup_insert_ne. }
  assert (Hkeep : ∀ i s, node_at sts i = Some s → node_at sts1 i = Some s).
  { intros i s Hs. rewrite H1. case_decide as Hd; [|done]. subst. unfold cur. by rewrite Hs. }
  assert (Hsz1 : sized sts1) by (intros i s; rewrite H1; case_decide; [by intros [= <-]|apply Hsz]).
  destruct (flow_all_above count (straight_state n o cur) (_successor_indices n o (Z.of_nat k) count) k sts1)
    as (Ha & Hsz2 & Hout); [by rewrite straight_state_length|done|apply successor_after|
      unfold sts1, count; rewrite length_insert; lia|].
  set (sts2 := foldl _ _ _) in *. split.
  - rewrite (ab_length _ _ _ Ha). unfold sts1. by rewrite length_insert.
  - done.
  - intros Hne. destruct (He Hne) as (s & Hs%Hkeep & Hle). destruct (ab_up _ _ _ Ha _ _ Hs) as (s' & ? & ?).
    exists s'. split; [done|by etrans].
  - intros i n' o' Hi Hdec. assert (Hat : node_at sts2 i = node_at sts1 i) by (unfold node_at; by rewrite (ab_below _ _ _ Ha) by lia).
    rewrite Hat, H1. case_decide as Hd.
    + subst. rewrite Hk in Hdec. injection Hdec as <- <-. exists cur. split; [done|]. intros j Hj Hjc. by apply Hout.
    + destruct (Hf i n' o' ltac:(lia) Hdec) as (s & Hs & Hj). exists s. split; [done|]. intros j Hj' Hjc.
      destruct (Hj j Hj' Hjc) as (s' & Hs'%Hkeep & Hle). destruct (ab_up _ _ _ Ha _ _ Hs') as (s'' & ? & ?).
      exists s''. split; [done|by etrans].
Qed.

Lemma passed_all p q sts : dec = p ++ q → passed 0 sts → passed (length p) (foldl (visit count) sts (enumerate p)).
Proof.
  revert q. induction p as [|[n o] p IH] using rev_ind; intros q Hd H0; [done|].
  unfold enumerate. rewrite imap_app, foldl_app, length_app. cbn [imap length foldl].
  rewrite Nat.add_0_r, Nat.add_1_r. apply passed_visit.
  - apply (IH ((n, o) :: q)); [|done]. by rewrite Hd, <- app_assoc.
  - rewrite Hd, <- app_assoc. by rewrite lookup_app_r, Nat.sub_diag by lia.
Qed.

Lemma passed_start : passed 0 (<[0%nat := Some initial_state]> (replicate (length dec) None)).
Proof.
  split.
  - by rewrite length_insert, length_replicate.
  - intros i s. unfold node_at. destruct i as [|i].
    + destruct dec; [done|]. cbn. by intros [= <-].
    + rewrite list_lookup_insert_ne by lia. destruct (replicate _ _ !! _) eqn:Hr; [|done].
      apply lookup_replicate in Hr as [-> _]. done.
  - intros Hne. exists initial_state. split; [|reflexivity]. unfold node_at. by destruct dec.
  - lia.
Qed.
End pass.

(** A solution of the forward equations *)
Record forward (words : list Z) (sts : list State) (dec : list (Name * Operands)) : Prop := {
  fd_decode : Forall2 (λ w d, _decode true false w = Ok d) words dec;
  fd_length : length sts = length dec;
  fd_sized i s : sts !! i = Some s → length s = 32%nat;
  fd_entry : ∃ s, sts !! 0%nat = Some s ∧ state_le initial_state s;
  fd_flow i n o s j : dec !! i = Some (n, o) → sts !! i = Some s →
    j ∈ _successor_indices n o (Z.of_nat i) (Z.of_nat (length dec)) → j < Z.of_nat (length dec) →
    ∃ s', sts !! Z.to_nat j = Some s' ∧ state_le (straight_state n o s) s' }.

Lemma decode_forward words dec :
  map_result (λ iw : Z * Z, word_range iw.1 iw.2 ;; _decode true false iw.2) (enumerate words) = Ok dec →
  Forall2 (λ w d, _decode true false w = Ok d) words dec.
Proof.
  intros [Hl Hm]%map_result_Ok%(Forall2_enumerate (λ i w d, (word_range i w ;; _decode true false w) = Ok d)).
  apply Forall2_same_length_lookup. split; [done|]. intros i w d Hw Hd. destruct (Hm i w Hw) as (d' & Hd' & Hdec).
  apply bind_Ok in Hdec as ([] & _ & Hdec). congruence.
Qed.

Lemma provenance_states_sound words sts dec : _provenance_states words = Ok (sts, dec) → forward words sts dec.
Proof.
  unfold _provenance_states. intros ([] & Hne%raise_if_Ok%bool_decide_eq_false & H)%bind_Ok.
  apply bind_Ok in H as (dec' & Hdec%decode_forward & [= <- <-]).
  pose proof (passed_all dec' dec' [] _ (eq_sym (app_nil_r dec')) (passed_start dec')) as Hp.
  change (foldl _ _ (enumerate dec')) with (foldl (visit (Z.of_nat (length dec')))
    (<[0%nat := Some initial_state]> (replicate (length dec') None)) (enumerate dec')).
  set (sts := foldl _ _ _) in *. destruct Hp as [Hl Hsz He Hf].
  assert (Hat : ∀ i s, node_at sts i = Some s → (default unknown_state <$> sts) !! i = Some s).
  { intros i s. unfold node_at. rewrite list_lookup_fmap. destruct (sts !! i) as [[]|]; cbn; congruence. }
  split.
  - done.
  - by rewrite length_fmap.
  - intros i s. rewrite list_lookup_fmap. destruct (sts !! i) as [[t|]|] eqn:Hi; [|by intros [= <-]|done].
    intros [= <-]. apply (Hsz i). unfold node_at. by rewrite Hi.
  - destruct He as (s & Hs & Hle); [|exists s; auto]. intros ->. by inversion Hdec; subst.
  - intros i n o s j Hi Hs Hj Hc. destruct (Hf i n o) as (s0 & Hs0%Hat & Hflow); [by apply lookup_lt_Some in Hi|done|].
    rewrite Hs0 in Hs. injection Hs as ->. destruct (Hflow j Hj Hc) as (s' & ?%Hat & ?). by exists s'.
Qed.

(** ** The memory words *)

(** What [_memory_uses] has checked of a load or store *)
Definition use_ok (window : option Z) (o : Operands) (s : State) : Prop :=
  ∃ l h, prov_at s (field rs1 o) = Window l h ∧ match window with Some w => 0 ≤ l + field imm o ∧ h + field imm o ≤ w - 4 | None => True end.

Lemma memory_use_ok window i o s d : memory_use window i o s = Ok d → use_ok window o s.
Proof.
  unfold memory_use. destruct (prov_at s (field rs1 o)) as [| |l h] eqn:Hp; try done. cbv zeta.
  intros ([] & _ & H)%bind_Ok. apply bind_Ok in H as ([] & Hw%raise_if_Ok & _). exists l, h. split; [done|].
  destruct window; [|done]. apply orb_false_iff in Hw as [?%Z.ltb_ge ?%Z.ltb_ge]. lia.
Qed.

Lemma fold_result_steps {A B} (f : B → A → result B) b xs r :
  fold_result f b xs = Ok r → ∀ x, x ∈ xs → ∃ c d, f c x = Ok d.
Proof.
  revert b. induction xs as [|x xs IH]; intros b; cbn [fold_result]; [by intros _ y ?%not_elem_of_nil|].
  intros (b' & Hb & Hrun)%bind_Ok y [->|Hy]%elem_of_cons; [by exists b, b'|by apply (IH b')].
Qed.

Lemma memory_uses_sound words window uses :
  _memory_uses words window = Ok uses → ∃ sts dec, forward words sts dec ∧
    ∀ i n o s, dec !! i = Some (n, o) → sts !! i = Some s → is_memory n = true → use_ok window o s.
Proof.
  unfold _memory_uses. intros ([sts dec] & Hf%provenance_states_sound & H)%bind_Ok. exists sts, dec. split; [done|].
  intros i n o s Hi Hs Hm. assert (Hin : (Z.of_nat i, (n, o)) ∈ enumerate dec).
  { unfold enumerate. rewrite list_elem_of_lookup. exists i. by rewrite list_lookup_imap, Hi. }
  destruct (fold_result_steps _ _ _ _ H _ Hin) as (acc & acc' & Hx). cbn [fst snd] in Hx. rewrite Hm, Nat2Z.id, Hs in Hx.
  apply bind_Ok in Hx as (d & Hd & _). by eapply memory_use_ok.
Qed.
