(* ===== verification/RvAccepted.v ===== *)
(** * Accepted short programs end, inside their window

    [accepted_program_ends]: the static step bound of an accepted program is
    right, with loops and computed jumps.  [accepted_program_is_contained]: with
    address forms or loops, but not both, an accepted program changes memory
    only inside the declared window and leaves the reserved registers alone.
    [RvExample] holds the programs on which the gate fails otherwise. *)

From S2P Require Import Prelude Json RvProgram RvFlowSpec RvProgramSpec RvForward.

Local Open Scope Z_scope.

(** ** Accepted words *)

Lemma check_profile_ok p q : _check_profile p = Ok q → q = p.
Proof. unfold _check_profile. intros ([] & _ & H)%bind_Ok. apply bind_Ok in H as ([] & _ & H). by apply bind_Ok in H as ([] & _ & [= <-]). Qed.
Lemma check_window_ok w w' : _check_window w = Ok w' → w' = w ∧ match w with Some b => 4 ≤ b ∧ b `mod` 4 = 0 | None => True end.
Proof.
  unfold _check_window. destruct w as [b|]; [|by intros [= <-]].
  intros ([] & H1%raise_if_Ok & H)%bind_Ok. apply bind_Ok in H as ([] & H2%raise_if_Ok & [= <-]).
  apply Z.ltb_ge in H1. apply negb_false_iff, Z.eqb_eq in H2. done.
Qed.

Definition controlled (flags : Flags) : bool := allow_jumps flags || allow_loops flags || allow_branches flags.

(** What [validate_program_words] has checked *)
Record accepted (window : option Z) (reserved : list Z) (flags : Flags) (base : Z) (words : list Z) : Prop := {
  ac_base : 0 ≤ base < 2 ^ 32;
  ac_window : match window with Some b => 4 ≤ b ∧ b `mod` 4 = 0 | None => True end;
  ac_loops : allow_loops flags = true → allow_branches flags = true;
  ac_nonempty : words ≠ [];
  ac_word i w : words !! i = Some w → ∃ n o, _decode (allow_branches flags) (allow_jumps flags) w = Ok (n, o) ∧
    admitted flags window reserved (Z.of_nat (length words)) (Z.of_nat i) n o;
  ac_uses : allow_address_forms flags = true → ∃ uses, _memory_uses words window = Ok uses;
  ac_control : controlled flags = true →
    ∃ cf, control_flow_analysis (allow_jumps flags) (allow_loops flags) (Some base) reserved words = Ok cf }.

Lemma validated p window reserved flags base words :
  validate_program_words p window reserved flags (Some base) words = Ok () → accepted window reserved flags base words.
Proof.
  unfold validate_program_words. intros (p' & ->%check_profile_ok & H)%bind_Ok.
  apply bind_Ok in H as (w & [-> Hw]%check_window_ok & H). apply bind_Ok in H as (r & Hr & H).
  assert (r = reserved) as -> by (unfold _reserved_set in Hr; by apply bind_Ok in Hr as ([] & _ & [= <-])).
  apply bind_Ok in H as ([] & Hb%raise_if_Ok & H). apply bind_Ok in H as ([] & Hl%raise_if_Ok & H).
  apply bind_Ok in H as ([] & Hne%raise_if_Ok & H). apply bind_Ok in H as ([] & Hwords & H).
  apply bind_Ok in H as ([] & Huses & Hc). apply negb_false_iff, andb_true_iff in Hb.
  rewrite Z.leb_le, Z.leb_le in Hb. apply bool_decide_eq_false in Hne. split; try done.
  - unfold _MASK32 in Hb. lia.
  - intros Hal. by rewrite Hal, andb_true_l, negb_false_iff in Hl.
  - intros i x Hx. rewrite for_each_Ok, Forall_forall in Hwords. apply (validated_word p).
    apply (Hwords (Z.of_nat i, x)). apply enumerate_elem. rewrite Nat2Z.id. split; [lia|done].
  - intros Ha. rewrite Ha in Huses. destruct window as [b|].
    + unfold validate_address_program in Huses. apply bind_Ok in Huses as (w' & [-> _]%check_window_ok & Hu).
      apply bind_Ok in Hu as ([] & _ & Hu). apply bind_Ok in Hu as (uses & Hu & _). by exists uses.
    + apply bind_Ok in Huses as (uses & Hu & _). by exists uses.
  - unfold controlled. intros Hc'. rewrite Hc' in Hc. apply bind_Ok in Hc as (cf & Hcf & _). by exists cf.
Qed.

Lemma choose_list {A B} (R : A → B → Prop) l : (∀ x, x ∈ l → ∃ y, R x y) → ∃ k, Forall2 R l k.
Proof.
  induction l as [|x l IH]; intros HR; [by exists []|]. destruct (HR x) as [y Hy]; [left|].
  destruct IH as [k Hk]; [intros z Hz; apply HR; by right|]. exists (y :: k). by constructor.
Qed.

(** The state a checked start has *)
Record started (m : Machine) : Prop := {
  st_length : length (registers m) = 32%nat;
  st_zero : reg m 0 = 0;
  st_base : 0 ≤ reg m _MEMORY_BASE < 2 ^ 32 }.

Lemma initial_covers m : started m → covers (reg m _MEMORY_BASE) initial_state m.
Proof.
  intros [Hl H0 Hb] r Hr. unfold initial_state. destruct (decide (r = _MEMORY_BASE)) as [->|Hne].
  - exists 0. split; [lia|]. rewrite Z.add_0_r. by rewrite mask_small.
  - unfold prov_at. rewrite nth_lookup, list_lookup_insert_ne by (unfold _MEMORY_BASE in *; lia).
    destruct (decide (r = 0)) as [->|Hr0]; [done|]. rewrite list_lookup_insert_ne by lia.
    unfold unknown_state. rewrite lookup_replicate_2 by lia. done.
Qed.

Section program.
Context (window : option Z) (reserved : list Z) (flags : Flags) (base : Z) (words : list Z).
Context (Hacc : accepted window reserved flags base words) (Hcount : 4 * Z.of_nat (length words) < 2 ^ 32).
Let count := Z.of_nat (length words).

Definition decodes (ds : list (Name * Operands)) : Prop :=
  Forall2 (λ w d, _decode (allow_branches flags) (allow_jumps flags) w = Ok d) words ds.

Lemma decodes_exist : ∃ ds, decodes ds.
Proof.
  apply choose_list. intros w [i Hi]%list_elem_of_lookup. destruct (ac_word _ _ _ _ _ Hacc i w Hi) as (n & o & Hd & _).
  by exists (n, o).
Qed.

Section decoded.
Context (ds : list (Name * Operands)) (Hds : decodes ds).

Lemma decodes_count : Z.of_nat (length ds) = count.
Proof. unfold count. by rewrite (Forall2_length _ _ _ Hds). Qed.
Lemma decodes_word i w : 0 ≤ i → words !! Z.to_nat i = Some w →
  ∃ n o, at_node ds i = Some (n, o) ∧ _decode (allow_branches flags) (allow_jumps flags) w = Ok (n, o).
Proof.
  intros Hi Hw. destruct (Forall2_lookup_l _ _ _ _ _ Hds Hw) as ([n o] & Hd & Hdec). exists n, o.
  split; [|done]. apply at_node_elem, enumerate_elem. done.
Qed.
Lemma decodes_node i n o : at_node ds i = Some (n, o) →
  shaped n o ∧ admitted flags window reserved (Z.of_nat (length ds)) i n o ∧ (controlled flags = false → straight n = true).
Proof.
  intros [Hi Hd]%at_node_elem%enumerate_elem. destruct (Forall2_lookup_r _ _ _ _ _ Hds Hd) as (w & Hw & Hdec).
  pose proof (decode_shape _ _ _ _ _ Hdec) as Hs. destruct (ac_word _ _ _ _ _ Hacc _ w Hw) as (n' & o' & Hd' & Had).
  rewrite Hdec in Hd'. injection Hd' as <- <-. rewrite Z2Nat.id in Had by done. rewrite decodes_count.
  split_and!; [done..|]. intros Hc. unfold controlled in Hc. apply orb_false_iff in Hc as [[Hj _]%orb_false_iff Hb].
  rewrite Hj, Hb in Hdec. by apply decode_straight in Hdec.
Qed.
Lemma decodes_analysed ds' : map_result decode_word (enumerate words) = Ok ds' → ds' = ds.
Proof.
  intros [Hl Hm]%map_result_Ok%(Forall2_enumerate (λ i w d, decode_word (i, w) = Ok d)). apply list_eq. intros i.
  destruct (words !! i) as [w|] eqn:Hw.
  - destruct (Hm i w Hw) as (d & -> & Hd). destruct (Forall2_lookup_l _ _ _ _ _ Hds Hw) as (d' & -> & Hd').
    unfold decode_word in Hd. apply bind_Ok in Hd as ([] & _ & Hd). cbn [snd] in Hd.
    apply decode_more in Hd'. rewrite Hd' in Hd. congruence.
  - apply lookup_ge_None in Hw. rewrite !(proj2 (lookup_ge_None _ _)); [done|..]; [|lia].
    rewrite <- (Forall2_length _ _ _ Hds). lia.
Qed.

(** How far a run can be *)
Record progress (R : Z → Machine → Prop) (Φ : Z → Machine → Z) (bound : Z) : Prop := {
  pr_start m : started m → R 0 m ∧ 0 ≤ Φ 0 m ≤ bound;
  pr_step i n o m e m' v : at_node ds i = Some (n, o) → executes n o (pc_at base i) m e m' v → R i m →
    ∃ j, next_pc e = pc_at base j ∧ 0 ≤ j ≤ count ∧ moves n o i m j ∧ R j m' ∧ 0 ≤ Φ j m' < Φ i m;
  pr_state i m : R i m → length (registers m) = 32%nat }.

Definition repeats (cf : ControlFlow) : Z := foldr Z.add 0 ((λ l, (trip_count l - 1) * loop_length l) <$> loops cf).

Lemma phi_start l m : loop_ok ds l → phi l 0 m = (trip_count l - 1) * loop_length l.
Proof. intros []. unfold phi. by rewrite (proj2 (Z.leb_le 0 _)) by lia. Qed.

Lemma progress_controlled cf :
  control_flow_analysis (allow_jumps flags) (allow_loops flags) (Some base) reserved words = Ok cf →
  ∃ R Φ, progress R Φ (step_limit cf).
Proof.
  intros (ds' & out & S & Hds' & Han)%cfa_sound. apply decodes_analysed in Hds' as ->.
  assert (Hsh : ∀ i n o, at_node ds i = Some (n, o) →
    shaped n o ∧ admitted flags window reserved (Z.of_nat (length ds)) i n o) by (intros i n o Hi%decodes_node; naive_solver).
  assert (Hc : 4 * Z.of_nat (length ds) < 2 ^ 32) by (rewrite decodes_count; done).
  pose proof (analysed_loops _ _ _ _ _ _ _ _ Han Hsh) as [Hok _].
  assert (Hne : ds ≠ []) by (intros He; apply (ac_nonempty _ _ _ _ _ Hacc);
    pose proof decodes_count as Hlen; rewrite He in Hlen; unfold count in Hlen; destruct words; done).
  exists (λ i m, ∃ x18, runs x18 ds cf S i m), (measure ds cf). split.
  - intros m Hm. assert (runs (reg m _MEMORY_BASE) ds cf S 0 m) as Hr.
    { split; [|..|apply Hm|apply Hm].
      - intros _. destruct (an_entry _ _ _ _ _ _ _ Han Hne) as (s & Hs & Hle). exists s. split; [done|].
        eapply covers_le; [done|]. by apply initial_covers.
      - intros l Hl. destruct (Hok l Hl). split; lia. }
    split; [by eexists|]. split; [apply (measure_nonneg _ _ _ _ (reg m _MEMORY_BASE) _ _ _ _ Han Hsh); [lia|done]|].
    rewrite (an_limit _ _ _ _ _ _ _ Han). unfold measure, total. rewrite Z.sub_0_r.
    pose proof (sum_le (λ l, phi l 0 m) (λ l, (trip_count l - 1) * loop_length l) (loops cf)) as Hsum.
    enough (∀ l, l ∈ loops cf → phi l 0 m ≤ (trip_count l - 1) * loop_length l) as Hp; [specialize (Hsum Hp); lia|].
    intros l Hl. by rewrite phi_start by auto.
  - intros i n o m e m' v Hi Hx [x18 Hr].
    destruct (runs_step _ _ _ _ _ _ _ _ _ Han (ac_base _ _ _ _ _ Hacc) Hc Hsh i n o m e m' v Hi Hx Hr)
      as (j & ? & ? & ? & ? & ?). rewrite decodes_count in *. exists j. split_and!; try done; try lia. by eexists.
  - intros i m [x18 Hr]. by apply rn_length in Hr.
Qed.

Lemma progress_straight : controlled flags = false → ∃ R Φ, progress R Φ count.
Proof.
  intros Hc. exists (λ i m, 0 ≤ i ≤ count ∧ length (registers m) = 32%nat), (λ i _, count - i). split.
  - intros m Hm. split; [split; [lia|apply Hm]|lia].
  - intros i n o m e m' v Hi Hx [Hir Hl]. destruct (decodes_node _ _ _ Hi) as (Hs & Had & Hst). specialize (Hst Hc).
    pose proof (at_node_range _ _ _ Hi) as Hr. rewrite decodes_count in Hr.
    exists (i + 1). apply ex_goes in Hx as Hgo. unfold goes in Hgo. pose proof Hst as [Hb Hj]%negb_true_iff%orb_false_iff.
    rewrite Hb in Hgo. assert (next_pc e = (pc_at base i + 4) &&& _MASK32) as -> by (by destruct n).
    split_and!; [by apply (next_at base i 4)|lia..| |lia|lia| |lia|lia].
    + split; [done|congruence..].
    + by rewrite (executes_length _ _ _ _ _ _ _ Hx).
  - intros i m [_ Hl]. done.
Qed.

(** A run under an invariant [E] of its own *)
Lemma accepted_loop (E : Z → Machine → Prop) (Bad : exn → Prop) R Φ bound cap room m log :
  progress R Φ bound →
  (∀ i n o m e m' v j, at_node ds i = Some (n, o) → executes n o (pc_at base i) m e m' v →
    length (registers m) = 32%nat → moves n o i m j → 0 ≤ j ≤ count → E i m → E j m') →
  (∀ i n o m, at_node ds i = Some (n, o) → length (registers m) = 32%nat → E i m → is_memory n = true →
    effective o m `mod` 4 ≠ 0 → Bad (misaligned i n (effective o m))) →
  started m → E 0 m → machine log = m → retirement log = [] → bound ≤ Z.of_nat room →
  match run_loop (allow_branches flags) (allow_jumps flags) words base cap room base log with
  | Ok log' => E count (machine log') ∧ Z.of_nat (length (retirement log')) ≤ bound
  | Err ex => Bad ex
  end.
Proof.
  intros Hp Hstep Hbad Hm HE Hlog Hret Hroom. destruct (pr_start _ _ _ Hp m Hm) as [HR HΦ].
  pose proof (run_loop_ends (allow_branches flags) (allow_jumps flags) words base cap Hcount
    (λ i m, R i m ∧ E i m) Φ Bad) as Hends. cbv zeta in Hends. fold count in Hends.
  assert (pc_at base 0 = base) as Hpc
    by (unfold pc_at; rewrite Z.mul_0_r, Z.add_0_r; apply mask_small; apply (ac_base _ _ _ _ _ Hacc)).
  specialize (fun H => Hends H room 0 log). rewrite Hpc, Hlog, Hret in Hends. cbn [length] in Hends.
  enough (match run_loop (allow_branches flags) (allow_jumps flags) words base cap room base log with
    | Ok log' => (R count (machine log') ∧ E count (machine log')) ∧
        Z.of_nat (length (retirement log')) ≤ Z.of_nat 0 + Φ 0 m | Err ex => Bad ex end) as Hrun.
  { destruct (run_loop _ _ _ _ _ _ _ _); [|done]. destruct Hrun as [[_ ?] ?]. split; [done|lia]. }
  apply Hends; [|lia|done|lia]. intros i m' w Hi Hw [HR' HE'].
  destruct (decodes_word i w ltac:(lia) Hw) as (n & o & Hn & Hd).
  pose proof (execute_word_cases _ _ w (pc_at base i) i m' n o Hd) as Hex. pose proof (pr_state _ _ _ Hp _ _ HR') as Hl.
  destruct (_execute_word _ _ _ _ _ _) as [[e m'']|ex].
  - destruct Hex as [v Hx]. destruct (pr_step _ _ _ Hp _ _ _ _ _ _ _ Hn Hx HR') as (j & ? & ? & ? & ? & ?).
    exists j. split_and!; try done; try lia. by eapply Hstep.
  - destruct Hex as (Hmem & Ha & ->). by apply Hbad.
Qed.
End decoded.
End program.

(** The steps the static analysis allows *)
Definition step_bound (flags : Flags) (base : Z) (words : list Z) : Z :=
  if controlled flags then
    match control_flow_analysis (allow_jumps flags) (allow_loops flags) (Some base) DEFAULT_RESERVED_REGISTERS words with
    | Ok cf => step_limit cf
    | Err _ => 0
    end
  else Z.of_nat (length words).

(** The start of a run *)
Record begins (regs mem : list (Z * Z)) (m : Machine) : Prop := {
  bg_registers : _check_register_state regs = Ok (registers m);
  bg_memory : _check_memory_state mem = Ok (memory m) }.

Definition word_sized (s : list Z) : Prop := length s = 32%nat ∧ Forall (λ v, 0 ≤ v < 2 ^ 32) s.
Lemma register_state_sized regs s acc :
  word_sized acc → fold_result (λ state kv,
    raise_if (negb ((0 <=? kv.1) && (kv.1 <? 32)))
      (ValueError ("register number " +:+ pretty kv.1 +:+ " is not an integer in [0, 31]")) ;;
    raise_if (negb ((0 <=? kv.2) && (kv.2 <=? _MASK32)))
      (ValueError ("register x" +:+ pretty kv.1 +:+ " value " +:+ pretty kv.2
         +:+ " is not a 32-bit unsigned integer")) ;;
    mret (<[Z.to_nat kv.1 := kv.2]> state)) acc regs = Ok s → word_sized s.
Proof.
  revert acc. induction regs as [|[r v] regs IH]; intros acc [Hl Ha]; cbn [fold_result]; [by intros [= <-]|].
  intros (acc' & H & Hrun)%bind_Ok. apply (IH acc'); [|done].
  apply bind_Ok in H as ([] & _ & H). apply bind_Ok in H as ([] & Hv%raise_if_Ok & [= <-]).
  apply negb_false_iff, andb_true_iff in Hv. cbn in *. rewrite !Z.leb_le in Hv. unfold _MASK32 in Hv.
  split; [by rewrite length_insert|]. apply Forall_insert; [done|lia].
Qed.
Lemma begins_started regs mem m : begins regs mem m → started m.
Proof.
  intros [Hr _]. unfold _check_register_state in Hr. apply bind_Ok in Hr as (s & Hs & [= Hm]).
  apply register_state_sized in Hs as [Hl Hf]; [|split; [done|by apply Forall_replicate]].
  assert (length (registers m) = 32%nat) as Hlen by (by rewrite <- Hm, length_insert).
  split; [done|..].
  - unfold reg. rewrite <- Hm, nth_lookup, list_lookup_insert_eq by (cbn; lia). done.
  - unfold reg. rewrite <- Hm, nth_lookup, list_lookup_insert_ne by (unfold _MEMORY_BASE; lia).
    destruct (lookup_lt_is_Some_2 s (Z.to_nat _MEMORY_BASE)) as [v Hv]; [unfold _MEMORY_BASE; lia|]. rewrite Hv.
    rewrite Forall_forall in Hf. apply Hf. by apply list_elem_of_lookup_2 in Hv.
Qed.

Lemma run_program_loop regs mem data_base window flags words m :
  let base := default 0 data_base in
  validate_program_words _REFERENCE_PROFILE window DEFAULT_RESERVED_REGISTERS flags (Some base) words = Ok () →
  begins regs mem m →
  ∃ cap, cap = step_bound flags base words + 1 ∧
    run_program regs mem data_base window flags None true words =
      (log ← run_loop (allow_branches flags) (allow_jumps flags) words base cap (Z.to_nat cap) base (mkLog m [] []);
       mret (report (memory m) log)).
Proof.
  intros base Hval [Hregs Hmem]. pose proof (validated _ _ _ _ _ _ Hval) as Hacc.
  exists (step_bound flags base words + 1). split; [done|]. unfold run_program. fold base.
  rewrite bool_decide_false by apply Hacc. cbn [raise_if mbind result_bind].
  pose proof (ac_base _ _ _ _ _ Hacc) as Hb.
  assert (match data_base with Some b => negb ((0 <=? b) && (b <=? _MASK32)) | None => false end = false) as ->.
  { destruct data_base as [b|]; [|done]. unfold base in Hb. cbn in Hb. apply negb_false_iff, andb_true_iff.
    rewrite !Z.leb_le. unfold _MASK32. lia. }
  cbn [raise_if mbind result_bind]. rewrite Hval, Hregs, Hmem.
  assert (allow_branches flags || allow_jumps flags || allow_loops flags = controlled flags) as ->
    by (unfold controlled; destruct (allow_branches flags), (allow_jumps flags), (allow_loops flags); done).
  unfold step_bound. destruct (controlled flags) eqn:Hc.
  - destruct (ac_control _ _ _ _ _ Hacc Hc) as [cf Hcf]. rewrite Hcf. by destruct m.
  - by destruct m.
Qed.

Lemma step_bound_progress window flags base words ds :
  accepted window DEFAULT_RESERVED_REGISTERS flags base words → 4 * Z.of_nat (length words) < 2 ^ 32 →
  decodes flags words ds → ∃ R Φ, progress base words ds R Φ (step_bound flags base words).
Proof.
  intros Hacc Hc Hds. unfold step_bound. destruct (controlled flags) eqn:Hctl.
  - destruct (ac_control _ _ _ _ _ Hacc Hctl) as [cf Hcf]. rewrite Hcf. by eapply progress_controlled.
  - by eapply progress_straight.
Qed.

(** Every run of an accepted program that keeps [E] *)
Lemma run_accepted regs mem data_base window flags words m ds (E : Z → Machine → Prop) (Bad : exn → Prop) :
  let base := default 0 data_base in
  validate_program_words _REFERENCE_PROFILE window DEFAULT_RESERVED_REGISTERS flags (Some base) words = Ok () →
  begins regs mem m → 4 * Z.of_nat (length words) < 2 ^ 32 → decodes flags words ds →
  (∀ i n o m e m' v j, at_node ds i = Some (n, o) → executes n o (pc_at base i) m e m' v →
    length (registers m) = 32%nat → moves n o i m j → 0 ≤ j ≤ Z.of_nat (length words) → E i m → E j m') →
  (∀ i n o m, at_node ds i = Some (n, o) → length (registers m) = 32%nat → E i m → is_memory n = true →
    effective o m `mod` 4 ≠ 0 → Bad (misaligned i n (effective o m))) →
  E 0 m →
  match run_program regs mem data_base window flags None true words with
  | Ok r => retires r ≤ step_bound flags base words ∧
      ∃ log, r = report (memory m) log ∧ E (Z.of_nat (length words)) (machine log)
  | Err ex => Bad ex
  end.
Proof.
  intros base Hval Hm Hc Hds Hstep Hbad HE. pose proof (validated _ _ _ _ _ _ Hval) as Hacc.
  destruct (step_bound_progress _ _ _ _ _ Hacc Hc Hds) as (R & Φ & Hp).
  destruct (run_program_loop regs mem data_base window flags words m Hval Hm) as (cap & -> & ->).
  pose proof (begins_started _ _ _ Hm) as Hst. fold base.
  assert (0 ≤ step_bound flags base words) by (pose proof (proj2 (pr_start _ _ _ _ _ _ Hp m Hst)); lia).
  pose proof (accepted_loop window DEFAULT_RESERVED_REGISTERS flags base words Hacc Hc ds Hds E Bad R Φ _
    (step_bound flags base words + 1) (Z.to_nat (step_bound flags base words + 1)) m (mkLog m [] []) Hp Hstep Hbad Hst HE
    eq_refl eq_refl ltac:(lia)) as Hrun.
  destruct (run_loop _ _ _ _ _ _ _ _) as [log|ex]; [|done]. destruct Hrun. cbn. split; [done|]. by exists log.
Qed.

(** C10. A program that [validate_program_words] accepts ends within its static
    step bound (its length, and the repeated loop bodies): a run of the
    reference model reports its result, or the misaligned address of a load or
    store; it never exceeds the bound and never leaves the program. *)
Theorem accepted_program_ends regs mem data_base window flags words m :
  validate_program_words _REFERENCE_PROFILE window DEFAULT_RESERVED_REGISTERS flags
    (Some (default 0 data_base)) words = Ok () →
  begins regs mem m → 4 * Z.of_nat (length words) < 2 ^ 32 →
  match run_program regs mem data_base window flags None true words with
  | Ok r => retires r ≤ step_bound flags (default 0 data_base) words
  | Err ex => ∃ index n address, is_memory n = true ∧ address `mod` 4 ≠ 0 ∧ ex = misaligned index n address
  end.
Proof.
  intros Hval Hm Hc. destruct (decodes_exist _ _ _ _ _ (validated _ _ _ _ _ _ Hval)) as [ds Hds].
  pose proof (run_accepted regs mem data_base window flags words m ds (λ _ _, True)
    (λ ex, ∃ index n address, is_memory n = true ∧ address `mod` 4 ≠ 0 ∧ ex = misaligned index n address)) as Hrun.
  cbv zeta in Hrun. specialize (Hrun Hval Hm Hc Hds ltac:(done) ltac:(intros i n o m' _ _ _ ? ?; by eexists _, _, _) I).
  destruct (run_program _ _ _ _ _ _ _ _); [apply Hrun|done].
Qed.

(** ** Containment *)

Lemma mask_mod4 a : (a &&& _MASK32) `mod` 4 = a `mod` 4.
Proof. rewrite mask_mod. apply Z.mod_mod_divide. by exists (2 ^ 30). Qed.

Definition window_address (x18 w a : Z) : Prop := ∃ d, 0 ≤ d ≤ w - 4 ∧ a = (x18 + d) &&& _MASK32 ∧ a `mod` 4 = 0.

Section contained.
Context (w : Z) (flags : Flags) (base : Z) (words : list Z) (ds : list (Name * Operands)) (m0 : Machine).
Context (Hacc : accepted (Some w) DEFAULT_RESERVED_REGISTERS flags base words) (Hds : decodes flags words ds).
Context (Hm0 : started m0).
Let x18 := reg m0 _MEMORY_BASE.
Let count := Z.of_nat (length words).

(** What a run keeps of the registers and the memory *)
Record contained (m : Machine) : Prop := {
  ct_reserved q : q ∈ DEFAULT_RESERVED_REGISTERS → reg m q = reg m0 q;
  ct_memory a : memory m !! a ≠ memory m0 !! a → window_address x18 w a }.

Lemma reserved_range q : q ∈ DEFAULT_RESERVED_REGISTERS → 0 ≤ q < 32 ∧ q ≠ 0 ∧ q ≠ 1.
Proof. unfold DEFAULT_RESERVED_REGISTERS. rewrite !elem_of_cons, elem_of_nil. lia. Qed.

Lemma reserved_unwritten i n o q : at_node ds i = Some (n, o) → q ∈ DEFAULT_RESERVED_REGISTERS → rd o ≠ Some q.
Proof.
  intros Hi Hq Hr. destruct (reserved_range q Hq) as (_ & H0 & H1).
  destruct (decodes_node _ _ _ _ _ Hacc _ Hds _ _ _ Hi) as (Hsh & Had & _). destruct (straight n) eqn:Hs.
  - by destruct (ad_write _ _ _ _ _ _ _ Had q Hs Hr).
  - destruct (is_jump n) eqn:Hj.
    + destruct (ad_link _ _ _ _ _ _ _ Had Hj) as [Hl|Hl]; unfold field in Hl; rewrite Hr in Hl; cbn in Hl; lia.
    + pose proof (sh_rd _ _ Hsh) as Hrd. unfold straight in Hs. rewrite Hj, orb_false_r in Hs.
      apply negb_false_iff in Hs. unfold writes_rd in Hrd. rewrite Hs in Hrd. cbn in Hrd. congruence.
Qed.

(** The address of an access relative to x18 *)
Lemma base_access i n o m : at_node ds i = Some (n, o) → is_memory n = true → field rs1 o = _MEMORY_BASE → contained m →
  (0 ≤ field imm o ≤ w - 4 ∧ field imm o `mod` 4 = 0) ∧ effective o m = (x18 + field imm o) &&& _MASK32.
Proof.
  intros Hi Hm Hb Hc. destruct (decodes_node _ _ _ _ _ Hacc _ Hds _ _ _ Hi) as (_ & Had & _).
  pose proof (ad_memory _ _ _ _ _ _ _ Had Hm) as Hck. unfold check_memory_word in Hck. cbv zeta in Hck.
  rewrite Hb, Z.eqb_refl in Hck. cbn [negb] in Hck. apply bind_Ok in Hck as ([] & H1%raise_if_Ok & H2%raise_if_Ok).
  apply negb_false_iff in H1, H2. apply Z.eqb_eq in H1. apply andb_true_iff in H2. rewrite !Z.leb_le in H2.
  split; [lia|]. unfold effective. rewrite Hb. by rewrite (ct_reserved _ Hc) by (unfold DEFAULT_RESERVED_REGISTERS; set_solver).
Qed.

Lemma contained_step i n o pc m e m' v :
  at_node ds i = Some (n, o) → executes n o pc m e m' v → length (registers m) = 32%nat → contained m →
  (is_memory n = true → field rs1 o ≠ _MEMORY_BASE → ∃ d, 0 ≤ d ≤ w - 4 ∧ effective o m = (x18 + d) &&& _MASK32) →
  contained m'.
Proof.
  intros Hi Hx Hl Hc Haddr. destruct (decodes_node _ _ _ _ _ Hacc _ Hds _ _ _ Hi) as (Hsh & _ & _). split.
  - intros q Hq. rewrite <- (ct_reserved _ Hc) by done.
    apply (executes_other _ _ _ _ _ _ _ _ Hx); [apply Hsh|by eapply reserved_unwritten|done|by apply reserved_range].
  - intros a Ha. rewrite (ex_memory _ _ _ _ _ _ _ Hx) in Ha. case_bool_decide as Hn; [|by apply (ct_memory _ Hc)].
    destruct (decide (a = effective o m)) as [->|Hne]; [|rewrite lookup_insert_ne in Ha by done; by apply (ct_memory _ Hc)].
    assert (is_memory n = true) as Hm by (by subst n). pose proof (ex_aligned _ _ _ _ _ _ _ Hx Hm) as Hal.
    destruct (decide (field rs1 o = _MEMORY_BASE)) as [Hb|Hb].
    + destruct (base_access _ _ _ _ Hi Hm Hb Hc) as [[? _] He]. by exists (field imm o).
    + destruct (Haddr Hm Hb) as (d & ? & ?). by exists d.
Qed.

(** Without address forms every access is relative to x18. *)
Lemma fixed_base i n o : allow_address_forms flags = false → at_node ds i = Some (n, o) → is_memory n = true →
  field rs1 o = _MEMORY_BASE.
Proof.
  intros Ha Hi Hm. destruct (decodes_node _ _ _ _ _ Hacc _ Hds _ _ _ Hi) as (_ & Had & _).
  pose proof (ad_memory _ _ _ _ _ _ _ Had Hm) as Hck. unfold check_memory_word in Hck. cbv zeta in Hck.
  destruct (Z.eqb_spec (field rs1 o) _MEMORY_BASE) as [|]; [done|]. by rewrite Ha in Hck.
Qed.

Section forward.
Context (sts : list State) (Hforward : forward words sts ds) (Hloops : allow_loops flags = false).
Context (Huses : ∀ i n o s, ds !! i = Some (n, o) → sts !! i = Some s → is_memory n = true → use_ok (Some w) o s).

(** The pass covers the registers of a run. *)
Definition tracked (i : Z) (m : Machine) : Prop := i < count → ∃ s, sts !! Z.to_nat i = Some s ∧ covers x18 s m.

Lemma forward_not_jump i n o : at_node ds i = Some (n, o) → is_jump n = false.
Proof.
  intros [_ Hi]%at_node_elem%enumerate_elem. destruct (Forall2_lookup_r _ _ _ _ _ (fd_decode _ _ _ Hforward) Hi) as (x & _ & Hd).
  by apply decode_not_jump in Hd.
Qed.

Lemma tracked_step i n o pc m e m' v j :
  at_node ds i = Some (n, o) → executes n o pc m e m' v → length (registers m) = 32%nat → moves n o i m j →
  0 ≤ j ≤ count → tracked i m → tracked j m'.
Proof.
  intros Hi Hx Hl Hmv Hj Ht Hjc. pose proof (forward_not_jump _ _ _ Hi) as Hnj.
  destruct (decodes_node _ _ _ _ _ Hacc _ Hds _ _ _ Hi) as (Hsh & Had & _). pose proof (at_node_range _ _ _ Hi) as Hir.
  pose proof (decodes_count _ _ _ Hds) as Hlen. rewrite Hlen in Hir, Had.
  destruct (Ht (proj2 Hir)) as (s & Hs & Hcov). pose proof Hi as [_ Hd]%at_node_elem%enumerate_elem.
  destruct (fd_flow _ _ _ Hforward _ n o s j Hd Hs) as (s' & Hs' & Hle).
  - rewrite Hlen, Z2Nat.id by lia. apply successor_indices_elem. fold count. destruct (is_branch n) eqn:Hb.
    + destruct (mv_branch _ _ _ _ _ Hmv Hb) as (taken & _ & ->). destruct taken; [|left; lia]. right.
      destruct (ad_branch _ _ _ _ _ _ _ Had Hb) as (Hk & Hpos & Hr). specialize (Hpos Hloops).
      pose proof (target_aligned _ Hk). split_and!; try done; lia.
    + left. pose proof (mv_straight _ _ _ _ _ Hmv) as ->; [lia|]. unfold straight. by rewrite Hb, Hnj.
  - rewrite Hlen. done.
  - exists s'. split; [done|]. eapply covers_le; [done|].
    pose proof (covers_step _ _ _ _ _ _ _ _ _ Hx Hsh Hl (fd_sized _ _ _ Hforward _ _ Hs) Hcov) as Hc.
    unfold _transfer_state in Hc. by rewrite Hnj in Hc.
Qed.

Lemma tracked_access i n o m : at_node ds i = Some (n, o) → is_memory n = true → tracked i m →
  ∃ d, 0 ≤ d ≤ w - 4 ∧ effective o m = (x18 + d) &&& _MASK32.
Proof.
  intros Hi Hm Ht. pose proof (at_node_range _ _ _ Hi) as Hir. rewrite (decodes_count _ _ _ Hds) in Hir.
  destruct (Ht (proj2 Hir)) as (s & Hs & Hcov). pose proof Hi as [_ Hd]%at_node_elem%enumerate_elem.
  destruct (decodes_node _ _ _ _ _ Hacc _ Hds _ _ _ Hi) as (Hsh & _ & _).
  destruct (Huses _ n o s Hd Hs Hm) as (l & h & Hp & Hw).
  assert (0 ≤ field rs1 o < 32) as Hf by (pose proof (sh_rs1_ok _ _ Hsh); unfold field; destruct (rs1 o); cbn in *; lia).
  pose proof (Hcov _ Hf) as Hh. rewrite Hp in Hh. destruct Hh as (d & Hd' & He).
  exists (d + field imm o). split; [lia|]. unfold effective. rewrite He, mask_add_l. f_equal. lia.
Qed.

Lemma tracked_start : ds ≠ [] → tracked 0 m0.
Proof.
  intros Hne _. destruct (fd_entry _ _ _ Hforward) as (s & Hs & Hle). exists s. split; [done|].
  eapply covers_le; [done|]. by apply initial_covers.
Qed.
End forward.
End contained.

Lemma memory_changes_elem initial log a v :
  (a, v) ∈ memory_changes (report initial log) → memory (machine log) !! a ≠ initial !! a.
Proof.
  cbn. rewrite list_elem_of_filter. cbn. intros [Hne Hin].
  rewrite (merge_sort_Permutation (λ x y : Z * Z, x.1 ≤ y.1)) in Hin. apply elem_of_map_to_list in Hin as ->.
  intros He. rewrite <- He in Hne. by apply Hne.
Qed.
Lemma final_registers_elem initial log q v :
  length (registers (machine log)) = 32%nat → 0 ≤ q < 32 →
  (q, v) ∈ final_registers (report initial log) ↔ v = reg (machine log) q ∧ v ≠ 0.
Proof.
  intros Hl Hq. cbn. rewrite list_elem_of_filter, enumerate_elem. cbn. unfold reg. rewrite nth_lookup.
  destruct (lookup_lt_is_Some_2 (registers (machine log)) (Z.to_nat q)) as [x ->]; [lia|]. cbn. naive_solver lia.
Qed.

Lemma decodes_agree flags words ds dec :
  decodes flags words ds → Forall2 (λ x d, _decode true false x = Ok d) words dec → dec = ds.
Proof.
  intros H1 H2. apply list_eq_Forall2. apply Forall2_same_length_lookup. split.
  - by rewrite <- (Forall2_length _ _ _ H1), (Forall2_length _ _ _ H2).
  - intros i d d' Hd Hd'. destruct (Forall2_lookup_r _ _ _ _ _ H1 Hd') as (x & Hx & Hdec%decode_more).
    destruct (Forall2_lookup_l _ _ _ _ _ H2 Hx) as (d'' & Hd'' & Hdec'%decode_more). congruence.
Qed.

(** The invariant of a run with address forms or loops, but not both *)
Lemma contained_invariant window flags base words ds m :
  accepted (Some window) DEFAULT_RESERVED_REGISTERS flags base words → decodes flags words ds → started m →
  allow_loops flags = false ∨ allow_address_forms flags = false →
  ∃ E : Z → Machine → Prop, E 0 m ∧ (∀ i m', E i m' → contained window m m') ∧
    ∀ i n o m1 e m2 v j, at_node ds i = Some (n, o) → executes n o (pc_at base i) m1 e m2 v →
      length (registers m1) = 32%nat → moves n o i m1 j → 0 ≤ j ≤ Z.of_nat (length words) → E i m1 → E j m2.
Proof.
  intros Hacc Hds Hm Hor. assert (Hc0 : contained window m m) by (split; [done|intros a Ha; by destruct Ha]).
  destruct (allow_address_forms flags) eqn:Hforms.
  - destruct Hor as [Hloops|]; [|done]. destruct (ac_uses _ _ _ _ _ Hacc Hforms) as [uses Hu].
    apply memory_uses_sound in Hu as (sts & dec & Hf & Huses).
    pose proof (decodes_agree _ _ _ _ Hds (fd_decode _ _ _ Hf)) as ->.
    exists (λ i m', contained window m m' ∧ tracked words m sts i m'). split_and!; [done| |by intros i m' [? _]|].
    + apply tracked_start with ds; [done|done|]. intros He. pose proof (Forall2_length _ _ _ Hds) as Hl.
      rewrite He in Hl. pose proof (ac_nonempty _ _ _ _ _ Hacc). by destruct words.
    + intros i n o m1 e m2 v j Hi Hx Hl Hmv Hj [Hc Ht]. split.
      * apply (contained_step _ _ _ _ _ _ Hacc Hds Hm _ _ _ _ _ _ _ _ Hi Hx Hl Hc). intros Hmem _.
        by apply (tracked_access _ _ _ _ _ _ Hacc Hds _ Huses i n o m1).
      * by apply (tracked_step _ _ _ _ _ _ Hacc Hds sts Hf Hloops i n o (pc_at base i) m1 e m2 v).
  - exists (λ _ m', contained window m m'). split_and!; [done|done|]. intros i n o m1 e m2 v j Hi Hx Hl _ _ Hc.
    apply (contained_step _ _ _ _ _ _ Hacc Hds Hm _ _ _ _ _ _ _ _ Hi Hx Hl Hc). intros Hmem Hb.
    destruct Hb. by apply (fixed_base _ _ _ _ _ Hacc Hds i n o).
Qed.

Section containment.
Context (regs mem : list (Z * Z)) (data_base : option Z) (w : Z) (flags : Flags) (words : list Z) (m : Machine).
Context (Hval : validate_program_words _REFERENCE_PROFILE (Some w) DEFAULT_RESERVED_REGISTERS flags
  (Some (default 0 data_base)) words = Ok ()).
Context (Hm : begins regs mem m) (Hc : 4 * Z.of_nat (length words) < 2 ^ 32).

Lemma run_is_contained :
  allow_loops flags = false ∨ allow_address_forms flags = false →
  match run_program regs mem data_base (Some w) flags None true words with
  | Ok r => ∃ log, r = report (memory m) log ∧ contained w m (machine log) ∧ length (registers (machine log)) = 32%nat
  | Err _ => allow_address_forms flags = true ∨ reg m _MEMORY_BASE `mod` 4 ≠ 0
  end.
Proof.
  intros Hor. pose proof (validated _ _ _ _ _ _ Hval) as Hacc. destruct (decodes_exist _ _ _ _ _ Hacc) as [ds Hds].
  pose proof (begins_started _ _ _ Hm) as Hst.
  destruct (contained_invariant w flags _ words ds m Hacc Hds Hst Hor) as (E & HE0 & HE & Hstep).
  pose proof (run_accepted regs mem data_base (Some w) flags words m ds
    (λ i m', E i m' ∧ length (registers m') = 32%nat)
    (λ _, allow_address_forms flags = true ∨ reg m _MEMORY_BASE `mod` 4 ≠ 0) Hval Hm Hc Hds) as Hrun. cbv zeta in Hrun.
  enough (match run_program regs mem data_base (Some w) flags None true words with
    | Ok r => retires r ≤ step_bound flags (default 0 data_base) words ∧ ∃ log, r = report (memory m) log ∧
        E (Z.of_nat (length words)) (machine log) ∧ length (registers (machine log)) = 32%nat
    | Err _ => allow_address_forms flags = true ∨ reg m _MEMORY_BASE `mod` 4 ≠ 0 end) as H.
  { destruct (run_program _ _ _ _ _ _ _ _); [|done]. destruct H as (_ & log & -> & He & ?). exists log.
    split_and!; [done|by eapply HE|done]. }
  apply Hrun; [| |split; [done|apply Hst]].
  - intros i n o m1 e m2 v j Hi Hx Hl Hmv Hj [He _]. split; [by eapply Hstep|].
    by rewrite (executes_length _ _ _ _ _ _ _ Hx).
  - intros i n o m1 Hi Hl [He _] Hmem Hal. destruct (allow_address_forms flags) eqn:Hforms; [by left|]. right. intros Hbase.
    pose proof (fixed_base _ _ _ _ _ Hacc Hds i n o Hforms Hi Hmem) as Hb.
    destruct (base_access _ _ _ _ _ _ Hacc Hds Hst i n o m1 Hi Hmem Hb (HE _ _ He)) as [[_ Hk] Heff].
    apply Hal. rewrite Heff, mask_mod4. rewrite Zplus_mod, Hbase, Hk. done.
Qed.
End containment.

(** C11. With address forms or loops, but not both, an accepted program changes
    memory only at aligned addresses of the declared window behind x18, and ends
    with the reserved registers as it found them; unless it uses address forms,
    or x18 is not aligned, its run does not fail. *)
Theorem accepted_program_is_contained regs mem data_base w flags words m :
  validate_program_words _REFERENCE_PROFILE (Some w) DEFAULT_RESERVED_REGISTERS flags
    (Some (default 0 data_base)) words = Ok () →
  begins regs mem m → 4 * Z.of_nat (length words) < 2 ^ 32 →
  allow_loops flags = false ∨ allow_address_forms flags = false →
  match run_program regs mem data_base (Some w) flags None true words with
  | Ok r =>
      (∀ a v, (a, v) ∈ memory_changes r → window_address (reg m _MEMORY_BASE) w a) ∧
      (∀ q v, q ∈ DEFAULT_RESERVED_REGISTERS → (q, v) ∈ final_registers r ↔ v = reg m q ∧ v ≠ 0)
  | Err _ => allow_address_forms flags = true ∨ reg m _MEMORY_BASE `mod` 4 ≠ 0
  end.
Proof.
  intros Hval Hm Hc Hor. pose proof (run_is_contained regs mem data_base w flags words m Hval Hm Hc Hor) as Hrun.
  destruct (run_program _ _ _ _ _ _ _ _) as [r|]; [|done]. destruct Hrun as (log & -> & Hcont & Hl). split.
  - intros a v Ha%memory_changes_elem. by apply (ct_memory _ _ _ Hcont).
  - intros q v Hq. rewrite final_registers_elem by (try apply reserved_range; done).
    by rewrite (ct_reserved _ _ _ Hcont q Hq).
Qed.

(** ** Programs the gate does and does not bound *)

Module RvExample.

(** Encodings of [addi], [sw] at offset 0, [beq] forward and [bne] back over [k]
    words *)
Definition addi (rd rs1 imm : Z) : Z := ((imm &&& 0xfff) ≪ 20) ||| (rs1 ≪ 15) ||| (rd ≪ 7) ||| 0x13.
Definition sw (rs2 rs1 : Z) : Z := (rs2 ≪ 20) ||| (rs1 ≪ 15) ||| (2 ≪ 12) ||| 0x23.
Definition branch (funct3 rs1 rs2 k : Z) : Z :=
  let o := 4 * k in
  (((o ≫ 12) &&& 1) ≪ 31) ||| (((o ≫ 5) &&& 0x3f) ≪ 25) ||| (rs2 ≪ 20) ||| (rs1 ≪ 15) ||| (funct3 ≪ 12)
  ||| (((o ≫ 1) &&& 0xf) ≪ 8) ||| (((o ≫ 11) &&& 1) ≪ 7) ||| 0x63.
Definition beq := branch 0.
Definition bne := branch 1.

Definition loop_flags : Flags := mkFlags true false false true.
Definition form_flags : Flags := mkFlags true true false false.
Definition both_flags : Flags := mkFlags true true false true.

(** A bounded loop that stores its counter *)
Definition countdown : list Z := [addi 13 0 3; sw 13 18; addi 13 13 (-1); bne 13 0 (-2)].
(** The same loop, with a pointer that moves by four *)
Definition pointer_loop : list Z := [addi 12 18 0; addi 13 0 3; addi 12 12 4; addi 13 13 (-1); bne 13 0 (-2)].
(** A pointer that leaves the window behind the store, and comes back to it *)
Definition escaping_loop : list Z :=
  [addi 12 18 0; addi 13 0 2; sw 13 12; addi 12 18 2000; addi 13 13 (-1); bne 13 0 (-3)].
(** A store through a pointer that is at 0, 2 or 4 *)
Definition merged_pointer : list Z :=
  [addi 12 18 0; beq 5 0 4; addi 12 18 2; beq 6 0 2; addi 12 18 4; sw 13 12].

Definition start : Machine := mkMachine (<[18%nat := 4096]> (replicate 32 0)) ∅.
Lemma start_begins : begins [(18, 4096)] [] start.
Proof. by split. Qed.

Lemma accepted_program_ends_witness :
  step_bound loop_flags 0 countdown = 10 ∧
  match run_program [(18, 4096)] [] (Some 0) (Some 64) loop_flags None true countdown with
  | Ok r => retires r ≤ step_bound loop_flags 0 countdown
  | Err ex => ∃ index n address, is_memory n = true ∧ address `mod` 4 ≠ 0 ∧ ex = misaligned index n address
  end.
Proof.
  split; [vm_compute; reflexivity|].
  apply (accepted_program_ends [(18, 4096)] [] (Some 0) (Some 64) loop_flags countdown start);
    [vm_compute; reflexivity|exact start_begins|vm_compute; reflexivity].
Defined.

Lemma accepted_program_is_contained_witness :
  match run_program [(18, 4096)] [] (Some 0) (Some 64) loop_flags None true countdown with
  | Ok r =>
      (∀ a v, (a, v) ∈ memory_changes r → window_address (reg start _MEMORY_BASE) 64 a) ∧
      (∀ q v, q ∈ DEFAULT_RESERVED_REGISTERS → (q, v) ∈ final_registers r ↔ v = reg start q ∧ v ≠ 0)
  | Err _ => allow_address_forms loop_flags = true ∨ reg start _MEMORY_BASE `mod` 4 ≠ 0
  end.
Proof.
  apply (accepted_program_is_contained [(18, 4096)] [] (Some 0) 64 loop_flags countdown start);
    [vm_compute; reflexivity|exact start_begins|vm_compute; reflexivity|right; reflexivity].
Defined.

(** The run of the bounded loop takes all the steps of the bound. *)
Lemma countdown_runs :
  match run_program [(18, 4096)] [] (Some 0) (Some 64) loop_flags None true countdown with
  | Ok r => retires r = 10 ∧ memory_changes r = [(4096, 1)]
  | Err _ => False
  end.
Proof. vm_compute. done. Qed.

(** The budget of the provenance fixpoint does not bound it: the interval of a
    pointer a loop moves grows until the budget is gone, and the gate raises an
    [AssertionError]. *)
Lemma pointer_loop_does_not_converge :
  validate_program_words _REFERENCE_PROFILE (Some 64) DEFAULT_RESERVED_REGISTERS loop_flags (Some 0) pointer_loop
    = Err not_converged.
Proof. vm_compute. reflexivity. Qed.

(** With address forms and loops the window check ignores the back edge. *)
Lemma escaping_loop_is_accepted :
  validate_program_words _REFERENCE_PROFILE (Some 64) DEFAULT_RESERVED_REGISTERS both_flags (Some 0) escaping_loop
    = Ok () ∧
  match run_program [(18, 4096)] [] (Some 0) (Some 64) both_flags None true escaping_loop with
  | Ok r => memory_changes r = [(4096, 2); (6096, 1)]
  | Err _ => False
  end ∧
  ¬ window_address 4096 64 6096.
Proof.
  split_and!; [vm_compute; reflexivity..|]. intros (d & Hd & He & _). rewrite mask_small in He; lia.
Qed.

(** The interval of a merged pointer has aligned ends, but a value between them
    that is not. *)
Lemma merged_pointer_is_accepted :
  validate_program_words _REFERENCE_PROFILE (Some 64) DEFAULT_RESERVED_REGISTERS form_flags (Some 0) merged_pointer
    = Ok () ∧
  run_program [(5, 1); (18, 4096)] [] (Some 0) (Some 64) form_flags None true merged_pointer = Err (misaligned 5 SW 4098).
Proof. split; vm_compute; reflexivity. Qed.

(** A misaligned JAL is refused with the wrong exception. *)
Lemma misaligned_jal_is_a_key_error :
  control_flow_analysis true false (Some 0) DEFAULT_RESERVED_REGISTERS [0x0020006f] = Err (KeyError "rs1").
Proof. vm_compute. reflexivity. Qed.

End RvExample.
